(* ===== verification/_CoqProject ===== *)
-Q . S2P
Prelude.v
CLib.v
Machine.v
Siphash.v
Table.v
HashMap.v
HashMapSpec.v
BucketVisit.v
HashMapRefine.v
BucketLock.v
Primes.v
MemTypes.v
TextRequest.v
TextRequestSpec.v
TextRoundtrip.v
BinaryRequest.v
BinaryRequestSpec.v
BinaryRoundtrip.v
MemState.v
MemObject.v
MemObjectSpec.v
Response.v
Stats.v
Replication.v
Samples.v
ReplicationSpec.v
MemSocket.v
MemSocketSpec.v
ServiceSpec.v
TextService.v
BinaryService.v
MemStream.v
MemWork.v
MemWorkSpec.v
MemGC.v
MemGCSpec.v
MemSystem.v
MemConc.v
MemConcSpec.v
Mirror.v
MirrorSystem.v
Protocol.v
Defects.v
Counter.v
CounterSpec.v
CounterSystem.v
CounterWork.v
CounterConc.v
Dynbuf.v
Tempfile.v
DynbufFrame.v
ObjectStore.v
ObjectStoreSpec.v
StoreTable.v
RecvJob.v
RecvServices.v
SlaveRecv.v
Tcp.v
TcpSpec.v
TcpHistory.v
Config.v
ConfigRoundtrip.v
Logger.v
Startup.v
Network.v
Server.v
Reactor.v
ReactorInv.v
ReactorSafe.v
ReactorRun.v
ReactorStop.v
ReactorCounter.v
ReactorSync.v
SlaveLoop.v
Worker.v
Spinlock.v
