(* ===== verification/Prelude.v ===== *)
(** * A verification of yrmcds

    yrmcds is a memory object server that speaks the memcache protocol (text and binary,
    with locking extensions), replicates a master to slaves, and offers a second protocol of
    named counters (semaphores).  This library models its core as executable functions and
    proves what makes it correct.

    ** The program and its model

    A reactor thread accepts connections and dispatches receive jobs to worker threads.  A
    job ([memcache_socket::m_recvjob], [counter_socket::m_recvjob]) reads what the
    connection has sent, parses the complete requests and executes them on the shared
    [hash_map], whose buckets are guarded by mutexes; a collector thread removes expired
    objects; on the master every change is also sent to the slaves, where [repl_recv]
    applies it.

    Every operation on the table runs inside one bucket's critical section.  The model
    treats it as an atomic function of the table, which BucketLock justifies for threads
    that run access by access on mutexes.  Code with effects is written in the monad [M]
    below: it takes an environment (statistics, the connection's state, the output so far)
    and returns a value or an exception, with the new environment.  Pointers into a receive
    buffer are offsets and a read past the received bytes has no value.  Integers are [Z]
    with the wrap-around of their width written out ([u32], [u64], ...).

    - Prelude: the monad, memory reads, byte order (cybozu/util.hpp), weakest preconditions,
      automation.
    - CLib: the functions of the C and C++ libraries that the sources call ([strtoull],
      [std::stoull], [std::to_string], ...), and [tokenize] (cybozu/util.cpp).
    - Siphash: cybozu/siphash.cpp, and the published algorithm.
    - Table: the contract of an object table, a type class with laws against which all
      protocol code is proved; HashMap: cybozu/hash_map.hpp and hash_map.cpp; HashMapSpec:
      the table satisfies the contract; HashMapRefine: sequences of operations against a
      finite map; BucketLock: the mutexes of the buckets and the threads that wait for them;
      BucketVisit: a collection bucket by bucket; Primes: [nearest_prime].
    - Machine: computations cut into steps, for MemWork and CounterWork.
    - MemTypes, TextRequest, BinaryRequest: the enumerations of src/memcache/memcache.hpp
      and the parsers of memcache.cpp, with TextRequestSpec, BinaryRequestSpec (bounds and
      stability) and TextRoundtrip, BinaryRoundtrip (the wire formats).
    - MemState: [g_stats], the settings, what a request handler reads and changes.
      MemObject, MemObjectSpec: class [object] of src/memcache/object.hpp, object.cpp.
    - Response, Stats: [text_response] and [binary_response], and the reports.
    - Replication, ReplicationSpec: src/memcache/replication.cpp, both sides.
    - MemSocket: [cmd_bin], [cmd_text], the lock list, the receive job and the destructor of
      src/memcache/sockets.cpp, sockets.hpp; MemSocketSpec: the invariant every command
      keeps; MemStream: how a stream of bytes is cut into requests; ServiceSpec: the
      abstract objects and the calculus of refinement; TextService, BinaryService: the
      specifications of the two protocols and the refinement proofs.
    - MemGC, MemGCSpec: src/memcache/gc.cpp.
    - MemSystem: the memcache service as a state machine (accept, receive job, destruction
      of a connection, collection) and its invariants.  MemWork: the receive job as a
      machine that has at most one critical section of the table in each step; MemWorkSpec:
      what a step does.  MemConc: jobs, invalidations, destructors and the collector, which
      works bucket by bucket, interleaved in any way, with descriptor numbers that are given
      to new sockets before the old ones are destructed and with jobs that start on invalid
      sockets; MemConcSpec: the invariants of MemSystem under every interleaving that is
      orderly in these two respects, and what happens in the others.  Mirror: what each
      command sends to a slave, as changes of the abstract contents; MirrorSystem: the same
      for all threads of MemConc.  Protocol: the theorems on the parsers and on
      segmentation.  Defects: behaviour that looks unintended.
    - Counter: src/counter (parser, responses, objects, connections, collector, handler);
      CounterSpec: its parser; CounterSystem: the counter service as a state machine;
      CounterWork, CounterConc: its jobs, destructors and collections interleaved as in
      MemWork and MemConc.
    - Dynbuf: cybozu/dynbuf.hpp over an allocator; Tempfile: src/tempfile.cpp on top of it;
      DynbufFrame: several buffers in one heap.  ObjectStore, ObjectStoreSpec: class
      [object] once more, on its buffer and its file, and that MemObject is what it
      implements; StoreTable: a table of such objects in one heap.
    - RecvJob: the receive job with the worker's buffer and the pending data, for any
      protocol given by a type class, and [tcp_socket::receive]; RecvServices: its two
      instances. SlaveRecv: [repl_client_socket::on_readable], the buffer and [repl_recv]
      together.
    - Tcp, TcpSpec, TcpHistory: the send side of [tcp_socket] (cybozu/tcp.cpp, tcp.hpp), the
      invariant of its queue, and histories of a socket shared by many threads.
    - Config, ConfigRoundtrip: cybozu/config_parser, src/config.cpp, cybozu/ip_address.cpp.
    - Logger: cybozu/logger over a file system.  Startup: src/main.cpp,
      cybozu/filesystem.cpp, cybozu/thread.hpp.  Network: connecting, listening and
      accepting (cybozu/tcp.cpp, the [on_start] methods of the handlers).  Server: signals
      and statistics (cybozu/signal, src/server.cpp, [dump_stats] and [clear] of the
      handlers).
    - Reactor: cybozu/reactor, the finder of workers, src/sync.hpp, the handlers of sockets
      on the reactor thread, src/memcache/handler.cpp and the loop of src/server.cpp on a
      master.  The reactor thread is a program of the monad that yields to the other threads
      before each access to shared state; a schedule in the state says which steps they
      take.  ReactorInv: the invariant and the steps of the other threads; ReactorSafe: each
      operation keeps it; ReactorRun: the loop; ReactorStop: the end of a master;
      ReactorCounter: the sockets of the counter protocol; ReactorSync: the copies of the
      list of slaves that jobs work with.
    - SlaveLoop: the same on a slave, with the sessions of [server::serve].
    - Worker: cybozu/worker.hpp as a step relation of two threads.  Spinlock:
      cybozu/spinlock.hpp and the queue of removal requests that it guards, as a step
      relation of any number of threads.
    - Samples: concrete inputs on which the definitions are evaluated.

    ** What is proved

    - Atomicity (BucketLock, MemWork, CounterWork): calls of the methods of the hash map are
      linearizable and none waits for ever; the steps of a receive job, left alone, are the
      job as one function.
    - Locking (MemConcSpec, MemSystem): under every orderly interleaving of jobs,
      invalidations, destructors and the collector a locked object is held by exactly one
      socket; no thread raises an internal exception; what a socket has locked stays as it
      is until the socket acts; a destructor releases exactly the connection's locks; stored
      objects stay well formed.  Orderly means that a new socket does not get the descriptor
      number of an invalid one that still locks objects or executes requests, and that no
      job starts on an invalid socket that locks objects; the program guarantees neither,
      and [reuse_fails] and [late_job_fails] show what happens then.
    - Refinement (TextService, BinaryService, ObjectStoreSpec, StoreTable, RecvServices,
      ReplicationSpec, SlaveRecv, HashMapRefine): the text and the binary commands on keys
      implement an abstract service, replies included, but for two cases of lock-and-get
      that [deviation] states; tables of objects on buffers and files behave as finite maps
      of their contents; the receive jobs on buffers behave as on plain byte sequences; a
      slave that receives a prefix of the master's messages, cut anywhere, holds what its
      parser makes of the complete ones, which are the changes of the master unless values
      are empty or expiration times do not fit; the hash map is a finite map for any seed
      and size.
    - Replication (MirrorSystem, SlaveRecv): under every interleaving, once a collection has
      copied the objects to a new slave that all jobs know, what the slave is sent is the
      messages of changes that lead to the contents of the master, then and at every later
      moment, and the slave has these contents if the messages can say them.
    - Parsers (Protocol, BinaryRequestSpec, CounterSpec): they terminate and stay within the
      received bytes (for the text parser on lines whose white space are blanks), later
      bytes do not change a complete request, well-formed requests are understood as sent,
      and the segmentation of the stream is irrelevant as long as no parser reads past what
      has arrived and no remainder exceeds the limit.
    - Collection (MemConcSpec, MemSystem): every visit of a bucket removes exactly the
      flushed, evicted and expired objects that are not locked, whatever other threads do
      between visits; so does a run without interruption.
    - Counters (CounterConc, CounterSystem): under every interleaving of requests within a
      limit consumption is the sum of what connections hold and the internal checks never
      fail; a connection that goes away gives all back.
    - Threads and sockets (ReactorRun, ReactorStop, ReactorCounter, ReactorSync, SlaveLoop,
      Worker, Spinlock): under every interleaving, to the end of the master, no thread of a
      master touches a destructed socket or a closed descriptor, one worker at a time
      receives for a socket, synchronization requests complete, and a slave that gets its
      initial replication is known to all jobs in progress; a slave is safe except in two
      situations that are spelled out; jobs run once, in order, and do run; removal requests
      are neither lost nor repeated.
    - Sending (TcpHistory): the kernel gets exactly the accepted messages in order, no
      waiting sender is forgotten, what is queued goes out.
    - Storage and settings (Dynbuf, Tempfile, Config, ConfigRoundtrip): buffers and files
      are byte sequences, erased blocks hold nothing of the past, accepted settings are
      legal, and every legal setting can be written down.
    - The process (Startup, Network, Logger, Server): it serves only with the privileges and
      the addresses that are configured, no descriptor is leaked when connecting or
      accepting (but one may be closed twice, exactly when the theorem says so), logs hold
      whole lines in the right file through rotations, signals do what they say.
    - Arithmetic: SipHash-2-4 and [nearest_prime] are correct; where 32-bit sums of the
      counter protocol wrap is shown.
    - Defects: the exact conditions under which the code misbehaves (a descriptor reused
      while its old owner still holds locks, a job on an invalid socket, lock and get of an
      expired object, replication of empty objects, a text parser that reads past its line,
      an overflowing counter).  Further ones stand next to the component:
      [slave_use_after_free], [worker_stop_hangs], [worker_first_job_lost],
      [send_after_close_drops], [config_size_not_runtime_error],
      [config_repl_buffers_refused], [prepend_leaves_secret], [file_read_leaves_secret],
      [accept_closes_twice], [flush_lost], [replica_stale], [reuse_fails], [late_job_fails],
      [recv_error_thrown].

    ** Bounds and fuel

    Loops that are not structural take fuel.  The loops over requests get one more than the
    number of buffered bytes, which suffices because every request consumes a byte:
    [no_fuel] is one of the exceptions excluded by the theorems on jobs.  The loop over keys
    gets one more than the length of the buffer ([text_keys_total]).  [nearest_prime] needs
    2^31 rounds at most.  The reading loop of a temporary file gets one round per byte, the
    queueing loops of a socket one per free buffer ([_sendv] one more, for the buffer in
    use).  The loop of the reactor runs over a finite script of events and ticks of any
    length, and so do the loops that call the kernel until it answers otherwise ([recv],
    [accept], [write] of the log, [read] of signals): they take the list of its answers.
    Joining a thread waits as long as the schedule lasts.

    ** Assumptions

    The theorems on locks are about orderly runs (above).  Those on counters assume that the
    maxima of requests are at most a limit whose double fits in 32 bits; [acquire_wraps]
    shows the overflow.  In the models of request handling sending never fails: it is
    recorded as output, and what becomes of it is the subject of Tcp.  Memory allocation
    succeeds.  Atomic accesses are sequentially consistent. In Reactor the workers have
    begun to wait before the first job (Worker shows what happens otherwise), and a
    descriptor accepted by the kernel is one that is not open.  The kernel of Network gives
    the same answer to the same call. [getaddrinfo], the network interfaces, the file
    system, the user databases and the answers of the kernel are parameters of Config,
    Startup and Network.

    ** What is not modelled

    The receive jobs of Reactor are their accesses to sockets, and what they do to the table
    is in MemSocket and MemConc; these work on the objects of MemObject, and StoreTable
    relates tables of such objects to buffers and files for handlers that are given as
    functions from the members of an object to calls of its methods.  The sockets of the
    counter protocol run beside [poll] of Reactor (ReactorCounter), not inside it.  Left
    out: flushing files to the disk, the pauses of an initial replication, the address of a
    peer in log lines, the handler of SIGABRT, stack traces and demangling (debugging
    output), and the tests. *)

From stdpp Require Export base tactics option list numbers strings gmap.
From Stdlib Require Export ZArith Lia.
From Stdlib Require Export Strings.Byte.

#[export] Set Default Goal Selector "!".

Declare Scope yrmcds_scope.
Delimit Scope yrmcds_scope with yr.
Open Scope Z_scope.
Open Scope yrmcds_scope.

(** ** Bytes and C++ integers *)

Abbreviation bytes := (list byte).

#[export] Instance byte_eq_dec : EqDecision byte := Byte.byte_eq_dec.
#[export] Program Instance byte_countable : Countable byte :=
  inj_countable Byte.to_N Byte.of_N _.
Next Obligation. intros b. apply Byte.of_to_N. Qed.

(** The value of an [unsigned char]. *)
Definition Zb (b : byte) : Z := Z.of_N (Byte.to_N b).

(** Conversion of an integer to [unsigned char]: the low eight bits. *)
Definition bZ (z : Z) : byte :=
  default x00 (Byte.of_N (Z.to_N (z `mod` 256))).

(** Wrap-around of the unsigned integer types of the source. *)
Definition u8 (z : Z) : Z := z `mod` 2 ^ 8.
Definition u16 (z : Z) : Z := z `mod` 2 ^ 16.
Definition u32 (z : Z) : Z := z `mod` 2 ^ 32.
Definition u64 (z : Z) : Z := z `mod` 2 ^ 64.

(** String literals of the source, as bytes. *)
Definition lit (s : string) : bytes := String.list_byte_of_string s.

(** The length of a byte string as a [std::size_t]. *)
Definition blen (s : bytes) : Z := Z.of_nat (length s).

(** ** Exceptions, and the state and exception monad of stateful code

    A computation over an environment [E] returns a value or raises a C++
    exception; the environment reached at that point is kept in both cases. *)

Inductive exn :=
| logic_error
| runtime_error
| invalid_argument
| not_a_number
| illegal_value
| bad_config
| system_error
| bad_read      (** not an exception of the source: a read past the received bytes *)
| no_fuel.      (** not an exception of the source: a loop bound was too small *)

#[export] Instance exn_eq_dec : EqDecision exn.
Proof. solve_decision. Defined.

Definition M (E A : Type) : Type := E -> (exn + A) * E.

Definition ret {E A} (a : A) : M E A := fun e => (inr a, e).
Definition throw {E A} (x : exn) : M E A := fun e => (inl x, e).
Definition bind {E A B} (m : M E A) (k : A -> M E B) : M E B := fun e =>
  match m e with
  | (inr a, e') => k a e'
  | (inl x, e') => (inl x, e')
  end.
Definition gets {E A} (f : E -> A) : M E A := fun e => (inr (f e), e).
Definition modify {E} (f : E -> E) : M E unit := fun e => (inr tt, f e).
(** [try { m } catch( x ) { h }]: only the named exception is caught. *)
Definition catch {E A} (m : M E A) (x : exn) (h : M E A) : M E A := fun e =>
  match m e with
  | (inl y, e') => if decide (y = x) then h e' else (inl y, e')
  | r => r
  end.
Definition when {E} (b : bool) (m : M E unit) : M E unit :=
  if b then m else ret tt.
(** A parser's result: an absent one is a read past the buffer. *)
Definition checked {E A} (o : option A) : M E A :=
  match o with Some a => ret a | None => throw bad_read end.
(** The lambdas of the source run for each element in order. *)
Fixpoint iterM {E A} (f : A -> M E unit) (l : list A) : M E unit :=
  match l with
  | [] => ret tt
  | a :: l' => bind (f a) (fun _ => iterM f l')
  end.

Notation "'let!' x ':=' m 'in' k" := (bind m (fun x => k))
  (at level 10, x pattern, m at level 100, k at level 200,
   format "'[v' 'let!'  x  ':='  m  'in' '/' k ']'") : yrmcds_scope.
Notation "m ;;! k" := (bind m (fun _ => k))
  (at level 100, right associativity, format "'[v' m  ;;! '/' k ']'") : yrmcds_scope.

(** ** Memory reads

    A pointer into a receive buffer is an offset; reading at or past the end of
    the received bytes has no value ([None]). *)

Definition deref (buf : bytes) (p : nat) : option byte := buf !! p.

(** [std::memcpy] of [n] bytes starting at [p]. *)
Definition read_n (buf : bytes) (p n : nat) : option bytes :=
  if decide (p + n <= length buf)%nat then Some (take n (drop p buf)) else None.

(** ** Network byte order (cybozu/util.hpp) *)

Fixpoint be_bytes (n : nat) (z : Z) : bytes :=
  match n with
  | O => []
  | S n' => bZ (Z.shiftr z (8 * Z.of_nat n')) :: be_bytes n' z
  end.

Fixpoint be_Z (s : bytes) : Z :=
  match s with
  | [] => 0
  | b :: s' => Zb b * 2 ^ (8 * Z.of_nat (length s')) + be_Z s'
  end.

(** [hton] for an integer of [n] bytes. *)
Definition hton (n : nat) (d : Z) : bytes := be_bytes n d.

(** [ntoh] for an integer of [n] bytes. *)
Definition ntoh (n : nat) (buf : bytes) (p : nat) : option Z :=
  s ← read_n buf p n; Some (be_Z s).

(** ** Automation *)

Create HintDb yrmcds.
Create Rewrite HintDb yrmcds_len.

(** Run a monadic computation symbolically. *)
Ltac munfold := unfold bind, ret, throw, gets, modify, when, catch in *; cbn in *.

(** Case analysis on a boolean guard, with its meaning as a proposition. *)
Ltac bsplit :=
  match goal with
  | |- context [if (?a =? ?b) then _ else _] => destruct (Z.eqb_spec a b)
  | |- context [if (?a <? ?b) then _ else _] => destruct (Z.ltb_spec a b)
  | |- context [if (?a <=? ?b) then _ else _] => destruct (Z.leb_spec a b)
  | |- context [if (?a >? ?b) then _ else _] => rewrite (Z.gtb_ltb a b)
  | |- context [if (?a >=? ?b) then _ else _] => rewrite (Z.geb_leb a b)
  end.

(** Decompose a chain of successful [option] binds in the hypotheses. *)
Ltac obind :=
  repeat match goal with
  | H : mbind _ _ = Some _ |- _ => apply bind_Some in H as (? & ? & ?)
  | H : Some _ = Some _ |- _ => injection H as H; try subst
  | H : None = Some _ |- _ => discriminate H
  end.

(** ** Lemmas on bytes *)

Lemma Zb_range b : 0 <= Zb b < 256.
Proof. unfold Zb. pose proof (Byte.to_N_bounded b). lia. Qed.

Lemma Zb_bZ z : Zb (bZ z) = z `mod` 256.
Proof.
  unfold Zb, bZ.
  pose proof (Z.mod_pos_bound z 256 ltac:(lia)) as Hb.
  destruct (Byte.of_N (Z.to_N (z `mod` 256))) as [b|] eqn:E; cbn.
  - apply Byte.to_of_N in E. rewrite E. lia.
  - apply Byte.of_N_None_iff in E. lia.
Qed.

Lemma bZ_Zb b : bZ (Zb b) = b.
Proof.
  unfold bZ, Zb. rewrite Z.mod_small by (apply Zb_range).
  by rewrite N2Z.id, Byte.of_to_N.
Qed.

Lemma Zb_inj b c : Zb b = Zb c -> b = c.
Proof. intros H. by rewrite <- (bZ_Zb b), <- (bZ_Zb c), H. Qed.

Lemma blen_nonneg s : 0 <= blen s.
Proof. unfold blen. lia. Qed.

Lemma blen_app s t : blen (s ++ t) = blen s + blen t.
Proof. unfold blen. rewrite length_app. lia. Qed.

(** ** Lemmas on machine integers *)

Lemma u32_range z : 0 <= u32 z < 2 ^ 32.
Proof. apply Z.mod_pos_bound. lia. Qed.

Lemma u64_range z : 0 <= u64 z < 2 ^ 64.
Proof. apply Z.mod_pos_bound. lia. Qed.

Lemma u32_small z : 0 <= z < 2 ^ 32 -> u32 z = z.
Proof. apply Z.mod_small. Qed.

Lemma u64_small z : 0 <= z < 2 ^ 64 -> u64 z = z.
Proof. apply Z.mod_small. Qed.

(** ** Lemmas on network byte order *)

Lemma length_be_bytes n z : length (be_bytes n z) = n.
Proof. revert z. induction n as [|n IH]; intros z; cbn; [done|]. by rewrite IH. Qed.
#[export] Hint Rewrite length_be_bytes : yrmcds_len.

Lemma be_Z_be_bytes n z : be_Z (be_bytes n z) = z `mod` 2 ^ (8 * Z.of_nat n).
Proof.
  induction n as [|n IH]; [cbn; by rewrite Z.mod_1_r|].
  cbn [be_bytes be_Z]. rewrite IH, length_be_bytes, Zb_bZ, Z.shiftr_div_pow2 by lia.
  replace (8 * Z.of_nat (S n)) with (8 * Z.of_nat n + 8) by lia.
  rewrite Z.pow_add_r by lia. set (p := 2 ^ (8 * Z.of_nat n)).
  assert (0 < p) by (apply Z.pow_pos_nonneg; lia).
  change (2 ^ 8) with 256. rewrite Z.rem_mul_r by lia. lia.
Qed.

Lemma be_Z_range s : 0 <= be_Z s < 2 ^ (8 * Z.of_nat (length s)).
Proof.
  induction s as [|b s IH]; [done|].
  cbn [be_Z length]. pose proof (Zb_range b).
  replace (8 * Z.of_nat (S (length s))) with (8 * Z.of_nat (length s) + 8) by lia.
  rewrite Z.pow_add_r by lia. change (2 ^ 8) with 256. nia.
Qed.

Lemma be_bytes_mod n z k :
  8 * Z.of_nat n <= k -> be_bytes n (z `mod` 2 ^ k) = be_bytes n z.
Proof.
  induction n as [|n IH]; intros Hk; [done|]. cbn [be_bytes].
  rewrite IH by lia. f_equal. apply Zb_inj. rewrite !Zb_bZ.
  change 256 with (2 ^ 8). rewrite <- !Z.land_ones by lia.
  apply Z.bits_inj'. intros i Hi. rewrite !Z.land_spec, !Z.shiftr_spec by lia.
  destruct (Z.ltb_spec i 8).
  - rewrite Z.land_spec, (Z.ones_spec_low k) by lia. by rewrite andb_true_r.
  - rewrite !Z.ones_spec_high by lia. by rewrite !andb_false_r.
Qed.

Lemma be_Z_inj s t : length s = length t -> be_Z s = be_Z t -> s = t.
Proof.
  revert t. induction s as [|b s IH]; intros [|c t] Hl He; try done.
  cbn in Hl. injection Hl as Hl. cbn [be_Z] in He. rewrite Hl in He.
  pose proof (be_Z_range s) as Hs. pose proof (be_Z_range t) as Ht. rewrite Hl in Hs.
  assert (Zb b = Zb c) as Hbc by nia.
  f_equal; [by apply Zb_inj|]. apply IH; [done|]. nia.
Qed.

Lemma be_bytes_be_Z s : be_bytes (length s) (be_Z s) = s.
Proof.
  apply be_Z_inj; [apply length_be_bytes|].
  rewrite be_Z_be_bytes, Z.mod_small; [done|apply be_Z_range].
Qed.

(** ** Lemmas on memory reads *)

Lemma read_n_Some buf p n s :
  read_n buf p n = Some s <-> (p + n <= length buf)%nat /\ s = take n (drop p buf).
Proof. unfold read_n. case_decide; naive_solver. Qed.

Lemma read_n_app_l buf rest p n :
  (p + n <= length buf)%nat -> read_n (buf ++ rest) p n = read_n buf p n.
Proof.
  intros H. unfold read_n. rewrite length_app, !decide_True by lia. f_equal.
  rewrite drop_app_le by lia. by rewrite take_app_le by (rewrite length_drop; lia).
Qed.

Lemma read_n_mid pre s post :
  read_n (pre ++ s ++ post) (length pre) (length s) = Some s.
Proof.
  unfold read_n. rewrite !length_app, decide_True by lia.
  by rewrite drop_app_length, take_app_length.
Qed.

Lemma read_n_length buf p n s : read_n buf p n = Some s -> length s = n.
Proof.
  intros [? ->]%read_n_Some. rewrite length_take, length_drop. lia.
Qed.

Lemma ntoh_in_bounds n buf p :
  (p + n <= length buf)%nat -> is_Some (ntoh n buf p).
Proof. intros H. unfold ntoh, read_n. rewrite decide_True by done. by eexists. Qed.

Lemma ntoh_range n buf p z : ntoh n buf p = Some z -> 0 <= z < 2 ^ (8 * Z.of_nat n).
Proof.
  unfold ntoh. intros H. obind.
  match goal with H : read_n _ _ _ = Some _ |- _ => apply read_n_length in H as <- end.
  apply be_Z_range.
Qed.

Lemma ntoh_hton n pre post z :
  ntoh n (pre ++ hton n z ++ post) (length pre) = Some (z `mod` 2 ^ (8 * Z.of_nat n)).
Proof.
  unfold ntoh, hton. pose proof (read_n_mid pre (be_bytes n z) post) as H.
  rewrite length_be_bytes in H. rewrite H. cbn. by rewrite be_Z_be_bytes.
Qed.

(** ** Monad laws *)

Lemma bind_ret_l {E A B} (a : A) (k : A -> M E B) e : bind (ret a) k e = k a e.
Proof. done. Qed.

Lemma bind_run {E A B} (m : M E A) (k : A -> M E B) e a e' :
  m e = (inr a, e') -> bind m k e = k a e'.
Proof. unfold bind. by intros ->. Qed.

Lemma bind_exn {E A B} (m : M E A) (k : A -> M E B) e x e' :
  m e = (inl x, e') -> bind m k e = (inl x, e').
Proof. unfold bind. by intros ->. Qed.

Lemma bind_assoc {E A B C} (m : M E A) (f : A -> M E B) (g : B -> M E C) e :
  bind (bind m f) g e = bind m (fun a => bind (f a) g) e.
Proof. unfold bind. by destruct (m e) as [[x|a] e']. Qed.

Lemma bind_ext {E A B} (m : M E A) (f g : A -> M E B) e :
  (forall a e', f a e' = g a e') -> bind m f e = bind m g e.
Proof. intros Hfg. unfold bind. by destruct (m e) as [[x|a] e']. Qed.

Lemma iterM_app {E A} (f : A -> M E unit) l1 l2 e :
  iterM f (l1 ++ l2) e = bind (iterM f l1) (fun _ => iterM f l2) e.
Proof.
  revert e. induction l1 as [|a l1 IH]; intros e; [done|].
  cbn. unfold bind in *. destruct (f a e) as [[x|[]] e']; [done|]. apply IH.
Qed.

(** ** Partial computations in [option]

    [swp safe m Q]: the results of [m] satisfy [Q], and under [safe] there is a
    result. *)

Definition swp {A} (safe : Prop) (m : option A) (Q : A -> Prop) : Prop :=
  (forall x, m = Some x -> Q x) /\ (safe -> is_Some m).

Lemma swp_ret {A} safe (a : A) (Q : A -> Prop) : Q a -> swp safe (Some a) Q.
Proof. intros H. split; [by intros x [= <-]|by eexists]. Qed.

Lemma swp_bind {A B} safe (m : option A) (k : A -> option B) Q R :
  swp safe m Q -> (forall x, Q x -> swp safe (k x) R) -> swp safe (m ≫= k) R.
Proof.
  intros [Hm Hs] Hk. split.
  - intros y (x&Hx&Hy)%bind_Some. by eapply (Hk x (Hm x Hx)).
  - intros Hsafe. destruct (Hs Hsafe) as [x Hx]. rewrite Hx. cbn.
    by apply (Hk x (Hm x Hx)).
Qed.

Lemma swp_mono {A} safe (m : option A) (Q R : A -> Prop) :
  swp safe m Q -> (forall x, Q x -> R x) -> swp safe m R.
Proof. intros [H1 H2] H. split; [|done]. intros x Hx. by apply H, H1. Qed.

(** [ole R x y]: [x] has no result, or [y] is the same result, or the result of
    [x] is one that [R] exempts. *)
Definition ole {A} (R : A -> Prop) (x y : option A) : Prop :=
  match x with
  | None => True
  | Some a => R a \/ y = Some a
  end.

Abbreviation ole_eq := (ole (fun _ => False)).

Lemma ole_refl {A} (R : A -> Prop) (x : option A) : ole R x x.
Proof. destruct x; [by right|done]. Qed.

Lemma ole_bind {A B} (R : B -> Prop) (x y : option A) (f g : A -> option B) :
  ole_eq x y -> (forall a, ole R (f a) (g a)) -> ole R (x ≫= f) (y ≫= g).
Proof. intros Hxy Hfg. destruct x as [a|]; [|done]. destruct Hxy as [[]| -> ]. apply Hfg. Qed.

Lemma ole_eq_Some {A} (x y : option A) a : ole_eq x y -> x = Some a -> y = Some a.
Proof. intros Hxy ->. by destruct Hxy as [[]|]. Qed.

(** Prove [ole] of two computations that differ in the buffer they read. *)
Create HintDb ole.
Ltac ole_solve :=
  repeat first
    [ apply ole_refl
    | solve [eauto with ole]
    | apply ole_bind; [|intros ?]
    | case_decide
    | case_match ].

(** ** Weakest preconditions of stateful computations

    [wp X m Q e]: from [e], [m] returns a value and an environment that satisfy
    [Q], or raises an exception that [X] allows. *)

Definition wp {E A} (X : exn -> Prop) (m : M E A) (Q : A -> E -> Prop) (e : E) : Prop :=
  match m e with
  | (inr a, e') => Q a e'
  | (inl x, _) => X x
  end.

(** No exception at all. *)
Definition no_exn : exn -> Prop := fun _ => False.

Lemma wp_run {E A} (m : M E A) Q e : wp no_exn m Q e -> exists a e', m e = (inr a, e') /\ Q a e'.
Proof. unfold wp. destruct (m e) as [[x|a] e']; [done|eauto]. Qed.

Section wp.
Context {E : Type} (X : exn -> Prop).

Lemma wp_ret {A} (a : A) (Q : A -> E -> Prop) e : Q a e -> wp X (ret a) Q e.
Proof. done. Qed.

Lemma wp_bind {A B} (m : M E A) (k : A -> M E B) Q e :
  wp X m (fun a e' => wp X (k a) Q e') e -> wp X (bind m k) Q e.
Proof. unfold wp, bind. by destruct (m e) as [[x|a] e']. Qed.

Lemma wp_mono {A} (m : M E A) (P Q : A -> E -> Prop) e :
  wp X m P e -> (forall a e', P a e' -> Q a e') -> wp X m Q e.
Proof. unfold wp. intros H HPQ. destruct (m e) as [[x|a] e']; [done|by apply HPQ]. Qed.

Lemma wp_modify f (Q : unit -> E -> Prop) e : Q tt (f e) -> wp X (modify f) Q e.
Proof. done. Qed.

Lemma wp_gets {A} (f : E -> A) (Q : A -> E -> Prop) e : Q (f e) e -> wp X (gets f) Q e.
Proof. done. Qed.

Lemma wp_throw {A} x (Q : A -> E -> Prop) e : X x -> wp X (throw x) Q e.
Proof. done. Qed.

Lemma wp_exn_mono {A} (Y : exn -> Prop) (m : M E A) (Q : A -> E -> Prop) e :
  wp Y m Q e -> (forall x, Y x -> X x) -> wp X m Q e.
Proof. unfold wp. intros H HXY. destruct (m e) as [[x|a] e']; [by apply HXY|done]. Qed.

(** A computation that keeps a view of the environment. *)
Definition keeps {V} (view : E -> V) (m : M E unit) : Prop :=
  forall e, exists e', m e = (inr tt, e') /\ view e' = view e.

Lemma wp_keeps {V} (view : E -> V) m (Q : unit -> E -> Prop) e :
  keeps view m -> (forall e', view e' = view e -> Q tt e') -> wp X m Q e.
Proof. intros Hm HQ. unfold wp. destruct (Hm e) as (e'&->&He). by apply HQ. Qed.

Context {V : Type} (view : E -> V).

Lemma keeps_ret : keeps view (ret tt).
Proof. intros e. by exists e. Qed.

Lemma keeps_modify f : (forall e, view (f e) = view e) -> keeps view (modify f).
Proof. intros Hf e. by exists (f e). Qed.

Lemma keeps_bind m k : keeps view m -> keeps view k -> keeps view (bind m (fun _ => k)).
Proof.
  intros Hm Hk e. destruct (Hm e) as (e'&He&Hv). destruct (Hk e') as (e''&He'&Hv').
  exists e''. unfold bind. rewrite He. split; [done|by rewrite Hv'].
Qed.

Lemma keeps_gets {A} (f : E -> A) k :
  (forall a, keeps view (k a)) -> keeps view (bind (gets f) k).
Proof. intros Hk e. exact (Hk (f e) e). Qed.

Lemma keeps_when b m : keeps view m -> keeps view (when b m).
Proof. intros Hm. destruct b; [done|apply keeps_ret]. Qed.

Lemma keeps_iterM {A} (f : A -> M E unit) l :
  (forall a, keeps view (f a)) -> keeps view (iterM f l).
Proof. intros Hf. induction l as [|a l IH]; [apply keeps_ret|by apply keeps_bind]. Qed.
End wp.
