(* ===== verification/CLib.v ===== *)
(** * The C and C++ library functions the program calls on byte strings

    [memchr], [memcmp], [strtoull], [std::stoull], [snprintf] with [%llu] and
    [std::to_string], as the code under cybozu/ and src/ uses them, and the
    program's own [cybozu::tokenize].  Functions that walk memory return [None]
    when they would read at or past the end of the bytes they are given. *)

From S2P Require Import Prelude.

Definition ULLONG_MAX : Z := 2 ^ 64 - 1.

(** ** Searching and comparing *)

(** Offset of the first [c] in a list of bytes. *)
Fixpoint find_byte (c : byte) (s : bytes) : option nat :=
  match s with
  | [] => None
  | b :: s' => if decide (b = c) then Some O else S <$> find_byte c s'
  end.

(** [memchr(p, c, e - p)]: [None] outside the buffer or when [e < p]; the inner
    option is the returned pointer, [None] standing for [nullptr]. *)
Definition memchr (buf : bytes) (p : nat) (c : byte) (e : nat) : option (option nat) :=
  if decide (p <= e <= length buf)%nat
  then Some ((fun i => p + i)%nat <$> find_byte c (take (e - p) (drop p buf)))
  else None.

(** [memcmp(p, s, strlen(s)) == 0]. *)
Definition memeq (buf : bytes) (p : nat) (s : bytes) : option bool :=
  t ← read_n buf p (length s); Some (bool_decide (t = s)).

(** [while( *p == c ) ++p;] on the bytes from [p] on: the number of steps. *)
Fixpoint skip_eq (c : byte) (s : bytes) : option nat :=
  match s with
  | [] => None
  | b :: s' => if decide (b = c) then S <$> skip_eq c s' else Some O
  end.

Definition skip_while (buf : bytes) (p : nat) (c : byte) : option nat :=
  (fun n => p + n)%nat <$> skip_eq c (drop p buf).

(** ** Numbers in decimal *)

Definition isspace (b : byte) : bool :=
  (Zb b =? 32) || ((9 <=? Zb b) && (Zb b <=? 13)).

Definition isdigit (b : byte) : bool := (48 <=? Zb b) && (Zb b <=? 57).

Definition digit_val (b : byte) : Z := Zb b - 48.

Fixpoint skip_space (s : bytes) : option (nat * bytes) :=
  match s with
  | [] => None
  | b :: s' => if isspace b then '(n, t) ← skip_space s'; Some (S n, t) else Some (O, s)
  end.

(** The maximal run of digits: its value (on top of [acc]) and its length. *)
Fixpoint scan_digits (s : bytes) (acc : Z) : option (Z * nat) :=
  match s with
  | [] => None
  | b :: s' =>
      if isdigit b
      then '(v, n) ← scan_digits s' (10 * acc + digit_val b); Some (v, S n)
      else Some (acc, O)
  end.

Record strtoull_result := {
  st_value : Z;          (** the returned value *)
  st_end : nat;          (** [*end - p] *)
  st_erange : bool       (** whether [errno] is set to [ERANGE] *)
}.

(** [strtoull(p, &end, 10)]. *)
Definition strtoull (s : bytes) : option strtoull_result :=
  '(n1, s1) ← skip_space s;
  let neg := bool_decide (head s1 = Some x2d) in
  let sign := neg || bool_decide (head s1 = Some x2b) in
  let n2 := if sign then S n1 else n1 in
  let s2 := if sign then tail s1 else s1 in
  '(v, k) ← scan_digits s2 0;
  Some (match k with
        | O => {| st_value := 0; st_end := 0; st_erange := false |}
        | _ => if v >? ULLONG_MAX
               then {| st_value := ULLONG_MAX; st_end := n2 + k; st_erange := true |}
               else {| st_value := if neg then u64 (- v) else v;
                       st_end := n2 + k; st_erange := false |}
        end).

(** [std::stoull(std::string(s))]: the string is terminated by a NUL, and
    [std::invalid_argument] or [std::out_of_range] is an absent result. *)
Definition stoull (s : bytes) : option Z :=
  r ← strtoull (s ++ [x00]);
  if (st_end r =? 0)%nat then None else
  if st_erange r then None else Some (st_value r).

Fixpoint dec_digits (fuel : nat) (n : Z) (acc : bytes) : bytes :=
  match fuel with
  | O => acc
  | S f => let acc' := bZ (48 + n `mod` 10) :: acc in
           if n / 10 =? 0 then acc' else dec_digits f (n / 10) acc'
  end.

(** [snprintf] with [%llu], and [std::to_string] of an unsigned integer. *)
Definition to_string (n : Z) : bytes := dec_digits (S (Z.to_nat (Z.log2 n))) n [].

(** [std::to_string] of a signed integer. *)
Definition to_string_signed (n : Z) : bytes :=
  if n <? 0 then x2d :: to_string (- n) else to_string n.

(** ** cybozu::tokenize *)

(** [start] is the part of the current token seen so far, reversed;
    [None] when [start == end]. *)
Fixpoint tokenize_loop (s : bytes) (c : byte) (start : option bytes) : list bytes :=
  match s with
  | [] => match start with Some t => [rev t] | None => [] end
  | b :: s' =>
      if decide (b <> c)
      then tokenize_loop s' c (Some (b :: default [] start))
      else match start with
           | Some t => rev t :: tokenize_loop s' c None
           | None => tokenize_loop s' c None
           end
  end.

Definition tokenize (s : bytes) (c : byte) : list bytes := tokenize_loop s c None.

(** ** Lemmas: searching *)

Lemma find_byte_Some c s i :
  find_byte c s = Some i <-> exists a b, s = a ++ c :: b /\ length a = i /\ c ∉ a.
Proof.
  revert i. induction s as [|x s IH]; intros i; cbn.
  { split; [done|]. intros ([]&?&?&?); done. }
  case_decide as Hx; [subst|].
  - split.
    + intros [= <-]. exists [], s. split_and!; [done..|]. apply not_elem_of_nil.
    + intros ([|y a]&b&E&<-&Hn); [done|]. cbn in E. injection E as -> ->. set_solver.
  - rewrite fmap_Some. split.
    + intros (j&(a&b&->&<-&Hn)%IH&->). exists (x :: a), b. set_solver.
    + intros ([|y a]&b&E&<-&Hn); injection E as -> ->; [done|].
      exists (length a). split; [|done]. apply IH. exists a, b. set_solver.
Qed.

Lemma find_byte_None c s : find_byte c s = None <-> c ∉ s.
Proof.
  induction s as [|x s IH]; cbn; [by split; [intros _; apply not_elem_of_nil|]|].
  rewrite not_elem_of_cons. case_decide; [naive_solver|].
  rewrite fmap_None, IH. naive_solver.
Qed.

Lemma find_byte_mid c a b : c ∉ a -> find_byte c (a ++ c :: b) = Some (length a).
Proof. intros H. apply find_byte_Some. by exists a, b. Qed.

Lemma memchr_Some buf p c e i :
  memchr buf p c e = Some (Some i) ->
  (p <= i < e)%nat /\ (e <= length buf)%nat /\ buf !! i = Some c.
Proof.
  unfold memchr. case_decide as Hb; [|done]. intros [= H].
  apply fmap_Some in H as (j&Hj&->). apply find_byte_Some in Hj as (a&b&E&<-&_).
  assert (length (take (e - p) (drop p buf)) = e - p)%nat as Hl
    by (rewrite length_take, length_drop; lia).
  rewrite E, length_app in Hl. cbn in Hl.
  split_and!; [lia..|].
  assert (take (e - p) (drop p buf) !! length a = Some c) as Hc
    by (rewrite E; by rewrite list_lookup_middle).
  rewrite lookup_take_Some, lookup_drop in Hc. apply Hc.
Qed.

Lemma memchr_in_bounds buf p c e :
  (p <= e <= length buf)%nat -> is_Some (memchr buf p c e).
Proof. intros H. unfold memchr. rewrite decide_True by done. by eexists. Qed.

Lemma memeq_in_bounds buf p s : (p + length s <= length buf)%nat -> is_Some (memeq buf p s).
Proof. intros H. unfold memeq, read_n. rewrite decide_True by done. by eexists. Qed.

(** A byte other than [c] at [e] stops the scan at [e] at the latest. *)
Lemma skip_eq_stop c s k b :
  s !! k = Some b -> b <> c -> exists n, skip_eq c s = Some n /\ (n <= k)%nat.
Proof.
  revert k. induction s as [|x s IH]; intros k Hk Hb; [done|]. cbn.
  case_decide as Hx; [subst x|eexists; split; [done|lia]].
  destruct k as [|k]; [cbn in Hk; congruence|].
  destruct (IH k Hk Hb) as (n&->&?). exists (S n). split; [done|lia].
Qed.

Lemma skip_while_stop buf p c e b :
  (p <= e)%nat -> buf !! e = Some b -> b <> c ->
  exists q, skip_while buf p c = Some q /\ (p <= q <= e)%nat.
Proof.
  intros Hpe He Hb. destruct (skip_eq_stop c (drop p buf) (e - p) b) as (n&Hn&?); [|done|].
  - rewrite lookup_drop. by replace (p + (e - p))%nat with e by lia.
  - exists (p + n)%nat. unfold skip_while. rewrite Hn. split; [done|lia].
Qed.

Lemma skip_eq_Some c s n :
  skip_eq c s = Some n -> exists b, s !! n = Some b /\ b <> c.
Proof.
  revert n. induction s as [|x s IH]; intros n; [done|]. cbn.
  case_decide; [|naive_solver].
  intros (m&Hm&->)%fmap_Some. cbn. by apply IH.
Qed.

Lemma skip_while_Some buf p c q :
  skip_while buf p c = Some q ->
  (p <= q)%nat /\ exists b, buf !! q = Some b /\ b <> c.
Proof.
  unfold skip_while. intros (n&Hn&->)%fmap_Some.
  apply skip_eq_Some in Hn as (b&Hb&?). rewrite lookup_drop in Hb.
  split; [lia|]. by exists b.
Qed.

(** ** Lemmas: decimal numbers *)

Definition dval (s : bytes) (acc : Z) : Z :=
  fold_left (fun a b => 10 * a + digit_val b) s acc.

Lemma isdigit_digit d : 0 <= d < 10 -> isdigit (bZ (48 + d)) = true.
Proof.
  intros H. unfold isdigit. rewrite Zb_bZ, Z.mod_small by lia.
  apply andb_true_intro. split; apply Z.leb_le; lia.
Qed.

Lemma digit_val_digit d : 0 <= d < 10 -> digit_val (bZ (48 + d)) = d.
Proof. intros H. unfold digit_val. rewrite Zb_bZ, Z.mod_small; lia. Qed.

Lemma isdigit_not_space b : isdigit b = true -> isspace b = false.
Proof.
  unfold isdigit, isspace. intros [H1 H2]%andb_prop.
  apply Z.leb_le in H1, H2. apply orb_false_iff. split; [lia|].
  apply andb_false_iff. right. lia.
Qed.

Lemma isdigit_not_sign b : isdigit b = true -> b <> x2d /\ b <> x2b.
Proof. by intros H; split; intros ->. Qed.

Lemma dec_digits_spec fuel n acc :
  0 <= n < 2 ^ Z.of_nat fuel -> (0 < fuel)%nat ->
  exists ds, dec_digits fuel n acc = ds ++ acc /\ ds <> [] /\
    Forall (fun b => isdigit b = true) ds /\ dval ds 0 = n.
Proof.
  revert n acc. induction fuel as [|f IH]; intros n acc Hn Hf; [lia|]. cbn [dec_digits].
  pose proof (Z.mod_pos_bound n 10 ltac:(lia)) as Hd.
  pose proof (Z.div_mod n 10 ltac:(lia)) as Hdm.
  assert (isdigit (bZ (48 + n `mod` 10)) = true) as Hdig by (by apply isdigit_digit).
  destruct (Z.eqb_spec (n / 10) 0) as [Hz|Hz].
  - exists [bZ (48 + n `mod` 10)]. split_and!; [done..| |].
    + by constructor.
    + cbn. rewrite digit_val_digit by done. lia.
  - assert (2 <= f)%nat as Hf2.
    { destruct f as [|[|f]]; [exfalso; apply Hz..|lia].
      - apply Z.div_small. change (2 ^ Z.of_nat 1) with 2 in Hn. lia.
      - apply Z.div_small. change (2 ^ Z.of_nat 2) with 4 in Hn. lia. }
    rewrite Nat2Z.inj_succ, Z.pow_succ_r in Hn by lia.
    destruct (IH (n / 10) (bZ (48 + n `mod` 10) :: acc)) as (ds&->&Hne&Hall&Hv); [|lia|].
    { split; [apply Z.div_pos; lia|]. apply Z.div_lt_upper_bound; lia. }
    exists (ds ++ [bZ (48 + n `mod` 10)]). split_and!.
    + by rewrite <- app_assoc.
    + by destruct ds.
    + apply Forall_app. by split; [|constructor].
    + unfold dval in *. rewrite fold_left_app, Hv. cbn. rewrite digit_val_digit by done. lia.
Qed.

Lemma to_string_spec n :
  0 <= n ->
  to_string n <> [] /\ Forall (fun b => isdigit b = true) (to_string n) /\
  dval (to_string n) 0 = n.
Proof.
  intros Hn. unfold to_string.
  destruct (dec_digits_spec (S (Z.to_nat (Z.log2 n))) n []) as (ds&->&H); [|lia|].
  - split; [done|]. pose proof (Z.log2_nonneg n).
    rewrite Nat2Z.inj_succ, Z2Nat.id by done.
    destruct (Z.eq_dec n 0) as [->|]; [done|]. apply Z.log2_spec. lia.
  - by rewrite app_nil_r.
Qed.

Lemma dec_digits_length fuel n acc k :
  0 <= n < 10 ^ Z.of_nat k -> (0 < k)%nat ->
  (length (dec_digits fuel n acc) <= k + length acc)%nat.
Proof.
  revert n acc k. induction fuel as [|f IH]; intros n acc k Hn Hk; cbn; [lia|].
  destruct (Z.eqb_spec (n / 10) 0) as [Hz|Hz]; [cbn; lia|].
  destruct k as [|[|k]]; [lia|exfalso; apply Hz, Z.div_small; cbn in Hn; lia|].
  rewrite Nat2Z.inj_succ, Z.pow_succ_r in Hn by lia.
  specialize (IH (n / 10) (bZ (48 + n `mod` 10) :: acc) (S k)). cbn in IH.
  enough (length (dec_digits f (n / 10) (bZ (48 + n `mod` 10) :: acc)) <=
          S k + S (length acc))%nat by lia.
  apply IH; [|lia]. split; [apply Z.div_pos; lia|]. apply Z.div_lt_upper_bound; lia.
Qed.

(** A 64-bit value prints in at most 20 characters, as the buffers assume. *)
Lemma to_string_length n : 0 <= n < 2 ^ 64 -> (length (to_string n) <= 20)%nat.
Proof.
  intros Hn. unfold to_string.
  pose proof (dec_digits_length (S (Z.to_nat (Z.log2 n))) n [] 20) as H.
  cbn [length] in H. rewrite Nat.add_0_r in H. apply H; [|lia].
  split; [lia|]. eapply Z.lt_trans; [apply Hn|]. done.
Qed.

Lemma scan_digits_run ds b t acc :
  Forall (fun d => isdigit d = true) ds -> isdigit b = false ->
  scan_digits (ds ++ b :: t) acc = Some (dval ds acc, length ds).
Proof.
  intros Hds Hb. revert acc. induction Hds as [|d ds Hd Hds IH]; intros acc; cbn.
  - by rewrite Hb.
  - rewrite Hd, IH. done.
Qed.

Lemma strtoull_digits ds b t :
  ds <> [] -> Forall (fun d => isdigit d = true) ds -> isdigit b = false ->
  dval ds 0 <= ULLONG_MAX ->
  strtoull (ds ++ b :: t) =
    Some {| st_value := dval ds 0; st_end := length ds; st_erange := false |}.
Proof.
  intros Hne Hds Hb Hv. unfold strtoull.
  pose proof (scan_digits_run ds b t 0 Hds Hb) as Hscan.
  destruct ds as [|d ds]; [done|]. apply Forall_cons in Hds as [Hd Hds].
  cbn [app skip_space] in *. rewrite (isdigit_not_space d) by done. cbn.
  destruct (isdigit_not_sign d Hd) as [Hm Hp].
  rewrite !bool_decide_eq_false_2 by congruence. cbn [orb].
  cbn [length] in Hscan. setoid_rewrite Hscan. cbn [mbind option_bind].
  rewrite Z.gtb_ltb. by destruct (Z.ltb_spec ULLONG_MAX (dval (d :: ds) 0)) as [|_]; [lia|].
Qed.

Lemma strtoull_to_string n b t :
  0 <= n <= ULLONG_MAX -> isdigit b = false ->
  strtoull (to_string n ++ b :: t) =
    Some {| st_value := n; st_end := length (to_string n); st_erange := false |}.
Proof.
  intros Hn Hb. destruct (to_string_spec n) as (H1&H2&H3); [lia|].
  rewrite strtoull_digits by (rewrite ?H3; done || lia). by rewrite H3.
Qed.

(** [std::stoull] inverts the printing of a 64-bit value. *)
Lemma stoull_to_string n : 0 <= n <= ULLONG_MAX -> stoull (to_string n) = Some n.
Proof.
  intros Hn. unfold stoull. rewrite strtoull_to_string by done.
  cbn [mbind option_bind st_end st_erange st_value].
  destruct (to_string_spec n) as (H1&_&_); [lia|].
  destruct (Nat.eqb_spec (length (to_string n)) 0) as [E|]; [|done].
  by apply nil_length_inv in E.
Qed.

Lemma skip_space_app s t r :
  skip_space s = Some r -> skip_space (s ++ t) = Some (r.1, r.2 ++ t).
Proof.
  revert r. induction s as [|b s IH]; intros r H; [done|]. cbn in *.
  destruct (isspace b); [|by injection H as <-].
  obind. destruct x as [n u]. obind. by erewrite (IH (n, u)).
Qed.

Lemma scan_digits_app s t acc r :
  scan_digits s acc = Some r -> scan_digits (s ++ t) acc = Some r.
Proof.
  revert acc r. induction s as [|b s IH]; intros acc r H; [done|]. cbn in *.
  destruct (isdigit b); [|done]. obind. destruct x as [v n]. obind.
  by erewrite (IH _ (v, n)).
Qed.

Lemma scan_digits_app_if (b : bool) c s t acc r :
  scan_digits (if b then s else c :: s) acc = Some r ->
  scan_digits (if b then s ++ t else c :: s ++ t) acc = Some r.
Proof. destruct b; [apply scan_digits_app|apply (scan_digits_app (c :: s))]. Qed.

(** The result does not depend on what follows the terminating character. *)
Lemma strtoull_app s t r : strtoull s = Some r -> strtoull (s ++ t) = Some r.
Proof.
  unfold strtoull. intros H. apply bind_Some in H as ([n1 s1]&H1&H).
  rewrite (skip_space_app _ _ _ H1). cbn.
  destruct s1 as [|c s1]; [done|]. cbn [head app tail] in *.
  apply bind_Some in H as ([v k]&H2&H). erewrite (scan_digits_app_if _ c s1 t); [|exact H2].
  exact H.
Qed.

(** A first character that is not white space and a carriage return at [k] keep
    the conversion inside the line. *)
Lemma scan_digits_stop s k acc :
  s !! k = Some x0d -> exists v n, scan_digits s acc = Some (v, n) /\ (n <= k)%nat.
Proof.
  revert k acc. induction s as [|b s IH]; intros k acc Hk; [done|]. cbn.
  destruct (isdigit b) eqn:Hb; [|by exists acc, O; split; [|lia]].
  destruct k as [|k]; [cbn in Hk; by injection Hk as ->|].
  destruct (IH k (10 * acc + digit_val b) Hk) as (v&n&->&?). exists v, (S n).
  split; [done|lia].
Qed.

Lemma strtoull_stop s k c :
  s !! O = Some c -> isspace c = false -> s !! k = Some x0d ->
  exists r, strtoull s = Some r /\ (st_end r <= k)%nat.
Proof.
  intros H0 Hc Hk. destruct s as [|c' s]; [done|]. injection H0 as ->.
  destruct k as [|k]; [cbn in Hk; by injection Hk as ->|]. cbn in Hk.
  unfold strtoull. cbn [skip_space]. rewrite Hc. cbn [mbind option_bind head tail].
  set (sg := bool_decide (Some c = Some x2d) || bool_decide (Some c = Some x2b)).
  destruct (scan_digits_stop (if sg then s else c :: s) (if sg then k else S k) 0)
    as (v&n&->&?); [by destruct sg|]. cbn.
  eexists. split; [done|].
  destruct n as [|n]; [cbn; lia|]. destruct (v >? ULLONG_MAX), sg; cbn; lia.
Qed.

Lemma scan_digits_nonneg s acc v n :
  0 <= acc -> scan_digits s acc = Some (v, n) -> 0 <= v.
Proof.
  revert acc v n. induction s as [|b s IH]; intros acc v n Ha H; [done|]. cbn in H.
  destruct (isdigit b) eqn:Hb; [|naive_solver].
  apply bind_Some in H as ([v' n']&H&[= -> _]). eapply (IH _ v n'); [|done].
  unfold isdigit in Hb. apply andb_prop in Hb as [Hb _]. apply Z.leb_le in Hb.
  unfold digit_val. lia.
Qed.

Lemma stoull_range s n : stoull s = Some n -> 0 <= n < 2 ^ 64.
Proof.
  unfold stoull. destruct (strtoull (s ++ [x00])) as [r|] eqn:E; [|done]. cbn.
  case_match; [done|]. case_match eqn:Er; [done|]. intros [= <-]. revert E Er. unfold strtoull.
  intros (p&_&E)%bind_Some. destruct p as [n1 s1]. apply bind_Some in E as ([v k]&Hs&E).
  apply scan_digits_nonneg in Hs; [|lia]. injection E as <-. destruct k; [done|].
  destruct (Z.gtb_spec v ULLONG_MAX); [done|]. cbn. intros _. unfold ULLONG_MAX in *.
  case_bool_decide; [apply u64_range|]. lia.
Qed.

Lemma strtoull_nonneg s r : strtoull s = Some r -> 0 <= st_value r.
Proof.
  unfold strtoull. intros H. apply bind_Some in H as ([n1 s1]&_&H).
  apply bind_Some in H as ([v k]&Hv&H). apply scan_digits_nonneg in Hv; [|done].
  destruct k; [by injection H as <-|]. case_match; injection H as <-; cbn; [done|].
  case_match; [apply u64_range|done].
Qed.

(** ** Lemmas: tokenize *)

(** Reference definition: split at every delimiter, then drop empty pieces. *)
Fixpoint split_at (c : byte) (s : bytes) : list bytes :=
  match s with
  | [] => [[]]
  | b :: s' => if decide (b = c) then [] :: split_at c s'
               else match split_at c s' with
                    | t :: ts => (b :: t) :: ts
                    | [] => [[b]]
                    end
  end.

Definition nonempty (s : bytes) : bool := negb (bool_decide (s = [])).

Lemma tokenize_loop_split s c start :
  start <> Some [] ->
  tokenize_loop s c start =
    List.filter nonempty
      match split_at c s with
      | t :: ts => (rev (default [] start) ++ t) :: ts
      | [] => []
      end.
Proof.
  revert start. induction s as [|b s IH]; intros start Hs.
  - cbn. rewrite app_nil_r. destruct start as [[|x t]|]; [done| |done]. cbn [default].
    unfold nonempty. rewrite bool_decide_eq_false_2; [done|].
    cbn. intros E. by destruct (rev t).
  - cbn [tokenize_loop split_at]. case_decide as Hb; case_decide as Hc; try done.
    + rewrite IH by done. destruct (split_at c s) as [|t ts] eqn:E.
      { destruct s; cbn in E; [done|]. case_decide; [done|]. by destruct (split_at c s). }
      cbn. by rewrite <- app_assoc.
    + rewrite IH by done. assert (split_at c s <> []) as Hne.
      { destruct s; cbn; [done|]. case_decide; [done|]. by destruct (split_at c s). }
      destruct (split_at c s) as [|t ts]; [done|].
      destruct start as [[|x u]|]; [done| |done]. cbn [default List.filter].
      rewrite app_nil_r. unfold id. replace (nonempty (rev (x :: u))) with true; [done|].
      unfold nonempty. rewrite bool_decide_eq_false_2; [done|].
      cbn. intros E. by destruct (rev u).
Qed.

Lemma split_at_no_delim c s t : t ∈ split_at c s -> c ∉ t.
Proof.
  revert t. induction s as [|b s IH]; intros t; cbn.
  { intros ->%list_elem_of_singleton. apply not_elem_of_nil. }
  case_decide as Hb.
  { intros [->|]%elem_of_cons; [apply not_elem_of_nil|by apply IH]. }
  destruct (split_at c s) as [|u us].
  { intros ->%list_elem_of_singleton. set_solver. }
  intros [->|Ht]%elem_of_cons; [|apply IH; by right].
  apply not_elem_of_cons. split; [done|]. apply IH. by left.
Qed.
