(* ===== verification/Machine.v ===== *)
(** * Computations cut into steps

    A job of a worker is a machine whose steps contain at most one critical section each
    (MemWork, CounterWork).  [runs] is the machine left alone, until it is done or
    throws. *)

From S2P Require Import Prelude.

Section machine.
Context {W S E R : Type} (step : W -> S -> M E (W * S)) (finished : W -> option R).

Inductive runs : W -> S -> E -> (exn + R * S) * E -> Prop :=
| runs_done w p s e : finished w = Some p -> runs w s e (inr (p, s), e)
| runs_step w s e w' s' e' res :
    step w s e = (inr (w', s'), e') -> runs w' s' e' res -> runs w s e res
| runs_throw w s e x e' : step w s e = (inl x, e') -> runs w s e (inl x, e').

(** What holds of [next] after the computation [m], whose exceptions end the run. *)
Definition after_run {A} (m : M E A) (next : A -> E -> Prop) (e : E) (res : (exn + R * S) * E)
    : Prop :=
  match m e with
  | (inr a, e') => next a e'
  | (inl x, e') => res = (inl x, e')
  end.

Lemma after_bind {A B} (m : M E A) (k : A -> M E B) next e res :
  after_run (bind m k) next e res <-> after_run m (fun a e' => after_run (k a) next e' res) e res.
Proof. unfold after_run, bind. by destruct (m e) as [[x|a] e']. Qed.

(** The run goes on with the machine [next], or with the machine and store computed. *)
Definition continues (next : W) (res : (exn + R * S) * E) : S -> E -> Prop :=
  fun s e => runs next s e res.
Definition goes_on (res : (exn + R * S) * E) : W * S -> E -> Prop :=
  fun p e => runs p.1 p.2 e res.

Lemma after_fin (fin : M E unit) next s e res :
  after_run (fin ;;! ret s) (continues next res) e res ->
  after_run (fin ;;! ret (next, s)) (goes_on res) e res.
Proof. unfold after_run, bind. by destruct (fin e) as [[x|[]] e']. Qed.

Lemma after_next (m : M E S) next e res :
  after_run m (continues next res) e res ->
  after_run (let! s := m in ret (next, s)) (goes_on res) e res.
Proof. by rewrite after_bind. Qed.

Lemma runs_first w s e res : after_run (step w s) (goes_on res) e res -> runs w s e res.
Proof.
  unfold after_run. destruct (step w s e) as [[x|[w' s']] e'] eqn:E0.
  - intros ->. by apply runs_throw.
  - intros Hr. by eapply runs_step.
Qed.
End machine.

(** Case analysis on the first computation of a run, in a hypothesis and in the goal. *)
Ltac after_first Hr :=
  apply (proj1 (after_bind _ _ _ _ _)) in Hr; apply after_bind;
  unfold after_run at 1 in Hr; unfold after_run at 1.
