(* ===== verification/Siphash.v ===== *)
(** * SipHash-2-4 (cybozu/siphash.cpp)

    The 64-bit keyed hash of the object tables, translated with the wrap-around
    of its [uint64_t] arithmetic, and its equality with the published algorithm:
    SipRound applied twice per 64-bit little-endian word, a last word made of
    the remaining bytes and the length, and four finalisation rounds. *)

From S2P Require Import Prelude.

(** The static key of the process, [static_k0] and [static_k1]. *)
Record sip_key := { static_k0 : Z; static_k1 : Z }.

(** Little-endian value of a byte string ([memcpy] and [le64toh]). *)
Fixpoint le_Z (s : bytes) : Z :=
  match s with
  | [] => 0
  | b :: s' => Zb b + 256 * le_Z s'
  end.

Definition siphash24_seed (key : bytes) : sip_key :=
  {| static_k0 := le_Z (take 8 key); static_k1 := le_Z (take 8 (drop 8 key)) |}.

Definition ROTATE (x b : Z) : Z := u64 (Z.lor (Z.shiftl x b) (Z.shiftr x (64 - b))).

Record sip_state := { v0 : Z; v1 : Z; v2 : Z; v3 : Z }.

(** [HALF_ROUND(a,b,c,d,s,t)]: the new values of [a], [b], [c] and [d]. *)
Definition HALF_ROUND (a b c d s t : Z) : Z * Z * Z * Z :=
  let a := u64 (a + b) in
  let c := u64 (c + d) in
  let b := Z.lxor (ROTATE b s) a in
  let d := Z.lxor (ROTATE d t) c in
  let a := ROTATE a 32 in
  (a, b, c, d).

Definition DOUBLE_ROUND (v : sip_state) : sip_state :=
  let '(a0, a1, a2, a3) := HALF_ROUND (v0 v) (v1 v) (v2 v) (v3 v) 13 16 in
  let '(a2, a1, a0, a3) := HALF_ROUND a2 a1 a0 a3 17 21 in
  let '(a0, a1, a2, a3) := HALF_ROUND a0 a1 a2 a3 13 16 in
  let '(a2, a1, a0, a3) := HALF_ROUND a2 a1 a0 a3 17 21 in
  {| v0 := a0; v1 := a1; v2 := a2; v3 := a3 |}.

Definition sip_init (k : sip_key) : sip_state :=
  {| v0 := Z.lxor (static_k0 k) 0x736f6d6570736575;
     v1 := Z.lxor (static_k1 k) 0x646f72616e646f6d;
     v2 := Z.lxor (static_k0 k) 0x6c7967656e657261;
     v3 := Z.lxor (static_k1 k) 0x7465646279746573 |}.

(** [v3 ^= mi; DOUBLE_ROUND(v0,v1,v2,v3); v0 ^= mi;] *)
Definition sip_block (v : sip_state) (mi : Z) : sip_state :=
  let v := DOUBLE_ROUND {| v0 := v0 v; v1 := v1 v; v2 := v2 v; v3 := Z.lxor (v3 v) mi |} in
  {| v0 := Z.lxor (v0 v) mi; v1 := v1 v; v2 := v2 v; v3 := v3 v |}.

(** [while( src_sz >= 8 )]: the final state and the remaining bytes. *)
Fixpoint sip_loop (fuel : nat) (v : sip_state) (m : bytes) : sip_state * bytes :=
  match fuel with
  | O => (v, m)
  | S f => if decide (8 <= length m)%nat
           then sip_loop f (sip_block v (le_Z (take 8 m))) (drop 8 m)
           else (v, m)
  end.

(** The [switch( src_sz )] whose cases fall through. *)
Definition sip_tail (b : Z) (m : bytes) : Z :=
  let n := length m in
  let at_ i := Zb (default x00 (m !! i)) in
  let b := if decide (7 <= n)%nat then Z.lor b (Z.shiftl (at_ 6%nat) 48) else b in
  let b := if decide (6 <= n)%nat then Z.lor b (Z.shiftl (at_ 5%nat) 40) else b in
  let b := if decide (5 <= n)%nat then Z.lor b (Z.shiftl (at_ 4%nat) 32) else b in
  let b := if decide (4 <= n)%nat then Z.lor b (Z.shiftl (at_ 3%nat) 24) else b in
  let b := if decide (3 <= n)%nat then Z.lor b (Z.shiftl (at_ 2%nat) 16) else b in
  let b := if decide (2 <= n)%nat then Z.lor b (Z.shiftl (at_ 1%nat) 8) else b in
  if decide (1 <= n)%nat then Z.lor b (at_ 0%nat) else b.

Definition siphash24 (k : sip_key) (src : bytes) : Z :=
  let b := u64 (Z.shiftl (blen src) 56) in
  let '(v, m) := sip_loop (length src) (sip_init k) src in
  let b := sip_tail b m in
  let v := sip_block v b in
  let v := {| v0 := v0 v; v1 := v1 v; v2 := Z.lxor (v2 v) 0xff; v3 := v3 v |} in
  let v := DOUBLE_ROUND (DOUBLE_ROUND v) in
  Z.lxor (Z.lxor (v0 v) (v1 v)) (Z.lxor (v2 v) (v3 v)).

(** ** The published algorithm *)

Module Spec.

(** One SipRound. *)
Definition sipround (v : sip_state) : sip_state :=
  let a0 := u64 (v0 v + v1 v) in
  let a1 := Z.lxor (ROTATE (v1 v) 13) a0 in
  let a0 := ROTATE a0 32 in
  let a2 := u64 (v2 v + v3 v) in
  let a3 := Z.lxor (ROTATE (v3 v) 16) a2 in
  let a0 := u64 (a0 + a3) in
  let a3 := Z.lxor (ROTATE a3 21) a0 in
  let a2 := u64 (a2 + a1) in
  let a1 := Z.lxor (ROTATE a1 17) a2 in
  let a2 := ROTATE a2 32 in
  {| v0 := a0; v1 := a1; v2 := a2; v3 := a3 |}.

Definition compress (v : sip_state) (m : Z) : sip_state :=
  let v := {| v0 := v0 v; v1 := v1 v; v2 := v2 v; v3 := Z.lxor (v3 v) m |} in
  let v := Nat.iter 2 sipround v in
  {| v0 := Z.lxor (v0 v) m; v1 := v1 v; v2 := v2 v; v3 := v3 v |}.

(** The message as 64-bit words: the bytes, zero bytes up to a multiple of
    eight less one, and the length modulo 256. *)
Definition padded (s : bytes) : bytes :=
  s ++ replicate (7 - length s `mod` 8) x00 ++ [bZ (blen s)].

Fixpoint words (n : nat) (s : bytes) : list Z :=
  match n with
  | O => []
  | S n' => le_Z (take 8 s) :: words n' (drop 8 s)
  end.

Definition siphash_2_4 (k : sip_key) (s : bytes) : Z :=
  let v := fold_left compress (words (S (length s / 8)) (padded s)) (sip_init k) in
  let v := Nat.iter 4 sipround
             {| v0 := v0 v; v1 := v1 v; v2 := Z.lxor (v2 v) 0xff; v3 := v3 v |} in
  Z.lxor (Z.lxor (v0 v) (v1 v)) (Z.lxor (v2 v) (v3 v)).

End Spec.

(** ** Equality with the published algorithm *)

(** Two half rounds, the second on the swapped halves, are one SipRound. *)
Definition two_halves (v : sip_state) : sip_state :=
  let '(a0, a1, a2, a3) := HALF_ROUND (v0 v) (v1 v) (v2 v) (v3 v) 13 16 in
  let '(a2, a1, a0, a3) := HALF_ROUND a2 a1 a0 a3 17 21 in
  {| v0 := a0; v1 := a1; v2 := a2; v3 := a3 |}.

Lemma two_halves_spec v : two_halves v = Spec.sipround v.
Proof. reflexivity. Qed.

Lemma DOUBLE_ROUND_spec v : DOUBLE_ROUND v = Nat.iter 2 Spec.sipround v.
Proof.
  cbn [Nat.iter nat_rect]. rewrite <- (two_halves_spec v), <- two_halves_spec.
  unfold DOUBLE_ROUND, two_halves.
  destruct (HALF_ROUND (v0 v) (v1 v) (v2 v) (v3 v) 13 16) as [[[a0 a1] a2] a3].
  destruct (HALF_ROUND a2 a1 a0 a3 17 21) as [[[c2 c1] c0] c3].
  cbn [v0 v1 v2 v3]. done.
Qed.

Lemma sip_block_spec v m : sip_block v m = Spec.compress v m.
Proof. unfold sip_block, Spec.compress. cbv zeta. by rewrite DOUBLE_ROUND_spec. Qed.

Lemma land_below h lo k :
  0 <= k -> 0 <= lo < 2 ^ k -> Z.land lo (h * 2 ^ k) = 0.
Proof.
  intros Hk Hlo. apply Z.bits_inj'. intros i Hi. rewrite Z.land_spec, Z.bits_0.
  destruct (Z.ltb_spec i k).
  - rewrite Z.mul_pow2_bits_low by done. apply andb_false_r.
  - rewrite <- (Z.mod_small lo (2 ^ k)), Z.mod_pow2_bits_high by lia. done.
Qed.

Lemma lor_below h lo k :
  0 <= k -> 0 <= lo < 2 ^ k -> Z.lor (h * 2 ^ k) lo = h * 2 ^ k + lo.
Proof.
  intros Hk Hlo. pose proof (land_below h lo k Hk Hlo) as Hl.
  rewrite Z.lor_comm, Z.add_comm, <- Z.lxor_lor by done.
  by rewrite Z.add_nocarry_lxor.
Qed.

Lemma le_Z_range s : 0 <= le_Z s < 2 ^ (8 * Z.of_nat (length s)).
Proof.
  induction s as [|b s IH]; [done|]. cbn [le_Z length]. pose proof (Zb_range b).
  replace (8 * Z.of_nat (S (length s))) with (8 + 8 * Z.of_nat (length s)) by lia.
  rewrite Z.pow_add_r by lia. change (2 ^ 8) with 256. lia.
Qed.

Lemma le_Z_app s t : le_Z (s ++ t) = le_Z s + 2 ^ (8 * Z.of_nat (length s)) * le_Z t.
Proof.
  induction s as [|b s IH]; [cbn [le_Z app length]; lia|].
  cbn [le_Z app length]. rewrite IH.
  replace (8 * Z.of_nat (S (length s))) with (8 + 8 * Z.of_nat (length s)) by lia.
  rewrite Z.pow_add_r by lia. change (2 ^ 8) with 256. lia.
Qed.

Lemma le_Z_zeros n : le_Z (replicate n x00) = 0.
Proof. induction n as [|n IH]; [done|]. cbn. rewrite IH. done. Qed.

(** One case of the fall-through: the bytes above are a multiple of
    [2 ^ (k + 8)], so the byte is added at position [k]. *)
Lemma lor_byte h b k :
  0 <= k -> 0 <= b < 256 ->
  Z.lor (h * 2 ^ (k + 8)) (Z.shiftl b k) = (h * 256 + b) * 2 ^ k.
Proof.
  intros Hk Hb. rewrite Z.shiftl_mul_pow2 by done.
  assert (0 < 2 ^ k) by (apply Z.pow_pos_nonneg; lia).
  rewrite lor_below; rewrite ?Z.pow_add_r by lia; change (2 ^ 8) with 256; nia.
Qed.

(** The word after the cases above [i]: the bytes from position [i] on. *)
Definition tail_word (l : Z) (m : bytes) (i : nat) : Z :=
  l * 2 ^ 56 + 2 ^ (8 * Z.of_nat i) * le_Z (drop i m).

Lemma tail_step l m i :
  (i <= 6)%nat ->
  (if decide (S i <= length m)%nat
   then Z.lor (tail_word l m (S i)) (Z.shiftl (Zb (default x00 (m !! i))) (8 * Z.of_nat i))
   else tail_word l m (S i)) = tail_word l m i.
Proof.
  intros Hi. unfold tail_word. case_decide as Hn.
  - destruct (lookup_lt_is_Some_2 m i) as [b Hb]; [lia|].
    rewrite Hb, (drop_S m b i Hb). cbn [default id le_Z].
    replace (2 ^ 56) with (2 ^ (48 - 8 * Z.of_nat i) * 2 ^ (8 * Z.of_nat i + 8))
      by (rewrite <- Z.pow_add_r by lia; f_equal; lia).
    replace (8 * Z.of_nat (S i)) with (8 * Z.of_nat i + 8) by lia.
    set (h := le_Z (drop (S i) m)).
    replace (l * (2 ^ (48 - 8 * Z.of_nat i) * 2 ^ (8 * Z.of_nat i + 8)) +
             2 ^ (8 * Z.of_nat i + 8) * h)
      with ((l * 2 ^ (48 - 8 * Z.of_nat i) + h) * 2 ^ (8 * Z.of_nat i + 8)) by lia.
    pose proof (Zb_range b). rewrite lor_byte, Z.pow_add_r by lia.
    change (2 ^ 8) with 256. lia.
  - rewrite !drop_ge by lia. cbn. lia.
Qed.

Ltac tail_step_at i k :=
  match goal with
  | |- context [tail_word ?l ?m (S i)] =>
      let H := fresh in
      pose proof (tail_step l m i ltac:(lia)) as H;
      change (8 * Z.of_nat i) with k in H; rewrite H; clear H
  end.

(** The bytes [m] of a tail of length at most seven, below the length byte. *)
Lemma sip_tail_spec l m :
  (length m <= 7)%nat -> sip_tail (Z.shiftl l 56) m = l * 2 ^ 56 + le_Z m.
Proof.
  intros Hm. rewrite Z.shiftl_mul_pow2 by lia.
  replace (l * 2 ^ 56) with (tail_word l m 7) at 1
    by (unfold tail_word; rewrite drop_ge by done; cbn; lia).
  replace (l * 2 ^ 56 + le_Z m) with (tail_word l m 0)
    by (unfold tail_word; rewrite drop_0; cbn; lia).
  unfold sip_tail. cbv zeta.
  tail_step_at 6%nat 48. tail_step_at 5%nat 40. tail_step_at 4%nat 32.
  tail_step_at 3%nat 24. tail_step_at 2%nat 16. tail_step_at 1%nat 8.
  rewrite <- (tail_step l m 0) by lia. change (8 * Z.of_nat 0) with 0.
  by rewrite Z.shiftl_0_r.
Qed.

Lemma words_short n s t :
  (8 * n <= length s)%nat -> Spec.words n (s ++ t) = Spec.words n s.
Proof.
  revert s. induction n as [|n IH]; intros s Hs; [done|]. cbn.
  rewrite take_app_le, drop_app_le by lia. f_equal. apply IH. rewrite length_drop. lia.
Qed.

(** The loop consumes the full words and leaves the last [length m mod 8] bytes. *)
Lemma sip_loop_spec f v m :
  (length m <= f)%nat ->
  sip_loop f v m = (fold_left Spec.compress (Spec.words (length m / 8) m) v,
                    drop (8 * (length m / 8)) m).
Proof.
  revert v m. induction f as [|f IH]; intros v m Hf.
  { destruct m; [done|cbn in Hf; lia]. }
  cbn [sip_loop]. case_decide as H8.
  - rewrite IH by (rewrite length_drop; lia). rewrite length_drop, drop_drop.
    replace (length m / 8)%nat with (S ((length m - 8) / 8))
      by (replace (length m) with (length m - 8 + 1 * 8)%nat at 2 by lia;
          rewrite Nat.div_add by lia; lia).
    cbn [Spec.words fold_left]. rewrite sip_block_spec.
    f_equal. f_equal. lia.
  - rewrite Nat.div_small by lia. done.
Qed.

Lemma words_S n s : Spec.words (S n) s = Spec.words n s ++ [le_Z (take 8 (drop (8 * n) s))].
Proof.
  revert s. induction n as [|n IH]; intros s; [cbn; by rewrite drop_0|].
  cbn [Spec.words] in *. rewrite IH, drop_drop. cbn [app].
  by replace (8 + 8 * n)%nat with (8 * S n)%nat by lia.
Qed.

(** The last word of the padded message is the word the code builds. *)
Lemma last_word s :
  le_Z (take 8 (drop (8 * (length s / 8)) (Spec.padded s))) =
  sip_tail (u64 (Z.shiftl (blen s) 56)) (drop (8 * (length s / 8)) s).
Proof.
  pose proof (Nat.div_mod_eq (length s) 8) as Hdm.
  pose proof (Nat.mod_upper_bound (length s) 8 ltac:(lia)) as Hm.
  unfold Spec.padded. rewrite drop_app_le by lia.
  set (t := drop (8 * (length s / 8)) s).
  assert (length t = length s `mod` 8)%nat as Ht by (unfold t; rewrite length_drop; lia).
  rewrite take_ge by (rewrite !length_app, length_replicate; cbn [length]; lia).
  rewrite !le_Z_app, le_Z_zeros, length_replicate. cbn [le_Z].
  rewrite Zb_bZ. change 256 with (2 ^ 8) at 1.
  replace (u64 (Z.shiftl (blen s) 56)) with (Z.shiftl (blen s `mod` 2 ^ 8) 56).
  - rewrite sip_tail_spec by lia.
    assert (2 ^ 56 = 2 ^ (8 * Z.of_nat (length t)) * 2 ^ (8 * Z.of_nat (7 - length s `mod` 8)))
      as -> by (rewrite <- Z.pow_add_r by lia; f_equal; lia).
    lia.
  - unfold u64. rewrite !Z.shiftl_mul_pow2 by lia.
    change (2 ^ 64) with (2 ^ 8 * 2 ^ 56). by rewrite Z.mul_mod_distr_r.
Qed.

Lemma four_rounds w : Nat.iter 4 Spec.sipround w = DOUBLE_ROUND (DOUBLE_ROUND w).
Proof. by rewrite !DOUBLE_ROUND_spec. Qed.

(** C39: The keyed hash.  On every input the unrolled implementation, with its
    half-round macros and its byte-wise tail, computes the published SipHash-2-4. *)
Theorem siphash24_is_spec k s : siphash24 k s = Spec.siphash_2_4 k s.
Proof.
  unfold siphash24, Spec.siphash_2_4. rewrite sip_loop_spec by done.
  rewrite <- last_word, words_S, fold_left_app. unfold Spec.padded.
  rewrite (words_short (length s / 8) s) by apply Nat.Div0.mul_div_le.
  cbn [fold_left]. cbv zeta. by rewrite four_rounds, sip_block_spec.
Qed.

(** ** The hash is a 64-bit value *)

Definition sip_ok (v : sip_state) : Prop :=
  0 <= v0 v < 2 ^ 64 /\ 0 <= v1 v < 2 ^ 64 /\ 0 <= v2 v < 2 ^ 64 /\ 0 <= v3 v < 2 ^ 64.

Lemma lxor_u64 a b : 0 <= a < 2 ^ 64 -> 0 <= b < 2 ^ 64 -> 0 <= Z.lxor a b < 2 ^ 64.
Proof.
  intros Ha Hb. split; [apply Z.lxor_nonneg; lia|].
  destruct (Z.eq_dec (Z.lxor a b) 0) as [->|Hne]; [lia|].
  assert (0 <= Z.lxor a b) by (apply Z.lxor_nonneg; lia).
  assert (forall x, 0 <= x < 2 ^ 64 -> Z.log2 x < 64) as Hl.
  { intros x Hx. destruct (Z.eq_dec x 0) as [->|]; [done|]. apply Z.log2_lt_pow2; lia. }
  apply Z.log2_lt_pow2; [lia|].
  eapply Z.le_lt_trans; [apply Z.log2_lxor; lia|]. pose proof (Hl a Ha). pose proof (Hl b Hb). lia.
Qed.

Lemma ROTATE_range x b : 0 <= ROTATE x b < 2 ^ 64.
Proof. apply u64_range. Qed.

Lemma DOUBLE_ROUND_ok v : sip_ok (DOUBLE_ROUND v).
Proof.
  unfold sip_ok, DOUBLE_ROUND, HALF_ROUND; cbn [v0 v1 v2 v3].
  refine (conj _ (conj _ (conj _ _))); eauto using lxor_u64, u64_range, ROTATE_range.
Qed.

Lemma siphash24_u64 k s : 0 <= siphash24 k s < 2 ^ 64.
Proof.
  unfold siphash24. destruct (sip_loop _ _ _) as [v m]. cbv zeta.
  match goal with |- context [DOUBLE_ROUND (DOUBLE_ROUND ?x)] =>
    destruct (DOUBLE_ROUND_ok (DOUBLE_ROUND x)) as (?&?&?&?) end.
  auto using lxor_u64.
Qed.

(** ** The first published test vector: key 00..0f, message 00..0e *)

Definition count_bytes (n : nat) : bytes := bZ ∘ Z.of_nat <$> seq 0 n.

Example siphash24_vector :
  siphash24 (siphash24_seed (count_bytes 16)) (count_bytes 15) = 0xa129ca6149be45e5.
Proof. vm_compute. reflexivity. Qed.
