(* ===== verification/Table.v ===== *)
(** * The contract of an object table

    What [cybozu::hash_map<T>] promises to the protocol code that uses it
    (src/memcache/sockets.cpp, src/counter/sockets.cpp,
    src/memcache/replication.cpp): a finite map from keys to objects in which
    every stored key has an address of its own.  The protocol components are
    written against the operations of this class and proved against its laws;
    HashMap.v gives the implementation and discharges the laws. *)

From S2P Require Import Prelude.

(** A [const hash_key&] to the key stored in an item: where it lives, and its
    bytes.  References kept across calls are compared by these. *)
Record kref := { kr_addr : nat; kr_data : bytes }.

#[export] Instance kref_eq_dec : EqDecision kref.
Proof. solve_decision. Defined.

(** [hash_key::has_prefix]. *)
Definition has_prefix (k p : bytes) : bool :=
  if decide (length k < length p)%nat then false
  else bool_decide (take (length p) k = p).

(** [std::function<bool(const hash_key&, T&)>]: the object is passed by
    reference, so the updated object is part of the result. *)
Definition handler (E T : Type) : Type := kref -> T -> M E (bool * T).
Definition creator (E T : Type) : Type := kref -> M E T.
(** The key passed to a [remove_if] predicate is the caller's own. *)
Definition predicate (E T : Type) : Type := bytes -> T -> M E (bool * T).
Definition visitor (E T : Type) : Type := kref -> T -> M E unit.

(** ** Operations *)

Class TableOps (H T : Type) := {
  t_apply : forall {E}, H -> bytes -> option (handler E T) -> option (creator E T) ->
            M E (bool * H);
  t_remove_if : forall {E}, H -> bytes -> predicate E T -> M E (bool * H);
  t_remove : forall {E}, H -> bytes -> M E (bool * H);
  t_foreach : forall {E}, H -> visitor E T -> M E unit;
  t_clear : H -> H;
  (** The iteration over the buckets with [bucket::gc]: the predicate runs on the
      objects of each bucket, between two actions of the caller. *)
  t_gc : forall {E}, H -> M E unit -> handler E T -> M E unit -> M E H
}.

(** ** Laws

    [t_map] is the abstract contents, [t_inv] the representation invariant;
    [t_put], [t_new] and [t_del] name the tables the operations produce. *)

Class Table (H T : Type) `{TableOps H T} := {
  t_inv : H -> Prop;
  t_map : H -> gmap bytes (nat * T);
  t_fresh : H -> nat;
  t_items : H -> list (kref * T);
  t_skip : H -> H;
  t_put : H -> bytes -> T -> H;
  t_new : H -> bytes -> T -> H;
  t_del : H -> bytes -> H;

  t_fresh_spec m k a o : t_inv m -> t_map m !! k = Some (a, o) -> (a < t_fresh m)%nat;
  t_addr_inj m k k' a o o' :
    t_inv m -> t_map m !! k = Some (a, o) -> t_map m !! k' = Some (a, o') -> k = k';

  t_apply_hit {E} m k a o (h : handler E T) c e :
    t_inv m -> t_map m !! k = Some (a, o) ->
    t_apply m k (Some h) c e =
      match h {| kr_addr := a; kr_data := k |} o e with
      | (inr (r, o'), e') => (inr (r, t_put m k o'), e')
      | (inl x, e') => (inl x, e')
      end;
  t_apply_hit_null {E} m k a o (c : option (creator E T)) e :
    t_inv m -> t_map m !! k = Some (a, o) ->
    t_apply m k None c e = (inr (false, t_skip m), e);
  t_apply_miss {E} m k (h : option (handler E T)) c e :
    t_inv m -> t_map m !! k = None ->
    t_apply m k h (Some c) e =
      match c {| kr_addr := t_fresh m; kr_data := k |} e with
      | (inr o, e') => (inr (true, t_new m k o), e')
      | (inl x, e') => (inl x, e')
      end;
  t_apply_miss_null {E} m k (h : option (handler E T)) e :
    t_inv m -> t_map m !! k = None ->
    t_apply m k h None e = (inr (false, t_skip m), e);

  t_remove_if_hit {E} m k a o (p : predicate E T) e :
    t_inv m -> t_map m !! k = Some (a, o) ->
    t_remove_if m k p e =
      match p k o e with
      | (inr (true, o'), e') => (inr (true, t_del m k), e')
      | (inr (false, o'), e') => (inr (true, t_put m k o'), e')
      | (inl x, e') => (inl x, e')
      end;
  t_remove_if_miss {E} m k (p : predicate E T) e :
    t_inv m -> t_map m !! k = None -> t_remove_if m k p e = (inr (false, t_skip m), e);
  t_remove_hit {E} m k v (e : E) :
    t_inv m -> t_map m !! k = Some v -> t_remove m k e = (inr (true, t_del m k), e);
  t_remove_miss {E} m k (e : E) :
    t_inv m -> t_map m !! k = None -> t_remove m k e = (inr (false, t_skip m), e);

  t_foreach_spec {E} m (v : visitor E T) :
    forall e, t_foreach m v e = iterM (fun p => v p.1 p.2) (t_items m) e;
  t_items_spec m r o :
    t_inv m -> (r, o) ∈ t_items m <-> t_map m !! kr_data r = Some (kr_addr r, o);

  t_skip_inv m : t_inv m -> t_inv (t_skip m);
  t_skip_map m : t_map (t_skip m) = t_map m;
  t_put_inv m k o : t_inv m -> t_inv (t_put m k o);
  t_put_map m k a o o' :
    t_inv m -> t_map m !! k = Some (a, o) -> t_map (t_put m k o') = <[k := (a, o')]> (t_map m);
  t_new_inv m k o : t_inv m -> t_map m !! k = None -> t_inv (t_new m k o);
  t_new_map m k o :
    t_inv m -> t_map m !! k = None ->
    t_map (t_new m k o) = <[k := (t_fresh m, o)]> (t_map m);
  t_del_inv m k : t_inv m -> t_inv (t_del m k);
  t_del_map m k : t_inv m -> t_map (t_del m k) = delete k (t_map m);
  t_clear_inv m : t_inv m -> t_inv (t_clear m);
  t_clear_map m : t_inv m -> t_map (t_clear m) = ∅;

  (** The predicate runs once on every object: whatever each application of it and
      each of the actions keeps, with the keys still to be visited, holds at the end. *)
  t_gc_rule {E} (X : exn -> Prop) (I : gset bytes -> gmap bytes (nat * T) -> E -> Prop) m
      (pre : M E unit) (pred : handler E T) (post : M E unit) e :
    t_inv m -> I (dom (t_map m)) (t_map m) e ->
    (forall todo (m0 : gmap bytes (nat * T)) k a o e0,
       k ∈ todo -> m0 !! k = Some (a, o) -> I todo m0 e0 ->
       wp X (pred {| kr_addr := a; kr_data := k |} o)
         (fun p e' => I (todo ∖ {[k]})
                        (if p.1 then delete k m0 else <[k := (a, p.2)]> m0) e') e0) ->
    (forall todo m0 e0, I todo m0 e0 -> wp X pre (fun _ e' => I todo m0 e') e0) ->
    (forall todo m0 e0, I todo m0 e0 -> wp X post (fun _ e' => I todo m0 e') e0) ->
    wp X (t_gc m pre pred post) (fun m' e' => t_inv m' /\ I ∅ (t_map m') e') e
}.

(** ** Rules for weakest preconditions *)

Section wp_rules.
Context {E H T : Type} `{HT : Table H T} (X : exn -> Prop).

Lemma wp_apply_hit hash k a o (h : handler E T) c (Q : bool * H -> E -> Prop) e :
  t_inv hash -> t_map hash !! k = Some (a, o) ->
  wp X (h {| kr_addr := a; kr_data := k |} o) (fun p e' => Q (p.1, t_put hash k p.2) e') e ->
  wp X (t_apply hash k (Some h) c) Q e.
Proof.
  intros Hi Hk Hw. unfold wp in *. rewrite (t_apply_hit hash k a o) by done.
  by destruct (h _ o e) as [[x|[r o']] e'].
Qed.

Lemma wp_apply_miss hash k (h : option (handler E T)) (c : creator E T) (Q : bool * H -> E -> Prop) e :
  t_inv hash -> t_map hash !! k = None ->
  wp X (c {| kr_addr := t_fresh hash; kr_data := k |}) (fun o e' => Q (true, t_new hash k o) e') e ->
  wp X (t_apply hash k h (Some c)) Q e.
Proof.
  intros Hi Hk Hw. unfold wp in *. rewrite t_apply_miss by done. by destruct (c _ e) as [[x|o] e'].
Qed.

Lemma wp_apply_none hash k (h : option (handler E T)) (Q : bool * H -> E -> Prop) e :
  t_inv hash -> t_map hash !! k = None -> Q (false, t_skip hash) e ->
  wp X (t_apply hash k h None) Q e.
Proof. intros Hi Hk Hw. unfold wp. by rewrite t_apply_miss_null. Qed.

Lemma wp_remove_if_hit hash k a o (p : predicate E T) (Q : bool * H -> E -> Prop) e :
  t_inv hash -> t_map hash !! k = Some (a, o) ->
  wp X (p k o)
    (fun res e' => Q (true, if res.1 : bool then t_del hash k else t_put hash k res.2) e') e ->
  wp X (t_remove_if hash k p) Q e.
Proof.
  intros Hi Hk Hw. unfold wp in *. rewrite (t_remove_if_hit hash k a o) by done.
  by destruct (p k o e) as [[x|[[] o']] e'].
Qed.
End wp_rules.
