(* ===== verification/HashMap.v ===== *)
(** * The concurrent object hash map (cybozu/hash_map.hpp, cybozu/hash_map.cpp)

    A fixed vector of buckets, each a singly linked list of items guarded by a mutex.  Every
    operation runs inside one bucket's critical section, so it is modelled as a function of
    the table.  [new item] takes the next address of the table; addresses are never reused,
    so a reference to a deleted item is recognisable; an operation that allocates nothing
    skips an address.  The file also models [nearest_prime], which chooses the number of
    buckets, and shows that the table satisfies the contract of Table.v. *)

From S2P Require Import Prelude Siphash Table.
From Stdlib Require Import Znumtheory.

(** ** hash_key *)

Record hash_key := { hk_data : bytes; hk_hash : Z }.

(** [hash_key(const char* p, std::size_t len)]. *)
Definition make_hash_key (sk : sip_key) (s : bytes) : hash_key :=
  {| hk_data := s; hk_hash := siphash24 sk s |}.

(** [operator==(const hash_key&, const hash_key&)]: same length, then [memcmp];
    the same pointer with the same length has the same contents. *)
Definition hash_key_eq (lhs rhs : hash_key) : bool :=
  if decide (length (hk_data lhs) <> length (hk_data rhs)) then false
  else bool_decide (hk_data lhs = hk_data rhs).

(** ** nearest_prime *)

(** [(unsigned int)std::rint(std::sqrt((double)i))]: the integer nearest to the
    square root, which a double represents exactly enough below 2^32. *)
Definition rint_sqrt (i : Z) : Z :=
  let s := Z.sqrt i in if i - s * s >? s then s + 1 else s.

(** The inner loop over [j = 3, 5, ...]: [false] when a divisor is found. *)
Fixpoint no_odd_divisor (fuel : nat) (i r j : Z) : bool :=
  match fuel with
  | O => true
  | S f => if j <=? r
           then if i `mod` j =? 0 then false else no_odd_divisor f i r (j + 2)
           else true
  end.

Definition is_prime_test (i : Z) : bool :=
  let r := rint_sqrt i in no_odd_divisor (Z.to_nat r) i r 3.

(** The outer loop over [i = n|1, ...]; [i] is an [unsigned int]. *)
Fixpoint prime_search (fuel : nat) (i : Z) : option Z :=
  match fuel with
  | O => None
  | S f => if is_prime_test i then Some i else prime_search f (u32 (i + 2))
  end.

Definition nearest_prime (fuel : nat) (n : Z) : option Z :=
  if n =? 2 then Some 2 else prime_search fuel (Z.lor n 1).

(** ** bucket *)

Record item (T : Type) := { it_addr : nat; it_key : hash_key; it_object : T }.
Arguments it_addr {T}.
Arguments it_key {T}.
Arguments it_object {T}.

Section bucket.
Context {E T : Type}.

Definition it_ref (p : item T) : kref :=
  {| kr_addr := it_addr p; kr_data := hk_data (it_key p) |}.

Definition with_object (p : item T) (o : T) : item T :=
  {| it_addr := it_addr p; it_key := it_key p; it_object := o |}.

(** The traversals of the list up to the first item with the key. *)
Definition find_item (objs : list (item T)) (k : hash_key) : option (nat * item T) :=
  list_find (fun p => Is_true (hash_key_eq (it_key p) k)) objs.

(** [bucket::apply_nolock]; [a] is the address a [new item] gets. *)
Definition bucket_apply_nolock (objs : list (item T)) (k : hash_key) (a : nat)
    (h : option (handler E T)) (c : option (creator E T)) : M E (bool * list (item T)) :=
  match find_item objs k with
  | Some (i, p) =>
      match h with
      | None => ret (false, objs)
      | Some f => let! (r, o) := f (it_ref p) (it_object p) in
                  ret (r, <[i := with_object p o]> objs)
      end
  | None =>
      match c with
      | None => ret (false, objs)
      | Some f => let! o := f {| kr_addr := a; kr_data := hk_data k |} in
                  ret (true, {| it_addr := a; it_key := k; it_object := o |} :: objs)
      end
  end.

(** [bucket::foreach]. *)
Definition bucket_foreach (objs : list (item T)) (v : visitor E T) : M E unit :=
  iterM (fun p => v (it_ref p) (it_object p)) objs.

(** [bucket::remove_nolock] with a null callback, as the only caller has it. *)
Definition bucket_remove_nolock (objs : list (item T)) (k : hash_key)
    : M E (bool * list (item T)) :=
  match find_item objs k with
  | Some (i, _) => ret (true, delete i objs)
  | None => ret (false, objs)
  end.

(** [bucket::remove_if]. *)
Definition bucket_remove_if (objs : list (item T)) (k : hash_key) (pred : predicate E T)
    : M E (bool * list (item T)) :=
  match find_item objs k with
  | Some (i, p) =>
      let! (r, o) := pred (hk_data k) (it_object p) in
      if r then ret (true, delete i objs)
      else ret (true, <[i := with_object p o]> objs)
  | None => ret (false, objs)
  end.

(** [bucket::gc]: the items for which the predicate holds are unlinked. *)
Fixpoint bucket_gc (objs : list (item T)) (pred : handler E T) : M E (list (item T)) :=
  match objs with
  | [] => ret []
  | p :: rest =>
      let! (r, o) := pred (it_ref p) (it_object p) in
      let! rest' := bucket_gc rest pred in
      ret (if r then rest' else with_object p o :: rest')
  end.

End bucket.

(** ** hash_map *)

Record hash_map (T : Type) := {
  m_size : Z;
  m_buckets : list (list (item T));
  m_next : nat              (** the next address of the allocator *)
}.
Arguments m_size {T}.
Arguments m_buckets {T}.
Arguments m_next {T}.

(** [hash_map(unsigned int buckets)], given the prime [nearest_prime] chose. *)
Definition hash_map_ctor (T : Type) (size : Z) : hash_map T :=
  {| m_size := size; m_buckets := replicate (Z.to_nat size) []; m_next := 0 |}.

Section hash_map.
Context {E T : Type}.

(** [key.hash() % m_size]. *)
Definition bucket_index (m : hash_map T) (k : hash_key) : nat :=
  Z.to_nat (hk_hash k `mod` m_size m).

Definition get_bucket (m : hash_map T) (k : hash_key) : list (item T) :=
  default [] (m_buckets m !! bucket_index m k).

Definition set_bucket (m : hash_map T) (k : hash_key) (b : list (item T)) (next : nat)
    : hash_map T :=
  {| m_size := m_size m; m_buckets := <[bucket_index m k := b]> (m_buckets m);
     m_next := next |}.

(** [hash_map::apply] and [hash_map::apply_nolock]. *)
Definition apply (m : hash_map T) (k : hash_key)
    (h : option (handler E T)) (c : option (creator E T)) : M E (bool * hash_map T) :=
  let! (r, b) := bucket_apply_nolock (get_bucket m k) k (m_next m) h c in
  ret (r, set_bucket m k b (S (m_next m))).

(** [hash_map::foreach]. *)
Definition foreach (m : hash_map T) (v : visitor E T) : M E unit :=
  iterM (fun b => bucket_foreach b v) (m_buckets m).

(** [hash_map::remove] and [hash_map::remove_nolock]. *)
Definition remove (m : hash_map T) (k : hash_key) : M E (bool * hash_map T) :=
  let! (r, b) := bucket_remove_nolock (get_bucket m k) k in
  ret (r, set_bucket m k b (S (m_next m))).

(** [hash_map::remove_if]. *)
Definition remove_if (m : hash_map T) (k : hash_key) (p : predicate E T)
    : M E (bool * hash_map T) :=
  let! (r, b) := bucket_remove_if (get_bucket m k) k p in
  ret (r, set_bucket m k b (S (m_next m))).

(** [bucket.clear_nolock()] for every bucket. *)
Definition clear (m : hash_map T) : hash_map T :=
  {| m_size := m_size m; m_buckets := (fun _ => []) <$> m_buckets m; m_next := m_next m |}.

(** The loop over the iterator [begin() .. end()] in [gc_thread::gc]. *)
Fixpoint gc_buckets (pre : M E unit) (pred : handler E T) (post : M E unit)
    (bs : list (list (item T))) : M E (list (list (item T))) :=
  match bs with
  | [] => ret []
  | b :: bs' =>
      pre ;;!
      let! b := bucket_gc b pred in
      post ;;!
      let! bs' := gc_buckets pre pred post bs' in
      ret (b :: bs')
  end.

Definition map_gc (m : hash_map T) (pre : M E unit) (pred : handler E T) (post : M E unit)
    : M E (hash_map T) :=
  let! bs := gc_buckets pre pred post (m_buckets m) in
  ret {| m_size := m_size m; m_buckets := bs; m_next := m_next m |}.

End hash_map.

#[export] Instance hash_map_ops (sk : sip_key) (T : Type) : TableOps (hash_map T) T := {|
  t_apply E m k h c := apply m (make_hash_key sk k) h c;
  t_remove_if E m k p := remove_if m (make_hash_key sk k) p;
  t_remove E m k := remove m (make_hash_key sk k);
  t_foreach E m v := foreach m v;
  t_clear := clear;
  t_gc E m pre pred post := map_gc m pre pred post
|}.
