(* ===== verification/HashMapSpec.v ===== *)
(** * The hash map implements the table contract

    The representation invariant of [hash_map] (an item sits in the bucket its
    hash selects, keys and addresses are unique, stored hashes are SipHash
    values), its preservation by every operation, and the instance of the
    contract of Table.v. *)

From S2P Require Import Prelude Siphash Table HashMap.

Section spec.
Context {T : Type} (sk : sip_key).
Implicit Types (m : hash_map T) (p : item T) (s : bytes).

Abbreviation hk := (make_hash_key sk).

Definition it_data (p : item T) : bytes := hk_data (it_key p).
Definition items (m : hash_map T) : list (item T) := concat (m_buckets m).

(** Conditions on the items that do not depend on their order. *)
Record items_ok (l : list (item T)) (next : nat) : Prop := {
  ok_hash p : p ∈ l -> it_key p = hk (it_data p);
  ok_keys : NoDup (it_data <$> l);
  ok_addrs : NoDup (it_addr <$> l);
  ok_next p : p ∈ l -> (it_addr p < next)%nat
}.

Record map_inv (m : hash_map T) : Prop := {
  inv_size : 0 < m_size m;
  inv_len : length (m_buckets m) = Z.to_nat (m_size m);
  inv_index i b p : m_buckets m !! i = Some b -> p ∈ b -> bucket_index m (it_key p) = i;
  inv_items : items_ok (items m) (m_next m)
}.

Definition it_entry (p : item T) : bytes * (nat * T) := (it_data p, (it_addr p, it_object p)).

Definition map_of (m : hash_map T) : gmap bytes (nat * T) :=
  list_to_map (it_entry <$> items m).

(** ** Permutations of items *)

#[export] Instance items_ok_perm :
  Proper ((≡ₚ) ==> eq ==> iff) items_ok.
Proof.
  intros l l' Hl n ? <-. split; intros [H1 H2 H3 H4]; split.
  1, 5: intros p Hp; apply H1; by (rewrite Hl || rewrite <- Hl).
  1, 4: by (rewrite <- Hl || rewrite Hl).
  1, 3: by (rewrite <- Hl || rewrite Hl).
  all: intros p Hp; apply H4; by (rewrite Hl || rewrite <- Hl).
Qed.

Lemma items_ok_next l n n' : (n <= n')%nat -> items_ok l n -> items_ok l n'.
Proof. intros Hn [H1 H2 H3 H4]. split; [done..|]. intros p Hp. specialize (H4 p Hp). lia. Qed.

Lemma items_ok_replace p o l n : items_ok (p :: l) n -> items_ok (with_object p o :: l) n.
Proof.
  intros [H1 H2 H3 H4]. split; [|done|done|].
  - intros q [->|Hq]%elem_of_cons; [|by apply H1; right]. apply (H1 p). by left.
  - intros q [->|Hq]%elem_of_cons; [|by apply H4; right]. apply (H4 p). by left.
Qed.

Lemma items_ok_tail p l n : items_ok (p :: l) n -> items_ok l n.
Proof.
  intros [H1 H2 H3 H4]. rewrite fmap_cons, NoDup_cons in H2. rewrite fmap_cons, NoDup_cons in H3.
  split; [|by apply H2|by apply H3|]; intros q Hq; [apply H1|apply H4]; by right.
Qed.

Lemma items_ok_cons s o l n :
  items_ok l n -> s ∉ it_data <$> l ->
  items_ok ({| it_addr := n; it_key := hk s; it_object := o |} :: l) (S n).
Proof.
  intros [H1 H2 H3 H4] Hs. split.
  - intros q [->|Hq]%elem_of_cons; [done|by apply H1].
  - rewrite fmap_cons, NoDup_cons. done.
  - rewrite fmap_cons, NoDup_cons. split; [|done].
    intros (q&Hq&Hin)%list_elem_of_fmap. specialize (H4 q Hin). cbn in Hq. lia.
  - intros q [->|Hq]%elem_of_cons; [cbn; lia|]. specialize (H4 q Hq). lia.
Qed.

Lemma entries_NoDup l n : items_ok l n -> NoDup ((it_entry <$> l).*1).
Proof.
  intros H. rewrite <- list_fmap_compose.
  replace (fst ∘ it_entry) with it_data by done. apply (ok_keys _ _ H).
Qed.

(** ** Buckets *)

Lemma bucket_index_lt m k : map_inv m -> (bucket_index m k < length (m_buckets m))%nat.
Proof.
  intros [Hs Hl _ _]. unfold bucket_index. rewrite Hl.
  pose proof (Z.mod_pos_bound (hk_hash k) (m_size m) Hs). lia.
Qed.

Lemma get_bucket_lookup m k :
  map_inv m -> m_buckets m !! bucket_index m k = Some (get_bucket m k).
Proof.
  intros H. unfold get_bucket.
  destruct (lookup_lt_is_Some_2 _ _ (bucket_index_lt m k H)) as [b ->]. done.
Qed.

Lemma concat_split (bs : list (list (item T))) i b :
  bs !! i = Some b ->
  exists rest, concat bs ≡ₚ b ++ rest /\ forall b', concat (<[i := b']> bs) ≡ₚ b' ++ rest.
Proof.
  intros Hi. exists (concat (take i bs) ++ concat (drop (S i) bs)).
  assert (forall c, concat (take i bs ++ c :: drop (S i) bs) ≡ₚ
    c ++ concat (take i bs) ++ concat (drop (S i) bs)) as Hc.
  { intros c. rewrite concat_app. cbn. rewrite !app_assoc.
    apply Permutation_app_tail, Permutation_app_comm. }
  split.
  - rewrite <- (take_drop_middle bs i b Hi) at 1. apply Hc.
  - intros b'. rewrite insert_take_drop by (by eapply lookup_lt_Some). apply Hc.
Qed.

(** The items outside the bucket of [k], and what replacing that bucket does. *)
Lemma set_bucket_spec m k :
  map_inv m ->
  exists rest, items m ≡ₚ get_bucket m k ++ rest /\
    forall b' n', items (set_bucket m k b' n') ≡ₚ b' ++ rest.
Proof.
  intros H. destruct (concat_split _ _ _ (get_bucket_lookup m k H)) as (rest&H1&H2).
  exists rest. split; [done|]. intros b' n'. apply H2.
Qed.

Lemma bucket_subset m k p : map_inv m -> p ∈ get_bucket m k -> p ∈ items m.
Proof.
  intros H Hp. destruct (set_bucket_spec m k H) as (rest&->&_). set_solver.
Qed.

Lemma set_bucket_inv m k b' n' :
  map_inv m ->
  (forall p, p ∈ b' -> bucket_index m (it_key p) = bucket_index m k) ->
  items_ok (items (set_bucket m k b' n')) n' ->
  map_inv (set_bucket m k b' n').
Proof.
  intros [Hs Hl Hi Hok] Hb Hok'. split; [done| |cbn|done].
  - cbn. by rewrite length_insert.
  - intros i b p Hib Hp. unfold bucket_index in *. cbn.
    destruct (decide (i = Z.to_nat (hk_hash k `mod` m_size m))) as [->|Hne].
    + rewrite list_lookup_insert_eq in Hib; [injection Hib as <-; by apply Hb|].
      pose proof (bucket_index_lt m k). unfold bucket_index in *.
      apply list_lookup_insert_Some in Hib. naive_solver.
    + rewrite list_lookup_insert_ne in Hib by done. by eapply Hi.
Qed.

(** ** Looking up a key *)

Lemma hash_key_eq_spec j k : hash_key_eq j k = bool_decide (hk_data j = hk_data k).
Proof.
  unfold hash_key_eq. case_decide as Hl; [|done].
  rewrite bool_decide_eq_false_2; [done|]. intros E. by rewrite E in Hl.
Qed.

Lemma map_of_Some m s a o :
  map_inv m ->
  map_of m !! s = Some (a, o) <->
  exists p, p ∈ items m /\ it_data p = s /\ it_addr p = a /\ it_object p = o.
Proof.
  intros H. unfold map_of.
  rewrite <- elem_of_list_to_map by (eapply entries_NoDup, inv_items, H).
  rewrite list_elem_of_fmap. unfold it_entry. split.
  - intros (p&[= -> -> ->]&Hp). by exists p.
  - intros (p&Hp&<-&<-&<-). by exists p.
Qed.

Lemma map_of_None m s : map_of m !! s = None <-> s ∉ it_data <$> items m.
Proof.
  unfold map_of. rewrite <- not_elem_of_list_to_map, <- list_fmap_compose. done.
Qed.

Lemma item_in_bucket m p :
  map_inv m -> p ∈ items m -> p ∈ get_bucket m (hk (it_data p)).
Proof.
  intros H Hpi. pose proof Hpi as Hp.
  apply list_elem_of_In, in_concat in Hp as (b&Hb%list_elem_of_In&Hp%list_elem_of_In).
  apply list_elem_of_lookup in Hb as [i Hi].
  rewrite <- (ok_hash _ _ (inv_items _ H) p Hpi).
  pose proof (inv_index _ H i b p Hi Hp) as <-.
  by rewrite (get_bucket_lookup m _ H) in Hi; injection Hi as ->.
Qed.

Lemma find_item_hit m s a o :
  map_inv m -> map_of m !! s = Some (a, o) ->
  exists i p, find_item (get_bucket m (hk s)) (hk s) = Some (i, p) /\
    get_bucket m (hk s) !! i = Some p /\ it_data p = s /\ it_addr p = a /\ it_object p = o.
Proof.
  intros H Hs. apply map_of_Some in Hs as (p&Hp&Hd&Ha&Ho); [|done].
  pose proof (item_in_bucket m p H Hp) as Hb. rewrite Hd in Hb.
  destruct (list_find_elem_of (fun q => Is_true (hash_key_eq (it_key q) (hk s)))
    (get_bucket m (hk s)) p) as [[i q] Hf]; [done| |].
  { rewrite hash_key_eq_spec. by apply bool_decide_spec. }
  exists i, q. split; [exact Hf|].
  apply list_find_Some in Hf as (Hi&Hq&_). split; [done|].
  rewrite hash_key_eq_spec in Hq. apply bool_decide_spec in Hq. cbn in Hq.
  assert (q = p) as ->; [|done].
  assert (q ∈ items m) as Hqi by (eapply bucket_subset; [done|]; by eapply list_elem_of_lookup_2).
  pose proof (ok_keys _ _ (inv_items _ H)) as Hnd.
  apply list_elem_of_lookup in Hqi as [i1 Hi1], Hp as [i2 Hi2].
  assert (i1 = i2) as ->; [|congruence].
  eapply (NoDup_lookup _ i1 i2 s Hnd); rewrite list_lookup_fmap.
  - rewrite Hi1. cbn. by rewrite <- Hq.
  - rewrite Hi2. cbn. by rewrite Hd.
Qed.

Lemma find_item_miss m s :
  map_inv m -> map_of m !! s = None -> find_item (get_bucket m (hk s)) (hk s) = None.
Proof.
  intros H Hs. destruct (find_item _ _) as [[i p]|] eqn:Hf; [|done]. exfalso.
  apply map_of_None in Hs. apply Hs.
  apply list_find_Some in Hf as (Hi&Hq&_).
  rewrite hash_key_eq_spec in Hq. apply bool_decide_spec in Hq. cbn in Hq.
  apply list_elem_of_fmap. exists p. split; [done|].
  eapply bucket_subset; [done|]. by eapply list_elem_of_lookup_2.
Qed.

(** ** The tables the operations produce *)

Definition skip_addr (m : hash_map T) : hash_map T :=
  {| m_size := m_size m; m_buckets := m_buckets m; m_next := S (m_next m) |}.

Definition put (m : hash_map T) (s : bytes) (o : T) : hash_map T :=
  match find_item (get_bucket m (hk s)) (hk s) with
  | Some (i, p) => set_bucket m (hk s) (<[i := with_object p o]> (get_bucket m (hk s)))
                     (S (m_next m))
  | None => skip_addr m
  end.

Definition new (m : hash_map T) (s : bytes) (o : T) : hash_map T :=
  set_bucket m (hk s)
    ({| it_addr := m_next m; it_key := hk s; it_object := o |} :: get_bucket m (hk s))
    (S (m_next m)).

Definition del (m : hash_map T) (s : bytes) : hash_map T :=
  match find_item (get_bucket m (hk s)) (hk s) with
  | Some (i, _) => set_bucket m (hk s) (delete i (get_bucket m (hk s))) (S (m_next m))
  | None => skip_addr m
  end.

Lemma insert_perm (b : list (item T)) i p q :
  b !! i = Some p -> <[i := q]> b ≡ₚ q :: delete i b.
Proof.
  intros Hi. rewrite insert_take_drop by (by eapply lookup_lt_Some).
  rewrite delete_take_drop. symmetry. apply Permutation_middle.
Qed.

Lemma map_of_perm m l n :
  items m ≡ₚ l -> items_ok l n -> map_of m = list_to_map (it_entry <$> l).
Proof.
  intros Hp Hok. unfold map_of. symmetry. apply list_to_map_proper.
  - by eapply entries_NoDup.
  - by rewrite Hp.
Qed.

(** What [put] and [del] do to the items, when the key is present. *)
Lemma hit_items m s a o :
  map_inv m -> map_of m !! s = Some (a, o) ->
  exists p rest, it_data p = s /\ it_addr p = a /\ it_object p = o /\
    p ∈ get_bucket m (hk s) /\
    items m ≡ₚ p :: rest /\
    (forall o', items (put m s o') ≡ₚ with_object p o' :: rest) /\
    items (del m s) ≡ₚ rest.
Proof.
  intros H Hs. destruct (find_item_hit m s a o H Hs) as (i&p&Hf&Hi&Hd&Ha&Ho).
  destruct (set_bucket_spec m (hk s) H) as (rest&Hr&Hset).
  exists p, (delete i (get_bucket m (hk s)) ++ rest). split_and!; [done..| | | |].
  - by eapply list_elem_of_lookup_2.
  - rewrite Hr. rewrite <- (list_insert_id (get_bucket m (hk s)) i p Hi) at 1.
    rewrite (insert_perm _ i p p Hi). done.
  - intros o'. unfold put. rewrite Hf, Hset, (insert_perm _ i p _ Hi). done.
  - unfold del. rewrite Hf, Hset. done.
Qed.

Lemma bucket_member_index m k p :
  map_inv m -> p ∈ get_bucket m k -> bucket_index m (it_key p) = bucket_index m k.
Proof. intros H Hp. eapply inv_index; [done| |done]. by apply get_bucket_lookup. Qed.

Lemma skip_inv m : map_inv m -> map_inv (skip_addr m).
Proof. intros [H1 H2 H3 H4]. split; [done..|]. eapply items_ok_next; [|done]. cbn. lia. Qed.

Lemma put_inv m s o : map_inv m -> map_inv (put m s o).
Proof.
  intros H. destruct (map_of m !! s) as [[a o0]|] eqn:Hs.
  - destruct (hit_items m s a o0 H Hs) as (p&rest&Hd&Ha&Ho&Hb&Hr&Hput&_).
    specialize (Hput o). unfold put in *.
    destruct (find_item_hit m s a o0 H Hs) as (i&q&Hf&Hi&_). rewrite Hf in *.
    apply set_bucket_inv; [done| |].
    + intros x [j Hx]%list_elem_of_lookup.
      apply list_lookup_insert_Some in Hx as [(_&<-&_)|[_ Hx]].
      * apply (bucket_member_index m _ q); [done|]. by eapply list_elem_of_lookup_2.
      * apply bucket_member_index; [done|]. by eapply list_elem_of_lookup_2.
    + rewrite Hput. apply items_ok_replace. rewrite <- Hr.
      eapply items_ok_next; [|apply H]. lia.
  - unfold put. rewrite (find_item_miss m s H Hs). by apply skip_inv.
Qed.

Lemma put_map m s a o o' :
  map_inv m -> map_of m !! s = Some (a, o) -> map_of (put m s o') = <[s := (a, o')]> (map_of m).
Proof.
  intros H Hs. destruct (hit_items m s a o H Hs) as (p&rest&Hd&Ha&Ho&Hb&Hr&Hput&_).
  pose proof (inv_items _ H) as Hok. rewrite Hr in Hok.
  rewrite (map_of_perm m _ _ Hr Hok).
  rewrite (map_of_perm _ _ _ (Hput o') (items_ok_replace p o' _ _ Hok)).
  rewrite !fmap_cons. replace (it_entry (with_object p o')) with (s, (a, o')) by (by subst).
  replace (it_entry p) with (s, (a, o)) by (by subst). cbn. by rewrite insert_insert_eq.
Qed.

Lemma new_items m s o :
  map_inv m -> items (new m s o) ≡ₚ
    {| it_addr := m_next m; it_key := hk s; it_object := o |} :: items m.
Proof.
  intros H. destruct (set_bucket_spec m (hk s) H) as (rest&Hr&Hset).
  unfold new. by rewrite Hset, Hr.
Qed.

Lemma new_inv m s o : map_inv m -> map_of m !! s = None -> map_inv (new m s o).
Proof.
  intros H Hs. pose proof (new_items m s o H) as Hn. unfold new in *.
  apply set_bucket_inv; [done| |].
  - intros x [->|Hx]%elem_of_cons; [done|]. by apply bucket_member_index.
  - rewrite Hn. apply items_ok_cons; [apply H|]. by apply map_of_None.
Qed.

Lemma new_map m s o :
  map_inv m -> map_of m !! s = None -> map_of (new m s o) = <[s := (m_next m, o)]> (map_of m).
Proof.
  intros H Hs. pose proof (inv_items _ H) as Hok.
  rewrite (map_of_perm _ _ (S (m_next m)) (new_items m s o H)); [done|].
  apply items_ok_cons; [done|]. by apply map_of_None.
Qed.

Lemma del_inv m s : map_inv m -> map_inv (del m s).
Proof.
  intros H. destruct (map_of m !! s) as [[a o0]|] eqn:Hs.
  - destruct (hit_items m s a o0 H Hs) as (p&rest&Hd&Ha&Ho&Hb&Hr&_&Hdel).
    unfold del in *. destruct (find_item_hit m s a o0 H Hs) as (i&q&Hf&Hi&_). rewrite Hf in *.
    apply set_bucket_inv; [done| |].
    + intros x Hx. apply bucket_member_index; [done|].
      rewrite delete_take_drop in Hx. rewrite <- (take_drop_middle _ _ _ Hi). set_solver.
    + rewrite Hdel. eapply (items_ok_tail p). rewrite <- Hr.
      eapply items_ok_next; [|apply H]. lia.
  - unfold del. rewrite (find_item_miss m s H Hs). by apply skip_inv.
Qed.

Lemma del_map m s : map_inv m -> map_of (del m s) = delete s (map_of m).
Proof.
  intros H. destruct (map_of m !! s) as [[a o0]|] eqn:Hs.
  - destruct (hit_items m s a o0 H Hs) as (p&rest&Hd&Ha&Ho&Hb&Hr&_&Hdel).
    pose proof (inv_items _ H) as Hok. rewrite Hr in Hok.
    rewrite (map_of_perm m _ _ Hr Hok), (map_of_perm _ _ _ Hdel (items_ok_tail _ _ _ Hok)).
    rewrite fmap_cons. replace (it_entry p) with (s, (a, o0)) by (by subst).
    cbn. rewrite delete_insert_id; [done|].
    apply not_elem_of_list_to_map. rewrite <- list_fmap_compose.
    pose proof (ok_keys _ _ Hok) as Hnd. rewrite fmap_cons, NoDup_cons, Hd in Hnd. apply Hnd.
  - rewrite delete_id by done. unfold del. by rewrite (find_item_miss m s H Hs).
Qed.

Lemma set_bucket_same m k :
  map_inv m -> set_bucket m k (get_bucket m k) (S (m_next m)) = skip_addr m.
Proof.
  intros H. unfold set_bucket, skip_addr. f_equal. apply list_insert_id.
  by apply get_bucket_lookup.
Qed.

Lemma clear_inv m : map_inv m -> map_inv (clear m).
Proof.
  intros [H1 H2 H3 H4]. split; [done| | |].
  - cbn. by rewrite length_fmap.
  - intros i b p Hi Hp. cbn in Hi. apply list_lookup_fmap_Some in Hi as (c&->&_).
    by apply elem_of_nil in Hp.
  - assert (items (clear m) = []) as ->.
    { unfold items. cbn. clear. by induction (m_buckets m). }
    split; cbn; try (intros p Hp; by apply elem_of_nil in Hp); constructor.
Qed.

Lemma clear_map m : map_of (clear m) = ∅.
Proof.
  unfold map_of, items. cbn.
  replace (concat ((fun _ => []) <$> m_buckets m)) with (@nil (item T)); [done|].
  by induction (m_buckets m).
Qed.

Lemma ctor_inv size : 0 < size -> map_inv (hash_map_ctor T size).
Proof.
  intros Hs. assert (items (hash_map_ctor T size) = []) as Hi.
  { unfold items. cbn. by induction (Z.to_nat size). }
  split; [done| | |].
  - cbn. by rewrite length_replicate.
  - intros i b p Hb Hp. cbn in Hb. apply lookup_replicate in Hb as [-> _].
    by apply elem_of_nil in Hp.
  - rewrite Hi. split; cbn; try (intros p Hp; by apply elem_of_nil in Hp); constructor.
Qed.

Lemma ctor_map size : map_of (hash_map_ctor T size) = ∅.
Proof.
  unfold map_of, items. cbn.
  replace (concat (replicate (Z.to_nat size) [])) with (@nil (item T)); [done|].
  by induction (Z.to_nat size).
Qed.

Lemma apply_hit E m s a o (h : handler E T) c e :
  map_inv m -> map_of m !! s = Some (a, o) ->
  apply m (hk s) (Some h) c e =
    match h {| kr_addr := a; kr_data := s |} o e with
    | (inr (r, o'), e') => (inr (r, put m s o'), e')
    | (inl x, e') => (inl x, e')
    end.
Proof.
  intros H Hs. destruct (find_item_hit m s a o H Hs) as (i&p&Hf&Hi&Hd&Ha&Ho).
  unfold apply, bucket_apply_nolock, put, bind, ret. rewrite Hf. unfold it_ref.
  change (hk_data (it_key p)) with (it_data p). rewrite Hd, Ha, Ho.
  by destruct (h _ _ _) as [[x|[r o']] e'].
Qed.

Lemma remove_if_hit E m s a o (f : predicate E T) e :
  map_inv m -> map_of m !! s = Some (a, o) ->
  remove_if m (hk s) f e =
    match f s o e with
    | (inr (true, o'), e') => (inr (true, del m s), e')
    | (inr (false, o'), e') => (inr (true, put m s o'), e')
    | (inl x, e') => (inl x, e')
    end.
Proof.
  intros H Hs. destruct (find_item_hit m s a o H Hs) as (i&p&Hf&Hi&Hd&Ha&Ho).
  unfold remove_if, bucket_remove_if, put, del, bind, ret. rewrite Hf. cbn [hk_data make_hash_key].
  rewrite Ho. by destruct (f _ _ _) as [[x|[[] o']] e'].
Qed.

Lemma foreach_items E m (v : visitor E T) e :
  foreach m v e = iterM (fun q => v q.1 q.2) ((fun p => (it_ref p, it_object p)) <$> items m) e.
Proof.
  unfold foreach, items. revert e. induction (m_buckets m) as [|b bs IH]; intros e; [done|].
  cbn [concat]. rewrite fmap_app, iterM_app. cbn [iterM]. unfold bind at 1 2.
  assert (bucket_foreach b v e =
    iterM (fun q => v q.1 q.2) ((fun p => (it_ref p, it_object p)) <$> b) e) as ->.
  { unfold bucket_foreach. clear. revert e. induction b as [|p b IHb]; intros e; [done|].
    cbn. unfold bind. destruct (v _ _ _) as [[x|[]] e']; [done|]. apply IHb. }
  destruct (iterM _ _ e) as [[x|[]] e']; [done|]. apply IH.
Qed.

(** ** Garbage collection *)

Section gc.
Context {E : Type} (X : exn -> Prop) (I : gset bytes -> gmap bytes (nat * T) -> E -> Prop).
Context (pred : handler E T) (next : nat).
Abbreviation entries l := (list_to_map (it_entry <$> l) : gmap bytes (nat * T)).
Abbreviation keys l := (list_to_set (it_data <$> l) : gset bytes).

Hypothesis Hpred : forall todo (m0 : gmap bytes (nat * T)) k a o e0,
  k ∈ todo -> m0 !! k = Some (a, o) -> I todo m0 e0 ->
  wp X (pred {| kr_addr := a; kr_data := k |} o)
    (fun x e' => I (todo ∖ {[k]}) (if x.1 then delete k m0 else <[k := (a, x.2)]> m0) e') e0.

Lemma keys_item p l l' : items_ok (p :: l' ++ l) next ->
  it_data p ∈ keys (p :: l) /\ keys (p :: l) ∖ {[it_data p]} = keys l.
Proof.
  intros Hok. pose proof (ok_keys _ _ Hok) as Hk.
  rewrite fmap_cons, NoDup_cons, fmap_app, not_elem_of_app in Hk.
  cbn [fmap list_fmap list_to_set]. set_solver.
Qed.

Lemma entries_perm l l' : items_ok l next -> l ≡ₚ l' -> entries l = entries l'.
Proof. intros Hok Hp. apply list_to_map_proper; [by eapply entries_NoDup|by rewrite Hp]. Qed.

(** What happens to one item among the others. *)
Lemma entries_item p l : items_ok (p :: l) next ->
  entries (p :: l) !! it_data p = Some (it_addr p, it_object p) /\
  entries l = delete (it_data p) (entries (p :: l)) /\
  forall o, entries (with_object p o :: l) = <[it_data p := (it_addr p, o)]> (entries (p :: l)).
Proof.
  intros Hok. pose proof (ok_keys _ _ Hok) as Hk. rewrite fmap_cons, NoDup_cons in Hk.
  destruct Hk as [Hk _]. cbn [fmap list_fmap list_to_map it_entry].
  change (it_entry p) with (it_data p, (it_addr p, it_object p)). cbn [list_to_map foldr].
  split; [apply lookup_insert_eq|]. split.
  - rewrite delete_insert_id; [done|]. apply not_elem_of_list_to_map_1.
    by rewrite <- list_fmap_compose.
  - intros o. cbn. by rewrite insert_insert_eq.
Qed.

Lemma bucket_gc_rule before b after e :
  items_ok (before ++ b ++ after) next ->
  I (keys (b ++ after)) (entries (before ++ b ++ after)) e ->
  wp X (bucket_gc b pred) (fun b' e' =>
    items_ok (before ++ b' ++ after) next /\ I (keys after) (entries (before ++ b' ++ after)) e' /\
    forall p', p' ∈ b' -> exists p, p ∈ b /\ it_key p' = it_key p) e.
Proof.
  revert before e. induction b as [|p b IH]; intros before e Hok HI.
  { apply wp_ret. split_and!; [done|done|]. by intros p' ?%elem_of_nil. }
  assert (before ++ (p :: b) ++ after ≡ₚ p :: before ++ b ++ after) as Hperm
    by (symmetry; apply Permutation_middle).
  pose proof Hok as Hok'. rewrite Hperm in Hok'.
  destruct (entries_item _ _ Hok') as (H1&H2&H3). destruct (keys_item _ _ _ Hok') as [K1 K2].
  rewrite (entries_perm _ _ Hok Hperm) in HI. cbn [app] in HI.
  cbn [bucket_gc]. apply wp_bind. eapply wp_mono; [exact (Hpred _ _ _ _ _ _ K1 H1 HI)|].
  rewrite K2. intros [[] o] e1 HI1; cbn [fst snd] in HI1; apply wp_bind.
  - eapply wp_mono; [apply (IH before)|].
    + by eapply items_ok_tail.
    + by rewrite H2.
    + intros b' e2 (A&B&C). apply wp_ret. split_and!; [done|done|].
      intros p' Hp'. destruct (C p' Hp') as (q&Hq&Ek). exists q. by split; [right|].
  - assert ((before ++ [with_object p o]) ++ b ++ after ≡ₚ with_object p o :: before ++ b ++ after) as Hperm2
      by (rewrite <- app_assoc; symmetry; apply Permutation_middle).
    assert (items_ok ((before ++ [with_object p o]) ++ b ++ after) next) as Hok2
      by (rewrite Hperm2; by apply items_ok_replace).
    eapply wp_mono; [apply (IH (before ++ [with_object p o]))|].
    + done.
    + by rewrite (entries_perm _ _ Hok2 Hperm2), H3.
    + intros b' e2 (A&B&C). apply wp_ret. rewrite <- app_assoc in A, B. split_and!; [done|done|].
      intros p' [-> |Hp']%elem_of_cons; [exists p; by split; [left|]|].
      destruct (C p' Hp') as (q&Hq&Ek). exists q. by split; [right|].
Qed.

(** The actions around each bucket. *)
Context (pre post : M E unit).
Hypothesis Hpre : forall todo (m0 : gmap bytes (nat * T)) e0,
  I todo m0 e0 -> wp X pre (fun _ e' => I todo m0 e') e0.
Hypothesis Hpost : forall todo (m0 : gmap bytes (nat * T)) e0,
  I todo m0 e0 -> wp X post (fun _ e' => I todo m0 e') e0.

Lemma gc_buckets_rule before bs e :
  items_ok (before ++ concat bs) next ->
  I (keys (concat bs)) (entries (before ++ concat bs)) e ->
  wp X (gc_buckets pre pred post bs) (fun bs' e' =>
    items_ok (before ++ concat bs') next /\ I ∅ (entries (before ++ concat bs')) e' /\
    Forall2 (fun b b' => forall p', p' ∈ b' -> exists p, p ∈ b /\ it_key p' = it_key p) bs bs') e.
Proof.
  revert before e. induction bs as [|b bs IH]; intros before e Hok HI.
  { by apply wp_ret. }
  cbn [gc_buckets concat] in *. apply wp_bind. eapply wp_mono; [by apply Hpre|].
  intros [] e1 HI1. apply wp_bind. eapply wp_mono; [by apply bucket_gc_rule|].
  intros b' e2 (A&B&C). apply wp_bind. eapply wp_mono; [by apply Hpost|].
  intros [] e3 HI3. cbv beta in HI3. apply wp_bind. rewrite app_assoc in A, HI3.
  eapply wp_mono; [by apply (IH (before ++ b'))|]. intros bs' e4 (A4&B4&C4).
  apply wp_ret. rewrite <- app_assoc in A4, B4. split_and!; [done|done|by constructor].
Qed.

Lemma dom_entries l : dom (entries l) = keys l.
Proof.
  rewrite dom_list_to_map_L, <- list_fmap_compose. done.
Qed.

Lemma map_gc_rule m e :
  map_inv m -> m_next m = next -> I (dom (map_of m)) (map_of m) e ->
  wp X (map_gc m pre pred post) (fun m' e' => map_inv m' /\ I ∅ (map_of m') e') e.
Proof.
  intros [H1 H2 H3 H4] Hn HI. unfold map_gc. apply wp_bind. rewrite Hn in H4.
  unfold map_of in HI. rewrite dom_entries in HI.
  eapply wp_mono; [by apply (gc_buckets_rule [])|]. intros bs' e' (A&B&C). apply wp_ret.
  split; [|exact B]. constructor; cbn.
  - done.
  - rewrite <- H2. symmetry. by eapply Forall2_length.
  - intros i b' p' Hb' Hp'. destruct (Forall2_lookup_r _ _ _ _ _ C Hb') as (b&Hb&Hkey).
    destruct (Hkey p' Hp') as (p&Hp&->). exact (H3 i b p Hb Hp).
  - rewrite Hn. exact A.
Qed.
End gc.
End spec.

#[export] Program Instance hash_map_table (sk : sip_key) (T : Type)
    : Table (hash_map T) T (H0 := hash_map_ops sk T) := {|
  t_inv := map_inv sk;
  t_map := map_of;
  t_fresh := m_next;
  t_items m := (fun p => (it_ref p, it_object p)) <$> items m;
  t_skip := skip_addr;
  t_put := put sk;
  t_new := new sk;
  t_del := del sk
|}.
Next Obligation.
  intros sk T m k a o H (p&Hp&_&<-&_)%(map_of_Some sk m k a o H).
  by apply (ok_next _ _ _ (inv_items _ _ H)).
Qed.
Next Obligation.
  intros sk T m k k' a o o' H (p&Hp&<-&Ha&_)%(map_of_Some sk m k a o H)
    (q&Hq&<-&Ha'&_)%(map_of_Some sk m k' a o' H).
  enough (p = q) as -> by done.
  apply list_elem_of_lookup in Hp as [i Hi], Hq as [j Hj].
  assert (i = j) as ->; [|congruence].
  eapply (NoDup_lookup _ i j a (ok_addrs _ _ _ (inv_items _ _ H))); rewrite list_lookup_fmap.
  - rewrite Hi. cbn. by rewrite Ha.
  - rewrite Hj. cbn. by rewrite Ha'.
Qed.
Next Obligation. intros. by apply (apply_hit sk E m k a o). Qed.
Next Obligation.
  intros sk T E m k a o c e H Hs. destruct (find_item_hit sk m k a o H Hs) as (i&p&Hf&_).
  cbn. unfold apply, bucket_apply_nolock, bind, ret. rewrite Hf.
  by rewrite (set_bucket_same sk).
Qed.
Next Obligation.
  intros sk T E m k h c e H Hs. cbn.
  unfold apply, bucket_apply_nolock, bind, ret. rewrite (find_item_miss sk m k H Hs). cbn.
  by destruct (c _ e) as [[x|o] e'].
Qed.
Next Obligation.
  intros sk T E m k h e H Hs. cbn.
  unfold apply, bucket_apply_nolock, bind, ret. rewrite (find_item_miss sk m k H Hs). cbn.
  by rewrite (set_bucket_same sk).
Qed.
Next Obligation. intros. by apply (remove_if_hit sk E m k a o). Qed.
Next Obligation.
  intros sk T E m k p e H Hs. cbn. unfold remove_if, bucket_remove_if, bind, ret.
  rewrite (find_item_miss sk m k H Hs). cbn. by rewrite (set_bucket_same sk).
Qed.
Next Obligation.
  intros sk T E m k [a o] e H Hs. destruct (find_item_hit sk m k a o H Hs) as (i&p&Hf&_).
  cbn. unfold remove, bucket_remove_nolock, del, bind, ret. by rewrite Hf.
Qed.
Next Obligation.
  intros sk T E m k e H Hs. cbn. unfold remove, bucket_remove_nolock, bind, ret.
  rewrite (find_item_miss sk m k H Hs). cbn. by rewrite (set_bucket_same sk).
Qed.
Next Obligation. intros sk T E m v e. apply foreach_items. Qed.
Next Obligation.
  intros sk T m [a k] o H. cbn. rewrite (map_of_Some sk m k a o H), list_elem_of_fmap.
  unfold it_ref. split.
  - intros (p&[= -> -> ->]&Hp). by exists p.
  - intros (p&Hp&<-&<-&<-). by exists p.
Qed.
Next Obligation. intros. by apply skip_inv. Qed.
Next Obligation. done. Qed.
Next Obligation. intros. by apply put_inv. Qed.
Next Obligation. intros. by eapply put_map. Qed.
Next Obligation. intros. by apply new_inv. Qed.
Next Obligation. intros. by eapply new_map. Qed.
Next Obligation. intros. by apply del_inv. Qed.
Next Obligation. intros. by eapply del_map. Qed.
Next Obligation. intros. by apply clear_inv. Qed.
Next Obligation. intros. apply clear_map. Qed.
Next Obligation. intros. by eapply map_gc_rule. Qed.
