(* ===== verification/BucketVisit.v ===== *)
(** * A collection, bucket by bucket

    [bucket::gc] holds the mutex of one bucket; between two buckets of a collection other
    threads work on the table.  Here are one iteration of the loop over the buckets in the
    two [gc_thread::gc], and the rule for it. *)

From S2P Require Import Prelude Table Siphash HashMap HashMapSpec.

(** The head of what follows a position. *)
Lemma cons_drop {A} (l l' : list A) i x : x :: l' = drop i l -> l !! i = Some x /\ l' = drop (S i) l.
Proof.
  intros Hd. pose proof (f_equal (fun l => l !! 0%nat) Hd) as H0. cbn in H0.
  rewrite lookup_drop, Nat.add_0_r in H0. split; [done|].
  apply (f_equal tail) in Hd. cbn in Hd. rewrite Hd. by rewrite (drop_S _ _ _ (eq_sym H0)).
Qed.

Section bucketwise.
Context {E T : Type} (pre : M E unit) (pred : handler E T) (post : M E unit).

(** One iteration of the loop over the buckets in [gc_thread::gc]. *)
Definition map_gc_at (m : hash_map T) (i : nat) : M E (hash_map T) :=
  match m_buckets m !! i with
  | None => ret m
  | Some b =>
      pre ;;!
      let! b' := bucket_gc b pred in
      post ;;!
      ret {| m_size := m_size m; m_buckets := <[i := b']> (m_buckets m); m_next := m_next m |}
  end.

Fixpoint map_gc_from (m : hash_map T) (i n : nat) : M E (hash_map T) :=
  match n with
  | O => ret m
  | S n' => let! m := map_gc_at m i in map_gc_from m (S i) n'
  end.

Lemma gc_from_buckets size next before bs e :
  map_gc_from {| m_size := size; m_buckets := before ++ bs; m_next := next |}
    (length before) (length bs) e =
  (let! bs' := gc_buckets pre pred post bs in
   ret {| m_size := size; m_buckets := before ++ bs'; m_next := next |}) e.
Proof.
  revert before e. induction bs as [|b bs IH]; intros before e; [done|].
  cbn [length map_gc_from gc_buckets]. unfold map_gc_at at 1. cbn [m_buckets m_size m_next].
  rewrite lookup_app_r, Nat.sub_diag by lia. cbn [lookup list_lookup]. unfold bind, ret in *.
  destruct (pre e) as [[x|[]] e1]; [done|]. destruct (bucket_gc b pred e1) as [[x|b'] e2]; [done|].
  destruct (post e2) as [[x|[]] e3]; [done|].
  rewrite insert_app_r_alt, Nat.sub_diag by lia. cbn [insert list_insert].
  rewrite (cons_middle b'), app_assoc.
  replace (S (length before)) with (length (before ++ [b'])) by (rewrite length_app; cbn; lia).
  rewrite IH. destruct (gc_buckets pre pred post bs e3) as [[x|bs'] e4]; [done|].
  by rewrite <- app_assoc.
Qed.

(** A collection is its iterations, one after the other. *)
Lemma gc_by_buckets (m : hash_map T) e :
  map_gc m pre pred post e = map_gc_from m 0 (length (m_buckets m)) e.
Proof. symmetry. destruct m as [size bs next]. apply (gc_from_buckets size next [] bs). Qed.
End bucketwise.

Section visit.
Context {T : Type} (sk : sip_key).
Abbreviation hk := (make_hash_key sk).
Abbreviation table := (hash_map T).

(** The keys of the items outside the bucket [i] are those with another index. *)
Lemma rest_keys (m : table) i b rest k :
  map_inv sk m -> m_buckets m !! i = Some b -> items m ≡ₚ b ++ rest ->
  (k ∈ it_data <$> rest -> bucket_index m (hk k) <> i) /\
  (k ∉ it_data <$> rest -> bucket_index m (hk k) <> i -> map_of m !! k = None).
Proof.
  intros Hi Hb Hp. pose proof (inv_items sk m Hi) as Hok. split.
  - intros (p&->&Hin)%list_elem_of_fmap Hx.
    assert (p ∈ b) as Hpb.
    { pose proof (item_in_bucket sk m p Hi) as Hg. rewrite Hp in Hg.
      specialize (Hg ltac:(set_solver)). unfold get_bucket in Hg. by rewrite Hx, Hb in Hg. }
    pose proof (ok_keys _ _ _ Hok) as Hnd. rewrite Hp, fmap_app in Hnd.
    apply NoDup_app in Hnd as (_&Hd&_). apply (Hd (it_data p)).
    + apply list_elem_of_fmap. by exists p.
    + apply list_elem_of_fmap. by exists p.
  - intros Hk Hx. apply map_of_None. rewrite Hp, fmap_app. intros [Hin|Hin]%elem_of_app; [|done].
    apply list_elem_of_fmap in Hin as (p&->&Hin). apply Hx.
    assert (p ∈ items m) as Hpi by (rewrite Hp; set_solver).
    rewrite <- (ok_hash _ _ _ Hok p Hpi). by eapply inv_index.
Qed.

(** The rule for a visit.  [I] is stated for the keys that are still to come; at the end these
    are the keys outside of the bucket. *)
Lemma map_gc_at_rule {E} (X : exn -> Prop) (I : gset bytes -> gmap bytes (nat * T) -> E -> Prop)
    pre pred post (m : table) i e :
  map_inv sk m -> (i < length (m_buckets m))%nat -> I (dom (map_of m)) (map_of m) e ->
  (forall todo m0 k a o e0, k ∈ todo -> m0 !! k = Some (a, o) -> I todo m0 e0 ->
     wp X (pred {| kr_addr := a; kr_data := k |} o) (fun p e' =>
       I (todo ∖ {[k]}) (if p.1 : bool then delete k m0 else <[k := (a, p.2)]> m0) e') e0) ->
  (forall todo m0 e0, I todo m0 e0 -> wp X pre (fun _ e' => I todo m0 e') e0) ->
  (forall todo m0 e0, I todo m0 e0 -> wp X post (fun _ e' => I todo m0 e') e0) ->
  wp X (map_gc_at pre pred post m i) (fun m' e' =>
    map_inv sk m' /\ m_size m' = m_size m /\ exists others, I others (map_of m') e' /\
      (forall k, k ∈ others -> bucket_index m (hk k) <> i) /\
      (forall k, k ∉ others -> bucket_index m (hk k) <> i -> map_of m !! k = None)) e.
Proof.
  intros Hi [b Hb]%lookup_lt_is_Some_2 HI Hpred Hpre Hpost. unfold map_gc_at. rewrite Hb.
  destruct (concat_split _ _ _ Hb) as (rest&Hp&Hp'). fold (items m) in Hp.
  pose proof (inv_items sk m Hi) as Hok. rewrite Hp in Hok.
  apply wp_bind. eapply wp_mono; [by apply Hpre|]. intros [] e1 HI1. apply wp_bind. eapply wp_mono.
  - apply (bucket_gc_rule sk X I pred (m_next m) Hpred) with (before := []) (after := rest); [exact Hok|].
    cbn [app]. by rewrite <- dom_entries, <- !(map_of_perm sk m _ _ Hp Hok).
  - intros b' e2 (Hok'&HI2&Hkeys). apply wp_bind. eapply wp_mono; [by apply Hpost|]. intros [] e3 HI3.
    apply wp_ret.
    set (m' := {| m_size := m_size m; m_buckets := <[i := b']> (m_buckets m); m_next := m_next m |}).
    assert (items m' ≡ₚ b' ++ rest) as Hit by apply Hp'. cbn [app] in *.
    split; [|split; [done|exists (list_to_set (it_data <$> rest)); split_and!]].
    + destruct Hi as [H1 H2 H3 H4]. constructor; cbn.
      * done.
      * by rewrite length_insert.
      * intros j c p Hc Hin. apply list_lookup_insert_Some in Hc as [(<-&<-&_)|[_ Hc]].
        -- destruct (Hkeys p Hin) as (q&Hq&->). exact (H3 _ b q Hb Hq).
        -- exact (H3 j c p Hc Hin).
      * change (items_ok sk (items m') (m_next m)). by rewrite Hit.
    + by rewrite <- (map_of_perm sk m' _ _ Hit Hok') in HI3.
    + intros k Hk%elem_of_list_to_set. by apply (rest_keys m i b rest k Hi Hb Hp).
    + intros k Hk. rewrite elem_of_list_to_set in Hk. by apply (rest_keys m i b rest k Hi Hb Hp).
Qed.
End visit.
