(* ===== verification/HashMapRefine.v ===== *)
(** * The hash map as an abstract map

    Any sequence of the operations of [hash_map], with callbacks that insert,
    update, read, test and remove objects, gives the results it would give on a
    finite map, whatever the hash function and the number of buckets. *)

From S2P Require Import Prelude Siphash Table HashMap HashMapSpec.

Section refine.
Context {T : Type} (sk : sip_key).

(** The uses of the operations: the callbacks return what they see in the
    environment. *)
Inductive map_op :=
| op_store (k : bytes) (f : option T -> T)     (** [apply] with a handler and a creator *)
| op_update (k : bytes) (f : T -> bool * T)    (** [apply] with a handler only *)
| op_insert (k : bytes) (o : T)                (** [apply] with a creator only *)
| op_remove (k : bytes)                        (** [remove] *)
| op_remove_if (k : bytes) (p : T -> bool)     (** [remove_if] *)
| op_clear.                                    (** [clear_nolock] of every bucket *)

Abbreviation seen := (option T).

Definition store_handler (f : option T -> T) : handler seen T :=
  fun _ o _ => (inr (true, f (Some o)), Some o).
Definition store_creator (f : option T -> T) : creator seen T := fun _ e => (inr (f None), e).
Definition update_handler (f : T -> bool * T) : handler seen T := fun _ o _ => (inr (f o), Some o).
Definition test_predicate (p : T -> bool) : predicate seen T := fun _ o _ => (inr (p o, o), Some o).

Definition run_op (m : hash_map T) (op : map_op) : (exn + bool * hash_map T) * seen :=
  match op with
  | op_store k f => apply m (make_hash_key sk k) (Some (store_handler f)) (Some (store_creator f)) None
  | op_update k f => apply m (make_hash_key sk k) (Some (update_handler f)) None None
  | op_insert k o => apply m (make_hash_key sk k) None (Some (store_creator (fun _ => o))) None
  | op_remove k => remove m (make_hash_key sk k) None
  | op_remove_if k p => remove_if m (make_hash_key sk k) (test_predicate p) None
  | op_clear => (inr (true, clear m), None)
  end.

(** The same on a finite map: the value returned, the object a callback saw, and
    the new map. *)
Definition spec_op (m : gmap bytes T) (op : map_op) : bool * seen * gmap bytes T :=
  match op with
  | op_store k f => (true, m !! k, <[k := f (m !! k)]> m)
  | op_update k f =>
      match m !! k with
      | Some o => ((f o).1, Some o, <[k := (f o).2]> m)
      | None => (false, None, m)
      end
  | op_insert k o =>
      match m !! k with Some _ => (false, None, m) | None => (true, None, <[k := o]> m) end
  | op_remove k => (bool_decide (is_Some (m !! k)), None, delete k m)
  | op_remove_if k p =>
      match m !! k with
      | Some o => (true, Some o, if p o then delete k m else m)
      | None => (false, None, m)
      end
  | op_clear => (true, None, ∅)
  end.

Fixpoint run_ops (m : hash_map T) (ops : list map_op) : option (list (bool * seen) * hash_map T) :=
  match ops with
  | [] => Some ([], m)
  | op :: ops' =>
      match run_op m op with
      | (inr (b, m'), s) => '(l, m'') ← run_ops m' ops'; Some ((b, s) :: l, m'')
      | (inl _, _) => None
      end
  end.

Fixpoint spec_ops (m : gmap bytes T) (ops : list map_op) : list (bool * seen) * gmap bytes T :=
  match ops with
  | [] => ([], m)
  | op :: ops' =>
      let '(b, s, m') := spec_op m op in
      let '(l, m'') := spec_ops m' ops' in ((b, s) :: l, m'')
  end.

(** The objects, without the addresses of the items. *)
Definition objects_of (m : hash_map T) : gmap bytes T := snd <$> map_of m.

#[local] Instance refine_ops : TableOps (hash_map T) T := hash_map_ops sk T.
#[local] Instance refine_table : Table (hash_map T) T := hash_map_table sk T.

Lemma objects_lookup (m : hash_map T) k : objects_of m !! k = snd <$> map_of m !! k.
Proof. apply lookup_fmap. Qed.

Lemma run_op_spec (m : hash_map T) op :
  map_inv sk m ->
  exists m', run_op m op = (inr ((spec_op (objects_of m) op).1.1, m'), (spec_op (objects_of m) op).1.2) /\
    map_inv sk m' /\ objects_of m' = (spec_op (objects_of m) op).2.
Proof.
  intros Hi. destruct op as [k f|k f|k o|k|k p|]; cbn [run_op spec_op]; rewrite ?objects_lookup.
  all: try (destruct (map_of m !! k) as [[a x]|] eqn:Hk; cbn [fmap option_fmap option_map snd fst]).
  - exists (put sk m k (f (Some x))). split; [exact (t_apply_hit m k a x _ _ None Hi Hk)|].
    split; [by apply put_inv|]. unfold objects_of. by rewrite (put_map sk _ _ _ _ _ Hi Hk), fmap_insert.
  - exists (new sk m k (f None)). split; [exact (t_apply_miss m k _ _ None Hi Hk)|].
    split; [by apply new_inv|]. unfold objects_of. by rewrite (new_map sk _ _ _ Hi Hk), fmap_insert.
  - exists (put sk m k (f x).2). split.
    { pose proof (t_apply_hit m k a x (update_handler f) None None Hi Hk) as Hr.
      unfold update_handler in Hr at 2. by destruct (f x). }
    split; [by apply put_inv|]. unfold objects_of. by rewrite (put_map sk _ _ _ _ _ Hi Hk), fmap_insert.
  - exists (skip_addr m). split; [exact (t_apply_miss_null m k _ None Hi Hk)|]. split; [by apply skip_inv|done].
  - exists (skip_addr m). split; [exact (t_apply_hit_null m k a x _ None Hi Hk)|]. split; [by apply skip_inv|done].
  - exists (new sk m k o). split; [exact (t_apply_miss m k _ _ None Hi Hk)|].
    split; [by apply new_inv|]. unfold objects_of. by rewrite (new_map sk _ _ _ Hi Hk), fmap_insert.
  - exists (del sk m k). split; [exact (t_remove_hit m k _ None Hi Hk)|].
    split; [by apply del_inv|]. unfold objects_of. by rewrite (del_map sk _ _ Hi), fmap_delete.
  - exists (skip_addr m). split; [exact (t_remove_miss m k None Hi Hk)|]. split; [by apply skip_inv|].
    rewrite delete_id; [done|]. by rewrite objects_lookup, Hk.
  - pose proof (t_remove_if_hit m k a x (test_predicate p) None Hi Hk) as Hr.
    unfold test_predicate in Hr at 2. destruct (p x).
    + exists (del sk m k). split; [exact Hr|]. split; [by apply del_inv|].
      unfold objects_of. by rewrite (del_map sk _ _ Hi), fmap_delete.
    + exists (put sk m k x). split; [exact Hr|]. split; [by apply put_inv|].
      unfold objects_of. rewrite (put_map sk _ _ _ _ _ Hi Hk), insert_id; done.
  - exists (skip_addr m). split; [exact (t_remove_if_miss m k _ None Hi Hk)|]. split; [by apply skip_inv|done].
  - exists (clear m). split; [done|]. split; [by apply clear_inv|]. unfold objects_of. by rewrite clear_map.
Qed.

Lemma run_ops_spec ops : forall m : hash_map T,
  map_inv sk m ->
  exists m', run_ops m ops = Some ((spec_ops (objects_of m) ops).1, m') /\
    map_inv sk m' /\ objects_of m' = (spec_ops (objects_of m) ops).2.
Proof.
  induction ops as [|op ops IH]; intros m Hi; [by exists m|]. cbn [run_ops spec_ops].
  destruct (run_op_spec m op Hi) as (m1&Hr&Hi1&Ho1).
  destruct (spec_op (objects_of m) op) as [[b s] g]. cbn [fst snd] in *. rewrite Hr.
  destruct (IH m1 Hi1) as (m2&Hr2&Hi2&Ho2). rewrite Ho1 in Hr2, Ho2.
  destruct (spec_ops g ops) as [l g']. exists m2. rewrite Hr2. done.
Qed.

(** C13: The hash map implements a finite map.  From an empty table with any positive
    number of buckets and any hash seed, every sequence of operations runs without an
    exception, the values returned and the objects shown to the callbacks are those of
    the same sequence on a finite map, and the table ends with that map's contents. *)
Theorem hash_map_refines_map size ops :
  0 < size ->
  exists m, run_ops (hash_map_ctor T size) ops = Some ((spec_ops ∅ ops).1, m) /\
    map_inv sk m /\ objects_of m = (spec_ops ∅ ops).2.
Proof.
  intros Hs. pose proof (run_ops_spec ops (hash_map_ctor T size) (ctor_inv sk size Hs)) as Hr.
  unfold objects_of at 1 3 in Hr. by rewrite ctor_map, fmap_empty in Hr.
Qed.
End refine.

Lemma hash_map_refines_map_witness :
  exists m, run_ops (siphash24_seed (replicate 16 x00)) (hash_map_ctor nat 3)
      [op_store (lit "a") (fun _ => 1%nat); op_insert (lit "a") 2%nat; op_update (lit "a") (fun n => (true, S n));
       op_remove_if (lit "a") (Nat.eqb 2)] =
    Some ([(true, None); (false, None); (true, Some 1%nat); (true, Some 2%nat)], m) /\
    objects_of m = ∅.
Proof.
  destruct (hash_map_refines_map (siphash24_seed (replicate 16 x00)) 3
    [op_store (lit "a") (fun _ => 1%nat); op_insert (lit "a") 2%nat; op_update (lit "a") (fun n => (true, S n));
     op_remove_if (lit "a") (Nat.eqb 2)]) as (m&Hr&_&Ho); [reflexivity|].
  exists m. split; [exact Hr|]. rewrite Ho. vm_compute. reflexivity.
Defined.
