(* ===== verification/BucketLock.v ===== *)
(** * The mutexes of the hash map (cybozu/hash_map.hpp)

    [bucket::apply], [remove_if], [foreach] and [gc] lock the bucket's mutex and then walk
    its list of items.  Here threads run the walks one access at a time, and a thread that
    does not find a mutex free waits.  The theorems: every execution has the results of one
    in which the operations happen at one instant each, in the order in which they
    release their mutexes; so the models of the other files may take the operations of the
    map as atomic.  And no execution gets stuck. *)

From S2P Require Import Prelude Siphash Table HashMap.

(** ** Code that runs inside a critical section *)

(** A piece of code over a store [S] that ends with a result in [R]; every step is one access
    to the store. *)
Inductive code (S R : Type) :=
| c_ret (r : R)
| c_step (f : S -> S * code S R).
Arguments c_ret {S R}.
Arguments c_step {S R}.

(** The code run to its end without interruption. *)
Fixpoint run {S R} (c : code S R) (s : S) : S * R :=
  match c with
  | c_ret r => (s, r)
  | c_step f => let '(s', c') := f s in run c' s'
  end.

(** Induction on code, over what every step leads to. *)
Lemma code_induct {S R} (P : code S R -> Prop) :
  (forall r, P (c_ret r)) -> (forall f, (forall s, P (f s).2) -> P (c_step f)) -> forall c, P c.
Proof.
  intros Hr Hs. exact (fix F c := match c with
    | c_ret r => Hr r
    | c_step f => Hs f (fun s => match f s as p return P p.2 with (_, c') => F c' end)
    end).
Qed.

(** ** The operations of a bucket, item by item *)

Section bucket_code.
Context {E T : Type}.

(** What the code works on: the items of the bucket and the state of the thread. *)
Abbreviation store := (list (item T) * E)%type.

(** A call of a handler: its exception or its result, and the state after it. *)
Definition call {A R} (m : M E A) (objs : list (item T)) (e : E)
    (k : A -> E -> store * code store (exn + R)) : store * code store (exn + R) :=
  match m e with
  | (inl x, e') => ((objs, e'), c_ret (inl x))
  | (inr a, e') => k a e'
  end.

Section find.
Context {R : Type} (k : hash_key).
Context (found : nat -> item T -> store -> store * code store (exn + R)).
Context (missing : store -> store * code store (exn + R)).

(** [for( p = m_objects; p != nullptr; p = p->next ) if( p->key == key ) ...]: the loop at
    its [i]th item.  The first bound is the length of the list. *)
Fixpoint find_loop (n i : nat) : code store (exn + R) :=
  c_step (fun s =>
    match s.1 !! i with
    | None => missing s
    | Some p =>
        if hash_key_eq (it_key p) k then found i p s
        else match n with
             | O => (s, c_ret (inl no_fuel))
             | S n' => (s, find_loop n' (S i))
             end
    end).

Definition find_code : code store (exn + R) :=
  c_step (fun s => (s, find_loop (length s.1) 0)).
End find.

(** [bucket::apply_nolock]; [a] is the address that [new item] gives. *)
Definition apply_code (k : hash_key) (a : nat) (h : option (handler E T)) (c : option (creator E T))
    : code store (exn + bool) :=
  find_code k
    (fun i p s =>
       match h with
       | None => (s, c_ret (inr false))
       | Some f => call (f (it_ref p) (it_object p)) s.1 s.2 (fun '(r, o) e' =>
                     ((<[i := with_object p o]> s.1, e'), c_ret (inr r)))
       end)
    (fun s =>
       match c with
       | None => (s, c_ret (inr false))
       | Some f => call (f {| kr_addr := a; kr_data := hk_data k |}) s.1 s.2 (fun o e' =>
                     (({| it_addr := a; it_key := k; it_object := o |} :: s.1, e'), c_ret (inr true)))
       end).

(** [bucket::remove_if]. *)
Definition remove_if_code (k : hash_key) (pred : predicate E T) : code store (exn + bool) :=
  find_code k
    (fun i p s => call (pred (hk_data k) (it_object p)) s.1 s.2 (fun '(r, o) e' =>
       ((if r : bool then delete i s.1 else <[i := with_object p o]> s.1, e'), c_ret (inr true))))
    (fun s => (s, c_ret (inr false))).

(** [bucket::remove] with a null callback. *)
Definition remove_code (k : hash_key) : code store (exn + bool) :=
  find_code k (fun i p s => ((delete i s.1, s.2), c_ret (inr true))) (fun s => (s, c_ret (inr false))).

(** [bucket::foreach]. *)
Fixpoint foreach_loop (v : visitor E T) (n i : nat) : code store (exn + bool) :=
  c_step (fun s =>
    match s.1 !! i with
    | None => (s, c_ret (inr true))
    | Some p => call (v (it_ref p) (it_object p)) s.1 s.2 (fun _ e' =>
                  ((s.1, e'), match n with O => c_ret (inl no_fuel) | S n' => foreach_loop v n' (S i) end))
    end).
Definition foreach_code (v : visitor E T) : code store (exn + bool) :=
  c_step (fun s => (s, foreach_loop v (length s.1) 0)).

(** [bucket::gc]: an unlinked item leaves the position of the loop as it is. *)
Fixpoint gc_loop (pred : handler E T) (n i : nat) : code store (exn + bool) :=
  c_step (fun s =>
    match s.1 !! i with
    | None => (s, c_ret (inr true))
    | Some p => call (pred (it_ref p) (it_object p)) s.1 s.2 (fun '(r, o) e' =>
        ((if r : bool then delete i s.1 else <[i := with_object p o]> s.1, e'),
         match n with
         | O => c_ret (inl no_fuel)
         | S n' => gc_loop pred n' (if r : bool then i else S i)
         end))
    end).
Definition gc_code (pred : handler E T) : code store (exn + bool) :=
  c_step (fun s => (s, gc_loop pred (length s.1) 0)).

(** ** The code does what the functions of HashMap say *)

(** A step and the rest. *)
Definition finish {R} (p : store * code store R) : store * R := run p.2 p.1.

Lemma run_step {R} (f : store -> store * code store R) s : run (c_step f) s = finish (f s).
Proof. cbn. unfold finish. by destruct (f s). Qed.

Lemma drop_lookup_cons {A} (l : list A) i x : l !! i = Some x -> drop i l = x :: drop (S i) l.
Proof. intros Hi. by rewrite (drop_S _ _ _ Hi). Qed.

Lemma run_find_loop {R} k (found : nat -> item T -> store -> store * code store (exn + R)) missing n i s :
  (length s.1 <= n + i)%nat ->
  run (find_loop k found missing n i) s =
    match find_item (drop i s.1) k with
    | Some (j, p) => finish (found (i + j)%nat p s)
    | None => finish (missing s)
    end.
Proof.
  revert i. induction n as [|n IH]; intros i Hn; cbn [find_loop]; rewrite run_step;
    destruct (s.1 !! i) as [p|] eqn:Hi.
  - apply lookup_lt_Some in Hi. lia.
  - apply lookup_ge_None in Hi. by rewrite drop_ge.
  - rewrite (drop_lookup_cons _ _ _ Hi). unfold find_item in *. cbn [list_find].
    destruct (hash_key_eq (it_key p) k) eqn:Hk.
    + rewrite decide_True by done. by rewrite Nat.add_0_r.
    + rewrite decide_False by (cbn; auto). unfold finish. cbn [fst snd].
      rewrite IH by lia. destruct (list_find _ _) as [[j q]|]; cbn; [|done].
      by replace (i + S j)%nat with (S i + j)%nat by lia.
  - apply lookup_ge_None in Hi. by rewrite drop_ge.
Qed.

Lemma run_find {R} k (found : nat -> item T -> store -> store * code store (exn + R)) missing s :
  run (find_code k found missing) s =
    match find_item s.1 k with
    | Some (i, p) => finish (found i p s)
    | None => finish (missing s)
    end.
Proof. unfold find_code. rewrite run_step. cbn [finish fst snd]. unfold finish. cbn. apply (run_find_loop _ _ _ _ 0). lia. Qed.

(** The result of a function that returns the items it leaves. *)
Definition as_store {R} (objs : list (item T)) (m : M E (R * list (item T))) (e : E)
    : store * (exn + R) :=
  match m e with
  | (inr (r, objs'), e') => ((objs', e'), inr r)
  | (inl x, e') => ((objs, e'), inl x)
  end.

Lemma run_apply k a h c objs e :
  run (apply_code k a h c) (objs, e) = as_store objs (bucket_apply_nolock objs k a h c) e.
Proof.
  unfold apply_code. rewrite run_find. unfold as_store, bucket_apply_nolock. cbn [fst snd].
  destruct (find_item objs k) as [[i p]|].
  - destruct h as [f|]; [|done]. unfold call, bind, finish.
    by destruct (f _ _ e) as [[x|[r o]] e'].
  - destruct c as [f|]; [|done]. unfold call, bind, finish. by destruct (f _ e) as [[x|o] e'].
Qed.

Lemma run_remove_if k pred objs e :
  run (remove_if_code k pred) (objs, e) = as_store objs (bucket_remove_if objs k pred) e.
Proof.
  unfold remove_if_code. rewrite run_find. unfold as_store, bucket_remove_if. cbn [fst snd].
  destruct (find_item objs k) as [[i p]|]; [|done]. unfold call, bind, finish.
  by destruct (pred _ _ e) as [[x|[[] o]] e'].
Qed.

Lemma run_remove k objs e :
  run (remove_code k) (objs, e) = as_store objs (bucket_remove_nolock objs k) e.
Proof.
  unfold remove_code. rewrite run_find. unfold as_store, bucket_remove_nolock. cbn [fst snd].
  by destruct (find_item objs k) as [[i p]|].
Qed.

Lemma run_foreach_loop v n i objs e :
  (length objs <= n + i)%nat ->
  run (foreach_loop v n i) (objs, e) =
    match bucket_foreach (drop i objs) v e with
    | (inr _, e') => ((objs, e'), inr true)
    | (inl x, e') => ((objs, e'), inl x)
    end.
Proof.
  revert i e. induction n as [|n IH]; intros i e Hn; cbn [foreach_loop]; rewrite run_step;
    cbn [fst snd]; destruct (objs !! i) as [p|] eqn:Hi.
  - apply lookup_lt_Some in Hi. lia.
  - apply lookup_ge_None in Hi. by rewrite drop_ge.
  - rewrite (drop_lookup_cons _ _ _ Hi). unfold bucket_foreach, call, finish in *. cbn [iterM]. unfold bind.
    destruct (v _ _ e) as [[x|[]] e']; [done|]. cbn [fst snd]. by rewrite IH by lia.
  - apply lookup_ge_None in Hi. by rewrite drop_ge.
Qed.

Lemma run_foreach v objs e :
  run (foreach_code v) (objs, e) =
    match bucket_foreach objs v e with
    | (inr _, e') => ((objs, e'), inr true)
    | (inl x, e') => ((objs, e'), inl x)
    end.
Proof. unfold foreach_code. rewrite run_step. unfold finish. cbn [fst snd]. apply (run_foreach_loop v _ 0). lia. Qed.

Lemma run_gc_loop pred n before objs e :
  (length objs <= n)%nat ->
  match bucket_gc objs pred e with
  | (inr objs', e') => run (gc_loop pred n (length before)) (before ++ objs, e) = ((before ++ objs', e'), inr true)
  | (inl x, e') => exists objs', run (gc_loop pred n (length before)) (before ++ objs, e) = ((objs', e'), inl x)
  end.
Proof.
  revert before objs e. induction n as [|n IH]; intros before [|p objs] e Hn; cbn in Hn; try lia;
    cbn [gc_loop bucket_gc]; rewrite run_step; cbn [fst snd].
  1, 2: rewrite app_nil_r, lookup_ge_None_2 by lia; cbn; by rewrite app_nil_r.
  rewrite lookup_app_r, Nat.sub_diag by lia. cbn [lookup list_lookup]. unfold call, bind.
  destruct (pred (it_ref p) (it_object p) e) as [[x|[[] o]] e1]; unfold finish; cbn [fst snd].
  - by eexists.
  - assert (delete (length before) (before ++ p :: objs) = before ++ objs) as ->
      by (by rewrite delete_middle).
    specialize (IH before objs e1 ltac:(lia)). by destruct (bucket_gc objs pred e1) as [[x|objs'] e2].
  - assert (<[length before := with_object p o]> (before ++ p :: objs) = (before ++ [with_object p o]) ++ objs)
      as -> by (by rewrite insert_app_r_alt, Nat.sub_diag, <- app_assoc by lia).
    specialize (IH (before ++ [with_object p o]) objs e1 ltac:(lia)).
    rewrite length_app, Nat.add_1_r in IH.
    destruct (bucket_gc objs pred e1) as [[x|objs'] e2]; [done|]. cbn [ret]. rewrite IH. by rewrite <- app_assoc.
Qed.

Lemma run_gc pred objs e :
  match bucket_gc objs pred e with
  | (inr objs', e') => run (gc_code pred) (objs, e) = ((objs', e'), inr true)
  | (inl x, e') => exists objs', run (gc_code pred) (objs, e) = ((objs', e'), inl x)
  end.
Proof.
  unfold gc_code. rewrite run_step. unfold finish. cbn [fst snd].
  apply (run_gc_loop pred (length objs) [] objs). lia.
Qed.
End bucket_code.

(** ** Threads and mutexes *)

Section threads.
Context {E T : Type}.
Abbreviation bucket := (list (item T)).
Abbreviation section := (code (bucket * E) (exn + bool)).

(** An operation: the bucket of its key, and what it does there. *)
Record op := { op_bucket : nat; op_code : section }.

Record thread := {
  th_local : E;                          (** what only this thread works on *)
  th_todo : list op;                     (** the operations it has yet to begin *)
  th_cur : option (nat * section)        (** the critical section it is in *)
}.

Record mstate := {
  ms_buckets : list bucket;              (** [m_objects] of every bucket *)
  ms_owner : gmap nat nat;               (** which thread has locked [m_lock] of a bucket *)
  ms_threads : list thread;
  ms_log : list (nat * (exn + bool))     (** the results, as the operations return *)
}.

Definition with_thread (t : nat) (th : thread) (s : mstate) : mstate :=
  {| ms_buckets := ms_buckets s; ms_owner := ms_owner s;
     ms_threads := <[t := th]> (ms_threads s); ms_log := ms_log s |}.

(** [lock_guard g(m_lock)], an access inside the section, and the end of the section, also
    by an exception. *)
Inductive mstep : mstate -> mstate -> Prop :=
| m_lock s t e o rest objs :
    ms_threads s !! t = Some {| th_local := e; th_todo := o :: rest; th_cur := None |} ->
    ms_buckets s !! op_bucket o = Some objs -> ms_owner s !! op_bucket o = None ->
    mstep s {| ms_buckets := ms_buckets s; ms_owner := <[op_bucket o := t]> (ms_owner s);
               ms_threads := <[t := {| th_local := e; th_todo := rest;
                                       th_cur := Some (op_bucket o, op_code o) |}]> (ms_threads s);
               ms_log := ms_log s |}
| m_access s t e rest b f objs objs' e' c' :
    ms_threads s !! t = Some {| th_local := e; th_todo := rest; th_cur := Some (b, c_step f) |} ->
    ms_buckets s !! b = Some objs -> f (objs, e) = ((objs', e'), c') ->
    mstep s {| ms_buckets := <[b := objs']> (ms_buckets s); ms_owner := ms_owner s;
               ms_threads := <[t := {| th_local := e'; th_todo := rest;
                                       th_cur := Some (b, c') |}]> (ms_threads s);
               ms_log := ms_log s |}
| m_unlock s t e rest b r :
    ms_threads s !! t = Some {| th_local := e; th_todo := rest; th_cur := Some (b, c_ret r) |} ->
    mstep s {| ms_buckets := ms_buckets s; ms_owner := delete b (ms_owner s);
               ms_threads := <[t := {| th_local := e; th_todo := rest; th_cur := None |}]> (ms_threads s);
               ms_log := ms_log s ++ [(t, r)] |}.

(** ** The specification: operations that happen at one instant *)

Record astate := {
  as_buckets : list bucket;
  as_threads : list (E * list op);
  as_log : list (nat * (exn + bool))
}.

Inductive astep : astate -> astate -> Prop :=
| a_op s t e o rest objs objs' e' r :
    as_threads s !! t = Some (e, o :: rest) -> as_buckets s !! op_bucket o = Some objs ->
    run (op_code o) (objs, e) = ((objs', e'), r) ->
    astep s {| as_buckets := <[op_bucket o := objs']> (as_buckets s);
               as_threads := <[t := (e', rest)]> (as_threads s);
               as_log := as_log s ++ [(t, r)] |}.

Definition m_start (bs : list bucket) (progs : list (E * list op)) : mstate :=
  {| ms_buckets := bs; ms_owner := ∅;
     ms_threads := (fun p => {| th_local := p.1; th_todo := p.2; th_cur := None |}) <$> progs;
     ms_log := [] |}.
Definition a_start (bs : list bucket) (progs : list (E * list op)) : astate :=
  {| as_buckets := bs; as_threads := progs; as_log := [] |}.

(** The atomic thread of a thread: an operation in progress has not happened yet, and what
    is left of it gives what all of it would give there. *)
Definition thread_sim (ms : mstate) (s : astate) (t : nat) (th : thread) (p : E * list op) : Prop :=
  match th_cur th with
  | None => p = (th_local th, th_todo th)
  | Some (b, c) =>
      exists o objs aobjs, p.2 = o :: th_todo th /\ op_bucket o = b /\ ms_owner ms !! b = Some t /\
        ms_buckets ms !! b = Some objs /\ as_buckets s !! b = Some aobjs /\
        run c (objs, th_local th) = run (op_code o) (aobjs, p.1)
  end.

Record sim (ms : mstate) (s : astate) : Prop := {
  sim_log : as_log s = ms_log ms;
  sim_free b : ms_owner ms !! b = None -> as_buckets s !! b = ms_buckets ms !! b;
  sim_threads t th : ms_threads ms !! t = Some th ->
    exists p, as_threads s !! t = Some p /\ thread_sim ms s t th p;
  sim_owner b t : ms_owner ms !! b = Some t ->
    exists th c, ms_threads ms !! t = Some th /\ th_cur th = Some (b, c)
}.

Lemma sim_start bs progs : sim (m_start bs progs) (a_start bs progs).
Proof.
  constructor; cbn; [done|done| |].
  - intros t th Ht. apply list_lookup_fmap_Some in Ht as (p&->&Hp). exists p. split; [done|]. by destruct p.
  - intros b t Hb. by rewrite lookup_empty in Hb.
Qed.

(** What another thread's step leaves alone. *)
Lemma thread_sim_frame ms s ms' s' t th p :
  thread_sim ms s t th p ->
  (forall b c, th_cur th = Some (b, c) -> ms_owner ms !! b = Some t ->
     ms_owner ms' !! b = Some t /\ ms_buckets ms' !! b = ms_buckets ms !! b /\
     as_buckets s' !! b = as_buckets s !! b) ->
  thread_sim ms' s' t th p.
Proof.
  unfold thread_sim. destruct (th_cur th) as [[b c]|]; [|done].
  intros (o&objs&aobjs&Hp&Ho&Hown&Hb&Ha&Hr) Hsame. destruct (Hsame b c eq_refl Hown) as (H1&H2&H3).
  exists o, objs, aobjs. by rewrite H1, H2, H3.
Qed.

Lemma sim_step ms ms' s : sim ms s -> mstep ms ms' -> exists s', rtc astep s s' /\ sim ms' s'.
Proof.
  intros [Hlog Hfree Hth Hown] Hst.
  destruct Hst as [ms t e o rest objs Ht Hb Ho|ms t e rest b f objs objs' e' c' Ht Hb Hf|ms t e rest b r Ht];
    destruct (Hth t _ Ht) as ([ae atodo]&Hp&Hsim); unfold thread_sim in Hsim; cbn in Hsim.
  - injection Hsim as -> ->. exists s. split; [done|]. constructor; cbn; [done| | |].
    + intros b Hn. apply lookup_insert_None in Hn as [Hn _]. by apply Hfree.
    + intros t' th [[<- [<- _]]|[Hne Ht']]%list_lookup_insert_Some.
      * exists (e, o :: rest). split; [done|]. exists o, objs, objs. cbn. rewrite lookup_insert_eq.
        split_and!; try done. by rewrite Hfree.
      * destruct (Hth t' th Ht') as (p&Hp'&Hs'). exists p. split; [done|].
        eapply thread_sim_frame; [exact Hs'|]. intros b c _ Hb'. cbn.
        split; [|done]. rewrite lookup_insert_ne; [done|congruence].
    + intros b t' [[<- <-]|[Hne Hb']]%lookup_insert_Some.
      * eexists _, _. rewrite list_lookup_insert_eq by (by eapply lookup_lt_Some). done.
      * destruct (Hown b t' Hb') as (th&c&Ht'&Hc). exists th, c. split; [|done].
        rewrite list_lookup_insert_ne; [done|]. intros ->. rewrite Ht in Ht'. by injection Ht' as <-.
  - destruct Hsim as (o&objs0&aobjs&->&Hob&Hob'&Hbs&Has&Hr). rewrite Hb in Hbs. injection Hbs as <-.
    exists s. split; [done|]. constructor; cbn; [done| | |].
    + intros b' Hn. rewrite list_lookup_insert_ne by congruence. by apply Hfree.
    + intros t' th [[<- [<- _]]|[Hne Ht']]%list_lookup_insert_Some.
      * eexists. split; [exact Hp|]. exists o, objs', aobjs. cbn. split_and!; try done.
        -- apply list_lookup_insert_eq. by eapply lookup_lt_Some.
        -- rewrite <- Hr. cbn. by rewrite Hf.
      * destruct (Hth t' th Ht') as (p&Hp'&Hs'). exists p. split; [done|].
        eapply thread_sim_frame; [exact Hs'|]. intros b' c _ Hb'. cbn.
        split; [done|]. rewrite list_lookup_insert_ne; [done|congruence].
    + intros b' t' Hb'. destruct (Hown b' t' Hb') as (th&c&Ht'&Hc).
      destruct (decide (t' = t)) as [-> |Hne].
      * rewrite Ht in Ht'. injection Ht' as <-. cbn in Hc. injection Hc as Eb _. subst b'.
        eexists _, _. rewrite list_lookup_insert_eq by (by eapply lookup_lt_Some). done.
      * exists th, c. by rewrite list_lookup_insert_ne.
  - destruct Hsim as (o&objs&aobjs&->&Hob&Hob'&Hbs&Has&Hr). cbn in Hr. subst b. symmetry in Hr.
    eexists. split; [eapply rtc_once, a_op; [exact Hp|exact Has|exact Hr]|].
    constructor; cbn.
    + by rewrite Hlog.
    + intros b Hn. apply lookup_delete_None in Hn as [<-|Hn].
      * rewrite list_lookup_insert_eq by (by eapply lookup_lt_Some). done.
      * rewrite list_lookup_insert_ne by congruence. by apply Hfree.
    + intros t' th [[<- [<- _]]|[Hne Ht']]%list_lookup_insert_Some.
      * exists (e, rest). split; [apply list_lookup_insert_eq; by eapply lookup_lt_Some|done].
      * destruct (Hth t' th Ht') as (p&Hp'&Hs'). exists p. rewrite list_lookup_insert_ne by done.
        split; [done|]. eapply thread_sim_frame; [exact Hs'|]. intros b c Hc Hb'. cbn.
        assert (b <> op_bucket o) by congruence.
        rewrite lookup_delete_ne, list_lookup_insert_ne by done. done.
    + intros b t' [Hne Hb']%lookup_delete_Some. destruct (Hown b t' Hb') as (th&c&Ht'&Hc).
      exists th, c. split; [|done]. rewrite list_lookup_insert_ne; [done|].
      intros ->. rewrite Ht in Ht'. injection Ht' as <-. cbn in Hc. congruence.
Qed.

Lemma sim_reachable bs progs ms :
  rtc mstep (m_start bs progs) ms -> exists s, rtc astep (a_start bs progs) s /\ sim ms s.
Proof.
  intros Hr. pose proof (sim_start bs progs) as Hs. revert Hs. generalize (a_start bs progs).
  induction Hr as [ms|ms ms1 ms2 Hst _ IH]; intros s Hs; [by exists s|].
  destruct (sim_step ms ms1 s Hs Hst) as (s1&Hr1&Hs1). destruct (IH s1 Hs1) as (s2&Hr2&Hs2).
  exists s2. split; [by transitivity s1|done].
Qed.

(** The operations of the threads are atomic. *)
Lemma ops_linearizable bs progs ms :
  rtc mstep (m_start bs progs) ms ->
  exists s, rtc astep (a_start bs progs) s /\ as_log s = ms_log ms /\
    (forall b, ms_owner ms !! b = None -> as_buckets s !! b = ms_buckets ms !! b) /\
    (forall t th, ms_threads ms !! t = Some th -> th_cur th = None ->
       as_threads s !! t = Some (th_local th, th_todo th)).
Proof.
  intros Hr. destruct (sim_reachable bs progs ms Hr) as (s&Hs&[Hlog Hfree Hth _]).
  exists s. split_and!; [done|done|done|]. intros t th Ht Hc. destruct (Hth t th Ht) as (p&Hp&Hsim).
  unfold thread_sim in Hsim. rewrite Hc in Hsim. by subst p.
Qed.

(** The thread that has a mutex releases it by its own steps. *)
Lemma holder_finishes ms t e rest b c objs :
  ms_threads ms !! t = Some {| th_local := e; th_todo := rest; th_cur := Some (b, c) |} ->
  ms_buckets ms !! b = Some objs ->
  exists ms' e' objs', rtc mstep ms ms' /\
    ms_owner ms' = delete b (ms_owner ms) /\ ms_buckets ms' = <[b := objs']> (ms_buckets ms) /\
    ms_threads ms' = <[t := {| th_local := e'; th_todo := rest; th_cur := None |}]> (ms_threads ms).
Proof.
  revert ms e objs. induction c as [r|f IH] using code_induct; intros ms e objs Ht Hb.
  - eexists _, e, objs. split; [by eapply rtc_once, m_unlock|]. cbn.
    split; [done|]. split; [|done]. symmetry. by apply list_insert_id.
  - destruct (f (objs, e)) as [[objs1 e1] c1] eqn:Hf.
    pose proof (m_access ms t e rest b f objs objs1 e1 c1 Ht Hb Hf) as Hst.
    specialize (IH (objs, e)). rewrite Hf in IH. cbn [snd] in IH.
    edestruct IH as (ms'&e'&objs'&Hr&H1&H2&H3); cycle 2.
    + exists ms', e', objs'. split; [by eapply rtc_l|]. rewrite H1, H2, H3. cbn.
      by rewrite !list_insert_insert_eq.
    + cbn. apply list_lookup_insert_eq. by eapply lookup_lt_Some.
    + cbn. apply list_lookup_insert_eq. by eapply lookup_lt_Some.
Qed.

(** And none of them waits for ever. *)
Lemma ops_progress bs progs ms t e o rest objs :
  rtc mstep (m_start bs progs) ms ->
  ms_threads ms !! t = Some {| th_local := e; th_todo := o :: rest; th_cur := None |} ->
  ms_buckets ms !! op_bucket o = Some objs ->
  exists ms' e', rtc mstep ms ms' /\
    ms_threads ms' !! t = Some {| th_local := e'; th_todo := rest; th_cur := None |}.
Proof.
  intros Hreach Ht Hb. destruct (sim_reachable bs progs ms Hreach) as (s&_&[_ _ Hth Hown]).
  assert (exists ms1 objs1, rtc mstep ms ms1 /\ ms_owner ms1 !! op_bucket o = None /\
    ms_buckets ms1 !! op_bucket o = Some objs1 /\
    ms_threads ms1 !! t = Some {| th_local := e; th_todo := o :: rest; th_cur := None |})
    as (ms1&objs1&Hr1&Ho1&Hb1&Ht1).
  { destruct (ms_owner ms !! op_bucket o) as [t'|] eqn:Ho; [|by exists ms, objs].
    destruct (Hown _ _ Ho) as ([e' rest' cur]&c&Ht'&Hc). cbn in Hc. subst cur.
    destruct (holder_finishes ms t' e' rest' _ c objs Ht' Hb) as (ms1&e1&objs1&Hr&H1&H2&H3).
    exists ms1, objs1. split; [done|]. rewrite H1, H2, H3. split_and!.
    - by rewrite lookup_delete_eq.
    - apply list_lookup_insert_eq. by eapply lookup_lt_Some.
    - rewrite list_lookup_insert_ne; [done|]. intros ->. rewrite Ht in Ht'. by injection Ht'. }
  pose proof (m_lock ms1 t e o rest objs1 Ht1 Hb1 Ho1) as Hst.
  match type of Hst with mstep _ ?m => set (ml := m) in * end.
  destruct (holder_finishes ml t e rest (op_bucket o) (op_code o) objs1) as (ms2&e2&objs2&Hr2&_&_&H3);
    [|exact Hb1|].
  { cbn. apply list_lookup_insert_eq. by eapply lookup_lt_Some. }
  exists ms2, e2. split; [by transitivity ms1; [|eapply rtc_l; [exact Hst|exact Hr2]]|].
  rewrite H3. cbn. rewrite list_insert_insert_eq. apply list_lookup_insert_eq. by eapply lookup_lt_Some.
Qed.
End threads.

(** ** The operations of the map *)

Section map_ops.
Context {E T : Type} (size : Z).

(** A call of a method of the map, or of a method of a bucket by the collector and by
    [hash_map::foreach].  [a] is the address of the item that [apply] makes. *)
Inductive hop :=
| HApply (k : hash_key) (a : nat) (h : option (handler E T)) (c : option (creator E T))
| HRemoveIf (k : hash_key) (p : predicate E T)
| HRemove (k : hash_key)
| HForeach (i : nat) (v : visitor E T)
| HGc (i : nat) (p : handler E T).

(** [get_bucket]: [key.hash() % m_size]. *)
Definition hop_bucket (h : hop) : nat :=
  match h with
  | HApply k _ _ _ | HRemoveIf k _ | HRemove k => Z.to_nat (hk_hash k `mod` size)
  | HForeach i _ | HGc i _ => i
  end.

Definition hop_code (h : hop) : code (list (item T) * E) (exn + bool) :=
  match h with
  | HApply k a h c => apply_code k a h c
  | HRemoveIf k p => remove_if_code k p
  | HRemove k => remove_code k
  | HForeach _ v => foreach_code v
  | HGc _ p => gc_code p
  end.

Definition op_of (h : hop) : op := {| op_bucket := hop_bucket h; op_code := hop_code h |}.

(** What the functions of HashMap say of a call.  They do not say which items are left when the
    predicate of a collection throws. *)
Definition hop_effect (h : hop) (objs : list (item T)) (e : E)
    (objs' : list (item T)) (e' : E) (r : exn + bool) : Prop :=
  match h with
  | HApply k a h c => as_store objs (bucket_apply_nolock objs k a h c) e = ((objs', e'), r)
  | HRemoveIf k p => as_store objs (bucket_remove_if objs k p) e = ((objs', e'), r)
  | HRemove k => as_store objs (bucket_remove_nolock objs k) e = ((objs', e'), r)
  | HForeach _ v =>
      objs' = objs /\
      match bucket_foreach objs v e with
      | (inr _, e1) => e' = e1 /\ r = inr true
      | (inl x, e1) => e' = e1 /\ r = inl x
      end
  | HGc _ p =>
      match bucket_gc objs p e with
      | (inr objs1, e1) => objs' = objs1 /\ e' = e1 /\ r = inr true
      | (inl x, e1) => e' = e1 /\ r = inl x
      end
  end.

Lemma run_hop h objs e objs' e' r :
  run (hop_code h) (objs, e) = ((objs', e'), r) -> hop_effect h objs e objs' e' r.
Proof.
  destruct h as [k a h c|k p|k|i v|i p]; cbn [hop_code hop_effect].
  - by rewrite run_apply.
  - by rewrite run_remove_if.
  - by rewrite run_remove.
  - rewrite run_foreach. destruct (bucket_foreach objs v e) as [[x|[]] e1]; by intros [= <- <- <-].
  - pose proof (run_gc p objs e) as Hg. destruct (bucket_gc objs p e) as [[x|objs1] e1].
    + destruct Hg as (objs1&->). by intros [= <- <- <-].
    + rewrite Hg. by intros [= <- <- <-].
Qed.

(** Threads that call methods of the map, each call at one instant. *)
Record hstate := {
  hs_buckets : list (list (item T));
  hs_threads : list (E * list hop);
  hs_log : list (nat * (exn + bool))
}.

Inductive hstep : hstate -> hstate -> Prop :=
| h_call s t e h rest objs objs' e' r :
    hs_threads s !! t = Some (e, h :: rest) -> hs_buckets s !! hop_bucket h = Some objs ->
    hop_effect h objs e objs' e' r ->
    hstep s {| hs_buckets := <[hop_bucket h := objs']> (hs_buckets s);
               hs_threads := <[t := (e', rest)]> (hs_threads s);
               hs_log := hs_log s ++ [(t, r)] |}.

Definition h_start (bs : list (list (item T))) (progs : list (E * list hop)) : hstate :=
  {| hs_buckets := bs; hs_threads := progs; hs_log := [] |}.

(** The same threads on the mutexes. *)
Definition as_ops (p : E * list hop) : E * list op := (p.1, op_of <$> p.2).
Definition lock_start (bs : list (list (item T))) (progs : list (E * list hop)) : mstate :=
  m_start bs (as_ops <$> progs).

Definition h_as (s : hstate) : astate :=
  {| as_buckets := hs_buckets s; as_threads := as_ops <$> hs_threads s; as_log := hs_log s |}.

Lemma h_as_step s s1 : astep (h_as s) s1 -> exists s', hstep s s' /\ s1 = h_as s'.
Proof.
  intros Hst. inversion Hst as [s0 t e o rest objs objs' e' r Ht Hb Hr E0 E1]. subst s0 s1. clear Hst. cbn in Ht, Hb.
  apply list_lookup_fmap_Some in Ht as ([e0 [|h hs]]&Ep&Hp); [done|]. unfold as_ops in Ep. cbn in Ep.
  injection Ep as -> -> ->. eexists. split; [eapply h_call; [exact Hp|exact Hb|]|].
  - by apply run_hop.
  - unfold h_as. cbn. by rewrite list_fmap_insert.
Qed.

Lemma h_as_steps s s1 : rtc astep (h_as s) s1 -> exists s', rtc hstep s s' /\ s1 = h_as s'.
Proof.
  intros Hr. remember (h_as s) as x eqn:Ex. revert s Ex.
  induction Hr as [x|x y z Hst _ IH]; intros s ->; [by exists s|].
  destruct (h_as_step s y Hst) as (s1&Hs1&->). destruct (IH s1 eq_refl) as (s2&Hs2&->).
  exists s2. split; [by eapply rtc_l|done].
Qed.

(** C14: The operations of the hash map are atomic.  However threads that call [apply],
    [remove_if], [remove], [foreach] and [gc] interleave, access by access, on the mutexes and
    lists of the buckets, there is an execution in which every call happens at one instant as the
    functions of HashMap say, with the same results in the same order; the buckets whose mutex is
    free have the same items, and the threads outside of critical sections the same state. *)
Theorem buckets_linearizable bs progs ms :
  rtc mstep (lock_start bs progs) ms ->
  exists s, rtc hstep (h_start bs progs) s /\ hs_log s = ms_log ms /\
    (forall b, ms_owner ms !! b = None -> hs_buckets s !! b = ms_buckets ms !! b) /\
    (forall t th, ms_threads ms !! t = Some th -> th_cur th = None ->
       exists todo, hs_threads s !! t = Some (th_local th, todo) /\ th_todo th = op_of <$> todo).
Proof.
  intros Hr. destruct (ops_linearizable bs (as_ops <$> progs) ms Hr) as (s1&Hs1&Hlog&Hfree&Hth).
  destruct (h_as_steps (h_start bs progs) s1 Hs1) as (s&Hs&->).
  exists s. split_and!; [done|done|done|]. intros t th Ht Hc. specialize (Hth t th Ht Hc). cbn in Hth.
  apply list_lookup_fmap_Some in Hth as ([e todo]&Ep&Hp). injection Ep as -> ->. by exists todo.
Qed.

(** No call waits for ever.  In every state that such threads reach, one that is
    about to begin a call on an existing bucket can complete it: the thread that has
    the mutex, if any, gives it back by its own steps, and then the call runs to its end. *)
Theorem buckets_progress bs progs ms t e h rest objs :
  rtc mstep (lock_start bs progs) ms ->
  ms_threads ms !! t = Some {| th_local := e; th_todo := op_of h :: rest; th_cur := None |} ->
  ms_buckets ms !! hop_bucket h = Some objs ->
  exists ms' e', rtc mstep ms ms' /\
    ms_threads ms' !! t = Some {| th_local := e'; th_todo := rest; th_cur := None |}.
Proof. intros Hr Ht Hb. by eapply ops_progress. Qed.

(** The map after an operation on the bucket of a key. *)
Definition map_result (m : hash_map T) (k : hash_key) (p : list (item T) * E * (exn + bool))
    : (exn + bool * hash_map T) * E :=
  match p with
  | (objs, e, inr r) => (inr (r, set_bucket m k objs (S (m_next m))), e)
  | (_, e, inl x) => (inl x, e)
  end.
End map_ops.

(** [hash_map::apply] and [remove_if] of HashMap are these calls at one instant. *)
Lemma apply_is_call {E T} (m : hash_map T) k (h : option (handler E T)) c e :
  apply m k h c e = map_result m k (run (hop_code (HApply k (m_next m) h c)) (get_bucket m k, e)).
Proof.
  cbn [hop_code]. rewrite run_apply. unfold apply, bind, as_store.
  by destruct (bucket_apply_nolock _ _ _ _ _ e) as [[x|[r b]] e'].
Qed.

Lemma remove_if_is_call {E T} (m : hash_map T) k (p : predicate E T) e :
  remove_if m k p e = map_result m k (run (hop_code (HRemoveIf k p)) (get_bucket m k, e)).
Proof.
  cbn [hop_code]. rewrite run_remove_if. unfold remove_if, bind, as_store.
  by destruct (bucket_remove_if _ _ _ e) as [[x|[r b]] e'].
Qed.

(** ** A schedule of two threads

    The threads are given by the order in which they are let go; a thread that waits for a
    mutex does nothing. *)

Definition go {E T : Type} (s : mstate (E := E) (T := T)) (t : nat) : mstate :=
  match ms_threads s !! t with
  | None => s
  | Some {| th_local := e; th_todo := todo; th_cur := cur |} =>
      match cur with
      | Some (b, c_step f) =>
          match ms_buckets s !! b with
          | Some objs =>
              let '((objs', e'), c') := f (objs, e) in
              {| ms_buckets := <[b := objs']> (ms_buckets s); ms_owner := ms_owner s;
                 ms_threads := <[t := {| th_local := e'; th_todo := todo;
                                         th_cur := Some (b, c') |}]> (ms_threads s);
                 ms_log := ms_log s |}
          | None => s
          end
      | Some (b, c_ret r) =>
          {| ms_buckets := ms_buckets s; ms_owner := delete b (ms_owner s);
             ms_threads := <[t := {| th_local := e; th_todo := todo; th_cur := None |}]> (ms_threads s);
             ms_log := ms_log s ++ [(t, r)] |}
      | None =>
          match todo with
          | [] => s
          | o :: rest =>
              match ms_buckets s !! op_bucket o, ms_owner s !! op_bucket o with
              | Some _, None =>
                  {| ms_buckets := ms_buckets s; ms_owner := <[op_bucket o := t]> (ms_owner s);
                     ms_threads := <[t := {| th_local := e; th_todo := rest;
                                             th_cur := Some (op_bucket o, op_code o) |}]> (ms_threads s);
                     ms_log := ms_log s |}
              | _, _ => s
              end
          end
      end
  end.

Lemma go_steps {E T : Type} sched (s : mstate (E := E) (T := T)) : rtc mstep s (foldl go s sched).
Proof.
  revert s. induction sched as [|t sched IH]; intros s; [done|]. cbn. etransitivity; [|apply IH].
  unfold go. destruct (ms_threads s !! t) as [[e todo [[b [r|f]]|]]|] eqn:Ht; [| | |done].
  - by eapply rtc_once, m_unlock.
  - destruct (ms_buckets s !! b) as [objs|] eqn:Hb; [|done].
    destruct (f (objs, e)) as [[objs' e'] c'] eqn:Hf. by eapply rtc_once, m_access.
  - destruct todo as [|o rest]; [done|]. destruct (ms_buckets s !! op_bucket o) as [objs|] eqn:Hb; [|done].
    destruct (ms_owner s !! op_bucket o) eqn:Ho; [done|]. by eapply rtc_once, m_lock.
Qed.

(** Both threads add one to a number under the same key, or store one when there is none. *)
Definition number_key : hash_key := {| hk_data := lit "n"; hk_hash := 0 |}.
Definition add_one (a : nat) : hop (E := nat) (T := Z) :=
  HApply number_key a (Some (fun _ o => ret (true, o + 1))) (Some (fun _ => ret 1)).
Definition two_threads : list (nat * list (hop (E := nat) (T := Z))) :=
  [(0%nat, [add_one 0]); (0%nat, [add_one 1])].

(** The second thread tries while the first is inside, then gets its turn. *)
Definition two_mid : mstate := foldl go (lock_start 1 [[]] two_threads) [0; 1; 0; 1; 0]%nat.
Definition two_end : mstate := foldl go two_mid [1; 0; 1; 1; 1; 1; 0; 1; 1]%nat.

Lemma buckets_linearizable_witness :
  ms_log two_end = [(0%nat, inr true); (1%nat, inr true)] /\
  exists s, rtc (hstep 1) (h_start [[]] two_threads) s /\ hs_log s = ms_log two_end /\
    hs_buckets s !! 0%nat = Some [{| it_addr := 0; it_key := number_key; it_object := 2 |}].
Proof.
  split; [vm_compute; reflexivity|].
  destruct (buckets_linearizable 1 [[]] two_threads two_end) as (s&Hr&Hlog&Hfree&_).
  - transitivity two_mid; apply go_steps.
  - exists s. split; [exact Hr|]. split; [exact Hlog|]. rewrite Hfree; vm_compute; reflexivity.
Defined.

Lemma buckets_progress_witness :
  exists ms' e', rtc mstep two_mid ms' /\
    ms_threads ms' !! 1%nat = Some {| th_local := e'; th_todo := []; th_cur := None |}.
Proof.
  apply (buckets_progress 1 [[]] two_threads two_mid 1 0%nat (add_one 1) []
           [{| it_addr := 0; it_key := number_key; it_object := 1 |}]).
  - apply go_steps.
  - reflexivity.
  - reflexivity.
Defined.
