(* ===== verification/Primes.v ===== *)
(** * The number of buckets (nearest_prime of cybozu/hash_map.cpp)

    [nearest_prime] terminates.  From 2 on it returns the least prime that is not below its
    argument, if there is one below 2^32; otherwise the unsigned counter wraps
    around and the search ends at 1.  For 0 and 1 it returns 1. *)

From S2P Require Import Prelude HashMap.
From Stdlib Require Import Znumtheory.

Lemma rint_sqrt_bounds i : 3 <= i -> Z.sqrt i <= rint_sqrt i < i.
Proof.
  intros Hi. pose proof (Z.sqrt_spec i ltac:(lia)) as Hs. pose proof (Z.sqrt_nonneg i).
  unfold rint_sqrt. pose proof (proj2 (Z.sqrt_pos i) ltac:(lia)). unfold Z.succ in Hs. generalize dependent (Z.sqrt i). intros s Hs H0 H1.
  destruct (Z.eq_dec s 1) as [-> |He]; case_match; nia.
Qed.

Lemma no_odd_divisor_spec fuel i r j :
  r < j + 2 * Z.of_nat fuel ->
  no_odd_divisor fuel i r j = true <-> forall t, 0 <= t -> j + 2 * t <= r -> i `mod` (j + 2 * t) <> 0.
Proof.
  revert j. induction fuel as [|f IH]; intros j Hf; cbn [no_odd_divisor].
  { split; [intros _ t ? ?; lia|done]. }
  destruct (Z.leb_spec j r) as [Hj|Hj]; [|split; [intros _ t ? ?; lia|done]].
  destruct (Z.eqb_spec (i `mod` j) 0) as [Hm|Hm].
  { split; [done|]. intros Ht. destruct (Ht 0); [lia|lia|]. by replace (j + 2 * 0) with j by lia. }
  rewrite IH by lia. split; intros Ht t H0 Hr.
  - destruct (Z.eq_dec t 0) as [-> |Hne]; [by replace (j + 2 * 0) with j by lia|].
    replace (j + 2 * t) with (j + 2 + 2 * (t - 1)) by lia. apply Ht; lia.
  - replace (j + 2 + 2 * t) with (j + 2 * (t + 1)) by lia. apply Ht; lia.
Qed.

(** A composite number has a divisor up to its square root. *)
Lemma small_divisor i : 1 < i -> ~ prime i -> exists d, 1 < d /\ d * d <= i /\ (d | i).
Proof.
  intros Hi Hp. destruct (not_prime_divide i Hi Hp) as (d&Hd&[q Hq]).
  destruct (Z.le_gt_cases (d * d) i) as [Hle|Hgt]; [by exists d; split; [lia|]; split; [|exists q]|].
  exists q. split; [nia|]. split; [nia|]. exists d. lia.
Qed.

Lemma is_prime_test_spec i : 3 <= i -> Z.odd i = true -> is_prime_test i = true <-> prime i.
Proof.
  intros Hi Hodd. unfold is_prime_test. destruct (rint_sqrt_bounds i Hi) as [H1 H2].
  pose proof (Z.sqrt_nonneg i). rewrite no_odd_divisor_spec by lia. split.
  - intros Ht. destruct (prime_dec i) as [|Hp]; [done|]. exfalso.
    destruct (small_divisor i ltac:(lia) Hp) as (d&Hd&Hdd&[q Hq]).
    assert (Z.odd d = true) as Ho by (rewrite Hq, Z.odd_mul in Hodd; by apply andb_prop in Hodd as [_ ?]).
    apply Z.odd_spec in Ho as [t Ht']. assert (d <= Z.sqrt i) by (apply Z.sqrt_le_square; lia).
    apply (Ht (t - 1)); [lia|lia|]. replace (3 + 2 * (t - 1)) with d by lia.
    rewrite Hq. apply Z_mod_mult.
  - intros Hp t H0 Hr Hm. apply Z.mod_divide in Hm; [|lia].
    destruct (prime_divisors i Hp _ Hm) as [?|[?|[?|?]]]; lia.
Qed.

(** The candidates are the odd numbers from [i]; the last one before the wrap-around
    is 2^32 - 1. *)
Lemma prime_search_spec fuel i :
  3 <= i < 2 ^ 32 -> Z.odd i = true -> 2 ^ 32 + 1 < i + 2 * Z.of_nat fuel ->
  exists p, prime_search fuel i = Some p /\
    ((prime p /\ i <= p < 2 ^ 32 /\ forall q, i <= q < p -> Z.odd q = true -> ~ prime q) \/
     (p = 1 /\ forall q, i <= q < 2 ^ 32 -> Z.odd q = true -> ~ prime q)).
Proof.
  revert i. induction fuel as [|f IH]; intros i Hi Hodd Hf; [lia|]. cbn [prime_search].
  pose proof (is_prime_test_spec i ltac:(lia) Hodd) as Ht.
  destruct (is_prime_test i) eqn:Hp.
  { exists i. split; [done|]. left. split; [by apply Ht|]. split; [lia|]. intros q Hq. lia. }
  assert (~ prime i) as Hnp by (intros Hpr; apply Ht in Hpr; done).
  assert (forall q, i <= q -> Z.odd q = true -> q = i \/ i + 2 <= q) as Hstep.
  { intros q Hq Ho. apply Z.odd_spec in Hodd as [a Ha]. apply Z.odd_spec in Ho as [b Hb]. lia. }
  destruct (Z.eq_dec i (2 ^ 32 - 1)) as [He|He].
  - subst i. change (u32 (2 ^ 32 - 1 + 2)) with 1. destruct f as [|f]; [lia|]. exists 1.
    split; [done|]. right. split; [done|]. intros q Hq Ho. assert (q = 2 ^ 32 - 1) as -> by lia. done.
  - assert (i + 2 < 2 ^ 32) as Hlt.
    { apply Z.odd_spec in Hodd as [a Ha]. lia. }
    rewrite u32_small by lia.
    destruct (IH (i + 2)) as (p&Hr&Hcase);
      [lia|by rewrite Z.odd_add_even by (by exists 1)|lia|].
    exists p. split; [done|]. destruct Hcase as [(H1&H2&H3)|[H1 H3]]; [left|right].
    + split; [done|]. split; [lia|]. intros q Hq Ho.
      destruct (Hstep q ltac:(lia) Ho) as [-> |Hge]; [done|apply H3; [lia|done]].
    + split; [done|]. intros q Hq Ho.
      destruct (Hstep q ltac:(lia) Ho) as [-> |Hge]; [done|apply H3; [lia|done]].
Qed.

Lemma even_not_prime q : 2 < q -> Z.odd q = false -> ~ prime q.
Proof.
  intros Hq Ho Hp. rewrite <- Z.negb_even in Ho. apply negb_false_iff, Z.even_spec in Ho as [a Ha].
  destruct (prime_divisors q Hp 2) as [?|[?|[?|?]]]; [by exists a; lia|lia..].
Qed.

Lemma lor_1_even n : Z.odd n = false -> Z.lor n 1 = n + 1.
Proof.
  intros Ho. symmetry. apply Z.add_nocarry_lor. change 1 with (Z.ones 1).
  rewrite Z.land_ones by lia. by rewrite Zmod_odd, Ho.
Qed.

Lemma lor_1_odd n : Z.odd n = true -> Z.lor n 1 = n.
Proof.
  intros Ho. replace n with (n - 1 + 1) by lia.
  rewrite <- lor_1_even, <- Z.lor_assoc by (by rewrite Z.odd_sub, Ho). done.
Qed.

(** From 2 on. *)
Lemma nearest_prime_spec fuel n :
  2 <= n < 2 ^ 32 -> 2 ^ 32 + 1 < n + 2 * Z.of_nat fuel ->
  exists p, nearest_prime fuel n = Some p /\
    ((prime p /\ n <= p < 2 ^ 32 /\ forall q, n <= q < p -> ~ prime q) \/
     (p = 1 /\ forall q, n <= q < 2 ^ 32 -> ~ prime q)).
Proof.
  intros Hn Hf. unfold nearest_prime. destruct (Z.eqb_spec n 2) as [-> |Hne].
  { exists 2. split; [done|]. left. split; [apply prime_2|]. split; [lia|]. intros q Hq. lia. }
  destruct (Z.odd n) eqn:Ho.
  - rewrite lor_1_odd by done. destruct (prime_search_spec fuel n) as (p&Hr&Hcase); [lia|done|done|].
    exists p. split; [done|]. destruct Hcase as [(H1&H2&H3)|[H1 H3]]; [left|right]; split_and!; try done; try lia;
      intros q Hq; (destruct (Z.odd q) eqn:Hoq; [by apply H3|apply even_not_prime; [lia|done]]).
  - rewrite lor_1_even by done. assert (Z.odd (n + 1) = true) as Ho1 by (by rewrite Z.odd_add, Ho).
    assert (n + 1 < 2 ^ 32) by (apply Z.odd_spec in Ho1 as [a Ha]; lia).
    destruct (prime_search_spec fuel (n + 1)) as (p&Hr&Hcase); [lia|done|lia|].
    assert (forall q, n <= q -> Z.odd q = true -> n + 1 <= q) as Hge.
    { intros q Hq Hoq. destruct (Z.eq_dec q n) as [-> |]; [congruence|lia]. }
    exists p. split; [done|]. destruct Hcase as [(H1&H2&H3)|[H1 H3]]; [left|right]; split_and!; try done; try lia;
      intros q Hq; (destruct (Z.odd q) eqn:Hoq;
        [apply H3; [split; [apply Hge; [lia|done]|lia]|done]|apply even_not_prime; [lia|done]]).
Qed.

Lemma nearest_prime_small fuel n :
  0 <= n < 2 -> 2 ^ 32 + 1 < n + 2 * Z.of_nat fuel -> nearest_prime fuel n = Some 1.
Proof.
  intros Hn Hf. destruct fuel as [|fuel]; [lia|].
  assert (n = 0 \/ n = 1) as [-> | ->] by lia; reflexivity.
Qed.

(** C40: The number of buckets.  From any start below 2^32 the search of
    [nearest_prime] ends.  For a start of 0 or 1 its result is 1, although 2 is a prime;
    for every other start it is the least prime not below the start, or, if there is none
    below 2^32, the counter wraps around and it is 1. *)
Theorem nearest_prime_least fuel n :
  0 <= n < 2 ^ 32 -> 2 ^ 32 + 1 < n + 2 * Z.of_nat fuel ->
  exists p, nearest_prime fuel n = Some p /\
    ((n < 2 /\ p = 1) \/
     (2 <= n /\ prime p /\ n <= p < 2 ^ 32 /\ forall q, n <= q < p -> ~ prime q) \/
     (2 <= n /\ p = 1 /\ forall q, n <= q < 2 ^ 32 -> ~ prime q)).
Proof.
  intros Hn Hf. destruct (Z.lt_ge_cases n 2) as [Hs|Hs].
  - exists 1. split; [by apply nearest_prime_small; lia|by left].
  - destruct (nearest_prime_spec fuel n) as (p&Hr&Hcase); [lia|done|]. exists p. split; [done|right]. naive_solver.
Qed.

(** The default number of buckets is a prime. *)
Lemma nearest_prime_least_witness :
  exists p, nearest_prime (Z.to_nat (2 ^ 32)) 1000000 = Some p /\
    ((1000000 < 2 /\ p = 1) \/
     (2 <= 1000000 /\ prime p /\ 1000000 <= p < 2 ^ 32 /\ forall q, 1000000 <= q < p -> ~ prime q) \/
     (2 <= 1000000 /\ p = 1 /\ forall q, 1000000 <= q < 2 ^ 32 -> ~ prime q)).
Proof.
  apply (nearest_prime_least (Z.to_nat (2 ^ 32)) 1000000); [lia|].
  rewrite Z2Nat.id; lia.
Defined.
