(* ===== verification/MemTypes.v ===== *)
(** * Types and constants of the memcache protocol

    The enumerations of src/memcache/memcache.hpp and the limits of
    src/constants.hpp. *)

From S2P Require Import Prelude.

(** ** src/constants.hpp *)

Definition MAX_KEY_LENGTH : Z := 250.
Definition FLUSH_AGE : Z := 10.
Definition MAX_RECVSIZE : Z := Z.shiftl 2 20.
Definition MAX_REQUEST_LENGTH : Z := Z.shiftl 30 20.
Definition MAX_SLAVES : Z := 5.
Definition MAX_CONSECUTIVE_GCS : Z := 3.
Definition MAX_WORKERS : Z := 64.
Definition VERSION : bytes := lit "yrmcds version 1.1.12".

(** ** src/memcache/memcache.hpp *)

Inductive stats_t := GENERAL | SETTINGS | ITEMS | SIZES | OPS.

(** [cybozu::severity]. *)
Inductive severity := sev_error | sev_warning | sev_info | sev_debug.

Inductive text_command :=
| UNKNOWN | SET | ADD | REPLACE | APPEND | PREPEND | CAS | GET | GETS | DELETE
| INCR | DECR | TOUCH | LOCK | UNLOCK | UNLOCK_ALL | SLABS | STATS | FLUSH_ALL
| VERSION_ | VERBOSITY | QUIT | KEYS.

(** [(std::size_t)cmd.command()], the index into [text_ops]. *)
Definition text_command_index (c : text_command) : nat :=
  match c with
  | UNKNOWN => 0 | SET => 1 | ADD => 2 | REPLACE => 3 | APPEND => 4 | PREPEND => 5
  | CAS => 6 | GET => 7 | GETS => 8 | DELETE => 9 | INCR => 10 | DECR => 11
  | TOUCH => 12 | LOCK => 13 | UNLOCK => 14 | UNLOCK_ALL => 15 | SLABS => 16
  | STATS => 17 | FLUSH_ALL => 18 | VERSION_ => 19 | VERBOSITY => 20 | QUIT => 21
  | KEYS => 22
  end.
Definition text_END_OF_COMMAND : nat := 23.

(** The enumeration is over [unsigned char], and the parser casts the opcode
    byte to it before checking it: the values without a name are [BinOther].
    [Unknown] follows [Keys], so it is 0x51. *)
Inductive binary_command :=
| Get | Set_ | Add | Replace | Delete | Increment | Decrement | Quit | Flush
| GetQ | Noop | Version | GetK | GetKQ | Append | Prepend | Stat | SetQ | AddQ
| ReplaceQ | DeleteQ | IncrementQ | DecrementQ | QuitQ | FlushQ | AppendQ | PrependQ
| Touch | GaT | GaTQ | GaTK | GaTKQ
| Lock | LockQ | Unlock | UnlockQ | UnlockAll | UnlockAllQ
| LaG | LaGQ | LaGK | LaGKQ | RaU | RaUQ
| Keys
| Unknown
| BinOther (b : byte).

Definition binary_command_of_byte (b : byte) : binary_command :=
  match b with
  | x00 => Get | x01 => Set_ | x02 => Add | x03 => Replace | x04 => Delete
  | x05 => Increment | x06 => Decrement | x07 => Quit | x08 => Flush
  | x09 => GetQ | x0a => Noop | x0b => Version | x0c => GetK | x0d => GetKQ
  | x0e => Append | x0f => Prepend | x10 => Stat | x11 => SetQ | x12 => AddQ
  | x13 => ReplaceQ | x14 => DeleteQ | x15 => IncrementQ | x16 => DecrementQ
  | x17 => QuitQ | x18 => FlushQ | x19 => AppendQ | x1a => PrependQ
  | x1c => Touch | x1d => GaT | x1e => GaTQ | x23 => GaTK | x24 => GaTKQ
  | x40 => Lock | x41 => LockQ | x42 => Unlock | x43 => UnlockQ
  | x44 => UnlockAll | x45 => UnlockAllQ | x46 => LaG | x47 => LaGQ
  | x48 => LaGK | x49 => LaGKQ | x4a => RaU | x4b => RaUQ
  | x50 => Keys | x51 => Unknown
  | _ => BinOther b
  end.

Definition binary_command_byte (c : binary_command) : byte :=
  match c with
  | Get => x00 | Set_ => x01 | Add => x02 | Replace => x03 | Delete => x04
  | Increment => x05 | Decrement => x06 | Quit => x07 | Flush => x08
  | GetQ => x09 | Noop => x0a | Version => x0b | GetK => x0c | GetKQ => x0d
  | Append => x0e | Prepend => x0f | Stat => x10 | SetQ => x11 | AddQ => x12
  | ReplaceQ => x13 | DeleteQ => x14 | IncrementQ => x15 | DecrementQ => x16
  | QuitQ => x17 | FlushQ => x18 | AppendQ => x19 | PrependQ => x1a
  | Touch => x1c | GaT => x1d | GaTQ => x1e | GaTK => x23 | GaTKQ => x24
  | Lock => x40 | LockQ => x41 | Unlock => x42 | UnlockQ => x43
  | UnlockAll => x44 | UnlockAllQ => x45 | LaG => x46 | LaGQ => x47
  | LaGK => x48 | LaGKQ => x49 | RaU => x4a | RaUQ => x4b
  | Keys => x50 | Unknown => x51
  | BinOther b => b
  end.

Definition binary_command_code (c : binary_command) : Z := Zb (binary_command_byte c).
Definition binary_END_OF_COMMAND : nat := 0x52.

Inductive binary_status :=
| OK | NotFound | Exists | TooLargeValue | Invalid | NotStored | NonNumeric
| Locked | NotLocked | UnknownCommand | OutOfMemory.

Definition binary_status_code (s : binary_status) : Z :=
  match s with
  | OK => 0x0000 | NotFound => 0x0001 | Exists => 0x0002 | TooLargeValue => 0x0003
  | Invalid => 0x0004 | NotStored => 0x0005 | NonNumeric => 0x0006
  | Locked => 0x0010 | NotLocked => 0x0011 | UnknownCommand => 0x0081
  | OutOfMemory => 0x0082
  end.

#[export] Instance stats_t_eq_dec : EqDecision stats_t.
Proof. solve_decision. Defined.
#[export] Instance severity_eq_dec : EqDecision severity.
Proof. solve_decision. Defined.
#[export] Instance text_command_eq_dec : EqDecision text_command.
Proof. solve_decision. Defined.
#[export] Instance binary_status_eq_dec : EqDecision binary_status.
Proof. solve_decision. Defined.
#[export] Instance binary_command_eq_dec : EqDecision binary_command.
Proof. solve_decision. Defined.

(** [using item = std::tuple<const char*, std::size_t>]: offset and length of a
    part of the receive buffer; [None] is the null item, [eos]. *)
Abbreviation item := (option (nat * nat)).

(** The bytes an item denotes. *)
Definition item_bytes (buf : bytes) (it : item) : bytes :=
  match it with
  | Some (p, n) => take n (drop p buf)
  | None => []
  end.

(** [is_binary_request]. *)
Definition is_binary_request (p : byte) : bool := bool_decide (p = x80).

(** What parsing reads from the process: [g_current_time], and whether [errno]
    is [ERANGE] on entry ([to_uint] does not reset it). *)
Record clock := { g_current_time : Z; errno_erange : bool }.

(** ** Opcodes *)

Lemma binary_command_byte_of_byte b :
  binary_command_byte (binary_command_of_byte b) = b.
Proof. by destruct b. Qed.
