(* ===== verification/TextRequest.v ===== *)
(** * The text request parser (class text_request of src/memcache)

    [text_request::parse] and its helpers from src/memcache/memcache.cpp.
    Pointers are offsets into the receive buffer of [m_len] bytes.  A helper
    returns [None] when it would read at or past the end of the buffer;
    otherwise the request with the fields it has set, whatever early return it
    took. *)

From S2P Require Import Prelude CLib MemTypes.

Definition CR : byte := x0d.
Definition LF : byte := x0a.
Definition SP : byte := x20.
Definition EXPTIME_THRESHOLD : Z := 60 * 60 * 24 * 30.

Record text_request := {
  m_request_len : nat;
  m_command : text_command;
  m_valid : bool;
  m_no_reply : bool;
  m_key : item;
  m_flags : Z;
  m_exptime : Z;
  m_cas_unique : Z;
  m_data : item;
  m_value : Z;
  m_verbosity : severity;
  m_stats : stats_t
}.

(** The member initialisers of the class. *)
Definition text_request_init : text_request := {|
  m_request_len := 0; m_command := UNKNOWN; m_valid := false; m_no_reply := false;
  m_key := None; m_flags := 0; m_exptime := 0; m_cas_unique := 0; m_data := None;
  m_value := 0; m_verbosity := sev_info; m_stats := GENERAL |}.

(** Assignments to the members. *)
Definition set_request_len (n : nat) (r : text_request) : text_request :=
  {| m_request_len := n; m_command := m_command r; m_valid := m_valid r;
     m_no_reply := m_no_reply r; m_key := m_key r; m_flags := m_flags r;
     m_exptime := m_exptime r; m_cas_unique := m_cas_unique r; m_data := m_data r;
     m_value := m_value r; m_verbosity := m_verbosity r; m_stats := m_stats r |}.
Definition set_command (c : text_command) (r : text_request) : text_request :=
  {| m_request_len := m_request_len r; m_command := c; m_valid := m_valid r;
     m_no_reply := m_no_reply r; m_key := m_key r; m_flags := m_flags r;
     m_exptime := m_exptime r; m_cas_unique := m_cas_unique r; m_data := m_data r;
     m_value := m_value r; m_verbosity := m_verbosity r; m_stats := m_stats r |}.
Definition set_valid (v : bool) (r : text_request) : text_request :=
  {| m_request_len := m_request_len r; m_command := m_command r; m_valid := v;
     m_no_reply := m_no_reply r; m_key := m_key r; m_flags := m_flags r;
     m_exptime := m_exptime r; m_cas_unique := m_cas_unique r; m_data := m_data r;
     m_value := m_value r; m_verbosity := m_verbosity r; m_stats := m_stats r |}.
Definition set_no_reply (v : bool) (r : text_request) : text_request :=
  {| m_request_len := m_request_len r; m_command := m_command r; m_valid := m_valid r;
     m_no_reply := v; m_key := m_key r; m_flags := m_flags r;
     m_exptime := m_exptime r; m_cas_unique := m_cas_unique r; m_data := m_data r;
     m_value := m_value r; m_verbosity := m_verbosity r; m_stats := m_stats r |}.
Definition set_key (k : item) (r : text_request) : text_request :=
  {| m_request_len := m_request_len r; m_command := m_command r; m_valid := m_valid r;
     m_no_reply := m_no_reply r; m_key := k; m_flags := m_flags r;
     m_exptime := m_exptime r; m_cas_unique := m_cas_unique r; m_data := m_data r;
     m_value := m_value r; m_verbosity := m_verbosity r; m_stats := m_stats r |}.
Definition set_flags (z : Z) (r : text_request) : text_request :=
  {| m_request_len := m_request_len r; m_command := m_command r; m_valid := m_valid r;
     m_no_reply := m_no_reply r; m_key := m_key r; m_flags := z;
     m_exptime := m_exptime r; m_cas_unique := m_cas_unique r; m_data := m_data r;
     m_value := m_value r; m_verbosity := m_verbosity r; m_stats := m_stats r |}.
Definition set_exptime (z : Z) (r : text_request) : text_request :=
  {| m_request_len := m_request_len r; m_command := m_command r; m_valid := m_valid r;
     m_no_reply := m_no_reply r; m_key := m_key r; m_flags := m_flags r;
     m_exptime := z; m_cas_unique := m_cas_unique r; m_data := m_data r;
     m_value := m_value r; m_verbosity := m_verbosity r; m_stats := m_stats r |}.
Definition set_cas_unique (z : Z) (r : text_request) : text_request :=
  {| m_request_len := m_request_len r; m_command := m_command r; m_valid := m_valid r;
     m_no_reply := m_no_reply r; m_key := m_key r; m_flags := m_flags r;
     m_exptime := m_exptime r; m_cas_unique := z; m_data := m_data r;
     m_value := m_value r; m_verbosity := m_verbosity r; m_stats := m_stats r |}.
Definition set_data (d : item) (r : text_request) : text_request :=
  {| m_request_len := m_request_len r; m_command := m_command r; m_valid := m_valid r;
     m_no_reply := m_no_reply r; m_key := m_key r; m_flags := m_flags r;
     m_exptime := m_exptime r; m_cas_unique := m_cas_unique r; m_data := d;
     m_value := m_value r; m_verbosity := m_verbosity r; m_stats := m_stats r |}.
Definition set_value (z : Z) (r : text_request) : text_request :=
  {| m_request_len := m_request_len r; m_command := m_command r; m_valid := m_valid r;
     m_no_reply := m_no_reply r; m_key := m_key r; m_flags := m_flags r;
     m_exptime := m_exptime r; m_cas_unique := m_cas_unique r; m_data := m_data r;
     m_value := z; m_verbosity := m_verbosity r; m_stats := m_stats r |}.
Definition set_verbosity (v : severity) (r : text_request) : text_request :=
  {| m_request_len := m_request_len r; m_command := m_command r; m_valid := m_valid r;
     m_no_reply := m_no_reply r; m_key := m_key r; m_flags := m_flags r;
     m_exptime := m_exptime r; m_cas_unique := m_cas_unique r; m_data := m_data r;
     m_value := m_value r; m_verbosity := v; m_stats := m_stats r |}.
Definition set_stats (v : stats_t) (r : text_request) : text_request :=
  {| m_request_len := m_request_len r; m_command := m_command r; m_valid := m_valid r;
     m_no_reply := m_no_reply r; m_key := m_key r; m_flags := m_flags r;
     m_exptime := m_exptime r; m_cas_unique := m_cas_unique r; m_data := m_data r;
     m_value := m_value r; m_verbosity := m_verbosity r; m_stats := v |}.

Definition UINT32_MAX : Z := 2 ^ 32 - 1.
Definition UINT64_MAX : Z := 2 ^ 64 - 1.
(** [std::numeric_limits<std::time_t>::max()]. *)
Definition TIME_MAX : Z := 2 ^ 63 - 1.

Section parser.
Context (ck : clock) (m_p : bytes).

(** [to_uint<UInt>(p, result)] with [max] the maximum of [UInt]: the value and
    [result]. *)
Definition to_uint (max : Z) (p : nat) : option (Z * bool) :=
  r ← strtoull (drop p m_p);
  let i := st_value r in
  if (i =? 0) && (st_end r =? 0)%nat then Some (0, false) else
  if (i =? ULLONG_MAX) && (st_erange r || errno_erange ck) then Some (0, false) else
  c ← deref m_p (p + st_end r);
  if negb (bool_decide (c = CR)) && negb (bool_decide (c = LF)) && negb (bool_decide (c = SP))
  then Some (0, false) else
  if i >? max then Some (0, false) else
  Some (i, true).

(** [(t > EXPTIME_THRESHOLD) ? t : (g_current_time + t)]. *)
Definition absolute_time (t : Z) : Z :=
  if t >? EXPTIME_THRESHOLD then t else g_current_time ck + t.

(** The block that ends six of the helpers: an optional [noreply], and no
    garbage up to [e].  The flag tells whether the end was reached. *)
Definition parse_noreply (b e : nat) (r : text_request) : option (text_request * bool) :=
  b ← skip_while m_p b SP;
  '(b, r, go) ←
    (if decide (b <> e) then
       we ← memchr m_p b SP e;
       let noreply_len := match we with Some w => (w - b)%nat | None => (e - b)%nat end in
       if decide (noreply_len <> 7%nat) then Some (b, r, false) else
       eq ← memeq m_p b (lit "noreply");
       if negb eq then Some (b, r, false) else
       Some (match we with Some w => w | None => e end, set_no_reply true r, true)
     else Some (b, r, true));
  if negb go then Some (r, false) else
  b ← skip_while m_p b SP;
  if decide (b <> e) then Some (r, false) else Some (r, true).

Definition parse_flushall (b e : nat) (r : text_request) : option text_request :=
  let r := set_exptime (g_current_time ck) r in
  b ← skip_while m_p b SP;
  if decide (b = e) then Some (set_valid true r) else
  c ← deref m_p b;
  '(b, r, go) ←
    (if isdigit c then
       exp_end ← memchr m_p b SP e;
       '(t, result) ← to_uint TIME_MAX b;
       if negb result then Some (b, r, false) else
       Some (default e exp_end, set_exptime (absolute_time t) r, true)
     else Some (b, r, true));
  if negb go then Some r else
  '(r, ok) ← parse_noreply b e r;
  if negb ok then Some r else Some (set_valid true r).

Definition parse_verbosity (b e : nat) (r : text_request) : option text_request :=
  b ← skip_while m_p b SP;
  if decide (b = e) then Some r else
  vb_end ← memchr m_p b SP e;
  let vb_end := default e vb_end in
  let len := (vb_end - b)%nat in
  if decide (len = 0%nat) then Some r else
  r ← (if decide (len = 5%nat) then
         is_error ← memeq m_p b (lit "error");
         if (is_error : bool) then Some (set_verbosity sev_error r) else
         is_debug ← memeq m_p b (lit "debug");
         if (is_debug : bool) then Some (set_verbosity sev_debug r) else Some r
       else Some r);
  r ← (if decide (len = 7%nat) then
         is_warning ← memeq m_p b (lit "warning");
         Some (if is_warning : bool then set_verbosity sev_warning r else r)
       else Some r);
  r ← (if decide (len = 4%nat) then
         is_info ← memeq m_p b (lit "info");
         Some (if is_info : bool then set_verbosity sev_info r else r)
       else Some r);
  '(r, ok) ← parse_noreply vb_end e r;
  if negb ok then Some r else Some (set_valid true r).

(** The part of [parse_storage] after the request line has been read. *)
Definition parse_storage_data (b : nat) (nbytes : Z) (r : text_request) : option text_request :=
  let b := (b + 2)%nat in
  if blen m_p <? Z.of_nat b + nbytes + 2 then Some (set_request_len 0 r) else
  let n := Z.to_nat nbytes in
  let r := set_request_len (b + n + 2) r in
  c ← deref m_p (b + n);
  if negb (bool_decide (c = CR)) then Some r else
  d ← deref m_p (b + n + 1);
  if negb (bool_decide (d = LF)) then Some r else
  Some (set_valid true (set_data (Some (b, n)) r)).

Definition parse_storage (b e : nat) (is_cas : bool) (r : text_request) : option text_request :=
  b ← skip_while m_p b SP;
  if decide (b = e) then Some r else
  key_end ← memchr m_p b SP e;
  match key_end with None => Some r | Some key_end =>
  let r := set_key (Some (b, key_end - b)%nat) r in

  b ← skip_while m_p key_end SP;
  if decide (b = e) then Some r else
  flags_end ← memchr m_p b SP e;
  match flags_end with None => Some r | Some flags_end =>
  '(flags, result) ← to_uint UINT32_MAX b;
  let r := set_flags flags r in
  if negb result then Some r else

  b ← skip_while m_p flags_end SP;
  if decide (b = e) then Some r else
  exptime_end ← memchr m_p b SP e;
  match exptime_end with None => Some r | Some exptime_end =>
  '(t, result) ← to_uint TIME_MAX b;
  if negb result then Some r else
  let r := if t =? 0 then r else set_exptime (absolute_time t) r in

  b ← skip_while m_p exptime_end SP;
  if decide (b = e) then Some r else
  '(nbytes, result) ← to_uint UINT32_MAX b;
  if negb result then Some r else
  bytes_end ← memchr m_p b SP e;
  let b := default e bytes_end in

  '(b, r, go) ←
    (if is_cas then
       b ← skip_while m_p b SP;
       if decide (b = e) then Some (b, r, false) else
       '(cas, result) ← to_uint UINT64_MAX b;
       let r := set_cas_unique cas r in
       if negb result then Some (b, r, false) else
       cas_end ← memchr m_p b SP e;
       Some (default e cas_end, r, true)
     else Some (b, r, true));
  if negb go then Some r else

  '(r, ok) ← parse_noreply b e r;
  if negb ok then Some r else parse_storage_data e nbytes r
  end end end.

Definition parse_delete (b e : nat) (r : text_request) : option text_request :=
  b ← skip_while m_p b SP;
  if decide (b = e) then Some r else
  key_end ← memchr m_p b SP e;
  let key_end := default e key_end in
  let r := set_key (Some (b, key_end - b)%nat) r in
  '(r, ok) ← parse_noreply key_end e r;
  if negb ok then Some r else Some (set_valid true r).

Definition parse_touch (b e : nat) (r : text_request) : option text_request :=
  b ← skip_while m_p b SP;
  if decide (b = e) then Some r else
  key_end ← memchr m_p b SP e;
  match key_end with None => Some r | Some key_end =>
  let r := set_key (Some (b, key_end - b)%nat) r in
  b ← skip_while m_p key_end SP;
  if decide (b = e) then Some r else
  exptime_end ← memchr m_p b SP e;
  let exptime_end := default e exptime_end in
  '(t, result) ← to_uint TIME_MAX b;
  if negb result then Some r else
  let r := if t =? 0 then r else set_exptime (absolute_time t) r in
  '(r, ok) ← parse_noreply exptime_end e r;
  if negb ok then Some r else Some (set_valid true r)
  end.

Definition parse_lock (b e : nat) (r : text_request) : option text_request :=
  b ← skip_while m_p b SP;
  if decide (b = e) then Some r else
  key_end ← memchr m_p b SP e;
  let key_end := default e key_end in
  let r := set_key (Some (b, key_end - b)%nat) r in
  b ← skip_while m_p key_end SP;
  if decide (b <> e) then Some r else Some (set_valid true r).

Definition parse_unlock (b e : nat) (r : text_request) : option text_request :=
  parse_lock b e r.

Definition parse_stats (b e : nat) (r : text_request) : option text_request :=
  b ← skip_while m_p b SP;
  if decide (b = e) then Some (set_valid true r) else
  value_end ← memchr m_p b SP e;
  let value_end := default e value_end in
  let value_len := (value_end - b)%nat in
  is_ops ← (if decide (value_len = 3%nat) then memeq m_p b (lit "ops") else Some false);
  if (is_ops : bool) then Some (set_valid true (set_stats OPS r)) else
  is_items ← (if decide (value_len = 5%nat) then memeq m_p b (lit "items") else Some false);
  if (is_items : bool) then Some (set_valid true (set_stats ITEMS r)) else
  is_sizes ← (if decide (value_len = 5%nat) then memeq m_p b (lit "sizes") else Some false);
  if (is_sizes : bool) then Some (set_valid true (set_stats SIZES r)) else
  is_settings ← (if decide (value_len = 8%nat) then memeq m_p b (lit "settings") else Some false);
  if (is_settings : bool) then Some (set_valid true (set_stats SETTINGS r)) else
  Some r.

Definition parse_incdec (b e : nat) (r : text_request) : option text_request :=
  b ← skip_while m_p b SP;
  if decide (b = e) then Some r else
  key_end ← memchr m_p b SP e;
  match key_end with None => Some r | Some key_end =>
  let r := set_key (Some (b, key_end - b)%nat) r in
  b ← skip_while m_p key_end SP;
  if decide (b = e) then Some r else
  value_end ← memchr m_p b SP e;
  let value_end := default e value_end in
  '(v, result) ← to_uint UINT64_MAX b;
  let r := set_value v r in
  if negb result then Some r else
  '(r, ok) ← parse_noreply value_end e r;
  if negb ok then Some r else Some (set_valid true r)
  end.

Definition parse_get (b e : nat) (r : text_request) : option text_request :=
  b ← skip_while m_p b SP;
  if decide (b = e) then Some r else
  key_end ← memchr m_p b SP e;
  let key_end := default e key_end in
  Some (set_valid true (set_key (Some (b, key_end - b)%nat) r)).

Definition parse_keys (b e : nat) (r : text_request) : option text_request :=
  let r := set_valid true r in
  b ← skip_while m_p b SP;
  if decide (b = e) then Some r else
  key_end ← memchr m_p b SP e;
  let key_end := default e key_end in
  Some (set_key (Some (b, key_end - b)%nat) r).

(** The command word, looked up by its length and then by [memcmp], in the
    order of the source; the helper that the command calls. *)
Definition text_dispatch (w : bytes) : option (text_command * (nat -> nat -> text_request -> option text_request)) :=
  let ok := fun (_ _ : nat) (r : text_request) => Some (set_valid true r) in
  if bool_decide (w = lit "unlock_all") then Some (UNLOCK_ALL, ok) else
  if bool_decide (w = lit "flush_all") then Some (FLUSH_ALL, parse_flushall) else
  if bool_decide (w = lit "verbosity") then Some (VERBOSITY, parse_verbosity) else
  if bool_decide (w = lit "version") then Some (VERSION_, ok) else
  if bool_decide (w = lit "prepend") then Some (PREPEND, fun b e => parse_storage b e false) else
  if bool_decide (w = lit "replace") then Some (REPLACE, fun b e => parse_storage b e false) else
  if bool_decide (w = lit "append") then Some (APPEND, fun b e => parse_storage b e false) else
  if bool_decide (w = lit "delete") then Some (DELETE, parse_delete) else
  if bool_decide (w = lit "unlock") then Some (UNLOCK, parse_unlock) else
  if bool_decide (w = lit "touch") then Some (TOUCH, parse_touch) else
  if bool_decide (w = lit "slabs") then Some (SLABS, ok) else
  if bool_decide (w = lit "stats") then Some (STATS, parse_stats) else
  if bool_decide (w = lit "gets") then Some (GETS, parse_get) else
  if bool_decide (w = lit "incr") then Some (INCR, parse_incdec) else
  if bool_decide (w = lit "decr") then Some (DECR, parse_incdec) else
  if bool_decide (w = lit "lock") then Some (LOCK, parse_lock) else
  if bool_decide (w = lit "quit") then Some (QUIT, ok) else
  if bool_decide (w = lit "keys") then Some (KEYS, parse_keys) else
  if bool_decide (w = lit "set") then Some (SET, fun b e => parse_storage b e false) else
  if bool_decide (w = lit "add") then Some (ADD, fun b e => parse_storage b e false) else
  if bool_decide (w = lit "get") then Some (GET, parse_get) else
  if bool_decide (w = lit "cas") then Some (CAS, fun b e => parse_storage b e true) else
  None.

(** [text_request::parse]. *)
Definition text_parse : option text_request :=
  let r := text_request_init in
  eol ← memchr m_p 0 LF (length m_p);
  match eol with None => Some r | Some eol =>
  let r := set_request_len (eol + 1) r in
  if decide (eol + 1 = 1)%nat then Some r else
  let eol := (eol - 1)%nat in
  c ← deref m_p eol;
  if negb (bool_decide (c = CR)) then Some r else
  cmd_start ← skip_while m_p 0 SP;
  cmd_end ← memchr m_p cmd_start SP eol;
  let cmd_end := default eol cmd_end in
  w ← read_n m_p cmd_start (cmd_end - cmd_start);
  match text_dispatch w with
  | Some (c, helper) => helper cmd_end eol (set_command c r)
  | None => Some r
  end end.

(** [text_request::next_key]. *)
Definition next_key (prev : item) : option item :=
  match prev with None => None | Some (b, len) =>
  let b := (b + len)%nat in
  b ← skip_while m_p b SP;
  e ← find_byte CR (drop b m_p);
  let e := (b + e)%nat in
  if decide (b = e) then Some None else
  key_end ← memchr m_p b SP e;
  let key_end := default e key_end in
  Some (Some (b, key_end - b)%nat)
  end.

(** The loop [for( it = first_key(); it != eos; it = next_key(it) )]. *)
Fixpoint key_loop (fuel : nat) (it : item) : option (list item) :=
  match fuel with
  | O => None
  | S f => match it with
           | None => Some []
           | Some _ => nxt ← next_key it; rest ← key_loop f nxt; Some (it :: rest)
           end
  end.

End parser.
