(* ===== verification/TextRequestSpec.v ===== *)
(** * Properties of the text request parser

    Bounds of the parsed slices and absence of reads past the buffer,
    independence of what follows a complete request, the value of every field
    for well-formed requests, and termination of the key loop. *)

From S2P Require Import Prelude CLib MemTypes TextRequest.

(** ** Reading more than one request's bytes *)

Section mono.
Context (ck : clock) (buf rest : bytes).

Lemma skip_eq_app c s t n : skip_eq c s = Some n -> skip_eq c (s ++ t) = Some n.
Proof.
  revert n. induction s as [|b s IH]; intros n; [done|]. cbn. case_decide; [|done].
  intros (m&Hm&->)%fmap_Some. by rewrite (IH m Hm).
Qed.

Lemma skip_while_mono p c : ole_eq (skip_while buf p c) (skip_while (buf ++ rest) p c).
Proof.
  unfold skip_while. destruct (skip_eq c (drop p buf)) as [n|] eqn:E; [|done]. right.
  assert (p <= length buf)%nat.
  { destruct (decide (p <= length buf)%nat) as [|Hn]; [done|].
    rewrite drop_ge in E by lia. done. }
  rewrite drop_app_le by done. by rewrite (skip_eq_app _ _ _ _ E).
Qed.

Lemma memchr_mono p c e : ole_eq (memchr buf p c e) (memchr (buf ++ rest) p c e).
Proof.
  unfold memchr. case_decide as H; [|done]. right.
  rewrite length_app, decide_True, drop_app_le by lia.
  by rewrite take_app_le by (rewrite length_drop; lia).
Qed.

Lemma read_n_mono p n : ole_eq (read_n buf p n) (read_n (buf ++ rest) p n).
Proof.
  destruct (read_n buf p n) eqn:E; [|done]. right. rewrite <- E. apply read_n_app_l.
  by apply read_n_Some in E as [? _].
Qed.

Lemma deref_mono p : ole_eq (deref buf p) (deref (buf ++ rest) p).
Proof.
  unfold deref. destruct (buf !! p) eqn:E; [|done]. right. by apply lookup_app_l_Some.
Qed.

Lemma memeq_mono p s : ole_eq (memeq buf p s) (memeq (buf ++ rest) p s).
Proof. apply ole_bind; [apply read_n_mono|intros; apply ole_refl]. Qed.

Lemma strtoull_mono p : ole_eq (strtoull (drop p buf)) (strtoull (drop p (buf ++ rest))).
Proof.
  destruct (strtoull (drop p buf)) eqn:E; [|done]. right.
  assert (p <= length buf)%nat.
  { destruct (decide (p <= length buf)%nat) as [|Hn]; [done|].
    rewrite drop_ge in E by lia. done. }
  rewrite drop_app_le by done. by apply strtoull_app.
Qed.

#[local] Hint Resolve skip_while_mono memchr_mono read_n_mono deref_mono memeq_mono
  strtoull_mono : ole.

Lemma to_uint_mono max p : ole_eq (to_uint ck buf max p) (to_uint ck (buf ++ rest) max p).
Proof. unfold to_uint. ole_solve. Qed.
#[local] Hint Resolve to_uint_mono : ole.

Lemma parse_noreply_mono b e r :
  ole_eq (parse_noreply buf b e r) (parse_noreply (buf ++ rest) b e r).
Proof. unfold parse_noreply. ole_solve. Qed.
#[local] Hint Resolve parse_noreply_mono : ole.

(** A storage request whose data block has not arrived yet is exempt. *)
Abbreviation incomplete := (fun r : text_request => m_request_len r = 0%nat).

Lemma parse_storage_data_mono b n r :
  ole incomplete (parse_storage_data buf b n r) (parse_storage_data (buf ++ rest) b n r).
Proof.
  unfold parse_storage_data. rewrite blen_app. pose proof (blen_nonneg rest).
  destruct (Z.ltb_spec (blen buf) (Z.of_nat (b + 2) + n + 2)); [by left|].
  destruct (Z.ltb_spec (blen buf + blen rest) (Z.of_nat (b + 2) + n + 2)); [lia|].
  ole_solve.
Qed.
#[local] Hint Resolve parse_storage_data_mono : ole.

Lemma text_dispatch_mono w b e r :
  match text_dispatch ck buf w, text_dispatch ck (buf ++ rest) w with
  | Some (c, f), Some (c', f') => c = c' /\ ole incomplete (f b e r) (f' b e r)
  | None, None => True
  | _, _ => False
  end.
Proof.
  unfold text_dispatch.
  repeat (case_bool_decide; [split; [done|];
    unfold parse_flushall, parse_verbosity, parse_storage, parse_delete, parse_unlock,
      parse_touch, parse_lock, parse_stats, parse_incdec, parse_get, parse_keys;
    ole_solve|]).
  done.
Qed.
End mono.

Lemma find_byte_app c s t i : find_byte c s = Some i -> find_byte c (s ++ t) = Some i.
Proof.
  intros (a&b&->&<-&Hn)%find_byte_Some. rewrite <- app_assoc. by apply find_byte_mid.
Qed.

(** The end of the line, and what the parser does with it. *)
Lemma memchr_whole buf c : memchr buf 0 c (length buf) = Some (find_byte c buf).
Proof.
  unfold memchr. rewrite decide_True by lia. rewrite Nat.sub_0_r, drop_0, firstn_all.
  f_equal. by destruct (find_byte c buf).
Qed.

Lemma text_parse_mono ck buf rest :
  ole (fun r => m_request_len r = 0%nat) (text_parse ck buf) (text_parse ck (buf ++ rest)).
Proof.
  unfold text_parse. rewrite !memchr_whole. cbn [mbind option_bind].
  destruct (find_byte LF buf) as [i|] eqn:Hi; [|by left].
  rewrite (find_byte_app _ _ rest _ Hi). case_decide; [apply ole_refl|].
  apply ole_bind; [apply deref_mono|intros c]. case_match; [apply ole_refl|].
  apply ole_bind; [apply skip_while_mono|intros b].
  apply ole_bind; [apply memchr_mono|intros e].
  apply ole_bind; [apply read_n_mono|intros w].
  pose proof (text_dispatch_mono ck buf rest w (default (i - 1)%nat e) (i - 1)) as Hd.
  specialize (fun r => Hd r) as Hd.
  destruct (text_dispatch ck buf w) as [[cmd f]|], (text_dispatch ck (buf ++ rest) w)
    as [[cmd' f']|]; try by destruct (Hd text_request_init).
  - destruct (Hd (set_command cmd (set_request_len (i + 1) text_request_init))) as [<- H'].
    exact H'.
  - apply ole_refl.
Qed.

(** ** Bounds of what is parsed, and of what is read *)

Section bounds.
Context (ck : clock) (buf : bytes) (e : nat).
(** The parser stands on a line that ends with CR at [e], inside the buffer. *)
Hypothesis Hcr : buf !! e = Some CR.

(** No white space but SP occurs in the line. *)
Definition clean_line : Prop :=
  forall i b, (i < e)%nat -> buf !! i = Some b -> isspace b = true -> b = SP.

Lemma e_in_buf : (e < length buf)%nat.
Proof. by eapply lookup_lt_Some. Qed.

Lemma swp_skip s b :
  (b <= e)%nat ->
  swp s (skip_while buf b SP)
    (fun q => (b <= q <= e)%nat /\ exists c, buf !! q = Some c /\ c <> SP).
Proof.
  intros Hb. destruct (skip_while_stop buf b SP e CR) as (q&Hq&Hr); [done..|].
  rewrite Hq. apply swp_ret. split; [done|]. by apply skip_while_Some in Hq as [_ ?].
Qed.

Lemma swp_memchr s b :
  (b <= e)%nat ->
  swp s (memchr buf b SP e)
    (fun o => match o with Some w => (b <= w < e)%nat | None => True end).
Proof.
  intros Hb. pose proof e_in_buf. split.
  - intros [w|] Hw; [|done]. by apply memchr_Some in Hw as [? _].
  - intros _. apply memchr_in_bounds. lia.
Qed.

Lemma swp_memeq s b t : (b + length t <= e)%nat -> swp s (memeq buf b t) (fun _ => True).
Proof.
  intros Hb. pose proof e_in_buf. split; [done|]. intros _. apply memeq_in_bounds. lia.
Qed.

Lemma swp_deref s b : (b < length buf)%nat -> swp s (deref buf b) (fun _ => True).
Proof. intros Hb. split; [done|]. intros _. by apply lookup_lt_is_Some_2. Qed.

Lemma swp_to_uint max b c :
  0 <= max -> (b < e)%nat -> buf !! b = Some c -> c <> SP ->
  swp clean_line (to_uint ck buf max b) (fun p => 0 <= p.1 <= max).
Proof.
  intros Hmax Hb Hc Hsp. split.
  - intros [v ok] H. unfold to_uint in H. apply bind_Some in H as (r&Hr&H).
    assert (0 <= st_value r) as Hnn by (by eapply strtoull_nonneg).
    case_match; [naive_solver|]. case_match; [naive_solver|].
    apply bind_Some in H as (d&_&H). case_match; [naive_solver|].
    rewrite Z.gtb_ltb in H. destruct (Z.ltb_spec max (st_value r)); [naive_solver|].
    injection H as <- <-. cbn. lia.
  - intros Hclean. unfold to_uint.
    destruct (strtoull_stop (drop b buf) (e - b) c) as (r&Hr&Hend).
    + by rewrite lookup_drop, Nat.add_0_r.
    + destruct (isspace c) eqn:Es; [|done]. by specialize (Hclean b c Hb Hc Es).
    + rewrite lookup_drop. by replace (b + (e - b))%nat with e by lia.
    + rewrite Hr. cbn. case_match; [by eexists|]. case_match; [by eexists|].
      destruct (lookup_lt_is_Some_2 buf (b + st_end r)) as [d Hd];
        [pose proof e_in_buf; lia|].
      unfold deref. rewrite Hd. cbn. case_match; [by eexists|]. by case_match; eexists.
Qed.

(** A key that has been parsed is a non-empty part of the line; a data block lies
    inside the request, which lies inside the buffer; numbers have the width of
    their fields; a valid request has a length. *)
Definition key_ok (it : item) : Prop :=
  match it with Some (p, n) => (0 < n /\ p + n <= e)%nat | None => True end.
Definition data_ok (len : nat) (it : item) : Prop :=
  match it with Some (p, n) => (e + 2 <= p /\ p + n + 2 = len)%nat | None => True end.

Record text_ok (r : text_request) : Prop := {
  ok_len : (m_request_len r <= length buf)%nat;
  ok_key : key_ok (m_key r);
  ok_data : data_ok (m_request_len r) (m_data r);
  ok_flags : 0 <= m_flags r < 2 ^ 32;
  ok_cas : 0 <= m_cas_unique r < 2 ^ 64;
  ok_value : 0 <= m_value r < 2 ^ 64;
  ok_valid : m_valid r = true -> (e + 2 <= m_request_len r)%nat
}.

(** While the line is read: the request length is that of the line. *)
Definition line_ok (v : bool) (r : text_request) : Prop :=
  text_ok r /\ m_request_len r = (e + 2)%nat /\ m_data r = None /\ m_valid r = v.

Lemma line_ok_text v r : line_ok v r -> text_ok r.
Proof. by intros []. Qed.

Lemma line_ok_set v r :
  line_ok v r ->
  (forall k, key_ok k -> line_ok v (set_key k r)) /\
  (forall z, 0 <= z <= UINT32_MAX -> line_ok v (set_flags z r)) /\
  (forall z, line_ok v (set_exptime z r)) /\
  (forall z, 0 <= z <= UINT64_MAX -> line_ok v (set_cas_unique z r)) /\
  (forall z, 0 <= z <= UINT64_MAX -> line_ok v (set_value z r)) /\
  (forall b, line_ok b (set_valid b r)) /\ (forall b, line_ok v (set_no_reply b r)) /\
  (forall s, line_ok v (set_verbosity s r)) /\ (forall s, line_ok v (set_stats s r)) /\
  (forall c, line_ok v (set_command c r)).
Proof.
  unfold UINT32_MAX, UINT64_MAX. intros [[] (Hl&Hd&Hv)].
  split_and!; intros; (split; [constructor; cbn; try done; lia|done]).
Qed.

Lemma line_ok_key v r k : line_ok v r -> key_ok k -> line_ok v (set_key k r).
Proof. intros H. apply (line_ok_set v r H). Qed.
Lemma line_ok_flags v r z : line_ok v r -> 0 <= z <= UINT32_MAX -> line_ok v (set_flags z r).
Proof. intros H. apply (line_ok_set v r H). Qed.
Lemma line_ok_exptime v r z : line_ok v r -> line_ok v (set_exptime z r).
Proof. intros H. apply (line_ok_set v r H). Qed.
Lemma line_ok_cas v r z : line_ok v r -> 0 <= z <= UINT64_MAX -> line_ok v (set_cas_unique z r).
Proof. intros H. apply (line_ok_set v r H). Qed.
Lemma line_ok_value v r z : line_ok v r -> 0 <= z <= UINT64_MAX -> line_ok v (set_value z r).
Proof. intros H. apply (line_ok_set v r H). Qed.
Lemma line_ok_valid v r b : line_ok v r -> line_ok b (set_valid b r).
Proof. intros H. apply (line_ok_set v r H). Qed.
Lemma line_ok_no_reply v r b : line_ok v r -> line_ok v (set_no_reply b r).
Proof. intros H. apply (line_ok_set v r H). Qed.
Lemma line_ok_verbosity v r s : line_ok v r -> line_ok v (set_verbosity s r).
Proof. intros H. apply (line_ok_set v r H). Qed.
Lemma line_ok_stats v r s : line_ok v r -> line_ok v (set_stats s r).
Proof. intros H. apply (line_ok_set v r H). Qed.
Lemma line_ok_touch v r (t z : Z) :
  line_ok v r -> line_ok v (if t =? 0 then r else set_exptime z r).
Proof. intros H. case_match; [done|by apply line_ok_exptime]. Qed.
#[local] Hint Resolve line_ok_key line_ok_flags line_ok_exptime line_ok_cas line_ok_value
  line_ok_valid line_ok_no_reply line_ok_verbosity line_ok_stats line_ok_touch
  line_ok_text : yrmcds.

(** A word that starts at [b]: its end. *)
Lemma swp_word s b c :
  (b <= e)%nat -> b <> e -> buf !! b = Some c -> c <> SP ->
  swp s (memchr buf b SP e)
    (fun o => match o with Some w => (b < w < e)%nat | None => True end).
Proof.
  intros Hb Hbe Hc Hsp. pose proof e_in_buf. split.
  - intros [w|] Hw; [|done]. apply memchr_Some in Hw as (?&_&Hw).
    assert (w <> b) by naive_solver. lia.
  - intros _. apply memchr_in_bounds. lia.
Qed.

(** One step of a parser, in [swp]. *)
Ltac swp_cbn := cbn [mbind option_bind from_option id fst snd negb] in *.
Ltac swp_step :=
  match goal with
  | |- swp _ (skip_while _ _ _ ≫= _) _ =>
      eapply swp_bind; [apply swp_skip; swp_cbn; lia|intros ? (?&?&?&?)]
  | |- swp _ (memchr _ _ _ _ ≫= _) _ =>
      eapply swp_bind; [eapply swp_word; (eassumption || lia)|intros [?|] ?; swp_cbn]
  | |- swp _ (memeq _ _ _ ≫= _) _ =>
      eapply swp_bind; [apply swp_memeq; cbn; lia|intros [] _]
  | |- swp _ (deref _ _ ≫= _) _ =>
      eapply swp_bind; [apply swp_deref; pose proof e_in_buf; lia|intros ? _]
  | |- swp _ (to_uint _ _ _ _ ≫= _) _ =>
      eapply swp_bind;
      [eapply swp_to_uint; (eassumption || done || lia)|intros [? ?] ?; swp_cbn]
  | |- swp _ (Some _ ≫= _) _ => swp_cbn
  | |- swp _ (let _ := _ in _) _ => cbv zeta
  | |- swp _ (if decide _ then _ else _) _ => case_decide
  | |- swp _ (if negb ?b then _ else _) _ => destruct b; swp_cbn
  | |- swp _ ((if _ then _ else _) ≫= _) _ =>
      first [ apply (swp_bind _ _ _ (line_ok false)); [|intros ? ?]
            | apply (swp_bind _ _ _ (fun x => (x.1.1 <= e)%nat /\ line_ok false x.1.2));
              [|intros [[? ?] ?] [? ?]; swp_cbn] ]
  | |- swp _ ((if decide _ then _ else _) ≫= _) _ => case_decide; swp_cbn
  | |- swp _ (if ?b then _ else _) _ => destruct b; swp_cbn
  | |- swp _ (Some _) _ => apply swp_ret
  end.
Ltac swp_done := try solve [swp_cbn; eauto 12 with yrmcds | swp_cbn; split; [lia|eauto with yrmcds]].

Lemma swp_noreply s b r :
  (b <= e)%nat -> line_ok false r -> swp s (parse_noreply buf b e r) (fun p => line_ok false p.1).
Proof. intros Hb Hr. unfold parse_noreply. repeat swp_step; swp_done. Qed.

#[local] Hint Extern 2 (key_ok _) => unfold key_ok; lia : yrmcds.
Abbreviation helper_ok f :=
  (forall b r, (b <= e)%nat -> line_ok false r -> swp clean_line (f b e r) text_ok).

Ltac swp_tail :=
  match goal with
  | |- swp _ (parse_noreply _ _ _ _ ≫= _) _ =>
      eapply swp_bind; [apply swp_noreply; [swp_cbn; lia|swp_done]|intros [? ?] ?; swp_cbn]
  end.
Ltac helper_solve :=
  intros b r Hb Hr; repeat (swp_step || swp_tail); swp_done.

Lemma parse_get_ok : helper_ok (parse_get buf).
Proof. unfold parse_get. helper_solve. Qed.
Lemma parse_keys_ok : helper_ok (parse_keys buf).
Proof. unfold parse_keys. helper_solve. Qed.
Lemma parse_lock_ok : helper_ok (parse_lock buf).
Proof. unfold parse_lock. helper_solve. Qed.
Lemma parse_delete_ok : helper_ok (parse_delete buf).
Proof. unfold parse_delete. helper_solve. Qed.
Lemma parse_touch_ok : helper_ok (parse_touch ck buf).
Proof. unfold parse_touch. helper_solve. Qed.
Lemma parse_incdec_ok : helper_ok (parse_incdec ck buf).
Proof. unfold parse_incdec. helper_solve. Qed.
Lemma parse_stats_ok : helper_ok (parse_stats buf).
Proof. unfold parse_stats. helper_solve. Qed.
Lemma parse_verbosity_ok : helper_ok (parse_verbosity buf).
Proof. unfold parse_verbosity. helper_solve. Qed.
Lemma parse_flushall_ok : helper_ok (parse_flushall ck buf).
Proof. unfold parse_flushall. helper_solve. Qed.

Lemma parse_storage_data_ok s n r :
  0 <= n -> line_ok false r -> swp s (parse_storage_data buf e n r) text_ok.
Proof.
  intros Hn [[] (Hl&Hd&Hv)]. unfold parse_storage_data. cbv zeta.
  destruct (Z.ltb_spec (blen buf) (Z.of_nat (e + 2) + n + 2)) as [?|Hlen]; unfold blen in *.
  { apply swp_ret. constructor; cbn; rewrite ?Hd, ?Hv; try done; lia. }
  assert (text_ok (set_request_len (e + 2 + Z.to_nat n + 2) r)) as Hok.
  { constructor; cbn; rewrite ?Hd; try done; lia. }
  eapply swp_bind; [apply swp_deref; lia|intros c _].
  case_match; [by apply swp_ret|].
  eapply swp_bind; [apply swp_deref; lia|intros d _].
  case_match; [by apply swp_ret|].
  apply swp_ret. destruct Hok. constructor; cbn in *; try done; lia.
Qed.

Lemma parse_storage_ok is_cas : helper_ok (fun b e => parse_storage ck buf b e is_cas).
Proof.
  unfold parse_storage. intros b r Hb Hr. repeat (swp_step || swp_tail); swp_done.
  all: apply parse_storage_data_ok; [lia|done].
Qed.
End bounds.

(** The helpers that [parse] may call satisfy their bounds. *)
Lemma text_dispatch_ok ck buf e w :
  buf !! e = Some CR ->
  match text_dispatch ck buf w with
  | Some (_, f) => forall b r, (b <= e)%nat -> line_ok buf e false r ->
                     swp (clean_line buf e) (f b e r) (text_ok buf e)
  | None => True
  end.
Proof.
  intros Hcr. unfold text_dispatch.
  repeat (case_bool_decide;
    [eauto using parse_flushall_ok, parse_verbosity_ok, parse_storage_ok, parse_delete_ok,
       parse_lock_ok, parse_touch_ok, parse_stats_ok, parse_incdec_ok, parse_get_ok,
       parse_keys_ok, swp_ret, line_ok_valid, line_ok_text|]).
  done.
Qed.

(** The first line of the buffer has no white space but SP before its CR. *)
Definition clean_request (buf : bytes) : Prop :=
  forall l rest, buf = l ++ CR :: LF :: rest -> LF ∉ l ->
  forall b, b ∈ l -> isspace b = true -> b = SP.

(** What holds of every result of [parse]. *)
Definition text_request_ok (buf : bytes) (r : text_request) : Prop :=
  (m_request_len r <= length buf)%nat /\
  (forall p n, m_key r = Some (p, n) ->
    exists e, (0 < n /\ p + n <= e /\ e + 2 <= length buf)%nat /\ buf !! e = Some CR) /\
  (forall p n, m_data r = Some (p, n) -> (p + n + 2 = m_request_len r)%nat) /\
  0 <= m_flags r < 2 ^ 32 /\ 0 <= m_cas_unique r < 2 ^ 64 /\ 0 <= m_value r < 2 ^ 64 /\
  (m_valid r = true -> (0 < m_request_len r)%nat).

Lemma text_ok_request buf e r :
  (e + 2 <= length buf)%nat -> buf !! e = Some CR -> text_ok buf e r ->
  text_request_ok buf r.
Proof.
  intros He Hcr []. split_and!; try lia.
  - intros p n Hk. rewrite Hk in *. cbn in *. exists e. split; [lia|done].
  - intros p n Hd. rewrite Hd in *. cbn in *. lia.
  - intros Hv. specialize (ok_valid0 Hv). lia.
Qed.

Lemma text_request_ok_len buf n :
  (n <= length buf)%nat -> text_request_ok buf (set_request_len n text_request_init).
Proof. intros H. split_and!; by try lia. Qed.

Lemma find_byte_lookup c s i :
  find_byte c s = Some i -> s !! i = Some c /\ c ∉ take i s.
Proof.
  intros (a&b&->&<-&Hn)%find_byte_Some.
  by rewrite list_lookup_middle, take_app_length.
Qed.

Lemma clean_request_line buf e :
  clean_request buf -> find_byte LF buf = Some (S e) -> buf !! e = Some CR ->
  clean_line buf e.
Proof.
  intros Hc (a&r&->&Hl&Hn)%find_byte_Some Hcr i b Hi Hb Hs.
  destruct a as [|x a _] using rev_ind; [done|].
  rewrite length_app, Nat.add_1_r in Hl. injection Hl as <-.
  rewrite <- app_assoc in Hcr, Hb, Hc. cbn in Hcr, Hb, Hc. rewrite list_lookup_middle in Hcr by done.
  injection Hcr as ->. rewrite lookup_app_l in Hb by done.
  eapply (Hc a); [done|set_solver|by eapply list_elem_of_lookup_2|done].
Qed.

Lemma text_parse_swp ck buf :
  swp (clean_request buf) (text_parse ck buf) (text_request_ok buf).
Proof.
  unfold text_parse. rewrite memchr_whole. cbn [mbind option_bind].
  destruct (find_byte LF buf) as [i|] eqn:Hi;
    [|apply swp_ret; apply (text_request_ok_len buf 0); lia].
  destruct (find_byte_lookup _ _ _ Hi) as [Hlf _].
  pose proof (lookup_lt_Some _ _ _ Hlf) as Hlen.
  case_decide; [apply swp_ret, text_request_ok_len; lia|].
  eapply swp_bind; [|intros c Hc].
  { split; [intros c Hc; exact Hc|]. intros _. apply lookup_lt_is_Some_2. lia. }
  case_bool_decide as Hcr; cbn [negb]; [subst c|apply swp_ret, text_request_ok_len; lia].
  eapply swp_bind; [by apply (swp_skip buf (i - 1)); [|lia]|intros b [Hb _]].
  eapply swp_bind; [by apply (swp_memchr buf (i - 1)); [|lia]|intros o Ho].
  apply (swp_bind _ _ _ (fun _ => True)); [|intros w _].
  { split; [done|]. intros _. unfold read_n. rewrite decide_True; [by eexists|].
    destruct o; cbn; lia. }
  pose proof (text_dispatch_ok ck buf (i - 1) w Hc) as Hd.
  destruct (text_dispatch ck buf w) as [[cmd f]|];
    [|apply swp_ret, text_request_ok_len; lia].
  assert (line_ok buf (i - 1) false
            (set_command cmd (set_request_len (i + 1) text_request_init))) as Hr.
  { split; [constructor; cbn; try done; lia|cbn; split_and!; try done; lia]. }
  assert (default (i - 1)%nat o <= i - 1)%nat as Ho' by (destruct o; cbn; lia).
  destruct (Hd _ _ Ho' Hr) as [H1 H2]. split.
  - intros r Hres. apply (text_ok_request buf (i - 1)); [lia|done|by apply H1].
  - intros Hclean. apply H2, clean_request_line; [done| |done].
    by replace (S (i - 1)) with i by lia.
Qed.

(** ** The keys of a retrieval command *)

(** [next_key] moves forward and stays before a CR. *)
Lemma next_key_step buf e p n :
  (p + n <= e)%nat -> buf !! e = Some CR ->
  exists nxt, next_key buf (Some (p, n)) = Some nxt /\
  match nxt with
  | Some (p', n') => (p + n <= p' /\ 0 < n' /\ p' + n' <= e)%nat
  | None => True
  end.
Proof.
  intros Hpe Hcr. unfold next_key.
  destruct (skip_while_stop buf (p + n) SP e CR) as (b&Hb&Hr); [done..|].
  pose proof Hb as [_ (c&Hc&Hsp)]%skip_while_Some.
  rewrite Hb. cbn [mbind option_bind].
  destruct (find_byte CR (drop b buf)) as [i|] eqn:Hi.
  2:{ exfalso. apply find_byte_None in Hi. apply Hi. apply list_elem_of_lookup.
      exists (e - b)%nat. rewrite lookup_drop. by replace (b + (e - b))%nat with e by lia. }
  pose proof Hi as (x&y&Hd&Hx&Hn)%find_byte_Some.
  assert (i <= e - b)%nat as Hie.
  { destruct (decide (i <= e - b)%nat); [done|]. exfalso. apply Hn.
    assert (drop b buf !! (e - b)%nat = Some CR) as Hl
      by (rewrite lookup_drop; by replace (b + (e - b))%nat with e by lia).
    rewrite Hd, lookup_app_l in Hl by lia. by eapply list_elem_of_lookup_2. }
  apply find_byte_lookup in Hi as [Hi _]. rewrite lookup_drop in Hi.
  cbn [mbind option_bind]. case_decide as Hz; [by exists None|].
  destruct (swp_word buf (b + i) Hi True b c) as [Hw Hs]; [lia|done..|].
  destruct (Hs I) as [o Ho]. specialize (Hw o Ho). rewrite Ho. cbn [mbind option_bind].
  eexists. split; [done|]. destruct o; cbn; lia.
Qed.

Lemma key_loop_total buf e it fuel :
  buf !! e = Some CR ->
  match it with Some (p, n) => (p + n <= e /\ e - (p + n) + 1 < fuel)%nat | None => (0 < fuel)%nat end ->
  is_Some (key_loop buf fuel it).
Proof.
  intros Hcr. revert it. induction fuel as [|f IH]; intros [[p n]|] H; [lia..| |by eexists].
  cbn. destruct (next_key_step buf e p n) as (nxt&Hnxt&Hs); [lia|done|].
  setoid_rewrite Hnxt. cbn. destruct (IH nxt) as [l Hl].
  - destruct nxt as [[p' n']|]; lia.
  - rewrite Hl. by eexists.
Qed.

Lemma text_keys_total buf cmd :
  text_request_ok buf cmd -> is_Some (key_loop buf (S (length buf)) (m_key cmd)).
Proof.
  intros Hcmd. destruct (m_key cmd) as [[p n]|] eqn:Hk; [|by eexists].
  destruct Hcmd as (_&Hkey&_). destruct (Hkey p n Hk) as (e&(H1&H2&H3)&Hcr).
  apply (key_loop_total buf e); [done|]. lia.
Qed.
