(* ===== verification/TextRoundtrip.v ===== *)
(** * Parsing what a client prints

    A storage command printed in the memcache text format is parsed back to the
    fields it was printed from, and the key list of a retrieval command to its
    keys, whatever follows in the buffer. *)

From S2P Require Import Prelude CLib MemTypes TextRequest TextRequestSpec.

(** ** Words at a position of the buffer *)

(** The buffer holds [w] at offset [p]. *)
Definition has_at (buf : bytes) (p : nat) (w : bytes) : Prop :=
  exists pre post, buf = pre ++ w ++ post /\ length pre = p.

(** A word of the request line: not empty, and without separators. *)
Definition word (w : bytes) : Prop := w <> [] /\ SP ∉ w /\ CR ∉ w /\ LF ∉ w.

#[export] Instance word_dec w : Decision (word w).
Proof. unfold word. apply _. Defined.

Section at_.
Context (ck : clock) (buf : bytes).

Lemma at_app p v w :
  has_at buf p (v ++ w) <-> has_at buf p v /\ has_at buf (p + length v) w.
Proof.
  split.
  - intros (pre&post&->&<-). split.
    + exists pre, (w ++ post). by rewrite <- !app_assoc.
    + exists (pre ++ v), post. rewrite <- !app_assoc, length_app. done.
  - intros [(pre&post&E&<-) (pre'&post'&E'&Hl)]. exists pre, post'. split; [|done].
    assert (buf = (pre ++ v) ++ post) as F by (by rewrite <- app_assoc).
    rewrite E' in F. apply app_inj_1 in F as [-> <-]; [|by rewrite length_app].
    by rewrite E', <- !app_assoc.
Qed.

Lemma at_lookup p w i b : has_at buf p w -> w !! i = Some b -> buf !! (p + i)%nat = Some b.
Proof.
  intros (pre&post&->&<-) Hi. rewrite lookup_app_r by lia.
  replace (length pre + i - length pre)%nat with i by lia. by apply lookup_app_l_Some.
Qed.

Lemma at_single p c : has_at buf p [c] <-> buf !! p = Some c.
Proof.
  split.
  - intros H. rewrite <- (Nat.add_0_r p). by eapply at_lookup.
  - intros H. exists (take p buf), (drop (S p) buf). cbn.
    rewrite take_drop_middle by done. split; [done|].
    apply length_take_le. apply lookup_lt_Some in H. lia.
Qed.

Lemma at_cons p c w : has_at buf p (c :: w) <-> buf !! p = Some c /\ has_at buf (p + 1) w.
Proof. rewrite (at_app p [c] w). by rewrite at_single. Qed.

Lemma at_bound p w : has_at buf p w -> (p + length w <= length buf)%nat.
Proof. intros (pre&post&->&<-). rewrite !length_app. lia. Qed.

Lemma at_read p w : has_at buf p w -> read_n buf p (length w) = Some w.
Proof. intros (pre&post&->&<-). apply read_n_mid. Qed.

Lemma at_drop p w : has_at buf p w -> exists post, drop p buf = w ++ post.
Proof. intros (pre&post&->&<-). exists post. by rewrite drop_app_length. Qed.

Lemma at_skip_stop p c : buf !! p = Some c -> c <> SP -> skip_while buf p SP = Some p.
Proof.
  intros Hc Hn. destruct (skip_while_stop buf p SP p c) as (q&Hq&?); [done..|].
  rewrite Hq. f_equal. lia.
Qed.

Lemma at_skip p c :
  buf !! p = Some SP -> buf !! (p + 1)%nat = Some c -> c <> SP ->
  skip_while buf p SP = Some (p + 1)%nat.
Proof.
  intros Hp Hc Hn. pose proof (at_skip_stop _ _ Hc Hn) as H.
  unfold skip_while in *. rewrite (drop_S _ SP p Hp). cbn.
  rewrite Nat.add_1_r in H. destruct (skip_eq SP (drop (S p) buf)); [|done].
  injection H as H. cbn. rewrite decide_True by done. cbn. f_equal. lia.
Qed.

Lemma at_word p w :
  word w -> has_at buf p w -> exists c, buf !! p = Some c /\ c <> SP /\ c <> CR.
Proof.
  intros (Hw&Hs&Hc&_) H. destruct w as [|c w]; [done|]. apply at_cons in H as [H _].
  exists c. split_and!; [done|set_solver..].
Qed.

Lemma at_memchr_mid p w e :
  has_at buf p (w ++ [SP]) -> SP ∉ w -> (p + length w < e <= length buf)%nat ->
  memchr buf p SP e = Some (Some (p + length w)%nat).
Proof.
  intros H Hn He. destruct (at_drop _ _ H) as [post Hd]. unfold memchr.
  rewrite decide_True by lia. rewrite Hd, <- app_assoc. cbn [app].
  rewrite take_app, take_ge by lia.
  replace (e - p - length w)%nat with (S (e - p - length w - 1)) by lia. cbn [take].
  rewrite find_byte_mid by done. done.
Qed.

Lemma at_memchr_end p w :
  has_at buf p w -> SP ∉ w -> memchr buf p SP (p + length w) = Some None.
Proof.
  intros H Hn. pose proof (at_bound _ _ H). destruct (at_drop _ _ H) as [post Hd].
  unfold memchr. rewrite decide_True by lia. rewrite Hd.
  replace (p + length w - p)%nat with (length w) by lia.
  rewrite take_app_length. by apply find_byte_None in Hn as ->.
Qed.

(** A decimal number followed by a separator. *)
Lemma at_to_uint max p n d :
  has_at buf p (to_string n ++ [d]) -> d = SP \/ d = CR ->
  0 <= n <= max -> n < ULLONG_MAX -> to_uint ck buf max p = Some (n, true).
Proof.
  intros H Hd Hn Hmax. destruct (at_drop _ _ H) as [post Hp]. unfold to_uint.
  rewrite Hp, <- app_assoc. cbn [app].
  rewrite strtoull_to_string by (try lia; by destruct Hd as [-> | ->]).
  cbn [mbind option_bind st_value st_end st_erange].
  destruct (to_string_spec n) as (Hne&_&_); [lia|].
  rewrite (proj2 (Nat.eqb_neq (length (to_string n)) 0)), andb_false_r
    by (by destruct (to_string n)).
  rewrite (proj2 (Z.eqb_neq n ULLONG_MAX)) by lia. cbn [andb].
  apply at_app in H as [_ H]. apply at_cons in H as [H _].
  unfold deref. rewrite H. cbn [mbind option_bind].
  replace (n >? max) with false by lia.
  by destruct Hd as [-> | ->].
Qed.

(** The part of a line after a word: nothing, or something that starts with SP. *)
Definition tail_ok (tl : bytes) : Prop := tl = [] \/ head tl = Some SP.

(** The steps that read a word preceded by SP, in a line that ends with CR at [e]. *)
Lemma at_field p w tl e :
  word w -> tail_ok tl -> has_at buf p (SP :: w ++ tl ++ [CR]) ->
  e = (p + 1 + length w + length tl)%nat ->
  skip_while buf p SP = Some (p + 1)%nat /\ (p + 1)%nat <> e /\
  memchr buf (p + 1) SP e =
    Some (if decide (tl = []) then None else Some (p + 1 + length w)%nat) /\
  has_at buf (p + 1 + length w) (tl ++ [CR]).
Proof.
  intros Hw Htl H ->. pose proof (at_bound _ _ H) as Hlen. cbn in Hlen.
  rewrite !length_app in Hlen. cbn in Hlen.
  apply at_cons in H as [Hp H]. apply at_app in H as [H Ht].
  destruct (at_word _ _ Hw H) as (c&Hc&Hs&Hcr).
  split; [by eapply at_skip|].
  assert (0 < length w)%nat by (destruct Hw as [Hw _]; destruct w; [done|cbn; lia]).
  destruct Hw as (_&Hn&_). split_and!; [lia| |done]. case_decide as Hd.
  - subst tl. cbn [length]. rewrite Nat.add_0_r. by apply at_memchr_end.
  - destruct Htl as [|Htl]; [done|]. destruct tl as [|d tl]; [done|].
    injection Htl as ->. apply at_memchr_mid; [|done|cbn in *; lia].
    apply at_app. split; [done|]. apply at_single.
    cbn [app] in Ht. by apply at_cons in Ht as [? _].
Qed.

Lemma default_end (tl : bytes) p e :
  e = (p + length tl)%nat -> default e (if decide (tl = []) then None else Some p) = p.
Proof. intros ->. case_decide as H; cbn; [subst; cbn; lia|done]. Qed.

Lemma word_to_string n : 0 <= n -> word (to_string n).
Proof.
  intros Hn. destruct (to_string_spec n Hn) as (H1&H2&_).
  split; [done|]. split_and!; intros Hin; rewrite Forall_forall in H2;
    by specialize (H2 _ Hin).
Qed.

Lemma at_number max p n tl :
  0 <= n <= max -> n < ULLONG_MAX -> tail_ok tl ->
  has_at buf p (SP :: to_string n ++ tl ++ [CR]) ->
  to_uint ck buf max (p + 1) = Some (n, true).
Proof.
  intros Hn Hm Ht H. apply at_cons in H as [_ H]. apply at_app in H as [H1 H2].
  apply (at_to_uint _ _ _ (default CR (head tl))); [|by destruct Ht as [-> | ->]; cbn; auto|done..].
  apply at_app. split; [done|]. apply at_single.
  destruct tl as [|d tl]; [by apply at_single|]. by apply (at_cons _ d) in H2 as [? _].
Qed.

(** The optional [noreply] at the end of a line. *)
Definition noreply_word (b : bool) : bytes := if b then lit " noreply" else [].

Lemma at_noreply b nr r :
  has_at buf b (noreply_word nr ++ [CR]) ->
  parse_noreply buf b (b + length (noreply_word nr)) r =
    Some ((if nr then set_no_reply true r else r), true).
Proof.
  intros H. apply at_app in H as [H Hcr]. apply at_single in Hcr.
  assert (skip_while buf (b + length (noreply_word nr)) SP =
    Some (b + length (noreply_word nr))%nat) as Hskip by (by eapply at_skip_stop).
  unfold parse_noreply. destruct nr; cbn [noreply_word] in *.
  - change (lit " noreply") with (SP :: lit "noreply") in *. apply at_cons in H as [Hb H].
    replace (b + length (SP :: lit "noreply"))%nat with (b + 8)%nat in * by done.
    destruct (at_field b (lit "noreply") [] (b + 8)) as (H1&H2&H3&_).
    + by apply (bool_decide_unpack _).
    + by left.
    + apply at_cons. split; [done|]. apply at_app. split; [done|]. apply at_single.
      by replace (b + 1 + length (lit "noreply"))%nat with (b + 8)%nat by (cbn; lia).
    + cbn. lia.
    + rewrite H1. cbn [mbind option_bind]. rewrite decide_True by done. rewrite H3.
      rewrite decide_True by done. cbn [mbind option_bind]. rewrite decide_False by lia.
      unfold memeq. rewrite (at_read _ _ H). cbn [mbind option_bind].
      rewrite bool_decide_eq_true_2 by done. cbn [negb mbind option_bind].
      rewrite Hskip. cbn [mbind option_bind]. by rewrite decide_False by tauto.
  - cbn [length] in *. rewrite Nat.add_0_r in *. rewrite Hskip. cbn [mbind option_bind].
    rewrite decide_False by tauto. cbn [mbind option_bind negb]. rewrite Hskip.
    cbn [mbind option_bind]. by rewrite decide_False by tauto.
Qed.
End at_.

(** ** Storage commands *)

Record storage := {
  sc_word : bytes; sc_command : text_command; sc_is_cas : bool;
  sc_key : bytes; sc_flags : Z; sc_exptime : Z; sc_cas : Z; sc_noreply : bool;
  sc_data : bytes
}.

(** What a client may send. *)
Record storage_wf (s : storage) : Prop := {
  wf_word : (sc_word s, sc_command s, sc_is_cas s) ∈
    [(lit "set", SET, false); (lit "add", ADD, false); (lit "replace", REPLACE, false);
     (lit "append", APPEND, false); (lit "prepend", PREPEND, false); (lit "cas", CAS, true)];
  wf_key : word (sc_key s);
  wf_flags : 0 <= sc_flags s < 2 ^ 32;
  wf_exptime : 0 <= sc_exptime s < 2 ^ 63;
  wf_cas : 0 <= sc_cas s < ULLONG_MAX;
  wf_data : blen (sc_data s) < 2 ^ 32
}.

Definition cas_word (s : storage) : bytes :=
  if sc_is_cas s then SP :: to_string (sc_cas s) else [].

Definition storage_args (s : storage) : bytes :=
  SP :: sc_key s ++ SP :: to_string (sc_flags s) ++ SP :: to_string (sc_exptime s) ++
  SP :: to_string (blen (sc_data s)) ++ cas_word s ++ noreply_word (sc_noreply s).

Definition print_storage (s : storage) : bytes :=
  sc_word s ++ storage_args s ++ [CR; LF] ++ sc_data s ++ [CR; LF].

(** The request that [print_storage s] stands for: the positions are those of the
    key and of the data in it. *)
Definition storage_request (ck : clock) (s : storage) : text_request := {|
  m_request_len := length (print_storage s);
  m_command := sc_command s;
  m_valid := true;
  m_no_reply := sc_noreply s;
  m_key := Some (length (sc_word s) + 1, length (sc_key s))%nat;
  m_flags := sc_flags s;
  m_exptime := if sc_exptime s =? 0 then 0 else absolute_time ck (sc_exptime s);
  m_cas_unique := if sc_is_cas s then sc_cas s else 0;
  m_data := Some (length (sc_word s) + length (storage_args s) + 2, length (sc_data s))%nat;
  m_value := 0;
  m_verbosity := sev_info;
  m_stats := GENERAL
|}.

Section storage.
Context (ck : clock) (buf : bytes) (s : storage).
Hypothesis wf : storage_wf s.

#[local] Hint Rewrite @length_app @length_cons @length_nil : yrmcds_len.

Lemma tail_ok_cons w : tail_ok (SP :: w).
Proof. by right. Qed.
Lemma tail_ok_noreply : tail_ok (noreply_word (sc_noreply s)).
Proof. destruct (sc_noreply s); [by right|by left]. Qed.
Lemma tail_ok_cas : tail_ok (cas_word s ++ noreply_word (sc_noreply s)).
Proof. unfold cas_word. destruct (sc_is_cas s); [by right|apply tail_ok_noreply]. Qed.

(** Read one field of the line in the goal, with the facts [Hf] about it. *)
Tactic Notation "field" constr(Hf) "as" ident(Hn) :=
  let H1 := fresh in let H2 := fresh in let H3 := fresh in
  destruct Hf as (H1&H2&H3&Hn); rewrite H1; cbn [mbind option_bind];
  rewrite (decide_False (P := _ = _)) by exact H2; rewrite H3; rewrite ?decide_False by done;
  cbn [mbind option_bind]; clear H1 H2 H3.

Ltac len := autorewrite with yrmcds_len; lia.

Lemma parse_storage_at b r :
  has_at buf b (storage_args s ++ [CR]) ->
  parse_storage ck buf b (b + length (storage_args s)) (sc_is_cas s) r =
  parse_storage_data buf (b + length (storage_args s)) (blen (sc_data s))
    (let r := set_flags (sc_flags s) (set_key (Some (b + 1, length (sc_key s))%nat) r) in
     let r := if sc_exptime s =? 0 then r else set_exptime (absolute_time ck (sc_exptime s)) r in
     let r := if sc_is_cas s then set_cas_unique (sc_cas s) r else r in
     if sc_noreply s then set_no_reply true r else r).
Proof.
  destruct wf as [_ Hkey Hflags Hexp Hcas Hdata].
  pose proof (blen_nonneg (sc_data s)) as Hd0.
  assert (0 <= sc_flags s <= UINT32_MAX /\ sc_flags s < ULLONG_MAX) as [Hf1 Hf2]
    by (unfold UINT32_MAX, ULLONG_MAX; lia).
  assert (0 <= sc_exptime s <= TIME_MAX /\ sc_exptime s < ULLONG_MAX) as [Hx1 Hx2]
    by (unfold TIME_MAX, ULLONG_MAX; lia).
  assert (0 <= blen (sc_data s) <= UINT32_MAX /\ blen (sc_data s) < ULLONG_MAX) as [Hn1 Hn2]
    by (unfold UINT32_MAX, ULLONG_MAX; lia).
  assert (0 <= sc_cas s <= UINT64_MAX) as Hc1 by (unfold UINT64_MAX, ULLONG_MAX in *; lia).
  intros H. remember (b + length (storage_args s))%nat as e eqn:He.
  unfold storage_args in H, He. cbn [app] in H. rewrite <- app_assoc in H.
  autorewrite with yrmcds_len in He.
  unfold parse_storage.
  assert (forall p w tl, has_at buf p (SP :: w ++ tl ++ [CR]) ->
    e = (p + 1 + length w + length tl)%nat -> word w -> tail_ok tl -> _)
    as Hfield by (intros p w tl H1 H2 H3 H4; exact (at_field buf p w tl e H3 H4 H1 H2)).
  field (Hfield _ _ _ H ltac:(len) Hkey (tail_ok_cons _)) as Hf.
  cbn [app] in Hf. rewrite <- app_assoc in Hf.
  field (Hfield _ _ _ Hf ltac:(len) (word_to_string _ (proj1 Hflags)) (tail_ok_cons _)) as Hx.
  rewrite (at_number ck buf _ _ _ _ Hf1 Hf2 (tail_ok_cons _) Hf).
  cbn [mbind option_bind negb]. cbn [app] in Hx. rewrite <- app_assoc in Hx.
  field (Hfield _ _ _ Hx ltac:(len) (word_to_string _ (proj1 Hexp)) (tail_ok_cons _)) as Hn.
  rewrite (at_number ck buf _ _ _ _ Hx1 Hx2 (tail_ok_cons _) Hx).
  cbn [mbind option_bind negb]. cbn [app] in Hn. rewrite <- app_assoc in Hn.
  destruct (Hfield _ _ _ Hn ltac:(len) (word_to_string _ Hd0) tail_ok_cas) as (H1&H2&H3&Hc).
  rewrite H1. cbn [mbind option_bind]. rewrite decide_False by done.
  rewrite (at_number ck buf _ _ _ _ Hn1 Hn2 tail_ok_cas Hn).
  cbn [mbind option_bind negb]. rewrite H3. cbn [mbind option_bind].
  rewrite default_end by len. clear H1 H2 H3 H Hf Hx Hn.
  rewrite <- app_assoc in Hc.
  match type of Hc with has_at _ ?p _ => remember p as q eqn:Hq end.
  replace (b + 1 + length (sc_key s) - (b + 1))%nat with (length (sc_key s)) by lia.
  match goal with |- context [if sc_exptime s =? 0 then ?x else ?y] =>
    set (r1 := if sc_exptime s =? 0 then x else y) end.
  assert (forall r q', has_at buf q' (noreply_word (sc_noreply s) ++ [CR]) ->
    e = (q' + length (noreply_word (sc_noreply s)))%nat ->
    parse_noreply buf q' e r = Some ((if sc_noreply s then set_no_reply true r else r), true))
    as Hnr by (intros r' q' Ha ->; by apply at_noreply).
  unfold cas_word in Hc, He. destruct (sc_is_cas s); cbn [mbind option_bind negb app length] in *.
  - destruct (Hfield _ _ _ Hc ltac:(len) (word_to_string _ (proj1 Hcas)) tail_ok_noreply)
      as (H1&H2&H3&Ha).
    rewrite H1. cbn [mbind option_bind]. rewrite decide_False by done.
    rewrite (at_number ck buf _ _ _ _ Hc1 (proj2 Hcas) tail_ok_noreply Hc).
    cbn [mbind option_bind negb]. rewrite H3. cbn [mbind option_bind negb].
    rewrite default_end by len. by rewrite (Hnr _ _ Ha) by len.
  - by rewrite (Hnr _ _ Hc) by len.
Qed.

Lemma parse_storage_data_at e d r :
  has_at buf e ([CR; LF] ++ d ++ [CR; LF]) ->
  parse_storage_data buf e (blen d) r =
    Some (set_valid true (set_data (Some (e + 2, length d)%nat)
            (set_request_len (e + 2 + length d + 2) r))).
Proof.
  intros H. pose proof (at_bound _ _ _ H) as Hlen.
  autorewrite with yrmcds_len in Hlen.
  apply (at_app _ _ [CR; LF]) in H as [_ H]. apply at_app in H as [_ H].
  apply at_cons in H as [H1 H2]. apply at_single in H2. cbn [length] in *.
  unfold parse_storage_data, blen. cbv zeta.
  destruct (Z.ltb_spec (Z.of_nat (length buf)) (Z.of_nat (e + 2) + Z.of_nat (length d) + 2));
    [lia|].
  rewrite Nat2Z.id. unfold deref. rewrite H1. cbn [mbind option_bind].
  rewrite bool_decide_eq_true_2 by done. cbn [negb]. rewrite H2. cbn [mbind option_bind].
  by rewrite bool_decide_eq_true_2 by done.
Qed.

Lemma storage_args_line : LF ∉ storage_args s /\ tail_ok (storage_args s).
Proof.
  destruct wf as [_ Hkey Hflags Hexp Hcas Hdata]. split; [|by right].
  assert (forall n, 0 <= n -> LF ∉ to_string n) as Hn by (intros n H; by apply word_to_string).
  pose proof (blen_nonneg (sc_data s)).
  unfold storage_args, cas_word. destruct Hkey as (_&_&_&Hkey).
  assert (LF ∉ noreply_word (sc_noreply s)) by (by destruct (sc_noreply s); vm_compute; set_solver).
  rewrite !not_elem_of_cons, !not_elem_of_app.
  destruct (sc_is_cas s); rewrite ?not_elem_of_cons, ?not_elem_of_app;
    split_and!; try done; try apply Hn; try lia; set_solver.
Qed.
End storage.

(** ** A whole request line *)

Lemma text_parse_line ck buf w args rest c f :
  buf = w ++ args ++ [CR; LF] ++ rest -> word w -> tail_ok args -> LF ∉ args ->
  text_dispatch ck buf w = Some (c, f) ->
  text_parse ck buf =
    f (length w) (length w + length args)%nat
      (set_command c (set_request_len (length w + length args + 2) text_request_init)).
Proof.
  intros Hbuf Hw Hargs Hlf Hd. pose proof Hw as (Hne&Hs&Hc&Hl).
  assert (find_byte LF buf = Some (length w + length args + 1)%nat) as Heol.
  { rewrite Hbuf. replace (w ++ args ++ [CR; LF] ++ rest)
      with ((w ++ args ++ [CR]) ++ LF :: rest) by (by rewrite <- !app_assoc).
    rewrite find_byte_mid by (rewrite !not_elem_of_app; split_and!; [done..|set_solver]).
    rewrite !length_app. f_equal. cbn. lia. }
  assert (has_at buf 0 (w ++ args ++ [CR])) as H.
  { exists [], (LF :: rest). by rewrite Hbuf, <- !app_assoc. }
  pose proof (at_bound _ _ _ H) as Hlen. rewrite !length_app in Hlen. cbn in Hlen.
  apply at_app in H as [H0 H]. pose proof (proj1 (at_app _ _ _ _) H) as [Ha Hcr].
  apply at_single in Hcr. cbn in H, Ha, Hcr.
  unfold text_parse. rewrite memchr_whole, Heol. cbn [mbind option_bind].
  rewrite decide_False by lia.
  replace (length w + length args + 1 - 1)%nat with (length w + length args)%nat by lia.
  unfold deref. rewrite Hcr. cbn [mbind option_bind].
  rewrite bool_decide_eq_true_2 by done. cbn [negb].
  destruct (at_word _ _ _ Hw H0) as (c0&Hc0&Hs0&_).
  rewrite (at_skip_stop _ _ _ Hc0 Hs0). cbn [mbind option_bind].
  assert (memchr buf 0 SP (length w + length args) =
    Some (if decide (args = []) then None else Some (length w))) as Hmem.
  { case_decide as Hd'.
    - subst args. rewrite Nat.add_0_r. by apply (at_memchr_end buf 0).
    - destruct Hargs as [|Hh]; [done|]. destruct args as [|d args]; [done|].
      injection Hh as ->. apply (at_memchr_mid buf 0); [|done|cbn in *; lia].
      apply at_app. split; [done|]. apply at_single. cbn [app] in H.
      by apply at_cons in H as [? _]. }
  rewrite Hmem. cbn [mbind option_bind]. rewrite default_end by lia.
  rewrite Nat.sub_0_r, (at_read _ _ _ H0). cbn [mbind option_bind]. rewrite Hd.
  by replace (length w + length args + 1 + 1)%nat with (length w + length args + 2)%nat by lia.
Qed.

Lemma storage_dispatch ck buf s :
  storage_wf s -> word (sc_word s) /\
  text_dispatch ck buf (sc_word s) =
    Some (sc_command s, fun b e => parse_storage ck buf b e (sc_is_cas s)).
Proof.
  intros [Hw _ _ _ _ _]. destruct s as [w c ic ? ? ? ? ? ?]; cbn in *.
  repeat (apply elem_of_cons in Hw as [[= -> -> ->]|Hw];
    [split; [by apply (bool_decide_unpack _)|done]|]).
  by apply elem_of_nil in Hw.
Qed.

Lemma text_storage_roundtrip ck s rest :
  storage_wf s -> text_parse ck (print_storage s ++ rest) = Some (storage_request ck s).
Proof.
  intros wf. unfold print_storage.
  set (buf := (sc_word s ++ storage_args s ++ [CR; LF] ++ sc_data s ++ [CR; LF]) ++ rest).
  destruct (storage_dispatch ck buf s wf) as [Hw Hd].
  destruct (storage_args_line s wf) as [Hlf Htl].
  assert (buf = sc_word s ++ storage_args s ++ [CR; LF] ++ sc_data s ++ [CR; LF] ++ rest)
    as Hbuf by (by unfold buf; rewrite <- !app_assoc).
  rewrite (text_parse_line ck buf _ _ _ _ _ Hbuf Hw Htl Hlf Hd).
  assert (has_at buf (length (sc_word s)) (storage_args s ++ [CR; LF] ++ sc_data s ++ [CR; LF]))
    as H.
  { exists (sc_word s), rest. split; [|done]. by rewrite Hbuf, <- !app_assoc. }
  apply at_app in H as [Ha Hdata].
  assert (has_at buf (length (sc_word s)) (storage_args s ++ [CR])) as Hline.
  { apply at_app. split; [done|]. cbn [app] in Hdata. apply at_cons in Hdata as [? _].
    by apply at_single. }
  rewrite (parse_storage_at ck buf s wf _ _ Hline).
  rewrite parse_storage_data_at by done. f_equal.
  unfold storage_request, print_storage. rewrite !length_app. cbn [length].
  set (n := length (storage_args s)). clearbody n.
  unfold set_valid, set_data, set_request_len.
  destruct (sc_exptime s =? 0), (sc_is_cas s) eqn:E1, (sc_noreply s) eqn:E2; cbn;
    rewrite ?E1, ?E2; f_equal; lia.
Qed.

(** ** Retrieval commands *)

Definition key_words (ks : list bytes) : bytes := ks ≫= fun k => SP :: k.

Definition print_get (gets : bool) (ks : list bytes) : bytes :=
  (if gets then lit "gets" else lit "get") ++ key_words ks ++ [CR; LF].

Lemma key_words_line ks : Forall word ks -> LF ∉ key_words ks /\ CR ∉ key_words ks /\ tail_ok (key_words ks).
Proof.
  intros Hk. split_and!; [| |destruct ks; [by left|by right]];
    induction Hk as [|k ks (_&_&?&?) _ IH]; cbn; set_solver.
Qed.

Lemma key_words_length ks : (length ks <= length (key_words ks))%nat.
Proof. induction ks as [|k ks IH]; cbn; [lia|]. rewrite length_app. unfold key_words in IH. lia. Qed.

Lemma at_find_byte buf p w c : has_at buf p (w ++ [c]) -> c ∉ w ->
  find_byte c (drop p buf) = Some (length w).
Proof.
  intros H Hn. destruct (at_drop _ _ _ H) as [post Hd]. rewrite Hd, <- app_assoc.
  by apply find_byte_mid.
Qed.

(** The first of the keys that start at [p]. *)
Lemma next_key_at buf p n k ks :
  Forall word (k :: ks) -> has_at buf (p + n) (key_words (k :: ks) ++ [CR]) ->
  next_key buf (Some (p, n)) = Some (Some (p + n + 1, length k)%nat) /\
  has_at buf (p + n + 1) k /\ has_at buf (p + n + 1 + length k) (key_words ks ++ [CR]).
Proof.
  intros Hk H. apply Forall_cons in Hk as [Hk Hks].
  destruct (key_words_line ks Hks) as (_&Hcr&Htl).
  cbn [key_words mbind list_bind app] in H. fold (key_words ks) in H.
  rewrite <- app_assoc in H.
  assert (has_at buf (p + n + 1) (k ++ key_words ks ++ [CR])) as H' by (by apply at_cons in H as [_ ?]).
  destruct (at_field buf _ _ _ _ Hk Htl H eq_refl) as (H1&H2&H3&H4).
  split_and!; [|by apply at_app in H' as [? _]|done].
  unfold next_key. rewrite H1. cbn [mbind option_bind].
  rewrite app_assoc in H'. rewrite (at_find_byte _ _ _ _ H')
    by (rewrite not_elem_of_app; split; [by apply Hk|done]).
  cbn [mbind option_bind]. rewrite length_app.
  replace (p + n + 1 + (length k + length (key_words ks)))%nat
    with (p + n + 1 + length k + length (key_words ks))%nat by lia.
  rewrite decide_False by done. rewrite H3. cbn [mbind option_bind].
  rewrite default_end by done. repeat f_equal. lia.
Qed.

Lemma next_key_end buf p n : has_at buf (p + n) [CR] -> next_key buf (Some (p, n)) = Some None.
Proof.
  intros H. pose proof (at_find_byte buf (p + n) [] CR H ltac:(set_solver)) as Hf.
  apply at_single in H. unfold next_key. rewrite (at_skip_stop _ _ _ H) by done.
  cbn [mbind option_bind]. rewrite Hf. cbn [mbind option_bind].
  by rewrite decide_True by (cbn; lia).
Qed.

Lemma has_at_bytes buf p w : has_at buf p w -> item_bytes buf (Some (p, length w)) = w.
Proof. intros H. apply at_read, read_n_Some in H as [_ H]. by cbn. Qed.

Lemma key_loop_at buf p k ks fuel :
  Forall word (k :: ks) -> (length ks + 1 < fuel)%nat ->
  has_at buf p k -> has_at buf (p + length k) (key_words ks ++ [CR]) ->
  exists its, key_loop buf fuel (Some (p, length k)) = Some its /\
    item_bytes buf <$> its = k :: ks.
Proof.
  revert p k fuel. induction ks as [|k' ks IH]; intros p k [|f] Hk Hf Hp H; [cbn in *; lia| |lia|].
  - cbn [key_loop]. rewrite next_key_end by done. cbn [mbind option_bind].
    destruct f; [cbn in *; lia|]. cbn. eexists. split; [done|]. cbn. f_equal.
    by apply (has_at_bytes buf).
  - cbn [key_loop]. destruct (next_key_at buf p (length k) k' ks) as (H1&H2&H3);
      [by apply Forall_cons in Hk as [_ ?]|done|].
    rewrite H1. cbn [mbind option_bind].
    destruct (IH (p + length k + 1)%nat k' f) as (its&H4&H5);
      [by apply Forall_cons in Hk as [_ ?]|cbn in *; lia|done|done|].
    rewrite H4. eexists. split; [done|]. cbn. f_equal; [by apply (has_at_bytes buf)|done].
Qed.

Lemma text_get_roundtrip ck gets k ks rest :
  let buf := print_get gets (k :: ks) ++ rest in
  Forall word (k :: ks) ->
  exists r its, text_parse ck buf = Some r /\
    m_valid r = true /\ m_command r = (if gets then GETS else GET) /\
    m_request_len r = length (print_get gets (k :: ks)) /\
    key_loop buf (S (length buf)) (m_key r) = Some its /\ item_bytes buf <$> its = k :: ks.
Proof.
  intros buf Hk. set (w := if gets then lit "gets" else lit "get").
  destruct (key_words_line _ Hk) as (Hlf&Hcr&Htl).
  assert (buf = w ++ key_words (k :: ks) ++ [CR; LF] ++ rest) as Hbuf
    by (unfold buf, print_get; by rewrite <- !app_assoc).
  assert (word w) as Hw by (destruct gets; by apply (bool_decide_unpack _)).
  assert (text_dispatch ck buf w = Some ((if gets then GETS else GET), parse_get buf)) as Hd
    by (by destruct gets).
  rewrite (text_parse_line ck buf _ _ _ _ _ Hbuf Hw Htl Hlf Hd).
  assert (has_at buf (length w) (key_words (k :: ks) ++ [CR])) as H.
  { exists w, (LF :: rest). by rewrite Hbuf, <- !app_assoc. }
  pose proof (at_bound _ _ _ H) as Hlen. rewrite length_app in Hlen. cbn [length] in Hlen.
  pose proof (proj1 (Forall_cons _ _ _) Hk) as [Hk1 Hks].
  destruct (key_words_line _ Hks) as (_&_&Htl').
  cbn [key_words mbind list_bind app] in H. fold (key_words ks) in H.
  rewrite <- app_assoc in H.
  assert (has_at buf (length w + 1) k) as Hkey
    by (apply at_cons in H as [_ H]; by apply at_app in H as [? _]).
  assert (length w + length (key_words (k :: ks)) =
    length w + 1 + length k + length (key_words ks))%nat as Hl
    by (cbn; rewrite length_app; unfold key_words; lia).
  destruct (at_field buf _ _ _ _ Hk1 Htl' H Hl) as (H1&H2&H3&H4).
  destruct (key_loop_at buf (length w + 1) k ks (S (length buf)) Hk) as (its&H5&H6);
    [pose proof (key_words_length ks); lia|done|done|].
  unfold parse_get. rewrite H1. cbn [mbind option_bind]. rewrite decide_False by done.
  rewrite H3. cbn [mbind option_bind]. rewrite default_end by lia.
  eexists _, its. split; [done|].
  replace (length w + 1 + length k - (length w + 1))%nat with (length k) by lia.
  split_and!; try done. cbn [m_request_len set_valid set_key set_command set_request_len].
  unfold print_get. rewrite !length_app. fold w. cbn [length]. lia.
Qed.

Lemma item_at buf p w : has_at buf p w -> item_bytes buf (Some (p, length w)) = w.
Proof.
  intros H. destruct (at_drop _ _ _ H) as [post Hd]. unfold item_bytes.
  by rewrite Hd, take_app_length.
Qed.

(** The items of a parsed storage command are the key and the data sent. *)
Lemma storage_items ck s rest :
  item_bytes (print_storage s ++ rest) (m_key (storage_request ck s)) = sc_key s /\
  item_bytes (print_storage s ++ rest) (m_data (storage_request ck s)) = sc_data s.
Proof.
  assert (has_at (print_storage s ++ rest) 0 (print_storage s)) as Hb by (by exists [], rest).
  unfold print_storage at 2 in Hb. apply at_app in Hb as [_ Hb]. apply at_app in Hb as [Hk Hb].
  apply at_app in Hb as [_ Hd]. apply at_app in Hd as [Hd _].
  unfold storage_args in Hk. apply at_cons in Hk as [_ Hk]. apply at_app in Hk as [Hk _].
  cbn [Nat.add length] in Hk, Hd. cbn [storage_request m_key m_data].
  by rewrite (item_at _ _ _ Hk), (item_at _ _ _ Hd).
Qed.
