(* ===== verification/BinaryRequest.v ===== *)
(** * The binary request parser (class binary_request of src/memcache)

    [binary_request::parse] of src/memcache/memcache.cpp.  As in the text parser,
    [None] is a read at or past the end of the receive buffer.  The members that
    have no initialiser in the class start with an arbitrary value, an argument of
    the parser. *)

From S2P Require Import Prelude CLib MemTypes TextRequest.

Definition BINARY_HEADER_SIZE : nat := 24.
(** [(std::time_t)-1]. *)
Definition EXPTIME_NONE : Z := -1.

Record binary_request := {
  b_request_len : nat;
  b_status : binary_status;
  b_command : binary_command;
  b_quiet : bool;
  b_key : item;
  b_cas_unique : Z;
  b_flags : Z;
  b_exptime : Z;
  b_data : item;
  b_value : Z;
  b_initial : Z;
  b_stats : stats_t
}.

(** What the memory of the uninitialised members holds. *)
Record uninit := { u_command : binary_command; u_quiet : bool; u_cas_unique : Z }.

(** The member initialisers. *)
Definition binary_request_init (u : uninit) : binary_request := {|
  b_request_len := 0; b_status := Invalid; b_command := u_command u;
  b_quiet := u_quiet u; b_key := None; b_cas_unique := u_cas_unique u; b_flags := 0;
  b_exptime := 0; b_data := None; b_value := 0; b_initial := 0; b_stats := GENERAL |}.

(** Assignments to the members. *)
Definition bset_status (st : binary_status) (r : binary_request) : binary_request :=
  {| b_request_len := b_request_len r; b_status := st; b_command := b_command r;
     b_quiet := b_quiet r; b_key := b_key r; b_cas_unique := b_cas_unique r;
     b_flags := b_flags r; b_exptime := b_exptime r; b_data := b_data r;
     b_value := b_value r; b_initial := b_initial r; b_stats := b_stats r |}.
Definition bset_op (len : nat) (c : binary_command) (q : bool) (r : binary_request) : binary_request :=
  {| b_request_len := len; b_status := b_status r; b_command := c; b_quiet := q;
     b_key := b_key r; b_cas_unique := b_cas_unique r; b_flags := b_flags r;
     b_exptime := b_exptime r; b_data := b_data r; b_value := b_value r;
     b_initial := b_initial r; b_stats := b_stats r |}.
Definition bset_key (k : item) (r : binary_request) : binary_request :=
  {| b_request_len := b_request_len r; b_status := b_status r; b_command := b_command r;
     b_quiet := b_quiet r; b_key := k; b_cas_unique := b_cas_unique r;
     b_flags := b_flags r; b_exptime := b_exptime r; b_data := b_data r;
     b_value := b_value r; b_initial := b_initial r; b_stats := b_stats r |}.
Definition bset_cas (z : Z) (r : binary_request) : binary_request :=
  {| b_request_len := b_request_len r; b_status := b_status r; b_command := b_command r;
     b_quiet := b_quiet r; b_key := b_key r; b_cas_unique := z;
     b_flags := b_flags r; b_exptime := b_exptime r; b_data := b_data r;
     b_value := b_value r; b_initial := b_initial r; b_stats := b_stats r |}.
Definition bset_data (d : item) (r : binary_request) : binary_request :=
  {| b_request_len := b_request_len r; b_status := b_status r; b_command := b_command r;
     b_quiet := b_quiet r; b_key := b_key r; b_cas_unique := b_cas_unique r;
     b_flags := b_flags r; b_exptime := b_exptime r; b_data := d;
     b_value := b_value r; b_initial := b_initial r; b_stats := b_stats r |}.
Definition bset_flags (z : Z) (r : binary_request) : binary_request :=
  {| b_request_len := b_request_len r; b_status := b_status r; b_command := b_command r;
     b_quiet := b_quiet r; b_key := b_key r; b_cas_unique := b_cas_unique r;
     b_flags := z; b_exptime := b_exptime r; b_data := b_data r;
     b_value := b_value r; b_initial := b_initial r; b_stats := b_stats r |}.
Definition bset_exptime (z : Z) (r : binary_request) : binary_request :=
  {| b_request_len := b_request_len r; b_status := b_status r; b_command := b_command r;
     b_quiet := b_quiet r; b_key := b_key r; b_cas_unique := b_cas_unique r;
     b_flags := b_flags r; b_exptime := z; b_data := b_data r;
     b_value := b_value r; b_initial := b_initial r; b_stats := b_stats r |}.
Definition bset_value (v i : Z) (r : binary_request) : binary_request :=
  {| b_request_len := b_request_len r; b_status := b_status r; b_command := b_command r;
     b_quiet := b_quiet r; b_key := b_key r; b_cas_unique := b_cas_unique r;
     b_flags := b_flags r; b_exptime := b_exptime r; b_data := b_data r;
     b_value := v; b_initial := i; b_stats := b_stats r |}.
Definition bset_stats (s : stats_t) (r : binary_request) : binary_request :=
  {| b_request_len := b_request_len r; b_status := b_status r; b_command := b_command r;
     b_quiet := b_quiet r; b_key := b_key r; b_cas_unique := b_cas_unique r;
     b_flags := b_flags r; b_exptime := b_exptime r; b_data := b_data r;
     b_value := b_value r; b_initial := b_initial r; b_stats := s |}.

(** [m_quiet], from the order of the enumeration's values. *)
Definition quiet_of (c : binary_command) : bool :=
  let code := binary_command_code in
  bool_decide (c = GetQ) || bool_decide (c = GetKQ) ||
  ((code SetQ <=? code c) && (code c <=? code PrependQ)) ||
  bool_decide (c = GaTQ) || bool_decide (c = GaTKQ) ||
  ((code LockQ <=? code c) && (code c <=? code RaUQ) &&
   negb (Z.land (code c) 1 =? 0)).

Section parser.
Context (ck : clock) (u : uninit) (m_p : bytes).

(** [binary_exptime]. *)
Definition binary_exptime (p : nat) : option Z :=
  t ← ntoh 4 m_p p;
  if t =? 0 then Some 0 else
  if t =? 0xffffffff then Some EXPTIME_NONE else
  if t >? EXPTIME_THRESHOLD then Some t else
  Some (g_current_time ck + t).

(** The [switch] of [parse]: the checks and the extras of each command; [false]
    is the early return. *)
Definition binary_extras (extras_len key_len data_len : Z) (r : binary_request)
    : option (binary_request * bool) :=
  let p_extra := BINARY_HEADER_SIZE in
  match b_command r with
  | Get | GetQ | GetK | GetKQ | GaT | GaTQ | GaTK | GaTKQ | LaG | LaGQ | LaGK | LaGKQ =>
      if negb (extras_len =? 0) && negb (extras_len =? 4) then Some (r, false) else
      if (key_len =? 0) || (data_len >? 0) then Some (r, false) else
      if extras_len =? 4
      then t ← binary_exptime p_extra; Some (bset_exptime t r, true)
      else Some (bset_exptime EXPTIME_NONE r, true)
  | Set_ | SetQ | Add | AddQ | Replace | ReplaceQ | RaU | RaUQ =>
      if negb (extras_len =? 8) || (key_len =? 0) || (data_len =? 0) then Some (r, false) else
      fl ← ntoh 4 m_p p_extra;
      t ← binary_exptime (p_extra + 4);
      Some (bset_exptime t (bset_flags fl r), true)
  | Delete | DeleteQ =>
      if negb (extras_len =? 0) || (key_len =? 0) || (data_len >? 0)
      then Some (r, false) else Some (r, true)
  | Increment | IncrementQ | Decrement | DecrementQ =>
      if negb (extras_len =? 20) || (key_len =? 0) || (data_len >? 0) then Some (r, false) else
      v ← ntoh 8 m_p p_extra;
      i ← ntoh 8 m_p (p_extra + 8);
      t ← binary_exptime (p_extra + 16);
      Some (bset_exptime t (bset_value v i r), true)
  | Touch =>
      if (key_len =? 0) || negb (extras_len =? 4) || negb (data_len =? 0) then Some (r, false) else
      t ← binary_exptime p_extra;
      Some (bset_exptime t r, true)
  | Flush | FlushQ =>
      if negb (extras_len =? 0) && negb (extras_len =? 4) then Some (r, false) else
      if negb (key_len =? 0) || (data_len >? 0) then Some (r, false) else
      if extras_len =? 4
      then t ← binary_exptime p_extra; Some (bset_exptime t r, true)
      else Some (bset_exptime (g_current_time ck) r, true)
  | Append | AppendQ | Prepend | PrependQ =>
      if negb (extras_len =? 0) || (key_len =? 0) || (data_len =? 0)
      then Some (r, false) else Some (r, true)
  | Lock | LockQ | Unlock | UnlockQ =>
      if negb (extras_len =? 0) || (key_len =? 0) || (data_len >? 0)
      then Some (r, false) else Some (r, true)
  | Stat =>
      if negb (extras_len =? 0) || negb (data_len =? 0) then Some (r, false) else
      is_settings ← (if key_len =? 8 then memeq m_p p_extra (lit "settings") else Some false);
      if (is_settings : bool) then Some (bset_stats SETTINGS r, true) else
      if key_len =? 5 then
        is_items ← memeq m_p p_extra (lit "items");
        if (is_items : bool) then Some (bset_stats ITEMS r, true) else
        is_sizes ← memeq m_p p_extra (lit "sizes");
        if (is_sizes : bool) then Some (bset_stats SIZES r, true) else Some (r, true)
      else
        is_ops ← (if key_len =? 3 then memeq m_p p_extra (lit "ops") else Some false);
        if (is_ops : bool) then Some (bset_stats OPS r, true) else Some (r, true)
  | Keys =>
      if negb (extras_len =? 0) || (data_len >? 0) then Some (r, false) else Some (r, true)
  | Quit | QuitQ | Version | Noop | UnlockAll | UnlockAllQ => Some (r, true)
  | Unknown | BinOther _ =>
      Some (bset_status UnknownCommand
              (bset_op (b_request_len r) Unknown (b_quiet r) r), false)
  end.

(** [binary_request::parse]. *)
Definition binary_parse : option binary_request :=
  let r := binary_request_init u in
  if (length m_p <? BINARY_HEADER_SIZE)%nat then Some r else
  total_len ← ntoh 4 m_p 8;
  if blen m_p <? Z.of_nat BINARY_HEADER_SIZE + total_len then Some r else
  opcode ← deref m_p 1;
  let c := binary_command_of_byte opcode in
  let r := bset_op (BINARY_HEADER_SIZE + Z.to_nat total_len) c (quiet_of c) r in
  key_len ← ntoh 2 m_p 2;
  if key_len >? MAX_KEY_LENGTH then Some r else
  extras ← deref m_p 4;
  let extras_len := Zb extras in
  if total_len <? key_len + extras_len then Some r else
  let r := if key_len >? 0
           then bset_key (Some (BINARY_HEADER_SIZE + Z.to_nat extras_len, Z.to_nat key_len)%nat) r
           else r in
  cas ← ntoh 8 m_p 16;
  let r := bset_cas cas r in
  let data_len := total_len - key_len - extras_len in
  if data_len >? MAX_REQUEST_LENGTH then Some (bset_status TooLargeValue r) else
  let r := if data_len >? 0
           then bset_data (Some (BINARY_HEADER_SIZE + Z.to_nat extras_len + Z.to_nat key_len,
                                 Z.to_nat data_len)%nat) r
           else r in
  '(r, ok) ← binary_extras extras_len key_len data_len r;
  if negb ok then Some r else Some (bset_status OK r).

End parser.

(** [binary_request::opaque]: the four bytes at offset 12. *)
Definition opaque (m_p : bytes) : bytes := take 4 (drop 12 m_p).
