(* ===== verification/BinaryRequestSpec.v ===== *)
(** * Properties of the binary request parser *)

From S2P Require Import Prelude CLib MemTypes TextRequest TextRequestSpec BinaryRequest.

(** ** No read past the buffer, and bounds of the parsed request *)

(** What holds of every result of [parse] on a buffer. *)
Record binary_request_ok (buf : bytes) (r : binary_request) : Prop := {
  bok_len : (b_request_len r <= length buf)%nat;
  bok_header : b_request_len r = 0%nat \/ (24 <= b_request_len r)%nat;
  bok_key : forall p n, b_key r = Some (p, n) ->
    (24 <= p /\ 0 < n <= 250 /\ p + n <= b_request_len r)%nat;
  bok_data : forall p n, b_data r = Some (p, n) ->
    (24 <= p /\ 0 < n /\ p + n = b_request_len r)%nat /\ Z.of_nat n <= MAX_REQUEST_LENGTH;
  bok_flags : 0 <= b_flags r < 2 ^ 32;
  bok_value : 0 <= b_value r < 2 ^ 64;
  bok_initial : 0 <= b_initial r < 2 ^ 64;
  bok_status : b_status r = OK -> (24 <= b_request_len r)%nat /\ 0 <= b_cas_unique r < 2 ^ 64
}.

Section bounds.
Context (ck : clock) (u : uninit) (buf : bytes).

Lemma swp_ntoh n p :
  (p + n <= length buf)%nat ->
  swp True (ntoh n buf p) (fun z => 0 <= z < 2 ^ (8 * Z.of_nat n)).
Proof.
  intros H. split; [intros z; apply ntoh_range|]. intros _. by apply ntoh_in_bounds.
Qed.

Lemma swp_exptime p :
  (p + 4 <= length buf)%nat -> swp True (binary_exptime ck buf p) (fun _ => True).
Proof.
  intros H. unfold binary_exptime. eapply swp_bind; [by apply swp_ntoh|intros t _].
  repeat case_match; by apply swp_ret.
Qed.

Lemma swp_memeq_len p s :
  (p + length s <= length buf)%nat -> swp True (memeq buf p s) (fun _ => True).
Proof. intros H. split; [done|]. intros _. by apply memeq_in_bounds. Qed.

(** The request with its key, data and cas assigned, before the extras. *)
Definition body_ok (r : binary_request) : Prop :=
  binary_request_ok buf r /\ b_status r = Invalid /\ (24 <= b_request_len r)%nat /\
  0 <= b_cas_unique r < 2 ^ 64.

Lemma body_ok_exptime t r : body_ok r -> body_ok (bset_exptime t r).
Proof. by intros ([]&?&?&?); split; [constructor|]. Qed.
Lemma body_ok_flags z r : 0 <= z < 2 ^ 32 -> body_ok r -> body_ok (bset_flags z r).
Proof. by intros ? ([]&?&?&?); split; [constructor|]. Qed.
Lemma body_ok_value v i r :
  0 <= v < 2 ^ 64 -> 0 <= i < 2 ^ 64 -> body_ok r -> body_ok (bset_value v i r).
Proof. by intros ? ? ([]&?&?&?); split; [constructor|]. Qed.
Lemma body_ok_stats s r : body_ok r -> body_ok (bset_stats s r).
Proof. by intros ([]&?&?&?); split; [constructor|]. Qed.
#[local] Hint Resolve body_ok_exptime body_ok_flags body_ok_value body_ok_stats : yrmcds.

(** The ranges of [ntoh] as powers of two. *)
Ltac width :=
  cbv beta in *;
  change (2 ^ (8 * Z.of_nat 2)) with (2 ^ 16) in *;
  change (2 ^ (8 * Z.of_nat 4)) with (2 ^ 32) in *;
  change (2 ^ (8 * Z.of_nat 8)) with (2 ^ 64) in *.
Ltac bstep :=
  match goal with
  | |- swp _ (ntoh _ _ _ ≫= _) _ =>
      eapply swp_bind; [apply swp_ntoh; unfold BINARY_HEADER_SIZE; lia|intros ? ?; width]
  | |- swp _ (binary_exptime _ _ _ ≫= _) _ =>
      eapply swp_bind; [apply swp_exptime; unfold BINARY_HEADER_SIZE; lia|intros ? _]
  | |- swp _ (memeq _ _ _ ≫= _) _ =>
      eapply swp_bind; [apply swp_memeq_len; unfold BINARY_HEADER_SIZE; cbn; lia|intros [] _]
  | |- swp _ (Some _ ≫= _) _ => cbn [mbind option_bind]
  | |- swp _ ((if ?a =? ?b then _ else _) ≫= _) _ =>
      destruct (Z.eqb_spec a b); cbn [mbind option_bind]
  | |- swp _ (if ?a =? ?b then _ else _) _ => destruct (Z.eqb_spec a b)
  | |- swp _ (if ?b then _ else _) _ => destruct b eqn:?
  | |- swp _ (Some _) _ => apply swp_ret
  end.

(** The checks of the [switch] keep its reads inside the request body. *)
Lemma binary_extras_ok el kl dl r :
  body_ok r -> 0 <= el -> 0 <= kl -> 0 <= dl ->
  Z.of_nat (length buf) >= 24 + el + kl + dl ->
  swp True (binary_extras ck buf el kl dl r)
    (fun x => binary_request_ok buf x.1 /\ (x.2 = true -> body_ok x.1)).
Proof.
  intros Hr ? ? ? Hlen. unfold binary_extras.
  assert (binary_request_ok buf
    (bset_status UnknownCommand (bset_op (b_request_len r) Unknown (b_quiet r) r))) as Hu.
  { destruct Hr as ([]&?&?&?). by constructor. }
  assert (forall r b, body_ok r -> binary_request_ok buf (r, b).1 /\
    ((r, b).2 = true -> body_ok (r, b).1)) as Hb by (intros ? ? H'; split; [apply H'|done]).
  destruct (b_command r);
    repeat bstep; first [solve [apply Hb; cbn; auto 6 with yrmcds] | split; [exact Hu|done]].
Qed.

Lemma header_ok len c q :
  (24 <= len <= length buf)%nat ->
  binary_request_ok buf (bset_op len c q (binary_request_init u)).
Proof. intros H. constructor; cbn; try done; lia. Qed.

Lemma binary_parse_swp : swp True (binary_parse ck u buf) (binary_request_ok buf).
Proof.
  unfold binary_parse, BINARY_HEADER_SIZE.
  assert (binary_request_ok buf (binary_request_init u)) as H0
    by (constructor; cbn; try done; auto; lia).
  destruct (Nat.ltb_spec (length buf) 24); [by apply swp_ret|].
  bstep. destruct (Z.ltb_spec (blen buf) (Z.of_nat 24 + x)) as [|Hlen]; [by apply swp_ret|].
  unfold blen in Hlen.
  assert (forall p, (p < length buf)%nat -> swp True (deref buf p) (fun _ => True)) as Hdr
    by (intros p Hp; split; [done|intros _; by apply lookup_lt_is_Some_2]).
  eapply swp_bind; [apply Hdr; lia|intros opc _].
  pose proof (header_ok (24 + Z.to_nat x) (binary_command_of_byte opc)
    (quiet_of (binary_command_of_byte opc)) ltac:(lia)) as Hh.
  bstep. rewrite Z.gtb_ltb. destruct (Z.ltb_spec MAX_KEY_LENGTH x0) as [|Hkey]; [by apply swp_ret|].
  eapply swp_bind; [apply Hdr; lia|intros ext _]. pose proof (Zb_range ext) as Hext.
  destruct (Z.ltb_spec x (x0 + Zb ext)); [by apply swp_ret|].
  bstep. unfold MAX_KEY_LENGTH in Hkey. rename x into total, x0 into kl, x1 into cas.
  set (r0 := bset_op (24 + Z.to_nat total) _ _ _) in *.
  set (r1 := bset_cas cas _). set (dl := total - kl - Zb ext).
  assert (body_ok r1 /\ b_request_len r1 = 24 + Z.to_nat total)%nat as [Hr1 Hlen1].
  { subst r1 r0. destruct Hh. rewrite Z.gtb_ltb. destruct (Z.ltb_spec 0 kl).
    all: split; [split; [constructor; cbn in *; try done; try lia|cbn; split_and!; done || lia]|done].
    intros p n [= <- <-]. lia. }
  rewrite !Z.gtb_ltb. destruct (Z.ltb_spec MAX_REQUEST_LENGTH dl) as [|Hdl].
  { apply swp_ret. destruct Hr1 as ([]&?&?&?). by constructor. }
  set (r2 := if 0 <? dl then _ else r1).
  assert (body_ok r2) as Hr2.
  { subst r2. destruct (Z.ltb_spec 0 dl); [|done].
    clearbody r1. destruct Hr1 as ([]&?&?&?).
    split; [constructor; try done|cbn; tauto].
    cbn. intros p n [= <- <-]. rewrite Hlen1. unfold dl in *. lia. }
  eapply swp_bind; [apply binary_extras_ok; [done|lia..]|].
  intros [r ok] [Hx1 Hx2]; cbn in Hx1, Hx2. destruct ok; cbn [negb]; apply swp_ret; [|done].
  destruct (Hx2 eq_refl) as ([]&?&?&?). by constructor.
Qed.
End bounds.

(** ** Streaming: a complete request does not depend on what follows it *)

Section mono.
Context (ck : clock) (u : uninit) (buf rest : bytes).

Lemma ntoh_mono n p : ole_eq (ntoh n buf p) (ntoh n (buf ++ rest) p).
Proof. apply ole_bind; [apply read_n_mono|intros; apply ole_refl]. Qed.
#[local] Hint Resolve ntoh_mono deref_mono memeq_mono : ole.

Lemma binary_exptime_mono p :
  ole_eq (binary_exptime ck buf p) (binary_exptime ck (buf ++ rest) p).
Proof. unfold binary_exptime. ole_solve. Qed.
#[local] Hint Resolve binary_exptime_mono : ole.

Lemma binary_extras_mono el kl dl r :
  ole_eq (binary_extras ck buf el kl dl r) (binary_extras ck (buf ++ rest) el kl dl r).
Proof. unfold binary_extras. destruct (b_command r); ole_solve. Qed.
#[local] Hint Resolve binary_extras_mono : ole.

Lemma binary_parse_mono :
  ole (fun r => b_request_len r = 0%nat) (binary_parse ck u buf) (binary_parse ck u (buf ++ rest)).
Proof.
  unfold binary_parse. rewrite length_app, blen_app. pose proof (blen_nonneg rest).
  destruct (Nat.ltb_spec (length buf) BINARY_HEADER_SIZE); [by left|].
  destruct (Nat.ltb_spec (length buf + length rest) BINARY_HEADER_SIZE); [lia|].
  apply ole_bind; [apply ntoh_mono|intros total].
  destruct (Z.ltb_spec (blen buf) (Z.of_nat BINARY_HEADER_SIZE + total)); [by left|].
  destruct (Z.ltb_spec (blen buf + blen rest) (Z.of_nat BINARY_HEADER_SIZE + total)); [lia|].
  ole_solve.
Qed.
End mono.

(** ** The quiet commands *)

Definition quiet_commands : list binary_command :=
  [GetQ; GetKQ; SetQ; AddQ; ReplaceQ; DeleteQ; IncrementQ; DecrementQ; QuitQ; FlushQ;
   AppendQ; PrependQ; GaTQ; GaTKQ; LockQ; UnlockQ; UnlockAllQ; LaGQ; LaGKQ; RaUQ].

Lemma quiet_of_byte b :
  quiet_of (binary_command_of_byte b) = bool_decide (binary_command_of_byte b ∈ quiet_commands).
Proof. by destruct b; vm_compute. Qed.

(** ** Uninitialised members *)

(** What a request that will be answered with an error shares with any other
    parse of the same bytes. *)
Definition same_answer (r r' : binary_request) : Prop :=
  b_request_len r = b_request_len r' /\ b_status r = b_status r' /\
  b_command r = b_command r' /\ b_quiet r = b_quiet r'.

(** Uninitialised members do not matter.  A complete request is parsed to the same
    length, status, command and quiet flag whatever the memory of the parser held
    before, and if it is valid to the same request. *)
Theorem binary_parse_uninit ck u u' buf r :
  binary_parse ck u buf = Some r -> b_request_len r <> 0%nat ->
  exists r', binary_parse ck u' buf = Some r' /\ same_answer r r' /\
    (b_status r = OK -> r' = r).
Proof.
  unfold binary_parse. intros H Hlen.
  case_match; [by injection H as <-|].
  apply bind_Some in H as (total&->&H). cbn [mbind option_bind].
  case_match; [by injection H as <-|].
  apply bind_Some in H as (opc&->&H). cbn [mbind option_bind].
  apply bind_Some in H as (kl&->&H). cbn [mbind option_bind].
  case_match; [injection H as <-; by eexists|].
  apply bind_Some in H as (ext&->&H). cbn [mbind option_bind].
  case_match; [injection H as <-; by eexists|].
  apply bind_Some in H as (cas&->&H). cbn [mbind option_bind] in *.
  assert (forall c q, let r1 u := bset_op (BINARY_HEADER_SIZE + Z.to_nat total) c q (binary_request_init u) in
    bset_cas cas (if kl >? 0 then bset_key (Some (BINARY_HEADER_SIZE + Z.to_nat (Zb ext), Z.to_nat kl)%nat) (r1 u) else r1 u)
    = bset_cas cas (if kl >? 0 then bset_key (Some (BINARY_HEADER_SIZE + Z.to_nat (Zb ext), Z.to_nat kl)%nat) (r1 u') else r1 u'))
    as Heq by (intros; by destruct (kl >? 0)).
  rewrite <- Heq. exists r. by rewrite H.
Qed.

(** ** What a request with status [OK] has *)

(** Commands on one object carry its key, and those that store carry data. *)
Definition keyed (c : binary_command) : bool :=
  match c with
  | Get | GetQ | GetK | GetKQ | GaT | GaTQ | GaTK | GaTKQ | LaG | LaGQ | LaGK | LaGKQ
  | Set_ | SetQ | Add | AddQ | Replace | ReplaceQ | RaU | RaUQ | Delete | DeleteQ
  | Increment | IncrementQ | Decrement | DecrementQ | Touch
  | Append | AppendQ | Prepend | PrependQ | Lock | LockQ | Unlock | UnlockQ => true
  | _ => false
  end.
Definition storing (c : binary_command) : bool :=
  match c with
  | Set_ | SetQ | Add | AddQ | Replace | ReplaceQ | RaU | RaUQ
  | Append | AppendQ | Prepend | PrependQ => true
  | _ => false
  end.

Lemma binary_extras_complete ck buf el kl dl r r' :
  binary_extras ck buf el kl dl r = Some (r', true) ->
  b_key r' = b_key r /\ b_data r' = b_data r /\ b_command r' = b_command r /\
  (keyed (b_command r) = true -> kl <> 0) /\ (storing (b_command r) = true -> dl <> 0) /\
  b_command r <> Unknown.
Proof.
  unfold binary_extras. intros H.
  destruct (b_command r) eqn:Hc; try done; cbn [keyed storing].
  all: repeat first [case_match; try done | progress obind]; simplify_eq.
  all: split_and!; try done; intros _ ->; by rewrite ?orb_true_r in *.
Qed.

Lemma binary_extras_early ck buf el kl dl r r' :
  binary_extras ck buf el kl dl r = Some (r', false) ->
  r' = r \/ b_status r' = UnknownCommand.
Proof.
  unfold binary_extras. intros H.
  destruct (b_command r) eqn:Hc; repeat first [case_match; try done | progress obind]; simplify_eq;
    auto.
Qed.

(** Valid binary requests are complete: a request with status [OK] has a known
    command, a key if its command works on a key, and data if it stores data. *)
Theorem binary_parse_complete ck u buf r :
  binary_parse ck u buf = Some r -> b_status r = OK ->
  (keyed (b_command r) = true -> is_Some (b_key r)) /\
  (storing (b_command r) = true -> is_Some (b_data r)) /\ b_command r <> Unknown.
Proof.
  unfold binary_parse. intros H Hst.
  case_match; [by injection H as <-|].
  apply bind_Some in H as (total&_&H). case_match; [by injection H as <-|].
  apply bind_Some in H as (opc&_&H).
  apply bind_Some in H as (kl&Hkl&H). case_match; [by injection H as <-|].
  apply bind_Some in H as (ext&_&H).
  destruct (Z.ltb_spec total (kl + Zb ext)); [by injection H as <-|].
  apply bind_Some in H as (cas&_&H). cbn [mbind option_bind] in *.
  set (r1 := bset_cas cas _) in H. set (dl := total - kl - Zb ext) in *.
  case_match; [by injection H as <-|].
  set (r2 := if dl >? 0 then _ else r1) in H.
  apply bind_Some in H as ([r3 ok]&Hx&H).
  assert (b_status r2 = Invalid) as Hinv by (by subst r2 r1; repeat case_match).
  destruct ok; cbn [negb] in H; injection H as <-; cbn in Hst.
  2:{ apply binary_extras_early in Hx as [-> | Hu]; congruence. }
  apply binary_extras_complete in Hx as (Hk&Hd&Hc&He1&He2&He3). cbn in *.
  rewrite Hk, Hd, Hc. apply ntoh_range in Hkl.
  assert (0 <= dl) by lia. split_and!; [| |done].
  - intros Hkey. specialize (He1 Hkey). subst r2 r1. rewrite !Z.gtb_ltb.
    destruct (Z.ltb_spec 0 kl); [|lia]. destruct (0 <? dl); by eexists.
  - intros Hdat. specialize (He2 Hdat). subst r2. rewrite !Z.gtb_ltb.
    destruct (Z.ltb_spec 0 dl); [by eexists|lia].
Qed.

(** ** Instances *)

(** [noop], and [get k]. *)
Definition noop_bytes : bytes := [x80; x0a] ++ replicate 22 x00.
Definition get_bytes : bytes := [x80; x00; x00; x01] ++ replicate 7 x00 ++ [x01] ++ replicate 12 x00 ++ lit "k".
Definition some_clock : clock := {| g_current_time := 1000; errno_erange := false |}.
Definition some_memory (c : binary_command) : uninit :=
  {| u_command := c; u_quiet := true; u_cas_unique := 7 |}.

Lemma binary_parse_uninit_witness :
  exists r, binary_parse some_clock (some_memory Get) noop_bytes = Some r /\
    binary_parse some_clock (some_memory Quit) noop_bytes = Some r.
Proof.
  destruct (binary_parse some_clock (some_memory Get) noop_bytes) as [r|] eqn:Hr;
    [|vm_compute in Hr; discriminate].
  exists r. split; [reflexivity|].
  destruct (binary_parse_uninit some_clock (some_memory Get) (some_memory Quit) noop_bytes r Hr)
    as (r'&Hr'&_&Hok); vm_compute in Hr; injection Hr as <-; [discriminate|].
  rewrite Hr', Hok; reflexivity.
Defined.

Lemma binary_parse_complete_witness :
  exists r, binary_parse some_clock (some_memory Quit) get_bytes = Some r /\
    b_command r = Get /\ is_Some (b_key r).
Proof.
  destruct (binary_parse some_clock (some_memory Quit) get_bytes) as [r|] eqn:Hr;
    [|vm_compute in Hr; discriminate].
  exists r. split; [reflexivity|].
  assert (b_status r = OK /\ b_command r = Get) as [Hs Hc]
    by (vm_compute in Hr; injection Hr as <-; split; reflexivity).
  split; [exact Hc|].
  apply (binary_parse_complete some_clock (some_memory Quit) get_bytes r Hr Hs). rewrite Hc. reflexivity.
Defined.
