(* ===== verification/BinaryRoundtrip.v ===== *)
(** * Parsing what a binary client or a master sends

    A binary request put together from its fields is parsed back to those
    fields, whatever follows in the buffer. *)

From S2P Require Import Prelude CLib MemTypes TextRequest TextRequestSpec TextRoundtrip.
From S2P Require Import BinaryRequest BinaryRequestSpec.

(** The wire format of docs and of the memcache binary protocol: a header of 24
    bytes, the extras, the key and the data. *)
Definition encode_request (op : byte) (vbucket opq : bytes) (cas : Z) (extras key data : bytes) : bytes :=
  [x80; op] ++ hton 2 (blen key) ++ [bZ (blen extras); x00] ++ vbucket ++
  hton 4 (blen extras + blen key + blen data) ++ opq ++ hton 8 cas ++
  extras ++ key ++ data.

Record encode_wf (vbucket opq : bytes) (cas : Z) (extras key data : bytes) : Prop := {
  en_vbucket : length vbucket = 2%nat;
  en_opaque : length opq = 4%nat;
  en_cas : 0 <= cas < 2 ^ 64;
  en_extras : blen extras < 256;
  en_key : blen key <= MAX_KEY_LENGTH;
  en_data : blen data <= MAX_REQUEST_LENGTH
}.

(** The request after the header: what [parse] gives to the [switch]. *)
Definition encoded_request (op : byte) (cas : Z) (extras key data : bytes) : binary_request := {|
  b_request_len := 24 + length extras + length key + length data;
  b_status := Invalid;
  b_command := binary_command_of_byte op;
  b_quiet := quiet_of (binary_command_of_byte op);
  b_key := match key with [] => None | _ => Some (24 + length extras, length key)%nat end;
  b_cas_unique := cas;
  b_flags := 0;
  b_exptime := 0;
  b_data := match data with
            | [] => None
            | _ => Some (24 + length extras + length key, length data)%nat
            end;
  b_value := 0; b_initial := 0; b_stats := GENERAL
|}.

Lemma at_ntoh buf p n z :
  has_at buf p (hton n z) -> 0 <= z < 2 ^ (8 * Z.of_nat n) -> ntoh n buf p = Some z.
Proof.
  intros (pre&post&->&<-) Hz. rewrite ntoh_hton. f_equal. by apply Z.mod_small.
Qed.

Lemma encode_at op vb opq cas extras key data rest :
  encode_wf vb opq cas extras key data ->
  let buf := encode_request op vb opq cas extras key data ++ rest in
  buf !! 1%nat = Some op /\ has_at buf 2 (hton 2 (blen key)) /\
  buf !! 4%nat = Some (bZ (blen extras)) /\
  has_at buf 8 (hton 4 (blen extras + blen key + blen data)) /\ has_at buf 12 opq /\
  has_at buf 16 (hton 8 cas) /\ has_at buf 24 extras /\
  has_at buf (24 + length extras) key /\
  has_at buf (24 + length extras + length key) data.
Proof.
  intros [Hvb Hopq _ _ _ _] buf.
  assert (has_at buf 0 (encode_request op vb opq cas extras key data)) as H
    by (by exists [], rest).
  unfold encode_request in H. cbn [app] in H.
  apply at_cons in H as [_ H]. apply at_cons in H as [Hop H].
  apply at_app in H as [Hkl H]. cbn [app] in H. apply at_cons in H as [Hel H].
  apply at_cons in H as [_ H]. apply at_app in H as [_ H]. apply at_app in H as [Htl H].
  apply at_app in H as [Ho H]. apply at_app in H as [Hc H]. apply at_app in H as [Hx H].
  apply at_app in H as [Hk Hd].
  unfold hton in *. rewrite !length_be_bytes, ?Hvb, ?Hopq in *. cbn in Hop, Hkl, Hel, Htl, Ho, Hc, Hx, Hk, Hd.
  done.
Qed.

Lemma length_encode op vb opq cas extras key data :
  encode_wf vb opq cas extras key data ->
  length (encode_request op vb opq cas extras key data) =
    (24 + length extras + length key + length data)%nat.
Proof.
  intros [Hvb Hopq _ _ _ _]. unfold encode_request, hton. rewrite !length_app, !length_be_bytes.
  cbn. lia.
Qed.

Lemma binary_parse_encode ck u op vb opq cas extras key data rest :
  encode_wf vb opq cas extras key data ->
  let buf := encode_request op vb opq cas extras key data ++ rest in
  binary_parse ck u buf =
    ('(r, ok) ← binary_extras ck buf (blen extras) (blen key) (blen data)
                  (encoded_request op cas extras key data);
     if negb ok then Some r else Some (bset_status OK r)).
Proof.
  intros wf buf. destruct (encode_at op vb opq cas extras key data rest wf)
    as (Hop&Hkl&Hel&Htl&_&Hc&_).
  fold buf in Hop, Hkl, Hel, Htl, Hc.
  pose proof (length_encode op vb opq cas extras key data wf) as Hlen.
  assert (length buf = 24 + length extras + length key + length data + length rest)%nat
    as Hl by (unfold buf; rewrite length_app; lia).
  destruct wf as [Hvb Hopq Hcas Hext Hkey Hdata].
  pose proof (blen_nonneg extras). pose proof (blen_nonneg key). pose proof (blen_nonneg data).
  unfold binary_parse, BINARY_HEADER_SIZE.
  destruct (Nat.ltb_spec (length buf) 24); [lia|].
  assert (MAX_KEY_LENGTH = 250) as Em by done. assert (MAX_REQUEST_LENGTH = 31457280) as Er by done.
  rewrite (at_ntoh _ _ _ _ Htl), (at_ntoh _ _ _ _ Hkl), (at_ntoh _ _ _ _ Hc)
    by (cbn; lia).
  unfold deref. rewrite Hop, Hel. cbn [mbind option_bind].
  rewrite Zb_bZ, Z.mod_small by lia.
  destruct (Z.ltb_spec (blen buf) (Z.of_nat 24 + (blen extras + blen key + blen data))).
  { unfold blen in *. lia. }
  rewrite !Z.gtb_ltb. destruct (Z.ltb_spec MAX_KEY_LENGTH (blen key)); [lia|].
  destruct (Z.ltb_spec (blen extras + blen key + blen data) (blen key + blen extras)); [lia|].
  replace (blen extras + blen key + blen data - blen key - blen extras) with (blen data) by lia.
  destruct (Z.ltb_spec MAX_REQUEST_LENGTH (blen data)); [lia|].
  match goal with |- binary_extras _ _ _ _ _ ?a ≫= _ = binary_extras _ _ _ _ _ ?b ≫= _ =>
    assert (a = b) as ->; [|done] end.
  unfold encoded_request, blen in *. rewrite !Nat2Z.id.
  replace (Z.to_nat (Z.of_nat (length extras) + Z.of_nat (length key) + Z.of_nat (length data)))
    with (length extras + length key + length data)%nat by lia.
  rewrite !Nat.add_assoc. by destruct key as [|k0 key], data as [|d0 data].
Qed.

(** The expiration time of an extras field. *)
Definition exptime_of (ck : clock) (t : Z) : Z :=
  if t =? 0 then 0 else if t =? 0xffffffff then EXPTIME_NONE else absolute_time ck t.

Lemma at_exptime ck buf p t :
  has_at buf p (hton 4 t) -> 0 <= t < 2 ^ 32 ->
  binary_exptime ck buf p = Some (exptime_of ck t).
Proof.
  intros H Ht. unfold binary_exptime, exptime_of, absolute_time.
  rewrite (at_ntoh _ _ _ _ H) by done. cbn [mbind option_bind]. by repeat case_match.
Qed.

(** The commands whose extras are flags and expiration time. *)
Definition set_family (c : binary_command) : bool :=
  match c with Set_ | SetQ | Add | AddQ | Replace | ReplaceQ | RaU | RaUQ => true | _ => false end.

Definition set_extras (flags t : Z) : bytes := hton 4 flags ++ hton 4 t.

Lemma blen_set_extras flags t : blen (set_extras flags t) = 8.
Proof. unfold set_extras, hton, blen. by rewrite length_app, !length_be_bytes. Qed.

Lemma binary_set_encode ck u op vb opq cas flags t key data rest :
  set_family (binary_command_of_byte op) = true ->
  0 <= flags < 2 ^ 32 -> 0 <= t < 2 ^ 32 -> key <> [] -> data <> [] ->
  encode_wf vb opq cas (set_extras flags t) key data ->
  binary_parse ck u (encode_request op vb opq cas (set_extras flags t) key data ++ rest) =
    Some (bset_status OK (bset_exptime (exptime_of ck t) (bset_flags flags
           (encoded_request op cas (set_extras flags t) key data)))).
Proof.
  intros Hop Hf Ht Hk Hd wf. pose proof (encode_at op _ _ _ _ _ _ rest wf) as He. cbv zeta in He.
  destruct He as (_&_&_&_&_&_&Hx&_). rewrite (binary_parse_encode ck u op _ _ _ _ _ _ rest wf).
  set (buf := encode_request _ _ _ _ _ _ _ ++ rest) in *.
  apply at_app in Hx as [H1 H2]. unfold hton in H1. rewrite length_be_bytes in H2.
  set (r := encoded_request op cas _ key data).
  assert (b_command r = binary_command_of_byte op) as Hc by done.
  rewrite blen_set_extras. unfold binary_extras. rewrite Hc.
  assert (blen key <> 0) as Hk' by (destruct key; [done|unfold blen; cbn; lia]).
  assert (blen data <> 0) as Hd' by (destruct data; [done|unfold blen; cbn; lia]).
  apply Z.eqb_neq in Hk', Hd'. rewrite Hk', Hd'.
  destruct (binary_command_of_byte op); try done; cbn [orb negb Z.eqb Pos.eqb].
  all: unfold BINARY_HEADER_SIZE; rewrite (at_ntoh _ _ _ _ H1), (at_exptime _ _ _ _ H2) by done; done.
Qed.

(** A storage request without data is rejected before its extras are read. *)
Lemma binary_set_empty ck u op vb opq cas flags t key rest :
  set_family (binary_command_of_byte op) = true ->
  encode_wf vb opq cas (set_extras flags t) key [] ->
  binary_parse ck u (encode_request op vb opq cas (set_extras flags t) key [] ++ rest) =
    Some (encoded_request op cas (set_extras flags t) key []).
Proof.
  intros Hop wf. rewrite (binary_parse_encode ck u op _ _ _ _ _ _ rest wf).
  set (r := encoded_request op cas _ key []).
  assert (b_command r = binary_command_of_byte op) as Hc by done.
  unfold binary_extras. rewrite Hc. change (blen []) with 0.
  destruct (binary_command_of_byte op); try done; by rewrite orb_true_r.
Qed.
