(* ===== verification/MemState.v ===== *)
(** * The global state of the memcache service

    [g_stats] (src/memcache/stats.hpp), the part of [g_config] (src/config.hpp)
    that the request handlers read, and what a request handler sees and changes
    besides the object table. *)

From S2P Require Import Prelude MemTypes Table.

(** ** struct statistics

    The counters are kept as integers; every increment is written with the width
    of its counter. *)

Record statistics := {
  objects : Z;
  objects_under_1k : Z;
  objects_under_4k : Z;
  objects_under_16k : Z;
  objects_under_64k : Z;
  objects_under_256k : Z;
  objects_under_1m : Z;
  objects_under_4m : Z;
  objects_huge : Z;
  used_memory : Z;
  conflicts : Z;
  gc_count : Z;
  oldest_age : Z;
  largest_object_size : Z;
  last_expirations : Z;
  last_evictions : Z;
  total_evictions : Z;
  last_gc_elapsed : Z;
  total_gc_elapsed : Z;
  repl_created : Z;
  repl_updated : Z;
  repl_removed : Z;
  total_objects : Z;
  flush_time : Z;
  curr_connections : Z;
  total_connections : Z;
  text_ops : list Z;
  bin_ops : list Z;
  get_hits : Z;
  get_misses : Z;
  cas_hits : Z;
  cas_misses : Z;
  cas_badval : Z
}.

(** [statistics::reset]. *)
Definition stats_reset : statistics := {|
  objects := 0; objects_under_1k := 0; objects_under_4k := 0; objects_under_16k := 0;
  objects_under_64k := 0; objects_under_256k := 0; objects_under_1m := 0; objects_under_4m
  := 0; objects_huge := 0; used_memory := 0; conflicts := 0; gc_count := 0; oldest_age :=
  0; largest_object_size := 0; last_expirations := 0; last_evictions := 0; total_evictions
  := 0; last_gc_elapsed := 0; total_gc_elapsed := 0; repl_created := 0; repl_updated := 0;
  repl_removed := 0; total_objects := 0; flush_time := 0; curr_connections := 0;
  total_connections := 0; text_ops := replicate text_END_OF_COMMAND 0; bin_ops :=
  replicate binary_END_OF_COMMAND 0; get_hits := 0; get_misses := 0; cas_hits := 0;
  cas_misses := 0; cas_badval := 0
|}.

(** Assignments to the counters. *)
Definition set_repl_created (v : Z) (s : statistics) : statistics := {|
  objects := objects s; objects_under_1k := objects_under_1k s; objects_under_4k :=
  objects_under_4k s; objects_under_16k := objects_under_16k s; objects_under_64k :=
  objects_under_64k s; objects_under_256k := objects_under_256k s; objects_under_1m :=
  objects_under_1m s; objects_under_4m := objects_under_4m s; objects_huge := objects_huge
  s; used_memory := used_memory s; conflicts := conflicts s; gc_count := gc_count s;
  oldest_age := oldest_age s; largest_object_size := largest_object_size s;
  last_expirations := last_expirations s; last_evictions := last_evictions s;
  total_evictions := total_evictions s; last_gc_elapsed := last_gc_elapsed s;
  total_gc_elapsed := total_gc_elapsed s; repl_created := v; repl_updated := repl_updated
  s; repl_removed := repl_removed s; total_objects := total_objects s; flush_time :=
  flush_time s; curr_connections := curr_connections s; total_connections :=
  total_connections s; text_ops := text_ops s; bin_ops := bin_ops s; get_hits := get_hits
  s; get_misses := get_misses s; cas_hits := cas_hits s; cas_misses := cas_misses s;
  cas_badval := cas_badval s
|}.
Definition set_repl_updated (v : Z) (s : statistics) : statistics := {|
  objects := objects s; objects_under_1k := objects_under_1k s; objects_under_4k :=
  objects_under_4k s; objects_under_16k := objects_under_16k s; objects_under_64k :=
  objects_under_64k s; objects_under_256k := objects_under_256k s; objects_under_1m :=
  objects_under_1m s; objects_under_4m := objects_under_4m s; objects_huge := objects_huge
  s; used_memory := used_memory s; conflicts := conflicts s; gc_count := gc_count s;
  oldest_age := oldest_age s; largest_object_size := largest_object_size s;
  last_expirations := last_expirations s; last_evictions := last_evictions s;
  total_evictions := total_evictions s; last_gc_elapsed := last_gc_elapsed s;
  total_gc_elapsed := total_gc_elapsed s; repl_created := repl_created s; repl_updated :=
  v; repl_removed := repl_removed s; total_objects := total_objects s; flush_time :=
  flush_time s; curr_connections := curr_connections s; total_connections :=
  total_connections s; text_ops := text_ops s; bin_ops := bin_ops s; get_hits := get_hits
  s; get_misses := get_misses s; cas_hits := cas_hits s; cas_misses := cas_misses s;
  cas_badval := cas_badval s
|}.
Definition set_repl_removed (v : Z) (s : statistics) : statistics := {|
  objects := objects s; objects_under_1k := objects_under_1k s; objects_under_4k :=
  objects_under_4k s; objects_under_16k := objects_under_16k s; objects_under_64k :=
  objects_under_64k s; objects_under_256k := objects_under_256k s; objects_under_1m :=
  objects_under_1m s; objects_under_4m := objects_under_4m s; objects_huge := objects_huge
  s; used_memory := used_memory s; conflicts := conflicts s; gc_count := gc_count s;
  oldest_age := oldest_age s; largest_object_size := largest_object_size s;
  last_expirations := last_expirations s; last_evictions := last_evictions s;
  total_evictions := total_evictions s; last_gc_elapsed := last_gc_elapsed s;
  total_gc_elapsed := total_gc_elapsed s; repl_created := repl_created s; repl_updated :=
  repl_updated s; repl_removed := v; total_objects := total_objects s; flush_time :=
  flush_time s; curr_connections := curr_connections s; total_connections :=
  total_connections s; text_ops := text_ops s; bin_ops := bin_ops s; get_hits := get_hits
  s; get_misses := get_misses s; cas_hits := cas_hits s; cas_misses := cas_misses s;
  cas_badval := cas_badval s
|}.
Definition set_total_objects (v : Z) (s : statistics) : statistics := {|
  objects := objects s; objects_under_1k := objects_under_1k s; objects_under_4k :=
  objects_under_4k s; objects_under_16k := objects_under_16k s; objects_under_64k :=
  objects_under_64k s; objects_under_256k := objects_under_256k s; objects_under_1m :=
  objects_under_1m s; objects_under_4m := objects_under_4m s; objects_huge := objects_huge
  s; used_memory := used_memory s; conflicts := conflicts s; gc_count := gc_count s;
  oldest_age := oldest_age s; largest_object_size := largest_object_size s;
  last_expirations := last_expirations s; last_evictions := last_evictions s;
  total_evictions := total_evictions s; last_gc_elapsed := last_gc_elapsed s;
  total_gc_elapsed := total_gc_elapsed s; repl_created := repl_created s; repl_updated :=
  repl_updated s; repl_removed := repl_removed s; total_objects := v; flush_time :=
  flush_time s; curr_connections := curr_connections s; total_connections :=
  total_connections s; text_ops := text_ops s; bin_ops := bin_ops s; get_hits := get_hits
  s; get_misses := get_misses s; cas_hits := cas_hits s; cas_misses := cas_misses s;
  cas_badval := cas_badval s
|}.
Definition set_flush_time (v : Z) (s : statistics) : statistics := {|
  objects := objects s; objects_under_1k := objects_under_1k s; objects_under_4k :=
  objects_under_4k s; objects_under_16k := objects_under_16k s; objects_under_64k :=
  objects_under_64k s; objects_under_256k := objects_under_256k s; objects_under_1m :=
  objects_under_1m s; objects_under_4m := objects_under_4m s; objects_huge := objects_huge
  s; used_memory := used_memory s; conflicts := conflicts s; gc_count := gc_count s;
  oldest_age := oldest_age s; largest_object_size := largest_object_size s;
  last_expirations := last_expirations s; last_evictions := last_evictions s;
  total_evictions := total_evictions s; last_gc_elapsed := last_gc_elapsed s;
  total_gc_elapsed := total_gc_elapsed s; repl_created := repl_created s; repl_updated :=
  repl_updated s; repl_removed := repl_removed s; total_objects := total_objects s;
  flush_time := v; curr_connections := curr_connections s; total_connections :=
  total_connections s; text_ops := text_ops s; bin_ops := bin_ops s; get_hits := get_hits
  s; get_misses := get_misses s; cas_hits := cas_hits s; cas_misses := cas_misses s;
  cas_badval := cas_badval s
|}.
Definition set_curr_connections (v : Z) (s : statistics) : statistics := {|
  objects := objects s; objects_under_1k := objects_under_1k s; objects_under_4k :=
  objects_under_4k s; objects_under_16k := objects_under_16k s; objects_under_64k :=
  objects_under_64k s; objects_under_256k := objects_under_256k s; objects_under_1m :=
  objects_under_1m s; objects_under_4m := objects_under_4m s; objects_huge := objects_huge
  s; used_memory := used_memory s; conflicts := conflicts s; gc_count := gc_count s;
  oldest_age := oldest_age s; largest_object_size := largest_object_size s;
  last_expirations := last_expirations s; last_evictions := last_evictions s;
  total_evictions := total_evictions s; last_gc_elapsed := last_gc_elapsed s;
  total_gc_elapsed := total_gc_elapsed s; repl_created := repl_created s; repl_updated :=
  repl_updated s; repl_removed := repl_removed s; total_objects := total_objects s;
  flush_time := flush_time s; curr_connections := v; total_connections :=
  total_connections s; text_ops := text_ops s; bin_ops := bin_ops s; get_hits := get_hits
  s; get_misses := get_misses s; cas_hits := cas_hits s; cas_misses := cas_misses s;
  cas_badval := cas_badval s
|}.
Definition set_total_connections (v : Z) (s : statistics) : statistics := {|
  objects := objects s; objects_under_1k := objects_under_1k s; objects_under_4k :=
  objects_under_4k s; objects_under_16k := objects_under_16k s; objects_under_64k :=
  objects_under_64k s; objects_under_256k := objects_under_256k s; objects_under_1m :=
  objects_under_1m s; objects_under_4m := objects_under_4m s; objects_huge := objects_huge
  s; used_memory := used_memory s; conflicts := conflicts s; gc_count := gc_count s;
  oldest_age := oldest_age s; largest_object_size := largest_object_size s;
  last_expirations := last_expirations s; last_evictions := last_evictions s;
  total_evictions := total_evictions s; last_gc_elapsed := last_gc_elapsed s;
  total_gc_elapsed := total_gc_elapsed s; repl_created := repl_created s; repl_updated :=
  repl_updated s; repl_removed := repl_removed s; total_objects := total_objects s;
  flush_time := flush_time s; curr_connections := curr_connections s; total_connections :=
  v; text_ops := text_ops s; bin_ops := bin_ops s; get_hits := get_hits s; get_misses :=
  get_misses s; cas_hits := cas_hits s; cas_misses := cas_misses s; cas_badval :=
  cas_badval s
|}.
Definition set_text_ops (v : list Z) (s : statistics) : statistics := {|
  objects := objects s; objects_under_1k := objects_under_1k s; objects_under_4k :=
  objects_under_4k s; objects_under_16k := objects_under_16k s; objects_under_64k :=
  objects_under_64k s; objects_under_256k := objects_under_256k s; objects_under_1m :=
  objects_under_1m s; objects_under_4m := objects_under_4m s; objects_huge := objects_huge
  s; used_memory := used_memory s; conflicts := conflicts s; gc_count := gc_count s;
  oldest_age := oldest_age s; largest_object_size := largest_object_size s;
  last_expirations := last_expirations s; last_evictions := last_evictions s;
  total_evictions := total_evictions s; last_gc_elapsed := last_gc_elapsed s;
  total_gc_elapsed := total_gc_elapsed s; repl_created := repl_created s; repl_updated :=
  repl_updated s; repl_removed := repl_removed s; total_objects := total_objects s;
  flush_time := flush_time s; curr_connections := curr_connections s; total_connections :=
  total_connections s; text_ops := v; bin_ops := bin_ops s; get_hits := get_hits s;
  get_misses := get_misses s; cas_hits := cas_hits s; cas_misses := cas_misses s;
  cas_badval := cas_badval s
|}.
Definition set_bin_ops (v : list Z) (s : statistics) : statistics := {|
  objects := objects s; objects_under_1k := objects_under_1k s; objects_under_4k :=
  objects_under_4k s; objects_under_16k := objects_under_16k s; objects_under_64k :=
  objects_under_64k s; objects_under_256k := objects_under_256k s; objects_under_1m :=
  objects_under_1m s; objects_under_4m := objects_under_4m s; objects_huge := objects_huge
  s; used_memory := used_memory s; conflicts := conflicts s; gc_count := gc_count s;
  oldest_age := oldest_age s; largest_object_size := largest_object_size s;
  last_expirations := last_expirations s; last_evictions := last_evictions s;
  total_evictions := total_evictions s; last_gc_elapsed := last_gc_elapsed s;
  total_gc_elapsed := total_gc_elapsed s; repl_created := repl_created s; repl_updated :=
  repl_updated s; repl_removed := repl_removed s; total_objects := total_objects s;
  flush_time := flush_time s; curr_connections := curr_connections s; total_connections :=
  total_connections s; text_ops := text_ops s; bin_ops := v; get_hits := get_hits s;
  get_misses := get_misses s; cas_hits := cas_hits s; cas_misses := cas_misses s;
  cas_badval := cas_badval s
|}.
Definition set_get_hits (v : Z) (s : statistics) : statistics := {|
  objects := objects s; objects_under_1k := objects_under_1k s; objects_under_4k :=
  objects_under_4k s; objects_under_16k := objects_under_16k s; objects_under_64k :=
  objects_under_64k s; objects_under_256k := objects_under_256k s; objects_under_1m :=
  objects_under_1m s; objects_under_4m := objects_under_4m s; objects_huge := objects_huge
  s; used_memory := used_memory s; conflicts := conflicts s; gc_count := gc_count s;
  oldest_age := oldest_age s; largest_object_size := largest_object_size s;
  last_expirations := last_expirations s; last_evictions := last_evictions s;
  total_evictions := total_evictions s; last_gc_elapsed := last_gc_elapsed s;
  total_gc_elapsed := total_gc_elapsed s; repl_created := repl_created s; repl_updated :=
  repl_updated s; repl_removed := repl_removed s; total_objects := total_objects s;
  flush_time := flush_time s; curr_connections := curr_connections s; total_connections :=
  total_connections s; text_ops := text_ops s; bin_ops := bin_ops s; get_hits := v;
  get_misses := get_misses s; cas_hits := cas_hits s; cas_misses := cas_misses s;
  cas_badval := cas_badval s
|}.
Definition set_get_misses (v : Z) (s : statistics) : statistics := {|
  objects := objects s; objects_under_1k := objects_under_1k s; objects_under_4k :=
  objects_under_4k s; objects_under_16k := objects_under_16k s; objects_under_64k :=
  objects_under_64k s; objects_under_256k := objects_under_256k s; objects_under_1m :=
  objects_under_1m s; objects_under_4m := objects_under_4m s; objects_huge := objects_huge
  s; used_memory := used_memory s; conflicts := conflicts s; gc_count := gc_count s;
  oldest_age := oldest_age s; largest_object_size := largest_object_size s;
  last_expirations := last_expirations s; last_evictions := last_evictions s;
  total_evictions := total_evictions s; last_gc_elapsed := last_gc_elapsed s;
  total_gc_elapsed := total_gc_elapsed s; repl_created := repl_created s; repl_updated :=
  repl_updated s; repl_removed := repl_removed s; total_objects := total_objects s;
  flush_time := flush_time s; curr_connections := curr_connections s; total_connections :=
  total_connections s; text_ops := text_ops s; bin_ops := bin_ops s; get_hits := get_hits
  s; get_misses := v; cas_hits := cas_hits s; cas_misses := cas_misses s; cas_badval :=
  cas_badval s
|}.
Definition set_cas_hits (v : Z) (s : statistics) : statistics := {|
  objects := objects s; objects_under_1k := objects_under_1k s; objects_under_4k :=
  objects_under_4k s; objects_under_16k := objects_under_16k s; objects_under_64k :=
  objects_under_64k s; objects_under_256k := objects_under_256k s; objects_under_1m :=
  objects_under_1m s; objects_under_4m := objects_under_4m s; objects_huge := objects_huge
  s; used_memory := used_memory s; conflicts := conflicts s; gc_count := gc_count s;
  oldest_age := oldest_age s; largest_object_size := largest_object_size s;
  last_expirations := last_expirations s; last_evictions := last_evictions s;
  total_evictions := total_evictions s; last_gc_elapsed := last_gc_elapsed s;
  total_gc_elapsed := total_gc_elapsed s; repl_created := repl_created s; repl_updated :=
  repl_updated s; repl_removed := repl_removed s; total_objects := total_objects s;
  flush_time := flush_time s; curr_connections := curr_connections s; total_connections :=
  total_connections s; text_ops := text_ops s; bin_ops := bin_ops s; get_hits := get_hits
  s; get_misses := get_misses s; cas_hits := v; cas_misses := cas_misses s; cas_badval :=
  cas_badval s
|}.
Definition set_cas_misses (v : Z) (s : statistics) : statistics := {|
  objects := objects s; objects_under_1k := objects_under_1k s; objects_under_4k :=
  objects_under_4k s; objects_under_16k := objects_under_16k s; objects_under_64k :=
  objects_under_64k s; objects_under_256k := objects_under_256k s; objects_under_1m :=
  objects_under_1m s; objects_under_4m := objects_under_4m s; objects_huge := objects_huge
  s; used_memory := used_memory s; conflicts := conflicts s; gc_count := gc_count s;
  oldest_age := oldest_age s; largest_object_size := largest_object_size s;
  last_expirations := last_expirations s; last_evictions := last_evictions s;
  total_evictions := total_evictions s; last_gc_elapsed := last_gc_elapsed s;
  total_gc_elapsed := total_gc_elapsed s; repl_created := repl_created s; repl_updated :=
  repl_updated s; repl_removed := repl_removed s; total_objects := total_objects s;
  flush_time := flush_time s; curr_connections := curr_connections s; total_connections :=
  total_connections s; text_ops := text_ops s; bin_ops := bin_ops s; get_hits := get_hits
  s; get_misses := get_misses s; cas_hits := cas_hits s; cas_misses := v; cas_badval :=
  cas_badval s
|}.
Definition set_cas_badval (v : Z) (s : statistics) : statistics := {|
  objects := objects s; objects_under_1k := objects_under_1k s; objects_under_4k :=
  objects_under_4k s; objects_under_16k := objects_under_16k s; objects_under_64k :=
  objects_under_64k s; objects_under_256k := objects_under_256k s; objects_under_1m :=
  objects_under_1m s; objects_under_4m := objects_under_4m s; objects_huge := objects_huge
  s; used_memory := used_memory s; conflicts := conflicts s; gc_count := gc_count s;
  oldest_age := oldest_age s; largest_object_size := largest_object_size s;
  last_expirations := last_expirations s; last_evictions := last_evictions s;
  total_evictions := total_evictions s; last_gc_elapsed := last_gc_elapsed s;
  total_gc_elapsed := total_gc_elapsed s; repl_created := repl_created s; repl_updated :=
  repl_updated s; repl_removed := repl_removed s; total_objects := total_objects s;
  flush_time := flush_time s; curr_connections := curr_connections s; total_connections :=
  total_connections s; text_ops := text_ops s; bin_ops := bin_ops s; get_hits := get_hits
  s; get_misses := get_misses s; cas_hits := cas_hits s; cas_misses := cas_misses s;
  cas_badval := v
|}.

(** [++counter] of a 64-bit counter. *)
Definition incr64 (v : Z) : Z := u64 (v + 1).

(** ** The configuration that request handling reads *)

Record mem_config := {
  c_memory_limit : Z;
  c_port : Z;
  c_repl_port : Z;
  c_vip : bytes;             (** [g_config.vip().str()] *)
  c_secure_erase : bool;
  c_lock_memory : bool;
  c_tempdir : bytes;
  c_buckets : Z;
  c_max_data_size : Z;
  c_heap_data_limit : Z;
  c_workers : Z;
  c_gc_interval : Z
}.

(** ** Output

    What a handler does to sockets: [send]/[sendv] to the client (the bytes of the
    gathered vector, and the [flush] argument), [send_close], [invalidate_and_close],
    and [sendv] to the slaves. *)

Inductive output :=
| out_send (data : bytes) (flush : bool)
| out_close (data : bytes)
| out_invalidate
| out_repl (slave : nat) (data : bytes) (flush : bool).

(** ** What a handler reads *)

Record request_env := {
  r_config : mem_config;
  r_now : Z;                 (** [g_current_time] *)
  r_context : Z;             (** [g_context], the descriptor of the connection *)
  r_slaves : list nat;       (** the slaves of the synchronised copy *)
  r_getpid : Z;              (** results of [getpid] and [getrusage] *)
  r_utime : Z * Z;
  r_stime : Z * Z
}.

(** ** What a handler changes *)

Record env := {
  e_stats : statistics;
  e_locks : list kref;       (** [m_locks] of the connection's [memcache_socket] *)
  e_out : list output;       (** newest last *)
  e_threshold : severity     (** the logger's threshold *)
}.

Definition upd_stats (f : statistics -> statistics) (e : env) : env :=
  {| e_stats := f (e_stats e); e_locks := e_locks e; e_out := e_out e;
     e_threshold := e_threshold e |}.
Definition upd_locks (f : list kref -> list kref) (e : env) : env :=
  {| e_stats := e_stats e; e_locks := f (e_locks e); e_out := e_out e;
     e_threshold := e_threshold e |}.
Definition emit (o : output) (e : env) : env :=
  {| e_stats := e_stats e; e_locks := e_locks e; e_out := e_out e ++ [o];
     e_threshold := e_threshold e |}.

Definition upd_threshold (v : severity) (e : env) : env :=
  {| e_stats := e_stats e; e_locks := e_locks e; e_out := e_out e; e_threshold := v |}.

(** [tcp_socket::send], [sendv] and [send_close] on the client's socket. *)
Definition send (data : bytes) (flush : bool) : M env unit := modify (emit (out_send data flush)).
Definition sendv (iov : list bytes) (flush : bool) : M env unit :=
  modify (emit (out_send (concat iov) flush)).
Definition send_close (data : bytes) : M env unit := modify (emit (out_close data)).

Definition invalidate_and_close : M env unit := modify (emit out_invalidate).

(** [for( s: slaves ) s->sendv(iov, n, flush)]. *)
Definition sendv_slaves (slaves : list nat) (iov : list bytes) (flush : bool) : M env unit :=
  iterM (fun s => modify (emit (out_repl s (concat iov) flush))) slaves.
