(* ===== verification/MemObject.v ===== *)
(** * Objects of the memcache table (src/memcache/object.hpp, object.cpp)

    The data of an object is in [m_data] or, above [heap_data_limit], in a
    temporary file; both are kept here as their contents.  [m_unlocker], which is
    only printed, is left out. *)

From S2P Require Import Prelude CLib MemTypes MemState.

Record object := {
  o_length : Z;             (** [m_length] *)
  o_data : bytes;           (** the contents of [m_data] *)
  o_file : option bytes;    (** the contents of [m_file], if there is one *)
  o_flags : Z;
  o_exptime : Z;
  o_cas : Z;
  o_gc_old : Z;
  o_lock : Z
}.

(** Assignments to the members. *)
Definition with_data (len : Z) (d : bytes) (f : option bytes) (o : object) : object :=
  {| o_length := len; o_data := d; o_file := f; o_flags := o_flags o;
     o_exptime := o_exptime o; o_cas := o_cas o; o_gc_old := o_gc_old o; o_lock := o_lock o |}.
Definition with_meta (fl ex : Z) (o : object) : object :=
  {| o_length := o_length o; o_data := o_data o; o_file := o_file o; o_flags := fl;
     o_exptime := ex; o_cas := o_cas o; o_gc_old := o_gc_old o; o_lock := o_lock o |}.
Definition with_age (n : Z) (o : object) : object :=
  {| o_length := o_length o; o_data := o_data o; o_file := o_file o; o_flags := o_flags o;
     o_exptime := o_exptime o; o_cas := o_cas o; o_gc_old := n; o_lock := o_lock o |}.
Definition with_lock (l : Z) (o : object) : object :=
  {| o_length := o_length o; o_data := o_data o; o_file := o_file o; o_flags := o_flags o;
     o_exptime := o_exptime o; o_cas := o_cas o; o_gc_old := o_gc_old o; o_lock := l |}.
(** [++ m_cas; m_gc_old = 0;]. *)
Definition modified (o : object) : object :=
  {| o_length := o_length o; o_data := o_data o; o_file := o_file o; o_flags := o_flags o;
     o_exptime := o_exptime o; o_cas := incr64 (o_cas o); o_gc_old := 0; o_lock := o_lock o |}.

(** [to_uint64]: an absent value is an exception derived from [std::logic_error]. *)
Definition to_uint64 (s : bytes) : option Z := stoull s.

Section object.
Context (cfg : mem_config).

Definition heap_data_limit : Z := c_heap_data_limit cfg.

(** [object(p, len, flags, exptime)]. *)
Definition object_new (p : bytes) (fl ex : Z) : object :=
  let file := if blen p >? heap_data_limit then Some p else None in
  {| o_length := blen p;
     o_data := if blen p >? heap_data_limit then [] else p;
     o_file := file; o_flags := fl; o_exptime := ex; o_cas := 1; o_gc_old := 0; o_lock := -1 |}.

(** [object(initial, exptime)]. *)
Definition object_number (initial ex : Z) : object :=
  let s := to_string initial in
  {| o_length := blen s; o_data := s; o_file := None; o_flags := 0; o_exptime := ex;
     o_cas := 1; o_gc_old := 0; o_lock := -1 |}.

(** Both constructors count the object. *)
Definition new_object (o : object) : M env object :=
  modify (upd_stats (fun s => set_total_objects (incr64 (total_objects s)) s)) ;;!
  ret o.

(** [object::set]. *)
Definition object_set (p : bytes) (fl ex : Z) (o : object) : object :=
  let o := modified (with_meta fl ex o) in
  if blen p >? heap_data_limit
  then with_data (blen p) [] (Some p) o
  else with_data (blen p) p None o.

(** [object::append]. *)
Definition object_append (p : bytes) (o : object) : object :=
  let o := modified o in
  if blen p =? 0 then o else
  let new_size := o_length o + blen p in
  if new_size >? heap_data_limit then
    match o_file o with
    | None =>
        let f := if o_length o >? 0 then take (Z.to_nat (o_length o)) (o_data o) else [] in
        with_data new_size [] (Some (f ++ p)) o
    | Some f => with_data new_size (o_data o) (Some (f ++ p)) o
    end
  else with_data new_size (o_data o ++ p) (o_file o) o.

(** [object::prepend]. *)
Definition object_prepend (p : bytes) (o : object) : object :=
  let o := modified o in
  if blen p =? 0 then o else
  let new_size := o_length o + blen p in
  if new_size >? heap_data_limit then
    match o_file o with
    | None =>
        let d := if o_length o >? 0 then take (Z.to_nat (o_length o)) (o_data o) else [] in
        with_data new_size [] (Some (p ++ d)) o
    | Some f => with_data new_size (o_data o) (Some (take (Z.to_nat new_size) (p ++ f))) o
    end
  else with_data new_size (p ++ take (Z.to_nat (o_length o)) (o_data o)) (o_file o) o.

(** The number an object holds, for [incr] and [decr]. *)
Definition object_value (o : object) : option Z :=
  match o_file o with
  | Some _ => None
  | None => to_uint64 (take (Z.to_nat (o_length o)) (o_data o))
  end.

Definition store_number (v : Z) (o : object) : object :=
  let s := to_string v in
  modified (with_data (blen s) s (o_file o) o).

(** [object::incr]; [None] is the exception [not_a_number]. *)
Definition object_incr (n : Z) (o : object) : option (Z * object) :=
  v ← object_value o;
  let v := u64 (v + n) in
  Some (v, store_number v o).

(** [object::decr]. *)
Definition object_decr (n : Z) (o : object) : option (Z * object) :=
  v ← object_value o;
  let v := if v <? n then 0 else v - n in
  Some (v, store_number v o).

(** [object::touch]. *)
Definition object_touch (ex : Z) (o : object) : object :=
  with_age 0 (with_meta (o_flags o) ex o).

(** [object::data]: the bytes, and the object with its age reset. *)
Definition object_data (o : object) : bytes * object :=
  (match o_file o with None => o_data o | Some f => f end, with_age 0 o).

(** [object::size]. *)
Definition object_size (o : object) : Z :=
  match o_file o with None => blen (o_data o) | Some f => blen f end.

(** [object::exptime] truncates to 32 bits. *)
Definition object_exptime (o : object) : Z := u32 (o_exptime o).

(** [object::survive]; the flag tells whether the file is to be flushed. *)
Definition object_survive (o : object) : object * bool :=
  let o := with_age (u32 (o_gc_old o + 1)) o in
  (o, (o_gc_old o =? FLUSH_AGE) && match o_file o with Some _ => true | None => false end).
End object.

(** ** Locks *)

Definition locked (o : object) : bool := negb (o_lock o =? -1).

Section context.
Context (g_context : Z).

Definition locked_by_self (o : object) : bool := o_lock o =? g_context.

Definition locked_by_other (o : object) : bool := locked o && negb (locked_by_self o).

(** [object::lock]. *)
Definition object_lock {E} (o : object) : M E object :=
  if locked o then throw logic_error else ret (with_lock g_context o).

(** [object::unlock]. *)
Definition object_unlock {E} (force : bool) (o : object) : M E object :=
  if negb force && negb (locked_by_self o) then throw logic_error
  else ret (with_lock (-1) o).
End context.

(** [object::expired]. *)
Definition expired (flush_time now : Z) (o : object) : bool :=
  if locked o then false else
  if negb (flush_time =? 0) && (flush_time <=? now) then true else
  if o_exptime o =? 0 then false else
  o_exptime o <=? now.
