(* ===== verification/MemObjectSpec.v ===== *)
(** * Properties of objects

    The representation invariant, and what each operation does to the value an
    object holds, whether it is kept in memory or in a file. *)

From S2P Require Import Prelude CLib MemTypes MemState MemObject.

(** The value: what [object::data] returns. *)
Definition contents (o : object) : bytes := (object_data o).1.

(** Objects in a file are above the limit and keep nothing in memory; [m_length]
    is the length of the value; the counters have their widths. *)
Record object_inv (cfg : mem_config) (o : object) : Prop := {
  oi_length : o_length o = blen (contents o);
  oi_file : forall f, o_file o = Some f -> o_data o = [] /\ o_length o > c_heap_data_limit cfg;
  oi_flags : 0 <= o_flags o < 2 ^ 32;
  oi_cas : 0 <= o_cas o < 2 ^ 64;
  oi_age : 0 <= o_gc_old o < 2 ^ 32
}.

Section spec.
Context (cfg : mem_config).

Lemma gtb_case a b : (a >? b) = true /\ a > b \/ (a >? b) = false /\ a <= b.
Proof. rewrite Z.gtb_ltb. destruct (Z.ltb_spec b a); [left|right]; split; done || lia. Qed.

Lemma object_new_inv p fl ex : 0 <= fl < 2 ^ 32 -> object_inv cfg (object_new cfg p fl ex).
Proof.
  intros H. unfold object_new, heap_data_limit.
  destruct (gtb_case (blen p) (c_heap_data_limit cfg)) as [[-> ?]|[-> ?]];
    constructor; cbn; try done; try lia; by intros f [= <-].
Qed.

Lemma object_new_contents p fl ex : contents (object_new cfg p fl ex) = p.
Proof. unfold contents, object_data, object_new. cbn. by destruct (blen p >? _). Qed.

Lemma object_number_inv v ex : object_inv cfg (object_number v ex).
Proof. constructor; cbn; try done; lia. Qed.

Lemma object_set_inv p fl ex o :
  0 <= fl < 2 ^ 32 -> object_inv cfg (object_set cfg p fl ex o).
Proof.
  intros H. unfold object_set, heap_data_limit, incr64.
  destruct (gtb_case (blen p) (c_heap_data_limit cfg)) as [[-> ?]|[-> ?]];
    constructor; cbn; try done; try lia; try apply u64_range; by intros f [= <-].
Qed.

Lemma object_set_contents p fl ex o : contents (object_set cfg p fl ex o) = p.
Proof. unfold contents, object_data, object_set. by destruct (blen p >? _). Qed.

(** The memory part of an object without a file. *)
Lemma inv_take o : object_inv cfg o -> o_file o = None ->
  take (Z.to_nat (o_length o)) (o_data o) = o_data o /\ blen (o_data o) = o_length o.
Proof.
  intros [Hl _ _ _ _] Hf. unfold contents, object_data in Hl. rewrite Hf in Hl. cbn in Hl.
  split; [|done]. rewrite Hl. unfold blen. rewrite Nat2Z.id. by rewrite take_ge.
Qed.

Lemma if_positive_take o : object_inv cfg o -> o_file o = None ->
  (if o_length o >? 0 then take (Z.to_nat (o_length o)) (o_data o) else []) = o_data o.
Proof.
  intros Hi Hf. destruct (inv_take o Hi Hf) as [-> Hl].
  destruct (gtb_case (o_length o) 0) as [[-> _]|[-> H]]; [done|].
  unfold blen in Hl. destruct (o_data o); [done|cbn in Hl; lia].
Qed.

Lemma object_append_spec p o :
  object_inv cfg o ->
  object_inv cfg (object_append cfg p o) /\
  contents (object_append cfg p o) = contents o ++ p.
Proof.
  intros Hi. pose proof Hi as [Hl Hf Hfl Hc Ha]. unfold object_append, heap_data_limit.
  destruct (Z.eqb_spec (blen p) 0) as [Hp|Hp].
  { assert (p = []) as -> by (destruct p; [done|unfold blen in Hp; cbn in Hp; lia]).
    rewrite app_nil_r. split; [|done]. constructor; cbn; try done; apply u64_range. }
  pose proof (blen_nonneg p). pose proof (u64_range (o_cas o + 1)).
  cbn [o_length modified o_file o_data].
  destruct (o_file o) as [f|] eqn:Ef.
  - destruct (Hf f eq_refl) as [Hd Hlim].
    assert (contents o = f) as Hc1 by (unfold contents, object_data; by rewrite Ef).
    rewrite Hc1 in *. rewrite Z.gtb_ltb. destruct (Z.ltb_spec (c_heap_data_limit cfg) (o_length o + blen p)); [|lia].
    split; [|done]. constructor; cbn; try done; try lia.
    + rewrite blen_app. lia.
    + intros f' [= <-]. split; [done|lia].
  - assert (contents o = o_data o) as Hc1 by (unfold contents, object_data; by rewrite Ef).
    rewrite Hc1 in *. rewrite if_positive_take by done.
    destruct (gtb_case (o_length o + blen p) (c_heap_data_limit cfg)) as [[-> ?]|[-> ?]].
    all: split; [constructor; cbn; rewrite ?blen_app; try done; try lia|done].
Qed.

Lemma object_prepend_spec p o :
  object_inv cfg o ->
  object_inv cfg (object_prepend cfg p o) /\
  contents (object_prepend cfg p o) = p ++ contents o.
Proof.
  intros Hi. pose proof Hi as [Hl Hf Hfl Hc Ha]. unfold object_prepend, heap_data_limit.
  destruct (Z.eqb_spec (blen p) 0) as [Hp|Hp].
  { assert (p = []) as -> by (destruct p; [done|unfold blen in Hp; cbn in Hp; lia]).
    split; [|done]. constructor; cbn; try done; apply u64_range. }
  pose proof (blen_nonneg p). pose proof (u64_range (o_cas o + 1)).
  cbn [o_length modified o_file o_data].
  destruct (o_file o) as [f|] eqn:Ef.
  - destruct (Hf f eq_refl) as [Hd Hlim].
    assert (contents o = f) as Hc1 by (unfold contents, object_data; by rewrite Ef).
    rewrite Hc1 in *. rewrite Z.gtb_ltb. destruct (Z.ltb_spec (c_heap_data_limit cfg) (o_length o + blen p)); [|lia].
    rewrite take_ge by (rewrite length_app; unfold blen in *; lia).
    split; [|done]. constructor; cbn; rewrite ?blen_app; try done; try lia.
    intros f' [= <-]. split; [done|lia].
  - assert (contents o = o_data o) as Hc1 by (unfold contents, object_data; by rewrite Ef).
    rewrite Hc1 in *. rewrite if_positive_take by done.
    destruct (inv_take o Hi Ef) as [-> _].
    destruct (gtb_case (o_length o + blen p) (c_heap_data_limit cfg)) as [[-> ?]|[-> ?]].
    all: split; [constructor; cbn; rewrite ?blen_app; try done; try lia|done].
Qed.

(** ** incr and decr *)

(** The object holds the decimal representation of [v]. *)
Definition holds_number (o : object) (v : Z) : Prop :=
  o_file o = None /\ contents o = to_string v.

Lemma store_number_spec v o :
  object_inv cfg o -> o_file o = None -> 
  object_inv cfg (store_number v o) /\ holds_number (store_number v o) v.
Proof.
  intros Hi Hf. pose proof Hi as [Hl _ Hfl Hc Ha]. unfold store_number.
  split; [|split; [done|]]; [|unfold contents, object_data; cbn; by rewrite Hf].
  constructor; cbn; try done; [| |apply u64_range].
  - unfold contents, object_data. cbn. by rewrite Hf.
  - intros f Hf'. by rewrite Hf in Hf'.
Qed.

Lemma object_value_number v o :
  object_inv cfg o -> holds_number o v -> 0 <= v < 2 ^ 64 -> object_value o = Some v.
Proof.
  intros Hi [Hf Hc] Hv. unfold object_value. rewrite Hf.
  destruct (inv_take o Hi Hf) as [-> _].
  unfold contents, object_data in Hc. rewrite Hf in Hc. cbn in Hc. rewrite Hc.
  apply stoull_to_string. unfold ULLONG_MAX. lia.
Qed.

Lemma object_incdec_inv n o v o' :
  object_inv cfg o ->
  object_incr n o = Some (v, o') \/ object_decr n o = Some (v, o') ->
  object_inv cfg o' /\ holds_number o' v /\ o_cas o' = incr64 (o_cas o) /\
  o_lock o' = o_lock o.
Proof.
  intros Hi. unfold object_incr, object_decr.
  destruct (object_value o) as [x|] eqn:E; [|by intros [|]].
  assert (o_file o = None) as Hf by (unfold object_value in E; by destruct (o_file o)).
  assert (forall w, object_inv cfg (store_number w o) /\ holds_number (store_number w o) w /\
    o_cas (store_number w o) = incr64 (o_cas o) /\ o_lock (store_number w o) = o_lock o) as H.
  { intros w. destruct (store_number_spec w o Hi Hf) as [H1 H2].
    split; [exact H1|]. split; [exact H2|done]. }
  intros [[= <- <-]|[= <- <-]]; apply H.
Qed.

(** ** Touching, reading and locking keep the value *)

Lemma with_age_inv n o : 0 <= n < 2 ^ 32 -> object_inv cfg o -> object_inv cfg (with_age n o).
Proof. intros Hn []. by constructor. Qed.

Lemma with_lock_inv l o : object_inv cfg o -> object_inv cfg (with_lock l o).
Proof. intros []. by constructor. Qed.

Lemma object_touch_inv ex o : object_inv cfg o -> object_inv cfg (object_touch ex o).
Proof. intros []. by constructor. Qed.

Lemma object_data_inv o : object_inv cfg o -> object_inv cfg (object_data o).2.
Proof. intros []. by constructor. Qed.
End spec.

(** The lock survives every change of the value. *)
Lemma object_set_lock cfg p fl ex o : o_lock (object_set cfg p fl ex o) = o_lock o.
Proof. unfold object_set. by destruct (blen p >? _). Qed.

Lemma object_append_lock cfg p o : o_lock (object_append cfg p o) = o_lock o.
Proof.
  unfold object_append. destruct (blen p =? 0); [done|]. cbn.
  destruct (_ >? _); [|done]. by destruct (o_file o).
Qed.

Lemma object_prepend_lock cfg p o : o_lock (object_prepend cfg p o) = o_lock o.
Proof.
  unfold object_prepend. destruct (blen p =? 0); [done|]. cbn.
  destruct (_ >? _); [|done]. by destruct (o_file o).
Qed.

(** ** Locks *)

Lemma not_locked_by_other ctx o : locked_by_other ctx o = false -> o_lock o = -1 \/ o_lock o = ctx.
Proof.
  unfold locked_by_other, locked, locked_by_self.
  destruct (Z.eqb_spec (o_lock o) (-1)); [by left|].
  destruct (Z.eqb_spec (o_lock o) ctx); [by right|done].
Qed.

Lemma locked_not_expired ft now o : locked o = true -> expired ft now o = false.
Proof. unfold expired. by intros ->. Qed.

Lemma not_locked o : locked o = false -> o_lock o = -1.
Proof. unfold locked. by destruct (Z.eqb_spec (o_lock o) (-1)). Qed.
