(* ===== verification/Response.v ===== *)
(** * Responses (classes text_response and binary_response of src/memcache) *)

From S2P Require Import Prelude CLib MemTypes TextRequest BinaryRequest MemState.

Definition CRLF : bytes := [CR; LF].

(** ** text_response *)

Module text_response.

Definition VALUE : bytes := lit "VALUE ".
Definition NON_NUMERIC : bytes :=
  lit "CLIENT_ERROR cannot increment or decrement non-numeric value" ++ CRLF.
Definition NOT_LOCKED : bytes :=
  lit "CLIENT_ERROR object is not locked or not found" ++ CRLF.

Definition error : M env unit := send (lit "ERROR" ++ CRLF) true.
Definition ok : M env unit := send (lit "OK" ++ CRLF) true.
Definition end_ : M env unit := send (lit "END" ++ CRLF) true.
Definition stored : M env unit := send (lit "STORED" ++ CRLF) true.
Definition not_stored : M env unit := send (lit "NOT_STORED" ++ CRLF) true.
Definition exists_ : M env unit := send (lit "EXISTS" ++ CRLF) true.
Definition touched : M env unit := send (lit "TOUCHED" ++ CRLF) true.
Definition deleted : M env unit := send (lit "DELETED" ++ CRLF) true.
Definition not_found : M env unit := send (lit "NOT_FOUND" ++ CRLF) true.
Definition locked : M env unit := send (lit "LOCKED" ++ CRLF) true.

(** [value(key, flags, data)], and [value(key, flags, data, cas)] with [Some cas]. *)
Definition value (key : bytes) (flags : Z) (data : bytes) (cas : option Z) : M env unit :=
  if blen key >? MAX_KEY_LENGTH then throw logic_error else
  let buf := SP :: to_string flags ++ SP :: to_string (blen data) ++
             match cas with Some c => SP :: to_string c | None => [] end ++ CRLF in
  sendv [VALUE; key; buf; data; CRLF] false.

(** [value(key)]. *)
Definition value_key (key : bytes) : M env unit :=
  if blen key >? MAX_KEY_LENGTH then throw logic_error else
  sendv [VALUE; key; CRLF] false.

Definition version : M env unit := sendv [lit "VERSION "; VERSION; CRLF] true.

End text_response.

(** ** binary_response *)

Module binary_response.
Section response.
(** The request that is answered, and its [opaque] bytes. *)
Context (req : binary_request) (opq : bytes).

(** [fill_header]. *)
Definition fill_header (key_len extras_len data_len cas : Z) (status : binary_status) : bytes :=
  let key_len := u16 key_len in
  let extras_len := u8 extras_len in
  let data_len := u32 data_len in
  [x81; binary_command_byte (b_command req)] ++ hton 2 key_len ++ [bZ extras_len; x00] ++
  hton 2 (binary_status_code status) ++ hton 4 (u32 (key_len + extras_len + data_len)) ++
  opq ++ hton 8 cas.

(** [send_error]. *)
Definition send_error (status : binary_status) (msg : bytes) : M env unit :=
  if blen msg >? 100 then throw logic_error else
  send (fill_header 0 0 (blen msg) 0 status ++ msg) true.

(** [error]. *)
Definition error (status : binary_status) : M env unit :=
  match status with
  | NotFound => send_error status (lit "Not found")
  | Exists => send_error status (lit "Exists")
  | TooLargeValue => send_error status (lit "Too large value")
  | Invalid => send_error status (lit "Invalid request")
  | NotStored => send_error status (lit "Not stored")
  | NonNumeric => send_error status (lit "Non-numeric value")
  | Locked => send_error status (lit "Locked")
  | NotLocked => send_error status (lit "Not locked")
  | UnknownCommand => send_error status (lit "Unknown command")
  | OutOfMemory => send_error status (lit "Out of memory")
  | OK => throw logic_error
  end.

Definition success : M env unit := send (fill_header 0 0 0 0 OK) true.

(** [get], without or with a key. *)
Definition get (flags : Z) (data : bytes) (cas : Z) (flush : bool) (key : option bytes)
    : M env unit :=
  let key_len := match key with Some k => blen k | None => 0 end in
  let header := fill_header key_len 4 (blen data) cas OK in
  let b_flags := hton 4 flags in
  match key with
  | None => sendv [header; b_flags; data] flush
  | Some k => sendv [header; b_flags; k; data] flush
  end.

Definition key (k : bytes) : M env unit :=
  sendv [fill_header (blen k) 0 0 0 OK; k] false.

Definition set (cas : Z) : M env unit := send (fill_header 0 0 0 cas OK) true.

Definition incdec (value cas : Z) : M env unit :=
  send (fill_header 0 0 8 cas OK ++ hton 8 value) true.

Definition quit : M env unit := send_close (fill_header 0 0 0 0 OK).

Definition send_stat (name value : bytes) : M env unit :=
  sendv [fill_header (blen name) 0 (blen value) 0 OK; name; value] false.

Definition version : M env unit :=
  send (fill_header 0 0 (blen VERSION) 0 OK ++ VERSION) true.

End response.
End binary_response.
