(* ===== verification/Stats.v ===== *)
(** * Statistics reports

    The [stats_*] functions of text_response and binary_response
    (src/memcache/memcache.cpp), and that both protocols report the same names and
    values in the same order. *)

From S2P Require Import Prelude CLib MemTypes TextRequest BinaryRequest MemState Response.

Definition on_off (b : bool) : bytes := if b then lit "on" else lit "off".

(** [std::setfill('0') << std::setw(6) << n]. *)
Definition pad6 (n : Z) : bytes :=
  let s := to_string n in replicate (6 - length s) x30 ++ s.
(** [tv_sec << '.' << tv_usec]. *)
Definition seconds (tv : Z * Z) : bytes := to_string_signed tv.1 ++ [x2e] ++ pad6 tv.2.

Definition text_op (st : statistics) (c : text_command) : bytes :=
  to_string (default 0 (text_ops st !! text_command_index c)).
Definition bin_op (st : statistics) (c : binary_command) : bytes :=
  to_string (default 0 (bin_ops st !! Z.to_nat (binary_command_code c))).

(** [os << s << v << CRLF]. *)
Definition os (s : string) (v : bytes) : bytes := lit s ++ v ++ CRLF.

Section stats.
Context (r : request_env) (st : statistics) (n_slaves : Z).
Let cfg := r_config r.

(** ** text_response *)

Definition text_stats_settings : bytes := concat [
  os "STAT maxbytes " (to_string (c_memory_limit cfg));
  os "STAT tcpport " (to_string (c_port cfg));
  os "STAT replport " (to_string (c_repl_port cfg));
  os "STAT virtual_ip " (c_vip cfg);
  os "STAT evictions on" [];
  os "STAT cas_enabled on" [];
  os "STAT locking on" [];
  os "STAT secure_erase " (on_off (c_secure_erase cfg));
  os "STAT lock_memory " (on_off (c_lock_memory cfg));
  os "STAT tmp_dir " (c_tempdir cfg);
  os "STAT buckets " (to_string (c_buckets cfg));
  os "STAT item_size_max " (to_string (c_max_data_size cfg));
  os "STAT num_threads " (to_string (c_workers cfg));
  os "STAT gc_interval " (to_string (c_gc_interval cfg))].

Definition text_stats_items : bytes := concat [
  os "STAT items:1:number " (to_string (objects st));
  os "STAT items:1:age " (to_string (oldest_age st));
  os "STAT items:1:evicted " (to_string (total_evictions st));
  os "STAT items:1:conflicts " (to_string (conflicts st));
  os "STAT items:1:largest " (to_string (largest_object_size st))].

Definition text_stats_sizes : bytes := concat [
  os "STAT 1024 " (to_string (objects_under_1k st));
  os "STAT 4096 " (to_string (objects_under_4k st));
  os "STAT 16384 " (to_string (objects_under_16k st));
  os "STAT 65536 " (to_string (objects_under_64k st));
  os "STAT 262144 " (to_string (objects_under_256k st));
  os "STAT 1048576 " (to_string (objects_under_1m st));
  os "STAT 4194304 " (to_string (objects_under_4m st));
  os "STAT huge " (to_string (objects_huge st))].

Definition text_stats_general : bytes := concat [
  os "STAT pid " (to_string_signed (r_getpid r));
  os "STAT time " (to_string_signed (r_now r));
  os "STAT version " VERSION;
  os "STAT pointer_size " (to_string 64);
  os "STAT rusage_user " (seconds (r_utime r));
  os "STAT rusage_system " (seconds (r_stime r));
  os "STAT curr_connections " (to_string (curr_connections st));
  os "STAT total_connections " (to_string (total_connections st));
  os "STAT curr_items " (to_string (objects st));
  os "STAT total_items " (to_string (total_objects st));
  os "STAT get_hits " (to_string (get_hits st));
  os "STAT get_misses " (to_string (get_misses st));
  os "STAT cas_hits " (to_string (cas_hits st));
  os "STAT cas_misses " (to_string (cas_misses st));
  os "STAT cas_badval " (to_string (cas_badval st));
  os "STAT bytes " (to_string (used_memory st));
  os "STAT limit_maxbytes " (to_string (c_memory_limit cfg));
  os "STAT threads " (to_string (c_workers cfg));
  os "STAT gc_count " (to_string (gc_count st));
  os "STAT slaves " (to_string n_slaves);
  os "STAT last_expirations " (to_string (last_expirations st));
  os "STAT last_evictions " (to_string (last_evictions st));
  os "STAT evictions " (to_string (total_evictions st));
  os "STAT last_gc_elapsed " (to_string (last_gc_elapsed st));
  os "STAT total_gc_elapsed " (to_string (total_gc_elapsed st))].

Definition text_stats_ops : bytes := concat [
  os "STAT text:set " (text_op st SET);
  os "STAT text:add " (text_op st ADD);
  os "STAT text:replace " (text_op st REPLACE);
  os "STAT text:append " (text_op st APPEND);
  os "STAT text:prepend " (text_op st PREPEND);
  os "STAT text:cas " (text_op st CAS);
  os "STAT text:get " (text_op st GET);
  os "STAT text:gets " (text_op st GETS);
  os "STAT text:delete " (text_op st DELETE);
  os "STAT text:incr " (text_op st INCR);
  os "STAT text:decr " (text_op st DECR);
  os "STAT text:touch " (text_op st TOUCH);
  os "STAT text:lock " (text_op st LOCK);
  os "STAT text:unlock " (text_op st UNLOCK);
  os "STAT text:unlock_all " (text_op st UNLOCK_ALL);
  os "STAT text:slabs " (text_op st SLABS);
  os "STAT text:stats " (text_op st STATS);
  os "STAT text:flush_all " (text_op st FLUSH_ALL);
  os "STAT text:version " (text_op st VERSION_);
  os "STAT text:verbosity " (text_op st VERBOSITY);
  os "STAT text:quit " (text_op st QUIT);
  os "STAT text:keys " (text_op st KEYS);
  os "STAT binary:Get " (bin_op st Get);
  os "STAT binary:Set " (bin_op st Set_);
  os "STAT binary:Add " (bin_op st Add);
  os "STAT binary:Replace " (bin_op st Replace);
  os "STAT binary:Delete " (bin_op st Delete);
  os "STAT binary:Increment " (bin_op st Increment);
  os "STAT binary:Decrement " (bin_op st Decrement);
  os "STAT binary:Quit " (bin_op st Quit);
  os "STAT binary:Flush " (bin_op st Flush);
  os "STAT binary:GetQ " (bin_op st GetQ);
  os "STAT binary:Noop " (bin_op st Noop);
  os "STAT binary:Version " (bin_op st Version);
  os "STAT binary:GetK " (bin_op st GetK);
  os "STAT binary:GetKQ " (bin_op st GetKQ);
  os "STAT binary:Append " (bin_op st Append);
  os "STAT binary:Prepend " (bin_op st Prepend);
  os "STAT binary:Stat " (bin_op st Stat);
  os "STAT binary:SetQ " (bin_op st SetQ);
  os "STAT binary:AddQ " (bin_op st AddQ);
  os "STAT binary:ReplaceQ " (bin_op st ReplaceQ);
  os "STAT binary:DeleteQ " (bin_op st DeleteQ);
  os "STAT binary:IncrementQ " (bin_op st IncrementQ);
  os "STAT binary:DecrementQ " (bin_op st DecrementQ);
  os "STAT binary:QuitQ " (bin_op st QuitQ);
  os "STAT binary:FlushQ " (bin_op st FlushQ);
  os "STAT binary:AppendQ " (bin_op st AppendQ);
  os "STAT binary:PrependQ " (bin_op st PrependQ);
  os "STAT binary:Touch " (bin_op st Touch);
  os "STAT binary:GaT " (bin_op st GaT);
  os "STAT binary:GaTQ " (bin_op st GaTQ);
  os "STAT binary:GaTK " (bin_op st GaTK);
  os "STAT binary:GaTKQ " (bin_op st GaTKQ);
  os "STAT binary:Lock " (bin_op st Lock);
  os "STAT binary:LockQ " (bin_op st LockQ);
  os "STAT binary:Unlock " (bin_op st Unlock);
  os "STAT binary:UnlockQ " (bin_op st UnlockQ);
  os "STAT binary:UnlockAll " (bin_op st UnlockAll);
  os "STAT binary:UnlockAllQ " (bin_op st UnlockAllQ);
  os "STAT binary:LaG " (bin_op st LaG);
  os "STAT binary:LaGQ " (bin_op st LaGQ);
  os "STAT binary:LaGK " (bin_op st LaGK);
  os "STAT binary:LaGKQ " (bin_op st LaGKQ);
  os "STAT binary:RaU " (bin_op st RaU);
  os "STAT binary:RaUQ " (bin_op st RaUQ);
  os "STAT binary:Keys " (bin_op st Keys)].

(** ** binary_response: the arguments of the calls of [send_stat] *)

Definition binary_stats_settings : list (bytes * bytes) := [
  (lit "maxbytes", (to_string (c_memory_limit cfg)));
  (lit "tcpport", (to_string (c_port cfg)));
  (lit "replport", (to_string (c_repl_port cfg)));
  (lit "virtual_ip", (c_vip cfg));
  (lit "evictions", (lit "on"));
  (lit "cas_enabled", (lit "on"));
  (lit "locking", (lit "on"));
  (lit "secure_erase", (on_off (c_secure_erase cfg)));
  (lit "lock_memory", (on_off (c_lock_memory cfg)));
  (lit "tmp_dir", (c_tempdir cfg));
  (lit "buckets", (to_string (c_buckets cfg)));
  (lit "item_size_max", (to_string (c_max_data_size cfg)));
  (lit "num_threads", (to_string (c_workers cfg)));
  (lit "gc_interval", (to_string (c_gc_interval cfg)))].

Definition binary_stats_items : list (bytes * bytes) := [
  (lit "items:1:number", (to_string (objects st)));
  (lit "items:1:age", (to_string (oldest_age st)));
  (lit "items:1:evicted", (to_string (total_evictions st)));
  (lit "items:1:conflicts", (to_string (conflicts st)));
  (lit "items:1:largest", (to_string (largest_object_size st)))].

Definition binary_stats_sizes : list (bytes * bytes) := [
  (lit "1024", (to_string (objects_under_1k st)));
  (lit "4096", (to_string (objects_under_4k st)));
  (lit "16384", (to_string (objects_under_16k st)));
  (lit "65536", (to_string (objects_under_64k st)));
  (lit "262144", (to_string (objects_under_256k st)));
  (lit "1048576", (to_string (objects_under_1m st)));
  (lit "4194304", (to_string (objects_under_4m st)));
  (lit "huge", (to_string (objects_huge st)))].

Definition binary_stats_general : list (bytes * bytes) := [
  (lit "pid", (to_string_signed (r_getpid r)));
  (lit "time", (to_string_signed (r_now r)));
  (lit "version", VERSION);
  (lit "pointer_size", (to_string 64));
  (lit "rusage_user", (seconds (r_utime r)));
  (lit "rusage_system", (seconds (r_stime r)));
  (lit "curr_connections", (to_string (curr_connections st)));
  (lit "total_connections", (to_string (total_connections st)));
  (lit "curr_items", (to_string (objects st)));
  (lit "total_items", (to_string (total_objects st)));
  (lit "get_hits", (to_string (get_hits st)));
  (lit "get_misses", (to_string (get_misses st)));
  (lit "cas_hits", (to_string (cas_hits st)));
  (lit "cas_misses", (to_string (cas_misses st)));
  (lit "cas_badval", (to_string (cas_badval st)));
  (lit "bytes", (to_string (used_memory st)));
  (lit "limit_maxbytes", (to_string (c_memory_limit cfg)));
  (lit "threads", (to_string (c_workers cfg)));
  (lit "gc_count", (to_string (gc_count st)));
  (lit "slaves", (to_string n_slaves));
  (lit "last_expirations", (to_string (last_expirations st)));
  (lit "last_evictions", (to_string (last_evictions st)));
  (lit "evictions", (to_string (total_evictions st)));
  (lit "last_gc_elapsed", (to_string (last_gc_elapsed st)));
  (lit "total_gc_elapsed", (to_string (total_gc_elapsed st)))].

Definition binary_stats_ops : list (bytes * bytes) := [
  (lit "text:set", text_op st SET);
  (lit "text:add", text_op st ADD);
  (lit "text:replace", text_op st REPLACE);
  (lit "text:append", text_op st APPEND);
  (lit "text:prepend", text_op st PREPEND);
  (lit "text:cas", text_op st CAS);
  (lit "text:get", text_op st GET);
  (lit "text:gets", text_op st GETS);
  (lit "text:delete", text_op st DELETE);
  (lit "text:incr", text_op st INCR);
  (lit "text:decr", text_op st DECR);
  (lit "text:touch", text_op st TOUCH);
  (lit "text:lock", text_op st LOCK);
  (lit "text:unlock", text_op st UNLOCK);
  (lit "text:unlock_all", text_op st UNLOCK_ALL);
  (lit "text:slabs", text_op st SLABS);
  (lit "text:stats", text_op st STATS);
  (lit "text:flush_all", text_op st FLUSH_ALL);
  (lit "text:version", text_op st VERSION_);
  (lit "text:verbosity", text_op st VERBOSITY);
  (lit "text:quit", text_op st QUIT);
  (lit "text:keys", text_op st KEYS);
  (lit "binary:Get", bin_op st Get);
  (lit "binary:Set", bin_op st Set_);
  (lit "binary:Add", bin_op st Add);
  (lit "binary:Replace", bin_op st Replace);
  (lit "binary:Delete", bin_op st Delete);
  (lit "binary:Increment", bin_op st Increment);
  (lit "binary:Decrement", bin_op st Decrement);
  (lit "binary:Quit", bin_op st Quit);
  (lit "binary:Flush", bin_op st Flush);
  (lit "binary:GetQ", bin_op st GetQ);
  (lit "binary:Noop", bin_op st Noop);
  (lit "binary:Version", bin_op st Version);
  (lit "binary:GetK", bin_op st GetK);
  (lit "binary:GetKQ", bin_op st GetKQ);
  (lit "binary:Append", bin_op st Append);
  (lit "binary:Prepend", bin_op st Prepend);
  (lit "binary:Stat", bin_op st Stat);
  (lit "binary:SetQ", bin_op st SetQ);
  (lit "binary:AddQ", bin_op st AddQ);
  (lit "binary:ReplaceQ", bin_op st ReplaceQ);
  (lit "binary:DeleteQ", bin_op st DeleteQ);
  (lit "binary:IncrementQ", bin_op st IncrementQ);
  (lit "binary:DecrementQ", bin_op st DecrementQ);
  (lit "binary:QuitQ", bin_op st QuitQ);
  (lit "binary:FlushQ", bin_op st FlushQ);
  (lit "binary:AppendQ", bin_op st AppendQ);
  (lit "binary:PrependQ", bin_op st PrependQ);
  (lit "binary:Touch", bin_op st Touch);
  (lit "binary:GaT", bin_op st GaT);
  (lit "binary:GaTQ", bin_op st GaTQ);
  (lit "binary:GaTK", bin_op st GaTK);
  (lit "binary:GaTKQ", bin_op st GaTKQ);
  (lit "binary:Lock", bin_op st Lock);
  (lit "binary:LockQ", bin_op st LockQ);
  (lit "binary:Unlock", bin_op st Unlock);
  (lit "binary:UnlockQ", bin_op st UnlockQ);
  (lit "binary:UnlockAll", bin_op st UnlockAll);
  (lit "binary:UnlockAllQ", bin_op st UnlockAllQ);
  (lit "binary:LaG", bin_op st LaG);
  (lit "binary:LaGQ", bin_op st LaGQ);
  (lit "binary:LaGK", bin_op st LaGK);
  (lit "binary:LaGKQ", bin_op st LaGKQ);
  (lit "binary:RaU", bin_op st RaU);
  (lit "binary:RaUQ", bin_op st RaUQ);
  (lit "binary:Keys", bin_op st Keys)].

End stats.

(** [stats_*] by the requested category. *)
Definition text_stats_text (r : request_env) (st : statistics) (t : stats_t) : bytes :=
  match t with
  | SETTINGS => text_stats_settings r
  | ITEMS => text_stats_items st
  | SIZES => text_stats_sizes st
  | OPS => text_stats_ops st
  | GENERAL => text_stats_general r st (Z.of_nat (length (r_slaves r)))
  end.

Definition text_stats (r : request_env) (t : stats_t) : M env unit :=
  let! st := gets e_stats in send (text_stats_text r st t) false.

Definition binary_stats_list (r : request_env) (st : statistics) (t : stats_t)
    : list (bytes * bytes) :=
  match t with
  | SETTINGS => binary_stats_settings r
  | ITEMS => binary_stats_items st
  | SIZES => binary_stats_sizes st
  | OPS => binary_stats_ops st
  | GENERAL => binary_stats_general r st (Z.of_nat (length (r_slaves r)))
  end.

Definition binary_stats (r : request_env) (req : binary_request) (opq : bytes) (t : stats_t)
    : M env unit :=
  let! st := gets e_stats in
  iterM (fun nv => binary_response.send_stat req opq nv.1 nv.2) (binary_stats_list r st t) ;;!
  binary_response.success req opq.

(** ** Both protocols report the same statistics *)

(** One line of a text report. *)
Definition stat_line (nv : bytes * bytes) : bytes :=
  lit "STAT " ++ nv.1 ++ [SP] ++ nv.2 ++ CRLF.

Lemma os_stat s n v : lit s = lit "STAT " ++ n ++ [SP] -> os s v = stat_line (n, v).
Proof. intros H. unfold os, stat_line. rewrite H, <- !app_assoc. done. Qed.

Lemma concat_cons_eq (x y : bytes) xs ys :
  x = y -> concat xs = concat ys -> concat (x :: xs) = concat (y :: ys).
Proof. intros -> H. cbn. by rewrite H. Qed.

(** Both protocols report the same statistics: for every kind of report the text
    of the text protocol is one line per name and value of the binary protocol, in the
    same order. *)
Theorem stats_same_report r st t :
  text_stats_text r st t = concat (stat_line <$> binary_stats_list r st t).
Proof.
  destruct t; cbn [text_stats_text binary_stats_list fmap list_fmap];
    unfold text_stats_settings, text_stats_items, text_stats_sizes, text_stats_ops,
      text_stats_general, binary_stats_settings, binary_stats_items, binary_stats_sizes,
      binary_stats_ops, binary_stats_general; cbn [fmap list_fmap];
    repeat (apply concat_cons_eq; [first [by apply os_stat | done]|]); done.
Qed.
