(* ===== verification/Replication.v ===== *)
(** * Replication (src/memcache/replication.cpp)

    What the master sends to its slaves for each change, and what a slave does
    with the bytes it receives. *)

From S2P Require Import Prelude CLib MemTypes Table TextRequest BinaryRequest MemState.
From S2P Require Import MemObject.

Module replication.

(** [fill_header]; the rest of the header is zero. *)
Definition fill_header (key_len extras_len data_len : Z) (cmd : binary_command) : bytes :=
  let key_len := u16 key_len in
  let extras_len := u8 extras_len in
  let data_len := u32 data_len in
  [x80; binary_command_byte cmd] ++ hton 2 key_len ++ [bZ extras_len] ++ replicate 3 x00 ++
  hton 4 (u32 (key_len + extras_len + data_len)) ++ replicate 12 x00.

(** The vectors that [repl_object], [repl_touch] and [repl_delete] send. *)
Definition object_iov (key : bytes) (obj : object) : list bytes :=
  [fill_header (blen key) 8 (object_size obj) SetQ;
   hton 4 (o_flags obj) ++ hton 4 (object_exptime obj); key; (object_data obj).1].
Definition touch_iov (key : bytes) (obj : object) : list bytes :=
  [fill_header (blen key) 4 0 Touch; hton 4 (object_exptime obj); key].
Definition delete_iov (key : bytes) : list bytes :=
  [fill_header (blen key) 0 0 DeleteQ; key].

(** [repl_object]; [obj.data(buf)] resets the age of the object. *)
Definition repl_object (slaves : list nat) (key : bytes) (obj : object) (flush : bool)
    : M env object :=
  sendv_slaves slaves (object_iov key obj) flush ;;!
  ret (object_data obj).2.

(** [repl_touch]. *)
Definition repl_touch (slaves : list nat) (key : bytes) (obj : object) : M env unit :=
  sendv_slaves slaves (touch_iov key obj) true.

(** [repl_delete]. *)
Definition repl_delete (slaves : list nat) (key : bytes) : M env unit :=
  sendv_slaves slaves (delete_iov key) false.

(** ** The slave *)

Section slave.
Context {H : Type} `{TableOps H object} (cfg : mem_config) (ck : clock) (u : uninit).

Definition count_created : M env unit :=
  modify (upd_stats (fun s => set_repl_created (incr64 (repl_created s)) s)).
Definition count_updated : M env unit :=
  modify (upd_stats (fun s => set_repl_updated (incr64 (repl_updated s)) s)).
Definition count_removed : M env unit :=
  modify (upd_stats (fun s => set_repl_removed (incr64 (repl_removed s)) s)).

(** The body of the [switch] of [repl_recv] for one request; the status of the
    request is not looked at. *)
Definition repl_apply (buf : bytes) (parser : binary_request) (hash : H) : M env H :=
  let key := item_bytes buf (b_key parser) in
  let data := item_bytes buf (b_data parser) in
  match b_command parser with
  | SetQ =>
      let h : handler env object := fun _ obj =>
        count_updated ;;!
        ret (true, object_set cfg data (b_flags parser) (b_exptime parser) obj) in
      let c : creator env object := fun _ =>
        count_created ;;!
        new_object (object_new cfg data (b_flags parser) (b_exptime parser)) in
      let! (_, hash) := t_apply hash key (Some h) (Some c) in
      ret hash
  | Touch =>
      let h : handler env object := fun _ obj =>
        count_updated ;;!
        ret (true, object_touch (b_exptime parser) obj) in
      let! (_, hash) := t_apply hash key (Some h) None in
      ret hash
  | DeleteQ =>
      count_removed ;;!
      let! (_, hash) := t_remove hash key in
      ret hash
  | _ => ret hash
  end.

(** [repl_recv]: the number of bytes consumed, and the table.  Every request has
    at least 24 bytes, so [length buf] rounds are enough. *)
Fixpoint repl_loop (fuel : nat) (buf : bytes) (consumed : nat) (hash : H) : M env (nat * H) :=
  match fuel with
  | O => throw no_fuel
  | S f =>
      match buf with
      | [] => ret (consumed, hash)
      | b :: _ =>
          if negb (is_binary_request b) then throw runtime_error else
          let! parser := checked (binary_parse ck u buf) in
          let n := b_request_len parser in
          if (n =? 0)%nat then ret (consumed, hash) else
          let! hash := repl_apply buf parser hash in
          repl_loop f (drop n buf) (consumed + n) hash
      end
  end.

Definition repl_recv (buf : bytes) (hash : H) : M env (nat * H) :=
  repl_loop (S (length buf)) buf 0 hash.
End slave.

End replication.
