(* ===== verification/Samples.v ===== *)
(** * Concrete inputs

    A configuration, a table and a process state on which the definitions are
    evaluated: the examples and the instances of the theorems use them. *)

From S2P Require Import Prelude Siphash Table HashMap HashMapSpec MemTypes BinaryRequest.
From S2P Require Import MemState MemObject.

Definition sample_sip_key : sip_key := siphash24_seed (bZ <$> [0;1;2;3;4;5;6;7;8;9;10;11;12;13;14;15]).

(** A table of seven buckets. *)
Abbreviation sample_table := (hash_map object).
#[export] Instance sample_ops : TableOps sample_table object := hash_map_ops sample_sip_key object.
#[export] Instance sample_laws : Table sample_table object := hash_map_table sample_sip_key object.

Definition sample_empty : sample_table := hash_map_ctor object 7.

Definition sample_config : mem_config := {|
  c_memory_limit := 1048576; c_port := 11211; c_repl_port := 11213; c_vip := [];
  c_secure_erase := false; c_lock_memory := false; c_tempdir := []; c_buckets := 7;
  c_max_data_size := 1024; c_heap_data_limit := 64; c_workers := 1; c_gc_interval := 10 |}.

Definition sample_clock : clock := {| g_current_time := 1000; errno_erange := false |}.

(** What the stack happens to hold where a [binary_request] is constructed. *)
Definition sample_u : uninit := {| u_command := Get; u_quiet := false; u_cas_unique := 0 |}.

(** A request handled at time 1000 by the connection with descriptor [ctx]. *)
Definition sample_request (ctx : Z) (slaves : list nat) : request_env := {|
  r_config := sample_config; r_now := 1000; r_context := ctx; r_slaves := slaves;
  r_getpid := 1; r_utime := (0, 0); r_stime := (0, 0) |}.

Definition sample_env (locks : list kref) : env := {|
  e_stats := stats_reset; e_locks := locks; e_out := []; e_threshold := sev_info |}.
