(* ===== verification/ReplicationSpec.v ===== *)
(** * Properties of replication

    What a slave does with the messages of a sequence of changes.  The abstract state is the
    finite map from keys to values, flags and expiration times; each message is one
    update of it.  A slave applies the change of the master itself, except that an
    empty value arrives without flags and expiration time, and that the expiration time
    is what 32 bits say to the parser of requests. *)

From S2P Require Import Prelude CLib MemTypes Table TextRequest TextRoundtrip BinaryRequest.
From S2P Require Import BinaryRequestSpec BinaryRoundtrip MemState MemObject MemObjectSpec.
From S2P Require Import Replication Siphash HashMap HashMapSpec Samples.

Import replication.

(** ** Messages *)

Inductive event :=
| ev_object (key : bytes) (o : object)
| ev_touch (key : bytes) (o : object)
| ev_delete (key : bytes).

(** The bytes [repl_object], [repl_touch] and [repl_delete] send to each slave. *)
Definition wire (ev : event) : bytes :=
  concat match ev with
         | ev_object key o => object_iov key o
         | ev_touch key o => touch_iov key o
         | ev_delete key => delete_iov key
         end.

Definition legal_key (key : bytes) : Prop := key <> [] /\ blen key <= MAX_KEY_LENGTH.

(** An absent expiration time, or an absolute one that 32 bits can hold. *)
Definition legal_exptime (o : object) : Prop :=
  o_exptime o = 0 \/ EXPTIME_THRESHOLD < o_exptime o < 2 ^ 32 - 1.

(** Changes whose messages have the form of a request. *)
Definition event_wf (ev : event) : Prop :=
  match ev with
  | ev_object key o =>
      legal_key key /\ 0 <= o_flags o < 2 ^ 32 /\ blen (contents o) <= MAX_REQUEST_LENGTH
  | ev_touch key _ | ev_delete key => legal_key key
  end.

(** Changes whose messages say all of them: no empty value, no expiration time that 32 bits
    cannot hold or that looks relative. *)
Definition faithful (ev : event) : Prop :=
  match ev with
  | ev_object _ o => contents o <> [] /\ legal_exptime o
  | ev_touch _ o => legal_exptime o
  | ev_delete _ => True
  end.

(** ** The abstract state *)

Definition value : Type := bytes * Z * Z.
Definition value_of (o : object) : value := (contents o, o_flags o, o_exptime o).
Definition view (m : gmap bytes (nat * object)) : gmap bytes value := (fun p => value_of p.2) <$> m.

Definition apply_event (ev : event) (m : gmap bytes value) : gmap bytes value :=
  match ev with
  | ev_object key o => <[key := value_of o]> m
  | ev_touch key o => alter (fun v => (v.1, o_exptime o)) key m
  | ev_delete key => delete key m
  end.

(** What a slave with the clock [ck] makes of a change. *)
Definition received_value (ck : clock) (o : object) : value :=
  match contents o with
  | [] => ([], 0, 0)
  | d => (d, o_flags o, exptime_of ck (object_exptime o))
  end.
Definition receive_event (ck : clock) (m : gmap bytes value) (ev : event) : gmap bytes value :=
  match ev with
  | ev_object key o => <[key := received_value ck o]> m
  | ev_touch key o => alter (fun v => (v.1, exptime_of ck (object_exptime o))) key m
  | ev_delete key => delete key m
  end.

(** ** The messages on the wire *)

Definition zeros (n : nat) : bytes := replicate n x00.

Lemma fill_header_encode key extras data cmd :
  blen key <= MAX_KEY_LENGTH -> blen extras < 256 -> blen data <= MAX_REQUEST_LENGTH ->
  fill_header (blen key) (blen extras) (blen data) cmd ++ extras ++ key ++ data =
    encode_request (binary_command_byte cmd) (zeros 2) (zeros 4) 0 extras key data.
Proof.
  intros Hk He Hd. pose proof (blen_nonneg key). pose proof (blen_nonneg extras).
  pose proof (blen_nonneg data).
  assert (MAX_KEY_LENGTH = 250) as Em by done. assert (MAX_REQUEST_LENGTH = 31457280) as Er by done.
  unfold fill_header, encode_request, u16, u8, u32.
  rewrite !(Z.mod_small _ (2 ^ 16)), !(Z.mod_small _ (2 ^ 8)), !(Z.mod_small _ (2 ^ 32))
    by (rewrite ?(Z.mod_small _ (2 ^ 32)) by lia; lia).
  rewrite (Z.add_comm (blen key)). cbn [zeros replicate]. by rewrite <- !app_assoc.
Qed.

Lemma wf_zeros extras key data :
  blen extras < 256 -> blen key <= MAX_KEY_LENGTH -> blen data <= MAX_REQUEST_LENGTH ->
  encode_wf (zeros 2) (zeros 4) 0 extras key data.
Proof. by constructor. Qed.

Lemma object_size_contents o : object_size o = blen (contents o).
Proof. unfold object_size, contents, object_data. by destruct (o_file o). Qed.

Lemma wire_object key o :
  blen key <= MAX_KEY_LENGTH -> blen (contents o) <= MAX_REQUEST_LENGTH ->
  wire (ev_object key o) =
    encode_request x11 (zeros 2) (zeros 4) 0 (set_extras (o_flags o) (object_exptime o)) key
      (contents o).
Proof.
  intros Hk Hd. rewrite <- (fill_header_encode key _ (contents o) SetQ) by (by rewrite ?blen_set_extras).
  rewrite blen_set_extras, <- object_size_contents. unfold wire, object_iov. cbn [concat].
  unfold set_extras. by rewrite app_nil_r.
Qed.

Lemma wire_touch key o :
  blen key <= MAX_KEY_LENGTH ->
  wire (ev_touch key o) =
    encode_request x1c (zeros 2) (zeros 4) 0 (hton 4 (object_exptime o)) key [].
Proof.
  intros Hk. rewrite <- (fill_header_encode key _ [] Touch) by done.
  unfold wire, touch_iov. cbn [concat]. by rewrite !app_nil_r.
Qed.

Lemma wire_delete key :
  blen key <= MAX_KEY_LENGTH ->
  wire (ev_delete key) = encode_request x14 (zeros 2) (zeros 4) 0 [] key [].
Proof.
  intros Hk. change x14 with (binary_command_byte DeleteQ).
  rewrite <- (fill_header_encode key [] [] DeleteQ) by done.
  unfold wire, delete_iov. cbn [concat app]. by rewrite !app_nil_r.
Qed.

Lemma exptime_roundtrip ck o :
  legal_exptime o -> exptime_of ck (object_exptime o) = o_exptime o.
Proof.
  assert (EXPTIME_THRESHOLD = 2592000) as Et by done. unfold legal_exptime, object_exptime, u32, exptime_of, absolute_time.
  intros [->|H]; [done|]. rewrite Z.mod_small by lia.
  destruct (Z.eqb_spec (o_exptime o) 0); [lia|].
  destruct (Z.eqb_spec (o_exptime o) 0xffffffff); [lia|].
  rewrite Z.gtb_ltb. by destruct (Z.ltb_spec EXPTIME_THRESHOLD (o_exptime o)); [|lia].
Qed.

(** Faithful messages are the changes of the master. *)
Lemma receive_faithful ck ev m : faithful ev -> receive_event ck m ev = apply_event ev m.
Proof.
  destruct ev as [key o|key o|key]; cbn; [intros [Hne Hx]|intros Hx|done].
  - unfold received_value, value_of. rewrite exptime_roundtrip by done. by destruct (contents o) eqn:E; rewrite ?E in *.
  - by rewrite exptime_roundtrip.
Qed.
Lemma receive_all_faithful ck evs m :
  Forall faithful evs -> foldl (receive_event ck) m evs = foldl (fun m ev => apply_event ev m) m evs.
Proof.
  intros Hf. revert m. induction Hf as [|ev evs He _ IH]; intros m; [done|]. cbn. by rewrite receive_faithful.
Qed.

(** ** The slave *)

(** The key and the data of a parsed message. *)
Lemma encoded_items op extras key data rest :
  encode_wf (zeros 2) (zeros 4) 0 extras key data ->
  let buf := encode_request op (zeros 2) (zeros 4) 0 extras key data ++ rest in
  item_bytes buf (b_key (encoded_request op 0 extras key data)) = key /\
  item_bytes buf (b_data (encoded_request op 0 extras key data)) = data.
Proof.
  intros wf buf. destruct (encode_at op _ _ _ _ _ _ rest wf) as (_&_&_&_&_&_&_&Hk&Hd).
  split.
  - destruct key as [|b key]; [done|]. by apply (item_at _ _ (b :: key)).
  - destruct data as [|b data]; [done|]. by apply (item_at _ _ (b :: data)).
Qed.

Lemma encode_head op vb opq cas extras key data rest :
  exists tl, encode_request op vb opq cas extras key data ++ rest = x80 :: tl.
Proof. by eexists. Qed.

Section slave.
Context {H : Type} `{HT : Table H object} (cfg : mem_config) (ck : clock) (u : uninit).

(** One round of the loop on a message that parses. *)
Lemma repl_loop_message f op extras key data rest c hash e parser hash' e' :
  let msg := encode_request op (zeros 2) (zeros 4) 0 extras key data in
  encode_wf (zeros 2) (zeros 4) 0 extras key data ->
  binary_parse ck u (msg ++ rest) = Some parser -> b_request_len parser = length msg ->
  repl_apply cfg (msg ++ rest) parser hash e = (inr hash', e') ->
  repl_loop cfg ck u (S f) (msg ++ rest) c hash e =
  repl_loop cfg ck u f rest (c + length msg) hash' e'.
Proof.
  intros msg wf Hp Hl Ha. destruct (encode_head op (zeros 2) (zeros 4) 0 extras key data rest) as [tl Htl].
  fold msg in Htl. cbn [repl_loop].
  replace (match msg ++ rest with [] => _ | b :: _ => _ end)
    with (let! parser := checked (binary_parse ck u (msg ++ rest)) in
          if (b_request_len parser =? 0)%nat then ret (c, hash) else
          let! hash := repl_apply cfg (msg ++ rest) parser hash in
          repl_loop cfg ck u f (drop (b_request_len parser) (msg ++ rest)) (c + b_request_len parser) hash)
    by (by rewrite Htl).
  unfold bind at 1. rewrite Hp. cbn [checked ret]. rewrite Hl.
  pose proof (length_encode op _ _ _ _ _ _ wf) as Hlen. fold msg in Hlen.
  destruct (Nat.eqb_spec (length msg) 0); [lia|]. unfold bind. rewrite Ha.
  by rewrite drop_app_length.
Qed.

Lemma view_insert m k a o : view (<[k := (a, o)]> m) = <[k := value_of o]> (view m).
Proof. unfold view. by rewrite fmap_insert. Qed.

Lemma value_of_set p fl ex o : value_of (object_set cfg p fl ex o) = (p, fl, ex).
Proof.
  unfold value_of. rewrite object_set_contents. unfold object_set. by destruct (blen p >? _).
Qed.

Lemma value_of_new p fl ex : value_of (object_new cfg p fl ex) = (p, fl, ex).
Proof. unfold value_of. by rewrite object_new_contents. Qed.

Definition step_result (ev : event) (hash hash' : H) : Prop :=
  t_inv hash' /\ view (t_map hash') = receive_event ck (view (t_map hash)) ev.

(** A message that sets an object. *)
Lemma apply_value key p fl ex buf parser hash e :
  t_inv hash -> b_command parser = SetQ -> item_bytes buf (b_key parser) = key ->
  item_bytes buf (b_data parser) = p -> b_flags parser = fl -> b_exptime parser = ex ->
  exists hash' e', repl_apply cfg buf parser hash e = (inr hash', e') /\
    t_inv hash' /\ view (t_map hash') = <[key := (p, fl, ex)]> (view (t_map hash)).
Proof.
  intros Hi Hc Hk Hd Hf He. unfold repl_apply. rewrite Hc, Hk, Hd, Hf, He.
  destruct (t_map hash !! key) as [[a o0]|] eqn:Hm; unfold bind at 1.
  - rewrite (t_apply_hit hash key a o0) by done. eexists _, _. split; [reflexivity|].
    split; [by apply t_put_inv|]. rewrite (t_put_map hash key a o0) by done.
    by rewrite view_insert, value_of_set.
  - rewrite t_apply_miss by done. eexists _, _. split; [reflexivity|].
    split; [by apply t_new_inv|]. rewrite t_new_map by done.
    by rewrite view_insert, value_of_new.
Qed.

Lemma apply_touch key ex buf parser hash e :
  t_inv hash -> b_command parser = Touch -> item_bytes buf (b_key parser) = key ->
  b_exptime parser = ex ->
  exists hash' e', repl_apply cfg buf parser hash e = (inr hash', e') /\
    t_inv hash' /\ view (t_map hash') = alter (fun v => (v.1, ex)) key (view (t_map hash)).
Proof.
  intros Hi Hc Hk He. unfold repl_apply. rewrite Hc, Hk, He.
  destruct (t_map hash !! key) as [[a o0]|] eqn:Hm; unfold bind at 1.
  - rewrite (t_apply_hit hash key a o0) by done. eexists _, _. split; [reflexivity|].
    split; [by apply t_put_inv|]. rewrite (t_put_map hash key a o0), view_insert by done. cbn.
    apply map_eq. intros k. unfold view. destruct (decide (k = key)) as [-> |Hne].
    + rewrite lookup_insert_eq, lookup_alter_eq, lookup_fmap, Hm. done.
    + by rewrite lookup_insert_ne, lookup_alter_ne.
  - rewrite t_apply_miss_null by done. eexists _, _. split; [reflexivity|].
    split; [by apply t_skip_inv|]. rewrite t_skip_map. cbn. symmetry.
    apply map_eq. intros k. unfold view. destruct (decide (k = key)) as [-> |Hne].
    + by rewrite lookup_alter_eq, lookup_fmap, Hm.
    + by rewrite lookup_alter_ne.
Qed.

Lemma apply_delete key buf parser hash e :
  t_inv hash -> b_command parser = DeleteQ -> item_bytes buf (b_key parser) = key ->
  exists hash' e', repl_apply cfg buf parser hash e = (inr hash', e') /\
    step_result (ev_delete key) hash hash'.
Proof.
  intros Hi Hc Hk. unfold repl_apply. rewrite Hc, Hk. unfold count_removed, bind, modify.
  destruct (t_map hash !! key) as [[a o0]|] eqn:Hm.
  - rewrite (t_remove_hit hash key (a, o0)) by done. eexists _, _. split; [reflexivity|].
    split; [by apply t_del_inv|]. rewrite t_del_map by done. cbn. unfold view. by rewrite fmap_delete.
  - rewrite t_remove_miss by done. eexists _, _. split; [reflexivity|].
    split; [by apply t_skip_inv|]. rewrite t_skip_map. cbn. symmetry.
    apply delete_id. unfold view. by rewrite lookup_fmap, Hm.
Qed.

Lemma length_key_nz (key : bytes) : key <> [] -> (blen key =? 0) = false.
Proof. destruct key; [done|]. intros _. unfold blen. cbn. apply Z.eqb_neq. lia. Qed.

(** The parser on [Touch] and [DeleteQ] messages. *)
Lemma parse_touch_message key t rest :
  legal_key key -> 0 <= t < 2 ^ 32 ->
  binary_parse ck u (encode_request x1c (zeros 2) (zeros 4) 0 (hton 4 t) key [] ++ rest) =
  Some (bset_status OK (bset_exptime (exptime_of ck t) (encoded_request x1c 0 (hton 4 t) key []))).
Proof.
  intros [Hne Hk] Ht. assert (encode_wf (zeros 2) (zeros 4) 0 (hton 4 t) key []) as wf by by apply wf_zeros.
  rewrite (binary_parse_encode ck u x1c _ _ _ _ _ _ rest wf).
  destruct (encode_at x1c _ _ _ _ _ _ rest wf) as (_&_&_&_&_&_&Hx&_).
  unfold binary_extras. cbn [b_command encoded_request binary_command_of_byte].
  rewrite (length_key_nz _ Hne). cbn [orb negb]. change (blen (hton 4 t)) with 4. cbn [Z.eqb Pos.eqb negb orb blen length Z.of_nat].
  unfold BINARY_HEADER_SIZE. by rewrite (at_exptime _ _ _ _ Hx).
Qed.

Lemma parse_delete_message key rest :
  legal_key key ->
  binary_parse ck u (encode_request x14 (zeros 2) (zeros 4) 0 [] key [] ++ rest) =
  Some (bset_status OK (encoded_request x14 0 [] key [])).
Proof.
  intros [Hne Hk]. assert (encode_wf (zeros 2) (zeros 4) 0 [] key []) as wf by by apply wf_zeros.
  rewrite (binary_parse_encode ck u x14 _ _ _ _ _ _ rest wf).
  unfold binary_extras. cbn [b_command encoded_request binary_command_of_byte].
  by rewrite (length_key_nz _ Hne).
Qed.

Lemma object_exptime_range o : 0 <= object_exptime o < 2 ^ 32.
Proof. apply u32_range. Qed.

Lemma repl_loop_done f ev op extras key data rest c hash e parser :
  wire ev = encode_request op (zeros 2) (zeros 4) 0 extras key data ->
  encode_wf (zeros 2) (zeros 4) 0 extras key data ->
  binary_parse ck u (wire ev ++ rest) = Some parser -> b_request_len parser = length (wire ev) ->
  (exists hash' e', repl_apply cfg (wire ev ++ rest) parser hash e = (inr hash', e') /\
     step_result ev hash hash') ->
  exists hash' e', step_result ev hash hash' /\
    repl_loop cfg ck u (S f) (wire ev ++ rest) c hash e =
    repl_loop cfg ck u f rest (c + length (wire ev)) hash' e'.
Proof.
  intros -> wf Hp Hl (hash'&e'&Ha&Hs). exists hash', e'. split; [done|].
  by eapply repl_loop_message.
Qed.

(** One message, whatever follows it. *)
Lemma repl_loop_event f ev rest c hash e :
  event_wf ev -> t_inv hash ->
  exists hash' e', step_result ev hash hash' /\
    repl_loop cfg ck u (S f) (wire ev ++ rest) c hash e =
    repl_loop cfg ck u f rest (c + length (wire ev)) hash' e'.
Proof.
  intros Hev Hi. destruct ev as [key o|key o|key]; cbn [event_wf] in Hev.
  - destruct Hev as ([Hne Hk]&Hf&Hl). pose proof (wire_object key o Hk Hl) as Hw.
    assert (encode_wf (zeros 2) (zeros 4) 0 (set_extras (o_flags o) (object_exptime o)) key (contents o))
      as wf by (apply wf_zeros; by rewrite ?blen_set_extras).
    destruct (encoded_items x11 _ _ _ rest wf) as [Ek Ed]. rewrite <- Hw in Ek, Ed.
    destruct (contents o) as [|b d] eqn:Hd.
    + eapply repl_loop_done; [exact Hw|exact wf|rewrite Hw; by apply binary_set_empty|by rewrite Hw, length_encode|].
      unfold step_result. cbn [receive_event]. unfold received_value. rewrite Hd. by apply apply_value.
    + eapply repl_loop_done; [exact Hw|exact wf|rewrite Hw; apply binary_set_encode; try done; apply object_exptime_range
        |by rewrite Hw, length_encode|].
      unfold step_result. cbn [receive_event]. unfold received_value. rewrite Hd. by apply apply_value.
  - destruct Hev as [Hne Hk]. pose proof (wire_touch key o Hk) as Hw.
    assert (encode_wf (zeros 2) (zeros 4) 0 (hton 4 (object_exptime o)) key []) as wf by by apply wf_zeros.
    eapply repl_loop_done; [exact Hw|exact wf|rewrite Hw; apply parse_touch_message; [done|apply object_exptime_range]| |].
    + by rewrite Hw, length_encode.
    + destruct (encoded_items x1c _ _ _ rest wf) as [Ek _]. rewrite <- Hw in Ek. by apply apply_touch.
  - pose proof (wire_delete key (proj2 Hev)) as Hw.
    assert (encode_wf (zeros 2) (zeros 4) 0 [] key []) as wf by (apply wf_zeros; [done|apply Hev|done]).
    eapply repl_loop_done; [exact Hw|exact wf|rewrite Hw; by apply parse_delete_message| |].
    + by rewrite Hw, length_encode.
    + destruct (encoded_items x14 _ _ _ rest wf) as [Ek _]. rewrite <- Hw in Ek.
      by apply apply_delete.
Qed.

Lemma length_wire ev : event_wf ev -> (24 <= length (wire ev))%nat.
Proof.
  intros Hev. destruct ev as [key o|key o|key].
  - destruct Hev as ([_ Hk]&_&Hl). rewrite wire_object, length_encode by (try done; by apply wf_zeros). lia.
  - destruct Hev as [_ Hk]. rewrite wire_touch, length_encode by (try done; by apply wf_zeros). lia.
  - destruct Hev as [_ Hk]. rewrite wire_delete, length_encode by (try done; by apply wf_zeros). lia.
Qed.

(** A message cut short is left in the buffer. *)
Lemma parse_cut op extras key data n :
  encode_wf (zeros 2) (zeros 4) 0 extras key data ->
  let msg := encode_request op (zeros 2) (zeros 4) 0 extras key data in
  (n < length msg)%nat ->
  exists parser, binary_parse ck u (take n msg) = Some parser /\ b_request_len parser = 0%nat.
Proof.
  intros wf msg Hn. unfold binary_parse, BINARY_HEADER_SIZE.
  rewrite length_take_le by lia. destruct (Nat.ltb_spec n 24) as [|Hge]; [by eexists|].
  destruct (encode_at op _ _ _ _ _ _ [] wf) as (_&_&_&Htl&_). rewrite app_nil_r in Htl.
  fold msg in Htl. pose proof (length_encode op _ _ _ _ _ _ wf) as Hlen. fold msg in Hlen.
  assert (has_at (take n msg) 8 (hton 4 (blen extras + blen key + blen data))) as Htl'.
  { destruct Htl as (pre&post&Heq&Hpre). exists pre, (take (n - 12) post). split; [|done].
    rewrite Heq, !take_app, Hpre. unfold hton. rewrite length_be_bytes.
    rewrite !take_ge by (rewrite ?length_be_bytes; lia). do 3 f_equal. lia. }
  destruct wf as [_ _ _ He Hk Hd].
  pose proof (blen_nonneg key). pose proof (blen_nonneg extras). pose proof (blen_nonneg data).
  assert (MAX_KEY_LENGTH = 250) as Em by done. assert (MAX_REQUEST_LENGTH = 31457280) as Er by done.
  rewrite (at_ntoh _ _ _ _ Htl') by (cbn; lia). cbn [mbind option_bind].
  destruct (Z.ltb_spec (blen (take n msg)) (Z.of_nat 24 + (blen extras + blen key + blen data)))
    as [|Hlt]; [by eexists|].
  exfalso. unfold blen in *. rewrite length_take_le in Hlt by lia. lia.
Qed.

Lemma repl_loop_cut f ev n c hash e :
  event_wf ev -> (n < length (wire ev))%nat ->
  repl_loop cfg ck u (S f) (take n (wire ev)) c hash e = (inr (c, hash), e).
Proof.
  intros Hev Hn. destruct n as [|n]; [done|].
  assert (exists op extras key data, wire ev = encode_request op (zeros 2) (zeros 4) 0 extras key data /\
    encode_wf (zeros 2) (zeros 4) 0 extras key data) as (op&extras&key&data&Hw&wf).
  { destruct ev as [key o|key o|key].
    - destruct Hev as ([_ Hk]&_&Hl). rewrite wire_object by done.
      eexists _, _, _, _. split; [done|]. by apply wf_zeros.
    - destruct Hev as [_ Hk]. rewrite wire_touch by done.
      eexists _, _, _, _. split; [done|]. by apply wf_zeros.
    - destruct Hev as [_ Hk]. rewrite wire_delete by done.
      eexists _, _, _, _. split; [done|]. by apply wf_zeros. }
  rewrite Hw in Hn. destruct (parse_cut op extras key data (S n) wf Hn) as (parser&Hp&Hz).
  rewrite <- Hw in Hp. rewrite Hw in *. cbn [repl_loop].
  destruct (encode_head op (zeros 2) (zeros 4) 0 extras key data []) as [tl Htl].
  rewrite app_nil_r in Htl. rewrite Htl in *. cbn [take] in *.
  unfold bind. change (negb (is_binary_request x80)) with false. cbv iota.
  rewrite Hp. cbn [checked ret]. by rewrite Hz.
Qed.

Definition events_wf (evs : list event) : Prop := Forall event_wf evs.
Definition stream (evs : list event) : bytes := concat (wire <$> evs).

Lemma repl_loop_stream evs f ev n c hash e :
  events_wf evs -> event_wf ev -> (n < length (wire ev))%nat -> t_inv hash ->
  (length (stream evs ++ take n (wire ev)) < f)%nat ->
  exists hash' e',
    repl_loop cfg ck u f (stream evs ++ take n (wire ev)) c hash e =
      (inr ((c + length (stream evs))%nat, hash'), e') /\
    t_inv hash' /\ view (t_map hash') = foldl (receive_event ck) (view (t_map hash)) evs.
Proof.
  intros Hevs Hev Hn. revert f c hash e. induction Hevs as [|x evs Hx Hevs IH]; intros f c hash e Hi Hf.
  - destruct f as [|f]; [cbn in Hf; lia|]. cbn [stream fmap list_fmap concat app].
    rewrite (repl_loop_cut f ev n c hash e Hev Hn). eexists _, _. split; [|done].
    cbn. by rewrite Nat.add_0_r.
  - destruct f as [|f]; [lia|]. cbn [stream fmap list_fmap concat] in *. rewrite <- app_assoc in *.
    destruct (repl_loop_event f x (concat (wire <$> evs) ++ take n (wire ev)) c hash e Hx Hi)
      as (hash1&e1&[Hi1 Hv1]& ->).
    pose proof (length_wire x Hx) as Hlw.
    destruct (IH f (c + length (wire x))%nat hash1 e1 Hi1) as (hash'&e'&Hr&Hi'&Hv').
    { rewrite length_app in Hf. unfold stream. lia. }
    unfold stream in Hr. rewrite Hr. exists hash', e'. split; [|split; [done|]].
    + rewrite length_app, Nat.add_assoc. done.
    + rewrite Hv', Hv1. done.
Qed.

(** ** Theorems *)

(** Slaves follow the master.  A slave that receives the messages of a
    sequence of changes, the last one possibly cut short, consumes exactly the
    complete messages and applies them in order, as [receive_event] says. *)
Theorem slave_follows_master evs ev n hash e :
  events_wf evs -> event_wf ev -> (n < length (wire ev))%nat -> t_inv hash ->
  exists hash' e',
    repl_recv cfg ck u (stream evs ++ take n (wire ev)) hash e =
      (inr (length (stream evs), hash'), e') /\
    t_inv hash' /\
    view (t_map hash') = foldl (receive_event ck) (view (t_map hash)) evs.
Proof.
  intros Hevs Hev Hn Hi. unfold repl_recv.
  destruct (repl_loop_stream evs (S (length (stream evs ++ take n (wire ev)))) ev n 0 hash e
    Hevs Hev Hn Hi) as (hash'&e'&Hr&?&?); [lia|]. by exists hash', e'.
Qed.

Lemma repl_apply_total buf parser hash e :
  t_inv hash -> exists hash' e', repl_apply cfg buf parser hash e = (inr hash', e') /\ t_inv hash'.
Proof.
  intros Hi. destruct (b_command parser) eqn:Hc; try (unfold repl_apply; rewrite Hc; by exists hash, e).
  - destruct (apply_value _ _ _ _ buf parser hash e Hi Hc eq_refl eq_refl eq_refl eq_refl) as (h&e'&?&?&_). by exists h, e'.
  - destruct (apply_delete _ buf parser hash e Hi Hc eq_refl) as (h&e'&?&?&_). by exists h, e'.
  - destruct (apply_touch _ _ buf parser hash e Hi Hc eq_refl eq_refl) as (h&e'&?&?&_). by exists h, e'.
Qed.

Lemma repl_loop_total f buf c hash e :
  (length buf < f)%nat -> t_inv hash ->
  match repl_loop cfg ck u f buf c hash e with
  | (inr (n, hash'), _) => (c <= n <= c + length buf)%nat /\ t_inv hash'
  | (inl x, _) => x = runtime_error
  end.
Proof.
  revert buf c hash e. induction f as [|f IH]; intros buf c hash e Hf Hi; [lia|]. cbn [repl_loop].
  destruct buf as [|b buf]; [cbn; split; [lia|done]|].
  destruct (negb (is_binary_request b)); [done|]. unfold bind at 1.
  destruct (binary_parse_swp ck u (b :: buf)) as [Hok Hs]. destruct (Hs I) as [p Hp]. rewrite Hp.
  pose proof (bok_len _ _ (Hok p Hp)) as Hl. cbn [checked ret].
  destruct (Nat.eqb_spec (b_request_len p) 0); [cbn; split; [lia|done]|]. unfold bind.
  destruct (repl_apply_total (b :: buf) p hash e Hi) as (hash'&e'& -> &Hi').
  specialize (IH (drop (b_request_len p) (b :: buf)) (c + b_request_len p)%nat hash' e').
  rewrite length_drop in IH. destruct (repl_loop _ _ _ _ _ _ _ _) as [[x|[n2 h2]] e2].
  - apply IH; [cbn in *; lia|done].
  - destruct IH as [? ?]; [cbn in *; lia|done|]. split; [lia|done].
Qed.

(** Slaves survive any input.  Whatever bytes arrive, [repl_recv]
    terminates, reads only received bytes, consumes no more than it was given,
    keeps the table well formed, and its one exception is the one for data that
    is not a binary request. *)
Theorem repl_recv_total buf hash e :
  t_inv hash ->
  match repl_recv cfg ck u buf hash e with
  | (inr (n, hash'), _) => (n <= length buf)%nat /\ t_inv hash'
  | (inl x, _) => x = runtime_error
  end.
Proof.
  intros Hi. pose proof (repl_loop_total (S (length buf)) buf 0 hash e ltac:(lia) Hi) as Ht.
  unfold repl_recv. destruct (repl_loop _ _ _ _ _ _ _ _) as [[x|[n h]] e']; [done|].
  destruct Ht. split; [lia|done].
Qed.

(** All messages are complete. *)
Lemma repl_recv_stream evs hash e :
  events_wf evs -> t_inv hash -> exists hash' e',
    repl_recv cfg ck u (stream evs) hash e = (inr (length (stream evs), hash'), e') /\
    t_inv hash' /\ view (t_map hash') = foldl (receive_event ck) (view (t_map hash)) evs.
Proof.
  intros Hw Hi. destruct (slave_follows_master evs (ev_delete (lit "a")) 0 hash e)
    as (hash'&e'&Hr&Hi'&Hv); [done|by split|vm_compute; lia|done|].
  rewrite take_0, app_nil_r in Hr. by exists hash', e'.
Qed.

(** Empty values lose their attributes.  An object without data is sent with
    its flags and expiration time, but the slave's parser rejects the message
    before reading them, and the slave stores the object without flags and
    without expiration time. *)
Theorem empty_object_replicated key o hash e :
  legal_key key -> 0 <= o_flags o < 2 ^ 32 -> contents o = [] -> t_inv hash ->
  exists hash' e',
    repl_recv cfg ck u (wire (ev_object key o)) hash e =
      (inr (length (wire (ev_object key o)), hash'), e') /\
    view (t_map hash') !! key = Some ([], 0, 0).
Proof.
  intros Hk Hf Hc Hi. destruct (repl_recv_stream [ev_object key o] hash e) as (hash'&e'&Hr&_&Hv); [|done|].
  - repeat constructor; try apply Hk; try apply Hf. by rewrite Hc.
  - unfold stream in Hr. cbn in Hr. rewrite app_nil_r in Hr. exists hash', e'. split; [done|].
    rewrite Hv. cbn. rewrite lookup_insert_eq. unfold received_value. by rewrite Hc.
Qed.
End slave.

(** ** A stream of three messages *)

Definition sample_object : object :=
  {| o_length := 2; o_data := lit "xy"; o_file := None; o_flags := 7; o_exptime := 1700000000;
     o_cas := 3; o_gc_old := 0; o_lock := -1 |}.
Definition sample_empty_object : object :=
  {| o_length := 0; o_data := []; o_file := None; o_flags := 7; o_exptime := 1700000000;
     o_cas := 3; o_gc_old := 0; o_lock := -1 |}.
Definition sample_events : list event :=
  [ev_object (lit "a") sample_object; ev_touch (lit "a") sample_object; ev_delete (lit "b")].

Lemma slave_follows_master_witness :
  exists hash' e',
    repl_recv sample_config sample_clock sample_u
      (stream sample_events ++ take 5 (wire (ev_delete (lit "c")))) sample_empty (sample_env []) =
      (inr (length (stream sample_events), hash'), e') /\
    t_inv hash' /\
    view (t_map hash') =
      foldl (receive_event sample_clock) (view (t_map sample_empty)) sample_events.
Proof.
  apply (slave_follows_master sample_config sample_clock sample_u).
  - repeat constructor; done.
  - split; done.
  - vm_compute. lia.
  - by apply ctor_inv.
Defined.

Lemma repl_recv_total_witness :
  match repl_recv sample_config sample_clock sample_u (lit "junk") sample_empty (sample_env []) with
  | (inr (n, hash'), _) => (n <= length (lit "junk"))%nat /\ t_inv hash'
  | (inl x, _) => x = runtime_error
  end.
Proof. apply (repl_recv_total sample_config sample_clock sample_u). by apply ctor_inv. Defined.

Lemma empty_object_replicated_witness :
  exists hash' e',
    repl_recv sample_config sample_clock sample_u (wire (ev_object (lit "a") sample_empty_object))
      sample_empty (sample_env []) =
      (inr (length (wire (ev_object (lit "a") sample_empty_object)), hash'), e') /\
    view (t_map hash') !! lit "a" = Some ([], 0, 0).
Proof.
  apply (empty_object_replicated sample_config sample_clock sample_u);
    [split; done|done|reflexivity|by apply ctor_inv].
Defined.
