(* ===== verification/MemSocket.v ===== *)
(** * Request handling (src/memcache/sockets.hpp, sockets.cpp)

    [cmd_bin] and [cmd_text] of [memcache_socket], one definition per group of
    cases of their [switch], the lock list of a connection, and the receive job.
    The table is any that satisfies the operations of Table.v; a handler returns
    the table it leaves. *)

From S2P Require Import Prelude CLib MemTypes Table TextRequest BinaryRequest MemState.
From S2P Require Import MemObject Response Stats Replication.

Import replication.

Section socket.
Context {H : Type} `{TableOps H object} (r : request_env).

Definition g_context : Z := r_context r.
Definition config : mem_config := r_config r.

(** ** Statistics *)

Definition count (f : statistics -> statistics) : M env unit := modify (upd_stats f).
Definition count_bin_op (c : binary_command) : M env unit :=
  count (fun s => set_bin_ops (alter incr64 (Z.to_nat (binary_command_code c)) (bin_ops s)) s).
Definition count_text_op (c : text_command) : M env unit :=
  count (fun s => set_text_ops (alter incr64 (text_command_index c) (text_ops s)) s).
Definition count_get_hit : M env unit := count (fun s => set_get_hits (incr64 (get_hits s)) s).
Definition count_get_miss : M env unit := count (fun s => set_get_misses (incr64 (get_misses s)) s).
Definition count_cas_hit : M env unit := count (fun s => set_cas_hits (incr64 (cas_hits s)) s).
Definition count_cas_miss : M env unit := count (fun s => set_cas_misses (incr64 (cas_misses s)) s).
Definition count_cas_badval : M env unit :=
  count (fun s => set_cas_badval (incr64 (cas_badval s)) s).

(** ** Locks of the connection *)

(** [add_lock]. *)
Definition add_lock (k : kref) : M env unit := modify (upd_locks (fun l => l ++ [k])).

(** The loop of [remove_lock]: the list without the first reference to the key. *)
Fixpoint erase_lock (k : bytes) (l : list kref) : option (list kref) :=
  match l with
  | [] => None
  | x :: l' => if bool_decide (kr_data x = k) then Some l'
               else l'' ← erase_lock k l'; Some (x :: l'')
  end.

(** [remove_lock]. *)
Definition remove_lock (k : bytes) : M env unit :=
  let! l := gets e_locks in
  match erase_lock k l with
  | Some l' => modify (upd_locks (fun _ => l'))
  | None => throw logic_error
  end.

(** The handler that [unlock_all] and the destructor apply, and their loop. *)
Definition unlock_handler (force : bool) : handler env object := fun _ obj =>
  let! obj := object_unlock g_context force obj in ret (true, obj).

Fixpoint unlock_each (force : bool) (l : list kref) (hash : H) : M env H :=
  match l with
  | [] => ret hash
  | k :: l' =>
      let! (_, hash) := t_apply hash (kr_data k) (Some (unlock_handler force)) None in
      unlock_each force l' hash
  end.

(** [unlock_all]. *)
Definition unlock_all (hash : H) : M env H :=
  let! l := gets e_locks in
  let! hash := unlock_each false l hash in
  modify (upd_locks (fun _ => [])) ;;!
  ret hash.

(** [~memcache_socket]. *)
Definition socket_dtor (hash : H) : M env H :=
  let! l := gets e_locks in unlock_each true l hash.

(** ** Helpers of the handlers *)

Definition is_expired (obj : object) : M env bool :=
  let! st := gets e_stats in ret (expired (flush_time st) (r_now r) obj).

Definition has_slaves : bool := match r_slaves r with [] => false | _ => true end.

(** [if( ! m_slaves.empty() ) repl_object(m_slaves, k, obj);]. *)
Definition replicate_object (k : kref) (obj : object) : M env object :=
  if has_slaves then repl_object (r_slaves r) (kr_data k) obj true else ret obj.
Definition replicate_touch (k : kref) (obj : object) : M env unit :=
  when has_slaves (repl_touch (r_slaves r) (kr_data k) obj).
Definition replicate_delete (k : bytes) : M env unit :=
  when has_slaves (repl_delete (r_slaves r) k).

(** ** cmd_bin *)

Section bin.
Context (buf : bytes) (cmd : binary_request).

Let opq : bytes := opaque buf.
Let key : bytes := item_bytes buf (b_key cmd).
Let data : bytes := item_bytes buf (b_data cmd).
Let quiet : bool := b_quiet cmd.
Let reply (m : M env unit) : M env unit := when (negb quiet) m.
Let error (st : binary_status) : M env unit := binary_response.error cmd opq st.
Let is_cmd (c : binary_command) : bool := bool_decide (b_command cmd = c).

(** [Get], [GaT] and [LaG] and their variants: the handler after its locking
    part. *)
Definition bin_get_body (k : kref) (obj : object) : M env (bool * object) :=
  let! ex := is_expired obj in
  if ex then ret (false, obj) else
  let! obj := (if negb (b_exptime cmd =? EXPTIME_NONE)
               then let obj := object_touch (b_exptime cmd) obj in
                    replicate_touch k obj ;;! ret obj
               else ret obj) in
  let '(d, obj) := object_data obj in
  binary_response.get cmd opq (o_flags obj) d (o_cas obj) (negb quiet)
    (if is_cmd Get || is_cmd GetQ || is_cmd GaT || is_cmd GaTQ || is_cmd LaG || is_cmd LaGQ
     then None else Some (kr_data k)) ;;!
  ret (true, obj).

Definition bin_get_handler : handler env object := fun k obj =>
  let code := binary_command_code in
  if (code LaG <=? code (b_command cmd)) && (code (b_command cmd) <=? code LaGKQ) then
    if locked obj then error Locked ;;! ret (true, obj) else
    let! obj := object_lock g_context obj in
    add_lock k ;;!
    bin_get_body k obj
  else bin_get_body k obj.

Definition bin_get (hash : H) : M env H :=
  let! (found, hash) := t_apply hash key (Some bin_get_handler) None in
  (if negb found
   then count_get_miss ;;! when (negb quiet || is_cmd LaGQ) (error NotFound)
   else count_get_hit) ;;!
  ret hash.

(** The checks that [Set], [Add], [Replace] and [RaU] begin with. *)
Definition bin_checked (hash : H) (m : M env H) : M env H :=
  if blen key >? MAX_KEY_LENGTH then error Invalid ;;! ret hash else
  if blen data >? c_max_data_size config then error TooLargeValue ;;! ret hash else
  m.

(** [Set], [Add] and [Replace]. *)
Definition bin_set_handler : handler env object := fun k obj =>
  if locked_by_other g_context obj then error Locked ;;! ret (true, obj) else
  let! ex := is_expired obj in
  if ex && (negb (b_cas_unique cmd =? 0) || is_cmd Replace || is_cmd ReplaceQ) then
    when (negb (b_cas_unique cmd =? 0)) count_cas_miss ;;!
    error NotFound ;;!
    ret (true, obj)
  else if negb ex && (is_cmd Add || is_cmd AddQ) then
    error Exists ;;! ret (true, obj)
  else if negb (b_cas_unique cmd =? 0) && negb (b_cas_unique cmd =? o_cas obj) then
    count_cas_badval ;;! error Exists ;;! ret (true, obj)
  else
    let obj := object_set config data (b_flags cmd) (b_exptime cmd) obj in
    reply (binary_response.set cmd opq (o_cas obj)) ;;!
    when (negb (b_cas_unique cmd =? 0)) count_cas_hit ;;!
    let! obj := replicate_object k obj in
    ret (true, obj).

Definition bin_set_creator : creator env object := fun k =>
  let! o := new_object (object_new config data (b_flags cmd) (b_exptime cmd)) in
  reply (binary_response.set cmd opq (o_cas o)) ;;!
  replicate_object k o.

Definition bin_set (hash : H) : M env H :=
  bin_checked hash
    (let c := if negb (is_cmd Replace) && negb (is_cmd ReplaceQ) && (b_cas_unique cmd =? 0)
              then Some bin_set_creator else None in
     let! (found, hash) := t_apply hash key (Some bin_set_handler) c in
     when (negb found)
       (when (negb (b_cas_unique cmd =? 0)) count_cas_miss ;;! error NotFound) ;;!
     ret hash).

(** [RaU]. *)
Definition bin_rau_handler : handler env object := fun k obj =>
  if negb (locked_by_self g_context obj) then error NotLocked ;;! ret (true, obj) else
  if negb (b_cas_unique cmd =? 0) && negb (b_cas_unique cmd =? o_cas obj)
  then error Exists ;;! ret (true, obj) else
  let obj := object_set config data (b_flags cmd) (b_exptime cmd) obj in
  let! obj := object_unlock g_context false obj in
  remove_lock (kr_data k) ;;!
  reply (binary_response.set cmd opq (o_cas obj)) ;;!
  let! obj := replicate_object k obj in
  ret (true, obj).

(** [if( ! m_hash.apply(key, h, c) ) r.error( NotFound );]. *)
Definition bin_apply (h : handler env object) (c : option (creator env object)) (hash : H)
    : M env H :=
  let! (found, hash) := t_apply hash key (Some h) c in
  when (negb found) (error NotFound) ;;!
  ret hash.

(** The prologue of the handlers of [Append], [Prepend], [Increment] and
    [Decrement]. *)
Definition bin_modify (obj : object) (m : M env (bool * object)) : M env (bool * object) :=
  if locked_by_other g_context obj then error Locked ;;! ret (true, obj) else
  let! ex := is_expired obj in
  if ex then ret (false, obj) else
  if negb (b_cas_unique cmd =? 0) && negb (b_cas_unique cmd =? o_cas obj)
  then error Exists ;;! ret (true, obj) else
  m.

Definition bin_append_handler : handler env object := fun k obj =>
  bin_modify obj
    (let obj := object_append config data obj in
     reply (binary_response.set cmd opq (o_cas obj)) ;;!
     let! obj := replicate_object k obj in
     ret (true, obj)).

Definition bin_prepend_handler : handler env object := fun k obj =>
  bin_modify obj
    (let obj := object_prepend config data obj in
     reply (binary_response.set cmd opq (o_cas obj)) ;;!
     let! obj := replicate_object k obj in
     ret (true, obj)).

(** The [try] block of [Increment] and [Decrement]. *)
Definition bin_incdec (res : option (Z * object)) (k : kref) (obj : object)
    : M env (bool * object) :=
  match res with
  | Some (n, obj) =>
      reply (binary_response.incdec cmd opq n (o_cas obj)) ;;!
      let! obj := replicate_object k obj in
      ret (true, obj)
  | None => error NonNumeric ;;! ret (true, obj)
  end.

Definition bin_incr_handler : handler env object := fun k obj =>
  bin_modify obj (bin_incdec (object_incr (b_value cmd) obj) k obj).
Definition bin_decr_handler : handler env object := fun k obj =>
  bin_modify obj (bin_incdec (object_decr (b_value cmd) obj) k obj).

Definition bin_incdec_creator : creator env object := fun k =>
  let! o := new_object (object_number (b_initial cmd) (b_exptime cmd)) in
  reply (binary_response.incdec cmd opq (b_initial cmd) (o_cas o)) ;;!
  replicate_object k o.

Definition bin_incdec_c : option (creator env object) :=
  if negb (b_exptime cmd =? EXPTIME_NONE) then Some bin_incdec_creator else None.

(** [Delete]. *)
Definition bin_delete_pred : predicate env object := fun k obj =>
  if locked_by_other g_context obj then error Locked ;;! ret (false, obj) else
  if negb (b_cas_unique cmd =? 0) && negb (b_cas_unique cmd =? o_cas obj)
  then error Exists ;;! ret (false, obj) else
  when (locked_by_self g_context obj) (remove_lock k) ;;!
  reply (binary_response.success cmd opq) ;;!
  replicate_delete k ;;!
  ret (true, obj).

Definition bin_delete (hash : H) : M env H :=
  let! (found, hash) := t_remove_if hash key bin_delete_pred in
  when (negb found && negb quiet) (error NotFound) ;;!
  ret hash.

(** [Touch]. *)
Definition bin_touch_handler : handler env object := fun k obj =>
  let! ex := is_expired obj in
  if ex then ret (false, obj) else
  let obj := object_touch (b_exptime cmd) obj in
  replicate_touch k obj ;;!
  binary_response.set cmd opq (o_cas obj) ;;!
  ret (true, obj).

(** [Lock] and [Unlock]. *)
Definition bin_lock_handler : handler env object := fun k obj =>
  let! ex := is_expired obj in
  if ex then ret (false, obj) else
  if locked obj then error Locked ;;! ret (true, obj) else
  let! obj := object_lock g_context obj in
  add_lock k ;;!
  reply (binary_response.success cmd opq) ;;!
  ret (true, obj).

Definition bin_unlock_handler : handler env object := fun k obj =>
  if negb (locked_by_self g_context obj) then error NotLocked ;;! ret (true, obj) else
  let! obj := object_unlock g_context false obj in
  remove_lock (kr_data k) ;;!
  reply (binary_response.success cmd opq) ;;!
  ret (true, obj).

(** [UnlockAll], [Quit], [Flush], [Noop], [Version], [Stat] and [Keys]. *)
Definition bin_unlock_all (hash : H) : M env H :=
  let! hash := unlock_all hash in
  reply (binary_response.success cmd opq) ;;!
  ret hash.

Definition bin_quit (hash : H) : M env H :=
  let! hash := unlock_all hash in
  (if quiet then invalidate_and_close else binary_response.quit cmd opq) ;;!
  ret hash.

Definition bin_flush (hash : H) : M env H :=
  count (set_flush_time (b_exptime cmd)) ;;!
  reply (binary_response.success cmd opq) ;;!
  ret hash.

Definition bin_keys_pred : visitor env object := fun k obj =>
  let! ex := is_expired obj in
  if ex then ret tt else
  when ((blen key =? 0) || has_prefix (kr_data k) key)
    (binary_response.key cmd opq (kr_data k)).

Definition bin_keys (hash : H) : M env H :=
  t_foreach hash bin_keys_pred ;;!
  binary_response.success cmd opq ;;!
  ret hash.

(** [memcache_socket::cmd_bin]. *)
Definition cmd_bin (hash : H) : M env H :=
  if negb (bool_decide (b_status cmd = OK)) then error (b_status cmd) ;;! ret hash else
  count_bin_op (b_command cmd) ;;!
  match b_command cmd with
  | Get | GetQ | GetK | GetKQ | GaT | GaTQ | GaTK | GaTKQ | LaG | LaGQ | LaGK | LaGKQ =>
      bin_get hash
  | Set_ | SetQ | Add | AddQ | Replace | ReplaceQ => bin_set hash
  | RaU | RaUQ => bin_checked hash (bin_apply bin_rau_handler None hash)
  | Append | AppendQ => bin_apply bin_append_handler None hash
  | Prepend | PrependQ => bin_apply bin_prepend_handler None hash
  | Delete | DeleteQ => bin_delete hash
  | Increment | IncrementQ => bin_apply bin_incr_handler bin_incdec_c hash
  | Decrement | DecrementQ => bin_apply bin_decr_handler bin_incdec_c hash
  | Touch => bin_apply bin_touch_handler None hash
  | Lock | LockQ => bin_apply bin_lock_handler None hash
  | Unlock | UnlockQ => bin_apply bin_unlock_handler None hash
  | UnlockAll | UnlockAllQ => bin_unlock_all hash
  | Quit | QuitQ => bin_quit hash
  | Flush | FlushQ => bin_flush hash
  | Noop => binary_response.success cmd opq ;;! ret hash
  | Version => binary_response.version cmd opq ;;! ret hash
  | Stat => binary_stats r cmd opq (b_stats cmd) ;;! ret hash
  | Keys => bin_keys hash
  | Unknown | BinOther _ => error UnknownCommand ;;! ret hash
  end.
End bin.

(** ** cmd_text *)

Section text.
Context (buf : bytes) (cmd : text_request).

Let key : bytes := item_bytes buf (m_key cmd).
Let data : bytes := item_bytes buf (m_data cmd).
Let reply (m : M env unit) : M env unit := when (negb (m_no_reply cmd)) m.
Let is_cmd (c : text_command) : bool := bool_decide (m_command cmd = c).

(** The first check of the handlers that modify an object. *)
Definition text_unlocked (obj : object) (m : M env (bool * object)) : M env (bool * object) :=
  if locked_by_other g_context obj then reply text_response.locked ;;! ret (true, obj) else m.

(** [SET], [ADD] and [REPLACE]. *)
Definition text_set_handler : handler env object := fun k obj =>
  text_unlocked obj
    (let! ex := is_expired obj in
     if ex && is_cmd REPLACE then ret (false, obj) else
     if negb ex && is_cmd ADD then ret (false, obj) else
     let obj := object_set config data (m_flags cmd) (m_exptime cmd) obj in
     reply text_response.stored ;;!
     let! obj := replicate_object k obj in
     ret (true, obj)).

Definition text_set_creator : creator env object := fun k =>
  let! o := new_object (object_new config data (m_flags cmd) (m_exptime cmd)) in
  reply text_response.stored ;;!
  replicate_object k o.

(** [if( ! m_hash.apply(key, h, c) && ! cmd.no_reply() ) r.not_stored();], and
    the same with [not_found]. *)
Definition text_apply (h : handler env object) (c : option (creator env object))
    (miss : M env unit) (hash : H) : M env H :=
  let! (found, hash) := t_apply hash key (Some h) c in
  when (negb found) (reply miss) ;;!
  ret hash.

Definition text_set (hash : H) : M env H :=
  if blen key >? MAX_KEY_LENGTH then text_response.error ;;! ret hash else
  if blen data >? c_max_data_size config then text_response.error ;;! ret hash else
  text_apply text_set_handler (if negb (is_cmd REPLACE) then Some text_set_creator else None)
    text_response.not_stored hash.

(** [APPEND] and [PREPEND]. *)
Definition text_append_handler : handler env object := fun k obj =>
  text_unlocked obj
    (let! ex := is_expired obj in
     if ex then ret (false, obj) else
     let obj := object_append config data obj in
     reply text_response.stored ;;!
     let! obj := replicate_object k obj in
     ret (true, obj)).

Definition text_prepend_handler : handler env object := fun k obj =>
  text_unlocked obj
    (let! ex := is_expired obj in
     if ex then ret (false, obj) else
     let obj := object_prepend config data obj in
     reply text_response.stored ;;!
     let! obj := replicate_object k obj in
     ret (true, obj)).

(** [CAS]. *)
Definition text_cas_handler : handler env object := fun k obj =>
  text_unlocked obj
    (let! ex := is_expired obj in
     if ex then ret (false, obj) else
     if negb (o_cas obj =? m_cas_unique cmd) then
       reply text_response.exists_ ;;!
       count_cas_badval ;;!
       ret (true, obj)
     else
       let obj := object_set config data (m_flags cmd) (m_exptime cmd) obj in
       reply text_response.stored ;;!
       let! obj := replicate_object k obj in
       count_cas_hit ;;!
       ret (true, obj)).

Definition text_cas (hash : H) : M env H :=
  let! (found, hash) := t_apply hash key (Some text_cas_handler) None in
  when (negb found) (count_cas_miss ;;! reply text_response.not_found) ;;!
  ret hash.

(** [INCR] and [DECR]: the [try] block. *)
Definition text_incdec (res : option (Z * object)) (k : kref) (obj : object)
    : M env (bool * object) :=
  match res with
  | Some (n, obj) =>
      reply (send (to_string n ++ CRLF) true) ;;!
      let! obj := replicate_object k obj in
      ret (true, obj)
  | None => reply (send text_response.NON_NUMERIC true) ;;! ret (true, obj)
  end.

Definition text_incr_handler : handler env object := fun k obj =>
  text_unlocked obj
    (let! ex := is_expired obj in
     if ex then ret (false, obj) else
     text_incdec (object_incr (m_value cmd) obj) k obj).
Definition text_decr_handler : handler env object := fun k obj =>
  text_unlocked obj
    (let! ex := is_expired obj in
     if ex then ret (false, obj) else
     text_incdec (object_decr (m_value cmd) obj) k obj).

(** [TOUCH]. *)
Definition text_touch_handler : handler env object := fun k obj =>
  let! ex := is_expired obj in
  if ex then ret (false, obj) else
  let obj := object_touch (m_exptime cmd) obj in
  replicate_touch k obj ;;!
  ret (true, obj).

Definition text_touch (hash : H) : M env H :=
  let! (found, hash) := t_apply hash key (Some text_touch_handler) None in
  (if found : bool then reply text_response.touched else reply text_response.not_found) ;;!
  ret hash.

(** [DELETE]. *)
Definition text_delete_pred : predicate env object := fun k obj =>
  if locked_by_other g_context obj then reply text_response.locked ;;! ret (false, obj) else
  when (locked_by_self g_context obj) (remove_lock k) ;;!
  reply text_response.deleted ;;!
  replicate_delete k ;;!
  ret (true, obj).

Definition text_delete (hash : H) : M env H :=
  let! (found, hash) := t_remove_if hash key text_delete_pred in
  when (negb found) (reply text_response.not_found) ;;!
  ret hash.

(** [LOCK] and [UNLOCK]. *)
Definition text_lock_handler : handler env object := fun k obj =>
  let! ex := is_expired obj in
  if ex then ret (false, obj) else
  if locked obj then text_response.locked ;;! ret (true, obj) else
  let! obj := object_lock g_context obj in
  add_lock k ;;!
  text_response.ok ;;!
  ret (true, obj).

Definition text_lock (hash : H) : M env H :=
  let! (found, hash) := t_apply hash key (Some text_lock_handler) None in
  when (negb found) text_response.not_found ;;!
  ret hash.

Definition text_unlock_handler : handler env object := fun k obj =>
  if negb (locked_by_self g_context obj) then ret (false, obj) else
  let! obj := object_unlock g_context false obj in
  remove_lock (kr_data k) ;;!
  text_response.ok ;;!
  ret (true, obj).

Definition text_unlock (hash : H) : M env H :=
  let! (found, hash) := t_apply hash key (Some text_unlock_handler) None in
  when (negb found) (send text_response.NOT_LOCKED true) ;;!
  ret hash.

(** [GET] and [GETS]. *)
Definition text_get_handler : handler env object := fun k obj =>
  let! ex := is_expired obj in
  if ex then ret (false, obj) else
  let '(d, obj) := object_data obj in
  text_response.value (kr_data k) (o_flags obj) d
    (if is_cmd GETS then Some (o_cas obj) else None) ;;!
  ret (true, obj).

Fixpoint text_get_loop (its : list item) (hash : H) : M env H :=
  match its with
  | [] => ret hash
  | it :: its' =>
      let! (found, hash) := t_apply hash (item_bytes buf it) (Some text_get_handler) None in
      (if found : bool then count_get_hit else count_get_miss) ;;!
      text_get_loop its' hash
  end.

Definition text_get (hash : H) : M env H :=
  let! its := checked (key_loop buf (S (length buf)) (m_key cmd)) in
  let! hash := text_get_loop its hash in
  text_response.end_ ;;!
  ret hash.

(** [KEYS]. *)
Definition text_keys_pred : visitor env object := fun k obj =>
  let! ex := is_expired obj in
  if ex then ret tt else
  when ((blen key =? 0) || has_prefix (kr_data k) key)
    (text_response.value_key (kr_data k)).

Definition text_keys (hash : H) : M env H :=
  t_foreach hash text_keys_pred ;;!
  text_response.end_ ;;!
  ret hash.

(** [memcache_socket::cmd_text]. *)
Definition cmd_text (hash : H) : M env H :=
  if negb (m_valid cmd) then text_response.error ;;! ret hash else
  count_text_op (m_command cmd) ;;!
  match m_command cmd with
  | SET | ADD | REPLACE => text_set hash
  | APPEND => text_apply text_append_handler None text_response.not_stored hash
  | PREPEND => text_apply text_prepend_handler None text_response.not_stored hash
  | CAS => text_cas hash
  | INCR => text_apply text_incr_handler None text_response.not_found hash
  | DECR => text_apply text_decr_handler None text_response.not_found hash
  | TOUCH => text_touch hash
  | DELETE => text_delete hash
  | LOCK => text_lock hash
  | UNLOCK => text_unlock hash
  | UNLOCK_ALL => let! hash := unlock_all hash in text_response.ok ;;! ret hash
  | GET | GETS => text_get hash
  | KEYS => text_keys hash
  | SLABS => text_response.ok ;;! ret hash
  | STATS => text_stats r (m_stats cmd) ;;! text_response.end_ ;;! ret hash
  | FLUSH_ALL =>
      count (set_flush_time (m_exptime cmd)) ;;! reply text_response.ok ;;! ret hash
  | VERSION_ => text_response.version ;;! ret hash
  | VERBOSITY =>
      modify (upd_threshold (m_verbosity cmd)) ;;! reply text_response.ok ;;! ret hash
  | QUIT => let! hash := unlock_all hash in invalidate_and_close ;;! ret hash
  | UNKNOWN => text_response.error ;;! ret hash
  end.
End text.

(** ** The receive job *)

(** One pass of the inner loop over the bytes in the buffer: the requests that
    are complete are executed; the rest is returned.  Every request has at least
    one byte, so the length of the buffer bounds the rounds. *)
Fixpoint process (ck : clock) (u : uninit) (fuel : nat) (head : bytes) (hash : H)
    : M env (bytes * H) :=
  match fuel with
  | O => throw no_fuel
  | S f =>
      match head with
      | [] => ret ([], hash)
      | b :: _ =>
          if is_binary_request b then
            let! parser := checked (binary_parse ck u head) in
            let c := b_request_len parser in
            if (c =? 0)%nat then ret (head, hash) else
            let! hash := cmd_bin head parser hash in
            process ck u f (drop c head) hash
          else
            let! parser := checked (text_parse ck head) in
            let c := m_request_len parser in
            if (c =? 0)%nat then ret (head, hash) else
            let! hash := cmd_text head parser hash in
            process ck u f (drop c head) hash
      end
  end.

Definition process_all (ck : clock) (u : uninit) (head : bytes) (hash : H) : M env (bytes * H) :=
  process ck u (S (length head)) head hash.

(** The results of [receive]: [NONE] and [RESET] are handled alike; [recv_fail] is an error of
    [::recv] other than [EAGAIN], [EINTR] and [ECONNRESET], which [receive] throws. *)
Inductive received := recv_ok (d : bytes) | recv_again | recv_reset | recv_fail.

(** The outer loop of the receive job; the list holds what the successive calls
    of [receive] return, and after it there is no more data. *)
Fixpoint recv_loop (ck : clock) (u : uninit) (rs : list received) (buf : bytes) (hash : H)
    : M env (bytes * H) :=
  match rs with
  | [] | recv_again :: _ => ret (buf, hash)
  | recv_reset :: _ => let! hash := unlock_all hash in ret ([], hash)
  | recv_fail :: _ => throw system_error
  | recv_ok d :: rs' =>
      let! (rest, hash) := process_all ck u (buf ++ d) hash in
      if blen rest >? MAX_REQUEST_LENGTH then
        let! hash := unlock_all hash in
        invalidate_and_close ;;!
        ret ([], hash)
      else recv_loop ck u rs' rest hash
  end.
End socket.

(** [m_recvjob]: the lock context is the descriptor of the connection if the
    socket is still valid; otherwise [with_fd] does not run its argument, the
    context stays that of the thread's previous job, and [receive] reports a
    reset.  [pending] is [m_pending], and the result its new contents. *)
Definition with_context (ctx : Z) (r : request_env) : request_env :=
  {| r_config := r_config r; r_now := r_now r; r_context := ctx; r_slaves := r_slaves r;
     r_getpid := r_getpid r; r_utime := r_utime r; r_stime := r_stime r |}.

Definition recvjob {H : Type} `{TableOps H object} (r : request_env) (ck : clock) (u : uninit)
    (valid : bool) (fd : Z) (pending : bytes) (rs : list received) (hash : H)
    : M env (bytes * H) :=
  if valid then recv_loop (with_context fd r) ck u rs pending hash
  else recv_loop r ck u [recv_reset] pending hash.
