(* ===== verification/MemSocketSpec.v ===== *)
(** * Properties of request handling

    What every command keeps: the lock list of a connection is exactly the set of
    objects it has locked, objects locked by another connection keep their value,
    every stored object is well formed, and no internal exception is raised. *)

From S2P Require Import Prelude CLib MemTypes Table TextRequest TextRequestSpec BinaryRequest.
From S2P Require Import BinaryRequestSpec MemState MemObject MemObjectSpec Response Stats.
From S2P Require Import Replication MemSocket.

Import replication.

(** ** The invariant *)

Abbreviation contents_map := (gmap bytes (nat * object)).

(** The references that a connection with context [ctx] must hold. *)
Definition conn_ok (ctx : Z) (m : contents_map) (locks : list kref) : Prop :=
  NoDup locks /\
  forall k, k ∈ locks <-> exists o, m !! kr_data k = Some (kr_addr k, o) /\ o_lock o = ctx.

(** Stored objects are well formed and stored keys have a legal length. *)
Definition table_ok (cfg : mem_config) (m : contents_map) : Prop :=
  forall k a o, m !! k = Some (a, o) -> object_inv cfg o /\ blen k <= MAX_KEY_LENGTH.

(** What a client sees of an object, and its lock. *)
Definition same_value (o o' : object) : Prop :=
  contents o' = contents o /\ o_flags o' = o_flags o /\ o_cas o' = o_cas o /\
  o_lock o' = o_lock o.

(** Objects locked by others keep their place, their value and their lock, and
    none appears. *)
Definition frame (ctx : Z) (m m' : contents_map) : Prop :=
  (forall k a o, m !! k = Some (a, o) -> o_lock o <> ctx -> o_lock o <> -1 ->
     exists o', m' !! k = Some (a, o') /\ same_value o o') /\
  (forall k a o', m' !! k = Some (a, o') -> o_lock o' <> ctx -> o_lock o' <> -1 ->
     exists o, m !! k = Some (a, o) /\ same_value o o').

(** ** Silent computations: replies, statistics and replication *)

(** A view of the environment that replies to the client and statistics do not change. *)
Definition is_reply (o : output) : bool :=
  match o with out_repl _ _ _ => false | _ => true end.
Class Blind {V} (view : env -> V) : Prop := {
  blind_emit o e : is_reply o = true -> view (emit o e) = view e;
  blind_stats f e : view (upd_stats f e) = view e;
  blind_threshold v e : view (upd_threshold v e) = view e
}.

#[export] Instance blind_locks : Blind e_locks.
Proof. by constructor. Qed.

Abbreviation silent := (keeps e_locks).

Create HintDb silent.
#[export] Hint Resolve keeps_ret keeps_when keeps_bind keeps_iterM : silent.

Section blind.
Context {V : Type} (view : env -> V) `{!Blind view}.

Lemma silent_send d f : keeps view (send d f).
Proof. apply keeps_modify. intros e. by apply blind_emit. Qed.
Lemma silent_sendv d f : keeps view (sendv d f).
Proof. apply keeps_modify. intros e. by apply blind_emit. Qed.
Lemma silent_send_close d : keeps view (send_close d).
Proof. apply keeps_modify. intros e. by apply blind_emit. Qed.
Lemma silent_invalidate : keeps view invalidate_and_close.
Proof. apply keeps_modify. intros e. by apply blind_emit. Qed.
Lemma silent_count f : keeps view (count f).
Proof. apply keeps_modify. intros e. apply blind_stats. Qed.
Lemma silent_threshold v : keeps view (modify (upd_threshold v)).
Proof. apply keeps_modify. intros e. apply blind_threshold. Qed.
Lemma silent_error cmd opq st : st <> OK -> keeps view (binary_response.error cmd opq st).
Proof. destruct st; intros Hst; try done; apply silent_send. Qed.
Lemma silent_get cmd opq fl d cas f k : keeps view (binary_response.get cmd opq fl d cas f k).
Proof. destruct k; apply silent_sendv. Qed.
End blind.

Lemma silent_slaves l iov f : silent (sendv_slaves l iov f).
Proof. apply keeps_iterM. intros s. by apply keeps_modify. Qed.
#[export] Hint Resolve silent_slaves : silent.
#[export] Hint Extern 0 (Blind _) => tc_solve : silent.
#[export] Hint Extern 1 (keeps _ (send _ _)) => apply silent_send : silent.
#[export] Hint Extern 1 (keeps _ (sendv _ _)) => apply silent_sendv : silent.
#[export] Hint Extern 1 (keeps _ (send_close _)) => apply silent_send_close : silent.
#[export] Hint Extern 1 (keeps _ invalidate_and_close) => apply silent_invalidate : silent.
#[export] Hint Extern 1 (keeps _ (count _)) => apply silent_count : silent.
#[export] Hint Extern 1 (keeps _ (modify (upd_threshold _))) => apply silent_threshold : silent.
#[export] Hint Extern 1 (keeps _ (binary_response.error _ _ _)) =>
  apply silent_error; first [tc_solve|discriminate] : silent.
#[export] Hint Extern 1 (keeps _ (binary_response.get _ _ _ _ _ _ _)) =>
  apply silent_get : silent.

(** The replies that are one [send] or [sendv]. *)
#[export] Hint Extern 1 (keeps _ (binary_response.success _ _)) => apply silent_send : silent.
#[export] Hint Extern 1 (keeps _ (binary_response.set _ _ _)) => apply silent_send : silent.
#[export] Hint Extern 1 (keeps _ (binary_response.incdec _ _ _ _)) => apply silent_send : silent.
#[export] Hint Extern 1 (keeps _ (binary_response.version _ _)) => apply silent_send : silent.
#[export] Hint Extern 1 (keeps _ (binary_response.quit _ _)) => apply silent_send_close : silent.
#[export] Hint Extern 1 (keeps _ (binary_response.key _ _ _)) => apply silent_sendv : silent.
#[export] Hint Extern 1 (keeps _ (binary_response.send_stat _ _ _ _)) => apply silent_sendv : silent.
#[export] Hint Extern 1 (keeps _ text_response.error) => apply silent_send : silent.
#[export] Hint Extern 1 (keeps _ text_response.ok) => apply silent_send : silent.
#[export] Hint Extern 1 (keeps _ text_response.end_) => apply silent_send : silent.
#[export] Hint Extern 1 (keeps _ text_response.stored) => apply silent_send : silent.
#[export] Hint Extern 1 (keeps _ text_response.not_stored) => apply silent_send : silent.
#[export] Hint Extern 1 (keeps _ text_response.exists_) => apply silent_send : silent.
#[export] Hint Extern 1 (keeps _ text_response.touched) => apply silent_send : silent.
#[export] Hint Extern 1 (keeps _ text_response.deleted) => apply silent_send : silent.
#[export] Hint Extern 1 (keeps _ text_response.not_found) => apply silent_send : silent.
#[export] Hint Extern 1 (keeps _ text_response.locked) => apply silent_send : silent.
#[export] Hint Extern 1 (keeps _ text_response.version) => apply silent_sendv : silent.
#[export] Hint Extern 1 (keeps _ count_get_hit) => apply silent_count : silent.
#[export] Hint Extern 1 (keeps _ count_get_miss) => apply silent_count : silent.
#[export] Hint Extern 1 (keeps _ count_cas_hit) => apply silent_count : silent.
#[export] Hint Extern 1 (keeps _ count_cas_miss) => apply silent_count : silent.
#[export] Hint Extern 1 (keeps _ count_cas_badval) => apply silent_count : silent.
#[export] Hint Extern 1 (keeps _ (count_bin_op _)) => apply silent_count : silent.
#[export] Hint Extern 1 (keeps _ (count_text_op _)) => apply silent_count : silent.

(** ** Changes of one object and of the lock list *)

Inductive lock_change (ctx : Z) (k : kref) (o : object) (l : list kref) (o' : object)
    : list kref -> Prop :=
| lc_same :
    o_lock o' = o_lock o -> (o_lock o <> ctx -> o_lock o <> -1 -> same_value o o') ->
    lock_change ctx k o l o' l
| lc_lock :
    o_lock o = -1 -> o_lock o' = ctx -> lock_change ctx k o l o' (l ++ [k])
| lc_unlock l' :
    o_lock o = ctx -> o_lock o' = -1 -> erase_lock (kr_data k) l = Some l' ->
    lock_change ctx k o l o' l'.

Lemma erase_lock_Some k l l' :
  erase_lock k l = Some l' ->
  exists l1 x l2, l = l1 ++ x :: l2 /\ kr_data x = k /\ l' = l1 ++ l2.
Proof.
  revert l'. induction l as [|x l IH]; intros l'; cbn; [done|].
  case_bool_decide as Hx; [intros [= <-]; by exists [], x, l|].
  intros (l''&Hl&[= <-])%bind_Some. destruct (IH _ Hl) as (l1&y&l2&->&Hy&->).
  by exists (x :: l1), y, l2.
Qed.

Lemma erase_lock_in k l : k ∈ l -> is_Some (erase_lock (kr_data k) l).
Proof.
  induction l as [|x l IH]; intros Hin; [by apply elem_of_nil in Hin|]. cbn.
  case_bool_decide as Hx; [by eexists|].
  apply elem_of_cons in Hin as [->|Hin]; [done|]. destruct (IH Hin) as [l' ->]. by eexists.
Qed.

Section maps.
Context (ctx : Z) (Hctx : ctx <> -1).
Implicit Types m : contents_map.

Lemma same_value_refl o : same_value o o.
Proof. done. Qed.

Lemma frame_refl m : frame ctx m m.
Proof. split; intros k a o Hk _ _; exists o; done. Qed.

Lemma same_value_trans o1 o2 o3 : same_value o1 o2 -> same_value o2 o3 -> same_value o1 o3.
Proof. unfold same_value. intuition congruence. Qed.

Lemma frame_trans m1 m2 m3 : frame ctx m1 m2 -> frame ctx m2 m3 -> frame ctx m1 m3.
Proof.
  intros [A1 B1] [A2 B2]. split.
  - intros k a o Hk H1 H2. destruct (A1 k a o Hk H1 H2) as (o2&Hk2&S2).
    assert (o_lock o2 = o_lock o) as El by apply S2.
    destruct (A2 k a o2 Hk2) as (o3&Hk3&S3); [congruence..|].
    exists o3. split; [done|by eapply same_value_trans].
  - intros k a o Hk H1 H2. destruct (B2 k a o Hk H1 H2) as (o2&Hk2&S2).
    assert (o_lock o = o_lock o2) as El by apply S2.
    destruct (B1 k a o2 Hk2) as (o3&Hk3&S3); [congruence..|].
    exists o3. split; [done|by eapply same_value_trans].
Qed.

(** Another connection keeps its locks across the step. *)
Lemma frame_conn ctx' m m' l :
  ctx' <> ctx -> ctx' <> -1 -> frame ctx m m' -> conn_ok ctx' m l -> conn_ok ctx' m' l.
Proof.
  intros H1 H2 [A B] [Hnd Hl]. split; [done|]. intros k. rewrite Hl. split.
  - intros (o&Hk&Ho). destruct (A _ _ _ Hk) as (o'&Hk'&S); [congruence..|].
    exists o'. split; [done|]. rewrite <- Ho. apply S.
  - intros (o&Hk&Ho). destruct (B _ _ _ Hk) as (o'&Hk'&S); [congruence..|].
    exists o'. split; [done|]. rewrite <- Ho. symmetry. apply S.
Qed.

(** ** An object is replaced *)

Lemma put_frame m key a o o' l l' :
  m !! key = Some (a, o) -> lock_change ctx {| kr_addr := a; kr_data := key |} o l o' l' ->
  frame ctx m (<[key := (a, o')]> m).
Proof.
  intros Hk Hc.
  assert (o_lock o <> ctx -> o_lock o <> -1 -> same_value o o') as Hold
    by (destruct Hc; [done|done|done]).
  assert (o_lock o' <> ctx -> o_lock o' <> -1 -> same_value o o') as Hnew
    by (destruct Hc as [E Hs| |]; [rewrite E; done|done|done]).
  split; intros k b x Hx H1 H2; destruct (decide (k = key)) as [-> |Hne].
  - rewrite Hk in Hx. injection Hx as <- <-. exists o'.
    rewrite lookup_insert_eq. split; [done|by apply Hold].
  - exists x. by rewrite lookup_insert_ne.
  - rewrite lookup_insert_eq in Hx. injection Hx as <- <-. exists o. split; [done|by apply Hnew].
  - rewrite lookup_insert_ne in Hx by done. by exists x.
Qed.

Lemma kref_eta k : {| kr_addr := kr_addr k; kr_data := kr_data k |} = k.
Proof. by destruct k. Qed.

Lemma put_conn m key a o o' l l' :
  m !! key = Some (a, o) -> conn_ok ctx m l ->
  lock_change ctx {| kr_addr := a; kr_data := key |} o l o' l' ->
  conn_ok ctx (<[key := (a, o')]> m) l'.
Proof.
  intros Hk [Hnd Hl] Hc. set (kr := {| kr_addr := a; kr_data := key |}) in *.
  assert (forall k, kr_data k = key -> (exists x, <[key := (a, o')]> m !! kr_data k = Some (kr_addr k, x) /\ o_lock x = ctx)
     <-> k = kr /\ o_lock o' = ctx) as Hat.
  { intros [b d]; cbn. intros ->. rewrite lookup_insert_eq. split.
    - intros (x&[= <- <-]&Hx). done.
    - intros [[= ->] Hx]. by exists o'. }
  assert (forall k, kr_data k <> key -> (exists x, <[key := (a, o')]> m !! kr_data k = Some (kr_addr k, x) /\ o_lock x = ctx)
     <-> k ∈ l) as Hne by (intros k Hk'; rewrite Hl, lookup_insert_ne by done; done).
  assert (kr ∈ l <-> o_lock o = ctx) as Hkr.
  { rewrite Hl. cbn. rewrite Hk. split; [by intros (x&[= <-]&Hx)|intros Hx; by exists o]. }
  assert (forall k, kr_data k = key -> k ∈ l -> k = kr) as Huniq.
  { intros [b d] E Hin. cbn in E. subst d. rewrite Hl in Hin. cbn in Hin.
    destruct Hin as (x&Hx&_). rewrite Hk in Hx. by injection Hx as <- <-. }
  inversion Hc as [E Hs|E E'|l'' E E' He]; subst l'; clear Hc.
  - split; [done|]. intros k. destruct (decide (kr_data k = key)) as [Ek|Ek].
    + rewrite Hat by done. rewrite E. split.
      * intros Hin. pose proof (Huniq k Ek Hin) as ->. by rewrite Hkr in Hin.
      * intros [-> Ho]. by rewrite Hkr.
    + by rewrite Hne.
  - split.
    + apply NoDup_app. split; [done|]. split; [|apply NoDup_singleton].
      intros k Hin Hk1. apply list_elem_of_singleton in Hk1 as ->. rewrite Hkr in Hin. congruence.
    + intros k. rewrite elem_of_app, list_elem_of_singleton.
      destruct (decide (kr_data k = key)) as [Ek|Ek].
      * rewrite Hat by done. split; [|intros [-> _]; by right].
        intros [Hin| -> ]; [|done]. pose proof (Huniq k Ek Hin) as ->. rewrite Hkr in Hin. congruence.
      * rewrite Hne by done. split; [intros [?| -> ]; [done|by destruct Ek]|by left].
  - apply erase_lock_Some in He as (l1&x&l2&->&Hx&->).
    assert (x = kr) as -> by (apply Huniq; [done|set_solver]).
    rewrite NoDup_app, NoDup_cons in Hnd. destruct Hnd as (N1&N2&N3&N4). split.
    + apply NoDup_app. split; [done|]. split; [|done]. intros k Hin. specialize (N2 k Hin).
      set_solver.
    + intros k. destruct (decide (kr_data k = key)) as [Ek|Ek].
      * rewrite Hat by done. split; [|intros [_ ?]; congruence].
        intros Hin. exfalso. assert (k = kr) as -> by (apply Huniq; [done|set_solver]).
        apply elem_of_app in Hin as [Hin|Hin]; [|done]. specialize (N2 kr Hin). set_solver.
      * rewrite Hne by done. rewrite !elem_of_app, elem_of_cons. split; [set_solver|].
        intros [?|[-> |?]]; [by left|by destruct Ek|by right].
Qed.

(** ** An unlocked object appears or disappears *)

Lemma unlocked_key m key a o :
  o_lock o = -1 -> m !! key = None \/ m !! key = Some (a, o) ->
  forall k b, (exists x, m !! k = Some (b, x) /\ o_lock x = ctx) <->
              (exists x, delete key m !! k = Some (b, x) /\ o_lock x = ctx).
Proof.
  intros Ho Hm k b. destruct (decide (k = key)) as [-> |Hne].
  - rewrite lookup_delete_eq. split; intros (x&Hx&Hl); [|done].
    destruct Hm as [Hm|Hm]; rewrite Hm in Hx; [done|]. injection Hx as <- <-. congruence.
  - by rewrite lookup_delete_ne.
Qed.

Lemma conn_ok_ext m m' l :
  (forall k b, (exists x, m !! k = Some (b, x) /\ o_lock x = ctx) <->
               (exists x, m' !! k = Some (b, x) /\ o_lock x = ctx)) ->
  conn_ok ctx m l -> conn_ok ctx m' l.
Proof. intros Hx [Hnd Hl]. split; [done|]. intros k. by rewrite Hl, Hx. Qed.

Lemma new_conn m key a o l :
  m !! key = None -> o_lock o = -1 -> conn_ok ctx m l -> conn_ok ctx (<[key := (a, o)]> m) l.
Proof.
  intros Hk Ho. apply conn_ok_ext. intros k b.
  rewrite (unlocked_key (<[key := (a, o)]> m) key a o Ho) by (right; by rewrite lookup_insert_eq).
  by rewrite delete_insert_id.
Qed.

Lemma new_frame m key a o :
  m !! key = None -> o_lock o = -1 -> frame ctx m (<[key := (a, o)]> m).
Proof.
  intros Hk Ho. split; intros k b x Hx H1 H2; exists x; (split; [|done]).
  - rewrite lookup_insert_ne by (intros ->; congruence). done.
  - destruct (decide (k = key)) as [-> |Hne].
    + rewrite lookup_insert_eq in Hx. injection Hx as <- <-. congruence.
    + by rewrite lookup_insert_ne in Hx.
Qed.

Lemma del_conn m key a o l l' :
  m !! key = Some (a, o) -> conn_ok ctx m l ->
  lock_change ctx {| kr_addr := a; kr_data := key |} o l (with_lock (-1) o) l' ->
  conn_ok ctx (delete key m) l'.
Proof.
  intros Hk Hc Hl. pose proof (put_conn _ _ _ _ _ _ _ Hk Hc Hl) as H.
  revert H. apply conn_ok_ext. intros k b.
  rewrite (unlocked_key _ key a (with_lock (-1) o)) by (done || (right; by rewrite lookup_insert_eq)).
  by rewrite delete_insert_eq.
Qed.

Lemma del_frame m key a o :
  m !! key = Some (a, o) -> o_lock o = -1 \/ o_lock o = ctx -> frame ctx m (delete key m).
Proof.
  intros Hk Ho. split; intros k b x Hx H1 H2; exists x; (split; [|done]).
  - rewrite lookup_delete_ne; [done|]. intros ->. rewrite Hk in Hx. injection Hx as <- <-.
    by destruct Ho.
  - by apply lookup_delete_Some in Hx as [_ ?].
Qed.
End maps.

Lemma table_ok_insert cfg m key a o :
  table_ok cfg m -> object_inv cfg o -> blen key <= MAX_KEY_LENGTH ->
  table_ok cfg (<[key := (a, o)]> m).
Proof.
  intros Hm Ho Hk k b x [[<- [= <- <-]]|[_ Hx]]%lookup_insert_Some; [done|by eapply Hm].
Qed.

Lemma table_ok_delete cfg m key : table_ok cfg m -> table_ok cfg (delete key m).
Proof. intros Hm k b x [_ Hx]%lookup_delete_Some. by eapply Hm. Qed.

(** ** Releasing all locks of a connection *)

Section unlock.
Context {H : Type} `{HT : Table H object} (r : request_env) (X : exn -> Prop).
Context (cfg : mem_config) (ctx : Z) (Hctx : ctx <> -1).

(** One reference of the list: its object is there, locked by the connection, and
    afterwards the rest of the list is what is still locked.  The destructor unlocks by
    force and may run with any context. *)
Lemma unlock_apply_ok force k l hash (e : env) :
  force = true \/ g_context r = ctx ->
  t_inv hash -> conn_ok ctx (t_map hash) (k :: l) -> table_ok cfg (t_map hash) ->
  wp X (t_apply hash (kr_data k) (Some (unlock_handler r force)) None)
    (fun p e' => e' = e /\ t_inv p.2 /\ conn_ok ctx (t_map p.2) l /\
       table_ok cfg (t_map p.2) /\ frame ctx (t_map hash) (t_map p.2)) e.
Proof.
  intros Hf Hi Hc Ht. unfold wp.
  assert (exists o, t_map hash !! kr_data k = Some (kr_addr k, o) /\ o_lock o = ctx)
    as (o&Hk&Ho) by (apply Hc; set_solver).
  rewrite (t_apply_hit _ _ _ _ _ _ _ Hi Hk).
  assert (object_unlock (g_context r) force o e = (inr (with_lock (-1) o), e)) as Hu.
  { unfold object_unlock, locked_by_self. rewrite Ho.
    destruct Hf as [-> | ->]; [done|]. by rewrite Z.eqb_refl, andb_false_r. }
  unfold unlock_handler, bind at 1. rewrite Hu. cbn.
  assert (lock_change ctx {| kr_addr := kr_addr k; kr_data := kr_data k |} o (k :: l)
    (with_lock (-1) o) l) as Hlc.
  { apply lc_unlock; [done|done|]. cbn. by rewrite bool_decide_eq_true_2. }
  destruct (Ht _ _ _ Hk) as [Hoi Hkey]. rewrite (t_put_map _ _ _ _ _ Hi Hk). split_and!.
  - done.
  - by apply t_put_inv.
  - by eapply put_conn.
  - apply table_ok_insert; [done|by apply with_lock_inv|done].
  - by eapply put_frame.
Qed.

Lemma unlock_each_ok force l hash e :
  force = true \/ g_context r = ctx ->
  t_inv hash -> conn_ok ctx (t_map hash) l -> table_ok cfg (t_map hash) ->
  wp X (unlock_each r force l hash)
    (fun hash' e' => e' = e /\ t_inv hash' /\ conn_ok ctx (t_map hash') [] /\
       table_ok cfg (t_map hash') /\ frame ctx (t_map hash) (t_map hash')) e.
Proof.
  intros Hf. revert hash. induction l as [|k l IH]; intros hash Hi Hc Ht.
  { apply wp_ret. split_and!; try done; apply frame_refl. }
  cbn [unlock_each]. apply wp_bind. eapply wp_mono; [by apply unlock_apply_ok|].
  intros [b hash1] e1 (->&Hi1&Hc1&Ht1&Hfr1). eapply wp_mono; [by apply IH|].
  intros hash' e' (->&Hi'&Hc2&Ht2&Hfr2). split_and!; try done. by eapply frame_trans.
Qed.
End unlock.

(** ** One operation on the table *)

Section commands.
Context {H : Type} `{HT : Table H object} (r : request_env) (X : exn -> Prop).

Let ctx : Z := g_context r.
Let cfg : mem_config := config r.
Hypothesis Hctx : ctx <> -1.

Definition good (hash : H) (e : env) : Prop :=
  t_inv hash /\ conn_ok ctx (t_map hash) (e_locks e) /\ table_ok cfg (t_map hash).

(** What a command that starts with the table [hash] leaves. *)
Definition cmd_post (hash hash' : H) (e' : env) : Prop :=
  good hash' e' /\ frame ctx (t_map hash) (t_map hash').

Lemma cmd_post_refl hash e : good hash e -> cmd_post hash hash e.
Proof. intros Hg. split; [done|apply frame_refl]. Qed.

Lemma cmd_post_locks hash hash' e e' :
  e_locks e' = e_locks e -> cmd_post hash hash' e -> cmd_post hash hash' e'.
Proof. unfold cmd_post, good. by intros ->. Qed.

Lemma cmd_post_trans h1 h2 h3 e :
  frame ctx (t_map h1) (t_map h2) -> cmd_post h2 h3 e -> cmd_post h1 h3 e.
Proof. intros Hf [Hg Hf']. split; [done|by eapply frame_trans]. Qed.

Definition handler_ok (h : handler env object) : Prop := forall k o e,
  object_inv cfg o -> blen (kr_data k) <= MAX_KEY_LENGTH ->
  (o_lock o = ctx -> k ∈ e_locks e) ->
  wp X (h k o) (fun p e' => object_inv cfg p.2 /\
                  lock_change ctx k o (e_locks e) p.2 (e_locks e')) e.

Definition creator_ok (c : creator env object) : Prop := forall k e,
  wp X (c k) (fun o e' => object_inv cfg o /\ o_lock o = -1 /\ e_locks e' = e_locks e) e.

(** The predicate of [remove_if] unlocks what it lets be removed. *)
Definition predicate_ok (p : predicate env object) : Prop := forall k o e,
  object_inv cfg o -> (o_lock o = ctx -> k ∈ e_locks e) ->
  wp X (p (kr_data k) o) (fun res e' => object_inv cfg res.2 /\
      lock_change ctx k o (e_locks e) (if res.1 then with_lock (-1) o else res.2) (e_locks e') /\
      (res.1 = true -> o_lock o = -1 \/ o_lock o = ctx)) e.

Lemma good_locked hash e key a o :
  good hash e -> t_map hash !! key = Some (a, o) ->
  object_inv cfg o /\ blen key <= MAX_KEY_LENGTH /\
  (o_lock o = ctx -> {| kr_addr := a; kr_data := key |} ∈ e_locks e).
Proof.
  intros (_&[_ Hl]&Ht) Hk. destruct (Ht _ _ _ Hk) as [Ho Hkey].
  split; [done|]. split; [done|]. intros Hlock. apply Hl. by exists o.
Qed.

Lemma wp_apply_ok hash e key h c Q :
  good hash e -> handler_ok h ->
  match c with Some c => creator_ok c /\ blen key <= MAX_KEY_LENGTH | None => True end ->
  (forall b hash' e', cmd_post hash hash' e' -> Q (b, hash') e') ->
  wp X (t_apply hash key (Some h) c) Q e.
Proof.
  intros Hg Hh Hc HQ. pose proof Hg as (Hi&Hl&Ht). unfold wp.
  destruct (t_map hash !! key) as [[a o]|] eqn:Hk.
  - rewrite (t_apply_hit _ _ _ _ _ _ _ Hi Hk).
    destruct (good_locked _ _ _ _ _ Hg Hk) as (Ho&Hkey&Hin).
    specialize (Hh {| kr_addr := a; kr_data := key |} o e Ho Hkey Hin). unfold wp in Hh.
    destruct (h _ o e) as [[x|[b o']] e']; [done|]. destruct Hh as [Ho' Hlc]. cbn in Ho', Hlc.
    apply HQ. split; [split; [by apply t_put_inv|]|]; rewrite (t_put_map _ _ _ _ _ Hi Hk).
    + split; [by eapply put_conn|by apply table_ok_insert].
    + by eapply put_frame.
  - destruct c as [c|].
    + destruct Hc as [Hc Hkey]. rewrite (t_apply_miss _ _ _ _ _ Hi Hk).
      specialize (Hc {| kr_addr := t_fresh hash; kr_data := key |} e). unfold wp in Hc.
      destruct (c _ e) as [[x|o] e']; [done|]. destruct Hc as (Ho&Hlock&He).
      apply HQ. split; [split; [by apply t_new_inv|]|]; rewrite (t_new_map _ _ _ Hi Hk).
      * rewrite He. split; [by apply new_conn|by apply table_ok_insert].
      * by apply new_frame.
    + rewrite (t_apply_miss_null _ _ _ _ Hi Hk). apply HQ.
      split; [split; [by apply t_skip_inv|]|]; rewrite t_skip_map; [done|apply frame_refl].
Qed.

Lemma wp_remove_if_ok hash e key p Q :
  good hash e -> predicate_ok p ->
  (forall b hash' e', cmd_post hash hash' e' -> Q (b, hash') e') ->
  wp X (t_remove_if hash key p) Q e.
Proof.
  intros Hg Hp HQ. pose proof Hg as (Hi&Hl&Ht). unfold wp.
  destruct (t_map hash !! key) as [[a o]|] eqn:Hk.
  - rewrite (t_remove_if_hit _ _ _ _ _ _ Hi Hk).
    destruct (good_locked _ _ _ _ _ Hg Hk) as (Ho&Hkey&Hin).
    specialize (Hp {| kr_addr := a; kr_data := key |} o e Ho Hin). unfold wp in Hp. cbn in Hp.
    destruct (p key o e) as [[x|[[] o']] e']; [done| |]; cbn in Hp; destruct Hp as (Ho'&Hlc&Hlock).
    all: apply HQ.
    + split; [split; [by apply t_del_inv|]|]; rewrite (t_del_map _ _ Hi).
      * split; [by eapply del_conn|by apply table_ok_delete].
      * eapply del_frame; [done|by apply Hlock].
    + split; [split; [by apply t_put_inv|]|]; rewrite (t_put_map _ _ _ _ _ Hi Hk).
      * split; [by eapply put_conn|by apply table_ok_insert].
      * by eapply put_frame.
  - rewrite (t_remove_if_miss _ _ _ _ Hi Hk). apply HQ.
    split; [split; [by apply t_skip_inv|]|]; rewrite t_skip_map; [done|apply frame_refl].
Qed.

(** ** The handlers *)

Lemma wp_is_expired o Q e : (forall b, Q b e) -> wp X (is_expired r o) Q e.
Proof. intros HQ. apply wp_bind, wp_gets, wp_ret, HQ. Qed.

Lemma wp_replicate_object k o Q e :
  (forall o' e', same_value o o' -> (object_inv cfg o -> object_inv cfg o') ->
     e_locks e' = e_locks e -> Q o' e') ->
  wp X (replicate_object r k o) Q e.
Proof.
  intros HQ. unfold replicate_object. destruct (has_slaves r); [|by apply wp_ret, HQ].
  apply wp_bind. eapply (wp_keeps _ e_locks); [apply silent_slaves|intros e' He].
  apply wp_ret, HQ; [done|apply object_data_inv|done].
Qed.

Lemma silent_replicate_touch k o : silent (replicate_touch r k o).
Proof. apply keeps_when, silent_slaves. Qed.
Lemma silent_replicate_delete k : silent (replicate_delete r k).
Proof. apply keeps_when, silent_slaves. Qed.
#[local] Hint Resolve silent_replicate_touch silent_replicate_delete : silent.

(** A change of the value of an object that no other connection has locked. *)
Lemma lc_modify k o l o' :
  o_lock o' = o_lock o -> o_lock o = -1 \/ o_lock o = ctx -> lock_change ctx k o l o' l.
Proof. intros Hl Ho. constructor; [done|]. by destruct Ho. Qed.

Lemma lc_keep k o l o' : same_value o o' -> lock_change ctx k o l o' l.
Proof. intros Hs. constructor; [apply Hs|done]. Qed.

Lemma lc_locks k o l o' l1 l2 : l1 = l2 -> lock_change ctx k o l o' l1 -> lock_change ctx k o l o' l2.
Proof. by intros ->. Qed.

(** The object was not changed. *)
Lemma post_keep k o o' e e' :
  object_inv cfg o' -> same_value o o' -> e_locks e' = e_locks e ->
  object_inv cfg o' /\ lock_change ctx k o (e_locks e) o' (e_locks e').
Proof. intros Hi Hs ->. split; [done|by apply lc_keep]. Qed.

Lemma post_modify k o o' e e' :
  object_inv cfg o' -> o_lock o' = o_lock o -> o_lock o = -1 \/ o_lock o = ctx ->
  e_locks e' = e_locks e ->
  object_inv cfg o' /\ lock_change ctx k o (e_locks e) o' (e_locks e').
Proof. intros Hi Hl Ho ->. split; [done|by apply lc_modify]. Qed.

Lemma post_replicated k o o1 o' e e' :
  same_value o1 o' -> (object_inv cfg o1 -> object_inv cfg o') -> object_inv cfg o1 ->
  o_lock o1 = o_lock o -> o_lock o = -1 \/ o_lock o = ctx -> e_locks e' = e_locks e ->
  object_inv cfg o' /\ lock_change ctx k o (e_locks e) o' (e_locks e').
Proof.
  intros Hs Hi Hi1 Hl Ho He. apply post_modify; [by apply Hi| |done|done].
  rewrite <- Hl. apply Hs.
Qed.

Lemma post_lock k o o' e e' :
  object_inv cfg o' -> o_lock o = -1 -> o_lock o' = ctx -> e_locks e' = e_locks e ++ [k] ->
  object_inv cfg o' /\ lock_change ctx k o (e_locks e) o' (e_locks e').
Proof. intros Hi Ho Ho' ->. split; [done|by apply lc_lock]. Qed.

Lemma post_unlock k o o' e e' :
  object_inv cfg o' -> o_lock o = ctx -> o_lock o' = -1 ->
  erase_lock (kr_data k) (e_locks e) = Some (e_locks e') ->
  object_inv cfg o' /\ lock_change ctx k o (e_locks e) o' (e_locks e').
Proof. intros Hi Ho Ho' He. split; [done|by apply lc_unlock]. Qed.

Lemma wp_object_lock o (Q : object -> env -> Prop) e :
  locked o = false -> Q (with_lock ctx o) e -> wp X (object_lock (g_context r) o) Q e.
Proof. intros Hl HQ. unfold object_lock. rewrite Hl. by apply wp_ret. Qed.

Lemma wp_object_unlock force o (Q : object -> env -> Prop) e :
  force = true \/ o_lock o = ctx -> Q (with_lock (-1) o) e ->
  wp X (object_unlock (g_context r) force o) Q e.
Proof.
  intros Hl HQ. unfold object_unlock, locked_by_self.
  destruct Hl as [-> | ->]; [by apply wp_ret|]. unfold ctx. rewrite Z.eqb_refl, andb_false_r.
  by apply wp_ret.
Qed.

Lemma wp_add_lock k (Q : unit -> env -> Prop) e :
  (forall e', e_locks e' = e_locks e ++ [k] -> Q tt e') -> wp X (add_lock k) Q e.
Proof. intros HQ. by apply wp_modify, HQ. Qed.

Lemma wp_remove_lock k (Q : unit -> env -> Prop) e :
  k ∈ e_locks e ->
  (forall e', erase_lock (kr_data k) (e_locks e) = Some (e_locks e') -> Q tt e') ->
  wp X (remove_lock (kr_data k)) Q e.
Proof.
  intros Hin HQ. apply wp_bind, wp_gets. destruct (erase_lock_in _ _ Hin) as [l' Hl].
  rewrite Hl. by apply wp_modify, HQ.
Qed.

(** Run a handler up to its result. *)
Ltac wrun :=
  repeat match goal with
  | |- wp _ (bind (bind _ _) _) _ _ => apply wp_bind, wp_bind
  | |- wp _ (bind (if ?b then _ else _) _) _ _ => apply wp_bind
  | |- wp _ (bind (is_expired _ _) _) _ _ => apply wp_bind, wp_is_expired; intros []
  | |- wp _ (bind (replicate_object _ _ _) _) _ _ =>
      apply wp_bind, wp_replicate_object; intros ? ? ? ? ?
  | |- wp _ (bind (gets _) _) _ _ => apply wp_bind, wp_gets
  | |- wp _ (bind ?m _) _ _ =>
      apply wp_bind; eapply (wp_keeps _ e_locks); [solve [auto with silent]|intros ? ?]
  | |- wp _ (ret _) _ _ => apply wp_ret; cbn [fst snd]
  | |- wp _ (if ?b then _ else _) _ _ => destruct b eqn:?; cbn [negb andb orb] in *
  | |- wp _ (let _ := _ in _) _ _ => cbv zeta
  end.

(** The object is unchanged; the object has been changed and replicated. *)
Ltac replicated :=
  eapply post_replicated; [eassumption|eassumption|eauto with yrmcds..|congruence].
Ltac kept := apply post_keep; [done|done|congruence].

Section bin.
Context (buf : bytes) (cmd : binary_request).
Hypothesis Hcmd : binary_request_ok buf cmd.

Lemma bin_touch_handler_ok : handler_ok (bin_touch_handler r buf cmd).
Proof.
  intros k o e Ho Hk Hl. unfold bin_touch_handler. wrun.
  - apply post_keep; [done|done|congruence].
  - apply post_keep; [by apply object_touch_inv|done|congruence].
Qed.

Lemma flags_ok : 0 <= b_flags cmd < 2 ^ 32.
Proof. apply Hcmd. Qed.
#[local] Hint Resolve flags_ok object_set_inv object_set_lock not_locked_by_other : yrmcds.

Lemma bin_set_handler_ok : handler_ok (bin_set_handler r buf cmd).
Proof.
  intros k o e Ho Hk Hl. unfold bin_set_handler. wrun; first [kept|replicated].
Qed.

Lemma bin_append_handler_ok : handler_ok (bin_append_handler r buf cmd).
Proof.
  intros k o e Ho Hk Hl. unfold bin_append_handler, bin_modify. wrun; try kept.
  eapply post_replicated; [eassumption|eassumption|by apply object_append_spec|
    apply object_append_lock|by apply not_locked_by_other|congruence].
Qed.

Lemma bin_prepend_handler_ok : handler_ok (bin_prepend_handler r buf cmd).
Proof.
  intros k o e Ho Hk Hl. unfold bin_prepend_handler, bin_modify. wrun; try kept.
  eapply post_replicated; [eassumption|eassumption|by apply object_prepend_spec|
    apply object_prepend_lock|by apply not_locked_by_other|congruence].
Qed.

Lemma bin_incdec_ok k o res e :
  object_inv cfg o -> o_lock o = -1 \/ o_lock o = ctx ->
  (forall n o', res = Some (n, o') -> object_inv cfg o' /\ o_lock o' = o_lock o) ->
  wp X (bin_incdec r buf cmd res k o)
    (fun p e' => object_inv cfg p.2 /\ lock_change ctx k o (e_locks e) p.2 (e_locks e')) e.
Proof.
  intros Ho Hlock Hres. unfold bin_incdec. destruct res as [[n o1]|]; [|wrun; kept].
  destruct (Hres n o1 eq_refl) as [Hi Hl]. wrun.
  eapply post_replicated; [eassumption|eassumption|done|done|done|congruence].
Qed.

Lemma incdec_results n o : object_inv cfg o -> forall v o',
  object_incr n o = Some (v, o') \/ object_decr n o = Some (v, o') ->
  object_inv cfg o' /\ o_lock o' = o_lock o.
Proof. intros Ho v o' Hr. by destruct (object_incdec_inv cfg n o v o' Ho Hr) as (?&?&?&?). Qed.

Lemma bin_incr_handler_ok : handler_ok (bin_incr_handler r buf cmd).
Proof.
  intros k o e Ho Hk Hl. unfold bin_incr_handler, bin_modify. wrun; try kept.
  apply bin_incdec_ok; [done|by apply not_locked_by_other|].
  intros n o' Hr. eapply incdec_results; [done|by left].
Qed.

Lemma bin_decr_handler_ok : handler_ok (bin_decr_handler r buf cmd).
Proof.
  intros k o e Ho Hk Hl. unfold bin_decr_handler, bin_modify. wrun; try kept.
  apply bin_incdec_ok; [done|by apply not_locked_by_other|].
  intros n o' Hr. eapply incdec_results; [done|by right].
Qed.

Lemma locked_by_self_eq o : locked_by_self (g_context r) o = true -> o_lock o = ctx.
Proof. apply Z.eqb_eq. Qed.

Lemma bin_rau_handler_ok : handler_ok (bin_rau_handler r buf cmd).
Proof.
  intros k o e Ho Hk Hl. unfold bin_rau_handler.
  destruct (locked_by_self (g_context r) o) eqn:Hself; cbn [negb]; [|wrun; kept].
  apply locked_by_self_eq in Hself.
  destruct (_ && _) eqn:?; [wrun; kept|]. cbv zeta.
  apply wp_bind, wp_object_unlock; [right; by rewrite object_set_lock|].
  apply wp_bind, wp_remove_lock; [by apply Hl|]. intros e1 He1. wrun.
  match goal with Hs : same_value _ ?o', Hi : _ -> object_inv cfg ?o' |- _ =>
    apply post_unlock; [apply Hi; by apply with_lock_inv, object_set_inv, flags_ok|done|apply Hs|] end.
  rewrite He1. congruence.
Qed.

Lemma bin_lock_handler_ok : handler_ok (bin_lock_handler r buf cmd).
Proof.
  intros k o e Ho Hk Hl. unfold bin_lock_handler. apply wp_bind, wp_is_expired. intros [].
  { wrun; kept. }
  destruct (locked o) eqn:Hlock; [wrun; kept|].
  apply wp_bind, wp_object_lock; [done|]. apply wp_bind, wp_add_lock. intros e1 He1. wrun.
  apply post_lock; [by apply with_lock_inv|by apply not_locked|done|congruence].
Qed.

Lemma bin_unlock_handler_ok : handler_ok (bin_unlock_handler r buf cmd).
Proof.
  intros k o e Ho Hk Hl. unfold bin_unlock_handler.
  destruct (locked_by_self (g_context r) o) eqn:Hself; cbn [negb]; [|wrun; kept].
  apply locked_by_self_eq in Hself.
  apply wp_bind, wp_object_unlock; [by right|].
  apply wp_bind, wp_remove_lock; [by apply Hl|]. intros e1 He1. wrun.
  apply post_unlock; [by apply with_lock_inv|done|done|]. rewrite He1. congruence.
Qed.

Lemma bin_get_body_ok k o (Q : bool * object -> env -> Prop) e :
  object_inv cfg o ->
  (forall b o' e', object_inv cfg o' -> same_value o o' -> e_locks e' = e_locks e ->
     Q (b, o') e') ->
  wp X (bin_get_body r buf cmd k o) Q e.
Proof.
  intros Ho HQ. unfold bin_get_body. apply wp_bind, wp_is_expired. intros [].
  { apply wp_ret. by apply HQ. }
  apply wp_bind. destruct (negb (b_exptime cmd =? EXPTIME_NONE)); wrun.
  all: cbn [object_data]; wrun; apply HQ; try done; try congruence.
  all: first [by apply object_data_inv | by apply object_data_inv, object_touch_inv].
Qed.

Lemma bin_get_handler_ok : handler_ok (bin_get_handler r buf cmd).
Proof.
  intros k o e Ho Hk Hl. unfold bin_get_handler. cbv zeta. destruct (_ && _).
  - destruct (locked o) eqn:Hlock; [wrun; kept|].
    apply wp_bind, wp_object_lock; [done|]. apply wp_bind, wp_add_lock. intros e1 He1.
    apply bin_get_body_ok; [by apply with_lock_inv|]. intros b o' e' Hi Hs He.
    apply post_lock; [done|by apply not_locked|apply Hs|congruence].
  - apply bin_get_body_ok; [done|]. intros b o' e' Hi Hs He. by apply post_keep.
Qed.

(** Results of the predicate of [remove_if]. *)
Lemma pred_kept k o e e' :
  object_inv cfg o -> e_locks e' = e_locks e ->
  object_inv cfg (false, o).2 /\
  lock_change ctx k o (e_locks e) (if (false, o).1 then with_lock (-1) o else (false, o).2)
    (e_locks e') /\
  ((false, o).1 = true -> o_lock o = -1 \/ o_lock o = ctx).
Proof. intros Ho ->. split; [done|]. split; [by apply lc_keep|done]. Qed.

Lemma pred_removed k o e e1 e' :
  object_inv cfg o -> locked_by_other (g_context r) o = false ->
  (if locked_by_self (g_context r) o
   then erase_lock (kr_data k) (e_locks e) = Some (e_locks e1) else e_locks e1 = e_locks e) ->
  e_locks e' = e_locks e1 ->
  object_inv cfg (true, o).2 /\
  lock_change ctx k o (e_locks e) (if (true, o).1 then with_lock (-1) o else (true, o).2)
    (e_locks e') /\
  ((true, o).1 = true -> o_lock o = -1 \/ o_lock o = ctx).
Proof.
  intros Ho Hoth He ->. apply not_locked_by_other in Hoth. split; [done|]. split; [|done].
  cbn [fst]. destruct (locked_by_self (g_context r) o) eqn:Hs.
  - apply locked_by_self_eq in Hs. by apply lc_unlock.
  - rewrite He. assert (o_lock o = -1) as Hm.
    { destruct Hoth as [?|Hc]; [done|]. unfold locked_by_self in Hs.
      apply Z.eqb_neq in Hs. by destruct Hs. }
    apply lc_modify; [by rewrite Hm|by left].
Qed.

Lemma wp_remove_self k o (Q : unit -> env -> Prop) e :
  (o_lock o = ctx -> k ∈ e_locks e) ->
  (forall e1, (if locked_by_self (g_context r) o
     then erase_lock (kr_data k) (e_locks e) = Some (e_locks e1) else e_locks e1 = e_locks e) ->
     Q tt e1) ->
  wp X (when (locked_by_self (g_context r) o) (remove_lock (kr_data k))) Q e.
Proof.
  intros Hl HQ. destruct (locked_by_self (g_context r) o) eqn:Hs.
  - apply locked_by_self_eq in Hs. by apply wp_remove_lock; [apply Hl|].
  - by apply wp_ret, HQ.
Qed.

Lemma bin_delete_pred_ok : predicate_ok (bin_delete_pred r buf cmd).
Proof.
  intros k o e Ho Hl. unfold bin_delete_pred.
  destruct (locked_by_other (g_context r) o) eqn:Hother; [wrun; by apply pred_kept|].
  destruct (_ && _); [wrun; by apply pred_kept|].
  apply wp_bind, wp_remove_self; [done|]. intros e1 He1. wrun.
  eapply pred_removed; [done|done|exact He1|congruence].
Qed.

Lemma new_object_ok o (Q : object -> env -> Prop) e :
  (forall e', e_locks e' = e_locks e -> Q o e') -> wp X (new_object o) Q e.
Proof. intros HQ. apply wp_bind, wp_modify, wp_ret. by apply HQ. Qed.

Lemma creator_post k o (m : M env unit) e e0 :
  object_inv cfg o -> o_lock o = -1 -> silent m -> e_locks e0 = e_locks e ->
  wp X (m ;;! replicate_object r k o)
    (fun o' e' => object_inv cfg o' /\ o_lock o' = -1 /\ e_locks e' = e_locks e) e0.
Proof.
  intros Ho Hl Hm He. apply wp_bind. eapply (wp_keeps _ e_locks); [done|intros e1 He1].
  apply wp_replicate_object. intros o' e' Hs Hi He'.
  split; [by apply Hi|]. split; [|congruence]. rewrite <- Hl. apply Hs.
Qed.

Lemma bin_set_creator_ok : creator_ok (bin_set_creator r buf cmd).
Proof.
  intros k e. unfold bin_set_creator. apply wp_bind, new_object_ok. intros e1 He1.
  apply creator_post; [by apply object_new_inv, flags_ok|done|auto with silent|done].
Qed.

Lemma bin_incdec_creator_ok : creator_ok (bin_incdec_creator r buf cmd).
Proof.
  intros k e. unfold bin_incdec_creator. apply wp_bind, new_object_ok. intros e1 He1.
  apply creator_post; [apply object_number_inv|done|auto with silent|done].
Qed.

(** ** The whole command *)

Lemma key_bound : blen (item_bytes buf (b_key cmd)) <= MAX_KEY_LENGTH.
Proof.
  destruct (b_key cmd) as [[p n]|] eqn:Hk; [|done]. cbn.
  apply (bok_key buf cmd Hcmd) in Hk. unfold blen, MAX_KEY_LENGTH. rewrite length_take. lia.
Qed.

Abbreviation cmd_ok f :=
  (forall hash e, good hash e -> wp X (f hash) (cmd_post hash) e).

(** A reply after the operation on the table. *)
Lemma cmd_finish hash hash' (m : M env unit) e :
  silent m -> cmd_post hash hash' e -> wp X (m ;;! ret hash') (cmd_post hash) e.
Proof.
  intros Hm Hp. apply wp_bind. eapply (wp_keeps _ e_locks); [done|intros e' He].
  apply wp_ret. by eapply cmd_post_locks.
Qed.

Lemma bin_apply_ok h c :
  handler_ok h -> (forall x, c = Some x -> creator_ok x) -> cmd_ok (bin_apply buf cmd h c).
Proof.
  intros Hh Hc hash e Hg. unfold bin_apply. apply wp_bind. apply wp_apply_ok; [done|done| |].
  - destruct c as [c|]; [|done]. split; [by apply Hc|apply key_bound].
  - intros b hash' e' Hp. apply cmd_finish; [auto with silent|done].
Qed.

Lemma bin_get_ok : cmd_ok (bin_get r buf cmd).
Proof.
  intros hash e Hg. unfold bin_get. apply wp_bind.
  apply wp_apply_ok; [done|apply bin_get_handler_ok|done|]. intros b hash' e' Hp.
  apply cmd_finish; [|done]. destruct b; cbn [negb]; auto with silent.
Qed.

Lemma bin_checked_ok hash e m :
  good hash e -> wp X m (cmd_post hash) e -> wp X (bin_checked r buf cmd hash m) (cmd_post hash) e.
Proof.
  intros Hg Hm. unfold bin_checked.
  repeat (case_match; [apply cmd_finish; [auto with silent|by apply cmd_post_refl]|]). done.
Qed.

Lemma bin_set_ok : cmd_ok (bin_set r buf cmd).
Proof.
  intros hash e Hg. unfold bin_set. apply bin_checked_ok; [done|]. cbv zeta.
  apply wp_bind, wp_apply_ok; [done|apply bin_set_handler_ok| |].
  - destruct (_ && _); [|done]. split; [apply bin_set_creator_ok|apply key_bound].
  - intros b hash' e' Hp. apply cmd_finish; [auto with silent|done].
Qed.

Lemma bin_delete_ok : cmd_ok (bin_delete r buf cmd).
Proof.
  intros hash e Hg. unfold bin_delete. apply wp_bind.
  apply wp_remove_if_ok; [done|apply bin_delete_pred_ok|].
  intros b hash' e' Hp. apply cmd_finish; [auto with silent|done].
Qed.
End bin.

Lemma unlock_all_ok hash e : good hash e -> wp X (unlock_all r hash) (cmd_post hash) e.
Proof.
  intros (Hi&Hc&Ht). unfold unlock_all. apply wp_bind, wp_gets, wp_bind.
  eapply wp_mono; [by eapply (unlock_each_ok r X cfg ctx); [|right| | |]|].
  intros hash' e' (->&Hi'&Hc'&Ht'&Hf). by apply wp_bind, wp_modify, wp_ret.
Qed.

Lemma cmd_unlock_all (m : M env unit) hash e :
  silent m -> good hash e ->
  wp X (let! hash' := unlock_all r hash in m ;;! ret hash') (cmd_post hash) e.
Proof.
  intros Hm Hg. apply wp_bind. eapply wp_mono; [by apply unlock_all_ok|].
  intros hash' e' Hp. by apply cmd_finish.
Qed.

(** [foreach] with a visitor that only replies. *)
Lemma foreach_ok hash (v : visitor env object) (Q : unit -> env -> Prop) e :
  good hash e ->
  (forall k o e, blen (kr_data k) <= MAX_KEY_LENGTH ->
     wp X (v k o) (fun _ e' => e_locks e' = e_locks e) e) ->
  (forall e', e_locks e' = e_locks e -> Q tt e') -> wp X (t_foreach hash v) Q e.
Proof.
  intros (Hi&_&Ht) Hv HQ. unfold wp. rewrite t_foreach_spec.
  assert (forall k o, (k, o) ∈ t_items hash -> blen (kr_data k) <= MAX_KEY_LENGTH) as Hk.
  { intros k o Hin. apply t_items_spec in Hin; [|done]. by destruct (Ht _ _ _ Hin). }
  revert e HQ. induction (t_items hash) as [|[k o] l IH]; intros e HQ; [by apply HQ|].
  cbn [iterM]. specialize (Hv k o e (Hk k o ltac:(left))). unfold wp in Hv. unfold bind.
  cbn [fst snd]. destruct (v k o e) as [[x|[]] e1]; [done|].
  apply IH; [intros k' o' Hin; apply (Hk k' o'); by right|]. intros e' He. apply HQ. congruence.
Qed.

(** ** cmd_bin *)

Lemma silent_binary_stats buf cmd t : silent (binary_stats r cmd (opaque buf) t).
Proof.
  unfold binary_stats. apply keeps_gets. intros st. apply keeps_bind; [|auto with silent].
  apply keeps_iterM. intros nv. auto with silent.
Qed.

Lemma bin_keys_ok buf cmd hash e :
  good hash e -> wp X (bin_keys r buf cmd hash) (cmd_post hash) e.
Proof.
  intros Hg. unfold bin_keys. apply wp_bind. eapply foreach_ok; [done| |].
  - intros k o e0 Hk. unfold bin_keys_pred. apply wp_bind, wp_is_expired. intros []; [by apply wp_ret|].
    eapply (wp_keeps _ e_locks); [auto with silent|]. by intros e1 He1.
  - intros e1 He1. apply cmd_finish; [auto with silent|].
    eapply cmd_post_locks; [exact He1|by apply cmd_post_refl].
Qed.

Lemma bin_flush_ok buf cmd hash e :
  good hash e -> wp X (bin_flush buf cmd hash) (cmd_post hash) e.
Proof.
  intros Hg. unfold bin_flush. apply wp_bind.
  eapply (wp_keeps _ e_locks); [auto with silent|intros e1 He1].
  apply cmd_finish; [auto with silent|]. eapply cmd_post_locks; [exact He1|by apply cmd_post_refl].
Qed.

Lemma bin_quit_ok buf cmd hash e :
  good hash e -> wp X (bin_quit r buf cmd hash) (cmd_post hash) e.
Proof.
  intros Hg. unfold bin_quit. apply cmd_unlock_all; [|done].
  destruct (b_quiet cmd); auto with silent.
Qed.

Lemma bin_incdec_c_ok buf cmd c : bin_incdec_c r buf cmd = Some c -> creator_ok c.
Proof.
  unfold bin_incdec_c. destruct (negb _); [|done]. intros [= <-]. apply bin_incdec_creator_ok.
Qed.

Lemma cmd_bin_ok buf cmd hash e :
  binary_request_ok buf cmd -> good hash e ->
  wp X (cmd_bin r buf cmd hash) (cmd_post hash) e.
Proof.
  intros Hcmd Hg. unfold cmd_bin. cbv zeta. case_bool_decide as Hst; cbn [negb].
  2:{ apply cmd_finish; [by apply silent_error|by apply cmd_post_refl]. }
  apply wp_bind. eapply (wp_keeps _ e_locks); [auto with silent|intros e1 He1].
  assert (good hash e1) as Hg1 by (unfold good; by rewrite He1).
  destruct (b_command cmd) eqn:Hc;
    first [ by apply bin_get_ok | by apply bin_set_ok | by apply bin_delete_ok
          | by apply bin_keys_ok | by apply bin_flush_ok | by apply bin_quit_ok
          | apply cmd_unlock_all; [auto with silent|done]
          | apply bin_checked_ok; [done|apply bin_apply_ok; [done|by apply bin_rau_handler_ok|done|done]]
          | apply bin_apply_ok;
            [ done
            | eauto using bin_append_handler_ok, bin_prepend_handler_ok, bin_incr_handler_ok,
                bin_decr_handler_ok, bin_touch_handler_ok, bin_lock_handler_ok,
                bin_unlock_handler_ok
            | first [by eapply bin_incdec_c_ok | done]
            | done]
          | apply cmd_finish; [auto using silent_binary_stats with silent|by apply cmd_post_refl] ].
Qed.

(** ** cmd_text *)

Section text.
Context (buf : bytes) (cmd : text_request).
Hypothesis Hcmd : text_request_ok buf cmd.

Lemma text_flags_ok : 0 <= m_flags cmd < 2 ^ 32.
Proof. apply Hcmd. Qed.
#[local] Hint Resolve text_flags_ok object_set_inv object_set_lock not_locked_by_other : yrmcds.

Lemma text_set_handler_ok : handler_ok (text_set_handler r buf cmd).
Proof.
  intros k o e Ho Hk Hl. unfold text_set_handler, text_unlocked. wrun; first [kept|replicated].
Qed.

Lemma text_append_handler_ok : handler_ok (text_append_handler r buf cmd).
Proof.
  intros k o e Ho Hk Hl. unfold text_append_handler, text_unlocked. wrun; try kept.
  eapply post_replicated; [eassumption|eassumption|by apply object_append_spec|
    apply object_append_lock|by apply not_locked_by_other|congruence].
Qed.

Lemma text_prepend_handler_ok : handler_ok (text_prepend_handler r buf cmd).
Proof.
  intros k o e Ho Hk Hl. unfold text_prepend_handler, text_unlocked. wrun; try kept.
  eapply post_replicated; [eassumption|eassumption|by apply object_prepend_spec|
    apply object_prepend_lock|by apply not_locked_by_other|congruence].
Qed.

Lemma text_cas_handler_ok : handler_ok (text_cas_handler r buf cmd).
Proof.
  intros k o e Ho Hk Hl. unfold text_cas_handler, text_unlocked. wrun; first [kept|replicated].
Qed.

Lemma text_incdec_ok k o res e :
  object_inv cfg o -> o_lock o = -1 \/ o_lock o = ctx ->
  (forall n o', res = Some (n, o') -> object_inv cfg o' /\ o_lock o' = o_lock o) ->
  wp X (text_incdec r cmd res k o)
    (fun p e' => object_inv cfg p.2 /\ lock_change ctx k o (e_locks e) p.2 (e_locks e')) e.
Proof.
  intros Ho Hlock Hres. unfold text_incdec. destruct res as [[n o1]|]; [|wrun; kept].
  destruct (Hres n o1 eq_refl) as [Hi Hl]. wrun.
  eapply post_replicated; [eassumption|eassumption|done|done|done|congruence].
Qed.

Lemma text_incr_handler_ok : handler_ok (text_incr_handler r cmd).
Proof.
  intros k o e Ho Hk Hl. unfold text_incr_handler, text_unlocked. wrun; try kept.
  apply text_incdec_ok; [done|by apply not_locked_by_other|].
  intros n o' Hr. eapply incdec_results; [done|by left].
Qed.

Lemma text_decr_handler_ok : handler_ok (text_decr_handler r cmd).
Proof.
  intros k o e Ho Hk Hl. unfold text_decr_handler, text_unlocked. wrun; try kept.
  apply text_incdec_ok; [done|by apply not_locked_by_other|].
  intros n o' Hr. eapply incdec_results; [done|by right].
Qed.

Lemma text_touch_handler_ok : handler_ok (text_touch_handler r cmd).
Proof.
  intros k o e Ho Hk Hl. unfold text_touch_handler. wrun; [kept|].
  apply post_keep; [by apply object_touch_inv|done|congruence].
Qed.

Lemma text_lock_handler_ok : handler_ok (text_lock_handler r).
Proof.
  intros k o e Ho Hk Hl. unfold text_lock_handler. apply wp_bind, wp_is_expired. intros [].
  { wrun; kept. }
  destruct (locked o) eqn:Hlock; [wrun; kept|].
  apply wp_bind, wp_object_lock; [done|]. apply wp_bind, wp_add_lock. intros e1 He1. wrun.
  apply post_lock; [by apply with_lock_inv|by apply not_locked|done|congruence].
Qed.

Lemma text_unlock_handler_ok : handler_ok (text_unlock_handler r).
Proof.
  intros k o e Ho Hk Hl. unfold text_unlock_handler.
  destruct (locked_by_self (g_context r) o) eqn:Hself; cbn [negb]; [|wrun; kept].
  apply locked_by_self_eq in Hself. apply wp_bind, wp_object_unlock; [by right|].
  apply wp_bind, wp_remove_lock; [by apply Hl|]. intros e1 He1. wrun.
  apply post_unlock; [by apply with_lock_inv|done|done|]. rewrite He1. congruence.
Qed.

(** The length check of [value] never fails on a stored key. *)
Lemma wp_value k fl d cas (Q : unit -> env -> Prop) e :
  blen k <= MAX_KEY_LENGTH -> (forall e', e_locks e' = e_locks e -> Q tt e') ->
  wp X (text_response.value k fl d cas) Q e.
Proof.
  intros Hk HQ. unfold text_response.value. rewrite Z.gtb_ltb.
  destruct (Z.ltb_spec MAX_KEY_LENGTH (blen k)); [lia|].
  by eapply (wp_keeps _ e_locks); [apply silent_sendv|].
Qed.

Lemma text_get_handler_ok : handler_ok (text_get_handler r cmd).
Proof.
  intros k o e Ho Hk Hl. unfold text_get_handler. apply wp_bind, wp_is_expired. intros [].
  { wrun; kept. }
  cbn [object_data]. apply wp_bind, wp_value; [done|]. intros e' He. wrun.
  apply post_keep; [by apply object_data_inv|done|congruence].
Qed.

Lemma text_delete_pred_ok : predicate_ok (text_delete_pred r cmd).
Proof.
  intros k o e Ho Hl. unfold text_delete_pred.
  destruct (locked_by_other (g_context r) o) eqn:Hother; [wrun; by apply pred_kept|].
  apply wp_bind, wp_remove_self; [done|]. intros e1 He1. wrun.
  eapply pred_removed; [done|done|exact He1|congruence].
Qed.

Lemma text_set_creator_ok : creator_ok (text_set_creator r buf cmd).
Proof.
  intros k e. unfold text_set_creator. apply wp_bind, new_object_ok. intros e1 He1.
  apply creator_post; [by apply object_new_inv, text_flags_ok|done|auto with silent|done].
Qed.

(** ** The whole command *)

Lemma text_apply_ok h c miss hash e :
  silent miss -> handler_ok h ->
  match c with
  | Some c => creator_ok c /\ blen (item_bytes buf (m_key cmd)) <= MAX_KEY_LENGTH
  | None => True
  end -> good hash e -> wp X (text_apply buf cmd h c miss hash) (cmd_post hash) e.
Proof.
  intros Hm Hh Hc Hg. unfold text_apply. apply wp_bind. apply wp_apply_ok; [done|done|done|].
  intros b hash' e' Hp. apply cmd_finish; [auto with silent|done].
Qed.

Lemma text_set_ok hash e : good hash e -> wp X (text_set r buf cmd hash) (cmd_post hash) e.
Proof.
  intros Hg. unfold text_set. rewrite !Z.gtb_ltb.
  destruct (Z.ltb_spec MAX_KEY_LENGTH (blen (item_bytes buf (m_key cmd)))).
  { apply cmd_finish; [auto with silent|by apply cmd_post_refl]. }
  case_match; [apply cmd_finish; [auto with silent|by apply cmd_post_refl]|].
  apply text_apply_ok; [auto with silent|apply text_set_handler_ok| |done].
  destruct (negb _); [|done]. by split; [apply text_set_creator_ok|].
Qed.

(** An operation on an existing object, then a reply. *)
Lemma text_op_ok h (reply : bool -> M env unit) hash e :
  handler_ok h -> (forall b, silent (reply b)) -> good hash e ->
  wp X (let! (found, hash') := t_apply hash (item_bytes buf (m_key cmd)) (Some h) None in
        reply found ;;! ret hash') (cmd_post hash) e.
Proof.
  intros Hh Hr Hg. apply wp_bind, wp_apply_ok; [done|done|done|].
  intros b hash' e' Hp. by apply cmd_finish.
Qed.

Lemma text_cas_ok hash e : good hash e -> wp X (text_cas r buf cmd hash) (cmd_post hash) e.
Proof.
  intros Hg. apply (text_op_ok _ (fun found => when (negb found)
    (count_cas_miss ;;! when (negb (m_no_reply cmd)) text_response.not_found)));
    [apply text_cas_handler_ok|auto with silent|done].
Qed.

Lemma text_touch_ok hash e : good hash e -> wp X (text_touch r buf cmd hash) (cmd_post hash) e.
Proof.
  intros Hg. apply (text_op_ok _ (fun found : bool =>
    if found then when (negb (m_no_reply cmd)) text_response.touched
    else when (negb (m_no_reply cmd)) text_response.not_found));
    [apply text_touch_handler_ok|intros []; auto with silent|done].
Qed.

Lemma text_lock_ok hash e : good hash e -> wp X (text_lock r buf cmd hash) (cmd_post hash) e.
Proof.
  intros Hg. apply (text_op_ok _ (fun found => when (negb found) text_response.not_found));
    [apply text_lock_handler_ok|auto with silent|done].
Qed.

Lemma text_unlock_ok hash e : good hash e -> wp X (text_unlock r buf cmd hash) (cmd_post hash) e.
Proof.
  intros Hg. apply (text_op_ok _ (fun found => when (negb found) (send text_response.NOT_LOCKED true)));
    [apply text_unlock_handler_ok|auto with silent|done].
Qed.

Lemma text_delete_ok hash e : good hash e -> wp X (text_delete r buf cmd hash) (cmd_post hash) e.
Proof.
  intros Hg. unfold text_delete. apply wp_bind.
  apply wp_remove_if_ok; [done|apply text_delete_pred_ok|].
  intros b hash' e' Hp. apply cmd_finish; [auto with silent|done].
Qed.

Lemma text_get_loop_ok its hash e :
  good hash e -> wp X (text_get_loop r buf cmd its hash) (cmd_post hash) e.
Proof.
  revert hash e. induction its as [|it its IH]; intros hash e Hg.
  { by apply wp_ret, cmd_post_refl. }
  cbn [text_get_loop]. apply wp_bind, wp_apply_ok; [done|apply text_get_handler_ok|done|].
  intros b hash' e' [Hg' Hf]. apply wp_bind.
  eapply (wp_keeps _ e_locks); [destruct b; auto with silent|intros e1 He1].
  eapply wp_mono; [apply IH; unfold good in *; by rewrite He1|].
  intros hash'' e2. by apply cmd_post_trans.
Qed.

Lemma text_get_ok hash e : good hash e -> wp X (text_get r buf cmd hash) (cmd_post hash) e.
Proof.
  intros Hg. unfold text_get. destruct (text_keys_total buf cmd Hcmd) as [its Hits]. rewrite Hits.
  apply wp_bind, wp_ret, wp_bind. eapply wp_mono; [by apply text_get_loop_ok|].
  intros hash' e' Hp. apply cmd_finish; [auto with silent|done].
Qed.

Lemma text_keys_ok hash e : good hash e -> wp X (text_keys r buf cmd hash) (cmd_post hash) e.
Proof.
  intros Hg. unfold text_keys. apply wp_bind. eapply foreach_ok; [done| |].
  - intros k o e0 Hk. unfold text_keys_pred. apply wp_bind, wp_is_expired. intros []; [by apply wp_ret|].
    unfold text_response.value_key. rewrite Z.gtb_ltb.
    destruct (Z.ltb_spec MAX_KEY_LENGTH (blen (kr_data k))); [lia|].
    eapply (wp_keeps _ e_locks); [auto with silent|]. by intros e1 He1.
  - intros e1 He1. apply cmd_finish; [auto with silent|].
    eapply cmd_post_locks; [exact He1|by apply cmd_post_refl].
Qed.

Lemma silent_text_stats t : silent (text_stats r t).
Proof. unfold text_stats. apply keeps_gets. intros st. auto with silent. Qed.

Lemma cmd_finish2 hash hash' (m1 m2 : M env unit) e :
  silent m1 -> silent m2 -> cmd_post hash hash' e ->
  wp X (m1 ;;! m2 ;;! ret hash') (cmd_post hash) e.
Proof.
  intros H1 H2 Hp. apply wp_bind. eapply (wp_keeps _ e_locks); [done|intros e' He].
  apply cmd_finish; [done|]. by eapply cmd_post_locks.
Qed.


Lemma cmd_text_ok hash e : good hash e -> wp X (cmd_text r buf cmd hash) (cmd_post hash) e.
Proof.
  intros Hg. unfold cmd_text. cbv zeta. destruct (m_valid cmd); cbn [negb].
  2:{ apply cmd_finish; [auto with silent|by apply cmd_post_refl]. }
  apply wp_bind. eapply (wp_keeps _ e_locks); [auto with silent|intros e1 He1].
  assert (good hash e1) as Hg1 by (unfold good; by rewrite He1).
  destruct (m_command cmd);
    first [ by apply text_set_ok | by apply text_cas_ok | by apply text_touch_ok
          | by apply text_delete_ok | by apply text_lock_ok | by apply text_unlock_ok
          | by apply text_get_ok | by apply text_keys_ok
          | apply text_apply_ok;
            [ auto with silent
            | eauto using text_append_handler_ok, text_prepend_handler_ok,
                text_incr_handler_ok, text_decr_handler_ok
            | done | done ]
          | apply cmd_unlock_all; [auto with silent|done]
          | apply cmd_finish2; [auto using silent_text_stats, silent_threshold with silent
                               |auto with silent|by apply cmd_post_refl]
          | apply cmd_finish; [auto with silent|by apply cmd_post_refl] ].
Qed.
End text.
End commands.
