(* ===== verification/ServiceSpec.v ===== *)
(** * Abstract services

    What a protocol of the service promises about one key, without saying which
    protocol: the abstract object that clients can observe, its transitions, the
    abstraction of the table, and the rules by which a handler is shown to make the
    transition of a specification and to send its reply.  Where the bytes are kept, the
    buckets of the table, the statistics and the slaves are not part of the abstract
    object.  TextService and BinaryService are its clients. *)

From S2P Require Import Prelude CLib MemTypes Table TextRequest TextRequestSpec BinaryRequest.
From S2P Require Import BinaryRequestSpec MemState MemObject MemObjectSpec Response Stats.
From S2P Require Import Replication MemSocket MemSocketSpec Siphash HashMap HashMapSpec Samples.

Import replication.

(** ** Abstract objects *)

Record aobject := {
  a_value : bytes;
  a_large : bool;           (** kept in a file: not a number to [incr] and [decr] *)
  a_flags : Z;
  a_exptime : Z;
  a_cas : Z;
  a_lock : Z
}.

Section spec.
Context (limit : Z).                 (** [heap_data_limit] *)
Context (flush now ctx : Z).         (** [flush_time], the clock, the connection *)

(** Flushed or past its expiration time, unless it is locked. *)
Definition dead (x : aobject) : bool :=
  if negb (a_lock x =? -1) then false else
  if negb (flush =? 0) && (flush <=? now) then true else
  if a_exptime x =? 0 then false else a_exptime x <=? now.

Definition foreign (x : aobject) : bool := negb (a_lock x =? -1) && negb (a_lock x =? ctx).

(** A new value: the CAS value grows with every change. *)
Definition with_value (v : bytes) (large : bool) (fl ex : Z) (x : aobject) : aobject :=
  {| a_value := v; a_large := large; a_flags := fl; a_exptime := ex; a_cas := u64 (a_cas x + 1);
     a_lock := a_lock x |}.
Definition store (v : bytes) (fl ex : Z) (x : aobject) : aobject :=
  with_value v (blen v >? limit) fl ex x.
Definition grow (p v : bytes) (x : aobject) : aobject :=
  with_value v (if blen p =? 0 then a_large x else if blen v >? limit then true else a_large x)
    (a_flags x) (a_exptime x) x.
Definition create (v : bytes) (fl ex : Z) : aobject :=
  {| a_value := v; a_large := blen v >? limit; a_flags := fl; a_exptime := ex; a_cas := 1;
     a_lock := -1 |}.
Definition relock (l : Z) (x : aobject) : aobject :=
  {| a_value := a_value x; a_large := a_large x; a_flags := a_flags x; a_exptime := a_exptime x;
     a_cas := a_cas x; a_lock := l |}.
Definition retime (ex : Z) (x : aobject) : aobject :=
  {| a_value := a_value x; a_large := a_large x; a_flags := a_flags x; a_exptime := ex;
     a_cas := a_cas x; a_lock := a_lock x |}.

(** The number an object holds. *)
Definition number (x : aobject) : option Z :=
  if a_large x then None else stoull (a_value x).

End spec.

(** ** Abstraction *)

Definition abs (o : object) : aobject :=
  {| a_value := contents o; a_large := match o_file o with Some _ => true | None => false end;
     a_flags := o_flags o; a_exptime := o_exptime o; a_cas := o_cas o; a_lock := o_lock o |}.
Definition abs_map (m : contents_map) : gmap bytes aobject := (fun p => abs p.2) <$> m.

(** What has been sent to the client. *)
Definition client_bytes (l : list output) : bytes :=
  l ≫= fun o => match o with out_send d _ => d | out_close d => d | _ => [] end.
Definition client (e : env) : bytes := client_bytes (e_out e).

Section objects.
Context (cfg : mem_config).

Lemma abs_set p fl ex o :
  abs (object_set cfg p fl ex o) = store (c_heap_data_limit cfg) p fl ex (abs o).
Proof.
  unfold abs, store, with_value. rewrite object_set_contents. unfold object_set, heap_data_limit, incr64.
  by destruct (blen p >? c_heap_data_limit cfg).
Qed.

Lemma abs_new p fl ex : abs (object_new cfg p fl ex) = create (c_heap_data_limit cfg) p fl ex.
Proof.
  unfold abs, create. rewrite object_new_contents. unfold object_new, heap_data_limit. cbn.
  by destruct (blen p >? c_heap_data_limit cfg).
Qed.

Lemma blen_zero p : (blen p =? 0) = true -> p = [].
Proof. destruct p; [done|]. unfold blen. cbn. intros E%Z.eqb_eq. lia. Qed.

Lemma abs_append p o :
  object_inv cfg o ->
  abs (object_append cfg p o) = grow (c_heap_data_limit cfg) p (contents o ++ p) (abs o).
Proof.
  intros Hi. destruct (object_append_spec cfg p o Hi) as [_ Hc]. unfold abs, grow, with_value. rewrite Hc.
  rewrite blen_app, <- (oi_length _ _ Hi). unfold object_append, heap_data_limit, incr64. cbn.
  destruct (blen p =? 0); [done|]. destruct (o_length o + blen p >? c_heap_data_limit cfg); [|done].
  by destruct (o_file o).
Qed.

Lemma abs_prepend p o :
  object_inv cfg o ->
  abs (object_prepend cfg p o) = grow (c_heap_data_limit cfg) p (p ++ contents o) (abs o).
Proof.
  intros Hi. destruct (object_prepend_spec cfg p o Hi) as [_ Hc]. unfold abs, grow, with_value. rewrite Hc.
  rewrite blen_app, <- (oi_length _ _ Hi), Z.add_comm. unfold object_prepend, heap_data_limit, incr64. cbn.
  destruct (blen p =? 0); [done|]. destruct (o_length o + blen p >? c_heap_data_limit cfg); [|done].
  by destruct (o_file o).
Qed.

Lemma abs_number o : object_inv cfg o -> object_value o = number (abs o).
Proof.
  intros Hi. unfold object_value, number. cbn. destruct (o_file o) eqn:Hf; [done|].
  destruct (inv_take cfg o Hi Hf) as [-> _]. done.
Qed.

Lemma abs_store_number v o :
  o_file o = None ->
  abs (store_number v o) = with_value (to_string v) false (o_flags o) (o_exptime o) (abs o).
Proof. destruct o as [len d f fl ex cas age l]. cbn. intros ->. done. Qed.
End objects.

(** ** What a computation says to the client *)

(** It returns, sends [d] to the client and leaves the flush time alone. *)
Definition says (d : bytes) (m : M env unit) : Prop := forall e, exists e',
  m e = (inr tt, e') /\ client e' = client e ++ d /\
  flush_time (e_stats e') = flush_time (e_stats e).

Lemma client_emit o e : client (emit o e) = client e ++ client_bytes [o].
Proof. unfold client, client_bytes. cbn [e_out emit]. by rewrite bind_app. Qed.

Lemma says_send d f : says d (send d f).
Proof. intros e. eexists. split; [done|]. rewrite client_emit. cbn. by rewrite app_nil_r. Qed.

Lemma says_ret : says [] (ret tt).
Proof. intros e. exists e. by rewrite app_nil_r. Qed.

Lemma says_when (b : bool) d (m : M env unit) : says d m -> says (if b then d else []) (when b m).
Proof. intros Hm. destruct b; [done|apply says_ret]. Qed.

Lemma says_bind d1 d2 (m k : M env unit) : says d1 m -> says d2 k -> says (d1 ++ d2) (m ;;! k).
Proof.
  intros H1 H2 e. destruct (H1 e) as (e1&E1&C1&F1). destruct (H2 e1) as (e2&E2&C2&F2).
  exists e2. unfold bind. rewrite E1, C2, C1, F2, F1, app_assoc. done.
Qed.

Lemma says_nothing (m : M env unit) : keeps (fun e => (client e, flush_time (e_stats e))) m -> says [] m.
Proof.
  intros Hm e. destruct (Hm e) as (e'&He&[= Hc Hf]). exists e'. by rewrite app_nil_r.
Qed.

Lemma says_count f : (forall s, flush_time (f s) = flush_time s) -> says [] (count f).
Proof. intros Hf. apply says_nothing, keeps_modify. intros e. unfold client. cbn. by rewrite Hf. Qed.

Lemma says_slaves l iov f : says [] (sendv_slaves l iov f).
Proof.
  apply says_nothing, keeps_iterM. intros s. apply keeps_modify. intros e.
  rewrite client_emit. cbn. by rewrite app_nil_r.
Qed.

Lemma wp_says X d (m : M env unit) (Q : unit -> env -> Prop) e :
  says d m ->
  (forall e', client e' = client e ++ d -> flush_time (e_stats e') = flush_time (e_stats e) ->
     Q tt e') -> wp X m Q e.
Proof. intros Hm HQ. unfold wp. destruct (Hm e) as (e'&->&Hc&Hf). by apply HQ. Qed.

Create HintDb says.
#[export] Hint Resolve says_ret says_slaves : says.
#[export] Hint Extern 1 (says _ (send _ _)) => apply says_send : says.
#[export] Hint Extern 1 (says _ (count _)) => by apply says_count : says.
#[export] Hint Extern 1 (says _ count_cas_badval) => by apply says_count : says.
#[export] Hint Extern 1 (says _ count_cas_hit) => by apply says_count : says.
#[export] Hint Extern 1 (says _ count_cas_miss) => by apply says_count : says.
#[export] Hint Extern 1 (says _ (count_text_op _)) => by apply says_count : says.
#[export] Hint Extern 1 (says _ (count_bin_op _)) => by apply says_count : says.
#[export] Hint Extern 1 (says _ count_get_miss) => by apply says_count : says.
#[export] Hint Extern 1 (says _ count_get_hit) => by apply says_count : says.
#[export] Hint Extern 2 (says _ (when _ _)) => apply says_when : says.
#[export] Hint Extern 2 (says _ (bind _ _)) => apply says_bind : says.


(** ** Handlers and specifications *)

Section service.
Context {H : Type} `{HT : Table H object} (r : request_env).
(** The specification of a command at a flush time, and the key it is about. *)
Context (spec : Z -> option aobject -> option aobject * bytes) (key : bytes).

Let ctx : Z := g_context r.
Let cfg : mem_config := config r.
(** Exceptions are excluded by [cmd_text_ok] and [cmd_bin_ok]; here only results matter. *)
Let X : exn -> Prop := fun _ => True.

(** The handler changes the object as the specification says; its replies and the
    one sent [after] the operation are those of the specification. *)
Definition serves (after : bool -> bytes) (h : handler env object) : Prop := forall k o e,
  kr_data k = key -> blen key <= MAX_KEY_LENGTH -> object_inv cfg o ->
  wp X (h k o) (fun p e' =>
    let s := spec (flush_time (e_stats e)) (Some (abs o)) in
    s.1 = Some (abs p.2) /\ client e' ++ after p.1 = client e ++ s.2 /\
    flush_time (e_stats e') = flush_time (e_stats e)) e.

Lemma wp_expired o (Q : bool -> env -> Prop) e :
  Q (dead (flush_time (e_stats e)) (r_now r) (abs o)) e -> wp X (is_expired r o) Q e.
Proof. intros HQ. by apply wp_bind, wp_gets, wp_ret. Qed.

Lemma wp_replicate k o (Q : object -> env -> Prop) e :
  (forall o' e', abs o' = abs o -> client e' = client e ->
     flush_time (e_stats e') = flush_time (e_stats e) -> Q o' e') ->
  wp X (replicate_object r k o) Q e.
Proof.
  intros HQ. unfold replicate_object. destruct (has_slaves r); [|by apply wp_ret, HQ].
  apply wp_bind. eapply wp_says; [apply says_slaves|]. intros e' Hc Hf. rewrite app_nil_r in Hc.
  by apply wp_ret, HQ.
Qed.

Lemma says_replicate_touch k o : says [] (replicate_touch r k o).
Proof. unfold replicate_touch. destruct (has_slaves r); [apply says_slaves|apply says_ret]. Qed.
Lemma says_replicate_delete k : says [] (replicate_delete r k).
Proof. unfold replicate_delete. destruct (has_slaves r); [apply says_slaves|apply says_ret]. Qed.

Lemma says_add_lock k : says [] (add_lock k).
Proof. by apply says_nothing, keeps_modify. Qed.

Lemma wp_unlisted k (Q : unit -> env -> Prop) e :
  (forall e', client e' = client e -> flush_time (e_stats e') = flush_time (e_stats e) ->
     Q tt e') -> wp X (remove_lock k) Q e.
Proof.
  intros HQ. apply wp_bind, wp_gets. destruct (erase_lock k (e_locks e)); [|by apply wp_throw].
  by apply wp_modify, HQ.
Qed.

Lemma unlisted_self k o e :
  wp X (when (locked_by_self (g_context r) o) (remove_lock k))
    (fun _ e' => client e' = client e /\ flush_time (e_stats e') = flush_time (e_stats e)) e.
Proof. destruct (locked_by_self _ _); [by apply wp_unlisted|by apply wp_ret]. Qed.

Lemma foreign_abs o : foreign ctx (abs o) = locked_by_other (g_context r) o.
Proof. done. Qed.

(** ** The operations *)

Lemma abs_lookup (m : contents_map) k : abs_map m !! k = (fun p => abs p.2) <$> m !! k.
Proof. apply lookup_fmap. Qed.

Lemma abs_insert (m : contents_map) k a o : abs_map (<[k := (a, o)]> m) = <[k := abs o]> (abs_map m).
Proof. unfold abs_map. by rewrite fmap_insert. Qed.

Lemma abs_delete (m : contents_map) k : abs_map (delete k m) = delete k (abs_map m).
Proof. unfold abs_map. by rewrite fmap_delete. Qed.

Lemma abs_unchanged (m : contents_map) x k :
  abs_map m !! k = x -> abs_map m = partial_alter (fun _ => x) k (abs_map m).
Proof. intros <-. symmetry. by apply partial_alter_self. Qed.

(** The command leaves what the specification says, and has said its reply. *)
Definition refines (hash : H) (e : env) (hash' : H) (e' : env) : Prop :=
  let s := spec (flush_time (e_stats e)) (abs_map (t_map hash) !! key) in
  abs_map (t_map hash') = partial_alter (fun _ => s.1) key (abs_map (t_map hash)) /\
  client e' = client e ++ s.2 /\ flush_time (e_stats e') = flush_time (e_stats e).

Definition creates (after : bool -> bytes) (c : option (creator env object)) : Prop :=
  match c with
  | Some c => after true = [] /\ forall k e, wp X (c k) (fun o e' =>
      let s := spec (flush_time (e_stats e)) None in
      s.1 = Some (abs o) /\ client e' = client e ++ s.2 /\
      flush_time (e_stats e') = flush_time (e_stats e)) e
  | None => forall flush, spec flush None = (None, after false)
  end.

Lemma apply_refines h c after (reply : bool -> M env unit) hash e :
  t_inv hash -> table_ok cfg (t_map hash) -> serves after h -> creates after c ->
  (forall b, says (after b) (reply b)) ->
  wp X (let! (found, hash') := t_apply hash key (Some h) c in reply found ;;! ret hash')
    (refines hash e) e.
Proof.
  intros Hi Ht Hh Hc Hr. apply wp_bind. unfold refines. rewrite abs_lookup.
  destruct (t_map hash !! key) as [[a o]|] eqn:Hk; cbn [fmap option_fmap option_map snd].
  - destruct (Ht _ _ _ Hk) as [Hoi Hkl]. eapply wp_apply_hit; [done|done|]. eapply wp_mono; [by apply Hh|].
    intros [b o'] e1 (H1&H2&H3). cbn [fst snd] in *. apply wp_bind.
    eapply wp_says; [apply Hr|]. intros e2 He2 Hf2. apply wp_ret. rewrite H1.
    rewrite (t_put_map _ _ _ _ _ Hi Hk), abs_insert, He2, H2, Hf2, H3. done.
  - destruct c as [c|].
    + destruct Hc as [Ha Hc]. apply wp_apply_miss; [done|done|]. eapply wp_mono; [apply Hc|].
      intros o e1 (H1&H2&H3). apply wp_bind. eapply wp_says; [apply Hr|]. intros e2 He2 Hf2. apply wp_ret.
      rewrite H1, (t_new_map _ _ _ Hi Hk), abs_insert, He2, H2, Ha, app_nil_r, Hf2, H3. done.
    + pose proof (Hc (flush_time (e_stats e))) as Hs. rewrite Hs. cbn [fst snd].
      apply wp_apply_none; [done|done|]. apply wp_bind. eapply wp_says; [apply Hr|].
      intros e1 He1 Hf1. apply wp_ret. rewrite t_skip_map, He1, Hf1. split; [|done].
      apply abs_unchanged. by rewrite abs_lookup, Hk.
Qed.

Lemma refines_start hash e e1 hash' e' :
  client e1 = client e ++ [] -> flush_time (e_stats e1) = flush_time (e_stats e) ->
  refines hash e1 hash' e' -> refines hash e hash' e'.
Proof. unfold refines. rewrite app_nil_r. by intros -> ->. Qed.

End service.

#[export] Hint Resolve says_add_lock says_replicate_touch says_replicate_delete : says.

(** Run a handler up to its result, collecting what is said. *)
Ltac srun :=
  repeat match goal with
  | |- wp _ (bind (is_expired _ _) _) _ _ => apply wp_bind, wp_expired
  | |- wp _ (bind (ret _) _) _ _ => apply wp_bind, wp_ret
  | |- wp _ (bind (remove_lock _) _) _ _ => apply wp_bind, wp_unlisted; intros ? ? ?
  | E : dead _ _ _ = _ |- wp _ (if _ then _ else _) _ _ => rewrite !E; cbn [negb andb orb]
  | |- wp _ (bind (replicate_object _ _ _) _) _ _ =>
      apply wp_bind, wp_replicate; intros ? ? ? ? ?
  | |- wp _ (bind ?m _) _ _ =>
      apply wp_bind; eapply wp_says; [solve [eauto with says]|intros ? ? ?]
  | |- wp _ (ret _) _ _ => apply wp_ret; cbn [fst snd]
  | |- wp _ (if ?b then _ else _) _ _ => destruct b eqn:?; cbn [negb andb orb] in *
  end.
(** A result exists, by the rule that excludes exceptions, and satisfies what the
    rule that does not shows. *)
Lemma wp_both {E A} X (m : M E A) (P Q : A -> E -> Prop) e :
  wp no_exn m P e -> wp X m Q e -> exists a e', m e = (inr a, e') /\ P a e' /\ Q a e'.
Proof. unfold wp. destruct (m e) as [[x|a] e']; [done|]. intros HP HQ. by exists a, e'. Qed.

(** The state of the examples satisfies the invariants. *)
Lemma sample_good : good (sample_request 5 []) sample_empty (sample_env []).
Proof.
  assert (t_map sample_empty = ∅) as Hm by apply ctor_map.
  split; [by apply ctor_inv|]. rewrite Hm. split; [|by intros k a o].
  split; [apply NoDup_nil_2|]. intros k. cbn. rewrite elem_of_nil, lookup_empty. naive_solver.
Qed.

