(* ===== verification/TextService.v ===== *)
(** * The text protocol as an abstract service

    What the service promises about one key: each command is a transition of the
    abstract object stored under its key, with a reply.  The abstract object is
    what clients can observe; where the bytes are kept, the buckets of the table,
    the statistics and the slaves are not part of it.  [cmd_text] refines this
    specification. *)

From S2P Require Import Prelude CLib MemTypes Table TextRequest TextRequestSpec TextRoundtrip BinaryRequest.
From S2P Require Import BinaryRequestSpec MemState MemObject MemObjectSpec Response Stats.
From S2P Require Import Replication MemSocket MemSocketSpec Siphash HashMap HashMapSpec Samples ServiceSpec.

Import replication.

(** ** The specification *)

Section spec.
Context (limit max_data : Z).        (** [heap_data_limit] and [max_data_size] *)
Context (flush now ctx : Z).         (** [flush_time], the clock, the connection *)

Local Notation dead := (ServiceSpec.dead flush now).
Local Notation foreign := (ServiceSpec.foreign ctx).
Local Notation store := (ServiceSpec.store limit).
Local Notation grow := (ServiceSpec.grow limit).
Local Notation create := (ServiceSpec.create limit).

Definition line_of (s : string) : bytes := lit s ++ CRLF.

Definition arith (f : Z -> Z) (x : aobject) : aobject * bytes :=
  match number x with
  | Some v => (with_value (to_string (f v)) false (a_flags x) (a_exptime x) x,
               to_string (f v) ++ CRLF)
  | None => (x, text_response.NON_NUMERIC)
  end.

Section command.
Context (cmd : text_request) (key data : bytes).

(** Replies that [noreply] suppresses. *)
Definition quietly (b : bytes) : bytes := if m_no_reply cmd then [] else b.

(** The transition of the object under the key of a command, and the reply. *)
Definition text_spec (s : option aobject) : option aobject * bytes :=
  let stored x := (Some x, quietly (line_of "STORED")) in
  let refused r := (s, quietly (line_of r)) in
  let alive x k := if foreign x then refused "LOCKED" else k (dead x) in
  match m_command cmd, s with
  | SET, Some x => alive x (fun _ => stored (store data (m_flags cmd) (m_exptime cmd) x))
  | ADD, Some x => alive x (fun d : bool =>
      if d then stored (store data (m_flags cmd) (m_exptime cmd) x) else refused "NOT_STORED")
  | REPLACE, Some x => alive x (fun d : bool =>
      if d then refused "NOT_STORED" else stored (store data (m_flags cmd) (m_exptime cmd) x))
  | (SET | ADD), None => stored (create data (m_flags cmd) (m_exptime cmd))
  | APPEND, Some x => alive x (fun d : bool =>
      if d then refused "NOT_STORED" else stored (grow data (a_value x ++ data) x))
  | PREPEND, Some x => alive x (fun d : bool =>
      if d then refused "NOT_STORED" else stored (grow data (data ++ a_value x) x))
  | CAS, Some x => alive x (fun d : bool =>
      if d then refused "NOT_FOUND" else
      if a_cas x =? m_cas_unique cmd then stored (store data (m_flags cmd) (m_exptime cmd) x)
      else refused "EXISTS")
  | INCR, Some x => alive x (fun d : bool =>
      if d then refused "NOT_FOUND" else
      let '(x', r) := arith (fun v => u64 (v + m_value cmd)) x in (Some x', quietly r))
  | DECR, Some x => alive x (fun d : bool =>
      if d then refused "NOT_FOUND" else
      let '(x', r) := arith (fun v => if v <? m_value cmd then 0 else v - m_value cmd) x in
      (Some x', quietly r))
  | TOUCH, Some x =>
      if dead x then refused "NOT_FOUND"
      else (Some (retime (m_exptime cmd) x), quietly (line_of "TOUCHED"))
  | DELETE, Some x =>
      if foreign x then refused "LOCKED" else (None, quietly (line_of "DELETED"))
  | LOCK, Some x =>
      if dead x then (s, line_of "NOT_FOUND") else
      if a_lock x =? -1 then (Some (relock ctx x), line_of "OK") else (s, line_of "LOCKED")
  | UNLOCK, Some x =>
      if a_lock x =? ctx then (Some (relock (-1) x), line_of "OK")
      else (s, text_response.NOT_LOCKED)
  | LOCK, None => (s, line_of "NOT_FOUND")
  | UNLOCK, None => (s, text_response.NOT_LOCKED)
  | (REPLACE | APPEND | PREPEND), None => refused "NOT_STORED"
  | _, _ => refused "NOT_FOUND"
  end.

(** The limits that [set], [add] and [replace] check first. *)
Definition too_large : bool :=
  match m_command cmd with
  | SET | ADD | REPLACE => (blen key >? MAX_KEY_LENGTH) || (blen data >? max_data)
  | _ => false
  end.

(** The commands on one key that the specification covers. *)
Definition one_key : bool :=
  match m_command cmd with
  | SET | ADD | REPLACE | APPEND | PREPEND | CAS | INCR | DECR | TOUCH | DELETE | LOCK | UNLOCK =>
      true
  | _ => false
  end.

(** The whole service. *)
Definition text_service (m : gmap bytes aobject) : gmap bytes aobject * bytes :=
  if too_large then (m, line_of "ERROR") else
  let '(x, reply) := text_spec (m !! key) in (partial_alter (fun _ => x) key m, reply).
End command.
End spec.

(** The reply to [get] and [gets]: a block for every key that is there and alive,
    in the order of the keys. *)
Section retrieval.
Context (flush now : Z) (m : gmap bytes aobject) (gets : bool).

Definition value_block (k : bytes) (x : aobject) : bytes :=
  lit "VALUE " ++ k ++ [SP] ++ to_string (a_flags x) ++ [SP] ++ to_string (blen (a_value x)) ++
  (if gets then SP :: to_string (a_cas x) else []) ++ CRLF ++ a_value x ++ CRLF.
Definition get_block (k : bytes) : bytes :=
  match m !! k with
  | Some x => if dead flush now x then [] else value_block k x
  | None => []
  end.
Definition get_reply (ks : list bytes) : bytes := (ks ≫= get_block) ++ line_of "END".
End retrieval.

#[export] Hint Extern 3 (says _ text_response.error) => apply says_send : says.
#[export] Hint Extern 3 (says _ text_response.ok) => apply says_send : says.
#[export] Hint Extern 3 (says _ text_response.stored) => apply says_send : says.
#[export] Hint Extern 3 (says _ text_response.not_stored) => apply says_send : says.
#[export] Hint Extern 3 (says _ text_response.exists_) => apply says_send : says.
#[export] Hint Extern 3 (says _ text_response.touched) => apply says_send : says.
#[export] Hint Extern 3 (says _ text_response.deleted) => apply says_send : says.
#[export] Hint Extern 3 (says _ text_response.not_found) => apply says_send : says.
#[export] Hint Extern 3 (says _ text_response.locked) => apply says_send : says.

(** ** The handlers *)

Section service.
Context {H : Type} `{HT : Table H object} (r : request_env) (buf : bytes) (cmd : text_request).

Let ctx : Z := g_context r.
Let cfg : mem_config := config r.
Let limit : Z := c_heap_data_limit cfg.
Let key : bytes := item_bytes buf (m_key cmd).
Let data : bytes := item_bytes buf (m_data cmd).
Let spec (flush : Z) := text_spec limit flush (r_now r) ctx cmd data.
Local Notation serves := (ServiceSpec.serves r spec key).
Local Notation refines := (ServiceSpec.refines spec key).
Local Notation creates := (ServiceSpec.creates spec).
(** Exceptions are excluded by [cmd_text_ok]; here only results matter. *)
Let X : exn -> Prop := fun _ => True.

Lemma foreign_ctx o : foreign ctx (abs o) = locked_by_other (g_context r) o.
Proof. done. Qed.

(** Compare a result with the specification. *)
Ltac sdone :=
  cbv zeta; unfold quietly in *;
  repeat match goal with
  | H : client _ = _ |- _ => rewrite H; clear H
  | H : flush_time _ = flush_time _ |- _ => rewrite H; clear H
  | H : abs _ = abs _ |- _ => rewrite H; clear H
  | H : dead _ _ _ = _ |- _ => rewrite H; clear H
  | H : locked_by_other _ _ = _ |- _ => rewrite H; clear H
  end; cbn [fst snd]; rewrite <- ?app_assoc, ?app_nil_r;
  rewrite ?app_nil_l; try by destruct (m_no_reply cmd).

Definition missing (b : bytes) (found : bool) : bytes := if found then [] else quietly cmd b.

Lemma append_serves :
  m_command cmd = APPEND -> serves (missing (line_of "NOT_STORED")) (text_append_handler r buf cmd).
Proof.
  intros Hc k o e _ _ Hi. unfold text_append_handler, text_unlocked, spec, text_spec, missing. rewrite Hc, foreign_ctx.
  srun; sdone. by rewrite abs_append; destruct (m_no_reply cmd).
Qed.

Lemma prepend_serves :
  m_command cmd = PREPEND -> serves (missing (line_of "NOT_STORED")) (text_prepend_handler r buf cmd).
Proof.
  intros Hc k o e _ _ Hi. unfold text_prepend_handler, text_unlocked, spec, text_spec, missing.
  rewrite Hc, foreign_ctx. srun; sdone. by rewrite abs_prepend; destruct (m_no_reply cmd).
Qed.

Lemma set_serves :
  m_command cmd = SET \/ m_command cmd = ADD \/ m_command cmd = REPLACE ->
  serves (missing (line_of "NOT_STORED")) (text_set_handler r buf cmd).
Proof.
  intros Hc k o e _ _ Hi. unfold text_set_handler, text_unlocked, spec, text_spec, missing.
  rewrite foreign_ctx. destruct Hc as [Hc|[Hc|Hc]]; rewrite Hc; repeat case_bool_decide; try done;
    destruct (dead (flush_time (e_stats e)) (r_now r) (abs o)) eqn:Hd; srun; sdone;
    by rewrite abs_set; destruct (m_no_reply cmd).
Qed.

Lemma cas_serves :
  m_command cmd = CAS -> serves (missing (line_of "NOT_FOUND")) (text_cas_handler r buf cmd).
Proof.
  intros Hc k o e _ _ Hi. unfold text_cas_handler, text_unlocked, spec, text_spec, missing.
  rewrite Hc, foreign_ctx. cbn [a_cas abs].
  destruct (o_cas o =? m_cas_unique cmd); srun; sdone. by rewrite abs_set; destruct (m_no_reply cmd).
Qed.

(** [incr] and [decr] with the arithmetic [f]. *)
Lemma incdec_serves f res (s : option aobject * bytes) k o e :
  object_inv cfg o -> res = (v ← object_value o; Some (f v, store_number (f v) o)) ->
  s = (let '(x', d) := arith f (abs o) in (Some x', quietly cmd d)) ->
  wp X (text_incdec r cmd res k o) (fun p e' =>
    s.1 = Some (abs p.2) /\ client e' ++ missing (line_of "NOT_FOUND") p.1 = client e ++ s.2 /\
    flush_time (e_stats e') = flush_time (e_stats e)) e.
Proof.
  intros Hi -> ->. unfold text_incdec, arith, missing.
  destruct (o_file o) as [g|] eqn:Hf.
  { unfold object_value, number. cbn [a_large abs]. rewrite Hf. cbn [mbind option_bind]. srun; sdone. }
  rewrite (abs_number cfg) by done. destruct (number (abs o)) as [v|]; cbn [mbind option_bind]; srun; sdone.
  rewrite abs_store_number by done. by destruct (m_no_reply cmd).
Qed.

Lemma incr_serves :
  m_command cmd = INCR -> serves (missing (line_of "NOT_FOUND")) (text_incr_handler r cmd).
Proof.
  intros Hc k o e _ _ Hi. unfold text_incr_handler, text_unlocked, spec, text_spec. rewrite Hc, foreign_ctx.
  srun; unfold missing; sdone.
  by apply (incdec_serves (fun v => u64 (v + m_value cmd))).
Qed.

Lemma decr_serves :
  m_command cmd = DECR -> serves (missing (line_of "NOT_FOUND")) (text_decr_handler r cmd).
Proof.
  intros Hc k o e _ _ Hi. unfold text_decr_handler, text_unlocked, spec, text_spec. rewrite Hc, foreign_ctx.
  srun; unfold missing; sdone.
  by apply (incdec_serves (fun v => if v <? m_value cmd then 0 else v - m_value cmd)).
Qed.

Lemma touch_serves :
  m_command cmd = TOUCH ->
  serves (fun found : bool => quietly cmd (line_of (if found then "TOUCHED" else "NOT_FOUND")))
    (text_touch_handler r cmd).
Proof.
  intros Hc k o e _ _ Hi. unfold text_touch_handler, spec, text_spec. rewrite Hc. srun; sdone.
Qed.

Lemma lock_serves :
  m_command cmd = LOCK ->
  serves (fun found : bool => if found then [] else line_of "NOT_FOUND") (text_lock_handler r).
Proof.
  intros Hc k o e _ _ Hi. unfold text_lock_handler, spec, text_spec, object_lock. rewrite Hc.
  change (a_lock (abs o) =? -1) with (o_lock o =? -1). unfold locked.
  srun; destruct (o_lock o =? -1); cbn [negb] in *; try done; sdone.
Qed.

Lemma unlock_serves :
  m_command cmd = UNLOCK ->
  serves (fun found : bool => if found then [] else text_response.NOT_LOCKED) (text_unlock_handler r).
Proof.
  intros Hc k o e _ _ Hi. unfold text_unlock_handler, spec, text_spec, object_unlock, locked_by_self.
  rewrite Hc. change (a_lock (abs o) =? ctx) with (o_lock o =? g_context r).
  destruct (o_lock o =? g_context r); cbn [negb andb]; srun; sdone.
Qed.

Lemma creator_serves k e :
  m_command cmd = SET \/ m_command cmd = ADD ->
  wp X (text_set_creator r buf cmd k) (fun o e' =>
    let s := spec (flush_time (e_stats e)) None in
    s.1 = Some (abs o) /\ client e' = client e ++ s.2 /\
    flush_time (e_stats e') = flush_time (e_stats e)) e.
Proof.
  intros Hc. unfold text_set_creator, new_object, spec, text_spec. apply wp_bind, wp_bind, wp_modify, wp_ret. srun.
  eapply wp_mono; [apply wp_replicate; intros o1 e1 Ha He Hf; exact (conj Ha (conj He Hf))|].
  intros o1 e1 (Ha&He&Hf). rewrite Ha, He. destruct Hc as [Hc|Hc]; rewrite Hc; sdone;
    by rewrite abs_new; destruct (m_no_reply cmd).
Qed.

(** ** The operations *)

Lemma delete_refines hash e :
  m_command cmd = DELETE -> t_inv hash -> table_ok cfg (t_map hash) ->
  wp X (text_delete r buf cmd hash) (refines hash e) e.
Proof.
  intros Hc Hi Ht. unfold text_delete, refines, spec, text_spec. rewrite abs_lookup, Hc. apply wp_bind.
  change (item_bytes buf (m_key cmd)) with key.
  destruct (t_map hash !! key) as [[a o]|] eqn:Hk; cbn [fmap option_fmap option_map snd].
  - eapply wp_remove_if_hit; [done|done|]. unfold text_delete_pred. rewrite foreign_ctx.
    destruct (locked_by_other (g_context r) o) eqn:Ho; [srun; cbn [fst snd negb]; srun|].
    + rewrite (t_put_map _ _ _ _ _ Hi Hk), insert_id by done. split; [|sdone].
      apply abs_unchanged. by rewrite abs_lookup, Hk.
    + apply wp_bind. eapply wp_mono; [apply (unlisted_self r key o)|].
      intros [] e1 [H1 H2]. srun; cbn [fst snd negb]; srun.
      rewrite (t_del_map _ _ Hi), abs_delete. split; [done|sdone].
  - unfold wp at 1. rewrite (t_remove_if_miss _ _ _ _ Hi Hk). cbn [negb]. srun.
    rewrite t_skip_map. split; [|sdone]. apply abs_unchanged. by rewrite abs_lookup, Hk.
Qed.
Lemma says_quietly (b : bytes) m :
  says b m -> says (quietly cmd b) (when (negb (m_no_reply cmd)) m).
Proof. intros Hm. unfold quietly. destruct (m_no_reply cmd); [apply says_ret|done]. Qed.

(** The reply after an operation that only tells whether the key is there. *)
Lemma says_missing (b : bytes) found m :
  says b m -> says (missing b found) (when (negb found) (when (negb (m_no_reply cmd)) m)).
Proof. intros Hm. destruct found; [apply says_ret|by apply says_quietly]. Qed.

Lemma set_refines hash e :
  m_command cmd = SET \/ m_command cmd = ADD \/ m_command cmd = REPLACE ->
  too_large (c_max_data_size cfg) cmd key data = false ->
  t_inv hash -> table_ok cfg (t_map hash) -> wp X (text_set r buf cmd hash) (refines hash e) e.
Proof.
  intros Hc Hl Hi Ht. unfold text_set. fold key data cfg.
  assert ((blen key >? MAX_KEY_LENGTH) || (blen data >? c_max_data_size cfg) = false) as Hb
    by (unfold too_large in Hl; by destruct Hc as [E|[E|E]]; rewrite E in Hl).
  apply orb_false_iff in Hb as [-> ->].
  apply (apply_refines r spec key _ _ (missing (line_of "NOT_STORED"))); [done|done|by apply set_serves| |].
  - destruct Hc as [E|[E|E]]; rewrite E; cbn -[spec].
    1,2: split; [done|intros k e0; apply creator_serves; auto].
    intros fl. unfold spec, text_spec. by rewrite E.
  - intros b. apply says_missing. eauto with says.
Qed.

Lemma existing_refines h b m hash e :
  serves (missing b) h -> (forall flush, spec flush None = (None, quietly cmd b)) -> says b m ->
  t_inv hash -> table_ok cfg (t_map hash) ->
  wp X (text_apply buf cmd h None m hash) (refines hash e) e.
Proof.
  intros Hh Hn Hm Hi Ht. apply (apply_refines r spec key _ _ (missing b)); [done|done|done|exact Hn|].
  intros found. by apply says_missing.
Qed.

Lemma cas_refines hash e :
  m_command cmd = CAS -> t_inv hash -> table_ok cfg (t_map hash) ->
  wp X (text_cas r buf cmd hash) (refines hash e) e.
Proof.
  intros Hc Hi Ht.
  apply (apply_refines r spec key _ _ (missing (line_of "NOT_FOUND")) (fun found : bool => when (negb found)
    (count_cas_miss ;;! when (negb (m_no_reply cmd)) text_response.not_found)));
    [done|done|by apply cas_serves| |].
  - intros fl. unfold spec, text_spec. by rewrite Hc.
  - intros []; [apply says_ret|]. apply (says_bind []); [eauto with says|]. apply says_quietly. eauto with says.
Qed.

Lemma touch_refines hash e :
  m_command cmd = TOUCH -> t_inv hash -> table_ok cfg (t_map hash) ->
  wp X (text_touch r buf cmd hash) (refines hash e) e.
Proof.
  intros Hc Hi Ht.
  eapply (apply_refines r spec key _ _ _ (fun found : bool =>
    if found then when (negb (m_no_reply cmd)) text_response.touched
    else when (negb (m_no_reply cmd)) text_response.not_found));
    [done|done|by apply touch_serves| |].
  - intros fl. unfold spec, text_spec. by rewrite Hc.
  - intros []; apply says_quietly; eauto with says.
Qed.

Lemma lock_refines hash e :
  m_command cmd = LOCK -> t_inv hash -> table_ok cfg (t_map hash) ->
  wp X (text_lock r buf cmd hash) (refines hash e) e.
Proof.
  intros Hc Hi Ht.
  eapply (apply_refines r spec key _ _ _ (fun found : bool => when (negb found) text_response.not_found));
    [done|done|by apply lock_serves| |].
  - intros fl. unfold spec, text_spec. by rewrite Hc.
  - intros []; [apply says_ret|apply says_send].
Qed.

Lemma unlock_refines hash e :
  m_command cmd = UNLOCK -> t_inv hash -> table_ok cfg (t_map hash) ->
  wp X (text_unlock r buf cmd hash) (refines hash e) e.
Proof.
  intros Hc Hi Ht.
  eapply (apply_refines r spec key _ _ _ (fun found : bool => when (negb found) (send text_response.NOT_LOCKED true)));
    [done|done|by apply unlock_serves| |].
  - intros fl. unfold spec, text_spec. by rewrite Hc.
  - intros []; [apply says_ret|apply says_send].
Qed.

Lemma cmd_text_refines hash e :
  m_valid cmd = true -> one_key cmd = true ->
  too_large (c_max_data_size cfg) cmd key data = false ->
  t_inv hash -> table_ok cfg (t_map hash) -> wp X (cmd_text r buf cmd hash) (refines hash e) e.
Proof.
  intros Hv Hone Hl Hi Ht. unfold cmd_text. rewrite Hv. cbn [negb]. apply wp_bind.
  eapply wp_says; [eauto with says|]. intros e1 C1 F1.
  eapply wp_mono; [|intros hash' e'; exact (refines_start spec key hash e e1 hash' e' C1 F1)].
  unfold one_key in Hone. destruct (m_command cmd) eqn:Hc; try done;
    first [ apply set_refines; auto
          | by apply cas_refines | by apply touch_refines | by apply delete_refines
          | by apply lock_refines | by apply unlock_refines
          | apply (existing_refines _ (line_of "NOT_STORED"));
            [ by first [apply append_serves|apply prepend_serves]
            | intros fl; unfold spec, text_spec; by rewrite Hc | eauto with says | done | done ]
          | apply (existing_refines _ (line_of "NOT_FOUND"));
            [ by first [apply incr_serves|apply decr_serves]
            | intros fl; unfold spec, text_spec; by rewrite Hc | eauto with says | done | done ] ].
Qed.
Lemma too_large_refines hash e :
  m_valid cmd = true -> too_large (c_max_data_size cfg) cmd key data = true ->
  wp X (cmd_text r buf cmd hash) (fun hash' e' =>
    hash' = hash /\ client e' = client e ++ line_of "ERROR" /\
    flush_time (e_stats e') = flush_time (e_stats e)) e.
Proof.
  intros Hv Hl. unfold cmd_text. rewrite Hv. cbn [negb]. apply wp_bind.
  eapply wp_says; [eauto with says|]. intros e1 C1 F1. rewrite app_nil_r in C1.
  assert (wp X (text_set r buf cmd hash) (fun hash' e' =>
    hash' = hash /\ client e' = client e ++ line_of "ERROR" /\
    flush_time (e_stats e') = flush_time (e_stats e)) e1) as Hs.
  { unfold too_large in Hl. assert ((blen key >? MAX_KEY_LENGTH) ||
      (blen data >? c_max_data_size cfg) = true) as Hb by (by destruct (m_command cmd)).
    unfold text_set. fold key data cfg. rewrite <- C1, <- F1.
    destruct (blen key >? MAX_KEY_LENGTH); [|cbn [orb] in Hb; rewrite Hb]; srun; sdone. }
  unfold too_large in Hl. by destruct (m_command cmd).
Qed.

(** ** Retrieval *)

Let gets : bool := bool_decide (m_command cmd = GETS).

Lemma get_handler_says k o e :
  blen (kr_data k) <= MAX_KEY_LENGTH ->
  wp X (text_get_handler r cmd k o) (fun p e' =>
    abs p.2 = abs o /\ (object_inv cfg o -> object_inv cfg p.2) /\
    flush_time (e_stats e') = flush_time (e_stats e) /\
    client e' = client e ++
      if dead (flush_time (e_stats e)) (r_now r) (abs o) then []
      else value_block gets (kr_data k) (abs o)) e.
Proof.
  intros Hk. unfold text_get_handler. apply wp_bind, wp_expired.
  destruct (dead _ _ _); [apply wp_ret; by rewrite app_nil_r|]. cbn [object_data].
  unfold text_response.value. rewrite Z.gtb_ltb, (proj2 (Z.ltb_ge _ _) Hk).
  apply wp_bind, wp_modify, wp_ret. split; [done|]. split; [apply object_data_inv|]. split; [done|].
  rewrite client_emit. f_equal. unfold value_block, gets, text_response.VALUE.
  cbn [client_bytes mbind list_bind concat]. rewrite ?app_nil_r.
  by case_bool_decide; do 3 (cbn [app]; rewrite <- ?app_assoc).
Qed.

Lemma get_loop_says its hash e :
  t_inv hash -> table_ok cfg (t_map hash) ->
  wp X (text_get_loop r buf cmd its hash) (fun hash' e' =>
    abs_map (t_map hash') = abs_map (t_map hash) /\ flush_time (e_stats e') = flush_time (e_stats e) /\
    client e' = client e ++ ((item_bytes buf <$> its) ≫=
      get_block (flush_time (e_stats e)) (r_now r) (abs_map (t_map hash)) gets)) e.
Proof.
  revert hash e. induction its as [|it its IH]; intros hash e Hi Ht.
  { apply wp_ret. cbn. by rewrite app_nil_r. }
  cbn [text_get_loop fmap list_fmap mbind list_bind]. set (k := item_bytes buf it).
  unfold get_block at 1. rewrite abs_lookup. apply wp_bind.
  destruct (t_map hash !! k) as [[a o]|] eqn:Hk; cbn [fmap option_fmap option_map snd].
  - eapply wp_apply_hit; [done|done|]. destruct (Ht _ _ _ Hk) as [Hoi Hkl].
    eapply wp_mono; [by apply get_handler_says|]. cbn [kr_data].
    intros [b o'] e1 (Ha&Hoi'&Hf&Hc). cbn [fst snd] in *. apply wp_bind.
    assert (abs_map (t_map (t_put hash k o')) = abs_map (t_map hash)) as Hm.
    { rewrite (t_put_map _ _ _ _ _ Hi Hk), abs_insert, Ha. apply insert_id.
      by rewrite abs_lookup, Hk. }
    eapply (wp_says _ []); [destruct b; by apply says_count|]. intros e2 Hc2 Hf2.
    eapply wp_mono; [apply IH; [by apply t_put_inv|]|].
    + rewrite (t_put_map _ _ _ _ _ Hi Hk). by apply table_ok_insert; [|apply Hoi'|].
    + intros hash' e' (Hm'&Hf'&Hc'). rewrite Hm', Hc', Hf', Hm, Hf2, Hf, Hc2, Hc, app_nil_r, <- !app_assoc. done.
  - apply wp_apply_none; [done|done|]. apply wp_bind.
    eapply (wp_says _ []); [by apply says_count|]. intros e2 Hc2 Hf2.
    eapply wp_mono; [apply IH; [by apply t_skip_inv|by rewrite t_skip_map]|].
    intros hash' e' (Hm'&Hf'&Hc'). by rewrite Hm', Hc', Hf', t_skip_map, Hf2, Hc2, app_nil_r.
Qed.

Lemma get_refines its hash e :
  m_valid cmd = true -> m_command cmd = GET \/ m_command cmd = GETS ->
  key_loop buf (S (length buf)) (m_key cmd) = Some its ->
  t_inv hash -> table_ok cfg (t_map hash) ->
  wp X (cmd_text r buf cmd hash) (fun hash' e' =>
    abs_map (t_map hash') = abs_map (t_map hash) /\ flush_time (e_stats e') = flush_time (e_stats e) /\
    client e' = client e ++ get_reply (flush_time (e_stats e)) (r_now r) (abs_map (t_map hash)) gets
      (item_bytes buf <$> its)) e.
Proof.
  intros Hv Hc Hits Hi Ht. unfold cmd_text. rewrite Hv. cbn [negb]. apply wp_bind.
  eapply wp_says; [eauto with says|]. intros e1 C1 F1. rewrite app_nil_r in C1.
  assert (wp X (text_get r buf cmd hash) (fun hash' e' =>
    abs_map (t_map hash') = abs_map (t_map hash) /\
    flush_time (e_stats e') = flush_time (e_stats e1) /\
    client e' = client e1 ++ get_reply (flush_time (e_stats e1)) (r_now r) (abs_map (t_map hash)) gets
      (item_bytes buf <$> its)) e1) as Hg; [|rewrite C1, F1 in Hg; by destruct Hc as [-> | ->]].
  unfold text_get. rewrite Hits. apply wp_bind, wp_ret, wp_bind.
  eapply wp_mono; [by apply get_loop_says|]. intros hash' e2 (Hm&Hf&Hc2). apply wp_bind.
  eapply wp_says; [apply says_send|]. intros e3 Hc3 Hf3. apply wp_ret. split; [done|].
  rewrite Hf3, Hf, Hc3, Hc2. unfold get_reply. by rewrite <- app_assoc.
Qed.
End service.

(** ** Properties *)

Section properties.
Context {H : Type} `{HT : Table H object} (r : request_env).
Let service cmd buf e := text_service (c_heap_data_limit (config r)) (c_max_data_size (config r))
  (flush_time (e_stats e)) (r_now r) (g_context r) cmd (item_bytes buf (m_key cmd))
  (item_bytes buf (m_data cmd)).

Lemma text_command_result buf cmd (hash : H) e :
  g_context r <> -1 -> text_request_ok buf cmd -> m_valid cmd = true -> one_key cmd = true ->
  good r hash e ->
  exists hash' e', cmd_text r buf cmd hash e = (inr hash', e') /\ good r hash' e' /\
    abs_map (t_map hash') = (service cmd buf e (abs_map (t_map hash))).1 /\
    client e' = client e ++ (service cmd buf e (abs_map (t_map hash))).2 /\
    flush_time (e_stats e') = flush_time (e_stats e).
Proof.
  intros Hctx Hcmd Hv Hone Hg.
  pose proof (cmd_text_ok r no_exn Hctx buf cmd Hcmd hash e Hg) as Hok.
  unfold service, text_service. destruct (too_large _ _ _ _) eqn:Hl.
  - pose proof (too_large_refines r buf cmd hash e Hv Hl) as Href.
    destruct (wp_both _ _ _ _ _ Hok Href) as (hash'&e'&Hr&[Hg' _]&->&Hc). by exists hash, e'.
  - pose proof (cmd_text_refines r buf cmd hash e Hv Hone Hl (proj1 Hg) (proj2 (proj2 Hg))) as Href.
    destruct (wp_both _ _ _ _ _ Hok Href) as (hash'&e'&Hr&[Hg' _]&Hm&Hc).
    exists hash', e'. destruct (text_spec _ _ _ _ _ _ _) as [x d]. done.
Qed.

Lemma text_get_result buf cmd (hash : H) e its :
  g_context r <> -1 -> text_request_ok buf cmd -> m_valid cmd = true ->
  m_command cmd = GET \/ m_command cmd = GETS ->
  key_loop buf (S (length buf)) (m_key cmd) = Some its -> good r hash e ->
  exists hash' e', cmd_text r buf cmd hash e = (inr hash', e') /\ good r hash' e' /\
    abs_map (t_map hash') = abs_map (t_map hash) /\ flush_time (e_stats e') = flush_time (e_stats e) /\
    client e' = client e ++ get_reply (flush_time (e_stats e)) (r_now r) (abs_map (t_map hash))
      (bool_decide (m_command cmd = GETS)) (item_bytes buf <$> its).
Proof.
  intros Hctx Hcmd Hv Hc Hits Hg.
  pose proof (cmd_text_ok r no_exn Hctx buf cmd Hcmd hash e Hg) as Hok.
  pose proof (get_refines r buf cmd its hash e Hv Hc Hits (proj1 Hg) (proj2 (proj2 Hg))) as Href.
  destruct (wp_both _ _ _ _ _ Hok Href) as (hash'&e'&Hr&[Hg' _]&Hm&Hcl). by exists hash', e'.
Qed.

(** The service for the commands on keys: [get] and [gets] leave the objects as
    they are. *)
Definition text_server (buf : bytes) (cmd : text_request) (its : list MemTypes.item) (e : env)
    (m : gmap bytes aobject) : gmap bytes aobject * bytes :=
  match m_command cmd with
  | GET | GETS => (m, get_reply (flush_time (e_stats e)) (r_now r) m
                        (bool_decide (m_command cmd = GETS)) (item_bytes buf <$> its))
  | _ => service cmd buf e m
  end.
Definition on_keys (cmd : text_request) : bool :=
  one_key cmd || bool_decide (m_command cmd = GET) || bool_decide (m_command cmd = GETS).

(** C5: The text protocol refines its abstract specification.  From any state that
    satisfies the invariants, a valid command on keys returns, keeps the invariants,
    changes the stored objects exactly as the abstract service does (values, flags,
    expiration times, CAS values and locks), and the bytes sent to the client are
    exactly the reply of the abstract service. *)
Theorem text_server_refined buf cmd its (hash : H) e :
  g_context r <> -1 -> text_request_ok buf cmd -> m_valid cmd = true -> on_keys cmd = true ->
  key_loop buf (S (length buf)) (m_key cmd) = Some its -> good r hash e ->
  exists hash' e', cmd_text r buf cmd hash e = (inr hash', e') /\ good r hash' e' /\
    abs_map (t_map hash') = (text_server buf cmd its e (abs_map (t_map hash))).1 /\
    client e' = client e ++ (text_server buf cmd its e (abs_map (t_map hash))).2 /\
    flush_time (e_stats e') = flush_time (e_stats e).
Proof.
  intros Hctx Hcmd Hv Hone Hits Hg. unfold text_server.
  destruct (one_key cmd) eqn:H1.
  - pose proof (text_command_result buf cmd hash e Hctx Hcmd Hv H1 Hg) as Hr.
    unfold one_key in H1. by destruct (m_command cmd).
  - assert (m_command cmd = GET \/ m_command cmd = GETS) as Hc.
    { unfold on_keys in Hone. rewrite H1 in Hone. cbn [orb] in Hone.
      apply orb_true_iff in Hone as [E|E]; apply bool_decide_eq_true in E; auto. }
    destruct (text_get_result buf cmd hash e its Hctx Hcmd Hv Hc Hits Hg) as (hash'&e'&?&?&?&?&Hcl).
    exists hash', e'. by destruct Hc as [E|E]; rewrite E in Hcl |- *.
Qed.

(** ** A client that stores and reads back *)

Lemma process_text ck u f head (hash : H) e p b tl :
  head = b :: tl -> is_binary_request b = false -> text_parse ck head = Some p ->
  m_valid p = true ->
  process r ck u (S f) head hash e =
  bind (cmd_text r head p hash) (fun hash => process r ck u f (drop (m_request_len p) head) hash) e.
Proof.
  intros -> Hb Hp Hv.
  assert (0 < m_request_len p)%nat as Hl by (by eapply text_parse_swp in Hp; apply Hp).
  cbn [process]. rewrite Hb, Hp. unfold checked, bind at 1, ret.
  by rewrite (proj2 (Nat.eqb_neq _ 0)) by lia.
Qed.
End properties.

Section session.
Context {H : Type} `{HT : Table H object} (r : request_env) (ck : clock) (u : uninit).

(** The object that a [set] leaves. *)
Definition stored_object (s : storage) (old : option (nat * object)) : aobject :=
  {| a_value := sc_data s; a_large := blen (sc_data s) >? c_heap_data_limit (config r);
     a_flags := sc_flags s; a_exptime := 0;
     a_cas := match old with Some (_, o) => u64 (o_cas o + 1) | None => 1 end;
     a_lock := match old with Some (_, o) => o_lock o | None => -1 end |}.

(** The first byte of a command in letters does not announce a binary request. *)
Lemma storage_head s rest :
  storage_wf s -> exists b tl, print_storage s ++ rest = b :: tl /\ is_binary_request b = false.
Proof.
  intros [Hw _ _ _ _ _]. destruct s as [w c ic ? ? ? ? ? ?]; cbn in Hw.
  repeat (apply elem_of_cons in Hw as [[= -> -> ->]|Hw]; [by eexists _, _|]).
  by apply elem_of_nil in Hw.
Qed.

Lemma storage_result s rest (hash : H) e :
  g_context r <> -1 -> good r hash e -> storage_wf s -> sc_command s = SET ->
  sc_noreply s = false -> sc_exptime s = 0 ->
  blen (sc_key s) <= MAX_KEY_LENGTH -> blen (sc_data s) <= c_max_data_size (config r) ->
  (forall a o, t_map hash !! sc_key s = Some (a, o) -> locked_by_other (g_context r) o = false) ->
  exists hash' e', cmd_text r (print_storage s ++ rest) (storage_request ck s) hash e = (inr hash', e') /\
    good r hash' e' /\ client e' = client e ++ line_of "STORED" /\
    flush_time (e_stats e') = flush_time (e_stats e) /\
    abs_map (t_map hash') !! sc_key s = Some (stored_object s (t_map hash !! sc_key s)).
Proof.
  intros Hctx Hg Hwf Hset Hnr Hex Hkl Hdl Hlk.
  assert (text_request_ok (print_storage s ++ rest) (storage_request ck s)) as Hok
    by (eapply text_parse_swp, text_storage_roundtrip; done).
  destruct (text_command_result r (print_storage s ++ rest) (storage_request ck s) hash e Hctx Hok
    eq_refl) as (hash'&e'&Hr&Hg'&Hm&Hc&Hf); [by unfold one_key; cbn; rewrite Hset|done|].
  destruct (storage_items ck s rest) as [Hk Hd]. rewrite Hk, Hd in Hm, Hc.
  revert Hm Hc. unfold text_service, too_large, text_spec, quietly. cbn [storage_request m_command m_no_reply].
  rewrite Hset, Hnr, !Z.gtb_ltb, (proj2 (Z.ltb_ge _ _) Hkl), (proj2 (Z.ltb_ge _ _) Hdl), abs_lookup.
  assert (m_exptime (storage_request ck s) = 0) as -> by (cbn; by rewrite Hex).
  cbn [orb m_flags storage_request].
  intros Hm Hc. exists hash', e'. split_and!; try done.
  - revert Hc. destruct (t_map hash !! sc_key s) as [[a o]|]; [|done].
    cbn [fmap option_fmap option_map snd]. change (foreign (g_context r) (abs o)) with (locked_by_other (g_context r) o).
    by rewrite (Hlk a o eq_refl).
  - rewrite Hm. destruct (t_map hash !! sc_key s) as [[a o]|]; cbn [fmap option_fmap option_map snd].
    + change (foreign (g_context r) (abs o)) with (locked_by_other (g_context r) o).
      rewrite (Hlk a o eq_refl). cbn [fst]. by rewrite lookup_partial_alter_eq.
    + cbn [fst]. by rewrite lookup_partial_alter_eq.
Qed.

Lemma stored_alive s old now : dead 0 now (stored_object s old) = false.
Proof. unfold dead. cbn. by destruct (negb _). Qed.

(** Reading back what was stored.  A connection sends [set] and [gets] for the
    same key in one segment; unless another connection has locked the key, it receives
    [STORED] and then the value and the flags it sent with the next CAS value, in the
    format of the protocol, and nothing of the input is left. *)
Theorem set_then_gets s (hash : H) e :
  g_context r <> -1 -> good r hash e -> storage_wf s -> sc_command s = SET ->
  sc_noreply s = false -> sc_exptime s = 0 -> flush_time (e_stats e) = 0 ->
  blen (sc_key s) <= MAX_KEY_LENGTH -> blen (sc_data s) <= c_max_data_size (config r) ->
  (forall a o, t_map hash !! sc_key s = Some (a, o) -> locked_by_other (g_context r) o = false) ->
  exists hash' e',
    process_all r ck u (print_storage s ++ print_get true [sc_key s]) hash e = (inr ([], hash'), e') /\
    good r hash' e' /\
    client e' = client e ++ line_of "STORED" ++
      value_block true (sc_key s) (stored_object s (t_map hash !! sc_key s)) ++ line_of "END".
Proof.
  intros Hctx Hg Hwf Hset Hnr Hex Hft Hkl Hdl Hlk. set (k := sc_key s) in *.
  set (get := print_get true [k]). unfold process_all.
  destruct (storage_head s get Hwf) as (b&tl&Hb&Hbin).
  destruct (storage_result s get hash e Hctx Hg Hwf Hset Hnr Hex Hkl Hdl Hlk)
    as (hash1&e1&Hr1&Hg1&Hc1&Hf1&Hm1).
  rewrite (process_text r ck u _ _ hash e _ b tl Hb Hbin (text_storage_roundtrip ck s get Hwf)) by done.
  unfold bind at 1. rewrite Hr1. cbn [storage_request m_request_len]. rewrite drop_app_length.
  destruct (text_get_roundtrip ck true k [] []) as (q&its&Hp&Hv&Hcmd&Hlen&Hits&Hks);
    [by constructor; [apply Hwf|]|]. fold get in Hp, Hlen, Hits, Hks. rewrite app_nil_r in Hp, Hits, Hks.
  assert (exists f, length (print_storage s ++ get) = S (S f)) as [f ->].
  { rewrite length_app. unfold get, print_get. rewrite !length_app. cbn [length]. eexists.
    by rewrite (Nat.add_comm (length (print_storage s))). }
  rewrite (process_text r ck u (S f) get hash1 e1 q (bZ 103) (lit "ets" ++ key_words [k] ++ [CR; LF]))
    by done.
  destruct (text_get_result r get q hash1 e1 its Hctx) as (hash2&e2&Hr2&Hg2&Hm2&Hf2&Hc2); try done;
    [by eapply text_parse_swp|by right|].
  unfold bind at 1. rewrite Hr2, Hlen, drop_all. exists hash2, e2. split; [done|]. split; [done|].
  rewrite Hc2, Hc1, Hks, Hf1, Hft, Hcmd. unfold get_reply, get_block. cbn [mbind list_bind].
  fold k in Hm1. rewrite Hm1, stored_alive, app_nil_r, <- !app_assoc. done.
Qed.
End session.

(** ** Instances *)

Definition sample_set : storage :=
  {| sc_word := lit "set"; sc_command := SET; sc_is_cas := false; sc_key := lit "k"; sc_flags := 7;
     sc_exptime := 0; sc_cas := 0; sc_noreply := false; sc_data := lit "a b" |}.

Lemma sample_set_wf : storage_wf sample_set.
Proof. constructor; [|split_and!|..]; try (by apply (bool_decide_unpack _)); cbn; lia. Qed.

Lemma text_server_refined_witness :
  exists hash' e', cmd_text (sample_request 5 []) (print_storage sample_set)
      (storage_request sample_clock sample_set) sample_empty (sample_env []) = (inr hash', e') /\
    abs_map (t_map hash') !! lit "k" = Some (create 64 (lit "a b") 7 0) /\
    client e' = line_of "STORED".
Proof.
  assert (text_request_ok (print_storage sample_set) (storage_request sample_clock sample_set)) as Hok.
  { rewrite <- (app_nil_r (print_storage sample_set)). eapply text_parse_swp, text_storage_roundtrip.
    exact sample_set_wf. }
  destruct (text_server_refined (sample_request 5 []) (print_storage sample_set)
    (storage_request sample_clock sample_set) [Some (4, 1)%nat; Some (6, 1)%nat; Some (8, 1)%nat; Some (10, 1)%nat] sample_empty (sample_env []))
    as (hash'&e'&Hr&_&Hm&Hc&_); [discriminate|exact Hok|reflexivity|reflexivity| |exact sample_good|].
  - vm_compute. reflexivity.
  - exists hash', e'. split; [exact Hr|]. split.
    + rewrite Hm. vm_compute. reflexivity.
    + rewrite Hc. vm_compute. reflexivity.
Defined.

Lemma set_then_gets_witness :
  exists hash' e', process_all (sample_request 5 []) sample_clock sample_u
      (print_storage sample_set ++ print_get true [lit "k"]) sample_empty (sample_env []) =
      (inr ([], hash'), e') /\
    client e' = line_of "STORED" ++ line_of "VALUE k 7 3 1" ++ line_of "a b" ++ line_of "END".
Proof.
  destruct (set_then_gets (sample_request 5 []) sample_clock sample_u sample_set sample_empty (sample_env []))
    as (hash'&e'&Hr&_&Hc); [discriminate|exact sample_good|exact sample_set_wf|try reflexivity; try discriminate..| |].
  - intros a o Hk. vm_compute in Hk. discriminate.
  - exists hash', e'. split; [exact Hr|]. rewrite Hc. vm_compute. reflexivity.
Defined.
