(* ===== verification/BinaryService.v ===== *)
(** * The binary protocol as an abstract service

    The specification of the commands of the binary protocol on one key, as
    transitions of the abstract objects of ServiceSpec with the packets that answer them,
    and the proof that [cmd_bin] refines it except in two cases of the lock-and-get
    commands, which [deviation] states. *)

From S2P Require Import Prelude CLib MemTypes Table TextRequest BinaryRequest BinaryRequestSpec BinaryRoundtrip.
From S2P Require Import MemState MemObject MemObjectSpec Response Stats.
From S2P Require Import Replication MemSocket MemSocketSpec Siphash HashMap HashMapSpec Samples ServiceSpec.

Import replication.

(** ** Packets *)

(** A response packet: magic, opcode, key length, extras length, data type, status,
    total length, opaque, CAS, and the body. *)
Definition packet (opcode : byte) (status : binary_status) (opq : bytes) (cas : Z) (extras key value : bytes) : bytes :=
  [x81; opcode] ++ be_bytes 2 (blen key) ++ [bZ (blen extras); x00] ++ be_bytes 2 (binary_status_code status) ++
  be_bytes 4 (blen key + blen extras + blen value) ++ opq ++ be_bytes 8 cas ++ extras ++ key ++ value.

(** The texts that go with an error. *)
Definition error_text (st : binary_status) : bytes :=
  match st with
  | OK => []
  | NotFound => lit "Not found"
  | Exists => lit "Exists"
  | TooLargeValue => lit "Too large value"
  | Invalid => lit "Invalid request"
  | NotStored => lit "Not stored"
  | NonNumeric => lit "Non-numeric value"
  | Locked => lit "Locked"
  | NotLocked => lit "Not locked"
  | UnknownCommand => lit "Unknown command"
  | OutOfMemory => lit "Out of memory"
  end.

(** ** The specification *)

(** Quiet commands differ from their loud forms in the replies only. *)
Inductive operation :=
| op_get | op_lag | op_set | op_add | op_replace | op_rau | op_append | op_prepend | op_delete
| op_incr | op_decr | op_touch | op_lock | op_unlock.

Definition operation_of (c : binary_command) : option operation :=
  match c with
  | Get | GetQ | GetK | GetKQ | GaT | GaTQ | GaTK | GaTKQ => Some op_get
  | LaG | LaGQ | LaGK | LaGKQ => Some op_lag
  | Set_ | SetQ => Some op_set
  | Add | AddQ => Some op_add
  | Replace | ReplaceQ => Some op_replace
  | RaU | RaUQ => Some op_rau
  | Append | AppendQ => Some op_append
  | Prepend | PrependQ => Some op_prepend
  | Delete | DeleteQ => Some op_delete
  | Increment | IncrementQ => Some op_incr
  | Decrement | DecrementQ => Some op_decr
  | Touch => Some op_touch
  | Lock | LockQ => Some op_lock
  | Unlock | UnlockQ => Some op_unlock
  | _ => None
  end.

(** The commands whose answer repeats the key. *)
Definition with_key (c : binary_command) : bool :=
  match c with GetK | GetKQ | GaTK | GaTKQ | LaGK | LaGKQ => true | _ => false end.

Section spec.
Context (limit max_data : Z).        (** [heap_data_limit] and [max_data_size] *)
Context (flush now ctx : Z).         (** [flush_time], the clock, the connection *)
Context (cmd : binary_request) (opq key data : bytes).

Local Notation dead := (ServiceSpec.dead flush now).
Local Notation foreign := (ServiceSpec.foreign ctx).

Let opcode : byte := binary_command_byte (b_command cmd).

Definition failure (st : binary_status) : bytes := packet opcode st opq 0 [] [] (error_text st).
Definition done_with (cas : Z) : bytes := packet opcode OK opq cas [] [] [].
Definition number_reply (v cas : Z) : bytes := packet opcode OK opq cas [] [] (be_bytes 8 v).
Definition value_reply (x : aobject) : bytes :=
  packet opcode OK opq (a_cas x) (be_bytes 4 (a_flags x)) (if with_key (b_command cmd) then key else []) (a_value x).

(** Replies that quiet commands do not send. *)
Definition loudly (b : bytes) : bytes := if b_quiet cmd then [] else b.

(** The command asks for another version of the object. *)
Definition wrong_version (x : aobject) : bool :=
  negb (b_cas_unique cmd =? 0) && negb (b_cas_unique cmd =? a_cas x).

Definition retimed (x : aobject) : aobject :=
  if b_exptime cmd =? EXPTIME_NONE then x else retime (b_exptime cmd) x.

(** What a storage command leaves, and its reply. *)
Definition replaced : aobject -> aobject := store limit data (b_flags cmd) (b_exptime cmd).
Definition changed (x : aobject) : option aobject * bytes := (Some x, loudly (done_with (a_cas x))).

(** What a retrieval leaves, and its reply. *)
Definition given (x : aobject) : option aobject * bytes := (Some x, value_reply x).

(** [incr] and [decr] with the arithmetic [f]. *)
Definition counted (f : Z -> Z) (x : aobject) : option aobject * bytes :=
  match number x with
  | Some v =>
      let x' := with_value (to_string (f v)) false (a_flags x) (a_exptime x) x in
      (Some x', loudly (number_reply (f v) (a_cas x')))
  | None => (Some x, failure NonNumeric)
  end.

(** An object is there. *)
Definition on_object (op : operation) (x : aobject) : option aobject * bytes :=
  let refused st := (Some x, failure st) in
  let guarded k :=
    if foreign x then refused Locked else
    if dead x then refused NotFound else
    if wrong_version x then refused Exists else k in
  match op with
  | op_get => if dead x then (Some x, loudly (failure NotFound)) else given (retimed x)
  | op_lag =>
      if dead x then refused NotFound else
      if negb (a_lock x =? -1) then refused Locked else given (retimed (relock ctx x))
  | op_set =>
      if foreign x then refused Locked else
      if dead x && negb (b_cas_unique cmd =? 0) then refused NotFound else
      if wrong_version x then refused Exists else changed (replaced x)
  | op_add =>
      if foreign x then refused Locked else
      if dead x && negb (b_cas_unique cmd =? 0) then refused NotFound else
      if negb (dead x) then refused Exists else
      if wrong_version x then refused Exists else changed (replaced x)
  | op_replace =>
      if foreign x then refused Locked else
      if dead x then refused NotFound else
      if wrong_version x then refused Exists else changed (replaced x)
  | op_rau =>
      if negb (a_lock x =? ctx) then refused NotLocked else
      if wrong_version x then refused Exists else changed (relock (-1) (replaced x))
  | op_append => guarded (changed (grow limit data (a_value x ++ data) x))
  | op_prepend => guarded (changed (grow limit data (data ++ a_value x) x))
  | op_incr => guarded (counted (fun v => u64 (v + b_value cmd)) x)
  | op_decr => guarded (counted (fun v => if v <? b_value cmd then 0 else v - b_value cmd) x)
  | op_delete =>
      if foreign x then refused Locked else
      if wrong_version x then refused Exists else (None, loudly (done_with 0))
  | op_touch => if dead x then refused NotFound
                else let x := retime (b_exptime cmd) x in (Some x, done_with (a_cas x))
  | op_lock =>
      if dead x then refused NotFound else
      if negb (a_lock x =? -1) then refused Locked else (Some (relock ctx x), loudly (done_with 0))
  | op_unlock =>
      if negb (a_lock x =? ctx) then refused NotLocked else (Some (relock (-1) x), loudly (done_with 0))
  end.

(** No object is there. *)
Definition on_nothing (op : operation) : option aobject * bytes :=
  match op with
  | op_get => (None, loudly (failure NotFound))
  | op_set | op_add =>
      if b_cas_unique cmd =? 0 then changed (create limit data (b_flags cmd) (b_exptime cmd))
      else (None, failure NotFound)
  | op_incr | op_decr =>
      if b_exptime cmd =? EXPTIME_NONE then (None, failure NotFound)
      else
        let x := {| a_value := to_string (b_initial cmd); a_large := false; a_flags := 0;
                    a_exptime := b_exptime cmd; a_cas := 1; a_lock := -1 |} in
        (Some x, loudly (number_reply (b_initial cmd) 1))
  | op_delete => (None, loudly (failure NotFound))
  | _ => (None, failure NotFound)
  end.

(** What docs/locking.md and the memcached protocol say. *)
Definition bin_spec (op : operation) (s : option aobject) : option aobject * bytes :=
  match s with Some x => on_object op x | None => on_nothing op end.

(** Where the code does otherwise: lock-and-get on an expired or flushed object locks it and
    returns it as a hit (sockets.cpp:193), and of the quiet lock-and-get commands only
    [LaGQ], not [LaGKQ], tells that nothing is there (sockets.cpp:220). *)
Definition deviation (op : operation) (s : option aobject) : option (option aobject * bytes) :=
  match op, s with
  | op_lag, Some x => if dead x then Some (given (retimed (relock ctx x))) else None
  | op_lag, None =>
      if b_quiet cmd && negb (bool_decide (b_command cmd = LaGQ)) then Some (None, []) else None
  | _, _ => None
  end.

(** What the code does. *)
Definition bin_code (op : operation) (s : option aobject) : option aobject * bytes :=
  default (bin_spec op s) (deviation op s).

(** The limits that the storage commands check first. *)
Definition limits (op : operation) : option binary_status :=
  match op with
  | op_set | op_add | op_replace | op_rau =>
      if blen key >? MAX_KEY_LENGTH then Some Invalid else
      if blen data >? max_data then Some TooLargeValue else None
  | _ => None
  end.

(** The whole service. *)
Definition bin_service (op : operation) (m : gmap bytes aobject) : gmap bytes aobject * bytes :=
  if negb (bool_decide (b_status cmd = OK)) then (m, failure (b_status cmd)) else
  match limits op with
  | Some st => (m, failure st)
  | None => let '(x, reply) := bin_spec op (m !! key) in (partial_alter (fun _ => x) key m, reply)
  end.
End spec.

(** ** The packets that are sent *)

Lemma be_bytes_low n z w : z `mod` 2 ^ (8 * Z.of_nat n) = w `mod` 2 ^ (8 * Z.of_nat n) -> be_bytes n z = be_bytes n w.
Proof.
  intros Hm. apply be_Z_inj; [by rewrite !length_be_bytes|]. by rewrite !be_Z_be_bytes.
Qed.

Lemma fill_header_packet cmd opq st cas extras key value :
  blen key < 2 ^ 16 -> blen extras < 2 ^ 8 ->
  binary_response.fill_header cmd opq (blen key) (blen extras) (blen value) cas st ++ extras ++ key ++ value =
  packet (binary_command_byte (b_command cmd)) st opq cas extras key value.
Proof.
  intros Hk He. pose proof (blen_nonneg key). pose proof (blen_nonneg extras).
  unfold binary_response.fill_header, packet, hton, u16, u8. rewrite !Z.mod_small by lia.
  rewrite (be_bytes_low 4 (u32 (blen key + blen extras + u32 (blen value))) (blen key + blen extras + blen value)).
  2:{ change (8 * Z.of_nat 4) with 32. unfold u32. rewrite Z.mod_mod, Zplus_mod_idemp_r by lia. done. }
  by rewrite <- !app_assoc.
Qed.

Section packets.
Context (cmd : binary_request) (opq : bytes).
Let opcode : byte := binary_command_byte (b_command cmd).

Lemma says_packet st cas extras key value fl d :
  blen key < 2 ^ 16 -> blen extras < 2 ^ 8 ->
  d = binary_response.fill_header cmd opq (blen key) (blen extras) (blen value) cas st ++ extras ++ key ++ value ->
  says (packet opcode st opq cas extras key value) (send d fl).
Proof. intros Hk He ->. rewrite fill_header_packet by done. apply says_send. Qed.

Lemma says_error st : st <> OK -> says (failure cmd opq st) (binary_response.error cmd opq st).
Proof.
  intros Hst. unfold failure, binary_response.error, binary_response.send_error.
  destruct st; try done; by apply (says_packet _ 0 [] []).
Qed.

Lemma says_success : says (done_with cmd opq 0) (binary_response.success cmd opq).
Proof. apply (says_packet OK 0 [] [] []); [done|done|]. by rewrite app_nil_r. Qed.

Lemma says_set cas : says (done_with cmd opq cas) (binary_response.set cmd opq cas).
Proof. apply (says_packet OK cas [] [] []); [done|done|]. by rewrite app_nil_r. Qed.

Lemma says_incdec v cas : says (number_reply cmd opq v cas) (binary_response.incdec cmd opq v cas).
Proof.
  apply (says_packet OK cas [] [] (be_bytes 8 v)); [done|done|].
  unfold blen. by rewrite length_be_bytes.
Qed.

Lemma says_value key x fl :
  blen key <= MAX_KEY_LENGTH ->
  says (value_reply cmd opq key x)
    (binary_response.get cmd opq (a_flags x) (a_value x) (a_cas x) fl (if with_key (b_command cmd) then Some key else None)).
Proof.
  intros Hk. unfold MAX_KEY_LENGTH in Hk. unfold value_reply, binary_response.get.
  assert (blen (be_bytes 4 (a_flags x)) = 4) as H4 by (unfold blen; by rewrite length_be_bytes).
  destruct (with_key _).
  - change (sendv ?l ?f) with (send (concat l) f). apply says_packet; [lia|by rewrite H4|].
    rewrite H4. cbn [concat]. by rewrite app_nil_r.
  - change (sendv ?l ?f) with (send (concat l) f). apply (says_packet OK (a_cas x) (be_bytes 4 (a_flags x)) [] (a_value x)); [done|by rewrite H4|].
    rewrite H4. cbn [concat]. by rewrite app_nil_r.
Qed.
End packets.

#[export] Hint Extern 3 (says _ (binary_response.error _ _ _)) => apply says_error; discriminate : says.
#[export] Hint Extern 3 (says _ (binary_response.success _ _)) => apply says_success : says.
#[export] Hint Extern 3 (says _ (binary_response.set _ _ _)) => apply says_set : says.
#[export] Hint Extern 3 (says _ (binary_response.incdec _ _ _ _)) => apply says_incdec : says.

(** ** The handlers *)

Section service.
Context {H : Type} `{HT : Table H object} (r : request_env) (buf : bytes) (cmd : binary_request).
Hypothesis Hctx : g_context r <> -1.

Let ctx : Z := g_context r.
Let cfg : mem_config := config r.
Let limit : Z := c_heap_data_limit cfg.
Let opq : bytes := opaque buf.
Let key : bytes := item_bytes buf (b_key cmd).
Let data : bytes := item_bytes buf (b_data cmd).
Let spec (op : operation) (flush : Z) := bin_code limit flush (r_now r) ctx cmd opq key data op.
Local Notation serves op := (ServiceSpec.serves r (spec op) key).
Local Notation refines op := (ServiceSpec.refines (spec op) key).
Local Notation creates op := (ServiceSpec.creates (spec op)).
Let X : exn -> Prop := fun _ => True.

Lemma foreign_ctx_bin o : foreign ctx (abs o) = locked_by_other (g_context r) o.
Proof. done. Qed.

Lemma version_abs o :
  wrong_version cmd (abs o) = negb (b_cas_unique cmd =? 0) && negb (b_cas_unique cmd =? o_cas o).
Proof. done. Qed.

Lemma replaced_abs o : replaced limit cmd data (abs o) = abs (object_set cfg data (b_flags cmd) (b_exptime cmd) o).
Proof. by rewrite abs_set. Qed.

(** The reply after an operation that only tells whether the key is there. *)
Definition absent (found : bool) : bytes := if found then [] else failure cmd opq NotFound.

(** Compare a result with the specification. *)
Ltac bdone :=
  cbv zeta; unfold changed, loudly in *;
  repeat match goal with
  | H : client _ = _ |- _ => rewrite H; clear H
  | H : flush_time _ = flush_time _ |- _ => rewrite H; clear H
  | H : abs _ = abs _ |- _ => rewrite H; clear H
  | H : ServiceSpec.dead _ _ _ = _ |- _ => rewrite H; clear H
  | H : locked_by_other _ _ = _ |- _ => rewrite H; clear H
  | H : negb (b_cas_unique cmd =? 0) && _ = _ |- _ => rewrite H; clear H
  end; cbn [fst snd negb andb orb absent]; rewrite <- ?app_assoc, ?app_nil_r;
  rewrite ?app_nil_l; try by destruct (b_quiet cmd).

Lemma appended_abs o :
  object_inv cfg o -> grow limit data (a_value (abs o) ++ data) (abs o) = abs (object_append cfg data o).
Proof. intros Hi. by rewrite abs_append. Qed.

Lemma prepended_abs o :
  object_inv cfg o -> grow limit data (data ++ a_value (abs o)) (abs o) = abs (object_prepend cfg data o).
Proof. intros Hi. by rewrite abs_prepend. Qed.

Ltac bstart := intros k o e Hk Hl Hi; unfold spec, bin_code, deviation, from_option, bin_spec, on_object; rewrite ?foreign_ctx_bin, ?version_abs.

Lemma append_serves_bin : serves op_append absent (bin_append_handler r buf cmd).
Proof. bstart. rewrite appended_abs by done. unfold bin_append_handler, bin_modify. srun; bdone. Qed.

Lemma prepend_serves_bin : serves op_prepend absent (bin_prepend_handler r buf cmd).
Proof. bstart. rewrite prepended_abs by done. unfold bin_prepend_handler, bin_modify. srun; bdone. Qed.

Lemma rau_serves_bin : serves op_rau absent (bin_rau_handler r buf cmd).
Proof.
  bstart. rewrite replaced_abs. unfold bin_rau_handler, locked_by_self, object_unlock.
  change (a_lock (abs o)) with (o_lock o).
  replace (locked_by_self (g_context r) (object_set (config r) (item_bytes buf (b_data cmd)) (b_flags cmd) (b_exptime cmd) o))
    with (o_lock o =? g_context r) by (unfold locked_by_self; by rewrite object_set_lock).
  change (o_lock o =? ctx) with (o_lock o =? g_context r).
  destruct (o_lock o =? g_context r); cbn [negb andb]; srun; bdone.
Qed.

Lemma touch_serves_bin : serves op_touch absent (bin_touch_handler r buf cmd).
Proof. bstart. unfold bin_touch_handler. srun; bdone. Qed.

Lemma lock_serves_bin : serves op_lock absent (bin_lock_handler r buf cmd).
Proof.
  bstart. unfold bin_lock_handler, object_lock, locked. change (a_lock (abs o)) with (o_lock o).
  destruct (o_lock o =? -1); cbn [negb]; srun; bdone.
Qed.

Lemma unlock_serves_bin : serves op_unlock absent (bin_unlock_handler r buf cmd).
Proof.
  bstart. unfold bin_unlock_handler, object_unlock, locked_by_self. change (a_lock (abs o)) with (o_lock o).
  change (o_lock o =? ctx) with (o_lock o =? g_context r).
  destruct (o_lock o =? g_context r); cbn [negb andb]; srun; bdone.
Qed.

Lemma set_serves_bin op :
  operation_of (b_command cmd) = Some op -> op = op_set \/ op = op_add \/ op = op_replace ->
  serves op absent (bin_set_handler r buf cmd).
Proof.
  intros Hop Hs. bstart. rewrite replaced_abs. unfold bin_set_handler. fold cfg data.
  destruct Hs as [-> |[-> | ->]];
    destruct (b_command cmd); try discriminate Hop; repeat case_bool_decide; try done;
    destruct (b_cas_unique cmd =? 0) eqn:Hcas; cbn [negb andb orb];
    destruct (ServiceSpec.dead (flush_time (e_stats e)) (r_now r) (abs o)) eqn:Hd; cbn [negb andb orb];
    srun; bdone.
Qed.

(** [Increment] and [Decrement] with the arithmetic [f]. *)
Lemma counted_serves f res k o e :
  object_inv cfg o -> res = (v ← object_value o; Some (f v, store_number (f v) o)) ->
  wp X (bin_incdec r buf cmd res k o) (fun p e' =>
    let s := counted cmd opq f (abs o) in
    s.1 = Some (abs p.2) /\ client e' ++ absent p.1 = client e ++ s.2 /\
    flush_time (e_stats e') = flush_time (e_stats e)) e.
Proof.
  intros Hi ->. unfold bin_incdec, counted. destruct (o_file o) as [g|] eqn:Hf.
  { unfold object_value, number. cbn [a_large abs]. rewrite Hf. cbn [mbind option_bind]. srun; bdone. }
  rewrite (abs_number cfg) by done. destruct (number (abs o)) as [v|]; cbn [mbind option_bind].
  - change (with_value (to_string (f v)) false (a_flags (abs o)) (a_exptime (abs o)) (abs o))
      with (with_value (to_string (f v)) false (o_flags o) (o_exptime o) (abs o)).
    rewrite <- abs_store_number by done. srun; bdone.
  - srun; bdone.
Qed.

Lemma incr_serves_bin : serves op_incr absent (bin_incr_handler r buf cmd).
Proof. bstart. unfold bin_incr_handler, bin_modify. srun; bdone. by apply counted_serves. Qed.

Lemma decr_serves_bin : serves op_decr absent (bin_decr_handler r buf cmd).
Proof. bstart. unfold bin_decr_handler, bin_modify. srun; bdone. by apply counted_serves. Qed.

(** ** Retrieval *)

(** The reply to a command that found nothing. *)
Definition missed (found : bool) : bytes :=
  if found then [] else
  if negb (b_quiet cmd) || bool_decide (b_command cmd = LaGQ) then failure cmd opq NotFound else [].

Lemma key_choice op (k : bytes) :
  operation_of (b_command cmd) = Some op -> op = op_get \/ op = op_lag ->
  (if bool_decide (b_command cmd = Get) || bool_decide (b_command cmd = GetQ) || bool_decide (b_command cmd = GaT) ||
      bool_decide (b_command cmd = GaTQ) || bool_decide (b_command cmd = LaG) || bool_decide (b_command cmd = LaGQ)
   then None else Some k) = if with_key (b_command cmd) then Some k else None.
Proof. intros Hop Hg. destruct (b_command cmd); try done; destruct Hg; by subst op. Qed.

(** The part after the lock. *)
Lemma get_body_says op k o e :
  operation_of (b_command cmd) = Some op -> op = op_get \/ op = op_lag ->
  kr_data k = key -> blen key <= MAX_KEY_LENGTH ->
  wp X (bin_get_body r buf cmd k o) (fun p e' =>
    let x := retimed cmd (abs o) in
    p.1 = negb (ServiceSpec.dead (flush_time (e_stats e)) (r_now r) (abs o)) /\
    abs p.2 = (if p.1 then x else abs o) /\
    client e' = client e ++ (if p.1 then value_reply cmd opq key x else []) /\
    flush_time (e_stats e') = flush_time (e_stats e)) e.
Proof.
  intros Hop Hg Hk Hl. unfold bin_get_body, retimed. rewrite (key_choice op) by done. rewrite Hk.
  apply wp_bind, wp_expired. destruct (ServiceSpec.dead _ _ _); [apply wp_ret; by rewrite app_nil_r|].
  apply wp_bind.
  assert (forall o1 e1, client e1 = client e -> flush_time (e_stats e1) = flush_time (e_stats e) ->
    wp X (let '(d, obj) := object_data o1 in
          binary_response.get cmd (opaque buf) (o_flags obj) d (o_cas obj) (negb (b_quiet cmd))
            (if with_key (b_command cmd) then Some key else None) ;;! ret (true, obj))
      (fun p e' => p.1 = true /\ abs p.2 = (if p.1 then abs o1 else abs o) /\
         client e' = client e ++ (if p.1 then value_reply cmd opq key (abs o1) else []) /\
         flush_time (e_stats e') = flush_time (e_stats e)) e1) as Hsend.
  { intros o1 e1 Hc1 Hf1. cbn [object_data]. apply wp_bind.
    eapply wp_says; [apply (says_value cmd (opaque buf) key (abs o1)); done|]. intros e2 Hc2 Hf2. apply wp_ret.
    cbn [fst snd]. rewrite Hc2, Hf2, Hc1, Hf1. done. }
  destruct (b_exptime cmd =? EXPTIME_NONE); cbn [negb].
  - apply wp_ret. by apply Hsend.
  - apply wp_bind. eapply wp_says; [apply says_replicate_touch|]. intros e1 Hc1 Hf1. apply wp_ret.
    rewrite app_nil_r in Hc1. by apply (Hsend (object_touch (b_exptime cmd) o)).
Qed.

Lemma code_lag op :
  operation_of (b_command cmd) = Some op -> op = op_get \/ op = op_lag ->
  (binary_command_code LaG <=? binary_command_code (b_command cmd)) &&
  (binary_command_code (b_command cmd) <=? binary_command_code LaGKQ) = match op with op_lag => true | _ => false end.
Proof. intros Hop Hg. destruct (b_command cmd); try discriminate Hop; injection Hop as <-; by destruct Hg. Qed.

(** Lock-and-get on an object, dead or not. *)
Lemma lag_spec flush x :
  bin_code limit flush (r_now r) ctx cmd opq key data op_lag (Some x) =
  if negb (a_lock x =? -1) then (Some x, failure cmd opq Locked)
  else given cmd opq key (retimed cmd (relock ctx x)).
Proof.
  unfold bin_code, deviation, bin_spec, on_object. destruct (ServiceSpec.dead flush (r_now r) x) eqn:Hd; [|done].
  unfold ServiceSpec.dead in Hd. by destruct (negb (a_lock x =? -1)).
Qed.

Lemma get_serves_bin op :
  operation_of (b_command cmd) = Some op -> op = op_get \/ op = op_lag ->
  serves op missed (bin_get_handler r buf cmd).
Proof.
  intros Hop Hg. pose proof (code_lag op Hop Hg) as Hcode. destruct Hg as [-> | ->].
  - bstart. unfold bin_get_handler. cbv zeta. rewrite Hcode.
    eapply wp_mono; [apply (get_body_says op_get); auto|]. cbv zeta. intros [b o'] e' (Hb&Ha&Hc&Hf). cbn [fst snd] in *.
    subst b. destruct (ServiceSpec.dead _ _ _); cbn [negb] in *; rewrite Ha, Hc, Hf; cbn [fst snd missed].
    + rewrite app_nil_r. split; [done|]. split; [|done]. f_equal. unfold loudly.
      assert (bool_decide (b_command cmd = LaGQ) = false) as ->
        by (apply bool_decide_eq_false_2; intros E; by rewrite E in Hop).
      by destruct (b_quiet cmd).
    + by rewrite app_nil_r.
  - intros k o e Hk Hl Hi. unfold spec. rewrite lag_spec. unfold bin_get_handler. cbv zeta. rewrite Hcode.
    unfold locked, object_lock. change (a_lock (abs o)) with (o_lock o). unfold locked.
    destruct (o_lock o =? -1) eqn:Hlk; cbn [negb]; [|srun; bdone].
    apply wp_bind, wp_ret, wp_bind. eapply wp_says; [apply says_add_lock|]. intros e1 Hc1 Hf1. rewrite app_nil_r in Hc1.
    eapply wp_mono; [apply (get_body_says op_lag); auto|]. cbv zeta. intros [b o'] e' (Hb&Ha&Hc&Hf). cbn [fst snd] in *.
    assert (ServiceSpec.dead (flush_time (e_stats e1)) (r_now r) (abs (with_lock (g_context r) o)) = false) as Hd.
    { unfold ServiceSpec.dead. cbn [a_lock abs with_lock o_lock]. apply Z.eqb_neq in Hctx. by rewrite Hctx. }
    rewrite Hd in Hb. subst b. cbn [negb missed] in *. rewrite Ha, Hc, Hf, Hc1, Hf1, app_nil_r. done.
Qed.

(** ** Creation *)

Lemma set_creator_says op k e :
  op = op_set \/ op = op_add -> b_cas_unique cmd = 0 ->
  wp X (bin_set_creator r buf cmd k) (fun o e' =>
    let s := spec op (flush_time (e_stats e)) None in
    s.1 = Some (abs o) /\ client e' = client e ++ s.2 /\
    flush_time (e_stats e') = flush_time (e_stats e)) e.
Proof.
  intros Hop Hcas. unfold bin_set_creator, new_object.
  assert (spec op (flush_time (e_stats e)) None = changed cmd opq (abs (object_new cfg data (b_flags cmd) (b_exptime cmd)))) as ->.
  { unfold spec, bin_code, deviation, from_option, bin_spec, on_nothing. rewrite abs_new, Hcas. by destruct Hop as [-> | ->]. }
  apply wp_bind, wp_bind, wp_modify, wp_ret. srun.
  eapply wp_mono; [apply wp_replicate; intros o1 e1 Ha He Hf; exact (conj Ha (conj He Hf))|].
  intros o1 e1 (Ha&He&Hf). rewrite Ha, He. bdone.
Qed.

Lemma number_creator_says op k e :
  op = op_incr \/ op = op_decr -> b_exptime cmd <> EXPTIME_NONE ->
  wp X (bin_incdec_creator r buf cmd k) (fun o e' =>
    let s := spec op (flush_time (e_stats e)) None in
    s.1 = Some (abs o) /\ client e' = client e ++ s.2 /\
    flush_time (e_stats e') = flush_time (e_stats e)) e.
Proof.
  intros Hop Hex. apply Z.eqb_neq in Hex. unfold bin_incdec_creator, new_object.
  assert (spec op (flush_time (e_stats e)) None =
    (Some (abs (object_number (b_initial cmd) (b_exptime cmd))), loudly cmd (number_reply cmd opq (b_initial cmd) 1))) as ->.
  { unfold spec, bin_code, deviation, from_option, bin_spec, on_nothing. rewrite Hex. by destruct Hop as [-> | ->]. }
  apply wp_bind, wp_bind, wp_modify, wp_ret. srun.
  eapply wp_mono; [apply wp_replicate; intros o1 e1 Ha He Hf; exact (conj Ha (conj He Hf))|].
  intros o1 e1 (Ha&He&Hf). rewrite Ha, He. bdone.
Qed.

(** ** The operations *)

Lemma says_absent b : says (absent b) (when (negb b) (binary_response.error cmd (opaque buf) NotFound)).
Proof. destruct b; [apply says_ret|]. by apply says_error. Qed.

Lemma existing_refines_bin op h hash e :
  serves op absent h -> (forall flush, spec op flush None = (None, failure cmd opq NotFound)) ->
  t_inv hash -> table_ok cfg (t_map hash) -> wp X (bin_apply buf cmd h None hash) (refines op hash e) e.
Proof.
  intros Hh Hn Hi Ht. apply (apply_refines r (spec op) key _ _ absent); [done|done|done|exact Hn|apply says_absent].
Qed.

Lemma incdec_refines_bin op h hash e :
  op = op_incr \/ op = op_decr -> serves op absent h ->
  t_inv hash -> table_ok cfg (t_map hash) -> wp X (bin_apply buf cmd h (bin_incdec_c r buf cmd) hash) (refines op hash e) e.
Proof.
  intros Hop Hh Hi Ht. apply (apply_refines r (spec op) key _ _ absent); [done|done|done| |apply says_absent].
  unfold bin_incdec_c. destruct (Z.eqb_spec (b_exptime cmd) EXPTIME_NONE) as [Hex|Hex]; cbn [negb].
  - intros flush. unfold spec, bin_code, deviation, from_option, bin_spec, on_nothing. rewrite Hex, Z.eqb_refl. by destruct Hop as [-> | ->].
  - split; [done|]. intros k e0. by apply number_creator_says.
Qed.

Lemma get_refines_bin op hash e :
  operation_of (b_command cmd) = Some op -> op = op_get \/ op = op_lag ->
  t_inv hash -> table_ok cfg (t_map hash) -> wp X (bin_get r buf cmd hash) (refines op hash e) e.
Proof.
  intros Hop Hg Hi Ht. eapply (apply_refines r (spec op) key _ _ missed (fun found : bool =>
    if negb found then count_get_miss ;;! when (negb (b_quiet cmd) || bool_decide (b_command cmd = LaGQ))
      (binary_response.error cmd (opaque buf) NotFound) else count_get_hit)); [done|done|by apply get_serves_bin| |].
  - intros flush. unfold spec, bin_code, deviation, from_option, bin_spec, on_nothing, missed, loudly. destruct Hg as [-> | ->].
    + assert (bool_decide (b_command cmd = LaGQ) = false) as ->
        by (apply bool_decide_eq_false_2; intros E; by rewrite E in Hop).
      by destruct (b_quiet cmd).
    + by destruct (bool_decide _), (b_quiet cmd).
  - intros []; cbn [negb missed]; [eauto with says|]. apply (says_bind []); [eauto with says|].
    apply says_when. by apply says_error.
Qed.

Lemma set_refines_bin op hash e :
  operation_of (b_command cmd) = Some op -> op = op_set \/ op = op_add \/ op = op_replace ->
  limits (c_max_data_size cfg) key data op = None ->
  t_inv hash -> table_ok cfg (t_map hash) -> wp X (bin_set r buf cmd hash) (refines op hash e) e.
Proof.
  intros Hop Hs Hl Hi Ht. unfold bin_set, bin_checked. fold key data cfg.
  assert ((blen key >? MAX_KEY_LENGTH) = false /\ (blen data >? c_max_data_size cfg) = false) as [-> ->].
  { destruct Hs as [-> |[-> | ->]]; cbn in Hl; by destruct (blen key >? MAX_KEY_LENGTH), (blen data >? _). }
  eapply (apply_refines r (spec op) key _ _ absent (fun found : bool => when (negb found)
    (when (negb (b_cas_unique cmd =? 0)) count_cas_miss ;;! binary_response.error cmd (opaque buf) NotFound)));
    [done|done|by apply set_serves_bin| |].
  - assert (forall flush, op = op_replace \/ b_cas_unique cmd <> 0 -> spec op flush None = (None, failure cmd opq NotFound)) as Hnone.
    { intros flush Hc. unfold spec, bin_code, deviation, from_option, bin_spec, on_nothing. destruct (Z.eqb_spec (b_cas_unique cmd) 0);
        destruct Hs as [-> |[-> | ->]]; naive_solver. }
    destruct Hs as [-> |[-> | ->]]; destruct (b_command cmd); try discriminate Hop; repeat case_bool_decide; try done;
      cbn [negb andb]; destruct (Z.eqb_spec (b_cas_unique cmd) 0); cbn [negb andb];
      first [intros flush; apply Hnone; auto; fail | split; [done|intros k e1; apply set_creator_says; auto]].
  - intros []; [apply says_ret|]. cbn [negb when].
    destruct (negb (b_cas_unique cmd =? 0)); cbn [when];
      (apply (says_bind []); [eauto with says|by apply says_error]).
Qed.

Lemma rau_refines_bin hash e :
  limits (c_max_data_size cfg) key data op_rau = None ->
  t_inv hash -> table_ok cfg (t_map hash) ->
  wp X (bin_checked r buf cmd hash (bin_apply buf cmd (bin_rau_handler r buf cmd) None hash)) (refines op_rau hash e) e.
Proof.
  intros Hl Hi Ht. unfold bin_checked. fold key data cfg. cbn in Hl.
  destruct (blen key >? MAX_KEY_LENGTH); [done|]. destruct (blen data >? c_max_data_size cfg); [done|].
  by apply existing_refines_bin; [apply rau_serves_bin| | |].
Qed.

Lemma delete_refines_bin hash e :
  t_inv hash -> table_ok cfg (t_map hash) -> wp X (bin_delete r buf cmd hash) (refines op_delete hash e) e.
Proof.
  intros Hi Ht. unfold bin_delete, ServiceSpec.refines, spec, bin_code, deviation, from_option, bin_spec. rewrite abs_lookup. apply wp_bind.
  change (item_bytes buf (b_key cmd)) with key.
  destruct (t_map hash !! key) as [[a o]|] eqn:Hk; cbn [fmap option_fmap option_map snd].
  - eapply wp_remove_if_hit; [done|done|]. unfold bin_delete_pred, on_object. rewrite foreign_ctx_bin, version_abs.
    assert (abs_map (t_map (t_put hash key o)) = partial_alter (fun _ => Some (abs o)) key (abs_map (t_map hash))) as Hsame.
    { rewrite (t_put_map _ _ _ _ _ Hi Hk), insert_id by done. apply abs_unchanged. by rewrite abs_lookup, Hk. }
    destruct (locked_by_other (g_context r) o) eqn:Ho; [srun; cbn [fst snd negb andb]; srun; split; [done|bdone]|].
    destruct (negb (b_cas_unique cmd =? 0) && negb (b_cas_unique cmd =? o_cas o)) eqn:Hv;
      [srun; cbn [fst snd negb andb]; srun; split; [done|bdone]|].
    apply wp_bind. eapply wp_mono; [apply (unlisted_self r key o)|].
    intros [] e1 [H1 H2]. srun; cbn [fst snd negb andb]; srun.
    all: rewrite (t_del_map _ _ Hi), abs_delete; split; [done|bdone].
  - unfold wp at 1. rewrite (t_remove_if_miss _ _ _ _ Hi Hk). cbn [negb andb]. srun.
    rewrite t_skip_map. split; [|unfold on_nothing; bdone]. apply abs_unchanged. by rewrite abs_lookup, Hk.
Qed.

Lemma cmd_bin_refines op hash e :
  b_status cmd = OK -> operation_of (b_command cmd) = Some op -> limits (c_max_data_size cfg) key data op = None ->
  t_inv hash -> table_ok cfg (t_map hash) -> wp X (cmd_bin r buf cmd hash) (refines op hash e) e.
Proof.
  intros Hst Hop Hl Hi Ht. unfold cmd_bin. rewrite (bool_decide_eq_true_2 _ Hst). cbn [negb]. apply wp_bind.
  eapply wp_says; [eauto with says|]. intros e1 C1 F1.
  eapply wp_mono; [|intros hash' e'; exact (refines_start (spec op) key hash e e1 hash' e' C1 F1)].
  destruct (b_command cmd) eqn:Hc; try discriminate Hop; rewrite <- Hc in Hop;
    assert (Hop' := Hop); rewrite Hc in Hop'; injection Hop' as <-;
    first [ apply get_refines_bin; auto
          | apply set_refines_bin; auto
          | by apply rau_refines_bin
          | by apply delete_refines_bin
          | apply incdec_refines_bin; auto; first [apply incr_serves_bin|apply decr_serves_bin]
          | apply existing_refines_bin; auto;
            first [apply append_serves_bin|apply prepend_serves_bin|apply touch_serves_bin
                  |apply lock_serves_bin|apply unlock_serves_bin] ].
Qed.

(** What is refused before the table is looked at. *)
Lemma refused_refines st op hash e :
  b_status cmd <> OK /\ st = b_status cmd \/
  b_status cmd = OK /\ operation_of (b_command cmd) = Some op /\ limits (c_max_data_size cfg) key data op = Some st ->
  wp X (cmd_bin r buf cmd hash) (fun hash' e' =>
    hash' = hash /\ client e' = client e ++ failure cmd opq st /\
    flush_time (e_stats e') = flush_time (e_stats e)) e.
Proof.
  intros [[Hst ->]|(Hst&Hop&Hl)]; unfold cmd_bin.
  - rewrite (bool_decide_eq_false_2 _ Hst). cbn [negb]. apply wp_bind.
    eapply wp_says; [by apply says_error|]. intros e1 C1 F1. by apply wp_ret.
  - rewrite (bool_decide_eq_true_2 _ Hst). cbn [negb]. apply wp_bind.
    eapply wp_says; [eauto with says|]. intros e1 C1 F1. rewrite app_nil_r in C1.
    assert (forall m, wp X (bin_checked r buf cmd hash m) (fun hash' e' =>
      hash' = hash /\ client e' = client e ++ failure cmd opq st /\ flush_time (e_stats e') = flush_time (e_stats e)) e1) as Hr.
    { intros m. unfold bin_checked. fold key data cfg. rewrite <- C1, <- F1.
      assert ((if blen key >? MAX_KEY_LENGTH then Some Invalid
               else if blen data >? c_max_data_size cfg then Some TooLargeValue else None) = Some st) as Hc by (by destruct op).
      destruct (blen key >? MAX_KEY_LENGTH); [injection Hc as <-; srun; bdone|].
      destruct (blen data >? c_max_data_size cfg); [injection Hc as <-; srun; bdone|done]. }
    destruct (b_command cmd); try discriminate Hop; injection Hop as <-; try discriminate Hl; apply Hr.
Qed.
End service.

(** ** The theorem *)

Section properties.
Context {H : Type} `{HT : Table H object} (r : request_env).

(** The abstract service for a request in a buffer. *)
Definition binary_server (buf : bytes) (cmd : binary_request) (op : operation) (e : env)
    (m : gmap bytes aobject) : gmap bytes aobject * bytes :=
  bin_service (c_heap_data_limit (config r)) (c_max_data_size (config r)) (flush_time (e_stats e)) (r_now r)
    (g_context r) cmd (opaque buf) (item_bytes buf (b_key cmd)) (item_bytes buf (b_data cmd)) op m.

(** What a request does that the specification does not say. *)
Definition binary_deviation (buf : bytes) (cmd : binary_request) (op : operation) (e : env)
    (m : gmap bytes aobject) : option (option aobject * bytes) :=
  if bool_decide (b_status cmd = OK)
  then deviation (flush_time (e_stats e)) (r_now r) (g_context r) cmd (opaque buf) (item_bytes buf (b_key cmd))
         op (m !! item_bytes buf (b_key cmd))
  else None.

(** C6: The binary protocol refines its abstract specification, up to two exceptions.  From
    any state that satisfies the invariants, a command on a key (get, get and touch, lock
    and get, set, add, replace, replace and unlock, append, prepend, delete, increment,
    decrement, touch, lock and unlock, with their quiet forms), well formed or refused by
    the parser, returns, keeps the invariants, changes the stored objects exactly as the
    abstract service does (values, flags, expiration times, CAS values and locks), and the
    bytes sent to the client are exactly the response packet of the abstract service, or
    none where the command is quiet.  The exceptions ([deviation]): lock-and-get on an
    object that has expired or been flushed, and is not locked, locks and returns it, where
    not found is expected; and LaGKQ on a key without object sends nothing, where
    docs/locking.md says not found. *)
Theorem binary_server_refined buf cmd op (hash : H) e :
  g_context r <> -1 -> binary_request_ok buf cmd -> operation_of (b_command cmd) = Some op -> good r hash e ->
  exists hash' e', cmd_bin r buf cmd hash e = (inr hash', e') /\ good r hash' e' /\
    flush_time (e_stats e') = flush_time (e_stats e) /\
    match binary_deviation buf cmd op e (abs_map (t_map hash)) with
    | None =>
        abs_map (t_map hash') = (binary_server buf cmd op e (abs_map (t_map hash))).1 /\
        client e' = client e ++ (binary_server buf cmd op e (abs_map (t_map hash))).2
    | Some (x, reply) =>
        abs_map (t_map hash') = partial_alter (fun _ => x) (item_bytes buf (b_key cmd)) (abs_map (t_map hash)) /\
        client e' = client e ++ reply
    end.
Proof.
  intros Hctx Hcmd Hop Hg. pose proof (cmd_bin_ok r no_exn Hctx buf cmd hash e Hcmd Hg) as Hok.
  unfold binary_server, bin_service, binary_deviation. case_bool_decide as Hst; cbn [negb].
  - destruct (limits _ _ _ op) as [st|] eqn:Hl.
    + pose proof (refused_refines r buf cmd st op hash e ltac:(right; done)) as Href.
      destruct (wp_both _ _ _ _ _ Hok Href) as (hash'&e'&Hr&[Hg' _]&->&Hc&Hf). exists hash, e'.
      split_and!; [done|done|done|]. by destruct op.
    + pose proof (cmd_bin_refines r buf cmd Hctx op hash e Hst Hop Hl (proj1 Hg) (proj2 (proj2 Hg))) as Href.
      destruct (wp_both _ _ _ _ _ Hok Href) as (hash'&e'&Hr&[Hg' _]&Hm&Hc&Hf).
      exists hash', e'. split_and!; [done|done|done|]. unfold bin_code in Hm, Hc.
      destruct (deviation _ _ _ _ _ _ _ _) as [[x d]|]; cbn [from_option id fst snd] in *; [done|].
      by destruct (bin_spec _ _ _ _ _ _ _ _ _ _) as [x d].
  - pose proof (refused_refines r buf cmd (b_status cmd) op hash e ltac:(left; done)) as Href.
    destruct (wp_both _ _ _ _ _ Hok Href) as (hash'&e'&Hr&[Hg' _]&->&Hc&Hf). by exists hash, e'.
Qed.
End properties.

(** ** A set, and a lock-and-get without object *)

Definition sample_bin_set : bytes :=
  encode_request x01 [x00; x00] [x01; x02; x03; x04] 0 (set_extras 7 0) (lit "k") (lit "a b").
Definition sample_lagkq : bytes := encode_request x49 [x00; x00] [x01; x02; x03; x04] 0 [] (lit "k") [].

Lemma binary_server_refined_witness :
  (exists cmd hash' e', binary_parse sample_clock sample_u sample_bin_set = Some cmd /\
    cmd_bin (sample_request 5 []) sample_bin_set cmd sample_empty (sample_env []) = (inr hash', e') /\
    abs_map (t_map hash') !! lit "k" = Some (create 64 (lit "a b") 7 0) /\
    client e' = packet x01 OK [x01; x02; x03; x04] 1 [] [] []) /\
  (exists cmd hash' e', binary_parse sample_clock sample_u sample_lagkq = Some cmd /\ b_command cmd = LaGKQ /\
    cmd_bin (sample_request 5 []) sample_lagkq cmd sample_empty (sample_env []) = (inr hash', e') /\
    abs_map (t_map hash') = ∅ /\ client e' = []).
Proof.
  split.
  - destruct (binary_parse sample_clock sample_u sample_bin_set) as [cmd|] eqn:Hp; [|vm_compute in Hp; discriminate Hp].
    pose proof (binary_parse_swp sample_clock sample_u sample_bin_set) as Hok. rewrite Hp in Hok.
    destruct (binary_server_refined (sample_request 5 []) sample_bin_set cmd op_set sample_empty (sample_env []))
      as (hash'&e'&Hr&_&_&Hm); [discriminate|by apply Hok| |exact sample_good|].
    + vm_compute in Hp. injection Hp as <-. reflexivity.
    + exists cmd, hash', e'. split; [reflexivity|]. split; [exact Hr|].
      vm_compute in Hp. injection Hp as <-. destruct Hm as [Hm Hc]. split.
      * rewrite Hm. vm_compute. reflexivity.
      * rewrite Hc. vm_compute. reflexivity.
  - destruct (binary_parse sample_clock sample_u sample_lagkq) as [cmd|] eqn:Hp; [|vm_compute in Hp; discriminate Hp].
    pose proof (binary_parse_swp sample_clock sample_u sample_lagkq) as Hok. rewrite Hp in Hok.
    destruct (binary_server_refined (sample_request 5 []) sample_lagkq cmd op_lag sample_empty (sample_env []))
      as (hash'&e'&Hr&_&_&Hm); [discriminate|by apply Hok| |exact sample_good|].
    + vm_compute in Hp. injection Hp as <-. reflexivity.
    + exists cmd, hash', e'. split; [reflexivity|]. vm_compute in Hp. injection Hp as <-.
      split; [reflexivity|]. split; [exact Hr|]. destruct Hm as [Hm Hc]. split.
      * rewrite Hm. vm_compute. reflexivity.
      * rewrite Hc. vm_compute. reflexivity.
Defined.
