(* ===== verification/MemStream.v ===== *)
(** * The receive job on a stream of bytes

    A connection's bytes are executed request by request; the result does not
    depend on how the network splits them; every round of the loop makes
    progress; the invariant of MemSocketSpec.v holds after every job. *)

From S2P Require Import Prelude CLib MemTypes Table TextRequest TextRequestSpec BinaryRequest.
From S2P Require Import BinaryRequestSpec MemState MemObject MemObjectSpec Response Stats.
From S2P Require Import Replication MemSocket MemSocketSpec.

(** ** A request does not depend on what follows it in the buffer *)

Section extend.
Context {H : Type} `{TableOps H object} (r : request_env) (buf more : bytes).

Lemma item_bytes_app it :
  match it with Some (p, n) => (p + n <= length buf)%nat | None => True end ->
  item_bytes (buf ++ more) it = item_bytes buf it.
Proof.
  destruct it as [[p n]|]; [|done]. intros Hl. cbn.
  rewrite drop_app_le by lia. by rewrite take_app_le by (rewrite length_drop; lia).
Qed.

Lemma opaque_app : (24 <= length buf)%nat -> opaque (buf ++ more) = opaque buf.
Proof.
  intros Hl. unfold opaque. rewrite drop_app_le by lia.
  by rewrite take_app_le by (rewrite length_drop; lia).
Qed.

Lemma cmd_bin_app cmd hash :
  binary_request_ok buf cmd -> b_request_len cmd <> 0%nat ->
  cmd_bin r (buf ++ more) cmd hash = cmd_bin r buf cmd hash.
Proof.
  intros Hcmd Hlen. destruct (bok_header _ _ Hcmd) as [|H24]; [done|].
  pose proof (bok_len _ _ Hcmd) as Hl.
  assert (opaque (buf ++ more) = opaque buf) as H1 by (apply opaque_app; lia).
  assert (item_bytes (buf ++ more) (b_key cmd) = item_bytes buf (b_key cmd)) as H2.
  { apply item_bytes_app. destruct (b_key cmd) as [[p n]|] eqn:Hk; [|done].
    apply (bok_key _ _ Hcmd) in Hk. lia. }
  assert (item_bytes (buf ++ more) (b_data cmd) = item_bytes buf (b_data cmd)) as H3.
  { apply item_bytes_app. destruct (b_data cmd) as [[p n]|] eqn:Hd; [|done].
    apply (bok_data _ _ Hcmd) in Hd. lia. }
  unfold cmd_bin, bin_get, bin_get_handler, bin_get_body, bin_set, bin_checked, bin_set_handler,
    bin_set_creator, bin_apply, bin_rau_handler, bin_append_handler, bin_prepend_handler,
    bin_delete, bin_delete_pred, bin_incr_handler, bin_decr_handler, bin_incdec_c,
    bin_incdec_creator, bin_incdec, bin_modify, bin_touch_handler, bin_lock_handler,
    bin_unlock_handler, bin_unlock_all, bin_quit, bin_flush, bin_keys, bin_keys_pred.
  cbv zeta. by rewrite H1, H2, H3.
Qed.

(** ** The keys of a retrieval command *)

Lemma find_byte_drop_mono c p : ole_eq (find_byte c (drop p buf)) (find_byte c (drop p (buf ++ more))).
Proof.
  destruct (find_byte c (drop p buf)) as [i|] eqn:E; [|done]. right.
  assert (p <= length buf)%nat.
  { destruct (decide (p <= length buf)%nat) as [|Hn]; [done|].
    rewrite drop_ge in E by lia. done. }
  rewrite drop_app_le by done. by apply find_byte_app.
Qed.

Lemma next_key_app it : ole_eq (next_key buf it) (next_key (buf ++ more) it).
Proof.
  destruct it as [[p n]|]; [|done]. unfold next_key.
  apply ole_bind; [apply skip_while_mono|intros b].
  apply ole_bind; [apply find_byte_drop_mono|intros e].
  case_decide; [apply ole_refl|]. apply ole_bind; [apply memchr_mono|intros; apply ole_refl].
Qed.

Lemma key_loop_app f f' it : (f <= f')%nat -> ole_eq (key_loop buf f it) (key_loop (buf ++ more) f' it).
Proof.
  revert f' it. induction f as [|f IH]; intros [|f'] it Hf; try done; [lia|].
  cbn [key_loop]. destruct it as [it|]; [|apply ole_refl].
  apply ole_bind; [apply next_key_app|intros nxt].
  apply ole_bind; [apply IH; lia|intros; apply ole_refl].
Qed.

(** The keys lie in the buffer. *)
Lemma key_loop_in_buf e f it its :
  buf !! e = Some CR ->
  match it with Some (p, n) => (p + n <= e)%nat | None => True end ->
  key_loop buf f it = Some its ->
  Forall (fun it => match it with Some (p, n) => (p + n <= length buf)%nat | None => True end) its.
Proof.
  intros Hcr. pose proof (lookup_lt_Some _ _ _ Hcr). revert it its.
  induction f as [|f IH]; intros it its Hit Hk; [done|]. cbn [key_loop] in Hk.
  destruct it as [[p n]|]; [|by injection Hk as <-].
  apply bind_Some in Hk as (nxt&Hn&Hk). apply bind_Some in Hk as (rest&Hr&[= <-]).
  constructor; [lia|]. destruct (next_key_step buf e p n) as (nxt'&Hn'&Hs); [lia|done|].
  assert (nxt' = nxt) as -> by congruence. apply (IH nxt); [|done].
  by destruct nxt as [[p' n']|]; [lia|].
Qed.

Lemma text_get_loop_app cmd its hash e :
  Forall (fun it => match it with Some (p, n) => (p + n <= length buf)%nat | None => True end) its ->
  text_get_loop r (buf ++ more) cmd its hash e = text_get_loop r buf cmd its hash e.
Proof.
  intros Hf. revert hash e. induction Hf as [|it its Hit _ IH]; intros hash e; [done|].
  cbn [text_get_loop]. rewrite item_bytes_app by done. unfold bind.
  destruct (t_apply _ _ _ _ _) as [[x|[b h']] e']; [done|].
  by destruct b; apply IH.
Qed.

Lemma text_get_app cmd hash e :
  text_request_ok buf cmd -> text_get r (buf ++ more) cmd hash e = text_get r buf cmd hash e.
Proof.
  intros Hcmd. destruct (text_keys_total buf cmd Hcmd) as [its Hits].
  assert (key_loop (buf ++ more) (S (length (buf ++ more))) (m_key cmd) = Some its) as Hits'.
  { eapply ole_eq_Some; [|exact Hits]. apply key_loop_app. rewrite length_app. lia. }
  unfold text_get. rewrite Hits, Hits'. cbn [checked]. unfold bind, ret.
  rewrite text_get_loop_app; [done|].
  destruct (m_key cmd) as [[p n]|] eqn:Hk; [|by injection Hits as <-].
  destruct Hcmd as (_&Hkey&_). destruct (Hkey p n Hk) as (q&Hq&Hcr).
  eapply key_loop_in_buf; [exact Hcr| |exact Hits]. cbn. lia.
Qed.

Lemma cmd_text_app cmd hash e :
  text_request_ok buf cmd -> cmd_text r (buf ++ more) cmd hash e = cmd_text r buf cmd hash e.
Proof.
  intros Hcmd. pose proof Hcmd as (Hl&Hkey&Hdata&_).
  assert (item_bytes (buf ++ more) (m_key cmd) = item_bytes buf (m_key cmd)) as H1.
  { apply item_bytes_app. destruct (m_key cmd) as [[p n]|]; [|done].
    destruct (Hkey p n eq_refl) as (q&?&_). lia. }
  assert (item_bytes (buf ++ more) (m_data cmd) = item_bytes buf (m_data cmd)) as H2.
  { apply item_bytes_app. destruct (m_data cmd) as [[p n]|]; [|done].
    specialize (Hdata p n eq_refl). lia. }
  assert (forall e, text_get r (buf ++ more) cmd hash e = text_get r buf cmd hash e) as H3
    by (intros; by apply text_get_app).
  unfold cmd_text. destruct (negb (m_valid cmd)); [done|].
  apply bind_ext. intros _ e'. destruct (m_command cmd); try done; try apply H3.
  all: unfold text_set, text_apply, text_set_handler, text_set_creator, text_append_handler,
    text_prepend_handler, text_cas, text_cas_handler, text_touch, text_delete, text_lock,
    text_unlock, text_keys, text_keys_pred; by rewrite ?H1, ?H2.
Qed.
End extend.

(** ** The loop over the buffer *)

Section process.
Context {H : Type} `{TableOps H object} (r : request_env) (ck : clock) (u : uninit).

(** One round: nothing is left to do, or a request is executed and the rest of
    the bytes is next.  [round head hash e] is the state after the round. *)
Inductive outcome :=
| stop (rest : bytes)                (** no complete request is left *)
| request (n : nat) (m : H -> M env H) (** a request of [n] bytes *)
| overread.                          (** the text parser reads past the buffer *)

Definition next_request (head : bytes) : outcome :=
  match head with
  | [] => stop []
  | b :: _ =>
      if is_binary_request b then
        match binary_parse ck u head with
        | Some p => if (b_request_len p =? 0)%nat then stop head
                    else request (b_request_len p) (cmd_bin r head p)
        | None => overread
        end
      else
        match text_parse ck head with
        | Some p => if (m_request_len p =? 0)%nat then stop head
                    else request (m_request_len p) (cmd_text r head p)
        | None => overread
        end
  end.

Lemma process_step f head hash e :
  process r ck u (S f) head hash e =
    match next_request head with
    | stop rest => (inr (rest, hash), e)
    | request n m => bind (m hash) (fun hash' => process r ck u f (drop n head) hash') e
    | overread => (inl bad_read, e)
    end.
Proof.
  cbn [process]. unfold next_request. destruct head as [|b head]; [done|].
  destruct (is_binary_request b).
  - destruct (binary_parse ck u (b :: head)) as [p|]; [|done].
    cbn. by destruct (b_request_len p =? 0)%nat.
  - destruct (text_parse ck (b :: head)) as [p|]; [|done].
    cbn. by destruct (m_request_len p =? 0)%nat.
Qed.

(** A request has at least one byte and lies in the buffer. *)
Lemma next_request_len head n m : next_request head = request n m -> (0 < n <= length head)%nat.
Proof.
  unfold next_request. destruct head as [|b head]; [done|]. destruct (is_binary_request b).
  - destruct (binary_parse_swp ck u (b :: head)) as [Hok _].
    destruct (binary_parse ck u (b :: head)) as [p|]; [|done].
    destruct (Nat.eqb_spec (b_request_len p) 0); [done|]. intros [= <- _].
    pose proof (bok_len _ _ (Hok p eq_refl)). lia.
  - destruct (text_parse_swp ck (b :: head)) as [Hok _].
    destruct (text_parse ck (b :: head)) as [p|]; [|done].
    destruct (Nat.eqb_spec (m_request_len p) 0); [done|]. intros [= <- _].
    pose proof (Hok p eq_refl) as (Hl&_). lia.
Qed.

Lemma next_request_stop head rest : next_request head = stop rest -> rest = head.
Proof.
  unfold next_request. destruct head as [|b head]; [by intros [= <-]|].
  destruct (is_binary_request b).
  - destruct (binary_parse ck u (b :: head)) as [p|]; [|done].
    destruct (b_request_len p =? 0)%nat; [by intros [= <-]|done].
  - destruct (text_parse ck (b :: head)) as [p|]; [|done].
    destruct (m_request_len p =? 0)%nat; [by intros [= <-]|done].
Qed.

(** The bound on the rounds is enough. *)
Lemma process_fuel f f' head hash e :
  (length head < f)%nat -> (length head < f')%nat ->
  process r ck u f head hash e = process r ck u f' head hash e.
Proof.
  revert f' head hash e. induction f as [|f IH]; intros [|f'] head hash e Hf Hf'; [lia..|].
  rewrite !process_step. destruct (next_request head) as [rest|n m|] eqn:Hn; [done| |done].
  apply next_request_len in Hn. apply bind_ext. intros hash' e'.
  apply IH; rewrite length_drop; lia.
Qed.

(** A complete request is the same when more bytes follow. *)
Lemma next_request_app head more n m :
  next_request head = request n m ->
  exists m', next_request (head ++ more) = request n m' /\ forall hash e, m' hash e = m hash e.
Proof.
  unfold next_request. destruct head as [|b head]; [done|]. cbn [app].
  destruct (is_binary_request b).
  - destruct (binary_parse_swp ck u (b :: head)) as [Hok _].
    pose proof (binary_parse_mono ck u (b :: head) more) as Hm. cbn [app] in Hm.
    destruct (binary_parse ck u (b :: head)) as [p|]; [|done].
    destruct (Nat.eqb_spec (b_request_len p) 0) as [|Hne]; [done|]. intros [= <- <-].
    destruct Hm as [?| -> ]; [done|]. destruct (Nat.eqb_spec (b_request_len p) 0); [done|].
    eexists. split; [done|]. intros hash e.
    by rewrite <- (cmd_bin_app r (b :: head) more) by (done || by apply Hok).
  - destruct (text_parse_swp ck (b :: head)) as [Hok _].
    pose proof (text_parse_mono ck (b :: head) more) as Hm. cbn [app] in Hm.
    destruct (text_parse ck (b :: head)) as [p|]; [|done].
    destruct (Nat.eqb_spec (m_request_len p) 0) as [|Hne]; [done|]. intros [= <- <-].
    destruct Hm as [?| -> ]; [done|]. destruct (Nat.eqb_spec (m_request_len p) 0); [done|].
    eexists. split; [done|]. intros hash e.
    by rewrite <- (cmd_text_app r (b :: head) more) by (by apply Hok).
Qed.

(** Executing what has arrived and then the rest is executing everything. *)
Lemma process_app f head more hash e :
  (length head < f)%nat ->
  (forall e', process r ck u f head hash e <> (inl bad_read, e')) ->
  process_all r ck u (head ++ more) hash e =
    bind (process r ck u f head hash) (fun p => process_all r ck u (p.1 ++ more) p.2) e.
Proof.
  unfold process_all. revert head hash e. induction f as [|f IH]; intros head hash e Hf Hb; [lia|].
  unfold bind. rewrite (process_step f) in Hb |- *.
  destruct (next_request head) as [rest|n m|] eqn:Hn.
  - apply next_request_stop in Hn as ->. done.
  - pose proof (next_request_len _ _ _ Hn) as Hlen.
    rewrite process_step. destruct (next_request_app _ more _ _ Hn) as (m'&->&Hm).
    unfold bind in *. rewrite Hm. destruct (m hash e) as [[x|hash'] e']; [done|].
    rewrite drop_app_le by lia.
    rewrite (process_fuel _ (S (length (drop n head ++ more))))
      by (rewrite !length_app, ?length_drop; lia).
    rewrite IH; [done|rewrite length_drop; lia|done].
  - by destruct (Hb e).
Qed.
End process.

(** ** Segmentation and the invariant *)

Section job.
Context {H : Type} `{HT : Table H object} (r : request_env) (ck : clock) (u : uninit).

(** Two segments or one. *)
Lemma recv_loop_split rs buf a b hash e rest hash1 e1 :
  process_all r ck u (buf ++ a) hash e = (inr (rest, hash1), e1) ->
  blen rest <= MAX_REQUEST_LENGTH ->
  recv_loop r ck u (recv_ok a :: recv_ok b :: rs) buf hash e =
  recv_loop r ck u (recv_ok (a ++ b) :: rs) buf hash e.
Proof.
  intros Hp Hmax.
  assert (process_all r ck u (buf ++ a ++ b) hash e = process_all r ck u (rest ++ b) hash1 e1)
    as Happ.
  { rewrite app_assoc, (process_app r ck u (S (length (buf ++ a)))); [|lia|].
    - unfold process_all in Hp. unfold bind. by rewrite Hp.
    - intros e'. unfold process_all in Hp. by rewrite Hp. }
  cbn [recv_loop].
  match goal with |- _ = bind _ ?k e => set (K := k) end.
  unfold bind at 1. rewrite Hp, (Z.gtb_ltb (blen rest)).
  destruct (Z.ltb_spec MAX_REQUEST_LENGTH (blen rest)); [lia|].
  unfold bind. by rewrite Happ.
Qed.

Hypothesis Hctx : g_context r <> -1.
Let cfg := config r.
(** The only exceptions left are a read past the buffer by the text parser *)
Abbreviation X := (fun x => x = bad_read).
(** and an error of [::recv]. *)
Definition job_exn (rs : list received) (x : exn) : Prop :=
  x = bad_read \/ (x = system_error /\ recv_fail ∈ rs).

Lemma process_ok f head hash e :
  (length head < f)%nat -> good r hash e ->
  wp X (process r ck u f head hash) (fun p e' => cmd_post r hash p.2 e') e.
Proof.
  revert head hash e. induction f as [|f IH]; intros head hash e Hf Hg; [lia|].
  cbn [process]. destruct head as [|b head]; [by apply wp_ret, cmd_post_refl|].
  destruct (is_binary_request b).
  - destruct (binary_parse_swp ck u (b :: head)) as [Hok Hs].
    destruct (Hs I) as [p Hp]. rewrite Hp. apply wp_bind, wp_ret.
    pose proof (Hok p Hp) as Hcmd. pose proof (bok_len _ _ Hcmd).
    destruct (Nat.eqb_spec (b_request_len p) 0); [by apply wp_ret, cmd_post_refl|].
    apply wp_bind. eapply wp_mono; [by apply cmd_bin_ok|]. intros hash' e' [Hg' Hfr].
    eapply wp_mono; [apply IH; [rewrite length_drop; cbn in *; lia|done]|].
    intros q e2. by apply cmd_post_trans.
  - destruct (text_parse_swp ck (b :: head)) as [Hok _].
    destruct (text_parse ck (b :: head)) as [p|] eqn:Hp; [|done]. apply wp_bind, wp_ret.
    pose proof (Hok p eq_refl) as Hcmd. pose proof Hcmd as (Hl&_).
    destruct (Nat.eqb_spec (m_request_len p) 0); [by apply wp_ret, cmd_post_refl|].
    apply wp_bind. eapply wp_mono; [by apply cmd_text_ok|]. intros hash' e' [Hg' Hfr].
    eapply wp_mono; [apply IH; [rewrite length_drop; cbn in *; lia|done]|].
    intros q e2. by apply cmd_post_trans.
Qed.

Lemma recv_loop_ok rs buf hash e :
  good r hash e -> wp (job_exn rs) (recv_loop r ck u rs buf hash) (fun p e' => cmd_post r hash p.2 e') e.
Proof.
  revert buf hash e. induction rs as [|[d| | |] rs IH]; intros buf hash e Hg; cbn [recv_loop].
  - by apply wp_ret, cmd_post_refl.
  - apply wp_bind. eapply wp_mono; [eapply wp_exn_mono; [apply process_ok; [lia|done]|by left]|].
    intros [rest hash'] e' [Hg' Hfr]. cbn [snd] in *. destruct (_ >? _).
    + apply wp_bind. eapply wp_mono; [by apply unlock_all_ok|]. intros hash2 e2 Hp2.
      apply wp_bind, wp_modify, wp_ret. eapply cmd_post_trans; [done|].
      by eapply cmd_post_locks; [|exact Hp2].
    + eapply wp_mono; [eapply wp_exn_mono; [by apply IH|]|intros q e2; by apply cmd_post_trans].
      intros x [->|[-> Hr]]; [by left|]. right. split; [done|]. by right.
  - by apply wp_ret, cmd_post_refl.
  - apply wp_bind. eapply wp_mono; [by apply unlock_all_ok|]. intros hash2 e2 Hp2.
    by apply wp_ret.
  - apply wp_throw. right. split; [done|]. by left.
Qed.
End job.
