(* ===== verification/MemWork.v ===== *)
(** * The receive job, one table operation at a time

    MemSocket gives a receive job as one function.  In the program other threads run
    between its accesses to the table: a job holds the mutex of a bucket only inside
    [hash_map::apply], [remove_if] and [bucket::foreach].  Here the same job is a
    machine whose steps contain at most one critical section each.  Most requests are
    one step; [get] with several keys, [keys] and the release of all locks are several.
    The theorem at the end says that the machine, left alone, does what the function
    does. *)

From S2P Require Import Prelude CLib Siphash Table HashMap HashMapSpec BucketVisit MemTypes.
From S2P Require Import TextRequest BinaryRequest Machine.
From S2P Require Import MemState MemObject Response Stats Replication MemSocket.

Section work.
Context (sk : sip_key).
#[local] Instance work_ops : TableOps (hash_map object) object := hash_map_ops sk object.
Abbreviation table := (hash_map object).

(** What is left of a job.  The last component of a request in progress is what
    follows it; [fin] is what the command does after its loop over the table. *)
Inductive work :=
| w_recv (rs : list received) (buf : bytes)      (** before [receive] *)
| w_proc (rs : list received) (head : bytes)     (** before the next request *)
| w_get (buf : bytes) (cmd : text_request) (its : list item) (next : work)
| w_keys (v : visitor env object) (i : nat) (fin : M env unit) (next : work)
| w_unlock (l : list kref) (fin : M env unit) (next : work)
| w_done (pending : bytes).

Section step.
Context (r : request_env) (ck : clock) (u : uninit).

(** [unlock_all] begins: it goes over the list as it is now. *)
Definition start_unlock (fin : M env unit) (next : work) (hash : table) : M env (work * table) :=
  let! l := gets e_locks in ret (w_unlock l fin next, hash).

(** [cmd_bin] up to and including its first operation on the table. *)
Definition start_bin (buf : bytes) (cmd : binary_request) (next : work) (hash : table)
    : M env (work * table) :=
  let reply (m : M env unit) := when (negb (b_quiet cmd)) m in
  let whole := let! hash := cmd_bin r buf cmd hash in ret (next, hash) in
  if negb (bool_decide (b_status cmd = OK)) then whole else
  match b_command cmd with
  | UnlockAll | UnlockAllQ =>
      count_bin_op (b_command cmd) ;;!
      start_unlock (reply (binary_response.success cmd (opaque buf))) next hash
  | Quit | QuitQ =>
      count_bin_op (b_command cmd) ;;!
      start_unlock (if b_quiet cmd then invalidate_and_close
                    else binary_response.quit cmd (opaque buf)) next hash
  | Keys =>
      count_bin_op (b_command cmd) ;;!
      ret (w_keys (bin_keys_pred r buf cmd) 0 (binary_response.success cmd (opaque buf)) next, hash)
  | _ => whole
  end.

(** [cmd_text] likewise. *)
Definition start_text (buf : bytes) (cmd : text_request) (next : work) (hash : table)
    : M env (work * table) :=
  let whole := let! hash := cmd_text r buf cmd hash in ret (next, hash) in
  if negb (m_valid cmd) then whole else
  match m_command cmd with
  | UNLOCK_ALL =>
      count_text_op (m_command cmd) ;;! start_unlock text_response.ok next hash
  | QUIT =>
      count_text_op (m_command cmd) ;;! start_unlock invalidate_and_close next hash
  | GET | GETS =>
      count_text_op (m_command cmd) ;;!
      let! its := checked (key_loop buf (S (length buf)) (m_key cmd)) in
      ret (w_get buf cmd its next, hash)
  | KEYS =>
      count_text_op (m_command cmd) ;;!
      ret (w_keys (text_keys_pred r buf cmd) 0 text_response.end_ next, hash)
  | _ => whole
  end.

(** The end of the inner loop of the job, with [head] left over. *)
Definition end_of_data (rs : list received) (head : bytes) (hash : table) : M env (work * table) :=
  if blen head >? MAX_REQUEST_LENGTH
  then start_unlock invalidate_and_close (w_done []) hash
  else ret (w_recv rs head, hash).

(** One iteration of the inner loop. *)
Definition proc_step (rs : list received) (head : bytes) (hash : table) : M env (work * table) :=
  match head with
  | [] => end_of_data rs [] hash
  | b :: _ =>
      if is_binary_request b then
        let! parser := checked (binary_parse ck u head) in
        let c := b_request_len parser in
        if (c =? 0)%nat then end_of_data rs head hash
        else start_bin head parser (w_proc rs (drop c head)) hash
      else
        let! parser := checked (text_parse ck head) in
        let c := m_request_len parser in
        if (c =? 0)%nat then end_of_data rs head hash
        else start_text head parser (w_proc rs (drop c head)) hash
  end.

(** One iteration of the loop of [unlock_all] and of the destructor. *)
Definition unlock_one (force : bool) (k : kref) (hash : table) : M env table :=
  let! (_, hash) := t_apply hash (kr_data k) (Some (unlock_handler r force)) None in
  ret hash.

(** One step of the job. *)
Definition work_step (w : work) (hash : table) : M env (work * table) :=
  match w with
  | w_recv [] buf | w_recv (recv_again :: _) buf => ret (w_done buf, hash)
  | w_recv (recv_reset :: _) buf => start_unlock (ret tt) (w_done []) hash
  | w_recv (recv_fail :: _) buf => throw system_error
  | w_recv (recv_ok d :: rs) buf => ret (w_proc rs (buf ++ d), hash)
  | w_proc rs head => proc_step rs head hash
  | w_get buf cmd (it :: its) next =>
      let! (found, hash) := t_apply hash (item_bytes buf it) (Some (text_get_handler r cmd)) None in
      (if found : bool then count_get_hit else count_get_miss) ;;!
      ret (w_get buf cmd its next, hash)
  | w_get buf cmd [] next => text_response.end_ ;;! ret (next, hash)
  | w_keys v i fin next =>
      match m_buckets hash !! i with
      | Some b => bucket_foreach b v ;;! ret (w_keys v (S i) fin next, hash)
      | None => fin ;;! ret (next, hash)
      end
  | w_unlock (k :: l) fin next =>
      let! hash := unlock_one false k hash in ret (w_unlock l fin next, hash)
  | w_unlock [] fin next =>
      modify (upd_locks (fun _ => [])) ;;! fin ;;! ret (next, hash)
  | w_done p => ret (w_done p, hash)
  end.

(** ** The machine left alone *)

Definition finished (w : work) : option bytes :=
  match w with w_done p => Some p | _ => None end.

Abbreviation job_runs := (runs work_step finished).
Abbreviation continues := (continues work_step finished).
Abbreviation goes_on := (goes_on work_step finished).

Lemma runs_get buf cmd its next hash e res :
  after_run (let! hash := text_get_loop r buf cmd its hash in text_response.end_ ;;! ret hash)
    (continues next res) e res ->
  job_runs (w_get buf cmd its next) hash e res.
Proof.
  revert hash e. induction its as [|it its IH]; intros hash e Hr; apply runs_first; [exact Hr|].
  cbn [work_step text_get_loop] in *. rewrite !after_bind in *.
  unfold after_run at 1 in Hr. unfold after_run at 1.
  destruct (t_apply _ _ _ _ e) as [[x|[found h]] e']; [done|].
  rewrite !after_bind in *. destruct found; apply IH; by rewrite after_bind.
Qed.

Lemma runs_keys v i fin next hash e res :
  after_run (iterM (fun b => bucket_foreach b v) (drop i (m_buckets hash)) ;;! fin ;;! ret hash)
    (continues next res) e res ->
  job_runs (w_keys v i fin next) hash e res.
Proof.
  remember (drop i (m_buckets hash)) as bs eqn:Hbs. revert i e Hbs.
  induction bs as [|b bs IH]; intros i e Hbs Hr; apply runs_first; cbn [work_step].
  - assert (m_buckets hash !! i = None) as ->; [|by apply after_fin].
    apply lookup_ge_None. apply (f_equal length) in Hbs. rewrite length_drop in Hbs. cbn in Hbs. lia.
  - destruct (cons_drop _ _ _ _ Hbs) as [-> Hbs'].
    cbn [iterM] in Hr. rewrite !after_bind in *. unfold after_run at 1 in Hr. unfold after_run at 1.
    destruct (bucket_foreach b v e) as [[x|[]] e']; [done|]. apply (IH (S i) e' Hbs').
    by rewrite after_bind.
Qed.

Lemma runs_unlock l fin next hash e res :
  after_run (let! hash := unlock_each r false l hash in
             modify (upd_locks (fun _ => [])) ;;! fin ;;! ret hash) (continues next res) e res ->
  job_runs (w_unlock l fin next) hash e res.
Proof.
  revert hash e. induction l as [|k l IH]; intros hash e Hr; apply runs_first.
  { cbn [work_step unlock_each] in *. rewrite after_bind in *. by apply after_fin. }
  cbn [work_step unlock_each] in *. unfold unlock_one. rewrite !after_bind in *.
  unfold after_run at 1 in Hr. unfold after_run at 1.
  destruct (t_apply _ _ _ _ e) as [[x|[found h]] e']; [done|].
  apply IH. by rewrite after_bind.
Qed.

Lemma runs_unlock_all fin next hash e res :
  after_run (let! hash := unlock_all r hash in fin ;;! ret hash) (continues next res) e res ->
  after_run (start_unlock fin next hash) (goes_on res) e res.
Proof.
  intros Hr. unfold start_unlock, unlock_all in *. rewrite !after_bind in *. cbn in *.
  unfold Machine.goes_on. cbn [fst snd]. apply runs_unlock. rewrite !after_bind in *. unfold after_run at 1 in Hr. unfold after_run at 1.
  destruct (unlock_each r false (e_locks e) hash e) as [[x|h] e']; exact Hr.
Qed.

Lemma start_bin_runs buf cmd next hash e res :
  after_run (cmd_bin r buf cmd hash) (continues next res) e res ->
  after_run (start_bin buf cmd next hash) (goes_on res) e res.
Proof.
  intros Hr. unfold start_bin. cbv zeta.
  pose proof (after_next _ _ _ _ _ _ Hr) as Hwhole.
  case_bool_decide as Hst; cbn [negb]; [|exact Hwhole].
  destruct (b_command cmd) eqn:Hc; try exact Hwhole; clear Hwhole;
    unfold cmd_bin in Hr; cbv zeta in Hr; rewrite (bool_decide_eq_true_2 _ Hst), Hc in Hr;
    cbn [negb] in Hr; rewrite after_bind in Hr; rewrite after_bind;
    (unfold after_run at 1 in Hr; unfold after_run at 1; destruct (count_bin_op _ e) as [[x|[]] e']; [done|]).
  all: try exact (runs_unlock_all _ _ _ _ _ Hr).
  apply runs_keys. exact Hr.
Qed.

Lemma start_text_runs buf cmd next hash e res :
  after_run (cmd_text r buf cmd hash) (continues next res) e res ->
  after_run (start_text buf cmd next hash) (goes_on res) e res.
Proof.
  intros Hr. unfold start_text. cbv zeta.
  pose proof (after_next _ _ _ _ _ _ Hr) as Hwhole.
  destruct (m_valid cmd) eqn:Hv; cbn [negb]; [|exact Hwhole].
  destruct (m_command cmd) eqn:Hc; try exact Hwhole; clear Hwhole;
    unfold cmd_text in Hr; cbv zeta in Hr; rewrite Hv, Hc in Hr;
    cbn [negb] in Hr; rewrite after_bind in Hr; rewrite after_bind;
    (unfold after_run at 1 in Hr; unfold after_run at 1; destruct (count_text_op _ e) as [[x|[]] e']; [done|]).
  all: try exact (runs_unlock_all _ _ _ _ _ Hr).
  all: try (apply runs_keys; exact Hr).
  all: unfold text_get in Hr; rewrite after_bind in Hr; rewrite after_bind;
    unfold after_run at 1 in Hr; unfold after_run at 1;
    destruct (checked _ e') as [[x|its] e2]; [done|]; by apply runs_get.
Qed.

Lemma runs_proc f rs head hash e res :
  (length head < f)%nat ->
  after_run (process r ck u f head hash)
    (fun p e' => after_run (end_of_data rs p.1 p.2) (goes_on res) e' res) e res ->
  job_runs (w_proc rs head) hash e res.
Proof.
  revert head hash e. induction f as [|f IH]; intros head hash e Hf Hr; [lia|].
  apply runs_first. cbn [work_step process] in *. unfold proc_step. destruct head as [|b head]; [exact Hr|].
  destruct (is_binary_request b).
  - after_first Hr.
    destruct (checked _ e) as [[x|p] e']; [done|]. cbv zeta in *.
    destruct (Nat.eqb_spec (b_request_len p) 0); [exact Hr|]. apply start_bin_runs.
    apply (proj1 (after_bind _ _ _ _ _)) in Hr. unfold after_run at 1 in Hr. unfold after_run at 1.
    destruct (cmd_bin _ _ _ _ e') as [[x|h] e2]; [done|].
    apply IH; [rewrite length_drop; cbn in *; lia|exact Hr].
  - after_first Hr.
    destruct (checked _ e) as [[x|p] e']; [done|]. cbv zeta in *.
    destruct (Nat.eqb_spec (m_request_len p) 0); [exact Hr|]. apply start_text_runs.
    apply (proj1 (after_bind _ _ _ _ _)) in Hr. unfold after_run at 1 in Hr. unfold after_run at 1.
    destruct (cmd_text _ _ _ _ e') as [[x|h] e2]; [done|].
    apply IH; [rewrite length_drop; cbn in *; lia|exact Hr].
Qed.

(** C17: The steps are the job.  A receive job whose steps are not interrupted ends, and with
    what [recv_loop] gives: the same table, replies, locks and pending bytes, or the
    same exception. *)
Theorem job_steps rs buf hash e :
  job_runs (w_recv rs buf) hash e (recv_loop r ck u rs buf hash e).
Proof.
  revert buf hash e. induction rs as [|[d| | |] rs IH]; intros buf hash e; apply runs_first;
    cbn [work_step recv_loop].
  - by apply runs_done.
  - refine (runs_proc (S (length (buf ++ d))) rs (buf ++ d) hash e _ _ _); [lia|].
    change (process r ck u (S (length (buf ++ d))) (buf ++ d) hash) with
      (process_all r ck u (buf ++ d) hash).
    generalize (process_all r ck u (buf ++ d) hash). intros m.
    unfold after_run at 1, bind. destruct (m e) as [[x|[rest h]] e']; [done|].
    unfold end_of_data. cbn [fst snd]. destruct (_ >? _).
    + apply runs_unlock_all. rewrite !after_bind. unfold after_run at 1.
      destruct (unlock_all r h e') as [[x|h2] e2]; [done|]. cbn. by apply runs_done.
    + apply IH.
  - by apply runs_done.
  - apply runs_unlock_all. rewrite !after_bind. unfold after_run at 1, bind.
    destruct (unlock_all r hash e) as [[x|h2] e2]; [done|]. cbn. by apply runs_done.
  - done.
Qed.
End step.
End work.
