(* ===== verification/MemWorkSpec.v ===== *)
(** * What one step of a receive job does

    The invariant of a job between two of its steps, and the proof that every step keeps
    it, whatever happened to the rest of the table in the meantime. *)

From S2P Require Import Prelude CLib Siphash Table HashMap HashMapSpec MemTypes TextRequest.
From S2P Require Import TextRequestSpec BinaryRequest BinaryRequestSpec MemState MemObject.
From S2P Require Import MemObjectSpec Response Stats Replication MemSocket MemSocketSpec MemStream.
From S2P Require Import MemWork.

(** The only exception left is a read past the buffer by the text parser. *)
Abbreviation overread := (fun x => x = bad_read).

(** The job has an error of [::recv] before it. *)
Definition recv_failed (w : work) : Prop :=
  match w with w_recv (recv_fail :: _) _ => True | _ => False end.
#[global] Instance recv_failed_dec w : Decision (recv_failed w).
Proof. destruct w as [[|[] rs] buf| | | | |]; apply _. Defined.

(** What a step can throw. *)
Definition step_exn (w : work) (x : exn) : Prop :=
  x = bad_read \/ (x = system_error /\ recv_failed w).

(** The references of [m_locks] that still matter: while [unlock_all] runs, those before its
    position have been given up although they are still in the list. *)
Definition held (w : work) (locks : list kref) : list kref :=
  match w with w_unlock l _ _ => l | _ => locks end.

(** A visitor that only replies. *)
Definition visitor_ok (v : visitor env object) : Prop := forall k o e,
  blen (kr_data k) <= MAX_KEY_LENGTH ->
  wp overread (v k o) (fun _ e' => e_locks e' = e_locks e) e.

(** A point of the job outside of the commands that take several steps. *)
Definition resting (w : work) : Prop :=
  match w with w_recv _ _ | w_proc _ _ | w_done _ => True | _ => False end.

Definition work_ok (w : work) (locks : list kref) : Prop :=
  match w with
  | w_get _ _ _ next => resting next
  | w_keys v _ fin next => visitor_ok v /\ silent fin /\ resting next
  | w_unlock l fin next => l `suffix_of` locks /\ silent fin /\ resting next
  | _ => True
  end.

Lemma resting_ok w locks : resting w -> work_ok w locks /\ held w locks = locks.
Proof. by destruct w. Qed.

Section spec.
Context (sk : sip_key) (r : request_env) (ck : clock) (u : uninit).
#[local] Instance spec_ops : TableOps (hash_map object) object := hash_map_ops sk object.
#[local] Instance spec_laws : Table (hash_map object) object := hash_map_table sk object.
Abbreviation table := (hash_map object).

Let ctx : Z := g_context r.
Let cfg : mem_config := config r.
Hypothesis Hctx : ctx <> -1.

(** The table and what the connection holds of it. *)
Definition owns (hash : table) (locks : list kref) : Prop :=
  t_inv hash /\ conn_ok ctx (t_map hash) locks /\ table_ok cfg (t_map hash).

(** After a step that began with [hash]. *)
Definition step_post (hash : table) (p : work * table) (e : env) : Prop :=
  work_ok p.1 (e_locks e) /\ owns p.2 (held p.1 (e_locks e)) /\
  frame ctx (t_map hash) (t_map p.2).

Abbreviation overread_wp m Q e := (wp overread m Q e).

(** A step that leaves a request behind. *)
Lemma step_rest hash hash' next e :
  resting next -> cmd_post r hash hash' e -> step_post hash (next, hash') e.
Proof.
  intros Hn [Hg Hf]. destruct (resting_ok next (e_locks e) Hn) as [Hw Hh].
  split; [done|]. split; [|done]. cbn [fst snd]. by rewrite Hh.
Qed.

Lemma good_locks hash e e' : e_locks e' = e_locks e -> good r hash e -> good r hash e'.
Proof. unfold good. by intros ->. Qed.

Lemma start_unlock_ok fin next hash e :
  silent fin -> resting next -> good r hash e ->
  overread_wp (start_unlock fin next hash) (step_post hash) e.
Proof.
  intros Hf Hn Hg. apply wp_bind, wp_gets, wp_ret. split; [done|]. split; [exact Hg|apply frame_refl].
Qed.

(** The first part of a command, which counts it. *)
Lemma counted_ok f (m : M env (work * table)) hash e :
  good r hash e -> (forall e', good r hash e' -> overread_wp m (step_post hash) e') ->
  overread_wp (count f ;;! m) (step_post hash) e.
Proof.
  intros Hg Hm. apply wp_bind, wp_modify, Hm. exact Hg.
Qed.

Lemma whole_ok (m : M env table) next hash e :
  resting next -> overread_wp m (cmd_post r hash) e ->
  overread_wp (let! h := m in ret (next, h)) (step_post hash) e.
Proof.
  intros Hn Hm. apply wp_bind. eapply wp_mono; [exact Hm|]. intros h e' Hp.
  apply wp_ret. by apply step_rest.
Qed.

Lemma start_keys_ok v fin next hash e :
  visitor_ok v -> silent fin -> resting next -> good r hash e ->
  overread_wp (ret (w_keys v 0 fin next, hash)) (step_post hash) e.
Proof.
  intros Hv Hf Hn Hg. apply wp_ret. split; [done|]. split; [exact Hg|apply frame_refl].
Qed.

Lemma bin_keys_pred_ok buf cmd : visitor_ok (bin_keys_pred r buf cmd).
Proof.
  intros k o e Hk. apply wp_bind, wp_is_expired. intros []; [by apply wp_ret|].
  eapply (wp_keeps _ e_locks); [auto with silent|]. by intros e1 He1.
Qed.

Lemma text_keys_pred_ok buf cmd : visitor_ok (text_keys_pred r buf cmd).
Proof.
  intros k o e Hk. apply wp_bind, wp_is_expired. intros []; [by apply wp_ret|].
  unfold text_response.value_key. rewrite Z.gtb_ltb.
  destruct (Z.ltb_spec MAX_KEY_LENGTH (blen (kr_data k))); [lia|].
  eapply (wp_keeps _ e_locks); [auto with silent|]. by intros e1 He1.
Qed.

Lemma start_bin_ok buf cmd next hash e :
  binary_request_ok buf cmd -> resting next -> good r hash e ->
  overread_wp (start_bin sk r buf cmd next hash) (step_post hash) e.
Proof.
  intros Hcmd Hn Hg. unfold start_bin. cbv zeta.
  assert (overread_wp (let! h := cmd_bin r buf cmd hash in ret (next, h)) (step_post hash) e)
    as Hwhole by (apply whole_ok; [done|by apply cmd_bin_ok]).
  case_bool_decide; cbn [negb]; [|exact Hwhole].
  destruct (b_command cmd); try exact Hwhole;
    apply counted_ok; try done; intros e' Hg';
    first [ apply start_unlock_ok; [destruct (b_quiet cmd); auto with silent|done|done]
          | apply start_keys_ok; [apply bin_keys_pred_ok|auto with silent|done|done] ].
Qed.

Lemma start_text_ok buf cmd next hash e :
  text_request_ok buf cmd -> resting next -> good r hash e ->
  overread_wp (start_text sk r buf cmd next hash) (step_post hash) e.
Proof.
  intros Hcmd Hn Hg. unfold start_text. cbv zeta.
  assert (overread_wp (let! h := cmd_text r buf cmd hash in ret (next, h)) (step_post hash) e)
    as Hwhole by (apply whole_ok; [done|by apply cmd_text_ok]).
  destruct (m_valid cmd); cbn [negb]; [|exact Hwhole].
  destruct (m_command cmd); try exact Hwhole;
    apply counted_ok; try done; intros e' Hg';
    first [ apply start_unlock_ok; [auto with silent|done|done]
          | apply start_keys_ok; [apply text_keys_pred_ok|auto with silent|done|done]
          | idtac ].
  all: destruct (text_keys_total buf cmd Hcmd) as [its ->];
    apply wp_bind, wp_ret, wp_ret; split; [done|]; split; [exact Hg'|apply frame_refl].
Qed.

Lemma end_of_data_ok rs head hash e :
  good r hash e -> overread_wp (end_of_data rs head hash) (step_post hash) e.
Proof.
  intros Hg. unfold end_of_data. destruct (_ >? _).
  - apply start_unlock_ok; [auto with silent|done|done].
  - apply wp_ret, step_rest; [done|by apply cmd_post_refl].
Qed.

Lemma proc_step_ok rs head hash e :
  good r hash e -> overread_wp (proc_step sk r ck u rs head hash) (step_post hash) e.
Proof.
  intros Hg. unfold proc_step. destruct head as [|b head]; [by apply end_of_data_ok|].
  destruct (is_binary_request b).
  - destruct (binary_parse_swp ck u (b :: head)) as [Hok Hs].
    destruct (Hs I) as [p Hp]. rewrite Hp. apply wp_bind, wp_ret. cbv zeta.
    pose proof (Hok p Hp) as Hcmd. destruct (Nat.eqb_spec (b_request_len p) 0);
      [by apply end_of_data_ok|by apply start_bin_ok].
  - destruct (text_parse_swp ck (b :: head)) as [Hok _].
    destruct (text_parse ck (b :: head)) as [p|] eqn:Hp; [|done]. apply wp_bind, wp_ret. cbv zeta.
    pose proof (Hok p eq_refl) as Hcmd. destruct (Nat.eqb_spec (m_request_len p) 0);
      [by apply end_of_data_ok|by apply start_text_ok].
Qed.

(** Visiting the objects of one bucket. *)
Lemma bucket_foreach_ok hash i b v e :
  t_inv hash -> table_ok cfg (t_map hash) -> m_buckets hash !! i = Some b -> visitor_ok v ->
  overread_wp (bucket_foreach b v) (fun _ e' => e_locks e' = e_locks e) e.
Proof.
  intros Hi Ht Hb Hv.
  assert (forall p, p ∈ b -> blen (kr_data (it_ref p)) <= MAX_KEY_LENGTH) as Hk.
  { intros p Hp. enough (t_map hash !! it_data p = Some (it_addr p, it_object p)) as Hm
      by (by destruct (Ht _ _ _ Hm)).
    apply (map_of_Some sk hash); [done|]. exists p. split_and!; try done.
    unfold items. apply list_elem_of_In, in_concat. exists b.
    by split; apply list_elem_of_In; [apply list_elem_of_lookup; exists i|]. }
  clear Hb. unfold bucket_foreach. revert e. induction b as [|p b IH]; intros e; [by apply wp_ret|].
  cbn [iterM]. apply wp_bind. eapply wp_mono; [apply Hv, Hk; by left|]. intros [] e1 He1.
  eapply wp_mono; [apply IH; intros q Hq; apply Hk; by right|]. intros [] e2 He2. congruence.
Qed.

(** Giving up one lock. *)
Lemma unlock_one_ok force k l hash e :
  force = true \/ g_context r = ctx -> owns hash (k :: l) ->
  overread_wp (unlock_one sk r force k hash)
    (fun hash' e' => e' = e /\ owns hash' l /\ frame ctx (t_map hash) (t_map hash')) e.
Proof.
  intros Hf (Hi&Hc&Ht). unfold unlock_one. apply wp_bind.
  eapply wp_mono; [by apply (unlock_apply_ok r overread cfg ctx Hctx force k l)|].
  intros [b hash'] e' (->&Hi'&Hc'&Ht'&Hfr). apply wp_ret. by split_and!.
Qed.

(** A step that waits for data keeps the invariant, and what others have locked alone. *)
Lemma work_step_no_fail w hash e :
  ~ recv_failed w -> work_ok w (e_locks e) -> owns hash (held w (e_locks e)) ->
  overread_wp (work_step sk r ck u w hash) (step_post hash) e.
Proof.
  intros Hnf Hw Ho. destruct w as [rs buf|rs head|buf cmd its next|v i fin next|l fin next|p];
    cbn [held work_ok] in *.
  - destruct rs as [|[d| | |] rs]; cbn [work_step].
    1, 2, 3: apply wp_ret, step_rest; [done|by apply cmd_post_refl].
    + apply start_unlock_ok; [auto with silent|done|done].
    + by destruct Hnf.
  - by apply proc_step_ok.
  - destruct its as [|it its]; cbn [work_step].
    + apply wp_bind. eapply (wp_keeps _ e_locks); [auto with silent|intros e1 He1].
      apply wp_ret, step_rest; [done|]. by apply cmd_post_refl, (good_locks _ e).
    + apply wp_bind, (wp_apply_ok r overread Hctx); [done|apply text_get_handler_ok|done|].
      intros b hash' e' [Hg Hf]. apply wp_bind.
      eapply (wp_keeps _ e_locks); [destruct b; auto with silent|intros e1 He1].
      apply wp_ret. split; [done|]. cbn [fst snd held]. by rewrite He1.
  - destruct Hw as (Hv&Hf&Hn). cbn [work_step]. destruct (m_buckets hash !! i) as [b|] eqn:Hb.
    + apply wp_bind. destruct Ho as (Hi&Hc&Ht).
      eapply wp_mono; [by eapply (bucket_foreach_ok hash i b)|].
      intros [] e' He. apply wp_ret. split; [done|]. cbn [fst snd held]. rewrite He.
      split; [by split_and!|apply frame_refl].
    + apply wp_bind. eapply (wp_keeps _ e_locks); [done|intros e1 He1].
      apply wp_ret, step_rest; [done|]. by apply cmd_post_refl, (good_locks _ e).
  - destruct Hw as (Hs&Hf&Hn). destruct l as [|k l]; cbn [work_step].
    + apply wp_bind, wp_modify, wp_bind. eapply (wp_keeps _ e_locks); [done|intros e1 He1].
      apply wp_ret, step_rest; [done|]. apply cmd_post_refl. unfold good. rewrite He1. exact Ho.
    + apply wp_bind. eapply wp_mono; [apply (unlock_one_ok false k l); [by right|done]|].
      intros hash' e' (->&Ho'&Hfr). apply wp_ret. split; [|by split]. cbn [fst snd work_ok].
      split_and!; try done. by eapply suffix_cons_l.
  - apply wp_ret, step_rest; [done|by apply cmd_post_refl].
Qed.

(** Every step of a job keeps the invariant, and what others have locked alone; the
    exceptions possible are the overread of the text parser and an error of [::recv]. *)
Lemma work_step_ok w hash e :
  work_ok w (e_locks e) -> owns hash (held w (e_locks e)) ->
  wp (step_exn w) (work_step sk r ck u w hash) (step_post hash) e.
Proof using Hctx.
  intros Hw Ho. destruct (decide (recv_failed w)) as [Hf|Hf].
  - destruct w as [[|[] rs] buf| | | | |]; try done. apply wp_throw. by right.
  - eapply wp_exn_mono; [by apply work_step_no_fail|]. by left.
Qed.
End spec.

(** ** The table stays well formed whoever acts

    Whatever the lock contexts are, a step that returns leaves a well-formed table. *)

(** Any exception: a step that throws has no result. *)
Abbreviation anyx := (fun _ : exn => True).

Lemma wp_any {E A} (m : M E A) e : wp anyx m (fun _ _ => True) e.
Proof. unfold wp. by destruct (m e) as [[]]. Qed.

(** The result holds a well-formed table. *)
Definition kept {A H} `{HT : Table H object} (p : A * H) (_ : env) : Prop := t_inv p.2.

Section kept.
Context {H : Type} `{HT : Table H object} (r : request_env).

Lemma wp_apply_kept k h c (hash : H) e :
  t_inv hash -> wp anyx (t_apply hash k (Some h) c) kept e.
Proof.
  intros Hi. destruct (t_map hash !! k) as [[a o]|] eqn:Hk.
  - eapply wp_apply_hit; [exact Hi|exact Hk|]. eapply wp_mono; [apply wp_any|].
    intros [b o'] e' _. by apply t_put_inv.
  - destruct c as [c|].
    + eapply wp_apply_miss; [exact Hi|exact Hk|]. eapply wp_mono; [apply wp_any|].
      intros o e' _. by apply t_new_inv.
    + eapply wp_apply_none; [exact Hi|exact Hk|]. by apply t_skip_inv.
Qed.

Lemma wp_remove_kept k p (hash : H) e : t_inv hash -> wp anyx (t_remove_if hash k p) kept e.
Proof.
  intros Hi. destruct (t_map hash !! k) as [[a o]|] eqn:Hk.
  - eapply wp_remove_if_hit; [exact Hi|exact Hk|]. eapply wp_mono; [apply wp_any|].
    intros [[] o'] e' _; [by apply t_del_inv|by apply t_put_inv].
  - unfold wp. rewrite (t_remove_if_miss _ _ _ _ Hi Hk). by apply t_skip_inv.
Qed.

Lemma wp_then_kept {A B} (m : M env A) (f : A -> M env B) Q e :
  (forall a e', wp anyx (f a) Q e') -> wp anyx (bind m f) Q e.
Proof. intros Hf. apply wp_bind. eapply wp_mono; [apply wp_any|]. intros a e' _. apply Hf. Qed.

Lemma wp_unlock_each_kept force l (hash : H) e :
  t_inv hash -> wp anyx (unlock_each r force l hash) (fun hash' _ => t_inv hash') e.
Proof.
  revert hash e. induction l as [|k l IH]; intros hash e Hi; [by apply wp_ret|]. cbn [unlock_each].
  apply wp_bind. eapply wp_mono; [by apply wp_apply_kept|]. intros [b hash'] e' Hi'. by apply IH.
Qed.

Lemma wp_unlock_all_kept (hash : H) e :
  t_inv hash -> wp anyx (unlock_all r hash) (fun hash' _ => t_inv hash') e.
Proof.
  intros Hi. apply wp_bind, wp_gets, wp_bind. eapply wp_mono; [by apply wp_unlock_each_kept|].
  intros hash' e' Hi'. by apply wp_bind, wp_modify, wp_ret.
Qed.

Lemma wp_text_get_kept buf cmd its (hash : H) e :
  t_inv hash -> wp anyx (text_get_loop r buf cmd its hash) (fun hash' _ => t_inv hash') e.
Proof.
  revert hash e. induction its as [|it its IH]; intros hash e Hi; [by apply wp_ret|]. cbn [text_get_loop].
  apply wp_bind. eapply wp_mono; [by apply wp_apply_kept|]. intros [b hash'] e' Hi'.
  apply wp_then_kept. intros _ e2. by apply IH.
Qed.

(** Follow the table through a command. *)
Ltac kept :=
  repeat match goal with
  | |- wp _ (ret _) _ _ => by apply wp_ret
  | |- wp _ (bind (t_apply _ _ _ _) _) _ _ =>
      apply wp_bind; (eapply wp_mono; [by apply wp_apply_kept|]); unfold kept; intros [? ?] ? ?; cbn [fst snd] in *
  | |- wp _ (bind (t_remove_if _ _ _) _) _ _ =>
      apply wp_bind; (eapply wp_mono; [by apply wp_remove_kept|]); unfold kept; intros [? ?] ? ?; cbn [fst snd] in *
  | |- wp _ (bind (unlock_all _ _) _) _ _ =>
      apply wp_bind; (eapply wp_mono; [by apply wp_unlock_all_kept|]); intros ? ? ?
  | |- wp _ (bind (text_get_loop _ _ _ _ _) _) _ _ =>
      apply wp_bind; (eapply wp_mono; [by apply wp_text_get_kept|]); intros ? ? ?
  | |- wp _ (bind _ _) _ _ => apply wp_then_kept; intros ? ?
  | |- wp _ (if ?b then _ else _) _ _ => destruct b
  | |- wp _ (let _ := _ in _) _ _ => cbv zeta
  end.

Lemma cmd_bin_kept buf cmd (hash : H) e :
  t_inv hash -> wp anyx (cmd_bin r buf cmd hash) (fun hash' _ => t_inv hash') e.
Proof.
  intros Hi. unfold cmd_bin. cbv zeta. kept. destruct (b_command cmd);
    unfold bin_get, bin_set, bin_checked, bin_apply, bin_delete, bin_unlock_all, bin_quit, bin_flush, bin_keys; kept.
Qed.

Lemma cmd_text_kept buf cmd (hash : H) e :
  t_inv hash -> wp anyx (cmd_text r buf cmd hash) (fun hash' _ => t_inv hash') e.
Proof.
  intros Hi. unfold cmd_text. cbv zeta. kept. destruct (m_command cmd);
    unfold text_set, text_apply, text_cas, text_touch, text_delete, text_lock, text_unlock, text_keys, text_get; kept.
Qed.
End kept.

Section kept_job.
Context (sk : sip_key) (r : request_env) (ck : clock) (u : uninit).
#[local] Instance kept_ops : TableOps (hash_map object) object := hash_map_ops sk object.
#[local] Instance kept_laws : Table (hash_map object) object := hash_map_table sk object.

Lemma unlock_one_kept force k hash e :
  t_inv hash -> wp anyx (unlock_one sk r force k hash) (fun hash' _ => t_inv hash') e.
Proof.
  intros Hi. apply wp_bind. eapply wp_mono; [by apply wp_apply_kept|]. intros [b hash'] e' Hi'. by apply wp_ret.
Qed.

Lemma start_kept (m : M env (hash_map object)) next e :
  wp anyx m (fun hash' _ => t_inv hash') e -> wp anyx (let! h := m in ret (next : work, h)) kept e.
Proof. intros Hm. apply wp_bind. eapply wp_mono; [exact Hm|]. intros h e' Hh. by apply wp_ret. Qed.

Lemma end_of_data_kept rs head hash e : t_inv hash -> wp anyx (end_of_data rs head hash) kept e.
Proof.
  intros Hi. unfold end_of_data, start_unlock. destruct (_ >? _); [apply wp_then_kept; intros l e'|]; by apply wp_ret.
Qed.

Lemma start_bin_kept buf cmd next hash e : t_inv hash -> wp anyx (start_bin sk r buf cmd next hash) kept e.
Proof.
  intros Hi. pose proof (start_kept _ next e (cmd_bin_kept r buf cmd hash e Hi)) as Hwhole.
  unfold start_bin, start_unlock. cbv zeta. case_bool_decide; cbn [negb]; [|exact Hwhole].
  destruct (b_command cmd); try exact Hwhole; repeat (apply wp_then_kept; intros ? ?); by apply wp_ret.
Qed.

Lemma start_text_kept buf cmd next hash e : t_inv hash -> wp anyx (start_text sk r buf cmd next hash) kept e.
Proof.
  intros Hi. pose proof (start_kept _ next e (cmd_text_kept r buf cmd hash e Hi)) as Hwhole.
  unfold start_text, start_unlock. cbv zeta. destruct (m_valid cmd); cbn [negb]; [|exact Hwhole].
  destruct (m_command cmd); try exact Hwhole; repeat (apply wp_then_kept; intros ? ?); by apply wp_ret.
Qed.

Lemma work_step_kept w hash e : t_inv hash -> wp anyx (work_step sk r ck u w hash) kept e.
Proof.
  intros Hi. destruct w as [rs buf|rs head|buf cmd its next|v i fin next|l fin next|p]; cbn [work_step].
  - destruct rs as [|[d| | |] rs]; [by apply wp_ret..| |done]. apply wp_then_kept. intros l e'. by apply wp_ret.
  - unfold proc_step. destruct head as [|b head]; [by apply end_of_data_kept|].
    destruct (is_binary_request b); apply wp_then_kept; intros p e'; cbv zeta;
      (case_match; [by apply end_of_data_kept|]); [by apply start_bin_kept|by apply start_text_kept].
  - destruct its as [|it its]; [apply wp_then_kept; intros ? e'; by apply wp_ret|].
    apply wp_bind. eapply wp_mono; [by apply wp_apply_kept|]. intros [b hash'] e' Hi'.
    apply wp_then_kept. intros ? e2. by apply wp_ret.
  - case_match; apply wp_then_kept; intros ? e'; by apply wp_ret.
  - destruct l as [|k l]; [do 2 (apply wp_then_kept; intros ? ?); by apply wp_ret|].
    apply wp_bind. eapply wp_mono; [by apply unlock_one_kept|]. intros hash' e' Hi'. by apply wp_ret.
  - by apply wp_ret.
Qed.
End kept_job.
