(* ===== verification/MemGC.v ===== *)
(** * Garbage collection of the object table (src/memcache/gc.hpp, gc.cpp)

    [gc_thread::gc] visits every object once: it removes flushed, evicted and
    expired objects, tells the slaves about them, counts the survivors and sends
    them to new slaves.  [gc_thread::run] publishes the counters. *)

From S2P Require Import Prelude CLib MemTypes Table TextRequest BinaryRequest MemState.
From S2P Require Import MemObject Replication.

Import replication.

(** The counters of a [gc_thread]. *)
Record gc_counters := {
  g_objects : Z;
  g_sizes : list Z;          (** [m_objects_under_1k] ... [m_objects_huge], in order *)
  g_used_memory : Z;
  g_conflicts : Z;
  g_oldest_age : Z;
  g_largest_object_size : Z;
  g_last_expirations : Z;
  g_last_evictions : Z;
  g_objects_in_bucket : Z;
  g_flushers : nat           (** the size of [m_flushers] *)
}.

Definition gc_counters_init : gc_counters := {|
  g_objects := 0; g_sizes := replicate 8 0; g_used_memory := 0; g_conflicts := 0;
  g_oldest_age := 0; g_largest_object_size := 0; g_last_expirations := 0;
  g_last_evictions := 0; g_objects_in_bucket := 0; g_flushers := 0 |}.

(** The state of the thread: the process's and its own. *)
Record gc_env := { gc_env_of : env; gc_of : gc_counters }.

Definition lift_env {A} (m : M env A) : M gc_env A := fun s =>
  match m (gc_env_of s) with
  | (x, e) => (x, {| gc_env_of := e; gc_of := gc_of s |})
  end.
Definition upd_gc (f : gc_counters -> gc_counters) : M gc_env unit :=
  modify (fun s => {| gc_env_of := gc_env_of s; gc_of := f (gc_of s) |}).

(** [sizeof(cybozu::hash_key)] and [sizeof(object)] on the x86-64 ABI. *)
Record sizes := { sizeof_hash_key : Z; sizeof_object : Z }.

(** The index of the size class of an object. *)
Definition size_class (size : Z) : nat :=
  if size <? 1024 then 0 else
  if size <? 4096 then 1 else
  if size <? Z.shiftl 16 10 then 2 else
  if size <? Z.shiftl 64 10 then 3 else
  if size <? Z.shiftl 256 10 then 4 else
  if size <? Z.shiftl 1 20 then 5 else
  if size <? Z.shiftl 4 20 then 6 else 7.

Section gc.
Context {H : Type} `{TableOps H object} (r : request_env) (sz : sizes).
(** [std::time(nullptr)], and [m_slaves] (with the new ones) and [m_new_slaves]. *)
Context (time : Z) (slaves new_slaves : list nat).

Definition repl_deleted (k : kref) : M gc_env unit :=
  when (match slaves with [] => false | _ => true end)
    (lift_env (repl_delete slaves (kr_data k))).

(** The counting part of the predicate. *)
Definition count_survivor (klen : Z) (o : object) (c : gc_counters) : gc_counters :=
  let in_bucket := g_objects_in_bucket c + 1 in
  let size := object_size o in
  let used := u64 (g_used_memory c + sizeof_hash_key sz + klen + sizeof_object sz) in
  {| g_objects := u32 (g_objects c + 1);
     g_sizes := alter (fun n => u32 (n + 1)) (size_class size) (g_sizes c);
     g_used_memory := if c_heap_data_limit (r_config r) >=? size then u64 (used + size) else used;
     g_conflicts := if in_bucket =? 2 then u32 (g_conflicts c + 1) else g_conflicts c;
     g_oldest_age := Z.max (g_oldest_age c) (o_gc_old o);
     g_largest_object_size := Z.max (g_largest_object_size c) size;
     g_last_expirations := g_last_expirations c; g_last_evictions := g_last_evictions c;
     g_objects_in_bucket := in_bucket; g_flushers := g_flushers c |}.

Definition count_evicted (c : gc_counters) : gc_counters :=
  {| g_objects := g_objects c; g_sizes := g_sizes c; g_used_memory := g_used_memory c;
     g_conflicts := g_conflicts c; g_oldest_age := g_oldest_age c;
     g_largest_object_size := g_largest_object_size c;
     g_last_expirations := g_last_expirations c;
     g_last_evictions := u32 (g_last_evictions c + 1);
     g_objects_in_bucket := g_objects_in_bucket c; g_flushers := g_flushers c |}.
Definition count_expired (c : gc_counters) : gc_counters :=
  {| g_objects := g_objects c; g_sizes := g_sizes c; g_used_memory := g_used_memory c;
     g_conflicts := g_conflicts c; g_oldest_age := g_oldest_age c;
     g_largest_object_size := g_largest_object_size c;
     g_last_expirations := u32 (g_last_expirations c + 1);
     g_last_evictions := g_last_evictions c;
     g_objects_in_bucket := g_objects_in_bucket c; g_flushers := g_flushers c |}.
Definition set_in_bucket (n : Z) (c : gc_counters) : gc_counters :=
  {| g_objects := g_objects c; g_sizes := g_sizes c; g_used_memory := g_used_memory c;
     g_conflicts := g_conflicts c; g_oldest_age := g_oldest_age c;
     g_largest_object_size := g_largest_object_size c;
     g_last_expirations := g_last_expirations c; g_last_evictions := g_last_evictions c;
     g_objects_in_bucket := n; g_flushers := g_flushers c |}.
Definition set_flushers (n : nat) (c : gc_counters) : gc_counters :=
  {| g_objects := g_objects c; g_sizes := g_sizes c; g_used_memory := g_used_memory c;
     g_conflicts := g_conflicts c; g_oldest_age := g_oldest_age c;
     g_largest_object_size := g_largest_object_size c;
     g_last_expirations := g_last_expirations c; g_last_evictions := g_last_evictions c;
     g_objects_in_bucket := g_objects_in_bucket c; g_flushers := n |}.

(** The predicate given to [bucket::gc]. *)
Definition gc_pred (flush : bool) (evict_age : Z) : handler gc_env object := fun k obj =>
  if flush && negb (locked obj) then repl_deleted k ;;! ret (true, obj) else
  if (evict_age >? 0) && (o_gc_old obj >=? evict_age) && negb (locked obj) then
    upd_gc count_evicted ;;! repl_deleted k ;;! ret (true, obj)
  else
  let! st := gets (fun s => e_stats (gc_env_of s)) in
  if expired (flush_time st) (r_now r) obj then
    upd_gc count_expired ;;! repl_deleted k ;;! ret (true, obj)
  else
  let '(obj, dup) := object_survive obj in
  when dup (upd_gc (fun c => set_flushers (S (g_flushers c)) c)) ;;!
  upd_gc (count_survivor (blen (kr_data k)) obj) ;;!
  let! obj := (match new_slaves with
               | [] => ret obj
               | _ => lift_env (repl_object new_slaves (kr_data k) obj false)
               end) in
  ret (false, obj).

(** Whether this run flushes everything. *)
Definition gc_flush (st : statistics) : bool :=
  negb (flush_time st =? 0) && (time >=? flush_time st).

(** The age from which objects are evicted, or 0. *)
Definition gc_evict_age (st : statistics) : Z :=
  if negb (gc_flush st) && (used_memory st >? c_memory_limit (r_config r)) then
    let one_hour := u32 (3600 / c_gc_interval (r_config r) + 1) in
    if oldest_age st <? u32 (one_hour * 2) then Z.max 1 (oldest_age st / 2)
    else u32 (oldest_age st - one_hour)
  else 0.

(** [gc_thread::gc]. *)
Definition gc (hash : H) : M gc_env H :=
  let! st := gets (fun s => e_stats (gc_env_of s)) in
  let flush := gc_flush st in
  let! hash := t_gc hash (upd_gc (set_in_bucket 0)) (gc_pred flush (gc_evict_age st))
                 (upd_gc (set_flushers 0)) in
  when flush (lift_env (modify (upd_stats (set_flush_time 0)))) ;;!
  ret hash.

(** The stores at the end of [gc_thread::run]; [us] is the elapsed time. *)
Definition publish (c : gc_counters) (us : Z) (s : statistics) : statistics :=
  let size i := default 0 (g_sizes c !! i) in
  {| objects := g_objects c;
     objects_under_1k := size 0%nat; objects_under_4k := size 1%nat;
     objects_under_16k := size 2%nat; objects_under_64k := size 3%nat;
     objects_under_256k := size 4%nat; objects_under_1m := size 5%nat;
     objects_under_4m := size 6%nat; objects_huge := size 7%nat;
     used_memory := g_used_memory c; conflicts := g_conflicts c;
     gc_count := u32 (gc_count s + 1); oldest_age := g_oldest_age c;
     largest_object_size := g_largest_object_size c;
     last_expirations := g_last_expirations c; last_evictions := g_last_evictions c;
     total_evictions := u64 (total_evictions s + g_last_evictions c);
     last_gc_elapsed := us; total_gc_elapsed := u64 (total_gc_elapsed s + us);
     repl_created := repl_created s; repl_updated := repl_updated s;
     repl_removed := repl_removed s; total_objects := total_objects s;
     flush_time := flush_time s; curr_connections := curr_connections s;
     total_connections := total_connections s; text_ops := text_ops s; bin_ops := bin_ops s;
     get_hits := get_hits s; get_misses := get_misses s; cas_hits := cas_hits s;
     cas_misses := cas_misses s; cas_badval := cas_badval s |}.

(** [gc_thread::run], when the virtual address is still there. *)
Definition gc_run (us : Z) (hash : H) : M gc_env H :=
  let! hash := gc hash in
  let! c := gets gc_of in
  lift_env (modify (upd_stats (publish c us))) ;;!
  ret hash.
End gc.
