(* ===== verification/MemGCSpec.v ===== *)
(** * Properties of garbage collection

    Exactly the flushed, evicted and expired objects are removed, a locked object
    never is, the survivors keep their value, and the published number of objects
    is the number of objects that are left. *)

From S2P Require Import Prelude CLib MemTypes Table TextRequest BinaryRequest MemState.
From S2P Require Import MemObject MemObjectSpec Replication MemSocket MemSocketSpec MemGC.

Import replication.

Section spec.
Context {H : Type} `{HT : Table H object} (r : request_env) (sz : sizes).
Context (time : Z) (slaves new_slaves : list nat).

(** The objects that a run removes: what it decided at its start, and the time of the
    flush and of the visit. *)
Definition collects (flush : bool) (evict_age ft now : Z) (o : object) : bool :=
  (flush && negb (locked o)) ||
  ((evict_age >? 0) && (o_gc_old o >=? evict_age) && negb (locked o)) ||
  expired ft now o.

(** The objects this run removes, given the statistics at its start. *)
Definition collected (st : statistics) : object -> bool :=
  collects (gc_flush time st) (gc_evict_age r time st) (flush_time st) (r_now r).

(** What becomes of an entry of the table. *)
Definition gc_outcome (gone : object -> bool) (x x' : option (nat * object)) : Prop :=
  match x with
  | None => x' = None
  | Some (a, o) =>
      if gone o then x' = None
      else exists o', x' = Some (a, o') /\ same_value o o' /\
             (forall cfg, object_inv cfg o -> object_inv cfg o')
  end.
Definition gc_result (st : statistics) : option (nat * object) -> option (nat * object) -> Prop :=
  gc_outcome (collected st).

(** The view of the state that the predicate keeps, and its counter. *)
Definition gc_view (s : gc_env) : Z * list kref := (flush_time (e_stats (gc_env_of s)), e_locks (gc_env_of s)).

(** The part of the table that was visited has changed as it should, the rest has not. *)
Definition gc_loop_map (gone : object -> bool) (m : contents_map) (s0 : gc_env)
    (todo : gset bytes) (m0 : contents_map) (s : gc_env) : Prop :=
  gc_view s = gc_view s0 /\ todo ⊆ dom m0 /\
  (forall k, k ∈ todo -> m0 !! k = m !! k) /\
  (forall k, k ∉ todo -> gc_outcome gone (m !! k) (m0 !! k)).

Definition gc_loop_inv (st : statistics) (m : contents_map) (s0 : gc_env)
    (todo : gset bytes) (m0 : contents_map) (s : gc_env) : Prop :=
  gc_loop_map (collected st) m s0 todo m0 s /\
  g_objects (gc_of s) = u32 (Z.of_nat (size (dom m0 ∖ todo))).

Lemma keeps_lift {V} (view : env -> V) m :
  keeps view m -> keeps (fun s => (view (gc_env_of s), gc_of s)) (lift_env m).
Proof.
  intros Hm s. destruct (Hm (gc_env_of s)) as (e'&He&Hv). exists {| gc_env_of := e'; gc_of := gc_of s |}.
  unfold lift_env. rewrite He. split; [done|]. cbn. by rewrite Hv.
Qed.

Abbreviation env_view := (fun e : env => (flush_time (e_stats e), e_locks e)).
Abbreviation full_view := (fun s : gc_env => (env_view (gc_env_of s), gc_of s)).

Lemma keeps_slaves l iov f : keeps env_view (sendv_slaves l iov f).
Proof. apply keeps_iterM. intros x. by apply keeps_modify. Qed.

Lemma repl_deleted_keeps k : keeps full_view (repl_deleted slaves k).
Proof. unfold repl_deleted. apply keeps_when, (keeps_lift env_view), keeps_slaves. Qed.

(** The predicate as a function of the object. *)
Lemma gc_pred_spec X flush evict_age ft k o s :
  flush_time (e_stats (gc_env_of s)) = ft ->
  wp X (gc_pred r sz slaves new_slaves flush evict_age k o)
    (fun p s' => p.1 = collects flush evict_age ft (r_now r) o /\ gc_view s' = gc_view s /\
       if p.1 then g_objects (gc_of s') = g_objects (gc_of s)
       else g_objects (gc_of s') = u32 (g_objects (gc_of s) + 1) /\ same_value o p.2 /\
            (forall cfg, object_inv cfg o -> object_inv cfg p.2)) s.
Proof.
  intros Hft. unfold gc_pred, collects.
  destruct (flush && negb (locked o)).
  { apply wp_bind. eapply (wp_keeps _ full_view); [apply repl_deleted_keeps|].
    intros s' [= H1 H2 H3]. apply wp_ret. cbn. unfold gc_view. by rewrite H1, H2, H3. }
  destruct ((evict_age >? 0) && _ && negb (locked o)).
  { apply wp_bind, wp_modify, wp_bind. eapply (wp_keeps _ full_view); [apply repl_deleted_keeps|].
    intros s' [= H1 H2 H3]. apply wp_ret. cbn. unfold gc_view. by rewrite H1, H2, H3. }
  apply wp_bind, wp_gets. rewrite Hft. destruct (expired _ _ o).
  { apply wp_bind, wp_modify, wp_bind. eapply (wp_keeps _ full_view); [apply repl_deleted_keeps|].
    intros s' [= H1 H2 H3]. apply wp_ret. cbn. unfold gc_view. by rewrite H1, H2, H3. }
  cbn [object_survive]. apply wp_bind.
  eapply (wp_keeps _ (fun s => (gc_env_of s, g_objects (gc_of s)))); [by apply keeps_when, keeps_modify|].
  intros s1 [= E1 E2]. apply wp_bind, wp_modify, wp_bind.
  set (o1 := with_age (u32 (o_gc_old o + 1)) o).
  assert (same_value o o1 /\ forall cfg, object_inv cfg o -> object_inv cfg o1) as [Hs Hi].
  { split; [done|]. intros cfg. apply with_age_inv, u32_range. }
  assert (forall o2 s2, same_value o o2 -> (forall cfg, object_inv cfg o -> object_inv cfg o2) ->
    full_view s2 = full_view {| gc_env_of := gc_env_of s1;
      gc_of := count_survivor r sz (blen (kr_data k)) o1 (gc_of s1) |} ->
    wp X (ret (false, o2)) (fun p s' => p.1 = false /\ gc_view s' = gc_view s /\
       if p.1 then g_objects (gc_of s') = g_objects (gc_of s)
       else g_objects (gc_of s') = u32 (g_objects (gc_of s) + 1) /\ same_value o p.2 /\
            (forall cfg, object_inv cfg o -> object_inv cfg p.2)) s2) as Hret.
  { intros o2 s2 Hs2 Hi2 [= H1 H2 H3]. apply wp_ret. cbn. unfold gc_view.
    rewrite H1, H2, H3, E1. cbn. by rewrite E2. }
  destruct new_slaves as [|n ns]; [by apply wp_ret, Hret|].
  unfold wp at 1. unfold lift_env, repl_object, bind. cbn [gc_env_of].
  destruct (keeps_slaves (n :: ns) (object_iov (kr_data k) o1) false (gc_env_of s1)) as (e'&He&Hv).
  fold o1. rewrite He. cbn [ret]. apply Hret; [done| |].
  - intros cfg Ho. by apply object_data_inv, Hi.
  - cbn. by injection Hv as -> ->.
Qed.

Lemma gc_map_step (gone : object -> bool) (m m0 : contents_map) (todo : gset bytes) (k : bytes) (a : nat) (o : object)
    (p : bool * object) (s0 s s' : gc_env) :
  k ∈ todo -> m0 !! k = Some (a, o) -> gc_loop_map gone m s0 todo m0 s ->
  p.1 = gone o -> gc_view s' = gc_view s ->
  (p.1 = false -> same_value o p.2 /\ (forall cfg, object_inv cfg o -> object_inv cfg p.2)) ->
  gc_loop_map gone m s0 (todo ∖ {[k]}) (if p.1 then delete k m0 else <[k := (a, p.2)]> m0) s'.
Proof.
  intros Hin Hk (Hv&Hsub&Hsame&Hres) Hb Hv' Hkeep. rewrite Hsame in Hk by done.
  destruct p as [[] o']; cbn [fst snd] in *; (split_and!; [by rewrite Hv'|set_solver| |]).
  - intros k' Hk'. rewrite lookup_delete_ne by set_solver. apply Hsame. set_solver.
  - intros k' Hk'. destruct (decide (k' = k)) as [-> |Hne].
    + rewrite Hk, lookup_delete_eq. cbn. by rewrite <- Hb.
    + rewrite lookup_delete_ne by done. apply Hres. set_solver.
  - intros k' Hk'. rewrite lookup_insert_ne by set_solver. apply Hsame. set_solver.
  - intros k' Hk'. destruct (decide (k' = k)) as [-> |Hne].
    + rewrite Hk, lookup_insert_eq. cbn. rewrite <- Hb. exists o'. by destruct (Hkeep eq_refl).
    + rewrite lookup_insert_ne by done. apply Hres. set_solver.
Qed.

Lemma gc_loop_step X st m s0 todo m0 k a o s :
  flush_time (e_stats (gc_env_of s0)) = flush_time st ->
  k ∈ todo -> m0 !! k = Some (a, o) -> gc_loop_inv st m s0 todo m0 s ->
  wp X (gc_pred r sz slaves new_slaves (gc_flush time st) (gc_evict_age r time st)
          {| kr_addr := a; kr_data := k |} o)
    (fun p s' => gc_loop_inv st m s0 (todo ∖ {[k]})
       (if p.1 then delete k m0 else <[k := (a, p.2)]> m0) s') s.
Proof.
  intros Hft Hin Hk [Hmap Hn]. pose proof Hmap as (Hv&Hsub&_).
  eapply wp_mono; [apply (gc_pred_spec X _ _ (flush_time st))|].
  { rewrite <- Hft. by injection Hv as -> _. }
  intros [b o'] s' (Hb&Hv'&Hrest). split.
  { eapply gc_map_step; [done|done|done|done|done|]. intros Ef. rewrite Ef in Hrest. apply Hrest. }
  cbn [fst snd] in *. destruct b; cbn in Hrest.
  - rewrite Hrest, Hn. do 3 f_equal. set_solver.
  - destruct Hrest as (Hobj&Hs&Hi).
    assert (dom (<[k := (a, o')]> m0) ∖ (todo ∖ {[k]}) = {[k]} ∪ (dom m0 ∖ todo)) as ->.
    { apply set_eq. intros x. destruct (decide (x = k)); set_solver. }
    rewrite size_union by set_solver. rewrite size_singleton, Hobj, Hn. unfold u32.
    rewrite Z.add_mod_idemp_l by lia. f_equal. lia.
Qed.

Lemma gc_loop_frame st m s0 todo m0 s s' :
  gc_env_of s' = gc_env_of s -> g_objects (gc_of s') = g_objects (gc_of s) ->
  gc_loop_inv st m s0 todo m0 s -> gc_loop_inv st m s0 todo m0 s'.
Proof. unfold gc_loop_inv, gc_loop_map, gc_view. by intros -> ->. Qed.

(** What one run does. *)
Record gc_done (st : statistics) (hash : H) (s : gc_env) (hash' : H) (s' : gc_env) : Prop := {
  gd_inv : t_inv hash';
  gd_map : forall k, gc_result st (t_map hash !! k) (t_map hash' !! k);
  gd_count : g_objects (gc_of s') = u32 (Z.of_nat (size (t_map hash')));
  gd_locks : e_locks (gc_env_of s') = e_locks (gc_env_of s);
  gd_flush : flush_time (e_stats (gc_env_of s')) = if gc_flush time st then 0 else flush_time st
}.

Lemma gc_spec X hash s :
  t_inv hash -> g_objects (gc_of s) = 0 ->
  wp X (gc r sz time slaves new_slaves hash)
    (gc_done (e_stats (gc_env_of s)) hash s) s.
Proof.
  intros Hi H0'. unfold gc. apply wp_bind, wp_gets. set (st := e_stats (gc_env_of s)).
  apply wp_bind. eapply wp_mono.
  - apply (t_gc_rule X (gc_loop_inv st (t_map hash) s)); [done| | | |].
    + split; [split_and!; [done|done|done|]|].
      * intros k Hk. by rewrite (proj1 (not_elem_of_dom _ _) Hk).
      * rewrite difference_diag_L, size_empty. by rewrite H0'.
    + intros todo m0 k a o e0 Hin Hk. by apply gc_loop_step.
    + intros todo m0 e0 HI. by apply wp_modify; eapply gc_loop_frame; [| |exact HI].
    + intros todo m0 e0 HI. by apply wp_modify; eapply gc_loop_frame; [| |exact HI].
  - intros hash' s' (Hi'&(Hv&_&_&Hres)&Hn). injection Hv as Hv1 Hv2.
    rewrite difference_empty_L, size_dom in Hn.
    assert (forall k, gc_result st (t_map hash !! k) (t_map hash' !! k)) as Hall
      by (intros k; apply Hres; set_solver).
    unfold when. destruct (gc_flush time st) eqn:Hf.
    + apply wp_bind. unfold wp at 1, lift_env, modify. apply wp_ret.
      constructor; cbn; try done. by rewrite Hf.
    + apply wp_bind, wp_ret, wp_ret. constructor; cbn; try done. by rewrite Hf.
Qed.

(** A locked object is never collected. *)
Lemma locked_not_collects flush age ft now o : locked o = true -> collects flush age ft now o = false.
Proof.
  intros Hl. unfold collects. rewrite Hl, !andb_false_r. by rewrite locked_not_expired.
Qed.

(** What a collection may do to an entry, whatever it decided. *)
Definition gc_change (x x' : option (nat * object)) : Prop :=
  match x with
  | None => x' = None
  | Some (a, o) =>
      (x' = None /\ locked o = false) \/
      exists o', x' = Some (a, o') /\ same_value o o' /\
        (forall cfg, object_inv cfg o -> object_inv cfg o')
  end.

Lemma gc_change_refl x : gc_change x x.
Proof. destruct x as [[a o]|]; [|done]. right. by exists o. Qed.

Lemma gc_outcome_change flush age ft now x x' :
  gc_outcome (collects flush age ft now) x x' -> gc_change x x'.
Proof.
  destruct x as [[a o]|]; [|done]. cbn. destruct (collects _ _ _ _ o) eqn:E; [|by right].
  intros ->. left. split; [done|]. destruct (locked o) eqn:Hl; [|done].
  by rewrite locked_not_collects in E.
Qed.

(** So the connections keep their locks, and locked objects their value. *)
Lemma gc_frame (ctx : Z) (m m' : contents_map) :
  (forall k : bytes, gc_change (m !! k) (m' !! k)) -> ctx <> -1 ->
  frame (-1) m m' /\ forall l, conn_ok ctx m l -> conn_ok ctx m' l.
Proof.
  intros Hres Hctx.
  assert (frame (-1) m m') as Hf.
  { split.
    - intros k a o Hk _ Hl. specialize (Hres k). rewrite Hk in Hres.
      destruct Hres as [[_ Hn]|(o'&Ho'&Hs&_)]; [|by exists o'].
      unfold locked in Hn. by destruct (Z.eqb_spec (o_lock o) (-1)).
    - intros k a o' Hk _ Hl. specialize (Hres k). rewrite Hk in Hres.
      destruct (m !! k) as [[b o]|]; [|done].
      destruct Hres as [[? _]|(o2&[= <- <-]&Hs&_)]; [done|]. by exists o. }
  split; [done|]. intros l. by apply (frame_conn (-1)).
Qed.

Lemma gc_table_ok (cfg : mem_config) (m m' : contents_map) :
  (forall k : bytes, gc_change (m !! k) (m' !! k)) -> table_ok cfg m -> table_ok cfg m'.
Proof.
  intros Hres Ht k a o' Hk. specialize (Hres k). rewrite Hk in Hres.
  destruct (m !! k) as [[b o]|] eqn:Hm; [|done].
  destruct Hres as [[? _]|(o2&[= <- <-]&_&Hi)]; [done|].
  destruct (Ht _ _ _ Hm) as [Ho Hkey]. split; [by apply Hi|done].
Qed.
End spec.
