(* ===== verification/MemSystem.v ===== *)
(** * The memcache service as a state machine

    Connections, identified by their descriptors, run receive jobs and are destroyed; the
    garbage collector runs between them.  Every reachable state is consistent: what a
    connection believes to hold locked is what the table says, and no job or destructor
    fails with an internal error.  Here jobs, destructors and collections are single steps,
    connections have different descriptors and jobs run on valid sockets; MemConc lifts
    these restrictions. *)

From S2P Require Import Prelude CLib MemTypes Table TextRequest TextRequestSpec BinaryRequest.
From S2P Require Import BinaryRequestSpec MemState MemObject MemObjectSpec Response Stats.
From S2P Require Import Replication MemSocket MemSocketSpec MemStream MemGC MemGCSpec Siphash.
From S2P Require Import HashMap HashMapSpec Samples.

Section system.
Context {H : Type} `{HT : Table H object} (cfg : mem_config).

(** The shared state: the table, the statistics, and [m_locks] of every
    connection that has not been destroyed. *)
Record sys := {
  sy_hash : H;
  sy_stats : statistics;
  sy_threshold : severity;
  sy_conns : gmap Z (list kref)
}.

(** The part of it that one connection's job works on. *)
Definition env_of (s : sys) (locks : list kref) : env :=
  {| e_stats := sy_stats s; e_locks := locks; e_out := []; e_threshold := sy_threshold s |}.

Definition after (s : sys) (hash : H) (e : env) (conns : gmap Z (list kref)) : sys :=
  {| sy_hash := hash; sy_stats := e_stats e; sy_threshold := e_threshold e; sy_conns := conns |}.

(** The constructor of [memcache_socket] counts the connection. *)
Definition count_accept (s : statistics) : statistics :=
  set_total_connections (incr64 (total_connections s))
    (set_curr_connections (incr64 (curr_connections s)) s).

(** [on_invalidate], which precedes the destructor, uncounts it. *)
Definition count_invalidate (s : statistics) : statistics :=
  set_curr_connections (u64 (curr_connections s - 1)) s.

Inductive step : sys -> sys -> Prop :=
| step_accept s fd :
    fd <> -1 -> sy_conns s !! fd = None ->
    step s {| sy_hash := sy_hash s; sy_stats := count_accept (sy_stats s);
              sy_threshold := sy_threshold s; sy_conns := <[fd := []]> (sy_conns s) |}
| step_recv s fd locks r ck u pending rs rest hash e :
    sy_conns s !! fd = Some locks -> r_config r = cfg ->
    recvjob r ck u true fd pending rs (sy_hash s) (env_of s locks) = (inr (rest, hash), e) ->
    step s (after s hash e (<[fd := e_locks e]> (sy_conns s)))
| step_destroy s fd locks r hash e :
    sy_conns s !! fd = Some locks -> r_config r = cfg ->
    socket_dtor r (sy_hash s) (env_of s locks) = (inr hash, e) ->
    step s (after s hash (upd_stats count_invalidate e) (delete fd (sy_conns s)))
| step_gc s r sz time slaves new_slaves us hash g :
    r_config r = cfg ->
    gc_run r sz time slaves new_slaves us (sy_hash s)
      {| gc_env_of := env_of s []; gc_of := gc_counters_init |} = (inr hash, g) ->
    step s (after s hash (gc_env_of g) (sy_conns s)).

(** Consistency of the lock bookkeeping with the table. *)
Record sys_ok (s : sys) : Prop := {
  so_inv : t_inv (sy_hash s);
  so_table : table_ok cfg (t_map (sy_hash s));
  so_conn fd locks : sy_conns s !! fd = Some locks ->
    fd <> -1 /\ conn_ok fd (t_map (sy_hash s)) locks;
  so_owner k a o : t_map (sy_hash s) !! k = Some (a, o) ->
    o_lock o = -1 \/ is_Some (sy_conns s !! o_lock o)
}.

Lemma recvjob_ok s fd locks r ck u pending rs :
  sys_ok s -> sy_conns s !! fd = Some locks -> r_config r = cfg ->
  wp (job_exn rs) (recvjob r ck u true fd pending rs (sy_hash s))
    (fun p e => cmd_post (with_context fd r) (sy_hash s) p.2 e) (env_of s locks).
Proof.
  intros [Hi Ht Hc _] Hfd Hr. destruct (Hc fd locks Hfd) as [Hne Hconn].
  apply recv_loop_ok; [done|]. split; [done|]. split; [done|]. cbn. by rewrite Hr.
Qed.

Lemma socket_dtor_ok s fd locks r X :
  sys_ok s -> sy_conns s !! fd = Some locks ->
  wp X (socket_dtor r (sy_hash s))
    (fun hash e => e = env_of s locks /\ t_inv hash /\ conn_ok fd (t_map hash) [] /\
       table_ok cfg (t_map hash) /\ frame fd (t_map (sy_hash s)) (t_map hash)) (env_of s locks).
Proof.
  intros [Hi Ht Hc _] Hfd. destruct (Hc fd locks Hfd) as [Hne Hconn].
  apply wp_bind, wp_gets. apply unlock_each_ok; try done. by left.
Qed.

(** The connections other than [fd] after a step of [fd]. *)
Lemma frame_sys s fd hash conns' :
  sys_ok s -> t_inv hash -> table_ok cfg (t_map hash) ->
  frame fd (t_map (sy_hash s)) (t_map hash) ->
  (forall fd' locks, conns' !! fd' = Some locks -> fd' <> fd -> sy_conns s !! fd' = Some locks) ->
  (forall fd', fd' <> fd -> is_Some (sy_conns s !! fd') -> is_Some (conns' !! fd')) ->
  (forall locks, conns' !! fd = Some locks -> fd <> -1 /\ conn_ok fd (t_map hash) locks) ->
  (conns' !! fd = None -> conn_ok fd (t_map hash) []) ->
  forall st th, sys_ok {| sy_hash := hash; sy_stats := st; sy_threshold := th; sy_conns := conns' |}.
Proof.
  intros [Hi0 Ht0 Hc0 Ho0] Hi Ht Hf Hother Hdom Hself Hgone st th.
  constructor; cbn; [done|done| |].
  - intros fd' locks Hl. destruct (decide (fd' = fd)) as [-> |Hne]; [by apply Hself|].
    destruct (Hc0 fd' locks (Hother _ _ Hl Hne)) as [Hm Hc]. split; [done|].
    by apply (frame_conn fd fd' (t_map (sy_hash s))).
  - intros k a o Hk. destruct (decide (o_lock o = -1)) as [|Hl]; [by left|]. right.
    destruct (decide (o_lock o = fd)) as [Efd|Hne].
    + rewrite Efd. destruct (conns' !! fd) eqn:Ec; [by eexists|]. exfalso.
      destruct (Hgone eq_refl) as [_ Hlk].
      assert ({| kr_addr := a; kr_data := k |} ∈ []) as Hin by (apply Hlk; by exists o).
      by apply elem_of_nil in Hin.
    + destruct Hf as [_ Hback]. destruct (Hback k a o Hk Hne Hl) as (o0&Hk0&_&_&_&Elock).
      rewrite Elock. apply Hdom; [congruence|]. destruct (Ho0 k a o0 Hk0) as [|?]; [congruence|done].
Qed.

Lemma gc_run_ok r sz time slaves new_slaves us s X :
  sys_ok s ->
  wp X (gc_run r sz time slaves new_slaves us (sy_hash s))
    (fun hash g => t_inv hash /\
       (forall k, gc_result r time (sy_stats s) (t_map (sy_hash s) !! k) (t_map hash !! k)) /\
       objects (e_stats (gc_env_of g)) = u32 (Z.of_nat (size (t_map hash))))
    {| gc_env_of := env_of s []; gc_of := gc_counters_init |}.
Proof.
  intros [Hi _ _ _]. unfold gc_run. apply wp_bind. eapply wp_mono; [by apply gc_spec|].
  intros hash g [Hi' Hm Hn _ _]. apply wp_bind, wp_gets, wp_bind.
  unfold wp at 1, lift_env, modify. apply wp_ret. by split.
Qed.

Lemma step_ok s s' : sys_ok s -> step s s' -> sys_ok s'.
Proof.
  intros Hok Hst. destruct Hst as [s fd Hne Hfd|s fd locks r ck u pending rs rest hash e Hfd Hr Hj
    |s fd locks r hash e Hfd Hr Hd|s r sz time sl nsl us hash g Hr Hg].
  - destruct Hok as [Hi Ht Hc Ho].
    apply (frame_sys s fd); try done; [apply frame_refl| | | |].
    + intros fd' l Hl Hd. by rewrite lookup_insert_ne in Hl.
    + intros fd' Hd Hl. by rewrite lookup_insert_ne.
    + intros l Hl. rewrite lookup_insert_eq in Hl. injection Hl as <-. split; [done|].
      split; [constructor|]. intros k. rewrite elem_of_nil. split; [done|].
      intros (o&Hk&Hl). destruct (Ho _ _ _ Hk) as [E|E]; [congruence|].
      rewrite Hl, Hfd in E. by destruct E.
    + intros Hn. by rewrite lookup_insert_eq in Hn.
  - pose proof (recvjob_ok s fd locks r ck u pending rs Hok Hfd Hr) as Hw.
    unfold wp in Hw. rewrite Hj in Hw. destruct Hw as [(Hi&Hc&Ht) Hf]. cbn in *. rewrite Hr in Ht.
    destruct (so_conn s Hok fd locks Hfd) as [Hne _].
    apply (frame_sys s fd); try done.
    + intros fd' l Hl Hd. by rewrite lookup_insert_ne in Hl.
    + intros fd' Hd Hl. by rewrite lookup_insert_ne.
    + intros l Hl. rewrite lookup_insert_eq in Hl. by injection Hl as <-.
    + intros Hn. by rewrite lookup_insert_eq in Hn.
  - pose proof (socket_dtor_ok s fd locks r no_exn Hok Hfd) as Hw.
    unfold wp in Hw. rewrite Hd in Hw. destruct Hw as (->&Hi&Hc&Ht&Hf).
    apply (frame_sys s fd); try done.
    + intros fd' l Hl Hne. by rewrite lookup_delete_ne in Hl.
    + intros fd' Hne Hl. by rewrite lookup_delete_ne.
    + intros l Hl. by rewrite lookup_delete_eq in Hl.
  - pose proof (gc_run_ok r sz time sl nsl us s no_exn Hok) as Hw.
    unfold wp in Hw. rewrite Hg in Hw. destruct Hw as (Hi&Hres&_).
    assert (forall k, gc_change (t_map (sy_hash s) !! k) (t_map hash !! k)) as Hch
      by (intros k; exact (gc_outcome_change _ _ _ _ _ _ (Hres k))).
    destruct Hok as [_ Ht Hc Ho]. constructor; cbn; [done|by apply (gc_table_ok _ _ _ Hch)| |].
    + intros fd l Hl. destruct (Hc fd l Hl) as [Hne Hcn]. split; [done|].
      by apply (gc_frame fd _ _ Hch Hne).
    + intros k a o' Hk. specialize (Hch k). rewrite Hk in Hch.
      destruct (t_map (sy_hash s) !! k) as [[b o]|] eqn:Hm; [|done].
      destruct Hch as [[? _]|(o2&[= <- <-]&Hs&_)]; [done|].
      destruct Hs as (?&?&?&El). rewrite El. by eapply Ho.
Qed.

(** The service when it starts: an empty table and no connection. *)
Definition initial (s : sys) : Prop :=
  t_inv (sy_hash s) /\ t_map (sy_hash s) = ∅ /\ sy_conns s = ∅.

Lemma initial_ok s : initial s -> sys_ok s.
Proof.
  intros (Hi&Hm&Hc). constructor; [done| | |].
  - intros k a o Hk. by rewrite Hm in Hk.
  - intros fd locks Hl. by rewrite Hc in Hl.
  - intros k a o Hk. by rewrite Hm in Hk.
Qed.

Lemma reachable_sys_ok s0 s : initial s0 -> rtc step s0 s -> sys_ok s.
Proof.
  intros Hini Hr. pose proof (initial_ok s0 Hini) as Hok. clear Hini.
  induction Hr as [|x y z Hst _ IH]; [done|]. by apply IH, (step_ok x).
Qed.

(** ** Theorems *)

Context (s0 s : sys).
Hypothesis (Hini : initial s0) (Hreach : rtc step s0 s).

(** Locks have one owner.  In every state reachable by accepting
    connections, running receive jobs, destroying connections and collecting
    garbage, a locked object is in the lock list of the live connection whose
    descriptor is its lock, and in no other connection's list. *)
Theorem lock_owner k a o :
  t_map (sy_hash s) !! k = Some (a, o) -> locked o = true ->
  (exists locks, sy_conns s !! o_lock o = Some locks /\ {| kr_addr := a; kr_data := k |} ∈ locks) /\
  (forall fd locks, sy_conns s !! fd = Some locks -> {| kr_addr := a; kr_data := k |} ∈ locks ->
     fd = o_lock o).
Proof using HT Hini Hreach.
  intros Hk Hl. destruct (reachable_sys_ok s0 s Hini Hreach) as [_ _ Hc Ho]. split.
  - destruct (Ho k a o Hk) as [E|[locks Hlk]]; [unfold locked in Hl; by rewrite E in Hl|].
    exists locks. split; [done|]. destruct (Hc _ _ Hlk) as [_ [_ Hin]]. apply Hin. by exists o.
  - intros fd locks Hlk Hin. destruct (Hc _ _ Hlk) as [_ [_ Hiff]].
    apply Hiff in Hin as (o'&Hk'&<-). cbn in Hk'. congruence.
Qed.

(** Jobs do not fail.  In every reachable state the receive job of a live
    connection terminates, whatever bytes it receives in whatever segments, and
    none of the internal checks ([object::lock], [object::unlock],
    [remove_lock]) raises an exception; the one way out that is left is the text
    parser's read past the received bytes, or an error of [::recv]. *)
Theorem job_never_fails fd locks r ck u pending rs :
  sy_conns s !! fd = Some locks -> r_config r = cfg ->
  match (recvjob r ck u true fd pending rs (sy_hash s) (env_of s locks)).1 with
  | inr _ => True
  | inl x => job_exn rs x
  end.
Proof using HT Hini Hreach.
  intros Hfd Hr. pose proof (recvjob_ok s fd locks r ck u pending rs
    (reachable_sys_ok s0 s Hini Hreach) Hfd Hr) as Hw.
  unfold wp in Hw. by destruct (recvjob _ _ _ _ _ _ _ _ _) as [[?|?] ?].
Qed.

(** Locks protect values.  In a reachable state, a receive job of one
    connection leaves every object locked by another connection in the table,
    with its contents, flags, CAS value and lock. *)
Theorem job_respects_locks fd locks r ck u pending rs rest hash e k a o :
  sy_conns s !! fd = Some locks -> r_config r = cfg ->
  recvjob r ck u true fd pending rs (sy_hash s) (env_of s locks) = (inr (rest, hash), e) ->
  t_map (sy_hash s) !! k = Some (a, o) -> locked o = true -> o_lock o <> fd ->
  exists o', t_map hash !! k = Some (a, o') /\ same_value o o'.
Proof using HT Hini Hreach.
  intros Hfd Hr Hj Hk Hl Hne. pose proof (recvjob_ok s fd locks r ck u pending rs
    (reachable_sys_ok s0 s Hini Hreach) Hfd Hr) as Hw.
  unfold wp in Hw. rewrite Hj in Hw. destruct Hw as [_ [Hf _]]. cbn in Hf.
  apply (Hf k a o Hk Hne). intros E. unfold locked in Hl. by rewrite E in Hl.
Qed.

(** The destructor releases.  In a reachable state the destructor of a
    connection completes without an exception; afterwards no object is locked by
    its descriptor, and objects locked by the other connections are untouched. *)
Theorem dtor_releases fd locks r :
  sy_conns s !! fd = Some locks ->
  exists hash e, socket_dtor r (sy_hash s) (env_of s locks) = (inr hash, e) /\
    (forall k a o, t_map hash !! k = Some (a, o) -> o_lock o <> fd) /\
    frame fd (t_map (sy_hash s)) (t_map hash).
Proof using HT Hini Hreach.
  intros Hfd. pose proof (socket_dtor_ok s fd locks r no_exn
    (reachable_sys_ok s0 s Hini Hreach) Hfd) as Hw. unfold wp in Hw.
  destruct (socket_dtor _ _ _) as [[x|hash] e]; [done|]. destruct Hw as (->&_&[_ Hin]&_&Hf).
  eexists _, _. split; [done|]. split; [|done]. intros k a o Hk El.
  assert ({| kr_addr := a; kr_data := k |} ∈ []) as Hx by (apply Hin; by exists o).
  by apply elem_of_nil in Hx.
Qed.

(** Stored objects are well formed.  In every reachable state the data of
    every object is in memory or in its file according to the limit, with the
    recorded length, and every key has a legal length. *)
Theorem reachable_objects k a o :
  t_map (sy_hash s) !! k = Some (a, o) -> object_inv cfg o /\ blen k <= MAX_KEY_LENGTH.
Proof using HT Hini Hreach. apply (so_table _ (reachable_sys_ok s0 s Hini Hreach)). Qed.

(** Garbage collection is exact.  A collection in a reachable state
    completes; it removes exactly the flushed, evicted and expired objects, the
    others keep their place, value and lock, and the published number of objects
    is the number of objects that are left. *)
Theorem gc_exact r sz time slaves new_slaves us :
  exists hash g,
    gc_run r sz time slaves new_slaves us (sy_hash s)
      {| gc_env_of := env_of s []; gc_of := gc_counters_init |} = (inr hash, g) /\
    (forall k, gc_result r time (sy_stats s) (t_map (sy_hash s) !! k) (t_map hash !! k)) /\
    objects (e_stats (gc_env_of g)) = u32 (Z.of_nat (size (t_map hash))).
Proof using HT Hini Hreach.
  pose proof (gc_run_ok r sz time slaves new_slaves us s no_exn
    (reachable_sys_ok s0 s Hini Hreach)) as Hw. unfold wp in Hw.
  destruct (gc_run _ _ _ _ _ _ _ _) as [[x|hash] g]; [done|]. destruct Hw as (_&?&?). by eexists _, _.
Qed.
End system.

(** ** A run of the service

    Two connections; the first stores an object, locks it and stores another. *)

Abbreviation sample_state := (sys (H := sample_table)).

Definition sample_start : sample_state :=
  {| sy_hash := sample_empty; sy_stats := stats_reset; sy_threshold := sev_info; sy_conns := ∅ |}.
Definition sample_accept (fd : Z) (s : sample_state) : sample_state :=
  {| sy_hash := sy_hash s; sy_stats := count_accept (sy_stats s);
     sy_threshold := sy_threshold s; sy_conns := <[fd := []]> (sy_conns s) |}.


Definition line (s : string) : bytes := lit s ++ [x0d; x0a].
Definition sample_input : received :=
  recv_ok (line "set a 1 0 2" ++ line "xy" ++ line "lock a" ++ line "set b 0 0 1" ++ line "z").

Definition sample_job (fd : Z) (rs : list received) (s : sample_state) : option sample_state :=
  locks ← sy_conns s !! fd;
  match recvjob (sample_request 0 []) sample_clock sample_u true fd [] rs (sy_hash s)
          (env_of s locks) with
  | (inr (_, hash), e) => Some (after s hash e (<[fd := e_locks e]> (sy_conns s)))
  | _ => None
  end.

Lemma sample_job_step fd rs (s s' : sample_state) :
  sample_job fd rs s = Some s' -> step sample_config s s'.
Proof.
  unfold sample_job. destruct (sy_conns s !! fd) as [locks|] eqn:Hfd; [|done]. cbn [mbind option_bind].
  destruct (recvjob _ _ _ _ _ _ _ _ _) as [[x|[rest hash]] e] eqn:Hj; [done|]. intros [= <-].
  by eapply step_recv; [exact Hfd| |exact Hj].
Qed.

Definition sample_sys : sample_state :=
  default sample_start
    (sample_job 5 [sample_input] (sample_accept 6 (sample_accept 5 sample_start))).

Lemma sample_initial : initial sample_start.
Proof. split_and!; [by apply ctor_inv|apply ctor_map|done]. Qed.

Lemma sample_reachable : rtc (step sample_config) sample_start sample_sys.
Proof.
  eapply rtc_l; [by apply (step_accept _ sample_start 5)|].
  eapply rtc_l; [by apply (step_accept _ (sample_accept 5 sample_start) 6)|].
  apply rtc_once, (sample_job_step 5 [sample_input]).
  vm_compute. reflexivity.
Qed.

(** The object that the first connection has locked. *)
Definition sample_locked : object :=
  {| o_length := 2; o_data := lit "xy"; o_file := None; o_flags := 1; o_exptime := 0; o_cas := 1;
     o_gc_old := 0; o_lock := 5 |}.

Lemma sample_lookup : t_map (sy_hash sample_sys) !! lit "a" = Some (0%nat, sample_locked).
Proof. vm_compute. reflexivity. Qed.

Lemma sample_conn5 : sy_conns sample_sys !! 5 = Some [{| kr_addr := 0; kr_data := lit "a" |}].
Proof. vm_compute. reflexivity. Qed.

Lemma sample_conn6 : sy_conns sample_sys !! 6 = Some [].
Proof. vm_compute. reflexivity. Qed.

Lemma lock_owner_witness :
  (exists locks, sy_conns sample_sys !! 5 = Some locks /\
     {| kr_addr := 0; kr_data := lit "a" |} ∈ locks) /\
  (forall fd locks, sy_conns sample_sys !! fd = Some locks ->
     {| kr_addr := 0; kr_data := lit "a" |} ∈ locks -> fd = 5).
Proof.
  apply (lock_owner sample_config sample_start sample_sys sample_initial sample_reachable
           (lit "a") 0 sample_locked); [exact sample_lookup|reflexivity].
Defined.

Lemma job_never_fails_witness :
  match (recvjob (sample_request 0 []) sample_clock sample_u true 6 []
           [recv_ok (line "delete a")] (sy_hash sample_sys) (env_of sample_sys [])).1 with
  | inr _ => True
  | inl x => job_exn [recv_ok (line "delete a")] x
  end.
Proof.
  apply (job_never_fails sample_config sample_start sample_sys sample_initial sample_reachable);
    [exact sample_conn6|reflexivity].
Defined.

(** The second connection tries to delete and to overwrite the locked object. *)
Definition sample_attack : list received :=
  [recv_ok (line "delete a" ++ line "set a 0 0 1" ++ line "w")].

Lemma job_respects_locks_witness :
  exists rest hash e,
    recvjob (sample_request 0 []) sample_clock sample_u true 6 [] sample_attack
      (sy_hash sample_sys) (env_of sample_sys []) = (inr (rest, hash), e) /\
    exists o', t_map hash !! lit "a" = Some (0%nat, o') /\ same_value sample_locked o'.
Proof.
  destruct (recvjob (sample_request 0 []) sample_clock sample_u true 6 [] sample_attack
      (sy_hash sample_sys) (env_of sample_sys [])) as [[x|[rest hash]] e] eqn:Hj;
    [vm_compute in Hj; discriminate|].
  exists rest, hash, e. split; [reflexivity|].
  apply (job_respects_locks sample_config sample_start sample_sys sample_initial sample_reachable
           6 [] (sample_request 0 []) sample_clock sample_u [] sample_attack rest hash e
           (lit "a") 0 sample_locked);
    [exact sample_conn6|reflexivity|exact Hj|exact sample_lookup|reflexivity|discriminate].
Defined.

Lemma dtor_releases_witness :
  exists hash e, socket_dtor (sample_request 0 []) (sy_hash sample_sys)
      (env_of sample_sys [{| kr_addr := 0; kr_data := lit "a" |}]) = (inr hash, e) /\
    (forall k a o, t_map hash !! k = Some (a, o) -> o_lock o <> 5) /\
    frame 5 (t_map (sy_hash sample_sys)) (t_map hash).
Proof.
  apply (dtor_releases sample_config sample_start sample_sys sample_initial sample_reachable).
  exact sample_conn5.
Defined.

Lemma reachable_objects_witness : object_inv sample_config sample_locked /\ blen (lit "a") <= MAX_KEY_LENGTH.
Proof.
  apply (reachable_objects sample_config sample_start sample_sys sample_initial sample_reachable
           (lit "a") 0 sample_locked).
  exact sample_lookup.
Defined.

Lemma gc_exact_witness :
  exists hash g,
    gc_run (sample_request 0 []) {| sizeof_hash_key := 16; sizeof_object := 80 |} 1000 [] [] 1
      (sy_hash sample_sys) {| gc_env_of := env_of sample_sys []; gc_of := gc_counters_init |} =
      (inr hash, g) /\
    (forall k, gc_result (sample_request 0 []) 1000 (sy_stats sample_sys)
       (t_map (sy_hash sample_sys) !! k) (t_map hash !! k)) /\
    objects (e_stats (gc_env_of g)) = u32 (Z.of_nat (size (t_map hash))).
Proof.
  apply (gc_exact sample_config sample_start sample_sys sample_initial sample_reachable).
Defined.
