(* ===== verification/MemConc.v ===== *)
(** * The memcache service with all its threads

    Receive jobs of different connections, destructors and the collector run at the same
    time.  Here every step is one critical section of the table with the code around
    it: a step of MemWork, one iteration of the loop of a destructor, or one bucket of a
    collection ([bucket::gc] holds the bucket's mutex; between buckets anything may
    happen).  The clock may have any value at every step.  Sockets are invalidated at any
    time, their descriptor numbers are given to new sockets before they are destructed,
    and jobs may start on invalid sockets. *)

From S2P Require Import Prelude CLib Siphash Table HashMap HashMapSpec MemTypes TextRequest.
From S2P Require Import TextRequestSpec BinaryRequest MemState MemObject MemObjectSpec Response.
From S2P Require Import Stats Replication MemSocket MemSocketSpec MemGC MemGCSpec MemSystem.
From S2P Require Import BucketVisit MemWork MemWorkSpec Samples.

Section conc.
Context (sk : sip_key) (cfg : mem_config).
#[local] Instance conc_ops : TableOps (hash_map object) object := hash_map_ops sk object.
#[local] Instance conc_laws : Table (hash_map object) object := hash_map_table sk object.
Abbreviation table := (hash_map object).

(** ** States *)

(** A socket between jobs, in a receive job (with the settings the job started
    with), or in its destructor, with the references it has yet to release. *)
Inductive activity :=
| idle (pending : bytes)
| working (r : request_env) (w : work)
| dying (l : list kref).

(** [m_fd], [m_valid], [m_locks] and what is done with the socket.  The descriptor of a
    socket that is no longer valid may be closed at any time (resource::try_close). *)
Record conn := { cn_fd : Z; cn_valid : bool; cn_locks : list kref; cn_act : activity }.

Definition new_conn (fd : Z) : conn :=
  {| cn_fd := fd; cn_valid := true; cn_locks := []; cn_act := idle [] |}.
Definition invalidated (c : conn) : conn :=
  {| cn_fd := cn_fd c; cn_valid := false; cn_locks := cn_locks c; cn_act := cn_act c |}.

(** A collection in progress: what it decided at its start, and the next bucket. *)
Record gc_task := {
  gt_env : request_env;
  gt_sizes : sizes;
  gt_slaves : list nat;
  gt_new_slaves : list nat;
  gt_flush : bool;
  gt_evict_age : Z;
  gt_next : nat;
  gt_counters : gc_counters
}.

Record csys := {
  cs_hash : table;
  cs_stats : statistics;
  cs_threshold : severity;
  cs_conns : gmap nat conn;             (** by socket object; descriptor numbers are reused *)
  cs_gc : option gc_task;
  cs_out : list output                  (** what has been sent, in the order of the steps *)
}.

Definition cs_env (s : csys) (locks : list kref) : env :=
  {| e_stats := cs_stats s; e_locks := locks; e_out := cs_out s; e_threshold := cs_threshold s |}.

(** The socket [c] after a step that leaves [e], and the state with it. *)
Definition conn_after (c : conn) (e : env) (act : activity) : conn :=
  {| cn_fd := cn_fd c; cn_valid := cn_valid c; cn_locks := e_locks e; cn_act := act |}.
Definition conn_next (s : csys) (id : nat) (c : conn) (hash : table) (e : env) (act : activity) : csys :=
  {| cs_hash := hash; cs_stats := e_stats e; cs_threshold := e_threshold e;
     cs_conns := <[id := conn_after c e act]> (cs_conns s);
     cs_gc := cs_gc s; cs_out := e_out e |}.

Definition gc_next (s : csys) (hash : table) (e : env) (g : option gc_task) : csys :=
  {| cs_hash := hash; cs_stats := e_stats e; cs_threshold := e_threshold e;
     cs_conns := cs_conns s; cs_gc := g; cs_out := e_out e |}.

(** The same job at another time. *)
Definition same_job (r r' : request_env) : Prop :=
  r_config r' = r_config r /\ r_context r' = r_context r /\ r_slaves r' = r_slaves r.

(** ** The collector *)

(** The beginning of [gc_thread::gc]. *)
Definition gc_begin (r : request_env) (sz : sizes) (time : Z) (slaves new_slaves : list nat)
    (st : statistics) : gc_task :=
  {| gt_env := r; gt_sizes := sz; gt_slaves := slaves; gt_new_slaves := new_slaves;
     gt_flush := gc_flush time st; gt_evict_age := gc_evict_age r time st; gt_next := 0;
     gt_counters := gc_counters_init |}.

(** One iteration of its loop. *)
Definition gc_visit (r : request_env) (g : gc_task) (hash : table) : M gc_env table :=
  map_gc_at (upd_gc (set_in_bucket 0))
    (gc_pred r (gt_sizes g) (gt_slaves g) (gt_new_slaves g) (gt_flush g) (gt_evict_age g))
    (upd_gc (set_flushers 0)) hash (gt_next g).

Definition gc_advance (g : gc_task) (c : gc_counters) : gc_task :=
  {| gt_env := gt_env g; gt_sizes := gt_sizes g; gt_slaves := gt_slaves g;
     gt_new_slaves := gt_new_slaves g; gt_flush := gt_flush g; gt_evict_age := gt_evict_age g;
     gt_next := S (gt_next g); gt_counters := c |}.

(** Its end, and the rest of [gc_thread::run]. *)
Definition gc_finish (g : gc_task) (us : Z) (st : statistics) : statistics :=
  publish (gt_counters g) us (if gt_flush g then set_flush_time 0 st else st).

(** ** Steps *)

(** The lock context of a job: [with_fd] sets it to the descriptor if the socket is valid; if
    not, it stays that of the thread's previous job. *)
Definition start_env (c : conn) (r : request_env) : request_env :=
  if cn_valid c then with_context (cn_fd c) r else r.

(** [receive] on a socket that is no longer valid reports a reset. *)
Definition receives (c : conn) (w : work) : work :=
  match w with
  | w_recv rs buf => if cn_valid c then w_recv rs buf else w_recv [recv_reset] buf
  | w => w
  end.

(** Who acts: a worker or a destructor for a socket, the reactor (or whoever else
    invalidates a socket), the collector.  When a job invalidates its own socket, by
    [invalidate_and_close] or a reset, this is a step of its own after that of the job. *)
Inductive actor := by_conn (id : nat) | by_reactor | by_gc.

Inductive cstep : actor -> csys -> csys -> Prop :=
| c_accept s id fd :
    0 <= fd -> cs_conns s !! id = None ->
    (forall id' c, cs_conns s !! id' = Some c -> cn_fd c = fd -> cn_valid c = false) ->
    cstep by_reactor s
      (conn_next s id (new_conn fd) (cs_hash s) (upd_stats count_accept (cs_env s [])) (idle []))
| c_start s id c pending r rs :
    cs_conns s !! id = Some c -> cn_act c = idle pending -> r_config r = cfg ->
    cstep (by_conn id) s
      (conn_next s id c (cs_hash s) (cs_env s (cn_locks c)) (working (start_env c r) (w_recv rs pending)))
| c_work s id c r r' ck u w w' hash e :
    cs_conns s !! id = Some c -> cn_act c = working r w -> same_job r r' ->
    work_step sk r' ck u (receives c w) (cs_hash s) (cs_env s (cn_locks c)) = (inr (w', hash), e) ->
    cstep (by_conn id) s (conn_next s id c hash e (working r w'))
| c_finish s id c r pending :
    cs_conns s !! id = Some c -> cn_act c = working r (w_done pending) ->
    cstep (by_conn id) s (conn_next s id c (cs_hash s) (cs_env s (cn_locks c)) (idle pending))
| c_invalidate s id c :
    cs_conns s !! id = Some c -> cn_valid c = true ->
    cstep by_reactor s
      (conn_next s id (invalidated c) (cs_hash s) (upd_stats count_invalidate (cs_env s (cn_locks c))) (cn_act c))
| c_destroy s id c pending :
    cs_conns s !! id = Some c -> cn_valid c = false -> cn_act c = idle pending ->
    cstep (by_conn id) s (conn_next s id c (cs_hash s) (cs_env s (cn_locks c)) (dying (cn_locks c)))
| c_release s id c k l r hash e :
    cs_conns s !! id = Some c -> cn_act c = dying (k :: l) -> r_config r = cfg ->
    unlock_one sk r true k (cs_hash s) (cs_env s (cn_locks c)) = (inr hash, e) ->
    cstep (by_conn id) s (conn_next s id c hash e (dying l))
| c_gone s id c :
    cs_conns s !! id = Some c -> cn_act c = dying [] ->
    cstep (by_conn id) s
      {| cs_hash := cs_hash s; cs_stats := cs_stats s; cs_threshold := cs_threshold s;
         cs_conns := delete id (cs_conns s); cs_gc := cs_gc s; cs_out := cs_out s |}
| c_gc_begin s r sz time slaves new_slaves :
    cs_gc s = None -> r_config r = cfg ->
    cstep by_gc s
      (gc_next s (cs_hash s) (cs_env s []) (Some (gc_begin r sz time slaves new_slaves (cs_stats s))))
| c_gc_visit s g r hash e :
    cs_gc s = Some g -> (gt_next g < length (m_buckets (cs_hash s)))%nat -> same_job (gt_env g) r ->
    gc_visit r g (cs_hash s) {| gc_env_of := cs_env s []; gc_of := gt_counters g |} = (inr hash, e) ->
    cstep by_gc s (gc_next s hash (gc_env_of e) (Some (gc_advance g (gc_of e))))
| c_gc_end s g us :
    cs_gc s = Some g -> (length (m_buckets (cs_hash s)) <= gt_next g)%nat ->
    cstep by_gc s (gc_next s (cs_hash s) (upd_stats (gc_finish g us) (cs_env s [])) None).

Definition any_step (s s' : csys) : Prop := exists a, cstep a s s'.

(** ** Orderly runs

    [c_accept] gives a new connection any number that no valid socket has, as the kernel
    does: that of a socket which is invalid and closed, but still locks objects or has a job
    that does.  [c_start] may start a job on a socket that has been invalidated after the
    reactor found it readable.  In both cases objects change hands or exceptions are thrown
    (see [reuse_fails] and [late_job_fails] of MemConcSpec); the other steps are orderly. *)

(** The references that a connection still holds. *)
Definition holds (c : conn) : list kref :=
  match cn_act c with
  | idle _ => cn_locks c
  | working _ w => held w (cn_locks c)
  | dying l => l
  end.

(** A job that will execute no more requests if its socket is invalid. *)
Definition spent (w : work) : bool :=
  match w with w_recv _ _ | w_done _ | w_unlock _ _ (w_done _) => true | _ => false end.

(** An invalid socket that holds no object and whose job will not lock any. *)
Definition inert (c : conn) : bool :=
  negb (cn_valid c) && match holds c with [] => true | _ => false end &&
  match cn_act c with working _ w => spent w | _ => true end.

(** A new socket does not have the descriptor number of one that is not inert. *)
Definition fresh_descriptor (s s' : csys) : Prop := forall id c',
  cs_conns s !! id = None -> cs_conns s' !! id = Some c' ->
  forall id' c, cs_conns s !! id' = Some c -> cn_fd c = cn_fd c' -> inert c = true.

(** A job starts on a valid socket, or on one that has locked nothing. *)
Definition prompt_job (s s' : csys) : Prop := forall id c c' p r w,
  cs_conns s !! id = Some c -> cn_act c = idle p ->
  cs_conns s' !! id = Some c' -> cn_act c' = working r w ->
  cn_valid c = true \/ cn_locks c = [].

Definition orderly (a : actor) (s s' : csys) : Prop :=
  cstep a s s' /\ fresh_descriptor s s' /\ prompt_job s s'.
Definition orderly_step (s s' : csys) : Prop := exists a, orderly a s s'.

(** The service when it starts. *)
Definition cs_initial (s : csys) : Prop :=
  t_inv (cs_hash s) /\ t_map (cs_hash s) = ∅ /\ cs_conns s = ∅ /\ cs_gc s = None.
End conc.
