(* ===== verification/MemConcSpec.v ===== *)
(** * Invariants of the service under every interleaving

    Every state that orderly steps of MemConc reach is consistent: a locked object belongs
    to exactly one socket, steps fail at most by the overread of the text parser and by
    errors of [::recv], and what a socket has locked stays as it is until the socket itself
    acts.  In disorderly runs none of this holds ([reuse_fails], [late_job_fails]).  In all
    runs a collection does to every object exactly what it should at the moment of its
    visit. *)

From S2P Require Import Prelude CLib Siphash Table HashMap HashMapSpec MemTypes TextRequest.
From S2P Require Import TextRequestSpec BinaryRequest MemState MemObject MemObjectSpec Response.
From S2P Require Import Stats Replication MemSocket MemSocketSpec MemGC MemGCSpec MemSystem.
From S2P Require Import BucketVisit MemWork MemWorkSpec MemConc Samples.

Section spec.
Context (sk : sip_key) (cfg : mem_config).
#[local] Instance cspec_ops : TableOps (hash_map object) object := hash_map_ops sk object.
#[local] Instance cspec_laws : Table (hash_map object) object := hash_map_table sk object.
Abbreviation table := (hash_map object).
Abbreviation hk := (make_hash_key sk).

(** ** The visit of a bucket *)

Lemma gc_visit_ok X r g hash s :
  t_inv hash -> (gt_next g < length (m_buckets hash))%nat ->
  wp X (gc_visit r g hash)
    (fun hash' s' => t_inv hash' /\ gc_view s' = gc_view s /\
       forall k, if decide (bucket_index hash (hk k) = gt_next g)
                 then gc_outcome (collects (gt_flush g) (gt_evict_age g)
                                    (flush_time (e_stats (gc_env_of s))) (r_now r))
                        (t_map hash !! k) (t_map hash' !! k)
                 else t_map hash' !! k = t_map hash !! k) s.
Proof.
  intros Hi Hn. unfold gc_visit. set (gone := collects _ _ _ _). eapply wp_mono.
  - apply (map_gc_at_rule sk X (gc_loop_map gone (map_of hash) s)); [done|done| | | |].
    + split_and!; [done|done|done|]. intros k Hk. by rewrite (proj1 (not_elem_of_dom _ _) Hk).
    + intros todo m0 k a o e0 Hin Hk HI. pose proof HI as (Hv&_).
      eapply wp_mono; [apply (gc_pred_spec r (gt_sizes g) (gt_slaves g) (gt_new_slaves g) X
        (gt_flush g) (gt_evict_age g) (flush_time (e_stats (gc_env_of s))))|].
      { by injection Hv as -> _. }
      intros p s' (E1&E2&E3). eapply gc_map_step; [done..|]. intros Ef. rewrite Ef in E3. apply E3.
    + intros todo m0 e0 HI. by apply wp_modify.
    + intros todo m0 e0 HI. by apply wp_modify.
  - intros hash' s' (Hi'&_&others&(Hv&Hsub&Hsame&Hres)&R1&R2). split_and!; [done|exact Hv|].
    intros k. destruct (decide (k ∈ others)) as [Hin|Hin].
    + rewrite decide_False by auto. by apply Hsame.
    + specialize (Hres k Hin). case_decide as Hx; [exact Hres|].
      specialize (R2 k Hin Hx). cbn in *. rewrite R2 in *. exact Hres.
Qed.

(** ** Consistent states *)

(** A job has the context of its socket, unless the socket is inert. *)
Definition act_ok (c : conn) : Prop :=
  match cn_act c with
  | idle _ => True
  | working r w => r_config r = cfg /\ work_ok w (cn_locks c) /\ (g_context r = cn_fd c \/ inert c = true)
  | dying l => cn_valid c = false /\ l `suffix_of` cn_locks c
  end.

Record csys_ok (s : csys) : Prop := {
  co_inv : t_inv (cs_hash s);
  co_table : table_ok cfg (t_map (cs_hash s));
  co_act id c : cs_conns s !! id = Some c -> cn_fd c <> -1 /\ act_ok c;
  co_conn id c : cs_conns s !! id = Some c -> inert c = false ->
    conn_ok (cn_fd c) (t_map (cs_hash s)) (holds c);
  co_fd id id' c c' : cs_conns s !! id = Some c -> cs_conns s !! id' = Some c' ->
    inert c = false -> inert c' = false -> cn_fd c = cn_fd c' -> id = id';
  co_owner k a o : t_map (cs_hash s) !! k = Some (a, o) ->
    o_lock o = -1 \/ exists id c, cs_conns s !! id = Some c /\ inert c = false /\ cn_fd c = o_lock o
}.

Lemma inert_spec c :
  inert c = true <-> cn_valid c = false /\ holds c = [] /\
    match cn_act c with working _ w => spent w = true | _ => True end.
Proof.
  unfold inert. rewrite !andb_true_iff. destruct (cn_valid c), (holds c), (cn_act c); cbn; naive_solver.
Qed.

Lemma active_holds c k : k ∈ holds c -> inert c = false.
Proof.
  intros Hk. apply not_true_is_false. intros (_&Hh&_)%inert_spec. rewrite Hh in Hk. by apply elem_of_nil in Hk.
Qed.

Lemma holds_sub c k : act_ok c -> k ∈ holds c -> k ∈ cn_locks c.
Proof.
  unfold holds, act_ok. destruct c as [fd v locks [p|r w|l]]; cbn; [done| |].
  - destruct w; cbn; try done. intros (_&([l' ->]&_)&_). set_solver.
  - intros (_&[l' ->]). set_solver.
Qed.

(** The state after a step on one socket. *)
Definition with_conns (hash : table) (conns : gmap nat conn) (s' : csys) : Prop :=
  cs_hash s' = hash /\ cs_conns s' = conns.

(** A socket that may lock acts: [fd] is its number, and no other such socket has it. *)
Lemma active_ok s s' id c hash :
  csys_ok s -> with_conns hash (<[id := c]> (cs_conns s)) s' ->
  (forall id' c', id' <> id -> cs_conns s !! id' = Some c' -> inert c' = false -> cn_fd c' <> cn_fd c) ->
  (forall c0, cs_conns s !! id = Some c0 -> cn_fd c0 = cn_fd c) ->
  cn_fd c <> -1 -> t_inv hash -> table_ok cfg (t_map hash) ->
  frame (cn_fd c) (t_map (cs_hash s)) (t_map hash) ->
  act_ok c -> conn_ok (cn_fd c) (t_map hash) (holds c) -> csys_ok s'.
Proof.
  intros [Hi0 Ht0 Ha0 Hc0 Hf0 Ho0] [Eh Ec] Hother Hold Hne Hi Ht Hfr Hact Hconn.
  constructor; rewrite ?Eh, ?Ec; [done|done| | | |].
  - intros id' c' Hl. apply lookup_insert_Some in Hl as [[<- <-]|[_ Hl]]; [done|by eapply Ha0].
  - intros id' c' Hl Hn. apply lookup_insert_Some in Hl as [[<- <-]|[Hd Hl]]; [done|].
    apply (frame_conn (cn_fd c) (cn_fd c') (t_map (cs_hash s))); try done.
    + by eapply Hother.
    + by eapply Ha0.
    + by eapply Hc0.
  - intros id1 id2 c1 c2 Hl1 Hl2 Hn1 Hn2 E.
    apply lookup_insert_Some in Hl1 as [[<- <-]|[Hd1 Hl1]]; apply lookup_insert_Some in Hl2 as [[<- <-]|[Hd2 Hl2]].
    + done.
    + by destruct (Hother id2 c2 (not_eq_sym Hd2) Hl2 Hn2).
    + by destruct (Hother id1 c1 (not_eq_sym Hd1) Hl1 Hn1).
    + by eapply Hf0.
  - intros k a o Hk. destruct (decide (o_lock o = -1)) as [|Hl]; [by left|]. right.
    destruct (decide (o_lock o = cn_fd c)) as [Efd|Hfd].
    + exists id, c. rewrite lookup_insert_eq. split_and!; [done| |done].
      apply (active_holds c {| kr_addr := a; kr_data := k |}), Hconn. by exists o.
    + destruct Hfr as [_ Hback]. destruct (Hback k a o Hk Hfd Hl) as (o0&Hk0&_&_&_&El).
      destruct (Ho0 k a o0 Hk0) as [?|(id'&c'&Hl'&Hn'&E')]; [congruence|].
      exists id', c'. rewrite lookup_insert_ne; [split_and!; [done|done|congruence]|].
      intros ->. specialize (Hold c' Hl'). congruence.
Qed.

(** Steps of an inert socket. *)
Lemma inert_ok s s' id c0 new :
  csys_ok s -> with_conns (cs_hash s) (partial_alter (fun _ => new) id (cs_conns s)) s' ->
  cs_conns s !! id = Some c0 -> inert c0 = true ->
  (forall c, new = Some c -> cn_fd c = cn_fd c0 /\ act_ok c /\ inert c = true) -> csys_ok s'.
Proof.
  intros [Hi0 Ht0 Ha0 Hc0 Hf0 Ho0] [Eh Ec] Hl0 Hin Hnew.
  assert (forall id' c', partial_alter (fun _ => new) id (cs_conns s) !! id' = Some c' ->
    inert c' = false -> cs_conns s !! id' = Some c') as Hsame.
  { intros id' c' Hl Hn. destruct (decide (id' = id)) as [-> |Hd].
    - rewrite lookup_partial_alter_eq in Hl. destruct (Hnew c' Hl) as (_&_&E). congruence.
    - by rewrite lookup_partial_alter_ne in Hl. }
  constructor; rewrite ?Eh, ?Ec; [done|done| | | |].
  - intros id' c' Hl. destruct (decide (id' = id)) as [-> |Hd].
    + rewrite lookup_partial_alter_eq in Hl. destruct (Hnew c' Hl) as (->&?&_). split; [by eapply Ha0|done].
    + rewrite lookup_partial_alter_ne in Hl by done. by eapply Ha0.
  - intros id' c' Hl Hn. by eapply Hc0; [apply Hsame|].
  - intros id1 id2 c1 c2 Hl1 Hl2 Hn1 Hn2 E. eapply Hf0; [by apply Hsame|by apply Hsame|done..].
  - intros k a o Hk. destruct (Ho0 k a o Hk) as [|(id'&c'&Hl'&Hn'&E')]; [by left|right].
    exists id', c'. split_and!; [|done|done]. rewrite lookup_partial_alter_ne; [done|]. intros ->. congruence.
Qed.

(** A socket that leaves the table alone. *)
Lemma quiet_ok s s' id c0 c :
  csys_ok s -> with_conns (cs_hash s) (<[id := c]> (cs_conns s)) s' ->
  cs_conns s !! id = Some c0 -> cn_fd c = cn_fd c0 -> holds c = holds c0 -> act_ok c ->
  (inert c0 = true -> inert c = true) -> csys_ok s'.
Proof.
  intros Hs Hw Hl Hfd Hh Ha Hin. destruct (inert c0) eqn:E0.
  - eapply (inert_ok s s' id c0 (Some c)); [done|done|done|done|]. intros c' [= <-]. split_and!; auto.
  - pose proof Hs as [Hi Ht Ha0 Hc Hf _]. apply (active_ok s s' id c (cs_hash s)); rewrite ?Hfd, ?Hh; try done.
    + intros id' c' Hd Hl' Hn' E. by destruct Hd; eapply Hf.
    + intros c1 Hl1. congruence.
    + by eapply Ha0.
    + apply frame_refl.
    + by eapply Hc.
Qed.

(** A socket that may lock changes the table. *)
Lemma active_step_ok s s' id c0 c hash :
  csys_ok s -> with_conns hash (<[id := c]> (cs_conns s)) s' ->
  cs_conns s !! id = Some c0 -> inert c0 = false -> cn_fd c = cn_fd c0 ->
  t_inv hash -> table_ok cfg (t_map hash) -> frame (cn_fd c0) (t_map (cs_hash s)) (t_map hash) ->
  act_ok c -> conn_ok (cn_fd c0) (t_map hash) (holds c) -> csys_ok s'.
Proof.
  intros Hs Hw Hl Hn Hfd Hi Ht Hfr Ha Hc. pose proof Hs as [_ _ Ha0 _ Hf _].
  apply (active_ok s s' id c hash); rewrite ?Hfd; try done.
  - intros id' c' Hd Hl' Hn' E. by destruct Hd; eapply Hf.
  - intros c1 Hl1. congruence.
  - by eapply Ha0.
Qed.

Lemma same_job_ok r r' : same_job r r' -> g_context r' = g_context r /\ config r' = config r.
Proof. unfold same_job, g_context, config. intuition congruence. Qed.

(** A step of a receive job on a socket that may lock. *)
Lemma conn_work_ok s id c r r' ck u w :
  csys_ok s -> cs_conns s !! id = Some c -> cn_act c = working r w -> inert c = false ->
  same_job r r' ->
  wp (step_exn (receives c w)) (work_step sk r' ck u (receives c w) (cs_hash s))
    (step_post sk r' (cs_hash s)) (cs_env s (cn_locks c)) /\ g_context r' = cn_fd c.
Proof.
  intros [Hi Ht Ha Hc _ _] Hl Eact Hn Hj. destruct (Ha _ _ Hl) as [Hne Hact].
  specialize (Hc _ _ Hl Hn). unfold act_ok in Hact. unfold holds in Hc. rewrite Eact in Hact, Hc.
  destruct Hact as (Hcfg&Hw&[Hx|?]); [|congruence]. destruct (same_job_ok _ _ Hj) as [Ectx Ecfg].
  split; [|congruence].
  assert (work_ok (receives c w) (cn_locks c) /\ held (receives c w) (cn_locks c) = held w (cn_locks c)) as [Hw' Hh].
  { destruct w; cbn; try done. by destruct (cn_valid c). }
  apply work_step_ok; [congruence|done|]. unfold owns. cbn [cs_env e_locks]. rewrite Hh, Ectx, Ecfg, Hx.
  change (config r) with (r_config r). rewrite Hcfg. by split_and!.
Qed.

(** A step of a receive job on an inert socket leaves the table alone. *)
Lemma inert_work_ok s id c r r' ck u w :
  csys_ok s -> cs_conns s !! id = Some c -> cn_act c = working r w -> inert c = true ->
  wp no_exn (work_step sk r' ck u (receives c w) (cs_hash s))
    (fun p e => p.2 = cs_hash s /\ act_ok (conn_after c e (working r p.1)) /\
       inert (conn_after c e (working r p.1)) = true) (cs_env s (cn_locks c)).
Proof.
  intros [_ _ Ha _ _ _] Hl Eact Hin. destruct (Ha _ _ Hl) as [_ Hact]. unfold act_ok in Hact. rewrite Eact in Hact.
  destruct Hact as (Hcfg&Hw&_). pose proof Hin as (Hv&Hh&Hsp)%inert_spec. unfold holds in Hh. rewrite Eact in Hh, Hsp.
  assert (forall (w' : work) (e : env), spent w' = true -> work_ok w' (e_locks e) -> held w' (e_locks e) = [] ->
    act_ok (conn_after c e (working r w')) /\ inert (conn_after c e (working r w')) = true) as Hend.
  { intros w' e Hs' Hw' Hh'. assert (inert (conn_after c e (working r w')) = true) as E by (by apply inert_spec).
    split; [|done]. unfold act_ok. cbn. auto. }
  destruct w as [rs buf| | | |l fin next|p]; try done; cbn [receives held work_ok] in *.
  - rewrite Hv. apply wp_bind, wp_gets, wp_ret. split; [done|]. cbn [fst cs_env e_locks]. rewrite Hh.
    apply Hend; [done|split_and!; [done|auto with silent|done]|done].
  - subst l. destruct next; try done. destruct Hw as (_&Hf&_). cbn [work_step].
    apply wp_bind, wp_modify, wp_bind. eapply (wp_keeps _ e_locks); [done|intros e1 He1].
    apply wp_ret. split; [done|]. by apply Hend.
  - apply wp_ret. split; [done|]. by apply Hend.
Qed.

(** One iteration of a destructor in a consistent state. *)
Lemma conn_release_ok s id c k l r :
  csys_ok s -> cs_conns s !! id = Some c -> cn_act c = dying (k :: l) ->
  wp no_exn (unlock_one sk r true k (cs_hash s))
    (fun hash e => e = cs_env s (cn_locks c) /\ t_inv hash /\ conn_ok (cn_fd c) (t_map hash) l /\
       table_ok cfg (t_map hash) /\ frame (cn_fd c) (t_map (cs_hash s)) (t_map hash)) (cs_env s (cn_locks c)).
Proof.
  intros [Hi Ht Ha Hc _ _] Hl Eact. destruct (Ha _ _ Hl) as [Hne _].
  assert (holds c = k :: l) as Hh by (unfold holds; by rewrite Eact).
  assert (inert c = false) as Hn by (apply (active_holds c k); rewrite Hh; by left).
  specialize (Hc _ _ Hl Hn). rewrite Hh in Hc. unfold unlock_one. apply wp_bind.
  eapply wp_mono; [apply (unlock_apply_ok r no_exn cfg (cn_fd c) Hne true k l); [by left|done..]|].
  intros [b hash] e (->&Hi'&Hc'&Ht'&Hf). by apply wp_ret.
Qed.

Lemma gc_next_ok s hash e g :
  csys_ok s -> t_inv hash ->
  (forall k, gc_change (t_map (cs_hash s) !! k) (t_map hash !! k)) ->
  csys_ok (gc_next s hash e g).
Proof.
  intros [Hi Ht Ha Hc Hf Ho] Hi' Hch. constructor; cbn [gc_next cs_hash cs_conns].
  - done.
  - by apply (gc_table_ok _ _ _ Hch).
  - exact Ha.
  - intros id c Hl Hn. apply (gc_frame (cn_fd c) _ _ Hch); [by eapply Ha|by eapply Hc].
  - exact Hf.
  - intros k a o' Hk. specialize (Hch k). rewrite Hk in Hch.
    destruct (t_map (cs_hash s) !! k) as [[b o]|] eqn:Hm; [|done].
    destruct Hch as [[? _]|(o2&[= <- <-]&Hs&_)]; [done|].
    destruct Hs as (?&?&?&El). rewrite El. by eapply Ho.
Qed.

Lemma visit_change (flush : bool) (age ft now : Z) (m m' : contents_map) (P : bytes -> Prop)
    `{!forall k, Decision (P k)} :
  (forall k, if decide (P k) then gc_outcome (collects flush age ft now) (m !! k) (m' !! k)
             else m' !! k = m !! k) ->
  forall k, gc_change (m !! k) (m' !! k).
Proof.
  intros Hv k. specialize (Hv k). case_decide; [by eapply gc_outcome_change|].
  rewrite Hv. apply gc_change_refl.
Qed.

(** A visit of the collector. *)
Lemma visit_ok X s g r :
  t_inv (cs_hash s) -> (gt_next g < length (m_buckets (cs_hash s)))%nat ->
  wp X (gc_visit r g (cs_hash s))
    (fun hash _ => t_inv hash /\ forall k, gc_change (t_map (cs_hash s) !! k) (t_map hash !! k))
    {| gc_env_of := cs_env s []; gc_of := gt_counters g |}.
Proof.
  intros Hi Hn. eapply wp_mono; [by apply gc_visit_ok|]. intros hash e (Hi'&_&Hres). split; [done|].
  exact (visit_change _ _ _ _ _ _ (fun k => bucket_index (cs_hash s) (hk k) = gt_next g) Hres).
Qed.

(** ** Steps keep the consistency *)

(** A new socket. *)
Lemma accept_ok s s' id fd :
  csys_ok s -> with_conns (cs_hash s) (<[id := new_conn fd]> (cs_conns s)) s' ->
  0 <= fd -> cs_conns s !! id = None ->
  (forall id' c, cs_conns s !! id' = Some c -> cn_fd c = fd -> inert c = true) -> csys_ok s'.
Proof.
  intros Hs Hw Hfd Hl Hfresh. pose proof Hs as [Hi Ht _ _ _ Ho].
  apply (active_ok s s' id (new_conn fd) (cs_hash s)); cbn [cn_fd new_conn]; try done.
  - intros id' c' _ Hl' Hn E. specialize (Hfresh _ _ Hl' E). congruence.
  - intros c0 Hl0. congruence.
  - lia.
  - apply frame_refl.
  - split; [constructor|]. intros k. rewrite elem_of_nil. split; [done|]. intros (o&Hk&Hlk).
    destruct (Ho _ _ _ Hk) as [E|(id'&c&Hl'&Hn&E)]; [lia|]. rewrite Hlk in E.
    specialize (Hfresh _ _ Hl' E). congruence.
Qed.

(** A job starts. *)
Lemma start_ok s s' id c p r rs :
  let c' := conn_after c (cs_env s (cn_locks c)) (working (start_env c r) (w_recv rs p)) in
  csys_ok s -> with_conns (cs_hash s) (<[id := c']> (cs_conns s)) s' ->
  cs_conns s !! id = Some c -> cn_act c = idle p -> r_config r = cfg ->
  cn_valid c = true \/ cn_locks c = [] -> csys_ok s'.
Proof.
  intros c' Hs Hw Hl Eact Hr Hp. assert (holds c = cn_locks c) as Hh by (unfold holds; by rewrite Eact).
  assert (inert c = true -> inert c' = true) as Hin.
  { intros (Hv&Hh'&_)%inert_spec. apply inert_spec. cbn. rewrite <- Hh. by split_and!. }
  eapply (quiet_ok s _ id c); [done|exact Hw|done|done|by rewrite Hh| |done].
  unfold act_ok. cbn [c' conn_after cn_act cn_locks]. unfold start_env in *. split_and!; [by destruct (cn_valid c)|done|].
  destruct (cn_valid c) eqn:Ev; [by left|right]. destruct Hp as [?|Hp]; [done|].
  apply Hin, inert_spec. rewrite Hh, Eact. by split_and!.
Qed.

(** A socket is invalidated. *)
Lemma conn_invalidate_ok s s' id c :
  csys_ok s -> with_conns (cs_hash s) (<[id := invalidated c]> (cs_conns s)) s' ->
  cs_conns s !! id = Some c -> cn_valid c = true -> csys_ok s'.
Proof.
  intros Hs Hw Hl Hv. eapply (quiet_ok s _ id c); [done|exact Hw|done|done|done| |].
  - destruct (co_act s Hs _ _ Hl) as [_ Ha]. unfold act_ok in *. cbn [cn_act cn_locks invalidated cn_valid cn_fd] in *.
    destruct (cn_act c) eqn:Eact; [done| |].
    + destruct Ha as (?&?&[?|(?&_)%inert_spec]); [|congruence]. split_and!; [done|done|by left].
    + destruct Ha as [? _]. congruence.
  - intros (?&_)%inert_spec. congruence.
Qed.

(** A step of a receive job. *)
Lemma work_ok_step s s' id c r r' ck u w w' hash e :
  csys_ok s -> cs_conns s !! id = Some c -> cn_act c = working r w -> same_job r r' ->
  work_step sk r' ck u (receives c w) (cs_hash s) (cs_env s (cn_locks c)) = (inr (w', hash), e) ->
  with_conns hash (<[id := conn_after c e (working r w')]> (cs_conns s)) s' -> csys_ok s'.
Proof.
  intros Hs Hl Eact Hj Hw Hs'. destruct (inert c) eqn:Hin.
  - pose proof (inert_work_ok s id c r r' ck u w Hs Hl Eact Hin) as Hp. unfold wp in Hp. rewrite Hw in Hp.
    destruct Hp as (Eh&Ha&Hi). cbn [fst snd] in *. subst hash.
    eapply (inert_ok s s' id c (Some _)); [done|exact Hs'|done|done|]. by intros c' [= <-].
  - destruct (conn_work_ok s id c r r' ck u w Hs Hl Eact Hin Hj) as [Hp Ectx].
    unfold wp in Hp. rewrite Hw in Hp. destruct Hp as (Hw'&(Hi&Hc&Ht)&Hf). cbn [fst snd] in *.
    destruct (same_job_ok _ _ Hj) as [Ec Ecfg]. destruct (co_act s Hs _ _ Hl) as [_ Hact].
    unfold act_ok in Hact. rewrite Eact in Hact. destruct Hact as (Hcfg&_&_).
    unfold owns in *. rewrite Ectx in Hc, Hf. rewrite Ecfg in Ht. change (config r) with (r_config r) in Ht. rewrite Hcfg in Ht.
    eapply (active_step_ok s s' id c _ hash); [done|exact Hs'|done..| |exact Hc].
    unfold act_ok. cbn. split_and!; [done|done|left; congruence].
Qed.

Lemma conc_step_ok a s s' : csys_ok s -> orderly sk cfg a s s' -> csys_ok s'.
Proof.
  intros Hs (Hst&Hfresh&Hprompt).
  destruct Hst as [s id fd Hfd Hl Hval|s id c p r rs Hl Eact Hr|s id c r r' ck u w w' hash e Hl Eact Hj Hw
    |s id c r p Hl Eact|s id c Hl Hv|s id c p Hl Hv Eact|s id c k l r hash e Hl Eact Hr Hu|s id c Hl Eact
    |s r sz time sl nsl Hg Hr|s g r hash e Hg Hn Hj Hv|s g us Hg Hn].
  - eapply (accept_ok s _ id fd); [done|done|done|done|]. intros id' c Hl' E.
    eapply (Hfresh id (new_conn fd)); [done| |done|done]. cbn. by rewrite lookup_insert_eq.
  - eapply (start_ok s _ id c p r rs); [done|done|done|done|done|].
    eapply Hprompt; [done|done|cbn; by rewrite lookup_insert_eq|done].
  - by eapply (work_ok_step s _ id c r r' ck u w w' hash e).
  - eapply (quiet_ok s _ id c); [done|done|done|done| |done|].
    + unfold holds. by rewrite Eact.
    + intros (Hv&Hh&_)%inert_spec. apply inert_spec. cbn. unfold holds in *. rewrite Eact in Hh. by split_and!.
  - by eapply (conn_invalidate_ok s _ id c).
  - eapply (quiet_ok s _ id c); [done|done|done|done| | |].
    + unfold holds. by rewrite Eact.
    + unfold act_ok. cbn. by split.
    + intros (_&Hh&_)%inert_spec. apply inert_spec. unfold holds in *. rewrite Eact in Hh. cbn. by split_and!.
  - pose proof (conn_release_ok s id c k l r Hs Hl Eact) as Hp. unfold wp in Hp. rewrite Hu in Hp.
    destruct Hp as (->&Hi&Hc&Ht&Hf). destruct (co_act s Hs _ _ Hl) as [_ Ha]. unfold act_ok in Ha. rewrite Eact in Ha.
    eapply (active_step_ok s _ id c _ hash); [done|done|done| |done|done|done|done| |exact Hc].
    + apply (active_holds c k). unfold holds. rewrite Eact. by left.
    + destruct Ha as [Hv Hsuf]. split; [done|]. by eapply suffix_cons_l.
  - destruct (co_act s Hs _ _ Hl) as [_ Ha]. unfold act_ok in Ha. rewrite Eact in Ha. destruct Ha as [Hv _].
    eapply (inert_ok s _ id c None); [done|done|done| |done]. apply inert_spec. unfold holds. by rewrite Eact.
  - apply gc_next_ok; [done|apply Hs|]. intros k. apply gc_change_refl.
  - pose proof (visit_ok no_exn s g r (co_inv _ Hs) Hn) as Hp. unfold wp in Hp. rewrite Hv in Hp.
    destruct Hp as (Hi'&Hres). by apply gc_next_ok.
  - apply gc_next_ok; [done|apply Hs|]. intros k. apply gc_change_refl.
Qed.

Lemma cs_initial_ok s : cs_initial sk s -> csys_ok s.
Proof.
  intros (Hi&Hm&Hc&_). change (t_map (cs_hash s) = ∅) in Hm. constructor; [done| | | | |].
  - intros k a o Hk. by rewrite Hm, lookup_empty in Hk.
  - intros id c Hl. by rewrite Hc in Hl.
  - intros id c Hl. by rewrite Hc in Hl.
  - intros id id' c c' Hl. by rewrite Hc in Hl.
  - intros k a o Hk. by rewrite Hm, lookup_empty in Hk.
Qed.

Lemma conc_reachable_ok s0 s : cs_initial sk s0 -> rtc (orderly_step sk cfg) s0 s -> csys_ok s.
Proof.
  intros Hini Hr. pose proof (cs_initial_ok s0 Hini) as Hok. clear Hini.
  induction Hr as [|x y z [a Hst] _ IH]; [done|]. by apply IH, (conc_step_ok a x).
Qed.

(** The table is well formed in every reachable state, orderly or not. *)
Lemma step_kept a s s' : t_inv (cs_hash s) -> cstep sk cfg a s s' -> t_inv (cs_hash s').
Proof.
  intros Hi Hst.
  destruct Hst as [s id fd Hfd Hl Hval|s id c p r rs Hl Eact Hr|s id c r r' ck u w w' hash e Hl Eact Hj Hw
    |s id c r p Hl Eact|s id c Hl Hv|s id c p Hl Hv Eact|s id c k l r hash e Hl Eact Hr Hu|s id c Hl Eact
    |s r sz time sl nsl Hg Hr|s g r hash e Hg Hn Hj Hv|s g us Hg Hn]; try exact Hi.
  - pose proof (work_step_kept sk r' ck u (receives c w) (cs_hash s) (cs_env s (cn_locks c)) Hi) as Hp.
    unfold wp in Hp. rewrite Hw in Hp. exact Hp.
  - pose proof (unlock_one_kept sk r true k (cs_hash s) (cs_env s (cn_locks c)) Hi) as Hp.
    unfold wp in Hp. rewrite Hu in Hp. exact Hp.
  - pose proof (visit_ok no_exn s g r Hi Hn) as Hp. unfold wp in Hp. rewrite Hv in Hp. apply Hp.
Qed.

Lemma reachable_kept s0 s : cs_initial sk s0 -> rtc (any_step sk cfg) s0 s -> t_inv (cs_hash s).
Proof.
  intros (Hi&_) Hr. induction Hr as [|x y z [a Hst] _ IH]; [done|]. apply IH. by eapply step_kept.
Qed.

(** ** Theorems *)

(** What a step of anyone else does to the objects that a socket holds. *)
Lemma others_keep a s s' id c k b o :
  csys_ok s -> orderly sk cfg a s s' -> a <> by_conn id ->
  cs_conns s !! id = Some c -> {| kr_addr := b; kr_data := k |} ∈ holds c ->
  t_map (cs_hash s) !! k = Some (b, o) -> o_lock o = cn_fd c ->
  (exists o', t_map (cs_hash s') !! k = Some (b, o') /\ same_value o o') /\
  exists c', cs_conns s' !! id = Some c' /\ cn_fd c' = cn_fd c /\ holds c' = holds c.
Proof.
  intros Hs (Hst&_) Ha Hl Hin Hk Ho. pose proof (active_holds _ _ Hin) as Hn.
  pose proof (proj1 (co_act s Hs _ _ Hl)) as Hne.
  assert (forall id' c' hash, id' <> id -> cs_conns s !! id' = Some c' -> inert c' = false ->
    frame (cn_fd c') (t_map (cs_hash s)) (t_map hash) ->
    exists o', t_map hash !! k = Some (b, o') /\ same_value o o') as Hframe.
  { intros id' c' hash Hd Hl' Hn' [Hf _]. apply (Hf k b o Hk); [|congruence].
    intros E. destruct Hd. eapply (co_fd s Hs); [done|done|done|done|congruence]. }
  assert (exists o', t_map (cs_hash s) !! k = Some (b, o') /\ same_value o o') as Hsame by (by exists o).
  assert (forall m : gmap nat conn, m !! id = cs_conns s !! id ->
    exists c', m !! id = Some c' /\ cn_fd c' = cn_fd c /\ holds c' = holds c) as Hother.
  { intros m ->. by exists c. }
  destruct Hst as [s id' fd Hfd Hl' Hval|s id' c' p r rs Hl' Eact Hr|s id' c' r r' ck u w w' hash e Hl' Eact Hj Hw
    |s id' c' r p Hl' Eact|s id' c' Hl' Hv|s id' c' p Hl' Hv Eact|s id' c' k' l r hash e Hl' Eact Hr Hu|s id' c' Hl' Eact
    |s r sz time sl nsl Hg Hr|s g r hash e Hg Hgn Hj Hv|s g us Hg Hgn];
    try (assert (id' <> id) as Hd by congruence);
    try (split; [exact Hsame|]; apply Hother; cbn; by rewrite ?lookup_insert_ne, ?lookup_delete_ne by exact Hd).
  - split; [|by apply Hother, lookup_insert_ne]. destruct (inert c') eqn:Hin'.
    + pose proof (inert_work_ok s id' c' r r' ck u w Hs Hl' Eact Hin') as Hp. unfold wp in Hp. rewrite Hw in Hp.
      destruct Hp as (Eh&_). cbn [snd] in Eh. cbn [conn_next cs_hash]. by rewrite Eh.
    + destruct (conn_work_ok s id' c' r r' ck u w Hs Hl' Eact Hin' Hj) as [Hp Ectx].
      unfold wp in Hp. rewrite Hw in Hp. destruct Hp as (_&_&Hf). cbn [snd] in Hf. rewrite Ectx in Hf.
      by eapply (Hframe id').
  - split; [exact Hsame|]. destruct (decide (id' = id)) as [-> |Hd]; [|by apply Hother, lookup_insert_ne].
    assert (c' = c) as -> by congruence. cbn. rewrite lookup_insert_eq. eexists. by split_and!.
  - split; [|by apply Hother, lookup_insert_ne].
    pose proof (conn_release_ok s id' c' k' l r Hs Hl' Eact) as Hp. unfold wp in Hp. rewrite Hu in Hp.
    destruct Hp as (_&_&_&_&Hf). eapply (Hframe id'); [done|done| |exact Hf].
    apply (active_holds c' k'). unfold holds. rewrite Eact. by left.
  - split; [|by exists c]. pose proof (visit_ok no_exn s g r (co_inv _ Hs) Hgn) as Hp. unfold wp in Hp. rewrite Hv in Hp.
    destruct Hp as (_&Hch). destruct (gc_frame (cn_fd c) _ _ Hch) as [[Hf _] _]; [done|].
    apply (Hf k b o Hk); congruence.
Qed.

(** Orderly steps of all threads but the workers and the destructor of one socket. *)
Definition others_step (id : nat) (s s' : csys) : Prop :=
  exists a, a <> by_conn id /\ orderly sk cfg a s s'.

Section orderly.
Context (s0 s : csys).
Hypothesis (Hini : cs_initial sk s0) (Hreach : rtc (orderly_step sk cfg) s0 s).

(** C1: Locks have one owner.  Take any interleaving of receive jobs, invalidations,
    destructors and collections in which a new socket never gets the descriptor number of an
    older one that still locks objects or executes requests, and no job starts on a socket
    that was invalidated while it locks objects.  In every state that it reaches, a locked
    object is held by exactly one socket, whose descriptor number is the lock; and every
    reference a socket holds is to an object that is in the table, at that address, and
    locked by the number of this socket. *)
Theorem conc_lock_owner :
  (forall k a o, t_map (cs_hash s) !! k = Some (a, o) -> locked o = true ->
     exists id c, cs_conns s !! id = Some c /\ cn_fd c = o_lock o /\
       {| kr_addr := a; kr_data := k |} ∈ holds c /\ {| kr_addr := a; kr_data := k |} ∈ cn_locks c /\
       forall id' c', cs_conns s !! id' = Some c' -> {| kr_addr := a; kr_data := k |} ∈ holds c' -> id' = id) /\
  (forall id c k, cs_conns s !! id = Some c -> k ∈ holds c ->
     exists o, t_map (cs_hash s) !! kr_data k = Some (kr_addr k, o) /\ o_lock o = cn_fd c).
Proof using Hini Hreach.
  pose proof (conc_reachable_ok s0 s Hini Hreach) as Hs. pose proof Hs as [_ _ Ha Hc Hf Ho].
  assert (forall id c k, cs_conns s !! id = Some c -> k ∈ holds c ->
     exists o, t_map (cs_hash s) !! kr_data k = Some (kr_addr k, o) /\ o_lock o = cn_fd c) as Hheld.
  { intros id c k Hl Hin. by apply (Hc _ _ Hl (active_holds _ _ Hin)). }
  split; [|done]. intros k a o Hk Hl.
  destruct (Ho k a o Hk) as [E|(id&c&Hlc&Hn&E)]; [unfold locked in Hl; by rewrite E in Hl|].
  assert ({| kr_addr := a; kr_data := k |} ∈ holds c) as Hin by (apply (Hc _ _ Hlc Hn); by exists o).
  exists id, c. split_and!; [done|done|done|by apply holds_sub; [apply (Ha _ _ Hlc)|]|].
  intros id' c' Hl' Hin'. destruct (Hheld _ _ _ Hl' Hin') as (o'&Hk'&Hlk). cbn [kr_data kr_addr] in Hk'.
  eapply Hf; [done|done|by eapply active_holds|done|congruence].
Qed.

(** C2: No thread fails.  In every state that such an interleaving reaches, the next step of
    every receive job, of every destructor and of the collection is possible: none of the internal
    checks ([object::lock], [object::unlock], [remove_lock]) raises an exception; what is left is
    the text parser's read past the received bytes, and an error of [::recv] that
    [receive] throws. *)
Theorem conc_never_fails :
  (forall id c r r' ck u w,
     cs_conns s !! id = Some c -> cn_act c = working r w -> same_job r r' ->
     match (work_step sk r' ck u (receives c w) (cs_hash s) (cs_env s (cn_locks c))).1 with
     | inr _ => True
     | inl x => x = bad_read \/ (x = system_error /\ recv_failed (receives c w))
     end) /\
  (forall id c r k l,
     cs_conns s !! id = Some c -> cn_act c = dying (k :: l) ->
     exists hash, unlock_one sk r true k (cs_hash s) (cs_env s (cn_locks c)) = (inr hash, cs_env s (cn_locks c))) /\
  (forall g r, cs_gc s = Some g -> (gt_next g < length (m_buckets (cs_hash s)))%nat ->
     exists hash e, gc_visit r g (cs_hash s)
       {| gc_env_of := cs_env s []; gc_of := gt_counters g |} = (inr hash, e)).
Proof using Hini Hreach.
  pose proof (conc_reachable_ok s0 s Hini Hreach) as Hs. split_and!.
  - intros id c r r' ck u w Hl Eact Hj. destruct (inert c) eqn:Hin.
    + pose proof (inert_work_ok s id c r r' ck u w Hs Hl Eact Hin) as Hp.
      unfold wp in Hp. by destruct (work_step _ _ _ _ _ _ _) as [[x|p] e].
    + destruct (conn_work_ok s id c r r' ck u w Hs Hl Eact Hin Hj) as [Hp _].
      unfold wp in Hp. by destruct (work_step _ _ _ _ _ _ _) as [[x|p] e].
  - intros id c r k l Hl Eact. pose proof (conn_release_ok s id c k l r Hs Hl Eact) as Hp.
    unfold wp in Hp. destruct (unlock_one _ _ _ _ _ _) as [[x|hash] e]; [done|].
    destruct Hp as (->&_). by exists hash.
  - intros g r Hg Hn. pose proof (visit_ok no_exn s g r (co_inv _ Hs) Hn) as Hp.
    unfold wp in Hp. destruct (gc_visit _ _ _ _) as [[x|hash] e]; [done|]. by exists hash, e.
Qed.

(** C3: Locks protect values.  From any state that such an interleaving reaches, as long as
    the workers and the destructor of the socket that holds an object do not act on it, no
    sequence of steps of the other sockets, of the reactor (which may invalidate any socket)
    and of collections, orderly in the same sense, removes the object or changes its
    contents, flags, CAS value or lock. *)
Theorem conc_locks_protect s' id c k a o :
  rtc (others_step id) s s' ->
  cs_conns s !! id = Some c -> {| kr_addr := a; kr_data := k |} ∈ holds c ->
  t_map (cs_hash s) !! k = Some (a, o) ->
  exists o', t_map (cs_hash s') !! k = Some (a, o') /\ same_value o o'.
Proof using Hini Hreach.
  intros Hr Hl Hin Hk. pose proof (conc_reachable_ok s0 s Hini Hreach) as Hs. clear Hini Hreach.
  assert (o_lock o = cn_fd c) as Ho.
  { destruct (proj1 (proj2 (co_conn s Hs _ _ Hl (active_holds _ _ Hin)) _) Hin) as (o'&Hk'&E). cbn [kr_data kr_addr] in Hk'. congruence. }
  revert c o Hl Hin Hk Ho. induction Hr as [s|s s1 s' (b&Hb&Hst) _ IH]; intros c o Hl Hin Hk Ho; [by exists o|].
  destruct (others_keep b s s1 id c k a o Hs Hst Hb Hl Hin Hk Ho) as [(o1&Hk1&S1) (c1&Hl1&Hfd1&Hh1)].
  pose proof S1 as (_&_&_&E1).
  destruct (IH (conc_step_ok b s s1 Hs Hst) c1 o1 Hl1) as (o2&Hk2&S2); [by rewrite Hh1|done|congruence|].
  exists o2. split; [done|]. by eapply same_value_trans.
Qed.
End orderly.

(** C18: Collection is exact at every visit.  When a collection that runs among the other
    threads, in whatever order they act, visits a bucket, the objects of this bucket that
    are to be flushed or evicted according to its decision at the start, or have expired
    now, and that are not locked, are removed; the others keep place, value and lock; all
    other buckets stay as they are; and the next bucket is the following one. *)
Theorem conc_gc_visit s0 s s' g g' :
  cs_initial sk s0 -> rtc (any_step sk cfg) s0 s ->
  cstep sk cfg by_gc s s' -> cs_gc s = Some g -> cs_gc s' = Some g' ->
  gt_next g' = S (gt_next g) /\
  exists now, forall k,
    if decide (bucket_index (cs_hash s) (hk k) = gt_next g)
    then gc_outcome (collects (gt_flush g) (gt_evict_age g) (flush_time (cs_stats s)) now)
           (t_map (cs_hash s) !! k) (t_map (cs_hash s') !! k)
    else t_map (cs_hash s') !! k = t_map (cs_hash s) !! k.
Proof.
  intros Hini Hreach Hst Hg Hg'. pose proof (reachable_kept s0 s Hini Hreach) as Hs. clear Hini Hreach.
  inversion Hst as [| | | | | | | |t r sz time sl nsl Hn|t g1 r hash e Hg1 Hn Hj Hv|t g1 us Hg1 Hn]; subst.
  - congruence.
  - rewrite Hg in Hg1. injection Hg1 as <-. cbn in Hg'. injection Hg' as <-. split; [done|].
    pose proof (gc_visit_ok no_exn r g (cs_hash s)
      {| gc_env_of := cs_env s []; gc_of := gt_counters g |} Hs Hn) as Hp.
    unfold wp in Hp. rewrite Hv in Hp. destruct Hp as (_&_&Hres). by exists (r_now r).
  - done.
Qed.
End spec.

(** ** A run with interleavings *)

Abbreviation sample_sk := sample_sip_key.

Definition sample_cs : csys :=
  {| cs_hash := sample_empty; cs_stats := stats_reset; cs_threshold := sev_info;
     cs_conns := ∅; cs_gc := None; cs_out := [] |}.

Lemma sample_cs_initial : cs_initial sample_sk sample_cs.
Proof. split_and!; [by apply ctor_inv|apply ctor_map|done|done]. Qed.

(** Executable steps: accept a connection, start a job on it with an input, let its job
    take a step, invalidate and destruct a socket; begin a collection, let it visit a
    bucket, end it. *)
Inductive move :=
| m_accept (id : nat) (fd : Z)
| m_start (id : nat) (slaves : list nat) (input : bytes)
| m_work (id : nat)
| m_finish (id : nat)
| m_invalidate (id : nat)
| m_destroy (id : nat)
| m_release (id : nat)
| m_gone (id : nat)
| m_gc_begin (slaves new_slaves : list nat)
| m_gc_visit
| m_gc_end.

Definition sample_gc_sizes : sizes := {| sizeof_hash_key := 16; sizeof_object := 80 |}.

(** What is done to a socket. *)
Definition move_conn (m : move) (s : csys) (id : nat) (c : conn) : option csys :=
  let e := cs_env s (cn_locks c) in
  match m, cn_act c with
  | m_start _ slaves input, idle p =>
      Some (conn_next s id c (cs_hash s) e
              (working (start_env c (sample_request 0 slaves)) (w_recv [recv_ok input] p)))
  | m_work _, working r w =>
      match work_step sample_sk r sample_clock sample_u (receives c w) (cs_hash s) e with
      | (inr (w', hash), e') => Some (conn_next s id c hash e' (working r w'))
      | _ => None
      end
  | m_finish _, working r (w_done p) => Some (conn_next s id c (cs_hash s) e (idle p))
  | m_invalidate _, act =>
      if cn_valid c
      then Some (conn_next s id (invalidated c) (cs_hash s) (upd_stats count_invalidate e) act)
      else None
  | m_destroy _, idle _ =>
      if cn_valid c then None else Some (conn_next s id c (cs_hash s) e (dying (cn_locks c)))
  | m_release _, dying (k :: l) =>
      match unlock_one sample_sk (sample_request 0 []) true k (cs_hash s) e with
      | (inr hash, e') => Some (conn_next s id c hash e' (dying l))
      | _ => None
      end
  | m_gone _, dying [] =>
      Some {| cs_hash := cs_hash s; cs_stats := cs_stats s; cs_threshold := cs_threshold s;
              cs_conns := delete id (cs_conns s); cs_gc := cs_gc s; cs_out := cs_out s |}
  | _, _ => None
  end.

Definition all_conns (P : conn -> bool) (s : csys) : bool :=
  forallb (fun p => P p.2) (map_to_list (cs_conns s)).

Definition do_move (m : move) (s : csys) : option csys :=
  match m with
  | m_accept id fd =>
      if decide (0 <= fd) then
        match cs_conns s !! id with
        | Some _ => None
        | None =>
            if all_conns (fun c => negb (cn_fd c =? fd) || negb (cn_valid c)) s
            then Some (conn_next s id (new_conn fd) (cs_hash s) (upd_stats count_accept (cs_env s [])) (idle []))
            else None
        end
      else None
  | m_start id _ _ | m_work id | m_finish id | m_invalidate id | m_destroy id | m_release id | m_gone id =>
      c ← cs_conns s !! id; move_conn m s id c
  | m_gc_begin slaves new_slaves =>
      match cs_gc s with
      | None => Some (gc_next s (cs_hash s) (cs_env s [])
                  (Some (gc_begin (sample_request 0 []) sample_gc_sizes 1000 slaves new_slaves (cs_stats s))))
      | Some _ => None
      end
  | m_gc_visit =>
      match cs_gc s with
      | Some g =>
          if decide (gt_next g < length (m_buckets (cs_hash s)))%nat then
            match gc_visit (gt_env g) g (cs_hash s)
                    {| gc_env_of := cs_env s []; gc_of := gt_counters g |} with
            | (inr hash, e) => Some (gc_next s hash (gc_env_of e) (Some (gc_advance g (gc_of e))))
            | _ => None
            end
          else None
      | None => None
      end
  | m_gc_end =>
      match cs_gc s with
      | Some g =>
          if decide (length (m_buckets (cs_hash s)) <= gt_next g)%nat
          then Some (gc_next s (cs_hash s) (upd_stats (gc_finish g 1) (cs_env s [])) None)
          else None
      | None => None
      end
  end.

Definition move_actor (m : move) : actor :=
  match m with
  | m_accept _ _ | m_invalidate _ => by_reactor
  | m_start id _ _ | m_work id | m_finish id | m_destroy id | m_release id | m_gone id => by_conn id
  | _ => by_gc
  end.

Lemma all_conns_spec P s id c : all_conns P s = true -> cs_conns s !! id = Some c -> P c = true.
Proof.
  unfold all_conns. rewrite forallb_forall. intros Hf Hl. apply (Hf (id, c)), list_elem_of_In.
  by apply elem_of_map_to_list.
Qed.

(** The socket a move is about. *)
Definition move_id (m : move) : option nat :=
  match m with
  | m_start id _ _ | m_work id | m_finish id | m_invalidate id | m_destroy id | m_release id | m_gone id => Some id
  | _ => None
  end.

Lemma move_conn_step m s id c s' :
  move_id m = Some id -> cs_conns s !! id = Some c -> move_conn m s id c = Some s' ->
  cstep sample_sk sample_config (move_actor m) s s'.
Proof.
  intros Hm Hl. unfold move_conn. destruct m; try done; injection Hm as ->; cbn [move_actor];
    destruct (cn_act c) as [p|r w|l] eqn:Eact; try done.
  - intros [= <-]. by eapply c_start.
  - destruct (work_step _ _ _ _ _ _ _) as [[x|[w' hash]] e] eqn:Ew; [done|].
    intros [= <-]. by eapply c_work; [exact Hl|exact Eact| |exact Ew].
  - destruct w; try done. intros [= <-]. by eapply c_finish.
  - destruct (cn_valid c) eqn:Ev; [|done]. intros [= <-]. rewrite <- Eact. by eapply c_invalidate.
  - destruct (cn_valid c) eqn:Ev; [|done]. intros [= <-]. rewrite <- Eact. by eapply c_invalidate.
  - destruct (cn_valid c) eqn:Ev; [|done]. intros [= <-]. rewrite <- Eact. by eapply c_invalidate.
  - destruct (cn_valid c) eqn:Ev; [done|]. intros [= <-]. by eapply c_destroy.
  - destruct l as [|k l]; [done|]. destruct (unlock_one _ _ _ _ _ _) as [[x|hash] e] eqn:Eu; [done|].
    intros [= <-]. by eapply c_release; [exact Hl|exact Eact| |exact Eu].
  - destruct l; [|done]. intros [= <-]. by eapply c_gone.
Qed.

Lemma do_move_step m s s' :
  do_move m s = Some s' -> cstep sample_sk sample_config (move_actor m) s s'.
Proof.
  destruct m as [id fd|id sl d|id|id|id|id|id|id|sl nsl| |]; cbn [do_move];
    try (intros (c&Hl&Hm)%bind_Some; by eapply move_conn_step).
  - destruct (decide (0 <= fd)); [|done]. destruct (cs_conns s !! id) eqn:El; [done|].
    destruct (all_conns _ s) eqn:Ec; [|done]. intros [= <-]. apply c_accept; [done|done|].
    intros id' c Hl E. pose proof (all_conns_spec _ _ _ _ Ec Hl) as Hp. cbn in Hp.
    rewrite E, Z.eqb_refl in Hp. by destruct (cn_valid c).
  - destruct (cs_gc s) eqn:Eg; [done|]. intros [= <-]. by apply c_gc_begin.
  - destruct (cs_gc s) as [g|] eqn:Eg; [|done]. destruct (decide _); [|done].
    destruct (gc_visit _ _ _ _) as [[x|hash] e] eqn:Ev; [done|].
    intros [= <-]. by eapply c_gc_visit.
  - destruct (cs_gc s) as [g|] eqn:Eg; [|done]. destruct (decide _); [|done].
    intros [= <-]. by apply c_gc_end.
Qed.

Fixpoint do_moves (ms : list move) (s : csys) : option csys :=
  match ms with
  | [] => Some s
  | m :: ms' => s' ← do_move m s; do_moves ms' s'
  end.

Lemma do_moves_steps ms s s' :
  do_moves ms s = Some s' -> rtc (any_step sample_sk sample_config) s s'.
Proof.
  revert s. induction ms as [|m ms IH]; intros s; cbn [do_moves]; [by intros [= <-]|].
  destruct (do_move m s) as [s1|] eqn:E; [|done]. cbn. intros Hr.
  eapply rtc_l; [exists (move_actor m); by apply do_move_step|by apply IH].
Qed.

(** The condition on orderly runs. *)
Definition careful (m : move) (s : csys) : bool :=
  match m with
  | m_accept _ fd => all_conns (fun c => negb (cn_fd c =? fd) || inert c) s
  | m_start id _ _ =>
      match cs_conns s !! id with
      | Some c => cn_valid c || match cn_locks c with [] => true | _ => false end
      | None => true
      end
  | _ => true
  end.

Definition do_orderly (m : move) (s : csys) : option csys :=
  if careful m s then do_move m s else None.

(** A move on a socket leaves the others alone, and only [m_start] starts a job. *)
Lemma move_conn_conns m s id c s' :
  move_conn m s id c = Some s' ->
  (forall id', id' <> id -> cs_conns s' !! id' = cs_conns s !! id') /\
  (forall c' p r w, cs_conns s' !! id = Some c' -> cn_act c = idle p -> cn_act c' = working r w ->
     exists id' sl d, m = m_start id' sl d).
Proof.
  unfold move_conn. destruct m; destruct (cn_act c) as [p|r w|l] eqn:Eact; try done.
  all: repeat case_match; try done; intros [= <-]; cbn [cs_conns conn_next].
  all: split; [intros id' Hd; by rewrite ?lookup_insert_ne, ?lookup_delete_ne|].
  all: intros c' p' r' w' Hl [= <-] E; rewrite ?lookup_insert_eq, ?lookup_delete_eq in Hl; try done.
  all: first [by eexists _, _, _|by injection Hl as <-].
Qed.

Lemma careful_conn m s id c s' :
  move_id m = Some id -> cs_conns s !! id = Some c -> move_conn m s id c = Some s' -> careful m s = true ->
  fresh_descriptor s s' /\ prompt_job s s'.
Proof.
  intros Hm Hl Hs' Hc. destruct (move_conn_conns m s id c s' Hs') as [Hother Hstart]. split.
  - intros id0 c' Hn Hl'. destruct (decide (id0 = id)) as [-> |Hd]; [congruence|].
    rewrite Hother in Hl' by done. congruence.
  - intros id0 c0 c' p r w Hl0 Ei Hl' Ew. destruct (decide (id0 = id)) as [-> |Hd].
    + assert (c0 = c) as -> by congruence. destruct (Hstart _ _ _ _ Hl' Ei Ew) as (id'&sl&d&->).
      injection Hm as ->. cbn [careful] in Hc. rewrite Hl in Hc.
      destruct (cn_valid c); [by left|right]. by destruct (cn_locks c).
    + rewrite Hother in Hl' by done. congruence.
Qed.

Lemma same_conns_careful s s' : cs_conns s' = cs_conns s -> fresh_descriptor s s' /\ prompt_job s s'.
Proof.
  intros E. split.
  - intros id c' Hn Hl. congruence.
  - intros id c c' p r w Hl Ei Hl' Ew. congruence.
Qed.

Lemma do_orderly_step m s s' :
  do_orderly m s = Some s' -> orderly sample_sk sample_config (move_actor m) s s'.
Proof.
  unfold do_orderly. destruct (careful m s) eqn:Hc; [|done]. intros Hm. split; [by apply do_move_step|].
  destruct m as [id fd|id sl d|id|id|id|id|id|id|sl nsl| |]; cbn [do_move] in Hm;
    try (apply bind_Some in Hm as (c&Hl&Hm); eapply careful_conn; [|exact Hl|exact Hm|exact Hc]; done).
  - destruct (decide _); [|done]. destruct (cs_conns s !! id) eqn:El; [done|].
    destruct (all_conns _ s); [|done]. injection Hm as <-. split.
    + intros id0 c' Hn Hl id' c Hl' E. cbn in Hl. apply lookup_insert_Some in Hl as [[<- <-]|[_ Hl]]; [|congruence].
      pose proof (all_conns_spec _ _ _ _ Hc Hl') as Hp. cbn in Hp, E. by rewrite E, Z.eqb_refl in Hp.
    + intros id0 c0 c' p r w Hl Ei Hl' Ew. cbn in Hl'. apply lookup_insert_Some in Hl' as [[<- <-]|[_ Hl']]; congruence.
  - destruct (cs_gc s); [done|]. injection Hm as <-. by apply same_conns_careful.
  - destruct (cs_gc s) as [g|]; [|done]. destruct (decide _); [|done].
    destruct (gc_visit _ _ _ _) as [[x|hash] e]; [done|]. injection Hm as <-. by apply same_conns_careful.
  - destruct (cs_gc s) as [g|]; [|done]. destruct (decide _); [|done]. injection Hm as <-. by apply same_conns_careful.
Qed.

Fixpoint do_orderlies (ms : list move) (s : csys) : option csys :=
  match ms with
  | [] => Some s
  | m :: ms' => s' ← do_orderly m s; do_orderlies ms' s'
  end.

Lemma do_orderlies_steps ms s s' :
  do_orderlies ms s = Some s' -> rtc (orderly_step sample_sk sample_config) s s'.
Proof.
  revert s. induction ms as [|m ms IH]; intros s; cbn [do_orderlies]; [by intros [= <-]|].
  destruct (do_orderly m s) as [s1|] eqn:E; [|done]. cbn. intros Hr.
  eapply rtc_l; [exists (move_actor m); by apply do_orderly_step|by apply IH].
Qed.

Lemma do_orderlies_others id ms s s' :
  Forall (fun m => move_actor m <> by_conn id) ms ->
  do_orderlies ms s = Some s' -> rtc (others_step sample_sk sample_config id) s s'.
Proof.
  intros Hf. revert s. induction Hf as [|m ms Hm _ IH]; intros s; cbn [do_orderlies]; [by intros [= <-]|].
  destruct (do_orderly m s) as [s1|] eqn:E; [|done]. cbn. intros Hr.
  eapply rtc_l; [exists (move_actor m); split; [done|by apply do_orderly_step]|by apply IH].
Qed.

(** Two connections and a collection in the middle of their work: the first has locked an
    object and is reading two keys, the second is releasing its locks.  The first has the descriptor
    number of a socket that is not yet destructed. *)
Definition sample_moves : list move :=
  [m_accept 4 5; m_invalidate 4; m_accept 5 5; m_accept 6 6;
   m_start 5 [] (line "set a 1 0 2" ++ line "xy" ++ line "lock a" ++ line "get a b");
   m_start 6 [] (line "set b 0 0 1" ++ line "z" ++ line "lock b" ++ line "unlock_all");
   m_work 5; m_work 6; m_work 5; m_work 6; m_work 5; m_work 6; m_gc_begin [] []; m_work 5; m_work 6;
   m_gc_visit; m_work 5; m_gc_visit].

Definition sample_conc : csys := default sample_cs (do_orderlies sample_moves sample_cs).

Lemma sample_conc_reachable : rtc (orderly_step sample_sk sample_config) sample_cs sample_conc.
Proof. apply (do_orderlies_steps sample_moves). vm_compute. reflexivity. Qed.

Lemma sample_conc_lookup : t_map (cs_hash sample_conc) !! lit "a" = Some (0%nat, sample_locked).
Proof. vm_compute. reflexivity. Qed.

Lemma orderly_any s s' : orderly_step sample_sk sample_config s s' -> any_step sample_sk sample_config s s'.
Proof. intros (a&Hst&_). by exists a. Qed.

Lemma sample_conc_any : rtc (any_step sample_sk sample_config) sample_cs sample_conc.
Proof. apply (rtc_subrel _ _ _ _ orderly_any), sample_conc_reachable. Qed.

Lemma conc_lock_owner_witness :
  exists id c, cs_conns sample_conc !! id = Some c /\ cn_fd c = 5 /\
    {| kr_addr := 0; kr_data := lit "a" |} ∈ holds c /\ {| kr_addr := 0; kr_data := lit "a" |} ∈ cn_locks c /\
    forall id' c', cs_conns sample_conc !! id' = Some c' -> {| kr_addr := 0; kr_data := lit "a" |} ∈ holds c' -> id' = id.
Proof.
  apply (proj1 (conc_lock_owner sample_sk sample_config sample_cs sample_conc sample_cs_initial
           sample_conc_reachable) (lit "a") 0%nat sample_locked); [exact sample_conc_lookup|reflexivity].
Defined.

Definition conn_at (s : csys) (id : nat) : conn := default (new_conn 0) (cs_conns s !! id).

Lemma conc_never_fails_witness :
  exists r w, cs_conns sample_conc !! 6%nat = Some (conn_at sample_conc 6) /\ cn_act (conn_at sample_conc 6) = working r w /\
    match (work_step sample_sk r sample_clock sample_u (receives (conn_at sample_conc 6) w) (cs_hash sample_conc)
             (cs_env sample_conc (cn_locks (conn_at sample_conc 6)))).1 with
    | inr _ => True
    | inl x => x = bad_read \/ (x = system_error /\ recv_failed (receives (conn_at sample_conc 6) w))
    end.
Proof.
  assert (cs_conns sample_conc !! 6%nat = Some (conn_at sample_conc 6)) as El by (vm_compute; reflexivity).
  destruct (cn_act (conn_at sample_conc 6)) as [p|r w|l] eqn:E; [vm_compute in E; discriminate E| |vm_compute in E; discriminate E].
  exists r, w. split; [exact El|]. split; [reflexivity|].
  apply (proj1 (conc_never_fails sample_sk sample_config sample_cs sample_conc sample_cs_initial
           sample_conc_reachable) 6%nat (conn_at sample_conc 6) r r sample_clock sample_u w El E).
  split; [reflexivity|split; reflexivity].
Defined.

(** The second connection goes on and then tries to overwrite and to delete the locked
    object, the collection goes on, the reactor invalidates the first connection, and a
    third comes. *)
Definition sample_attack_moves : list move :=
  [m_work 6; m_gc_visit; m_work 6; m_work 6; m_work 6; m_finish 6; m_invalidate 5;
   m_start 6 [] (line "set a 0 0 1" ++ line "w" ++ line "delete a"); m_destroy 4; m_gone 4; m_accept 7 7;
   m_gc_visit; m_work 6; m_work 6; m_gc_visit; m_work 6; m_gc_visit; m_gc_visit].

Definition sample_attacked : csys := default sample_cs (do_orderlies sample_attack_moves sample_conc).

Lemma conc_locks_protect_witness :
  exists o', t_map (cs_hash sample_attacked) !! lit "a" = Some (0%nat, o') /\
    same_value sample_locked o'.
Proof.
  apply (conc_locks_protect sample_sk sample_config sample_cs sample_conc sample_cs_initial
           sample_conc_reachable sample_attacked 5%nat (conn_at sample_conc 5) (lit "a") 0%nat sample_locked).
  - apply (do_orderlies_others 5 sample_attack_moves); [repeat constructor; discriminate|].
    vm_compute. reflexivity.
  - vm_compute. reflexivity.
  - vm_compute. left.
  - exact sample_conc_lookup.
Defined.

Definition sample_visited : csys := default sample_cs (do_move m_gc_visit sample_conc).

Lemma conc_gc_visit_witness :
  exists g now, cs_gc sample_conc = Some g /\ forall k,
    if decide (bucket_index (cs_hash sample_conc) (make_hash_key sample_sk k) = gt_next g)
    then gc_outcome (collects (gt_flush g) (gt_evict_age g) (flush_time (cs_stats sample_conc)) now)
           (t_map (cs_hash sample_conc) !! k) (t_map (cs_hash sample_visited) !! k)
    else t_map (cs_hash sample_visited) !! k = t_map (cs_hash sample_conc) !! k.
Proof.
  destruct (cs_gc sample_conc) as [g|] eqn:Eg; [|vm_compute in Eg; discriminate].
  destruct (cs_gc sample_visited) as [g'|] eqn:Eg'; [|vm_compute in Eg'; discriminate].
  destruct (conc_gc_visit sample_sk sample_config sample_cs sample_conc
    sample_visited g g' sample_cs_initial sample_conc_any) as (_&now&Hv); [|done|done|].
  - apply (do_move_step m_gc_visit). vm_compute. reflexivity.
  - exists g, now. by split.
Defined.

(** ** A lost flush

    [gc_thread::gc] decides at its start whether to flush, and clears [flush_time] at its
    end.  A [flush_all] that arrives in between is lost: the objects it made invisible
    come back. *)
Definition flush_moves : list move :=
  [m_accept 5 5; m_start 5 [] (line "flush_all"); m_work 5; m_work 5; m_work 5; m_work 5; m_finish 5;
   m_gc_begin [] []; m_gc_visit; m_gc_visit; m_gc_visit; m_gc_visit; m_gc_visit; m_gc_visit; m_gc_visit;
   m_start 5 [] (line "set b 0 0 1" ++ line "z" ++ line "flush_all");
   m_work 5; m_work 5; m_work 5; m_work 5; m_work 5; m_finish 5].

Definition before_end : csys := default sample_cs (do_moves flush_moves sample_cs).
Definition after_end : csys := default sample_cs (do_move m_gc_end before_end).
Definition flushed_object : object :=
  {| o_length := 1; o_data := lit "z"; o_file := None; o_flags := 0; o_exptime := 0; o_cas := 1;
     o_gc_old := 0; o_lock := -1 |}.

Theorem flush_lost :
  exists s s' b o, rtc (any_step sample_sk sample_config) sample_cs s /\
    cstep sample_sk sample_config by_gc s s' /\
    t_map (cs_hash s) !! lit "b" = Some (b, o) /\ t_map (cs_hash s') !! lit "b" = Some (b, o) /\
    expired (flush_time (cs_stats s)) 1000 o = true /\
    expired (flush_time (cs_stats s')) 1000 o = false.
Proof.
  exists before_end, after_end, 0%nat, flushed_object. split_and!.
  - apply (do_moves_steps flush_moves). vm_compute. reflexivity.
  - apply (do_move_step m_gc_end). vm_compute. reflexivity.
  - vm_compute. reflexivity.
  - vm_compute. reflexivity.
  - vm_compute. reflexivity.
  - vm_compute. reflexivity.
Qed.

(** ** What happens in disorderly runs

    The first socket locks an object and is invalidated; before it is destructed, its
    descriptor number goes to the second socket, which overwrites the object and fails when
    it unlocks it. *)
Definition lock_moves : list move :=
  [m_accept 1 5; m_start 1 [] (line "set a 1 0 2" ++ line "xy" ++ line "lock a");
   m_work 1; m_work 1; m_work 1; m_work 1; m_work 1; m_finish 1; m_invalidate 1].
Definition reuse_moves : list move :=
  [m_accept 2 5; m_start 2 [] (line "set a 0 0 1" ++ line "w" ++ line "unlock a"); m_work 2; m_work 2].

Definition left_locked : csys := default sample_cs (do_moves lock_moves sample_cs).
Definition reused : csys := default sample_cs (do_moves reuse_moves left_locked).

Lemma left_locked_reachable : rtc (orderly_step sample_sk sample_config) sample_cs left_locked.
Proof. apply (do_orderlies_steps lock_moves). vm_compute. reflexivity. Qed.

(** The next step of the job of a socket. *)
Definition next_step (s : csys) (id : nat) : option (exn + work * hash_map object) :=
  match cn_act (conn_at s id) with
  | working r w => Some (work_step sample_sk r sample_clock sample_u (receives (conn_at s id) w) (cs_hash s)
                           (cs_env s (cn_locks (conn_at s id)))).1
  | _ => None
  end.

Theorem reuse_fails :
  rtc (orderly_step sample_sk sample_config) sample_cs left_locked /\
  rtc (any_step sample_sk sample_config) left_locked reused /\
  {| kr_addr := 0; kr_data := lit "a" |} ∈ holds (conn_at left_locked 1) /\
  conn_at reused 1 = conn_at left_locked 1 /\
  contents <$> (snd <$> t_map (cs_hash left_locked) !! lit "a") = Some (lit "xy") /\
  contents <$> (snd <$> t_map (cs_hash reused) !! lit "a") = Some (lit "w") /\
  next_step reused 2 = Some (inl logic_error).
Proof.
  split; [exact left_locked_reachable|]. split_and!.
  - apply (do_moves_steps reuse_moves). vm_compute. reflexivity.
  - vm_compute. left.
  - vm_compute. reflexivity.
  - vm_compute. reflexivity.
  - vm_compute. reflexivity.
  - vm_compute. reflexivity.
Qed.

(** A job that starts on the invalidated socket fails with the context of another
    connection. *)
Definition late_moves : list move := [m_start 1 [] []; m_work 1].
Definition late : csys := default sample_cs (do_moves late_moves left_locked).

Theorem late_job_fails :
  rtc (any_step sample_sk sample_config) left_locked late /\ next_step late 1 = Some (inl logic_error).
Proof.
  split; [apply (do_moves_steps late_moves); vm_compute; reflexivity|vm_compute; reflexivity].
Qed.
