(* ===== verification/Mirror.v ===== *)
(** * What the master tells a slave

    Every handler that changes an object sends the change to the slaves while it holds the
    mutex of the bucket.  Here: whatever a step of a receive job does to the table, the
    messages that a slave gets for it lead from the old contents to the new.  The
    contents are those of ReplicationSpec: value, flags and expiration time under each key. *)

From S2P Require Import Prelude CLib Siphash Table HashMap HashMapSpec MemTypes TextRequest.
From S2P Require Import BinaryRequest MemState MemObject MemObjectSpec Response Stats.
From S2P Require Import Replication ReplicationSpec MemSocket MemSocketSpec MemWork MemWorkSpec.

Import replication.

(** ** The messages of one slave *)

(** The bytes for the slave [i] in a list of outputs. *)
Definition to_slave (i : nat) (l : list output) : bytes :=
  l ≫= fun o => match o with
                | out_repl j d _ => if decide (j = i) then d else []
                | _ => []
                end.
Definition sent_to (i : nat) (e : env) : bytes := to_slave i (e_out e).

Lemma sent_emit i o e : sent_to i (emit o e) = sent_to i e ++ to_slave i [o].
Proof. unfold sent_to, to_slave. cbn [e_out emit]. by rewrite bind_app. Qed.

#[export] Instance blind_slave i : Blind (sent_to i).
Proof.
  constructor; [|done|done]. intros o e Ho. rewrite sent_emit. by destruct o; cbn; rewrite ?app_nil_r.
Qed.

Lemma sendv_slaves_cons j l iov f e :
  sendv_slaves (j :: l) iov f e = sendv_slaves l iov f (emit (out_repl j (concat iov) f) e).
Proof. done. Qed.

Lemma sent_repl i j d f e :
  sent_to i (emit (out_repl j d f) e) = if decide (j = i) then sent_to i e ++ d else sent_to i e.
Proof. rewrite sent_emit. cbn. case_decide; by rewrite !app_nil_r. Qed.

Lemma sent_other i l iov f e :
  i ∉ l -> exists e', sendv_slaves l iov f e = (inr tt, e') /\ sent_to i e' = sent_to i e.
Proof.
  revert e. induction l as [|j l IH]; intros e Hi; [by exists e|].
  apply not_elem_of_cons in Hi as [Hne Hi]. rewrite sendv_slaves_cons.
  destruct (IH (emit (out_repl j (concat iov) f) e) Hi) as (e'&->&He). exists e'. split; [done|].
  by rewrite He, sent_repl, decide_False.
Qed.

(** A slave in the list gets the message once. *)
Lemma sent_slaves i l iov f e :
  NoDup l -> i ∈ l ->
  exists e', sendv_slaves l iov f e = (inr tt, e') /\ sent_to i e' = sent_to i e ++ concat iov.
Proof.
  revert e. induction l as [|j l IH]; intros e Hn Hi; [by apply elem_of_nil in Hi|].
  apply NoDup_cons in Hn as [Hj Hn]. rewrite sendv_slaves_cons. destruct (decide (j = i)) as [-> |Hne].
  - destruct (sent_other i l iov f (emit (out_repl i (concat iov) f) e) Hj) as (e'&->&He).
    exists e'. split; [done|]. by rewrite He, sent_repl, decide_True.
  - apply elem_of_cons in Hi as [<-|Hi]; [done|].
    destruct (IH (emit (out_repl j (concat iov) f) e) Hn Hi) as (e'&->&He). exists e'. split; [done|].
    by rewrite He, sent_repl, decide_False.
Qed.

(** ** Master and slave in step *)

Abbreviation values := (gmap bytes value).

(** What a slave makes of a sequence of changes. *)
Definition play (evs : list event) (sv : values) : values :=
  foldl (fun m ev => apply_event ev m) sv evs.

(** The slave has nothing that the master has not, and under the keys in [done] it has what
    the master has. *)
Definition in_step (done : bytes -> Prop) (m sv : values) : Prop := forall k,
  (m !! k = None -> sv !! k = None) /\ (done k -> sv !! k = m !! k).

Lemma in_step_all m sv : in_step (fun _ => True) m sv <-> sv = m.
Proof.
  split; [|by intros ->]. intros Hs. apply map_eq. intros k. by apply Hs.
Qed.

Definition and_key (done : bytes -> Prop) (k : bytes) (k' : bytes) : Prop := k' = k \/ done k'.

Lemma in_step_weaken (done done' : bytes -> Prop) m sv :
  (forall k, done' k -> done k) -> in_step done m sv -> in_step done' m sv.
Proof. intros Hd Hs k. destruct (Hs k). auto. Qed.

(** Each change brings its key up to date, a touch if it was. *)
Lemma in_step_object done m sv k o :
  in_step done m sv ->
  in_step (and_key done k) (<[k := value_of o]> m) (apply_event (ev_object k o) sv).
Proof.
  intros Hs k'. cbn. destruct (decide (k = k')) as [<-|Hne]; [by rewrite !lookup_insert_eq|].
  rewrite !lookup_insert_ne by done. destruct (Hs k') as [H1 H2]. split; [done|].
  intros [->|Hd]; [done|by apply H2].
Qed.

Lemma in_step_touch done m sv k o (v : value) :
  m !! k = Some v -> in_step done m sv ->
  in_step done (<[k := (v.1, o_exptime o)]> m) (apply_event (ev_touch k o) sv).
Proof.
  intros Hv Hs k'. cbn. destruct (decide (k = k')) as [<-|Hne].
  - rewrite lookup_insert_eq, lookup_alter_eq. destruct (Hs k) as [_ H2]. split; [done|].
    intros Hd. by rewrite (H2 Hd), Hv.
  - rewrite lookup_insert_ne, lookup_alter_ne by done. apply Hs.
Qed.

Lemma in_step_delete done m sv k :
  in_step done m sv -> in_step (and_key done k) (delete k m) (apply_event (ev_delete k) sv).
Proof.
  intros Hs k'. cbn. destruct (decide (k = k')) as [<-|Hne]; [by rewrite !lookup_delete_eq|].
  rewrite !lookup_delete_ne by done. destruct (Hs k') as [H1 H2]. split; [done|].
  intros [->|Hd]; [done|by apply H2].
Qed.

(** What has been sent to the slave since [out] takes [sv] in step with [m]. *)
Definition follows (i : nat) (done : bytes -> Prop) (out : bytes) (sv m : values) (e : env) : Prop :=
  exists evs, sent_to i e = out ++ stream evs /\ in_step done m (play evs sv).

Lemma follows_start i done m sv e : in_step done m sv -> follows i done (sent_to i e) sv m e.
Proof. intros Hs. exists []. cbn. by rewrite app_nil_r. Qed.

Lemma follows_same i done out sv m e e' :
  sent_to i e' = sent_to i e -> follows i done out sv m e -> follows i done out sv m e'.
Proof. intros He (evs&Ho&Hs). exists evs. by rewrite He. Qed.

Lemma follows_event i done done' out sv m m' ev e e' :
  sent_to i e' = sent_to i e ++ wire ev ->
  (forall s, in_step done m s -> in_step done' m' (apply_event ev s)) ->
  follows i done out sv m e -> follows i done' out sv m' e'.
Proof.
  intros He Hev (evs&Ho&Hs). exists (evs ++ [ev]). split.
  - unfold stream in *. rewrite He, Ho, fmap_app, concat_app, <- app_assoc. cbn. by rewrite app_nil_r.
  - unfold play in *. rewrite foldl_app. cbn. by apply Hev.
Qed.

Lemma follows_weaken i (done done' : bytes -> Prop) out sv m e :
  (forall k, done' k -> done k) -> follows i done out sv m e -> follows i done' out sv m e.
Proof. intros Hd (evs&Ho&Hs). exists evs. split; [done|]. by eapply in_step_weaken. Qed.

(** ** The handlers *)

Lemma value_of_lock n o : value_of (with_lock n o) = value_of o.
Proof. done. Qed.
Lemma value_of_data o : value_of (object_data o).2 = value_of o.
Proof. done. Qed.

Section handlers.
Context (r : request_env) (i : nat) (done : bytes -> Prop) (out : bytes) (sv : values).
Hypothesis (Hnd : NoDup (r_slaves r)) (Hin : i ∈ r_slaves r).
Abbreviation fol := (follows i done out sv).

Lemma has_slaves_true : has_slaves r = true.
Proof using Hin. clear Hnd. unfold has_slaves. destruct (r_slaves r); [by apply elem_of_nil in Hin|done]. Qed.

(** Replies, statistics and the list of locks do not matter. *)
Lemma wp_quiet (m : M env unit) mm (Q : unit -> env -> Prop) e :
  keeps (sent_to i) m -> fol mm e -> (forall e', fol mm e' -> Q tt e') -> wp anyx m Q e.
Proof.
  intros Hm Hf HQ. eapply (wp_keeps _ (sent_to i)); [done|]. intros e' He. apply HQ. by eapply follows_same.
Qed.

Lemma quiet_add_lock k : keeps (sent_to i) (add_lock k).
Proof. by apply keeps_modify. Qed.

Lemma wp_remove_lock_any k mm (Q : unit -> env -> Prop) e :
  fol mm e -> (forall e', fol mm e' -> Q tt e') -> wp anyx (remove_lock k) Q e.
Proof.
  intros Hf HQ. unfold remove_lock. apply wp_bind, wp_gets. destruct (erase_lock k (e_locks e)); [|done].
  apply wp_modify, HQ. by eapply follows_same; [|exact Hf].
Qed.

Lemma wp_expired_any o (Q : bool -> env -> Prop) e : (forall b, Q b e) -> wp anyx (is_expired r o) Q e.
Proof. intros HQ. apply wp_bind, wp_gets, wp_ret, HQ. Qed.

Lemma wp_lock_any ctx o (Q : object -> env -> Prop) e :
  (forall o', value_of o' = value_of o -> Q o' e) -> wp anyx (object_lock ctx o) Q e.
Proof. intros HQ. unfold object_lock. destruct (locked o); [done|]. apply wp_ret, HQ, value_of_lock. Qed.

Lemma wp_unlock_any ctx force o (Q : object -> env -> Prop) e :
  (forall o', value_of o' = value_of o -> Q o' e) -> wp anyx (object_unlock ctx force o) Q e.
Proof. intros HQ. unfold object_unlock. destruct (_ && _); [done|]. apply wp_ret, HQ, value_of_lock. Qed.

Lemma wp_new_any o mm (Q : object -> env -> Prop) e :
  fol mm e -> (forall e', fol mm e' -> Q o e') -> wp anyx (new_object o) Q e.
Proof. intros Hf HQ. apply wp_bind. eapply wp_quiet; [apply silent_count, _|done|]. intros e' Hf'. by apply wp_ret, HQ. Qed.

(** The messages. *)
Lemma wp_repl_object k o mm (Q : object -> env -> Prop) e :
  fol mm e ->
  (forall o' e', value_of o' = value_of o -> fol (<[kr_data k := value_of o]> mm) e' -> Q o' e') ->
  wp anyx (replicate_object r k o) Q e.
Proof using Hnd Hin.
  intros Hf HQ. unfold replicate_object, repl_object. rewrite has_slaves_true. apply wp_bind. unfold wp at 1.
  destruct (sent_slaves i (r_slaves r) (object_iov (kr_data k) o) true e Hnd Hin) as (e'&->&He).
  apply wp_ret, HQ; [apply value_of_data|].
  eapply (follows_event i done done out sv mm _ (ev_object (kr_data k) o)); [exact He| |exact Hf]. intros s Hs.
  eapply in_step_weaken; [|by apply in_step_object]. intros k' Hd. by right.
Qed.

Lemma wp_repl_touch k o mm (v : value) (Q : unit -> env -> Prop) e :
  mm !! kr_data k = Some v -> v.1 = (value_of o).1 -> fol mm e ->
  (forall e', fol (<[kr_data k := value_of o]> mm) e' -> Q tt e') -> wp anyx (replicate_touch r k o) Q e.
Proof using Hnd Hin.
  intros Hk Hv Hf HQ. unfold replicate_touch, repl_touch, when. rewrite has_slaves_true. unfold wp.
  destruct (sent_slaves i (r_slaves r) (touch_iov (kr_data k) o) true e Hnd Hin) as (e'&->&He).
  apply HQ. eapply (follows_event i done done out sv mm _ (ev_touch (kr_data k) o)); [exact He| |exact Hf]. intros s Hs.
  pose proof (in_step_touch done mm s (kr_data k) o v Hk Hs) as Ht. rewrite Hv in Ht. exact Ht.
Qed.

Lemma wp_repl_delete k mm (Q : unit -> env -> Prop) e :
  fol mm e -> (forall e', fol (delete k mm) e' -> Q tt e') -> wp anyx (replicate_delete r k) Q e.
Proof using Hnd Hin.
  intros Hf HQ. unfold replicate_delete, repl_delete, when. rewrite has_slaves_true. unfold wp.
  destruct (sent_slaves i (r_slaves r) (delete_iov k) false e Hnd Hin) as (e'&->&He).
  apply HQ. eapply (follows_event i done done out sv mm _ (ev_delete k)); [exact He| |exact Hf]. intros s Hs.
  eapply in_step_weaken; [|by apply in_step_delete]. intros k' Hd. by right.
Qed.

(** A handler, a creator and a predicate that tell the slave what they do. *)
Definition mirrors (h : handler env object) : Prop := forall k o mm e,
  mm !! kr_data k = Some (value_of o) -> fol mm e ->
  wp anyx (h k o) (fun p e' => fol (<[kr_data k := value_of p.2]> mm) e') e.
Definition mirrors_new (c : creator env object) : Prop := forall k mm e,
  fol mm e -> wp anyx (c k) (fun o e' => fol (<[kr_data k := value_of o]> mm) e') e.
Definition mirrors_pred (p : predicate env object) : Prop := forall k o mm e,
  mm !! k = Some (value_of o) -> fol mm e ->
  wp anyx (p k o) (fun q e' => fol (if q.1 : bool then delete k mm else <[k := value_of q.2]> mm) e') e.

(** Run a handler up to its result. *)
Ltac mrun :=
  repeat match goal with
  | |- wp _ (bind (bind _ _) _) _ _ => apply wp_bind, wp_bind
  | |- wp _ (bind (if ?b then _ else _) _) _ _ => apply wp_bind
  | |- wp _ (bind (is_expired _ _) _) _ _ => apply wp_bind, wp_expired_any; intros []
  | |- wp _ (bind (object_lock _ _) _) _ _ => apply wp_bind, wp_lock_any; intros ? ?
  | |- wp _ (bind (object_unlock _ _ _) _) _ _ => apply wp_bind, wp_unlock_any; intros ? ?
  | F : follows _ _ _ _ _ ?e |- wp _ (bind (new_object _) _) _ ?e =>
      apply wp_bind; eapply wp_new_any; [exact F|clear F; intros ? F]
  | F : follows _ _ _ _ _ ?e |- wp _ (bind (remove_lock _) _) _ ?e =>
      apply wp_bind; eapply wp_remove_lock_any; [exact F|clear F; intros ? F]
  | F : follows _ _ _ _ _ ?e |- wp _ (bind (when _ (remove_lock _)) _) _ ?e =>
      apply wp_bind; unfold when at 1
  | F : follows _ _ _ _ _ ?e |- wp _ (remove_lock _) _ ?e =>
      eapply wp_remove_lock_any; [exact F|clear F; intros ? F]
  | F : follows _ _ _ _ _ ?e |- wp _ (bind (replicate_object _ _ _) _) _ ?e =>
      apply wp_bind; eapply wp_repl_object; [exact F|clear F; intros ? ? ? F]
  | F : follows _ _ _ _ _ ?e |- wp _ (replicate_object _ _ _) _ ?e =>
      eapply wp_repl_object; [exact F|clear F; intros ? ? ? F]
  | F : follows _ _ _ _ _ ?e |- wp _ (bind (replicate_delete _ _) _) _ ?e =>
      apply wp_bind; eapply wp_repl_delete; [exact F|clear F; intros ? F]
  | F : follows _ _ _ _ _ ?e |- wp _ (bind (replicate_touch _ _ _) _) _ ?e =>
      apply wp_bind; eapply wp_repl_touch; [eassumption|done|exact F|clear F; intros ? F]
  | F : follows _ _ _ _ _ ?e |- wp _ (bind _ _) _ ?e =>
      apply wp_bind; eapply wp_quiet; [solve [auto using quiet_add_lock with silent]|exact F|clear F; intros ? F]
  | |- wp _ (ret _) _ _ => apply wp_ret; cbn [fst snd]
  | |- wp _ (if ?b then _ else _) _ _ => destruct b eqn:?; cbn [negb andb orb] in *
  | |- wp _ (let _ := _ in _) _ _ => cbv zeta
  end.

(** The value is what it was, or what has been replicated. *)
Lemma follows_kept k o o' mm e :
  mm !! k = Some (value_of o) -> value_of o' = value_of o -> fol mm e -> fol (<[k := value_of o']> mm) e.
Proof. intros Hk -> Hf. by rewrite insert_id. Qed.
Lemma follows_sent k o o' mm e :
  value_of o' = value_of o -> fol (<[k := value_of o]> mm) e -> fol (<[k := value_of o']> mm) e.
Proof. by intros ->. Qed.
Ltac msame := eapply follows_kept; [eassumption|first [done|congruence]|eassumption].
Ltac msent := eapply follows_sent; [eassumption|eassumption].

Section bin.
Context (buf : bytes) (cmd : binary_request).

Lemma bin_touch_mirrors : mirrors (bin_touch_handler r buf cmd).
Proof using Hnd Hin. intros k o mm e Hk F. unfold bin_touch_handler. mrun; [msame|done]. Qed.
Lemma bin_set_mirrors : mirrors (bin_set_handler r buf cmd).
Proof using Hnd Hin. intros k o mm e Hk F. unfold bin_set_handler. mrun; first [msame|msent]. Qed.
Lemma bin_rau_mirrors : mirrors (bin_rau_handler r buf cmd).
Proof using Hnd Hin. intros k o mm e Hk F. unfold bin_rau_handler. mrun; first [msame|msent]. Qed.
Lemma bin_append_mirrors : mirrors (bin_append_handler r buf cmd).
Proof using Hnd Hin. intros k o mm e Hk F. unfold bin_append_handler, bin_modify. mrun; first [msame|msent]. Qed.
Lemma bin_prepend_mirrors : mirrors (bin_prepend_handler r buf cmd).
Proof using Hnd Hin. intros k o mm e Hk F. unfold bin_prepend_handler, bin_modify. mrun; first [msame|msent]. Qed.

Lemma bin_incdec_mirrors res k o mm e :
  mm !! kr_data k = Some (value_of o) -> fol mm e ->
  wp anyx (bin_incdec r buf cmd res k o) (fun p e' => fol (<[kr_data k := value_of p.2]> mm) e') e.
Proof using Hnd Hin.
  intros Hk F. unfold bin_incdec. destruct res as [[n o1]|]; mrun; first [msame|msent].
Qed.
Lemma bin_incr_mirrors : mirrors (bin_incr_handler r buf cmd).
Proof using Hnd Hin.
  intros k o mm e Hk F. unfold bin_incr_handler, bin_modify. mrun; first [msame|by apply bin_incdec_mirrors].
Qed.
Lemma bin_decr_mirrors : mirrors (bin_decr_handler r buf cmd).
Proof using Hnd Hin.
  intros k o mm e Hk F. unfold bin_decr_handler, bin_modify. mrun; first [msame|by apply bin_incdec_mirrors].
Qed.
Lemma bin_lock_mirrors : mirrors (bin_lock_handler r buf cmd).
Proof using Type. intros k o mm e Hk F. unfold bin_lock_handler. mrun; msame. Qed.
Lemma bin_unlock_mirrors : mirrors (bin_unlock_handler r buf cmd).
Proof using Type. intros k o mm e Hk F. unfold bin_unlock_handler. mrun; msame. Qed.

Lemma bin_get_body_mirrors k o mm e :
  mm !! kr_data k = Some (value_of o) -> fol mm e ->
  wp anyx (bin_get_body r buf cmd k o) (fun p e' => fol (<[kr_data k := value_of p.2]> mm) e') e.
Proof using Hnd Hin.
  intros Hk F. unfold bin_get_body. apply wp_bind, wp_expired_any. intros []; [mrun; msame|].
  apply wp_bind. destruct (negb (b_exptime cmd =? EXPTIME_NONE)).
  - cbv zeta. mrun. cbn [object_data]. mrun. exact F.
  - mrun. cbn [object_data]. mrun. msame.
Qed.
Lemma bin_get_mirrors : mirrors (bin_get_handler r buf cmd).
Proof using Hnd Hin.
  intros k o mm e Hk F. unfold bin_get_handler. cbv zeta. mrun; try msame.
  - match goal with H : value_of ?o' = value_of o |- _ => rewrite <- H in Hk end.
    by apply bin_get_body_mirrors.
  - by apply bin_get_body_mirrors.
Qed.
Lemma bin_delete_mirrors : mirrors_pred (bin_delete_pred r buf cmd).
Proof using Hnd Hin.
  intros k o mm e Hk F. unfold bin_delete_pred. mrun; first [done|msame].
Qed.
Lemma bin_set_new_mirrors : mirrors_new (bin_set_creator r buf cmd).
Proof using Hnd Hin. intros k mm e F. unfold bin_set_creator. mrun. msent. Qed.
Lemma bin_incdec_new_mirrors : mirrors_new (bin_incdec_creator r buf cmd).
Proof using Hnd Hin. intros k mm e F. unfold bin_incdec_creator. mrun. msent. Qed.
End bin.

Section text.
Context (buf : bytes) (cmd : text_request).

Lemma text_set_mirrors : mirrors (text_set_handler r buf cmd).
Proof using Hnd Hin. intros k o mm e Hk F. unfold text_set_handler, text_unlocked. mrun; first [msame|msent]. Qed.
Lemma text_append_mirrors : mirrors (text_append_handler r buf cmd).
Proof using Hnd Hin. intros k o mm e Hk F. unfold text_append_handler, text_unlocked. mrun; first [msame|msent]. Qed.
Lemma text_prepend_mirrors : mirrors (text_prepend_handler r buf cmd).
Proof using Hnd Hin. intros k o mm e Hk F. unfold text_prepend_handler, text_unlocked. mrun; first [msame|msent]. Qed.
Lemma text_cas_mirrors : mirrors (text_cas_handler r buf cmd).
Proof using Hnd Hin. intros k o mm e Hk F. unfold text_cas_handler, text_unlocked. mrun; first [msame|msent]. Qed.
Lemma text_incdec_mirrors res k o mm e :
  mm !! kr_data k = Some (value_of o) -> fol mm e ->
  wp anyx (text_incdec r cmd res k o) (fun p e' => fol (<[kr_data k := value_of p.2]> mm) e') e.
Proof using Hnd Hin.
  intros Hk F. unfold text_incdec. destruct res as [[n o1]|]; mrun; first [msame|msent].
Qed.
Lemma text_incr_mirrors : mirrors (text_incr_handler r cmd).
Proof using Hnd Hin.
  intros k o mm e Hk F. unfold text_incr_handler, text_unlocked. mrun; first [msame|by apply text_incdec_mirrors].
Qed.
Lemma text_decr_mirrors : mirrors (text_decr_handler r cmd).
Proof using Hnd Hin.
  intros k o mm e Hk F. unfold text_decr_handler, text_unlocked. mrun; first [msame|by apply text_incdec_mirrors].
Qed.
Lemma text_touch_mirrors : mirrors (text_touch_handler r cmd).
Proof using Hnd Hin. intros k o mm e Hk F. unfold text_touch_handler. mrun; [msame|done]. Qed.
Lemma text_lock_mirrors : mirrors (text_lock_handler r).
Proof using Type. intros k o mm e Hk F. unfold text_lock_handler. mrun; msame. Qed.
Lemma text_unlock_mirrors : mirrors (text_unlock_handler r).
Proof using Type. intros k o mm e Hk F. unfold text_unlock_handler. mrun; msame. Qed.
Lemma text_delete_mirrors : mirrors_pred (text_delete_pred r cmd).
Proof using Hnd Hin. intros k o mm e Hk F. unfold text_delete_pred. mrun; first [done|msame]. Qed.
Lemma text_set_new_mirrors : mirrors_new (text_set_creator r buf cmd).
Proof using Hnd Hin. intros k mm e F. unfold text_set_creator. mrun. msent. Qed.
Lemma text_get_mirrors : mirrors (text_get_handler r cmd).
Proof using Type.
  intros k o mm e Hk F. unfold text_get_handler. apply wp_bind, wp_expired_any. intros []; [mrun; msame|].
  cbn [object_data]. unfold text_response.value. destruct (_ >? _); [done|]. mrun. msame.
Qed.
End text.

Lemma unlock_mirrors force : mirrors (unlock_handler r force).
Proof using Type. intros k o mm e Hk F. unfold unlock_handler. mrun. msame. Qed.
End handlers.

(** ** Commands on the table *)

Section commands.
Context (sk : sip_key) (r : request_env) (i : nat) (done : bytes -> Prop) (out : bytes) (sv : values).
Hypothesis (Hnd : NoDup (r_slaves r)) (Hin : i ∈ r_slaves r).
#[local] Instance mirror_ops : TableOps (hash_map object) object := hash_map_ops sk object.
#[local] Instance mirror_laws : Table (hash_map object) object := hash_map_table sk object.
Abbreviation table := (hash_map object).
Context (size : Z).

(** The slave is in step with the table, whose number of buckets does not change. *)
Record table_follows (hash : table) (e : env) : Prop := {
  tf_inv : t_inv hash;
  tf_size : m_size hash = size;
  tf_follows : follows i done out sv (view (t_map hash)) e
}.
Abbreviation fol := (follows i done out sv).
Abbreviation mirrors := (mirrors i done out sv).
Abbreviation mirrors_new := (mirrors_new i done out sv).
Abbreviation mirrors_pred := (mirrors_pred i done out sv).

Lemma view_lookup (m : gmap bytes (nat * object)) k a o :
  m !! k = Some (a, o) -> view m !! k = Some (value_of o).
Proof. intros Hk. unfold view. by rewrite lookup_fmap, Hk. Qed.

Lemma size_put (hash : table) k o : m_size (t_put hash k o) = m_size hash.
Proof. cbn. unfold put. by destruct (find_item _ _) as [[]|]. Qed.
Lemma size_del (hash : table) k : m_size (t_del hash k) = m_size hash.
Proof. cbn. unfold del. by destruct (find_item _ _) as [[]|]. Qed.

Lemma tf_skip hash e : table_follows hash e -> table_follows (t_skip hash) e.
Proof. intros [Hi Hn Hf]. constructor; [by apply t_skip_inv|done|by rewrite t_skip_map]. Qed.

Lemma tf_put hash k a o o' e :
  t_inv hash -> m_size hash = size -> t_map hash !! k = Some (a, o) ->
  fol (<[k := value_of o']> (view (t_map hash))) e -> table_follows (t_put hash k o') e.
Proof.
  intros Hi Hn Hk Hf. constructor; [by apply t_put_inv|by rewrite size_put|].
  by rewrite (t_put_map _ _ _ _ _ Hi Hk), view_insert.
Qed.

Lemma wp_apply_mirrors k h c (hash : table) (Q : bool * table -> env -> Prop) e :
  mirrors h -> (forall x, c = Some x -> mirrors_new x) -> table_follows hash e ->
  (forall b hash' e', table_follows hash' e' -> Q (b, hash') e') ->
  wp anyx (t_apply hash k (Some h) c) Q e.
Proof.
  intros Hh Hc Hf HQ. pose proof Hf as [Hi Hn Hv].
  destruct (t_map hash !! k) as [[a o]|] eqn:Hk.
  - eapply wp_apply_hit; [exact Hi|exact Hk|]. eapply wp_mono; [apply Hh; [by eapply view_lookup|exact Hv]|].
    intros [b o'] e' Hf'. by eapply HQ, tf_put.
  - destruct c as [c|].
    + eapply wp_apply_miss; [exact Hi|exact Hk|]. eapply wp_mono; [by apply (Hc c)|].
      intros o e' Hf'. apply HQ. constructor; [by apply t_new_inv|done|].
      by rewrite (t_new_map _ _ _ Hi Hk), view_insert.
    + eapply wp_apply_none; [exact Hi|exact Hk|]. by apply HQ, tf_skip.
Qed.

Lemma wp_remove_mirrors k p (hash : table) (Q : bool * table -> env -> Prop) e :
  mirrors_pred p -> table_follows hash e ->
  (forall b hash' e', table_follows hash' e' -> Q (b, hash') e') ->
  wp anyx (t_remove_if hash k p) Q e.
Proof.
  intros Hp Hf HQ. pose proof Hf as [Hi Hn Hv].
  destruct (t_map hash !! k) as [[a o]|] eqn:Hk.
  - eapply wp_remove_if_hit; [exact Hi|exact Hk|]. eapply wp_mono; [apply Hp; [by eapply view_lookup|exact Hv]|].
    intros [[] o'] e' Hf'; cbn [fst snd] in *; apply HQ.
    + constructor; [by apply t_del_inv|by rewrite size_del|]. rewrite t_del_map by done.
      unfold view. by rewrite fmap_delete.
    + by eapply tf_put.
  - unfold wp. rewrite (t_remove_if_miss _ _ _ _ Hi Hk). by apply HQ, tf_skip.
Qed.

(** A reply, and then the table as it is. *)
Lemma wp_finish (m : M env unit) (hash : table) e :
  keeps (sent_to i) m -> table_follows hash e -> wp anyx (m ;;! ret hash) table_follows e.
Proof.
  intros Hm [Hi Hn Hf]. apply wp_bind. eapply (wp_quiet i done out sv); [done|exact Hf|].
  intros e' Hf'. by apply wp_ret.
Qed.

Lemma tf_same hash e e' : sent_to i e' = sent_to i e -> table_follows hash e -> table_follows hash e'.
Proof. intros He [Hi Hn Hf]. constructor; [done|done|]. by eapply follows_same. Qed.

(** A visitor that only replies. *)
Definition quiet_visitor (v : visitor env object) : Prop := forall k o e,
  wp anyx (v k o) (fun _ e' => sent_to i e' = sent_to i e) e.

Lemma wp_visits {A} (f : A -> M env unit) l e :
  (forall a e, wp anyx (f a) (fun _ e' => sent_to i e' = sent_to i e) e) ->
  wp anyx (iterM f l) (fun _ e' => sent_to i e' = sent_to i e) e.
Proof.
  intros Hf. revert e. induction l as [|a l IH]; intros e; [by apply wp_ret|]. cbn [iterM].
  apply wp_bind. eapply wp_mono; [apply Hf|]. intros [] e1 He1. eapply wp_mono; [apply IH|].
  intros [] e2 He2. congruence.
Qed.

Lemma wp_foreach_quiet (hash : table) v (Q : unit -> env -> Prop) e :
  quiet_visitor v -> (forall e', sent_to i e' = sent_to i e -> Q tt e') -> wp anyx (t_foreach hash v) Q e.
Proof.
  intros Hv HQ. unfold wp. rewrite t_foreach_spec. apply (wp_mono _ _ (fun _ e' => sent_to i e' = sent_to i e)).
  - apply wp_visits. intros [k o] e1. apply Hv.
  - intros [] e' He. by apply HQ.
Qed.

Lemma wp_unlock_one k force (hash : table) e :
  table_follows hash e ->
  wp anyx (let! (_, hash) := t_apply hash (kr_data k) (Some (unlock_handler r force)) None in ret hash)
    table_follows e.
Proof.
  intros Hf. apply wp_bind. eapply wp_apply_mirrors; [apply unlock_mirrors|done|exact Hf|].
  intros b hash' e' Hf'. by apply wp_ret.
Qed.

Lemma wp_unlock_all (m : M env unit) (hash : table) e :
  keeps (sent_to i) m -> table_follows hash e ->
  wp anyx (let! hash := unlock_all r hash in m ;;! ret hash) table_follows e.
Proof.
  intros Hm Hf. apply wp_bind. unfold unlock_all. apply wp_bind, wp_gets, wp_bind.
  generalize (e_locks e). intros l. revert hash e Hf. induction l as [|k l IH]; intros hash e Hf.
  - apply wp_ret, wp_bind, wp_modify, wp_ret. apply wp_finish; [done|]. by eapply tf_same; [|exact Hf].
  - cbn [unlock_each]. apply wp_bind. eapply wp_apply_mirrors; [apply unlock_mirrors|done|exact Hf|].
    intros b hash' e' Hf'. by apply IH.
Qed.

Section bin.
Context (buf : bytes) (cmd : binary_request).

Lemma bin_apply_follows h c hash e :
  mirrors h -> (forall x, c = Some x -> mirrors_new x) -> table_follows hash e ->
  wp anyx (bin_apply buf cmd h c hash) table_follows e.
Proof.
  intros Hh Hc Hf. unfold bin_apply. apply wp_bind. eapply wp_apply_mirrors; [exact Hh|exact Hc|exact Hf|].
  intros b hash' e' Hf'. apply wp_finish; [auto with silent|done].
Qed.

Lemma bin_checked_follows hash m e :
  table_follows hash e -> wp anyx m table_follows e ->
  wp anyx (bin_checked r buf cmd hash m) table_follows e.
Proof.
  intros Hf Hm. unfold bin_checked. repeat (case_match; [apply wp_finish; [auto with silent|done]|]). done.
Qed.

Lemma bin_set_follows hash e : table_follows hash e -> wp anyx (bin_set r buf cmd hash) table_follows e.
Proof using Hnd Hin.
  intros Hf. unfold bin_set. apply bin_checked_follows; [done|]. cbv zeta. apply wp_bind.
  eapply wp_apply_mirrors; [by apply bin_set_mirrors| |exact Hf|].
  - intros x. destruct (_ && _); [|done]. intros [= <-]. by apply bin_set_new_mirrors.
  - intros b hash' e' Hf'. apply wp_finish; [auto with silent|done].
Qed.

Lemma bin_get_follows hash e : table_follows hash e -> wp anyx (bin_get r buf cmd hash) table_follows e.
Proof using Hnd Hin.
  intros Hf. unfold bin_get. apply wp_bind.
  eapply wp_apply_mirrors; [by apply bin_get_mirrors|done|exact Hf|].
  intros b hash' e' Hf'. apply wp_finish; [destruct b; cbn [negb]; auto with silent|done].
Qed.

Lemma bin_delete_follows hash e : table_follows hash e -> wp anyx (bin_delete r buf cmd hash) table_follows e.
Proof using Hnd Hin.
  intros Hf. unfold bin_delete. apply wp_bind.
  eapply wp_remove_mirrors; [by apply bin_delete_mirrors|exact Hf|].
  intros b hash' e' Hf'. apply wp_finish; [auto with silent|done].
Qed.

Lemma bin_keys_quiet : quiet_visitor (bin_keys_pred r buf cmd).
Proof.
  intros k o e. unfold bin_keys_pred. apply wp_bind, wp_expired_any. intros []; [by apply wp_ret|].
  eapply (wp_keeps _ (sent_to i)); [auto with silent|]. by intros e' He.
Qed.

Lemma quiet_binary_stats t : keeps (sent_to i) (binary_stats r cmd (opaque buf) t).
Proof.
  unfold binary_stats. apply keeps_gets. intros st. apply keeps_bind; [|auto with silent].
  apply keeps_iterM. intros nv. auto with silent.
Qed.

Lemma bin_incdec_c_mirrors c : bin_incdec_c r buf cmd = Some c -> mirrors_new c.
Proof using Hnd Hin.
  unfold bin_incdec_c. destruct (negb _); [|done]. intros [= <-]. by apply bin_incdec_new_mirrors.
Qed.

Lemma cmd_bin_follows hash e : table_follows hash e -> wp anyx (cmd_bin r buf cmd hash) table_follows e.
Proof using Hnd Hin.
  intros Hf. unfold cmd_bin. cbv zeta. case_bool_decide as Hst; cbn [negb].
  2: { apply wp_finish; [by apply silent_error; [apply _|]|done]. }
  apply wp_bind. eapply (wp_keeps _ (sent_to i)); [auto with silent|]. intros e1 He1.
  apply (tf_same _ _ _ He1) in Hf. clear He1.
  destruct (b_command cmd);
    lazymatch goal with
    | |- wp _ (bin_get _ _ _ _) _ _ => by apply bin_get_follows
    | |- wp _ (bin_set _ _ _ _) _ _ => by apply bin_set_follows
    | |- wp _ (bin_delete _ _ _ _) _ _ => by apply bin_delete_follows
    | |- wp _ (bin_unlock_all _ _ _ _) _ _ => apply wp_unlock_all; [auto with silent|done]
    | |- wp _ (bin_quit _ _ _ _) _ _ =>
        apply wp_unlock_all; [destruct (b_quiet cmd); auto with silent|done]
    | |- wp _ (bin_checked _ _ _ _ _) _ _ =>
        apply bin_checked_follows; [done|apply bin_apply_follows; [by apply bin_rau_mirrors|done|done]]
    | |- wp _ (bin_apply _ _ ?h ?c _) _ _ =>
        apply bin_apply_follows;
          [ lazymatch h with
            | bin_append_handler _ _ _ => by apply bin_append_mirrors
            | bin_prepend_handler _ _ _ => by apply bin_prepend_mirrors
            | bin_incr_handler _ _ _ => by apply bin_incr_mirrors
            | bin_decr_handler _ _ _ => by apply bin_decr_mirrors
            | bin_touch_handler _ _ _ => by apply bin_touch_mirrors
            | bin_lock_handler _ _ _ => by apply bin_lock_mirrors
            | bin_unlock_handler _ _ _ => by apply bin_unlock_mirrors
            end
          | lazymatch c with None => done | _ => exact bin_incdec_c_mirrors end
          | done ]
    | |- wp _ (bind _ (fun _ => ret _)) _ _ =>
        apply wp_finish; [auto using quiet_binary_stats with silent|done]
    | |- _ => idtac
    end.
  - unfold bin_flush. apply wp_bind. eapply (wp_keeps _ (sent_to i)); [auto with silent|]. intros e2 He2.
    apply wp_finish; [auto with silent|]. by eapply tf_same.
  - unfold bin_flush. apply wp_bind. eapply (wp_keeps _ (sent_to i)); [auto with silent|]. intros e2 He2.
    apply wp_finish; [auto with silent|]. by eapply tf_same.
  - unfold bin_keys. apply wp_bind. eapply wp_foreach_quiet; [apply bin_keys_quiet|]. intros e2 He2.
    apply wp_finish; [auto with silent|]. by eapply tf_same.
Qed.
End bin.

Section text.
Context (buf : bytes) (cmd : text_request).

Lemma text_op_follows h c (reply : bool -> M env unit) hash e :
  mirrors h -> (forall x, c = Some x -> mirrors_new x) -> (forall b, keeps (sent_to i) (reply b)) ->
  table_follows hash e ->
  wp anyx (let! (found, hash') := t_apply hash (item_bytes buf (m_key cmd)) (Some h) c in
           reply found ;;! ret hash') table_follows e.
Proof.
  intros Hh Hc Hr Hf. apply wp_bind. eapply wp_apply_mirrors; [exact Hh|exact Hc|exact Hf|].
  intros b hash' e' Hf'. by apply wp_finish.
Qed.

Lemma text_apply_follows h c miss hash e :
  mirrors h -> (forall x, c = Some x -> mirrors_new x) -> keeps (sent_to i) miss -> table_follows hash e ->
  wp anyx (text_apply buf cmd h c miss hash) table_follows e.
Proof.
  intros Hh Hc Hm Hf.
  apply (text_op_follows h c (fun found => when (negb found) (when (negb (m_no_reply cmd)) miss)));
    [done|done|auto with silent|done].
Qed.

Lemma text_set_follows hash e : table_follows hash e -> wp anyx (text_set r buf cmd hash) table_follows e.
Proof using Hnd Hin.
  intros Hf. unfold text_set. repeat (case_match; [apply wp_finish; [auto with silent|done]|]).
  apply text_apply_follows; [by apply text_set_mirrors| |auto with silent|done].
  intros x. destruct (negb _); [|done]. intros [= <-]. by apply text_set_new_mirrors.
Qed.

Lemma text_get_loop_follows its hash e :
  table_follows hash e -> wp anyx (text_get_loop r buf cmd its hash) table_follows e.
Proof.
  revert hash e. induction its as [|it its IH]; intros hash e Hf; [by apply wp_ret|].
  cbn [text_get_loop]. apply wp_bind. eapply wp_apply_mirrors; [apply text_get_mirrors|done|exact Hf|].
  intros b hash' e' Hf'. apply wp_bind.
  eapply (wp_keeps _ (sent_to i)); [destruct b; auto with silent|]. intros e1 He1.
  apply IH. by eapply tf_same.
Qed.

Lemma text_keys_quiet : quiet_visitor (text_keys_pred r buf cmd).
Proof.
  intros k o e. unfold text_keys_pred. apply wp_bind, wp_expired_any. intros []; [by apply wp_ret|].
  unfold text_response.value_key. destruct (_ || _); [|by apply wp_ret]. cbn [when].
  destruct (_ >? _); [done|]. eapply (wp_keeps _ (sent_to i)); [auto with silent|]. by intros e' He.
Qed.

Lemma quiet_text_stats t : keeps (sent_to i) (text_stats r t).
Proof. unfold text_stats. apply keeps_gets. intros st. auto with silent. Qed.

Lemma wp_finish2 (m1 m2 : M env unit) (hash : table) e :
  keeps (sent_to i) m1 -> keeps (sent_to i) m2 -> table_follows hash e ->
  wp anyx (m1 ;;! m2 ;;! ret hash) table_follows e.
Proof.
  intros H1 H2 Hf. apply wp_bind. eapply (wp_keeps _ (sent_to i)); [done|]. intros e' He.
  apply wp_finish; [done|]. by eapply tf_same.
Qed.

Lemma text_delete_follows hash e : table_follows hash e -> wp anyx (text_delete r buf cmd hash) table_follows e.
Proof using Hnd Hin.
  intros Hf. unfold text_delete. apply wp_bind.
  eapply wp_remove_mirrors; [by apply text_delete_mirrors|exact Hf|].
  intros b hash' e' Hf'. apply wp_finish; [auto with silent|done].
Qed.

Lemma text_get_follows hash e : table_follows hash e -> wp anyx (text_get r buf cmd hash) table_follows e.
Proof.
  intros Hf. unfold text_get. apply wp_bind. destruct (key_loop _ _ _) as [its|]; [|done].
  apply wp_ret, wp_bind. eapply wp_mono; [by apply text_get_loop_follows|].
  intros hash' e' Hf'. apply wp_finish; [auto with silent|done].
Qed.

Lemma cmd_text_follows hash e : table_follows hash e -> wp anyx (cmd_text r buf cmd hash) table_follows e.
Proof using Hnd Hin.
  intros Hf. unfold cmd_text. cbv zeta. destruct (m_valid cmd); cbn [negb].
  2: { apply wp_finish; [auto with silent|done]. }
  apply wp_bind. eapply (wp_keeps _ (sent_to i)); [auto with silent|]. intros e1 He1.
  apply (tf_same _ _ _ He1) in Hf. clear He1.
  destruct (m_command cmd);
    lazymatch goal with
    | |- wp _ (text_set _ _ _ _) _ _ => by apply text_set_follows
    | |- wp _ (text_get _ _ _ _) _ _ => by apply text_get_follows
    | |- wp _ (text_delete _ _ _ _) _ _ => by apply text_delete_follows
    | |- wp _ (text_apply _ _ ?h _ _ _) _ _ =>
        apply text_apply_follows;
          [ lazymatch h with
            | text_append_handler _ _ _ => by apply text_append_mirrors
            | text_prepend_handler _ _ _ => by apply text_prepend_mirrors
            | text_incr_handler _ _ => by apply text_incr_mirrors
            | text_decr_handler _ _ => by apply text_decr_mirrors
            end
          | done | auto with silent | done ]
    | |- wp _ (bind (unlock_all _ _) _) _ _ => apply wp_unlock_all; [auto with silent|done]
    | |- wp _ (bind _ (fun _ => ret _)) _ _ => apply wp_finish; [auto with silent|done]
    | |- wp _ (bind _ (fun _ => bind _ _)) _ _ =>
        apply wp_finish2; [auto using quiet_text_stats with silent|auto with silent|done]
    | |- _ => idtac
    end.
  - apply (text_op_follows _ _ (fun found => when (negb found)
      (count_cas_miss ;;! when (negb (m_no_reply cmd)) text_response.not_found)));
      [by apply text_cas_mirrors|done|auto with silent|done].
  - apply (text_op_follows _ _ (fun found : bool =>
      if found then when (negb (m_no_reply cmd)) text_response.touched
      else when (negb (m_no_reply cmd)) text_response.not_found));
      [by apply text_touch_mirrors|done|intros []; auto with silent|done].
  - apply (text_op_follows _ _ (fun found => when (negb found) text_response.not_found));
      [apply text_lock_mirrors|done|auto with silent|done].
  - apply (text_op_follows _ _ (fun found => when (negb found) (send text_response.NOT_LOCKED true)));
      [apply text_unlock_mirrors|done|auto with silent|done].
  - unfold text_keys. apply wp_bind. eapply wp_foreach_quiet; [apply text_keys_quiet|]. intros e2 He2.
    apply wp_finish; [auto with silent|]. by eapply tf_same.
Qed.
End text.
End commands.

(** ** Jobs, one step at a time *)

(** The closures in a job only reply. *)
Fixpoint quiet_work (i : nat) (w : work) : Prop :=
  match w with
  | w_get _ _ _ next => quiet_work i next
  | w_keys v _ fin next => quiet_visitor i v /\ keeps (sent_to i) fin /\ quiet_work i next
  | w_unlock _ fin next => keeps (sent_to i) fin /\ quiet_work i next
  | _ => True
  end.

Section jobs.
Context (sk : sip_key) (r : request_env) (ck : clock) (u : uninit) (i : nat).
#[local] Instance jobs_ops : TableOps (hash_map object) object := hash_map_ops sk object.
#[local] Instance jobs_laws : Table (hash_map object) object := hash_map_table sk object.
Abbreviation table := (hash_map object).
Abbreviation quiet_post := (fun (p : work * table) (_ : env) => quiet_work i p.1).

Lemma quiet_whole (m : M env table) next e :
  quiet_work i next -> wp anyx (let! hash := m in ret (next, hash)) quiet_post e.
Proof. intros Hn. apply wp_bind. eapply wp_mono; [apply wp_any|]. intros hash e' _. by apply wp_ret. Qed.

Lemma quiet_start_unlock fin next hash e :
  keeps (sent_to i) fin -> quiet_work i next -> wp anyx (start_unlock fin next hash) quiet_post e.
Proof. intros Hf Hn. by apply wp_bind, wp_gets, wp_ret. Qed.

Lemma quiet_counted f (m : M env (work * table)) e :
  (forall e, wp anyx m quiet_post e) -> wp anyx (count f ;;! m) quiet_post e.
Proof. intros Hm. by apply wp_bind, wp_modify. Qed.

Lemma quiet_start_bin buf cmd next hash e :
  quiet_work i next -> wp anyx (start_bin sk r buf cmd next hash) quiet_post e.
Proof.
  intros Hn. unfold start_bin. cbv zeta. destruct (negb (bool_decide _)); [by apply quiet_whole|].
  destruct (b_command cmd);
    lazymatch goal with
    | |- wp _ (bind (cmd_bin _ _ _ _) _) _ _ => by apply quiet_whole
    | |- _ => apply quiet_counted; intros e'
    end.
  all: try (apply quiet_start_unlock; [destruct (b_quiet cmd); cbn [negb]; auto with silent|done]).
  apply wp_ret. split_and!; [apply bin_keys_quiet|auto with silent|done].
Qed.

Lemma quiet_start_text buf cmd next hash e :
  quiet_work i next -> wp anyx (start_text sk r buf cmd next hash) quiet_post e.
Proof.
  intros Hn. unfold start_text. cbv zeta. destruct (negb _); [by apply quiet_whole|].
  destruct (m_command cmd);
    lazymatch goal with
    | |- wp _ (bind (cmd_text _ _ _ _) _) _ _ => by apply quiet_whole
    | |- _ => apply quiet_counted; intros e'
    end.
  all: try (apply quiet_start_unlock; [auto with silent|done]).
  all: try (apply wp_bind; eapply wp_mono; [apply wp_any|]; intros its e2 _; by apply wp_ret).
  apply wp_ret. split_and!; [apply text_keys_quiet|auto with silent|done].
Qed.

Lemma quiet_end_of_data rs head hash e : wp anyx (end_of_data rs head hash) quiet_post e.
Proof.
  unfold end_of_data. destruct (_ >? _); [apply quiet_start_unlock; [auto with silent|done]|by apply wp_ret].
Qed.

(** The rest of a job stays quiet, *)
Lemma work_step_quiet w hash e :
  quiet_work i w -> wp anyx (work_step sk r ck u w hash) quiet_post e.
Proof.
  intros Hw. destruct w as [rs buf|rs head|buf cmd its next|v j fin next|l fin next|p]; cbn [quiet_work] in Hw.
  - destruct rs as [|[d| | |] rs]; cbn [work_step]; try by apply wp_ret.
    + apply quiet_start_unlock; [auto with silent|done].
    + by apply wp_throw.
  - cbn [work_step]. unfold proc_step. destruct head as [|b head]; [apply quiet_end_of_data|].
    destruct (is_binary_request b); apply wp_bind; (eapply wp_mono; [apply wp_any|]); intros p e' _; cbv zeta;
      (case_match; [apply quiet_end_of_data|]); [by apply quiet_start_bin|by apply quiet_start_text].
  - destruct its as [|it its]; cbn [work_step]; apply wp_bind; (eapply wp_mono; [apply wp_any|]).
    + intros ? e' _. by apply wp_ret.
    + intros [b h] e' _. apply wp_bind. eapply wp_mono; [apply wp_any|]. intros ? e2 _. by apply wp_ret.
  - cbn [work_step]. case_match; apply wp_bind; (eapply wp_mono; [apply wp_any|]); intros ? e' _; apply wp_ret; cbn; [exact Hw|apply Hw].
  - destruct l as [|k l]; cbn [work_step].
    + apply wp_bind, wp_modify, wp_bind. eapply wp_mono; [apply wp_any|]. intros ? e' _. apply wp_ret. apply Hw.
    + apply wp_bind. eapply wp_mono; [apply wp_any|]. intros ? e' _. by apply wp_ret.
  - by apply wp_ret.
Qed.

Context (done : bytes -> Prop) (out : bytes) (sv : values) (size : Z).
Hypothesis (Hnd : NoDup (r_slaves r)) (Hin : i ∈ r_slaves r).
Abbreviation tfol := (table_follows sk i done out sv size).
Abbreviation tfol_post := (fun (p : work * table) e' => tfol p.2 e').

Lemma wp_follows_next (m : M env table) next e :
  wp anyx m tfol e -> wp anyx (let! hash := m in ret (next, hash)) tfol_post e.
Proof. intros Hm. apply wp_bind. eapply wp_mono; [exact Hm|]. intros hash e' Hf. by apply wp_ret. Qed.

Lemma start_unlock_follows fin next (hash : table) e :
  tfol hash e -> wp anyx (start_unlock fin next hash) tfol_post e.
Proof. intros Hf. by apply wp_bind, wp_gets, wp_ret. Qed.

Lemma counted_follows f (m : M env (work * table)) (hash : table) e :
  tfol hash e -> (forall e, tfol hash e -> wp anyx m tfol_post e) -> wp anyx (count f ;;! m) tfol_post e.
Proof.
  intros Hf Hm. apply wp_bind. eapply (wp_keeps _ (sent_to i)); [auto with silent|]. intros e' He.
  apply Hm. by eapply tf_same.
Qed.

Lemma start_bin_follows buf cmd next hash e :
  tfol hash e -> wp anyx (start_bin sk r buf cmd next hash) tfol_post e.
Proof using Hnd Hin.
  intros Hf. unfold start_bin. cbv zeta.
  assert (wp anyx (let! hash := cmd_bin r buf cmd hash in ret (next, hash)) tfol_post e) as Hwhole
    by (apply wp_follows_next; by apply cmd_bin_follows).
  destruct (negb (bool_decide _)); [exact Hwhole|].
  destruct (b_command cmd); try exact Hwhole; clear Hwhole; apply (counted_follows _ _ hash); try done; intros e' Hf'.
  all: first [by apply start_unlock_follows|by apply wp_ret].
Qed.

Lemma start_text_follows buf cmd next hash e :
  tfol hash e -> wp anyx (start_text sk r buf cmd next hash) tfol_post e.
Proof using Hnd Hin.
  intros Hf. unfold start_text. cbv zeta.
  assert (wp anyx (let! hash := cmd_text r buf cmd hash in ret (next, hash)) tfol_post e) as Hwhole
    by (apply wp_follows_next; by apply cmd_text_follows).
  destruct (negb _); [exact Hwhole|].
  destruct (m_command cmd); try exact Hwhole; clear Hwhole; apply (counted_follows _ _ hash); try done; intros e' Hf'.
  all: lazymatch goal with
       | |- wp _ (start_unlock _ _ _) _ _ => by apply start_unlock_follows
       | |- wp _ (ret _) _ _ => by apply wp_ret
       | |- _ => apply wp_bind; destruct (key_loop _ _ _); [by apply wp_ret, wp_ret|done]
       end.
Qed.

Lemma end_of_data_follows rs head hash e :
  tfol hash e -> wp anyx (end_of_data rs head hash) tfol_post e.
Proof.
  intros Hf. unfold end_of_data. destruct (_ >? _); [by apply start_unlock_follows|by apply wp_ret].
Qed.

(** and every step tells the slave what it does. *)
Lemma work_step_follows w hash e :
  quiet_work i w -> tfol hash e -> wp anyx (work_step sk r ck u w hash) tfol_post e.
Proof using Hnd Hin.
  intros Hw Hf. destruct w as [rs buf|rs head|buf cmd its next|v j fin next|l fin next|p]; cbn [quiet_work] in Hw.
  - destruct rs as [|[d| | |] rs]; cbn [work_step]; try by apply wp_ret.
    + by apply start_unlock_follows.
    + by apply wp_throw.
  - cbn [work_step]. unfold proc_step. destruct head as [|b head]; [by apply end_of_data_follows|].
    destruct (is_binary_request b); apply wp_bind.
    + destruct (binary_parse _ _ _) as [p|]; [|done]. apply wp_ret. cbv zeta.
      case_match; [by apply end_of_data_follows|by apply start_bin_follows].
    + destruct (text_parse _ _) as [p|]; [|done]. apply wp_ret. cbv zeta.
      case_match; [by apply end_of_data_follows|by apply start_text_follows].
  - destruct its as [|it its]; cbn [work_step]; apply wp_bind.
    + eapply (wp_keeps _ (sent_to i)); [auto with silent|]. intros e' He. apply wp_ret. by eapply tf_same.
    + eapply wp_apply_mirrors; [apply text_get_mirrors|done|exact Hf|]. intros b hash' e' Hf'. apply wp_bind.
      eapply (wp_keeps _ (sent_to i)); [destruct b; auto with silent|]. intros e2 He2.
      apply wp_ret. by eapply tf_same.
  - destruct Hw as (Hv&Hq&_). cbn [work_step]. case_match; apply wp_bind.
    + eapply wp_mono; [apply (wp_visits i); intros p e1; apply Hv|]. intros [] e' He.
      apply wp_ret. by eapply tf_same.
    + eapply (wp_keeps _ (sent_to i)); [done|]. intros e' He. apply wp_ret. by eapply tf_same.
  - destruct Hw as (Hq&_). destruct l as [|k l]; cbn [work_step].
    + apply wp_bind, wp_modify, wp_bind. eapply (wp_keeps _ (sent_to i)); [done|]. intros e' He.
      apply wp_ret. by eapply tf_same; [|exact Hf].
    + apply wp_bind. eapply wp_mono; [by apply (wp_unlock_one sk r i done out sv size)|].
      intros hash' e' Hf'. by apply wp_ret.
  - by apply wp_ret.
Qed.
End jobs.
