(* ===== verification/MirrorSystem.v ===== *)
(** * Slaves of a running master

    The service of MemConc with a slave that every job and every collection sends to.  Under
    every interleaving, descriptor numbers that are reused and jobs on invalid sockets
    included, the messages for this slave lead from its contents to those of the master: for
    the keys it already had in step at once, and for all keys after one collection that has
    it among its new slaves has visited every bucket. *)

From S2P Require Import Prelude CLib Siphash Table HashMap HashMapSpec BucketVisit MemTypes TextRequest.
From S2P Require Import TextRequestSpec BinaryRequest MemState MemObject MemObjectSpec Response.
From S2P Require Import Stats Replication ReplicationSpec MemSocket MemSocketSpec MemGC MemGCSpec.
From S2P Require Import MemSystem MemWork MemWorkSpec MemConc MemConcSpec Mirror Samples.

Import replication.

Lemma match_in {A B} (l : list A) x (a b : B) : x ∈ l -> match l with [] => a | _ :: _ => b end = b.
Proof. destruct l; [by intros ?%elem_of_nil|done]. Qed.
Lemma match_either {A B} (l : list A) (a b : B) :
  match l with [] => a | _ :: _ => b end = a \/ match l with [] => a | _ :: _ => b end = b.
Proof. destruct l; auto. Qed.

Section collector.
Context (sk : sip_key) (i : nat) (out : bytes) (sv : values).
Abbreviation hk := (make_hash_key sk).
Abbreviation table := (hash_map object).

Definition gfollows (done : bytes -> Prop) (m : gmap bytes (nat * object)) (s : gc_env) : Prop :=
  follows i done out sv (view m) (gc_env_of s).

Lemma wp_gc_quiet (f : gc_counters -> gc_counters) done m (Q : unit -> gc_env -> Prop) s :
  gfollows done m s -> (forall s', gfollows done m s' -> Q tt s') -> wp anyx (upd_gc f) Q s.
Proof. intros Hf HQ. by apply wp_modify, HQ. Qed.

Section pred.
Context (r : request_env) (sz : sizes) (slaves new_slaves : list nat).
Hypothesis (Hnd : NoDup slaves) (Hin : i ∈ slaves) (Hnew : NoDup new_slaves).

Lemma wp_repl_deleted k done m (Q : unit -> gc_env -> Prop) s :
  gfollows done m s -> (forall s', gfollows (and_key done (kr_data k)) (delete (kr_data k) m) s' -> Q tt s') ->
  wp anyx (repl_deleted slaves k) Q s.
Proof using Hnd Hin.
  intros Hf HQ. unfold repl_deleted, repl_delete.
  rewrite (match_in slaves i) by done. cbn [when]. unfold wp, lift_env.
  destruct (sent_slaves i slaves (delete_iov (kr_data k)) false (gc_env_of s) Hnd Hin) as (e'&->&He).
  apply HQ. unfold gfollows, view. rewrite fmap_delete.
  eapply (follows_event i done _ out sv _ _ (ev_delete (kr_data k))); [exact He| |exact Hf].
  intros x Hx. by apply in_step_delete.
Qed.

(** The keys that the slave has in step when [todo] are still to be visited. *)
Definition so_far (done : bytes -> Prop) (todo : gset bytes) (k : bytes) : Prop :=
  done k \/ (i ∈ new_slaves /\ k ∉ todo).

Lemma so_far_key done todo k k' : so_far done (todo ∖ {[k]}) k' -> and_key (so_far done todo) k k'.
Proof.
  intros [Hd|[Hi Hk]]; [right; by left|]. destruct (decide (k' = k)) as [-> |Hne]; [by left|].
  right. right. split; [done|]. set_solver.
Qed.

Lemma gc_pred_follows (flush : bool) (age : Z) (done : bytes -> Prop) (todo : gset bytes) (m : gmap bytes (nat * object)) (k : bytes)
    (a : nat) (o : object) (s : gc_env) :
  m !! k = Some (a, o) -> gfollows (so_far done todo) m s ->
  wp anyx (gc_pred r sz slaves new_slaves flush age {| kr_addr := a; kr_data := k |} o)
    (fun p s' => gfollows (so_far done (todo ∖ {[k]}))
                   (if p.1 : bool then delete k m else <[k := (a, p.2)]> m) s') s.
Proof using Hnd Hin Hnew.
  intros Hk Hf. unfold gc_pred.
  assert (forall s', gfollows (and_key (so_far done todo) k) (delete k m) s' ->
    gfollows (so_far done (todo ∖ {[k]})) (delete k m) s') as Hdel.
  { intros s' Hs. eapply follows_weaken; [|exact Hs]. apply so_far_key. }
  destruct (flush && negb (locked o)).
  { apply wp_bind. eapply wp_repl_deleted; [exact Hf|]. intros s' Hs. apply wp_ret. by apply Hdel. }
  destruct ((age >? 0) && _ && _).
  { apply wp_bind. eapply wp_gc_quiet; [exact Hf|]. intros s1 Hf1. apply wp_bind.
    eapply wp_repl_deleted; [exact Hf1|]. intros s' Hs. apply wp_ret. by apply Hdel. }
  apply wp_bind, wp_gets. destruct (expired _ _ _).
  { apply wp_bind. eapply wp_gc_quiet; [exact Hf|]. intros s1 Hf1. apply wp_bind.
    eapply wp_repl_deleted; [exact Hf1|]. intros s' Hs. apply wp_ret. by apply Hdel. }
  unfold object_survive. cbv zeta. set (o1 := with_age _ o). apply wp_bind.
  assert (forall (b : bool) (Q : unit -> gc_env -> Prop),
    (forall s', gfollows (so_far done todo) m s' -> Q tt s') ->
    wp anyx (when b (upd_gc (fun c => set_flushers (S (g_flushers c)) c))) Q s) as Hw.
  { intros [] Q HQ; [by eapply wp_gc_quiet|by apply wp_ret, HQ]. }
  apply Hw. intros s1 Hf1. apply wp_bind. eapply wp_gc_quiet; [exact Hf1|]. intros s2 Hf2. apply wp_bind.
  assert (view m = view (<[k := (a, o1)]> m)) as Hv.
  { rewrite view_insert. symmetry. apply insert_id. unfold view. by rewrite lookup_fmap, Hk. }
  destruct (decide (i ∈ new_slaves)) as [Hi|Hi].
  - rewrite (match_in new_slaves i) by done. unfold wp at 1, lift_env, repl_object, bind.
    destruct (sent_slaves i new_slaves (object_iov k o1) false (gc_env_of s2) Hnew Hi) as (e'&He'&He).
    cbn [kr_data]. rewrite He'. apply wp_ret. cbn [fst snd]. unfold gfollows. cbn [gc_env_of].
    eapply follows_weaken; [apply (so_far_key done todo k)|].
    eapply (follows_event i (so_far done todo) _ out sv (view m) _ (ev_object k o1)); [exact He| |exact Hf2].
    intros x Hx. rewrite view_insert, value_of_data. by apply in_step_object.
  - assert (forall s', sent_to i (gc_env_of s') = sent_to i (gc_env_of s2) -> forall o2, value_of o2 = value_of o1 ->
      gfollows (so_far done (todo ∖ {[k]})) (<[k := (a, o2)]> m) s') as Hend.
    { intros s' Hs o2 Ho2. unfold gfollows. rewrite view_insert, Ho2, <- (view_insert m k a o1), <- Hv.
      eapply follows_same; [exact Hs|]. eapply follows_weaken; [|exact Hf2]. intros k' [Hd|[? _]]; [by left|done]. }
    lazymatch goal with |- wp _ (match _ with [] => ?x | _ :: _ => ?y end) _ _ =>
      destruct (match_either new_slaves x y) as [-> | ->] end; [apply wp_ret, wp_ret; by apply Hend|].
    unfold wp at 1, lift_env, repl_object, bind.
    destruct (sent_other i new_slaves (object_iov k o1) false (gc_env_of s2) Hi) as (e'&He'&He).
    cbn [kr_data]. rewrite He'. apply wp_ret. by apply Hend.
Qed.
End pred.

Lemma in_step_absent (done : bytes -> Prop) m x :
  in_step done m x -> in_step (fun k => done k \/ m !! k = None) m x.
Proof.
  intros Hs k. destruct (Hs k) as [H1 H2]. split; [done|]. intros [Hd|Hn]; [by apply H2|]. by rewrite Hn, H1.
Qed.

(** A visit of a bucket brings the keys of this bucket in step, for a new slave. *)
Lemma gc_visit_follows done r g (hash : table) s :
  NoDup (gt_slaves g) -> i ∈ gt_slaves g -> NoDup (gt_new_slaves g) ->
  map_inv sk hash -> (gt_next g < length (m_buckets hash))%nat -> gfollows done (map_of hash) s ->
  wp anyx (gc_visit r g hash) (fun hash' s' =>
    map_inv sk hash' /\ m_size hash' = m_size hash /\
    gfollows (fun k => done k \/ (i ∈ gt_new_slaves g /\ bucket_index hash (hk k) = gt_next g))
      (map_of hash') s') s.
Proof.
  intros Hnd Hin Hnew Hi Hn Hf. unfold gc_visit. eapply wp_mono.
  - apply (map_gc_at_rule sk anyx (fun todo m s => gfollows (so_far (gt_new_slaves g) done todo) m s));
      [done|done| | | |].
    + destruct Hf as (evs&Ho&Hs). exists evs. split; [done|].
      eapply in_step_weaken; [|by apply in_step_absent]. intros k [Hd|[_ Hk]]; [by left|right].
      unfold view. rewrite lookup_fmap. by apply not_elem_of_dom in Hk as ->.
    + intros todo m0 k a o s0 _ Hk HI. by apply gc_pred_follows.
    + intros todo m0 s0 HI. by apply wp_modify.
    + intros todo m0 s0 HI. by apply wp_modify.
  - intros hash' s' (Hi'&Hsz&others&HI&R1&_). split_and!; [done|done|].
    eapply follows_weaken; [|exact HI]. intros k [Hd|[Hm Hx]]; [by left|right]. split; [done|].
    intros Hk. by apply (R1 k).
Qed.
End collector.

(** ** All threads *)

Section system.
Context (sk : sip_key) (cfg : mem_config) (i : nat).
#[local] Instance msys_ops : TableOps (hash_map object) object := hash_map_ops sk object.
#[local] Instance msys_laws : Table (hash_map object) object := hash_map_table sk object.
Abbreviation hk := (make_hash_key sk).

(** Every job and every collection has the slave [i] in its list, once. *)
Record served (s : csys) : Prop := {
  sv_jobs id c r w :
    cs_conns s !! id = Some c -> cn_act c = working r w -> NoDup (r_slaves r) /\ i ∈ r_slaves r;
  sv_gc g : cs_gc s = Some g -> NoDup (gt_slaves g) /\ i ∈ gt_slaves g /\ NoDup (gt_new_slaves g)
}.

Definition serving (s s' : csys) : Prop := any_step sk cfg s s' /\ served s'.

(** The collection in progress has already sent the objects of this bucket to [i]. *)
Definition copied (s : csys) (k : bytes) : Prop :=
  exists g, cs_gc s = Some g /\ i ∈ gt_new_slaves g /\
    (bucket_index (cs_hash s) (hk k) < gt_next g)%nat.

(** Jobs in progress have closures that only reply. *)
Definition quiet_state (s : csys) : Prop := forall id c r w,
  cs_conns s !! id = Some c -> cn_act c = working r w -> quiet_work i w.

Lemma quiet_next s id c hash e act :
  quiet_state s -> match act with working _ w => quiet_work i w | _ => True end ->
  quiet_state (conn_next s id c hash e act).
Proof.
  intros Hq Ha id' c' r w Hl Ew. cbn in Hl.
  apply lookup_insert_Some in Hl as [[<- <-]|[_ Hl]]; [cbn in Ew; by subst|by eapply Hq].
Qed.

Lemma quiet_receives c w : quiet_work i w -> quiet_work i (receives c w).
Proof. destruct w; try done. cbn. by destruct (cn_valid c). Qed.

Lemma quiet_step a s s' : quiet_state s -> cstep sk cfg a s s' -> quiet_state s'.
Proof.
  intros Hq Hst. destruct Hst as [s id fd Hfd Hl Hval|s id c p r rs Hl Eact Hr|s id c r r' ck u w w' hash e Hl Eact Hj Hw
    |s id c r p Hl Eact|s id c Hl Hv|s id c p Hl Hv Eact|s id c k l r hash e Hl Eact Hr Hu|s id c Hl Eact
    |s r sz time sl nsl Hg Hr|s g r hash e Hg Hn Hj Hv|s g us Hg Hn]; try exact Hq;
    try (by apply quiet_next).
  - pose proof (work_step_quiet sk r' ck u i (receives c w) (cs_hash s) (cs_env s (cn_locks c))
      (quiet_receives c w (Hq _ _ _ _ Hl Eact))) as Hp.
    unfold wp in Hp. rewrite Hw in Hp. by apply quiet_next.
  - apply quiet_next; [done|]. destruct (cn_act c) eqn:Eact; try done. by eapply Hq.
  - intros id' c' r w Hl'. cbn in Hl'. apply lookup_delete_Some in Hl' as [_ Hl']. by eapply Hq.
Qed.

Lemma quiet_reachable s0 s : cs_initial sk s0 -> rtc (any_step sk cfg) s0 s -> quiet_state s.
Proof.
  intros (_&_&Hc&_) Hr. assert (quiet_state s0) as Hq by (intros id c r w; by rewrite Hc).
  clear Hc. induction Hr as [|x y z [a Hst] _ IH]; [done|]. by apply IH, (quiet_step a x).
Qed.

(** ** Every step tells the slave what it does *)

Context (out : bytes) (sv : values) (size : Z).

Definition state_follows (done : bytes -> Prop) (s : csys) : Prop :=
  table_follows sk i (fun k => done k \/ copied s k) out sv size (cs_hash s) (cs_env s []).

Lemma tf_weaken (done done' : bytes -> Prop) hash e :
  (forall k, done' k -> done k) ->
  table_follows sk i done out sv size hash e -> table_follows sk i done' out sv size hash e.
Proof. intros Hd [Hi Hs Hf]. constructor; [done|done|]. by eapply follows_weaken. Qed.

(** What a connection does leaves [copied] as it is. *)
Lemma conn_next_follows done s id c hash e act :
  state_follows done s ->
  table_follows sk i (fun k => done k \/ copied s k) out sv size hash e ->
  state_follows done (conn_next s id c hash e act).
Proof.
  intros [_ Hs _] Hf. eapply tf_weaken; [|by eapply tf_same; [|exact Hf]].
  intros k [Hd|(g&Hg&Hin&Hk)]; [by left|right]. exists g. split_and!; [done|done|].
  cbn in Hk. unfold bucket_index in *. by rewrite Hs, <- (tf_size _ _ _ _ _ _ _ _ Hf).
Qed.

Lemma visit_next_follows done s g hash e c :
  state_follows done s -> cs_gc s = Some g -> m_size hash = size ->
  table_follows sk i (fun k => (done k \/ copied s k) \/
    (i ∈ gt_new_slaves g /\ bucket_index (cs_hash s) (hk k) = gt_next g)) out sv size hash e ->
  state_follows done (gc_next s hash e (Some (gc_advance g c))).
Proof.
  intros [_ Hs _] Hg Hn Hf. eapply tf_weaken; [|by eapply tf_same; [|exact Hf]].
  intros k [Hd|(g'&[= <-]&Hin&Hk)]; [by left; left|]. cbn in Hin, Hk.
  assert (bucket_index hash (hk k) = bucket_index (cs_hash s) (hk k)) as Hb
    by (unfold bucket_index; by rewrite Hs, Hn).
  rewrite Hb in Hk. destruct (decide (bucket_index (cs_hash s) (hk k) = gt_next g)); [by right|].
  left. right. exists g. split_and!; [done|done|lia].
Qed.

Lemma step_follows done a s s' :
  quiet_state s -> served s -> state_follows done s -> cstep sk cfg a s s' -> state_follows done s'.
Proof.
  intros Hq [Hjobs Hgc] Hf Hst.
  assert (forall locks, table_follows sk i (fun k => done k \/ copied s k) out sv size (cs_hash s) (cs_env s locks))
    as Hf' by (intros locks; by eapply tf_same; [|exact Hf]).
  destruct Hst as [s id fd Hfd Hl Hval|s id c p r rs Hl Eact Hr|s id c r r' ck u w w' hash e Hl Eact Hj Hw
    |s id c r p Hl Eact|s id c Hl Hv|s id c p Hl Hv Eact|s id c k l r hash e Hl Eact Hr Hu|s id c Hl Eact
    |s r sz time sl nsl Hg Hr|s g r hash e Hg Hn Hj Hv|s g us Hg Hn].
  - apply conn_next_follows; [done|]. by eapply tf_same; [|exact Hf].
  - by apply conn_next_follows.
  - destruct (Hjobs _ _ _ _ Hl Eact) as [Hnd Hin]. destruct Hj as (_&_&Hsl). rewrite <- Hsl in Hnd, Hin.
    pose proof (work_step_follows sk r' ck u i _ out sv size Hnd Hin (receives c w) (cs_hash s)
      (cs_env s (cn_locks c)) (quiet_receives c w (Hq _ _ _ _ Hl Eact)) (Hf' (cn_locks c))) as Hp.
    unfold wp in Hp. rewrite Hw in Hp. by apply conn_next_follows.
  - by apply conn_next_follows.
  - apply conn_next_follows; [done|]. by eapply tf_same; [|exact Hf].
  - by apply conn_next_follows.
  - assert (wp anyx (unlock_one sk r true k (cs_hash s))
      (table_follows sk i (fun k => done k \/ copied s k) out sv size) (cs_env s (cn_locks c))) as Hp
      by exact (wp_unlock_one sk r i _ out sv size k true (cs_hash s) (cs_env s (cn_locks c)) (Hf' (cn_locks c))).
    unfold wp in Hp. rewrite Hu in Hp. by apply conn_next_follows.
  - by eapply tf_same; [|exact Hf].
  - eapply tf_weaken; [|by eapply tf_same; [|exact Hf]].
    intros k [Hd|(g&[= <-]&_&Hk)]; [by left|]. cbn in Hk. lia.
  - destruct (Hgc g Hg) as (Hnd&Hin&Hnew). destruct Hf as [Hi Hs Hfo].
    pose proof (gc_visit_follows sk i out sv _ r g (cs_hash s)
      {| gc_env_of := cs_env s []; gc_of := gt_counters g |} Hnd Hin Hnew Hi Hn Hfo) as Hp.
    unfold wp in Hp. rewrite Hv in Hp. destruct Hp as (Hi'&Hs'&Hf2).
    apply visit_next_follows; [by constructor|done|congruence|]. constructor; [done|congruence|exact Hf2].
  - eapply tf_weaken; [|by eapply tf_same; [|exact Hf]]. intros k [Hd|(g'&?&_)]; [by left|done].
Qed.

Lemma run_follows done s s' :
  quiet_state s -> served s -> state_follows done s -> rtc serving s s' ->
  served s' /\ quiet_state s' /\ state_follows done s'.
Proof.
  intros Hq Hs Hf Hr. induction Hr as [|x y z [[a Hst] Hy] _ IH]; [done|].
  apply IH; [by eapply quiet_step|done|by eapply step_follows].
Qed.
End system.

Section theorems.
Context (sk : sip_key) (cfg : mem_config) (i : nat).
#[local] Instance mthm_ops : TableOps (hash_map object) object := hash_map_ops sk object.
#[local] Instance mthm_laws : Table (hash_map object) object := hash_map_table sk object.

(** A visit of all buckets leaves nothing to copy. *)
Lemma all_copied s g k :
  map_inv sk (cs_hash s) -> cs_gc s = Some g -> i ∈ gt_new_slaves g ->
  (length (m_buckets (cs_hash s)) <= gt_next g)%nat -> copied sk i s k.
Proof.
  intros Hi Hg Hin Hn. exists g. split_and!; [done|done|].
  pose proof (bucket_index_lt sk (cs_hash s) (make_hash_key sk k) Hi). lia.
Qed.

(** C4: Slaves become and stay copies of the master, under every interleaving.  Take any
    reachable state of the master, a slave that has nothing under the keys that the master
    has not and that no collection has begun to copy to, and a continuation in which every
    job and every collection has this slave in its list, once.  When a collection with it
    among the new slaves has visited all buckets, then at every later moment what has been
    sent to the slave since is the messages of a sequence of changes that leads from its
    contents to those of the master.  If their keys are legal, their flags of 32 bits and
    their values within the limit on requests, a slave with these contents, whatever its
    hash seed and configuration, takes in all the messages and ends as its parser reads them
    ([receive_event]); and if moreover no value is empty and every expiration time is 0 or
    an absolute one of 32 bits, it ends with the values, flags and expiration times of the
    master. *)
Theorem replica_complete (s0 s s2 s3 : csys) (g : gc_task) (sv : values) :
  cs_initial sk s0 -> rtc (any_step sk cfg) s0 s -> served i s ->
  (forall k, view (t_map (cs_hash s)) !! k = None -> sv !! k = None) ->
  (forall g0, cs_gc s = Some g0 -> i ∈ gt_new_slaves g0 -> gt_next g0 = 0%nat) ->
  rtc (serving sk cfg i) s s2 ->
  cs_gc s2 = Some g -> i ∈ gt_new_slaves g -> (length (m_buckets (cs_hash s2)) <= gt_next g)%nat ->
  rtc (serving sk cfg i) s2 s3 ->
  exists evs,
    to_slave i (cs_out s3) = to_slave i (cs_out s) ++ stream evs /\
    play evs sv = view (t_map (cs_hash s3)) /\
    forall sk' scfg ck u (hash : hash_map object) e,
      events_wf evs -> map_inv sk' hash -> view (map_of hash) = sv ->
      exists hash' e',
        repl_recv (H := hash_map object) (H0 := hash_map_ops sk' object) scfg ck u (stream evs) hash e =
          (inr (length (stream evs), hash'), e') /\
        view (map_of hash') = foldl (receive_event ck) sv evs /\
        (Forall faithful evs -> view (map_of hash') = view (t_map (cs_hash s3))).
Proof.
  intros Hini Hr Hs Hsv Hg0 Hr2 Hg Hin Hn Hr3.
  pose proof (reachable_kept sk cfg s0 s Hini Hr) as Hok.
  pose proof (quiet_reachable sk cfg i s0 s Hini Hr) as Hq.
  assert (state_follows sk i (to_slave i (cs_out s)) sv (m_size (cs_hash s)) (fun _ => False) s) as Hf.
  { constructor; [exact Hok|done|]. apply (follows_start i _ _ sv (cs_env s [])). intros k. split; [apply Hsv|].
    intros [?|(g0&E&Hi0&Hk)]; [done|]. rewrite (Hg0 g0 E Hi0) in Hk. lia. }
  destruct (run_follows sk cfg i _ sv _ _ s s2 Hq Hs Hf Hr2) as (Hs2&Hq2&Hf2).
  assert (state_follows sk i (to_slave i (cs_out s)) sv (m_size (cs_hash s)) (fun _ => True) s2) as Hf2'.
  { eapply tf_weaken; [|exact Hf2]. intros k _. right. eapply all_copied; [apply Hf2|done..]. }
  destruct (run_follows sk cfg i _ sv _ _ s2 s3 Hq2 Hs2 Hf2' Hr3) as (_&_&[_ _ (evs&Ho&Hst)]).
  assert (play evs sv = view (t_map (cs_hash s3))) as Hp.
  { apply in_step_all. eapply in_step_weaken; [|exact Hst]. by left. }
  exists evs. split_and!; [exact Ho|exact Hp|].
  intros sk' scfg ck u hash e Hw Hi' Hv.
  destruct (repl_recv_stream (HT := hash_map_table sk' object) scfg ck u evs hash e Hw Hi') as (hash'&e'&Hrv&_&Hv').
  change (view (map_of hash') = foldl (receive_event ck) (view (map_of hash)) evs) in Hv'. rewrite Hv in Hv'.
  exists hash', e'. split; [exact Hrv|]. split; [exact Hv'|]. intros Hfa. rewrite Hv', receive_all_faithful by done.
  exact Hp.
Qed.
End theorems.

(** ** A slave joins a running master *)

(** Moves that leave the slave [i] in every list. *)
Definition move_serves (i : nat) (m : move) : Prop :=
  match m with
  | m_start _ slaves _ => NoDup slaves /\ i ∈ slaves
  | m_gc_begin slaves new_slaves => NoDup slaves /\ i ∈ slaves /\ NoDup new_slaves
  | _ => True
  end.

Lemma served_next i s id c hash e act :
  served i s -> match act with working r _ => NoDup (r_slaves r) /\ i ∈ r_slaves r | _ => True end ->
  served i (conn_next s id c hash e act).
Proof.
  intros [Hj Hg] Ha. constructor; [|exact Hg]. intros id' c' r w Hl Ew. cbn in Hl.
  apply lookup_insert_Some in Hl as [[<- <-]|[_ Hl]]; [cbn in Ew; by subst|by eapply Hj].
Qed.

Lemma move_conn_served i m s id c s' :
  served i s -> move_serves i m -> cs_conns s !! id = Some c -> move_conn m s id c = Some s' -> served i s'.
Proof.
  intros Hs Hm Hl. pose proof Hs as [Hj Hg]. unfold move_conn.
  destruct m; destruct (cn_act c) as [p|r w|l] eqn:Eact; try done.
  all: repeat case_match; try done; intros [= <-]; try (apply served_next; [done|]); try done.
  all: try by (eapply Hj).
  - unfold start_env. by destruct (cn_valid c).
  - constructor; [|exact Hg]. intros id' c' r w Hl'. cbn in Hl'. apply lookup_delete_Some in Hl' as [_ Hl']. by eapply Hj.
Qed.

Lemma do_move_served i m s s' :
  served i s -> move_serves i m -> do_move m s = Some s' -> served i s'.
Proof.
  intros Hs Hm. pose proof Hs as [Hj Hg].
  destruct m as [id fd|id sl d|id|id|id|id|id|id|sl nsl| |]; cbn [do_move] in *;
    try (intros (c&Hl&Hc)%bind_Some; eapply move_conn_served; [exact Hs|exact Hm|exact Hl|exact Hc]).
  - destruct (decide _); [|done]. destruct (cs_conns s !! id); [done|]. destruct (all_conns _ s); [|done].
    intros [= <-]. by apply served_next.
  - destruct (cs_gc s); [done|]. intros [= <-]. constructor; [exact Hj|]. by intros g [= <-].
  - destruct (cs_gc s) as [g|] eqn:Eg; [|done]. destruct (decide _); [|done].
    destruct (gc_visit _ _ _ _) as [[x|hash] e]; [done|]. intros [= <-]. constructor; [exact Hj|].
    intros g' [= <-]. exact (Hg g eq_refl).
  - destruct (cs_gc s); [|done]. destruct (decide _); [|done]. intros [= <-]. by constructor.
Qed.

Lemma do_moves_serving i ms s s' :
  Forall (move_serves i) ms -> served i s -> do_moves ms s = Some s' ->
  rtc (serving sample_sk sample_config i) s s'.
Proof.
  intros Hf. revert s. induction Hf as [|m ms Hm _ IH]; intros s Hs; cbn [do_moves]; [by intros [= <-]|].
  destruct (do_move m s) as [s1|] eqn:E; [|done]. cbn. intros Hr.
  assert (served i s1) as Hs1 by (by eapply do_move_served).
  eapply rtc_l; [split; [exists (move_actor m); by apply do_move_step|done]|by apply IH].
Qed.

(** The master has an object before the slave joins; *)
Definition alone_moves : list move :=
  [m_accept 5 5; m_start 5 [] (line "set a 1 0 2" ++ line "xy"); m_work 5; m_work 5; m_work 5; m_work 5;
   m_finish 5].
(** a job changes it while a collection copies it; *)
Definition copy_moves : list move :=
  [m_start 5 [0%nat] (line "append a 0 0 1" ++ line "z" ++ line "set b 0 0 1" ++ line "w" ++ line "delete a");
   m_gc_begin [0%nat] [0%nat]; m_work 5; m_gc_visit; m_gc_visit; m_work 5; m_gc_visit; m_work 5] ++
  replicate 4 m_gc_visit.
(** and goes on after it. *)
Definition later_moves : list move := [m_work 5; m_gc_end; m_work 5; m_work 5; m_finish 5].

Definition alone : csys := default sample_cs (do_moves alone_moves sample_cs).
Definition copying : csys := default sample_cs (do_moves copy_moves alone).
Definition later : csys := default sample_cs (do_moves later_moves copying).

Definition is_some {A} (x : option A) : bool := match x with Some _ => true | None => false end.

Lemma is_some_default {A} (x : option A) d : is_some x = true -> x = Some (default d x).
Proof. by destruct x. Qed.

Lemma alone_reachable : rtc (any_step sample_sk sample_config) sample_cs alone.
Proof. apply (do_moves_steps alone_moves), is_some_default. vm_compute. reflexivity. Qed.

Lemma served_idle i s :
  (forall fd c, cs_conns s !! fd = Some c -> match cn_act c with working _ _ => False | _ => True end) ->
  cs_gc s = None -> served i s.
Proof.
  intros Hc Hg. constructor; [|by rewrite Hg]. intros id c r w Hl Ew. specialize (Hc _ _ Hl). by rewrite Ew in Hc.
Qed.

Definition idle_conns : csys -> bool :=
  all_conns (fun c => match cn_act c with working _ _ => false | _ => true end).

Lemma idle_conns_served i s : idle_conns s = true -> is_some (cs_gc s) = false -> served i s.
Proof.
  intros Hi Hg. apply served_idle; [|by destruct (cs_gc s)]. intros id c Hl.
  pose proof (all_conns_spec _ _ _ _ Hi Hl) as Hp. cbn in Hp. by destruct (cn_act c).
Qed.

Lemma alone_served : served 0 alone.
Proof. apply idle_conns_served; vm_compute; reflexivity. Qed.

Ltac serves := repeat constructor; set_solver.

Lemma copy_serving : rtc (serving sample_sk sample_config 0) alone copying.
Proof.
  apply (do_moves_serving 0 copy_moves); [serves|exact alone_served|].
  apply is_some_default. vm_compute. reflexivity.
Qed.

Lemma later_serving : rtc (serving sample_sk sample_config 0) copying later.
Proof.
  apply (do_moves_serving 0 later_moves); [serves| |apply is_some_default; vm_compute; reflexivity].
  eapply (rtc_ind_l (fun s => served 0 s -> served 0 copying) copying);
    [done| |exact copy_serving|exact alone_served]. intros x y [_ Hy] _ IH _. by apply IH.
Qed.

Definition a_task : gc_task := gc_begin (sample_request 0 []) sample_gc_sizes 0 [] [] stats_reset.
Definition copying_gc : gc_task := default a_task (cs_gc copying).

Definition slave_input : bytes := drop (length (to_slave 0 (cs_out alone))) (to_slave 0 (cs_out later)).

(** The slave of the sample receives what was sent. *)
Definition slave_run : (exn + nat * hash_map object) * env :=
  repl_recv (H := hash_map object) (H0 := hash_map_ops sample_sk object) sample_config sample_clock sample_u
    slave_input sample_empty (sample_env []).

Definition slave_hash : hash_map object :=
  match slave_run.1 with inr (_, hash) => hash | inl _ => sample_empty end.

Lemma replica_complete_witness :
  exists evs,
    to_slave 0 (cs_out later) = to_slave 0 (cs_out alone) ++ stream evs /\
    play evs ∅ = view (t_map (cs_hash later)) /\
    (events_wf evs -> exists hash' e',
      repl_recv (H := hash_map object) (H0 := hash_map_ops sample_sk object) sample_config sample_clock sample_u
        (stream evs) sample_empty (sample_env []) = (inr (length (stream evs), hash'), e') /\
      (Forall faithful evs -> view (map_of hash') = view (t_map (cs_hash later)))) /\
    exists hash' e',
      repl_recv (H := hash_map object) (H0 := hash_map_ops sample_sk object) sample_config sample_clock sample_u
        (stream evs) sample_empty (sample_env []) = (inr (length (stream evs), hash'), e') /\
      view (map_of hash') = view (t_map (cs_hash later)) /\
      view (map_of hash') = {[lit "b" := (lit "w", 0, 0)]}.
Proof.
  destruct (replica_complete sample_sk sample_config 0 sample_cs alone copying later copying_gc ∅)
    as (evs&Ho&Hp&Hslave).
  - exact sample_cs_initial.
  - exact alone_reachable.
  - exact alone_served.
  - intros k _. apply lookup_empty.
  - intros g Hg. vm_compute in Hg. discriminate Hg.
  - exact copy_serving.
  - apply is_some_default. vm_compute. reflexivity.
  - vm_compute. left.
  - vm_compute. lia.
  - exact later_serving.
  - exists evs. split; [exact Ho|]. split; [exact Hp|]. split.
    + intros Hw. destruct (Hslave sample_sk sample_config sample_clock sample_u sample_empty (sample_env []) Hw)
        as (hash'&e'&Hr&_&Hf); [by apply ctor_inv|vm_compute; reflexivity|]. exists hash', e'. split; [exact Hr|exact Hf].
    + assert (stream evs = slave_input) as ->.
      { unfold slave_input. rewrite Ho, drop_app_length. reflexivity. }
      exists slave_hash, slave_run.2. split_and!; vm_compute; reflexivity.
Defined.

(** ** A slave that keeps what the master has deleted

    [on_readable] copies the list of slaves when a job begins.  A job that began before the
    slave joined does not tell it what it deletes, and no later collection does: if another
    job has already sent the object, the slave keeps it. *)
Definition stale_moves : list move :=
  [m_accept 5 5; m_accept 6 6; m_start 6 [] (line "delete a");
   m_start 5 [0%nat] (line "set a 1 0 2" ++ line "xy"); m_work 5; m_work 5; m_work 5; m_work 5; m_finish 5;
   m_work 6; m_work 6; m_work 6; m_work 6; m_finish 6; m_gc_begin [0%nat] [0%nat]] ++ replicate 7 m_gc_visit.

Definition stale : csys := default sample_cs (do_moves stale_moves sample_cs).
Definition stale_gc : gc_task := default a_task (cs_gc stale).
Definition stale_object : object :=
  {| o_length := 2; o_data := lit "xy"; o_file := None; o_flags := 1; o_exptime := 0; o_cas := 1;
     o_gc_old := 0; o_lock := -1 |}.

Theorem replica_stale :
  exists s g evs, rtc (any_step sample_sk sample_config) sample_cs s /\
    cs_gc s = Some g /\ 0%nat ∈ gt_new_slaves g /\ (length (m_buckets (cs_hash s)) <= gt_next g)%nat /\
    events_wf evs /\ to_slave 0 (cs_out s) = stream evs /\
    view (t_map (cs_hash s)) !! lit "a" = None /\ play evs ∅ !! lit "a" = Some (lit "xy", 1, 0).
Proof.
  exists stale, stale_gc, [ev_object (lit "a") stale_object]. split_and!.
  - apply (do_moves_steps stale_moves), is_some_default. vm_compute. reflexivity.
  - apply is_some_default. vm_compute. reflexivity.
  - vm_compute. left.
  - vm_compute. lia.
  - repeat constructor; done.
  - vm_compute. reflexivity.
  - vm_compute. reflexivity.
  - vm_compute. reflexivity.
Qed.
