(* ===== verification/Protocol.v ===== *)
(** * What clients can rely on

    The theorems on the two parsers and on the receive loop: requests in the
    format of the protocol are understood, whatever bytes arrive are handled
    within the buffer, and it does not matter how TCP cuts the stream. *)

From S2P Require Import Prelude CLib MemTypes Table TextRequest TextRequestSpec TextRoundtrip.
From S2P Require Import BinaryRequest BinaryRequestSpec BinaryRoundtrip MemState MemObject.
From S2P Require Import Response Stats Replication MemSocket MemSocketSpec MemStream Siphash.
From S2P Require Import HashMap HashMapSpec ReplicationSpec Samples.

(** ** The text protocol *)

(** C37: Text storage commands are understood.  A [set], [add], [replace],
    [append], [prepend] or [cas] command in the format of the protocol is parsed
    as that command, consuming exactly its bytes whatever follows; key, data,
    flags, CAS value and [noreply] are those sent, and the expiration time is made
    absolute. *)
Theorem text_storage_understood ck s rest :
  storage_wf s ->
  let buf := print_storage s ++ rest in
  exists r, text_parse ck buf = Some r /\
    m_valid r = true /\ m_command r = sc_command s /\
    m_request_len r = length (print_storage s) /\
    item_bytes buf (m_key r) = sc_key s /\ item_bytes buf (m_data r) = sc_data s /\
    m_flags r = sc_flags s /\ m_no_reply r = sc_noreply s /\
    m_cas_unique r = (if sc_is_cas s then sc_cas s else 0) /\
    m_exptime r = (if sc_exptime s =? 0 then 0 else absolute_time ck (sc_exptime s)).
Proof.
  intros wf buf. exists (storage_request ck s). split; [by apply text_storage_roundtrip|].
  destruct (storage_items ck s rest) as [Hk Hd]. fold buf in Hk, Hd. by rewrite Hk, Hd.
Qed.

(** Retrieval commands are understood.  [get] and [gets] with any number of
    keys are parsed, consuming exactly the line, and iterating over the keys
    yields the keys sent, in order. *)
Theorem text_get_understood ck gets k ks rest :
  Forall word (k :: ks) ->
  let buf := print_get gets (k :: ks) ++ rest in
  exists r its, text_parse ck buf = Some r /\
    m_valid r = true /\ m_command r = (if gets then GETS else GET) /\
    m_request_len r = length (print_get gets (k :: ks)) /\
    key_loop buf (S (length buf)) (m_key r) = Some its /\ item_bytes buf <$> its = k :: ks.
Proof. intros Hk. by apply text_get_roundtrip. Qed.

(** A line whose only white space are blanks makes a clean request. *)
Lemma clean_line_request l rest :
  forallb (fun b => implb (isspace b) (bool_decide (b = SP))) l = true ->
  clean_request (l ++ CR :: LF :: rest).
Proof.
  intros Hl. rewrite forallb_forall in Hl.
  assert (forall b, b ∈ l -> isspace b = true -> b = SP) as Hc.
  { intros b Hb Hs. specialize (Hl b (proj1 (list_elem_of_In _ _) Hb)). rewrite Hs in Hl.
    by apply bool_decide_eq_true in Hl. }
  assert (LF ∉ l ++ [CR]) as Hn
    by (intros [Hin|Hin]%elem_of_app; [by specialize (Hc LF Hin eq_refl)|set_solver]).
  intros l' rest' Heq Hn' b Hb Hs.
  assert (LF ∉ l' ++ [CR]) as Hn2 by set_solver.
  assert (length (l ++ [CR]) = length (l' ++ [CR])) as Hlen.
  { pose proof (find_byte_mid LF _ rest Hn) as H1. pose proof (find_byte_mid LF _ rest' Hn2) as H2.
    rewrite <- app_assoc in H1, H2. cbn [app] in H1, H2. rewrite Heq in H1. congruence. }
  rewrite !length_app in Hlen. apply app_inj_1 in Heq as [-> _]; [by apply Hc|lia].
Qed.

(** The text parser stays in the buffer.  On a buffer whose first line has
    no white space but blanks, the parser returns without reading past the
    received bytes; the request it reports, its key and its data lie in the
    buffer, the data is followed by two bytes of the request, and the numbers
    have their widths. *)
Theorem text_parse_safe ck buf :
  clean_request buf -> exists r, text_parse ck buf = Some r /\ text_request_ok buf r.
Proof.
  intros Hc. destruct (text_parse_swp ck buf) as [Hok Hs]. destruct (Hs Hc) as [r Hr].
  exists r. split; [done|by apply Hok].
Qed.

(** A text request is final.  Once the parser has recognised a complete
    request, bytes that arrive later do not change its result. *)
Theorem text_parse_final ck buf more r :
  text_parse ck buf = Some r -> m_request_len r <> 0%nat -> text_parse ck (buf ++ more) = Some r.
Proof.
  intros Hr Hn. pose proof (text_parse_mono ck buf more) as Hm. rewrite Hr in Hm.
  by destruct Hm as [?| -> ].
Qed.

(** The text parser can read past the request.  On a complete [incr] line
    whose amount is missing but preceded by a tab, [strtoull] skips the end of the
    line as white space and reads bytes that have not been received. *)
Theorem text_overread : text_parse sample_clock (lit "incr k " ++ [x09; x0d; x0a]) = None.
Proof. vm_compute. reflexivity. Qed.

(** ** The binary protocol *)

(** C38: The binary parser stays in the buffer.  Whatever bytes are received, the
    parser returns without reading past them; the request it reports has at least
    the size of a header, its key and data lie in it and within the limits, and
    the numbers have their widths. *)
Theorem binary_parse_safe ck u buf :
  exists r, binary_parse ck u buf = Some r /\ binary_request_ok buf r.
Proof.
  destruct (binary_parse_swp ck u buf) as [Hok Hs]. destruct (Hs I) as [r Hr].
  exists r. split; [done|by apply Hok].
Qed.

(** A binary request is final.  Once the parser has recognised a complete
    request, bytes that arrive later do not change its result. *)
Theorem binary_parse_final ck u buf more r :
  binary_parse ck u buf = Some r -> b_request_len r <> 0%nat ->
  binary_parse ck u (buf ++ more) = Some r.
Proof.
  intros Hr Hn. pose proof (binary_parse_mono ck u buf more) as Hm. rewrite Hr in Hm.
  by destruct Hm as [?| -> ].
Qed.

(** Binary storage requests are understood.  A [Set], [Add], [Replace] or
    [RaU] request, quiet or not, in the binary format with a key and data is
    parsed with status [OK], consuming exactly its bytes; key, data, flags and CAS
    value are those sent, and the expiration time is made absolute. *)
Theorem binary_set_understood ck u op cas flags t key data rest :
  set_family (binary_command_of_byte op) = true ->
  0 <= cas < 2 ^ 64 -> 0 <= flags < 2 ^ 32 -> 0 <= t < 2 ^ 32 ->
  key <> [] -> blen key <= MAX_KEY_LENGTH -> data <> [] -> blen data <= MAX_REQUEST_LENGTH ->
  let msg := encode_request op (zeros 2) (zeros 4) cas (set_extras flags t) key data in
  let buf := msg ++ rest in
  exists r, binary_parse ck u buf = Some r /\
    b_status r = OK /\ b_command r = binary_command_of_byte op /\
    b_request_len r = length msg /\
    item_bytes buf (b_key r) = key /\ item_bytes buf (b_data r) = data /\
    b_flags r = flags /\ b_cas_unique r = cas /\ b_exptime r = exptime_of ck t.
Proof.
  intros Hop Hc Hf Ht Hk Hkl Hd Hdl msg buf.
  assert (encode_wf (zeros 2) (zeros 4) cas (set_extras flags t) key data) as wf
    by (constructor; try done; by rewrite blen_set_extras).
  eexists. split; [by apply binary_set_encode|].
  cbn [b_status b_command b_request_len b_key b_data b_flags b_cas_unique b_exptime
       bset_status bset_exptime bset_flags encoded_request].
  destruct (encode_at op _ _ _ _ _ _ rest wf) as (_&_&_&_&_&_&_&Hka&Hda).
  fold msg buf in Hka, Hda. destruct key as [|k0 key]; [done|]. destruct data as [|d0 data]; [done|].
  rewrite (item_at _ _ (k0 :: key) Hka), (item_at _ _ (d0 :: data) Hda).
  split_and!; try done. unfold msg. by rewrite length_encode.
Qed.

(** ** The stream *)

Section segments.
Context {H : Type} `{HT : Table H object} (r : request_env) (ck : clock) (u : uninit).

(** At no cut has the text parser read past the bytes received so far, and what is left
    of an unfinished request is at most the longest legal one.  (Nothing is asked of
    the bytes after a request that raised an exception.) *)
Fixpoint segments_ok (ds : list bytes) (buf : bytes) (hash : H) (e : env) : Prop :=
  match ds with
  | [] | [_] => True
  | d :: ds' =>
      match process_all r ck u (buf ++ d) hash e with
      | (inr (rest, hash'), e') => blen rest <= MAX_REQUEST_LENGTH /\ segments_ok ds' rest hash' e'
      | (inl x, _) => x <> bad_read
      end
  end.

Lemma recv_loop_cons d rs buf hash e rest hash' e' :
  process_all r ck u (buf ++ d) hash e = (inr (rest, hash'), e') ->
  blen rest <= MAX_REQUEST_LENGTH ->
  recv_loop r ck u (recv_ok d :: rs) buf hash e = recv_loop r ck u rs rest hash' e'.
Proof.
  intros Hp Hl. cbn [recv_loop]. unfold bind at 1. rewrite Hp, Z.gtb_ltb.
  by destruct (Z.ltb_spec MAX_REQUEST_LENGTH (blen rest)); [lia|].
Qed.

(** A request that raises an exception does so whatever follows it. *)
Lemma recv_loop_raises d more rs buf hash e x e' :
  process_all r ck u (buf ++ d) hash e = (inl x, e') -> x <> bad_read ->
  recv_loop r ck u (recv_ok (d ++ more) :: rs) buf hash e = (inl x, e').
Proof using HT.
  intros Hp Hx. cbn [recv_loop]. rewrite app_assoc. apply bind_exn.
  rewrite (process_app r ck u (S (length (buf ++ d)))); [|lia|].
  - apply bind_exn. exact Hp.
  - intros e2 E. unfold process_all in Hp. rewrite Hp in E. congruence.
Qed.

(** C16: Segmentation does not matter, as long as no cut makes the text parser read past the
    received bytes or leaves more than [MAX_REQUEST_LENGTH] bytes of an unfinished request.
    A receive job that gets the client's bytes in several segments then executes the same
    requests, in the same order and with the same effects on the table, the locks and the
    output, and with the same exception if there is one, as a job that gets them in one. *)
Theorem segmentation_irrelevant d ds rs buf hash e :
  segments_ok (d :: ds) buf hash e ->
  recv_loop r ck u ((recv_ok <$> (d :: ds)) ++ rs) buf hash e =
  recv_loop r ck u (recv_ok (concat (d :: ds)) :: rs) buf hash e.
Proof using HT.
  revert d buf hash e. induction ds as [|d' ds IH]; intros d buf hash e Hok.
  - cbn [concat]. by rewrite app_nil_r.
  - change (recv_ok <$> (d :: d' :: ds)) with (recv_ok d :: (recv_ok <$> (d' :: ds))).
    change (concat (d :: d' :: ds)) with (d ++ concat (d' :: ds)). rewrite <- app_comm_cons.
    cbn [segments_ok] in Hok. destruct (process_all r ck u (buf ++ d) hash e) as [[x|[rest hash']] e'] eqn:Hp.
    + rewrite (recv_loop_raises d _ _ _ _ _ x e') by done. pose proof (recv_loop_raises d [] ((recv_ok <$> (d' :: ds)) ++ rs)
        buf hash e x e' Hp Hok) as Hr. by rewrite app_nil_r in Hr.
    + destruct Hok as [Hl Hok]. rewrite <- (recv_loop_split r ck u rs buf d _ hash e rest hash' e' Hp Hl).
      rewrite (recv_loop_cons _ _ _ _ _ _ _ _ Hp Hl), (recv_loop_cons _ _ _ _ _ _ _ _ Hp Hl).
      by apply IH.
Qed.
End segments.

(** ** Instances *)

Definition sample_storage : storage :=
  {| sc_word := lit "cas"; sc_command := CAS; sc_is_cas := true; sc_key := lit "k";
     sc_flags := 7; sc_exptime := 60; sc_cas := 3; sc_noreply := true; sc_data := lit "a b" |}.

Lemma text_storage_understood_witness :
  exists r, text_parse sample_clock (print_storage sample_storage ++ lit "get") = Some r /\
    m_valid r = true /\ m_command r = CAS /\
    m_request_len r = length (print_storage sample_storage) /\
    item_bytes (print_storage sample_storage ++ lit "get") (m_key r) = lit "k" /\
    item_bytes (print_storage sample_storage ++ lit "get") (m_data r) = lit "a b" /\
    m_flags r = 7 /\ m_no_reply r = true /\ m_cas_unique r = 3 /\
    m_exptime r = absolute_time sample_clock 60.
Proof.
  apply (text_storage_understood sample_clock sample_storage (lit "get")).
  constructor; [|split_and!|..]; try (by apply (bool_decide_unpack _)); cbn; lia.
Defined.

Lemma text_get_understood_witness :
  exists r its, text_parse sample_clock (print_get true [lit "a"; lit "bc"]) = Some r /\
    m_valid r = true /\ m_command r = GETS /\
    m_request_len r = length (print_get true [lit "a"; lit "bc"]) /\
    key_loop (print_get true [lit "a"; lit "bc"])
      (S (length (print_get true [lit "a"; lit "bc"]))) (m_key r) = Some its /\
    item_bytes (print_get true [lit "a"; lit "bc"]) <$> its = [lit "a"; lit "bc"].
Proof.
  rewrite <- (app_nil_r (print_get true [lit "a"; lit "bc"])).
  apply (text_get_understood sample_clock true (lit "a") [lit "bc"] []).
  repeat constructor; by apply (bool_decide_unpack _).
Defined.

Lemma text_parse_safe_witness :
  exists r, text_parse sample_clock (lit "get k" ++ [x0d; x0a]) = Some r /\
    text_request_ok (lit "get k" ++ [x0d; x0a]) r.
Proof.
  apply (text_parse_safe sample_clock (lit "get k" ++ [x0d; x0a])).
  apply (clean_line_request (lit "get k") []). reflexivity.
Defined.

Definition sample_get : bytes := lit "get k" ++ [x0d; x0a].

Lemma text_parse_final_witness :
  exists r, text_parse sample_clock sample_get = Some r /\
    text_parse sample_clock (sample_get ++ lit "more") = Some r.
Proof.
  destruct (text_parse sample_clock sample_get) as [r|] eqn:Hr; [|vm_compute in Hr; discriminate].
  exists r. split; [reflexivity|]. apply (text_parse_final sample_clock sample_get (lit "more") r Hr).
  vm_compute in Hr. injection Hr as <-. cbn. discriminate.
Defined.

Definition sample_noop : bytes := [x80; x0a] ++ replicate 22 x00.

Lemma binary_parse_final_witness :
  exists r, binary_parse sample_clock sample_u sample_noop = Some r /\
    binary_parse sample_clock sample_u (sample_noop ++ lit "more") = Some r.
Proof.
  destruct (binary_parse sample_clock sample_u sample_noop) as [r|] eqn:Hr;
    [|vm_compute in Hr; discriminate].
  exists r. split; [reflexivity|].
  apply (binary_parse_final sample_clock sample_u sample_noop (lit "more") r Hr).
  vm_compute in Hr. injection Hr as <-. cbn. discriminate.
Defined.

Lemma binary_set_understood_witness :
  let msg := encode_request x01 (zeros 2) (zeros 4) 9 (set_extras 7 60) (lit "k") (lit "xy") in
  exists r, binary_parse sample_clock sample_u (msg ++ lit "z") = Some r /\
    b_status r = OK /\ b_command r = Set_ /\ b_request_len r = length msg /\
    item_bytes (msg ++ lit "z") (b_key r) = lit "k" /\
    item_bytes (msg ++ lit "z") (b_data r) = lit "xy" /\
    b_flags r = 7 /\ b_cas_unique r = 9 /\ b_exptime r = exptime_of sample_clock 60.
Proof.
  apply (binary_set_understood sample_clock sample_u x01 9 7 60 (lit "k") (lit "xy") (lit "z"));
    try lia; try discriminate; reflexivity.
Defined.

(** Three segments that cut two requests. *)
Definition sample_segments : list bytes := [lit "get"; lit " k" ++ [x0d]; [x0a] ++ sample_get].

Lemma segmentation_irrelevant_witness :
  recv_loop (sample_request 5 []) sample_clock sample_u ((recv_ok <$> sample_segments) ++ [])
    [] sample_empty (sample_env []) =
  recv_loop (sample_request 5 []) sample_clock sample_u [recv_ok (concat sample_segments)]
    [] sample_empty (sample_env []).
Proof.
  apply (segmentation_irrelevant (sample_request 5 []) sample_clock sample_u
           (lit "get") [lit " k" ++ [x0d]; [x0a] ++ sample_get] []).
  vm_compute. split; [discriminate|]. split; [discriminate|exact I].
Defined.
