(* ===== verification/Defects.v ===== *)
(** * Behaviours at odds with the intent of the code

    Why the theorems on locks of MemConcSpec are about orderly runs (a descriptor is
    not reused while its old socket holds locks; jobs run on valid sockets), command by command, and
    a handler whose result differs from its documentation. *)

From S2P Require Import Prelude CLib MemTypes Table TextRequest TextRequestSpec BinaryRequest.
From S2P Require Import MemState MemObject MemObjectSpec Response Stats Replication MemSocket.
From S2P Require Import Siphash HashMap HashMapSpec Samples MemSystem.

Section defects.
Context {H : Type} `{HT : Table H object} (r : request_env).

Lemma locked_by_self_refl o : o_lock o = g_context r -> locked_by_self (g_context r) o = true.
Proof. intros E. by apply Z.eqb_eq. Qed.

(** A reused descriptor confuses lock owners.  The reactor closes a
    descriptor before the destructor of its socket releases the locks; a new
    connection that gets the same descriptor passes the ownership check of
    [unlock] on an object it never locked, and the internal check of
    [remove_lock] then raises an exception in the worker. *)
Theorem reused_descriptor_unlock buf cmd a o hash e :
  t_inv hash -> t_map hash !! item_bytes buf (m_key cmd) = Some (a, o) ->
  m_valid cmd = true -> m_command cmd = UNLOCK ->
  o_lock o = g_context r -> e_locks e = [] ->
  exists e', cmd_text r buf cmd hash e = (inl logic_error, e').
Proof.
  intros Hi Hk Hv Hc Hl He. unfold cmd_text. rewrite Hv, Hc. cbn [negb].
  unfold text_unlock, bind, count_text_op, count, modify. rewrite (t_apply_hit hash _ a o) by done.
  unfold text_unlock_handler, object_unlock, remove_lock, bind, gets. rewrite locked_by_self_refl by done. cbn.
  rewrite He. cbn. by eexists.
Qed.

(** A job on an invalidated socket fails.  When the socket has been
    invalidated, the receive job keeps the lock context of the thread's previous
    job; releasing the locks of the connection then raises an exception, and the
    locks stay. *)
Theorem stale_context_job ck u fd pending rs k l a o hash e :
  t_inv hash -> e_locks e = k :: l -> t_map hash !! kr_data k = Some (a, o) ->
  o_lock o = fd -> g_context r <> fd ->
  recvjob r ck u false fd pending rs hash e = (inl logic_error, e).
Proof.
  intros Hi He Hk Hl Hne. unfold recvjob. cbn [recv_loop]. unfold unlock_all, bind at 1 2, gets.
  rewrite He. cbn [unlock_each]. unfold bind at 1 2. rewrite (t_apply_hit hash _ a o) by done.
  unfold unlock_handler, object_unlock, bind, locked_by_self. rewrite Hl.
  destruct (Z.eqb_spec fd (g_context r)); [congruence|done].
Qed.

(** The commands that lock and read. *)
Definition is_lag (c : binary_command) : bool :=
  match c with LaG | LaGQ | LaGK | LaGKQ => true | _ => false end.

(** Locking revives expired objects.  The handler of the lock-and-get
    commands locks the object before it asks whether the object has expired, and
    a locked object never has: an expired object is locked and returned as a
    hit. *)
Theorem lag_returns_expired buf cmd k o e :
  is_lag (b_command cmd) = true -> g_context r <> -1 -> b_exptime cmd = EXPTIME_NONE ->
  expired (flush_time (e_stats e)) (r_now r) o = true ->
  exists o' e', bin_get_handler r buf cmd k o e = (inr (true, o'), e') /\
    contents o' = contents o /\ o_lock o' = g_context r /\ e_locks e' = e_locks e ++ [k] /\
    e_out e' <> e_out e.
Proof.
  intros Hc Hctx Hx Hex.
  assert (locked o = false) as Hl by (destruct (locked o) eqn:El; [|done];
    by rewrite locked_not_expired in Hex).
  assert ((binary_command_code LaG <=? binary_command_code (b_command cmd)) &&
          (binary_command_code (b_command cmd) <=? binary_command_code LaGKQ) = true) as Hrange
    by (by destruct (b_command cmd)).
  unfold bin_get_handler. rewrite Hrange, Hl. unfold object_lock. rewrite Hl.
  unfold bin_get_body, is_expired, add_lock. rewrite Hx. unfold bind, gets, ret, modify.
  rewrite (locked_not_expired _ _ (with_lock _ o)).
  2: { unfold locked. cbn. by destruct (Z.eqb_spec (g_context r) (-1)). }
  cbn [negb Z.eqb Pos.eqb EXPTIME_NONE object_data].
  unfold binary_response.get, sendv, modify, upd_locks, emit.
  match goal with |- context [match (if ?c then None else Some ?x) with _ => _ end] =>
    destruct (if c then None else Some x) end; cbn.
  all: eexists _, _; split; [reflexivity|]; cbn; split_and!; try done.
  all: intros E; apply (f_equal length) in E; rewrite length_app in E; cbn in E; lia.
Qed.
End defects.

(** ** Instances on a table *)

(** Descriptor 5 holds the lock of the object; a new connection gets it too. *)
Definition sample_unlock : bytes := line "unlock a".
Definition sample_unlock_cmd : text_request :=
  default text_request_init (text_parse sample_clock sample_unlock).

Lemma reused_descriptor_unlock_witness :
  exists e', cmd_text (sample_request 5 []) sample_unlock sample_unlock_cmd (sy_hash sample_sys)
    (sample_env []) = (inl logic_error, e').
Proof.
  apply (reused_descriptor_unlock (sample_request 5 []) sample_unlock sample_unlock_cmd 0 sample_locked);
    [|vm_compute; reflexivity..].
  apply (so_inv sample_config). apply (reachable_sys_ok sample_config sample_start);
    [exact sample_initial|exact sample_reachable].
Defined.

Lemma stale_context_job_witness :
  recvjob (sample_request 6 []) sample_clock sample_u false 5 [] [] (sy_hash sample_sys)
    (sample_env [{| kr_addr := 0; kr_data := lit "a" |}]) =
  (inl logic_error, sample_env [{| kr_addr := 0; kr_data := lit "a" |}]).
Proof.
  apply (stale_context_job (sample_request 6 []) sample_clock sample_u 5 [] []
           {| kr_addr := 0; kr_data := lit "a" |} [] 0 sample_locked);
    [|vm_compute; reflexivity..|discriminate].
  apply (so_inv sample_config). apply (reachable_sys_ok sample_config sample_start);
    [exact sample_initial|exact sample_reachable].
Defined.

Definition sample_expired : object :=
  {| o_length := 2; o_data := lit "xy"; o_file := None; o_flags := 1; o_exptime := 999; o_cas := 1;
     o_gc_old := 0; o_lock := -1 |}.
Definition sample_lag : binary_request :=
  bset_exptime EXPTIME_NONE (bset_op 25 LaG false (binary_request_init sample_u)).

Lemma lag_returns_expired_witness :
  exists o' e', bin_get_handler (sample_request 5 []) (replicate 25 x00) sample_lag
      {| kr_addr := 0; kr_data := lit "a" |} sample_expired (sample_env []) = (inr (true, o'), e') /\
    contents o' = contents sample_expired /\ o_lock o' = 5 /\
    e_locks e' = [] ++ [{| kr_addr := 0; kr_data := lit "a" |}] /\ e_out e' <> [].
Proof.
  apply (lag_returns_expired (sample_request 5 []) (replicate 25 x00) sample_lag
           {| kr_addr := 0; kr_data := lit "a" |} sample_expired (sample_env []));
    [reflexivity|discriminate|reflexivity|vm_compute; reflexivity].
Defined.
