(* ===== verification/Counter.v ===== *)
(** * The counter protocol (src/counter/)

    Named semaphores: clients acquire and release resources under a name, and a
    connection's resources are released when it goes away.  The file models the
    request parser and the responses (counter.cpp), the objects (object.hpp), the
    connections (sockets.cpp), the collector (gc.cpp) and the parts of the handler
    that change its state (handler.cpp). *)

From S2P Require Import Prelude CLib Table.

Module counter.

(** ** counter.hpp *)

(** [enum class command: std::uint8_t]; the parser casts the byte before checking
    it, so values without a name occur: [CmdOther]. *)
Inductive command := Noop | Get | Acquire | Release | Stats | Dump | Unknown | CmdOther (b : byte).

Definition command_of_byte (b : byte) : command :=
  match b with
  | x00 => Noop | x01 => Get | x02 => Acquire | x03 => Release | x10 => Stats | x11 => Dump
  | x12 => Unknown | _ => CmdOther b
  end.
Definition command_byte (c : command) : byte :=
  match c with
  | Noop => x00 | Get => x01 | Acquire => x02 | Release => x03 | Stats => x10 | Dump => x11
  | Unknown => x12 | CmdOther b => b
  end.
Definition END_OF_COMMAND : nat := 0x13.

Inductive status :=
| OK | NotFound | Invalid | ResourceNotAvailable | NotAcquired | UnknownCommand | OutOfMemory.

Definition status_code (s : status) : Z :=
  match s with
  | OK => 0x00 | NotFound => 0x01 | Invalid => 0x04 | ResourceNotAvailable => 0x21
  | NotAcquired => 0x22 | UnknownCommand => 0x81 | OutOfMemory => 0x82
  end.

#[export] Instance command_eq_dec : EqDecision command.
Proof. solve_decision. Defined.
#[export] Instance status_eq_dec : EqDecision status.
Proof. solve_decision. Defined.

(** The members of [request]; [m_name] is a slice of the receive buffer, and
    [m_opaque] its four bytes at offset 8 once they are known. *)
Record request := {
  q_length : nat;
  q_command : command;
  q_flags : Z;
  q_body_length : Z;
  q_opaque : option nat;
  q_resources : Z;
  q_maximum : Z;
  q_name : option (nat * nat);
  q_status : status
}.

Definition request_init : request := {|
  q_length := 0; q_command := Unknown; q_flags := 0; q_body_length := 0; q_opaque := None;
  q_resources := 0; q_maximum := 0; q_name := None; q_status := Invalid |}.

Definition set_name (n : nat * nat) (q : request) : request :=
  {| q_length := q_length q; q_command := q_command q; q_flags := q_flags q;
     q_body_length := q_body_length q; q_opaque := q_opaque q; q_resources := q_resources q;
     q_maximum := q_maximum q; q_name := Some n; q_status := q_status q |}.
Definition set_resources (r m : Z) (q : request) : request :=
  {| q_length := q_length q; q_command := q_command q; q_flags := q_flags q;
     q_body_length := q_body_length q; q_opaque := q_opaque q; q_resources := r;
     q_maximum := m; q_name := q_name q; q_status := q_status q |}.
Definition set_status (c : command) (s : status) (q : request) : request :=
  {| q_length := q_length q; q_command := c; q_flags := q_flags q;
     q_body_length := q_body_length q; q_opaque := q_opaque q; q_resources := q_resources q;
     q_maximum := q_maximum q; q_name := q_name q; q_status := s |}.

(** ** counter.cpp: requests *)

Definition HEADER_SIZE : nat := 12.

Section parse.
Context (p : bytes).

(** The check on the name that three commands share, with the size [n] of what
    precedes the name in the body. *)
Definition parse_name (n : nat) (body_length : Z) (q : request) : option (request * bool) :=
  name_len ← ntoh 2 p (HEADER_SIZE + n - 2);
  if (name_len =? 0) || (Z.of_nat n + name_len >? body_length) then Some (q, false)
  else Some (set_name (HEADER_SIZE + n, Z.to_nat name_len)%nat q, true).

(** The [switch]: [false] is the early return. *)
Definition parse_body (body_length : Z) (q : request) : option (request * bool) :=
  let body := HEADER_SIZE in
  match q_command q with
  | Noop | Stats | Dump => Some (q, true)
  | Get => if body_length <? 2 then Some (q, false) else parse_name 2 body_length q
  | Acquire =>
      if body_length <? 10 then Some (q, false) else
      r ← ntoh 4 p body;
      let q := set_resources r (q_maximum q) q in
      if r =? 0 then Some (q, false) else
      m ← ntoh 4 p (body + 4);
      let q := set_resources r m q in
      if m <? r then Some (q, false) else
      parse_name 10 body_length q
  | Release =>
      if body_length <? 6 then Some (q, false) else
      r ← ntoh 4 p body;
      parse_name 6 body_length (set_resources r (q_maximum q) q)
  | Unknown | CmdOther _ => Some (set_status Unknown UnknownCommand q, false)
  end.

(** [request::parse]; [None] is a read past the received bytes. *)
Definition parse : option request :=
  let q := request_init in
  if (length p <? HEADER_SIZE)%nat then Some q else
  body_length ← ntoh 4 p 4;
  if blen p <? Z.of_nat HEADER_SIZE + body_length then Some q else
  c ← deref p 1;
  fl ← deref p 2;
  magic ← deref p 0;
  let q := {| q_length := HEADER_SIZE + Z.to_nat body_length; q_command := command_of_byte c;
              q_flags := Zb fl; q_body_length := body_length; q_opaque := Some 8%nat;
              q_resources := 0; q_maximum := 0; q_name := None; q_status := Invalid |} in
  if negb (bool_decide (magic = x90)) then Some q else
  '(q, ok) ← parse_body body_length q;
  if negb ok then Some q else Some (set_status (q_command q) OK q).
End parse.

(** [cmd.name()], as bytes. *)
Definition name_bytes (buf : bytes) (q : request) : bytes :=
  match q_name q with Some (b, n) => take n (drop b buf) | None => [] end.
(** The four bytes at [m_opaque]. *)
Definition opaque_bytes (buf : bytes) (q : request) : bytes :=
  match q_opaque q with Some b => take 4 (drop b buf) | None => [] end.

(** ** stats.hpp, stats.cpp *)

Record statistics := {
  objects : Z; used_memory : Z; conflicts : Z; gc_count : Z; last_gc_elapsed : Z;
  total_gc_elapsed : Z; total_objects : Z; curr_connections : Z; total_connections : Z;
  ops : list Z
}.
Definition stats_reset : statistics := {|
  objects := 0; used_memory := 0; conflicts := 0; gc_count := 0; last_gc_elapsed := 0;
  total_gc_elapsed := 0; total_objects := 0; curr_connections := 0; total_connections := 0;
  ops := replicate END_OF_COMMAND 0 |}.

Definition incr64 (v : Z) : Z := u64 (v + 1).
Definition set_total_objects (v : Z) (s : statistics) : statistics := {|
  objects := objects s; used_memory := used_memory s; conflicts := conflicts s;
  gc_count := gc_count s; last_gc_elapsed := last_gc_elapsed s;
  total_gc_elapsed := total_gc_elapsed s; total_objects := v;
  curr_connections := curr_connections s; total_connections := total_connections s;
  ops := ops s |}.
Definition set_ops (v : list Z) (s : statistics) : statistics := {|
  objects := objects s; used_memory := used_memory s; conflicts := conflicts s;
  gc_count := gc_count s; last_gc_elapsed := last_gc_elapsed s;
  total_gc_elapsed := total_gc_elapsed s; total_objects := total_objects s;
  curr_connections := curr_connections s; total_connections := total_connections s;
  ops := v |}.
Definition set_connections (c t : Z) (s : statistics) : statistics := {|
  objects := objects s; used_memory := used_memory s; conflicts := conflicts s;
  gc_count := gc_count s; last_gc_elapsed := last_gc_elapsed s;
  total_gc_elapsed := total_gc_elapsed s; total_objects := total_objects s;
  curr_connections := c; total_connections := t; ops := ops s |}.

(** ** The state of a connection's job *)

Inductive output := out_send (data : bytes) (flush : bool) | out_invalidate.

(** [m_acquired_resources] maps the addresses of keys to amounts; it is kept as
    a list of its entries, whose order nothing relies on. *)
Record env := {
  e_stats : statistics;
  e_acquired : list (kref * Z);
  e_out : list output
}.
Definition upd_stats (f : statistics -> statistics) (e : env) : env :=
  {| e_stats := f (e_stats e); e_acquired := e_acquired e; e_out := e_out e |}.
Definition upd_acquired (f : list (kref * Z) -> list (kref * Z)) (e : env) : env :=
  {| e_stats := e_stats e; e_acquired := f (e_acquired e); e_out := e_out e |}.
Definition emit (o : output) (e : env) : env :=
  {| e_stats := e_stats e; e_acquired := e_acquired e; e_out := e_out e ++ [o] |}.

Definition send (data : bytes) (flush : bool) : M env unit := modify (emit (out_send data flush)).
Definition sendv (iov : list bytes) (flush : bool) : M env unit :=
  modify (emit (out_send (concat iov) flush)).
Definition invalidate_and_close : M env unit := modify (emit out_invalidate).

(** ** counter.cpp: responses *)

Section response.
Context (q : request) (opaque : bytes).

Definition fill_header (st : status) (body_length : Z) : bytes :=
  [x91; command_byte (q_command q); bZ (status_code st); x00] ++ hton 4 (u32 body_length) ++ opaque.

Definition success : M env unit := send (fill_header OK 0) true.

Definition send_error (st : status) (message : bytes) : M env unit :=
  sendv [fill_header st (blen message); message] true.

Definition error (st : status) : M env unit :=
  match st with
  | NotFound => send_error st (lit "Not found")
  | Invalid => send_error st (lit "Invalid arguments")
  | ResourceNotAvailable => send_error st (lit "Resource not available")
  | NotAcquired => send_error st (lit "Not acquired")
  | UnknownCommand => send_error st (lit "Unknown command")
  | OutOfMemory => send_error st (lit "OutOfMemory")
  | OK => throw logic_error
  end.

Definition get (consumption : Z) : M env unit :=
  sendv [fill_header OK 4; hton 4 consumption] true.

Definition acquire_response (resources : Z) : M env unit := get resources.

Definition dump (name : bytes) (consumption max_consumption : Z) : M env unit :=
  let name_len := u16 (blen name) in
  sendv [fill_header OK (10 + name_len);
         hton 4 consumption ++ hton 4 max_consumption ++ hton 2 name_len;
         take (Z.to_nat name_len) name] false.

(** [add_stat]. *)
Definition add_stat (name value : bytes) : bytes :=
  hton 2 (u16 (blen name)) ++ hton 2 (u16 (blen value)) ++ name ++ value.
(** [add_stat_op]. *)
Definition add_stat_op (s : statistics) (name : bytes) (c : command) : bytes :=
  add_stat name (to_string (default 0 (ops s !! Z.to_nat (Zb (command_byte c))))).

Definition stats_body (s : statistics) : bytes :=
  add_stat (lit "objects") (to_string (objects s)) ++
  add_stat (lit "total_objects") (to_string (total_objects s)) ++
  add_stat (lit "used_memory") (to_string (used_memory s)) ++
  add_stat (lit "conflicts") (to_string (conflicts s)) ++
  add_stat (lit "gc_count") (to_string (gc_count s)) ++
  add_stat (lit "last_gc_elapsed") (to_string (last_gc_elapsed s)) ++
  add_stat (lit "total_gc_elapsed") (to_string (total_gc_elapsed s)) ++
  add_stat (lit "curr_connections") (to_string (curr_connections s)) ++
  add_stat (lit "total_connections") (to_string (total_connections s)) ++
  add_stat_op s (lit "command:noop") Noop ++
  add_stat_op s (lit "command:get") Get ++
  add_stat_op s (lit "command:acquire") Acquire ++
  add_stat_op s (lit "command:release") Release ++
  add_stat_op s (lit "command:stats") Stats ++
  add_stat_op s (lit "command:dump") Dump.

(** [response::stats]. *)
Definition stats : M env unit :=
  let! s := gets e_stats in
  let body := stats_body s in
  sendv [fill_header OK (blen body); body] true.
End response.

(** ** object.hpp *)

(** What the code reads from the process: [g_current_time], and [stat_interval]
    and [max_connections] of the counter configuration. *)
Record conf := { c_now : Z; c_stat_interval : Z; c_max_connections : Z }.

Record object := { o_consumption : Z; o_max_consumption : Z; o_last_updated : Z }.

Section object.
Context (cf : conf).

(** [nearest_boundary]; the times are not negative. *)
Definition nearest_boundary (t : Z) : Z := (t / c_stat_interval cf) * c_stat_interval cf.

(** [object(consumption)]. *)
Definition new_object (consumption : Z) : M env object :=
  modify (upd_stats (fun s => set_total_objects (incr64 (total_objects s)) s)) ;;!
  ret {| o_consumption := consumption; o_max_consumption := consumption;
         o_last_updated := c_now cf |}.

(** [object::acquire]: whether the resources were available, and the object.  The
    sums are 32 bits wide. *)
Definition acquire (resources maximum : Z) (o : object) : bool * object :=
  let sum := u32 (o_consumption o + resources) in
  if sum >? maximum then (false, o) else
  let t := c_now cf in
  (true, {| o_consumption := sum;
            o_max_consumption := if o_last_updated o <? nearest_boundary t then sum
                                 else Z.max (o_max_consumption o) sum;
            o_last_updated := t |}).

(** [object::release]. *)
Definition release (resources : Z) (o : object) : bool * object :=
  if resources >? o_consumption o then (false, o) else
  let t := c_now cf in
  (true, {| o_consumption := o_consumption o - resources;
            o_max_consumption := if o_last_updated o <? nearest_boundary t
                                 then o_consumption o else o_max_consumption o;
            o_last_updated := t |}).

(** [object::max_consumption]. *)
Definition max_consumption (o : object) : Z :=
  if o_last_updated o <? nearest_boundary (c_now cf) then o_consumption o
  else o_max_consumption o.

(** [object::deletable]. *)
Definition deletable (o : object) : bool :=
  (o_consumption o =? 0) && (o_last_updated o <? nearest_boundary (c_now cf)).
End object.

(** ** sockets.cpp *)

(** [m_acquired_resources.find(&k)]: keys are compared by address. *)
Fixpoint find_acquired (a : nat) (l : list (kref * Z)) : option (nat * Z) :=
  match l with
  | [] => None
  | (k, v) :: l' =>
      if (kr_addr k =? a)%nat then Some (0%nat, v)
      else '(i, v) ← find_acquired a l'; Some (S i, v)
  end.

(** [on_acquire]. *)
Definition on_acquire (k : kref) (resources : Z) : M env unit :=
  let! l := gets e_acquired in
  match find_acquired (kr_addr k) l with
  | Some (i, v) =>
      modify (upd_acquired (fun l => alter (fun p => (p.1, u32 (v + resources))) i l))
  | None => modify (upd_acquired (fun l => l ++ [(k, resources)]))
  end.

(** [on_release]. *)
Definition on_release (k : kref) (resources : Z) : M env bool :=
  let! l := gets e_acquired in
  match find_acquired (kr_addr k) l with
  | None => ret false
  | Some (i, v) =>
      if v <? resources then ret false else
      if v =? resources then modify (upd_acquired (delete i)) ;;! ret true else
      modify (upd_acquired (alter (fun p => (p.1, v - resources)) i)) ;;!
      ret true
  end.

Section socket.
Context {H : Type} `{TableOps H object} (cf : conf).

(** The handler of [release_all]. *)
Definition release_all_handler (count : Z) : handler env object := fun _ obj =>
  let '(ok, obj) := release cf count obj in
  if ok then ret (true, obj) else throw logic_error.

(** One iteration of the loop of [release_all]. *)
Definition release_one (k : kref) (count : Z) (hash : H) : M env H :=
  let! (found, hash) := t_apply hash (kr_data k) (Some (release_all_handler count)) None in
  if negb found then throw logic_error else ret hash.

(** The loop of [release_all]. *)
Fixpoint release_each (l : list (kref * Z)) (hash : H) : M env H :=
  match l with
  | [] => ret hash
  | (k, count) :: l' =>
      let! hash := release_one k count hash in
      release_each l' hash
  end.

(** [release_all]; it is also the body of [~counter_socket]. *)
Definition release_all (hash : H) : M env H :=
  let! l := gets e_acquired in
  let! hash := release_each l hash in
  modify (upd_acquired (fun _ => [])) ;;!
  ret hash.

Section commands.
Context (buf : bytes) (cmd : request).

Let opq : bytes := opaque_bytes buf cmd.
Let name : bytes := name_bytes buf cmd.

Definition cmd_get (hash : H) : M env H :=
  let h : handler env object := fun _ obj =>
    get cmd opq (o_consumption obj) ;;! ret (true, obj) in
  let! (found, hash) := t_apply hash name (Some h) None in
  when (negb found) (error cmd opq NotFound) ;;!
  ret hash.

Definition acquire_handler : handler env object := fun k obj =>
  let '(ok, obj) := acquire cf (q_resources cmd) (q_maximum cmd) obj in
  if negb ok then error cmd opq ResourceNotAvailable ;;! ret (true, obj) else
  on_acquire k (q_resources cmd) ;;!
  acquire_response cmd opq (q_resources cmd) ;;!
  ret (true, obj).

Definition acquire_creator : creator env object := fun k =>
  on_acquire k (q_resources cmd) ;;!
  acquire_response cmd opq (q_resources cmd) ;;!
  new_object cf (q_resources cmd).

Definition cmd_acquire (hash : H) : M env H :=
  let! (_, hash) := t_apply hash name (Some acquire_handler) (Some acquire_creator) in
  ret hash.

Definition release_handler : handler env object := fun k obj =>
  let! ok := on_release k (q_resources cmd) in
  if negb ok then error cmd opq NotAcquired ;;! ret (true, obj) else
  let '(ok, obj) := release cf (q_resources cmd) obj in
  if negb ok then throw logic_error else
  success cmd opq ;;!
  ret (true, obj).

Definition cmd_release (hash : H) : M env H :=
  let! (found, hash) := t_apply hash name (Some release_handler) None in
  when (negb found) (error cmd opq NotFound) ;;!
  ret hash.

Definition dump_pred : visitor env object := fun k obj =>
  dump cmd opq (kr_data k) (o_consumption obj) (max_consumption cf obj).
Definition cmd_dump (hash : H) : M env H :=
  t_foreach hash dump_pred ;;!
  success cmd opq ;;!
  ret hash.

Definition count_op (c : command) : M env unit :=
  modify (upd_stats (fun s => set_ops (alter incr64 (Z.to_nat (Zb (command_byte c))) (ops s)) s)).

(** [counter_socket::execute]. *)
Definition execute (hash : H) : M env H :=
  if negb (bool_decide (q_status cmd = OK)) then error cmd opq (q_status cmd) ;;! ret hash else
  count_op (q_command cmd) ;;!
  match q_command cmd with
  | Noop => success cmd opq ;;! ret hash
  | Get => cmd_get hash
  | Acquire => cmd_acquire hash
  | Release => cmd_release hash
  | Stats => stats cmd opq ;;! ret hash
  | Dump => cmd_dump hash
  | Unknown | CmdOther _ => error cmd opq UnknownCommand ;;! ret hash
  end.
End commands.

(** The loop over the requests in the buffer; every request has at least twelve
    bytes, so the length of the buffer bounds the rounds. *)
Fixpoint process (fuel : nat) (head : bytes) (hash : H) : M env (bytes * H) :=
  match fuel with
  | O => throw no_fuel
  | S f =>
      match head with
      | [] => ret ([], hash)
      | _ :: _ =>
          let! parser := checked (parse head) in
          let c := q_length parser in
          if (c =? 0)%nat then ret (head, hash) else
          let! hash := execute head parser hash in
          process f (drop c head) hash
      end
  end.

(** [MAX_REQUEST_LENGTH]. *)
Definition max_request_length : Z := Z.shiftl 30 20.

Inductive received := recv_ok (d : bytes) | recv_again | recv_reset.

(** [m_recvjob]: [rs] holds what the successive calls of [receive] return, and
    [buf] starts as [m_pending]; the result is the new [m_pending]. *)
Fixpoint recvjob (rs : list received) (buf : bytes) (hash : H) : M env (bytes * H) :=
  match rs with
  | [] | recv_again :: _ => ret (buf, hash)
  | recv_reset :: _ => let! hash := release_all hash in ret ([], hash)
  | recv_ok d :: rs' =>
      let! (rest, hash) := process (S (length (buf ++ d))) (buf ++ d) hash in
      if blen rest >? max_request_length then
        let! hash := release_all hash in
        invalidate_and_close ;;!
        ret ([], hash)
      else recvjob rs' rest hash
  end.
End socket.

(** ** gc.cpp *)

Record gc_counters := {
  g_objects : Z; g_conflicts : Z; g_used_memory : Z; g_objects_in_bucket : Z
}.
Definition gc_counters_init : gc_counters :=
  {| g_objects := 0; g_conflicts := 0; g_used_memory := 0; g_objects_in_bucket := 0 |}.

Section gc.
Context {H : Type} `{TableOps H object} (cf : conf).
(** [sizeof(cybozu::hash_key) + sizeof(object)]. *)
Context (sizes : Z).

Definition count_survivor (klen : Z) (c : gc_counters) : gc_counters :=
  let in_bucket := g_objects_in_bucket c + 1 in
  {| g_objects := u32 (g_objects c + 1);
     g_conflicts := if in_bucket =? 2 then u32 (g_conflicts c + 1) else g_conflicts c;
     g_used_memory := u64 (g_used_memory c + sizes + klen);
     g_objects_in_bucket := in_bucket |}.
Definition set_in_bucket (n : Z) (c : gc_counters) : gc_counters :=
  {| g_objects := g_objects c; g_conflicts := g_conflicts c; g_used_memory := g_used_memory c;
     g_objects_in_bucket := n |}.

Definition gc_pred : handler gc_counters object := fun k obj =>
  if deletable cf obj then ret (true, obj) else
  modify (count_survivor (blen (kr_data k))) ;;!
  ret (false, obj).

(** [gc_thread::gc]. *)
Definition gc (hash : H) : M gc_counters H :=
  t_gc hash (modify (set_in_bucket 0)) gc_pred (ret tt).

(** The stores of [gc_thread::run]. *)
Definition publish (c : gc_counters) (us : Z) (s : statistics) : statistics := {|
  objects := g_objects c; used_memory := g_used_memory c; conflicts := g_conflicts c;
  gc_count := u32 (gc_count s + 1); last_gc_elapsed := us;
  total_gc_elapsed := u64 (total_gc_elapsed s + us); total_objects := total_objects s;
  curr_connections := curr_connections s; total_connections := total_connections s;
  ops := ops s |}.
End gc.

(** ** handler.cpp *)

(** The collector: [m_gc_thread], with whether it is done, and [m_last_gc]. *)
Record handler_state := { h_gc_thread : option bool; h_last_gc : Z }.

(** [handler::gc_ready]. *)
Definition gc_ready (cf : conf) (h : handler_state) : bool * handler_state :=
  let ready h := h_last_gc h <? nearest_boundary cf (c_now cf) in
  match h_gc_thread h with
  | Some false => (false, h)
  | Some true =>
      let h := {| h_gc_thread := None; h_last_gc := c_now cf |} in (ready h, h)
  | None => (ready h, h)
  end.

(** [handler::on_master_interval]: whether a collector is started. *)
Definition on_master_interval (cf : conf) (h : handler_state) : bool * handler_state :=
  let '(r, h) := gc_ready cf h in
  if r then (true, {| h_gc_thread := Some false; h_last_gc := h_last_gc h |}) else (false, h).

(** [handler::make_counter_socket]: the connection is refused, or counted by the
    constructor. *)
Definition make_counter_socket (cf : conf) (s : statistics) : option statistics :=
  if negb (c_max_connections cf =? 0) && (curr_connections s >=? c_max_connections cf) then None
  else Some (set_connections (incr64 (curr_connections s)) (incr64 (total_connections s)) s).

(** [on_invalidate]. *)
Definition count_invalidate (s : statistics) : statistics :=
  set_connections (u64 (curr_connections s - 1)) (total_connections s) s.

(** [handler::clear]. *)
Definition clear {H : Type} `{TableOps H object} (hash : H) (s : statistics) : H * statistics :=
  (t_clear hash, set_total_objects 0 s).

End counter.
