(* ===== verification/CounterSpec.v ===== *)
(** * Properties of the counter protocol

    The parser is total and stays in the buffer, requests in the wire format are
    understood, and the books balance: as long as the maxima that clients give
    leave room for the 32-bit sums, what an object counts as consumed is what the
    connections hold, no more than the largest maximum, and no release fails. *)

From S2P Require Import Prelude CLib Table Siphash HashMap HashMapSpec TextRoundtrip Counter.

Import counter.

(** ** Requests *)

(** What holds of every parsed request. *)
Record request_ok (buf : bytes) (q : request) : Prop := {
  qk_len : (q_length q <= length buf)%nat;
  qk_min : q_length q = 0%nat \/ (12 <= q_length q)%nat;
  qk_opaque : q_length q <> 0%nat -> q_opaque q = Some 8%nat;
  qk_name b n : q_name q = Some (b, n) -> (0 < n /\ 12 < b /\ b + n <= q_length q)%nat /\ Z.of_nat n < 2 ^ 16;
  qk_resources : 0 <= q_resources q < 2 ^ 32;
  qk_maximum : 0 <= q_maximum q < 2 ^ 32;
  qk_status : q_status q = OK -> (12 <= q_length q)%nat;
  qk_acquire : q_status q = OK -> q_command q = Acquire -> 0 < q_resources q <= q_maximum q
}.

Section parser.
Context (buf : bytes).

Lemma swp_read n p :
  (p + n <= length buf)%nat ->
  swp True (ntoh n buf p) (fun z => 0 <= z < 2 ^ (8 * Z.of_nat n)).
Proof. intros H. split; [intros z; apply ntoh_range|]. intros _. by apply ntoh_in_bounds. Qed.

(** A request under construction: everything but the last clause. *)
Definition building (len : nat) (c : command) (q : request) : Prop :=
  request_ok buf q /\ q_status q = Invalid /\ q_length q = len /\ (12 <= len)%nat /\
  q_command q = c /\ q_name q = None.

Lemma building_resources len c r m q :
  0 <= r < 2 ^ 32 -> 0 <= m < 2 ^ 32 -> building len c q -> building len c (set_resources r m q).
Proof.
  intros Hr Hm ([]&Hs&Hl&Hlen&Hc&Hn). split; [|done]. constructor; cbn; try done; by rewrite Hs.
Qed.

(** What [parse_body] leaves: invalid, or a request that becomes valid. *)
Definition finished (len : nat) (p : request * bool) : Prop :=
  if p.2 then request_ok buf p.1 /\ (12 <= q_length p.1)%nat /\
    (q_command p.1 = Acquire -> 0 < q_resources p.1 <= q_maximum p.1)
  else request_ok buf p.1.

Lemma parse_name_ok n len c q :
  building len c q -> (2 <= n)%nat -> Z.of_nat n <= Z.of_nat len - 12 ->
  (c = Acquire -> 0 < q_resources q <= q_maximum q) ->
  swp True (parse_name buf n (Z.of_nat len - 12) q) (finished len).
Proof.
  intros (Hq&Hs&Hl&Hlen&Hc&Hn) H2 Hn' Hacq. unfold parse_name, HEADER_SIZE.
  pose proof (qk_len _ _ Hq). eapply swp_bind; [apply swp_read; lia|intros z Hz].
  cbn in Hz. rewrite Z.gtb_ltb. destruct (Z.eqb_spec z 0); [by apply swp_ret|].
  destruct (Z.ltb_spec (Z.of_nat len - 12) (Z.of_nat n + z)); [by apply swp_ret|]. cbn [orb].
  apply swp_ret. split; [|cbn; split; [lia|intros E; apply Hacq; congruence]].
  destruct Hq. constructor; cbn; try done; [|by rewrite Hs..].
  intros b m [= <- <-]. rewrite Hl. cbn. split_and!; try lia.
Qed.

Lemma parse_body_ok len q :
  building len (q_command q) q -> swp True (parse_body buf (Z.of_nat len - 12) q) (finished len).
Proof.
  intros Hb. pose proof Hb as (Hq&Hs&Hl&Hlen&_&Hn). pose proof (qk_len _ _ Hq) as Hbuf.
  pose proof (qk_maximum _ _ Hq) as Hmax. unfold parse_body, HEADER_SIZE.
  destruct (q_command q) eqn:Hc.
  - apply swp_ret. by split; [|split; [cbn; lia|cbn; congruence]].
  - destruct (Z.ltb_spec (Z.of_nat len - 12) 2); [by apply swp_ret|]. by eapply parse_name_ok; try done; lia.
  - destruct (Z.ltb_spec (Z.of_nat len - 12) 10); [by apply swp_ret|].
    eapply swp_bind; [apply swp_read; lia|intros r Hr]. cbn in Hr.
    destruct (Z.eqb_spec r 0); [apply swp_ret; by apply (building_resources len Acquire)|].
    eapply swp_bind; [apply swp_read; lia|intros m Hm]. cbn in Hm.
    pose proof (building_resources len Acquire r m q Hr Hm Hb) as Hb2.
    destruct (Z.ltb_spec m r); [apply swp_ret; apply Hb2|].
    eapply (parse_name_ok 10 len Acquire); [exact Hb2|lia|lia|cbn; lia].
  - destruct (Z.ltb_spec (Z.of_nat len - 12) 6); [by apply swp_ret|].
    eapply swp_bind; [apply swp_read; lia|intros r Hr]. cbn in Hr.
    eapply (parse_name_ok 6 len Release); [by apply building_resources|lia|lia|done].
  - apply swp_ret. by split; [|split; [cbn; lia|cbn; congruence]].
  - apply swp_ret. by split; [|split; [cbn; lia|cbn; congruence]].
  - apply swp_ret. destruct Hq. by constructor.
  - apply swp_ret. destruct Hq. by constructor.
Qed.

Lemma parse_swp : swp True (parse buf) (request_ok buf).
Proof.
  unfold parse, HEADER_SIZE.
  assert (request_ok buf request_init) as H0 by (constructor; cbn; try done; try lia; by left).
  destruct (Nat.ltb_spec (length buf) 12); [by apply swp_ret|].
  eapply swp_bind; [apply swp_read; lia|intros bl Hbl]. cbn in Hbl.
  destruct (Z.ltb_spec (blen buf) (Z.of_nat 12 + bl)) as [|Hlen]; [by apply swp_ret|].
  unfold blen in Hlen.
  assert (forall p, (p < 12)%nat -> swp True (deref buf p) (fun _ => True)) as Hdr
    by (intros p Hp; split; [done|intros _; apply lookup_lt_is_Some_2; lia]).
  do 3 (eapply swp_bind; [by apply Hdr; lia|intros ? _]).
  match goal with |- context [if _ then Some ?q else _] => set (q0 := q) end.
  assert (building (12 + Z.to_nat bl) (q_command q0) q0) as Hb.
  { split_and!; try done; [|cbn; lia]. constructor; cbn; try done; try lia; by right; lia. }
  destruct (negb _); [apply swp_ret, Hb|].
  eapply (swp_bind _ _ _ (finished (12 + Z.to_nat bl))).
  - pose proof (parse_body_ok (12 + Z.to_nat bl) q0 Hb) as Hp.
    by replace (Z.of_nat (12 + Z.to_nat bl) - 12) with bl in Hp by lia.
  - intros [q ok] Hf. destruct ok; cbn in Hf; [|by apply swp_ret].
    destruct Hf as (Hq&Hl&Ha). apply swp_ret. destruct Hq. by constructor.
Qed.
End parser.

(** Bytes that arrive later do not change a complete request. *)
Section mono.
Context (buf rest : bytes).

Lemma read_mono n p : ole_eq (ntoh n buf p) (ntoh n (buf ++ rest) p).
Proof.
  destruct (ntoh n buf p) as [z|] eqn:E; [|done]. right. unfold ntoh in *.
  apply bind_Some in E as (s&Hs&E). pose proof Hs as [Hl _]%read_n_Some.
  by rewrite read_n_app_l, Hs.
Qed.

Lemma deref_mono' p : ole_eq (deref buf p) (deref (buf ++ rest) p).
Proof.
  unfold deref. destruct (buf !! p) as [b|] eqn:E; [|done]. right. by apply lookup_app_l_Some.
Qed.

Lemma parse_name_mono n bl q : ole_eq (parse_name buf n bl q) (parse_name (buf ++ rest) n bl q).
Proof. unfold parse_name. apply ole_bind; [apply read_mono|intros z]. apply ole_refl. Qed.

Lemma parse_body_mono bl q : ole_eq (parse_body buf bl q) (parse_body (buf ++ rest) bl q).
Proof.
  unfold parse_body. destruct (q_command q); try apply ole_refl.
  - case_match; [apply ole_refl|apply parse_name_mono].
  - case_match; [apply ole_refl|]. apply ole_bind; [apply read_mono|intros r].
    case_match; [apply ole_refl|]. apply ole_bind; [apply read_mono|intros m].
    case_match; [apply ole_refl|apply parse_name_mono].
  - case_match; [apply ole_refl|]. apply ole_bind; [apply read_mono|intros r]. apply parse_name_mono.
Qed.

Lemma parse_mono : ole (fun q => q_length q = 0%nat) (parse buf) (parse (buf ++ rest)).
Proof.
  unfold parse. rewrite length_app, blen_app. pose proof (blen_nonneg rest).
  destruct (Nat.ltb_spec (length buf) HEADER_SIZE); [by left|].
  destruct (Nat.ltb_spec (length buf + length rest) HEADER_SIZE); [lia|].
  apply ole_bind; [apply read_mono|intros bl].
  destruct (Z.ltb_spec (blen buf) (Z.of_nat HEADER_SIZE + bl)); [by left|].
  destruct (Z.ltb_spec (blen buf + blen rest) (Z.of_nat HEADER_SIZE + bl)); [lia|].
  do 3 (apply ole_bind; [apply deref_mono'|intros ?]). case_match; [apply ole_refl|].
  apply ole_bind; [apply parse_body_mono|intros [q ok]]. apply ole_refl.
Qed.
End mono.

(** Counter requests are parsed safely.  On any bytes the parser returns
    without reading past them; a request it reports has at least the header and
    lies in the buffer with its name, an [Acquire] that is accepted asks for
    something and no more than its maximum, and bytes that arrive later do not
    change the result. *)
Theorem counter_parse_safe buf :
  exists q, parse buf = Some q /\ request_ok buf q /\
    (q_length q <> 0%nat -> forall more, parse (buf ++ more) = Some q).
Proof.
  destruct (parse_swp buf) as [Hok Hs]. destruct (Hs I) as [q Hq]. exists q.
  split; [done|]. split; [by apply Hok|]. intros Hl more.
  pose proof (parse_mono buf more) as Hm. rewrite Hq in Hm. by destruct Hm as [?| -> ].
Qed.

(** ** The wire format *)

Definition encode (c : command) (fl : byte) (opq body : bytes) : bytes :=
  [x90; command_byte c; fl; x00] ++ hton 4 (blen body) ++ opq ++ body.

(** The body of the commands that name an object: numbers, and the name with its
    length. *)
Definition body_of (nums : list Z) (name : bytes) : bytes :=
  (nums ≫= hton 4) ++ hton 2 (blen name) ++ name.

Record encode_wf (opq : bytes) (nums : list Z) (name : bytes) : Prop := {
  ew_opaque : length opq = 4%nat;
  ew_nums : Forall (fun n => 0 <= n < 2 ^ 32) nums;
  ew_name : name <> [] /\ blen name < 2 ^ 16
}.

Lemma encode_fields c fl opq body rest :
  length opq = 4%nat -> blen body < 2 ^ 32 ->
  let buf := encode c fl opq body ++ rest in
  buf !! 0%nat = Some x90 /\ buf !! 1%nat = Some (command_byte c) /\ buf !! 2%nat = Some fl /\
  ntoh 4 buf 4 = Some (blen body) /\ has_at buf 8 opq /\ has_at buf 12 body /\
  (length buf = 12 + length body + length rest)%nat.
Proof.
  intros Ho Hb buf. pose proof (blen_nonneg body).
  assert (has_at buf 0 (encode c fl opq body)) as Hat by (by exists [], rest).
  unfold encode in Hat. cbn [app] in Hat. do 4 (apply at_cons in Hat as [? Hat]).
  apply at_app in Hat as [Hl Hat]. apply at_app in Hat as [Hq Hbd].
  unfold hton in *. rewrite !length_be_bytes, ?Ho in *. cbn [Nat.add] in *.
  split_and!; try done.
  - destruct Hl as (pre&post&->&Hpre). pose proof (ntoh_hton 4 pre post (blen body)) as Hn.
    rewrite Hpre in Hn. unfold hton in Hn. cbn [Nat.add] in Hn. rewrite Hn. f_equal.
    apply Z.mod_small. cbn. lia.
  - unfold buf, encode. rewrite !length_app. unfold hton. rewrite length_be_bytes. cbn. lia.
Qed.

(** What a client asks for under a name. *)
Inductive ask := ask_get | ask_acquire (r m : Z) | ask_release (r : Z).

Definition ask_wf (a : ask) : Prop :=
  match a with
  | ask_get => True
  | ask_acquire r m => 0 < r <= m /\ m < 2 ^ 32
  | ask_release r => 0 <= r < 2 ^ 32
  end.
Definition ask_command (a : ask) : command :=
  match a with ask_get => Get | ask_acquire _ _ => Acquire | ask_release _ => Release end.
Definition ask_numbers (a : ask) : list Z :=
  match a with ask_get => [] | ask_acquire r m => [r; m] | ask_release r => [r] end.

Lemma read_at buf p n z :
  has_at buf p (hton n z) -> 0 <= z < 2 ^ (8 * Z.of_nat n) -> ntoh n buf p = Some z.
Proof.
  intros (pre&post&->&<-) Hz. rewrite ntoh_hton. f_equal. by apply Z.mod_small.
Qed.

Lemma parse_name_at buf n name bl q :
  (2 <= n)%nat -> has_at buf (12 + n - 2) (hton 2 (blen name) ++ name) -> name <> [] ->
  blen name < 2 ^ 16 -> bl = Z.of_nat n + blen name ->
  parse_name buf n bl q = Some (set_name (12 + n, length name)%nat q, true).
Proof.
  intros Hn [Hl _]%at_app Hne Hlt ->. pose proof (blen_nonneg name). unfold parse_name, HEADER_SIZE.
  rewrite (read_at _ _ _ _ Hl) by (cbn; lia). cbn [mbind option_bind]. rewrite Z.gtb_ltb, Z.ltb_irrefl.
  destruct (Z.eqb_spec (blen name) 0) as [Hz|]; [destruct name; [done|unfold blen in Hz; cbn in Hz; lia]|].
  cbn [orb]. unfold blen. by rewrite Nat2Z.id.
Qed.

Lemma length_hton n z : length (hton n z) = n.
Proof. apply length_be_bytes. Qed.

(** The header of a request, before the [switch]. *)
Definition header_request (c : command) (fl : byte) (len : Z) : request :=
  {| q_length := 12 + Z.to_nat len; q_command := c; q_flags := Zb fl; q_body_length := len;
     q_opaque := Some 8%nat; q_resources := 0; q_maximum := 0; q_name := None;
     q_status := Invalid |}.

Lemma parse_encoded a fl opq body rest :
  length opq = 4%nat -> blen body < 2 ^ 32 ->
  let buf := encode (ask_command a) fl opq body ++ rest in
  parse buf = ('(q, ok) ← parse_body buf (blen body) (header_request (ask_command a) fl (blen body));
               if negb ok then Some q else Some (set_status (q_command q) OK q)).
Proof.
  intros Ho Hb buf.
  destruct (encode_fields (ask_command a) fl opq body rest Ho Hb) as (H0&H1&H2&H4&_&_&Hlen).
  fold buf in H0, H1, H2, H4, Hlen. unfold parse, HEADER_SIZE.
  destruct (Nat.ltb_spec (length buf) 12); [lia|]. rewrite H4. cbn [mbind option_bind].
  destruct (Z.ltb_spec (blen buf) (Z.of_nat 12 + blen body)); [unfold blen in *; lia|].
  unfold deref. rewrite H0, H1, H2. cbn [mbind option_bind]. rewrite bool_decide_true by done.
  by replace (command_of_byte (command_byte (ask_command a))) with (ask_command a) by (by destruct a).
Qed.

Definition ask_set (a : ask) (q : request) : request :=
  match a with
  | ask_get => q
  | ask_acquire r m => set_resources r m q
  | ask_release r => set_resources r (q_maximum q) q
  end.

Lemma blen_body_of a name :
  blen (body_of (ask_numbers a) name) = 4 * Z.of_nat (length (ask_numbers a)) + 2 + blen name.
Proof.
  unfold body_of, blen. rewrite !length_app, length_hton.
  destruct a; cbn [ask_numbers mbind list_bind]; rewrite ?length_app, ?length_hton; cbn; lia.
Qed.

Lemma parse_body_ask buf a name fl :
  let n := (4 * length (ask_numbers a) + 2)%nat in
  let bl := blen (body_of (ask_numbers a) name) in
  ask_wf a -> name <> [] -> blen name < 2 ^ 16 -> has_at buf 12 (body_of (ask_numbers a) name) ->
  parse_body buf bl (header_request (ask_command a) fl bl) =
    Some (set_name (12 + n, length name)%nat (ask_set a (header_request (ask_command a) fl bl)), true) /\
  has_at buf (12 + n) name.
Proof.
  intros n bl Ha Hne Hlt Hat. pose proof (blen_nonneg name).
  pose proof (blen_body_of a name : bl = _) as Hbl. clearbody bl. unfold body_of in Hat, n.
  unfold parse_body, HEADER_SIZE. cbv zeta. destruct a as [|r m|r]; cbn [ask_command header_request q_command ask_set ask_numbers
    length mbind list_bind app] in *; rewrite ?app_nil_r, <- ?app_assoc in Hat.
  - destruct (Z.ltb_spec bl 2); [lia|]. rewrite (parse_name_at buf 2 name) by (done || lia).
    split; [done|]. by apply at_app in Hat as [_ ?].
  - destruct Ha as [Hr Hm]. destruct (Z.ltb_spec bl 10); [lia|].
    apply at_app in Hat as [Hra Hat]. apply at_app in Hat as [Hma Hat]. rewrite !length_hton in *.
    cbn [Nat.add] in *.
    rewrite (read_at _ _ _ _ Hra) by (cbn; lia). cbn [mbind option_bind].
    destruct (Z.eqb_spec r 0); [lia|]. rewrite (read_at _ _ _ _ Hma) by (cbn; lia). cbn [mbind option_bind].
    destruct (Z.ltb_spec m r); [lia|]. rewrite (parse_name_at buf 10 name) by (done || lia).
    split; [done|]. by apply at_app in Hat as [_ ?].
  - destruct (Z.ltb_spec bl 6); [lia|].
    apply at_app in Hat as [Hra Hat]. rewrite !length_hton in *. cbn [Nat.add] in *.
    rewrite (read_at _ _ _ _ Hra) by (cbn in *; lia). cbn [mbind option_bind].
    rewrite (parse_name_at buf 6 name) by (done || lia).
    split; [done|]. by apply at_app in Hat as [_ ?].
Qed.

(** Counter requests are understood.  A [Get], [Acquire] or [Release]
    request in the wire format is parsed with status [OK], consuming exactly its
    bytes whatever follows; name, numbers and opaque bytes are those sent. *)
Theorem counter_request_understood a fl opq name rest :
  ask_wf a -> length opq = 4%nat -> name <> [] -> blen name < 2 ^ 16 ->
  let msg := encode (ask_command a) fl opq (body_of (ask_numbers a) name) in
  let buf := msg ++ rest in
  exists q, parse buf = Some q /\ q_status q = OK /\ q_command q = ask_command a /\
    q_length q = length msg /\ name_bytes buf q = name /\ opaque_bytes buf q = opq /\
    match a with
    | ask_get => True
    | ask_acquire r m => q_resources q = r /\ q_maximum q = m
    | ask_release r => q_resources q = r
    end.
Proof.
  intros Ha Ho Hne Hlt msg buf. pose proof (blen_body_of a name) as Hbl.
  assert (length (ask_numbers a) <= 2)%nat by (destruct a; cbn; lia).
  destruct (encode_fields (ask_command a) fl opq (body_of (ask_numbers a) name) rest Ho)
    as (_&_&_&_&H8&H12&Hlen); [lia|]. fold msg buf in H8, H12, Hlen.
  destruct (parse_body_ask buf a name fl Ha Hne Hlt H12) as [Hp Hname].
  unfold buf, msg. rewrite parse_encoded by (done || lia). fold msg buf. rewrite Hp.
  eexists. split; [reflexivity|]. cbn [set_status set_name q_status q_command q_length q_opaque].
  unfold name_bytes, opaque_bytes. cbn [set_status set_name q_name q_opaque].
  destruct (at_drop _ _ _ Hname) as [post ->]. rewrite take_app_length.
  assert (q_opaque (ask_set a (header_request (ask_command a) fl (blen (body_of (ask_numbers a) name)))) = Some 8%nat)
    as -> by (by destruct a).
  destruct (at_drop _ _ _ H8) as [post' ->].
  assert (length msg = 12 + Z.to_nat (blen (body_of (ask_numbers a) name)))%nat as ->
    by (unfold buf in Hlen; rewrite length_app in Hlen; unfold blen; lia).
  assert (take 4 (opq ++ post') = opq) as -> by (by rewrite <- Ho, take_app_length).
  by destruct a.
Qed.

Lemma counter_request_understood_witness :
  let msg := encode Acquire x00 (replicate 4 x07) (body_of [3; 10] (lit "name")) in
  exists q, parse (msg ++ lit "x") = Some q /\ q_status q = OK /\ q_command q = Acquire /\
    q_length q = length msg /\ name_bytes (msg ++ lit "x") q = lit "name" /\
    opaque_bytes (msg ++ lit "x") q = replicate 4 x07 /\ q_resources q = 3 /\ q_maximum q = 10.
Proof.
  apply (counter_request_understood (ask_acquire 3 10) x00 (replicate 4 x07) (lit "name") (lit "x"));
    [cbn; lia|reflexivity|discriminate|reflexivity].
Defined.
