(* ===== verification/CounterSystem.v ===== *)
(** * The counter service as a state machine

    Connections acquire and release resources, go away, and the collector runs
    between them.  If every maximum a client gives is at most [limit], and twice
    [limit] fits in 32 bits, then in every reachable state the consumption of
    every object is the sum of what the connections hold, no object exceeds the
    limit, and none of the internal checks fails. *)

From S2P Require Import Prelude CLib Table Siphash HashMap HashMapSpec TextRoundtrip Counter.
From S2P Require Import CounterSpec.

Import counter.

(** ** What a connection holds *)

Abbreviation acquired := (list (kref * Z)).
Abbreviation omap := (gmap bytes (nat * object)).

(** The amount held for the object at an address. *)
Fixpoint held (a : nat) (l : acquired) : Z :=
  match l with
  | [] => 0
  | (k, v) :: l' => (if (kr_addr k =? a)%nat then v else 0) + held a l'
  end.

Definition live (m : omap) (k : kref) : Prop := exists o, m !! kr_data k = Some (kr_addr k, o).

(** The entries of [m_acquired_resources]: one per address, positive, and for
    objects that are in the table. *)
Definition acc_ok (m : omap) (l : acquired) : Prop :=
  NoDup ((fun p => kr_addr p.1) <$> l) /\ Forall (fun p => 0 < p.2 /\ live m p.1) l.

Definition kept_map (m m' : omap) : Prop := forall k, live m k -> live m' k.

Lemma held_perm a l l' : l ≡ₚ l' -> held a l = held a l'.
Proof. induction 1 as [|[]| [] [] |]; cbn; lia. Qed.

Lemma acc_ok_perm m l l' : l ≡ₚ l' -> acc_ok m l -> acc_ok m l'.
Proof. intros Hp [Hn Hf]. unfold acc_ok. by rewrite <- Hp. Qed.

Lemma acc_ok_mono m m' l : kept_map m m' -> acc_ok m l -> acc_ok m' l.
Proof.
  intros Hm [Hn Hf]. split; [done|]. eapply Forall_impl; [exact Hf|]. cbn. intros p [? ?]. auto.
Qed.

Lemma held_notin a l : a ∉ (fun p => kr_addr p.1) <$> l -> held a l = 0.
Proof.
  induction l as [|[k v] l IH]; cbn; [done|]. intros [Hne Hn]%not_elem_of_cons. rewrite IH by done.
  by destruct (Nat.eqb_spec (kr_addr k) a).
Qed.

Lemma held_nonneg m a l : acc_ok m l -> 0 <= held a l.
Proof.
  intros [_ Hf]. induction Hf as [|[k v] l [Hv _] _ IH]; cbn; [lia|]. cbn in Hv.
  destruct (kr_addr k =? a)%nat; lia.
Qed.

(** A positive amount is for an object in the table. *)
Lemma held_live m a l : acc_ok m l -> held a l <> 0 -> exists k, kr_addr k = a /\ live m k.
Proof.
  intros [_ Hf]. induction Hf as [|[k v] l [_ Hl] _ IH]; cbn; [done|]. intros Hh.
  destruct (Nat.eqb_spec (kr_addr k) a); [by exists k|]. by apply IH.
Qed.

(** The entry that [find] returns, and the list with it replaced. *)
Lemma find_acquired_Some a l i v :
  find_acquired a l = Some (i, v) ->
  exists k, kr_addr k = a /\ l ≡ₚ (k, v) :: delete i l /\
    forall v', alter (fun p => (p.1, v')) i l ≡ₚ (k, v') :: delete i l.
Proof.
  revert i v. induction l as [|[k w] l IH]; intros i v; cbn; [done|].
  destruct (Nat.eqb_spec (kr_addr k) a) as [Hk|_].
  - intros [= <- <-]. exists k. cbn. done.
  - intros ([j x]&Hf&[= <- <-])%bind_Some. destruct (IH j x Hf) as (k'&Hk'&Hp&Ha).
    exists k'. split; [done|]. cbn. split.
    + rewrite Hp at 1. apply perm_swap.
    + intros v'. rewrite (Ha v'). apply perm_swap.
Qed.

Lemma find_acquired_None a l : find_acquired a l = None -> a ∉ (fun p => kr_addr p.1) <$> l.
Proof.
  induction l as [|[k w] l IH]; cbn; [intros _; apply not_elem_of_nil|].
  destruct (Nat.eqb_spec (kr_addr k) a) as [|Hne]; [done|].
  destruct (find_acquired a l) as [[]|] eqn:E; [done|]. intros _.
  apply not_elem_of_cons. split; [done|by apply IH].
Qed.

(** Replacing an entry changes what is held for its address only. *)
Lemma held_cons a k v l : held a ((k, v) :: l) = (if (kr_addr k =? a)%nat then v else 0) + held a l.
Proof. done. Qed.

Lemma acc_ok_head m k v l : acc_ok m ((k, v) :: l) -> held (kr_addr k) l = 0 /\ 0 < v /\ acc_ok m l.
Proof.
  intros [Hn Hf]. cbn in Hn. apply NoDup_cons in Hn as [Hk Hn]. apply Forall_cons in Hf as [[Hv _] Hf].
  split; [by apply held_notin|]. by split; [|split].
Qed.

Lemma acc_ok_replace m k v v' l : 0 < v' -> acc_ok m ((k, v) :: l) -> acc_ok m ((k, v') :: l).
Proof.
  intros Hv [Hn Hf]. split; [done|]. apply Forall_cons in Hf as [[_ Hl] Hf]. by constructor.
Qed.

(** ** One connection *)

Section connection.
Context {H : Type} `{HT : Table H object} (cf : conf).
Context (limit : Z) (Hlimit : 2 * limit < 2 ^ 32).
(** What the other connections hold. *)
Context (rest : nat -> Z).

Record balanced (l : acquired) (hash : H) : Prop := {
  bal_inv : t_inv hash;
  bal_acc : acc_ok (t_map hash) l;
  bal_rest a : 0 <= rest a /\ (rest a <> 0 -> exists k, kr_addr k = a /\ live (t_map hash) k);
  bal_obj k a o : t_map hash !! k = Some (a, o) ->
    o_consumption o = held a l + rest a /\ o_consumption o <= limit
}.

(** After a command: still balanced, and no object has gone. *)
Definition kept (hash hash' : H) : Prop := kept_map (t_map hash) (t_map hash').
Definition post (hash hash' : H) (e' : env) : Prop :=
  balanced (e_acquired e') hash' /\ kept hash hash'.

Lemma post_refl hash e : balanced (e_acquired e) hash -> post hash hash e.
Proof. intros Hb. split; [done|]. intros k Hk. exact Hk. Qed.

Lemma post_map hash hash' l e' :
  balanced l hash -> t_inv hash' -> t_map hash' = t_map hash -> e_acquired e' = l ->
  post hash hash' e'.
Proof.
  intros [Hi Ha Hr Ho] Hi' Hm He. split; [rewrite He|unfold kept; rewrite Hm; by intros x].
  constructor; [done|by rewrite Hm| |].
  - intros a. rewrite Hm. apply Hr.
  - intros k a o. rewrite Hm. apply Ho.
Qed.

(** The amount that one connection holds of an object is part of its
    consumption. *)
Lemma balanced_le l hash k a o :
  balanced l hash -> t_map hash !! k = Some (a, o) -> 0 <= held a l <= o_consumption o.
Proof.
  intros [Hi Ha Hr Ho] Hk. destruct (Ho k a o Hk) as [-> _]. pose proof (held_nonneg _ a _ Ha).
  destruct (Hr a) as [? _]. lia.
Qed.

(** Replacing an object and the entry for it. *)
Lemma balanced_put l l' hash k a o o' :
  balanced l hash -> t_map hash !! k = Some (a, o) ->
  acc_ok (t_map hash) l' ->
  (forall b, b <> a -> held b l' = held b l) ->
  o_consumption o' = held a l' + rest a -> o_consumption o' <= limit ->
  balanced l' (t_put hash k o') /\ kept hash (t_put hash k o').
Proof.
  intros [Hi Ha Hr Ho] Hk Ha' Hh Hc Hl.
  assert (kept hash (t_put hash k o')) as Hkept.
  { intros x [ox Hx]. unfold live. rewrite (t_put_map hash k a o) by done.
    destruct (decide (kr_data x = k)) as [E|Hne].
    - rewrite E in *. rewrite Hk in Hx. injection Hx as -> _. exists o'. by rewrite lookup_insert_eq.
    - exists ox. by rewrite lookup_insert_ne. }
  split; [|done]. constructor.
  - by apply t_put_inv.
  - by eapply acc_ok_mono.
  - intros b. destruct (Hr b) as [Hb Hlive]. split; [done|]. intros (x&Hx&Hlx)%Hlive. exists x. auto.
  - intros k1 a1 o1. rewrite (t_put_map hash k a o) by done.
    destruct (decide (k1 = k)) as [-> |Hne].
    + rewrite lookup_insert_eq. by intros [= <- <-].
    + rewrite lookup_insert_ne by done. intros Hk1. destruct (Ho k1 a1 o1 Hk1) as [Hc1 Hl1].
      split; [|done]. rewrite Hh; [done|]. intros ->. apply Hne.
      by eapply (t_addr_inj hash); [done|exact Hk1|exact Hk].
Qed.

(** A new item has an address that nobody refers to. *)
Lemma balanced_fresh l hash :
  balanced l hash ->
  (forall x, live (t_map hash) x -> kr_addr x <> t_fresh hash) /\
  held (t_fresh hash) l = 0 /\ rest (t_fresh hash) = 0.
Proof.
  intros [Hi Ha Hrest Ho].
  assert (forall x, live (t_map hash) x -> kr_addr x <> t_fresh hash) as Hfresh.
  { intros x [ox Hx] E. pose proof (t_fresh_spec hash _ _ _ Hi Hx). lia. }
  split_and!; [done| |].
  - destruct (decide (held (t_fresh hash) l = 0)) as [|Hn]; [done|].
    destruct (held_live _ _ _ Ha Hn) as (x&Hx&Hlx). by destruct (Hfresh x Hlx).
  - destruct (decide (rest (t_fresh hash) = 0)) as [|Hn]; [done|].
    destruct (proj2 (Hrest _) Hn) as (x&Hx&Hlx). by destruct (Hfresh x Hlx).
Qed.

(** Creating an object together with the entry for it. *)
Lemma balanced_new l l' hash k o r :
  balanced l hash -> t_map hash !! k = None ->
  (forall b, held b l' = held b l + if (t_fresh hash =? b)%nat then r else 0) ->
  (forall m, kept_map (t_map hash) m -> live m {| kr_addr := t_fresh hash; kr_data := k |} ->
     acc_ok m l') ->
  o_consumption o = r -> r <= limit ->
  balanced l' (t_new hash k o) /\ kept hash (t_new hash k o).
Proof.
  intros Hb Hk Hh Hacc Hc Hl. pose proof Hb as [Hi Ha Hrest Ho].
  destruct (balanced_fresh _ _ Hb) as (Hfresh&Hz&Hzr).
  assert (kept hash (t_new hash k o)) as Hkept.
  { intros x [ox Hx]. exists ox. rewrite t_new_map by done. rewrite lookup_insert_ne; [done|]. congruence. }
  split; [|done]. constructor.
  - by apply t_new_inv.
  - apply Hacc; [done|]. exists o. rewrite t_new_map by done. by rewrite lookup_insert_eq.
  - intros b. destruct (Hrest b) as [? Hlive]. split; [done|]. intros (x&Hx&Hlx)%Hlive. exists x. auto.
  - intros k1 a1 o1. rewrite t_new_map, Hh by done.
    destruct (decide (k1 = k)) as [-> |Hne].
    + rewrite lookup_insert_eq. intros [= <- <-]. rewrite Nat.eqb_refl. lia.
    + rewrite lookup_insert_ne by done. intros Hk1. destruct (Ho _ _ _ Hk1). split; [|done].
      destruct (Nat.eqb_spec (t_fresh hash) a1) as [E|]; [|lia].
      by destruct (Hfresh {| kr_addr := a1; kr_data := k1 |}); [exists o1|].
Qed.

(** *** Acquire *)

Lemma on_acquire_ok l hash k (r : Z) e (Q : unit -> env -> Prop) :
  e_acquired e = l -> acc_ok (t_map hash) l -> 0 < r -> held (kr_addr k) l + r < 2 ^ 32 ->
  (forall e', let l' := e_acquired e' in
     (forall b, held b l' = held b l + if (kr_addr k =? b)%nat then r else 0) ->
     (forall m, kept_map (t_map hash) m -> live m k -> acc_ok m l') -> Q tt e') ->
  wp no_exn (on_acquire k r) Q e.
Proof.
  intros He Ha Hr Hsum HQ. unfold on_acquire. apply wp_bind, wp_gets. rewrite He.
  destruct (find_acquired (kr_addr k) l) as [[i v]|] eqn:Hf.
  - destruct (find_acquired_Some _ _ _ _ Hf) as (k'&Hk'&Hp&Hal).
    pose proof (acc_ok_perm _ _ _ Hp Ha) as Ha'. destruct (acc_ok_head _ _ _ _ Ha') as (Hz&Hv&_).
    assert (held (kr_addr k) l = v) as Hh.
    { rewrite (held_perm _ _ _ Hp), held_cons, <- Hk', Nat.eqb_refl, Hz. lia. }
    rewrite u32_small by lia.
    apply wp_modify, HQ.
    + intros b. cbn. rewrite He, (held_perm _ _ _ (Hal (v + r))), (held_perm _ _ _ Hp), !held_cons, Hk'.
      destruct (kr_addr k =? b)%nat; lia.
    + intros m Hm _. cbn. rewrite He. eapply acc_ok_perm; [symmetry; apply Hal|].
      eapply acc_ok_replace; [lia|]. by eapply acc_ok_mono.
  - apply find_acquired_None in Hf. apply wp_modify, HQ.
    + intros b. cbn. rewrite He, (held_perm b (l ++ [(k, r)]) ((k, r) :: l)), held_cons
        by (by rewrite Permutation_app_comm). lia.
    + intros m Hm Hlive. cbn. rewrite He. eapply acc_ok_perm; [by rewrite Permutation_app_comm|].
      apply (acc_ok_mono _ m) in Ha; [|done]. destruct Ha as [Hn Hfa]. split; [by apply NoDup_cons|]. by constructor.
Qed.

(** *** Replies change nothing *)

Lemma keeps_sendv iov f : keeps e_acquired (sendv iov f).
Proof. by apply keeps_modify. Qed.
Lemma keeps_send d f : keeps e_acquired (send d f).
Proof. by apply keeps_modify. Qed.
Lemma keeps_error cmd opq st : st <> OK -> keeps e_acquired (error cmd opq st).
Proof. intros Hs. destruct st; [done|apply keeps_sendv..]. Qed.
Lemma keeps_stats cmd opq : keeps e_acquired (stats cmd opq).
Proof. unfold stats. apply keeps_gets. intros s. apply keeps_sendv. Qed.

(** A reply, and then the table as it is. *)
Lemma wp_reply (m : M env unit) hash hash' e :
  keeps e_acquired m -> post hash hash' e -> wp no_exn (m ;;! ret hash') (post hash) e.
Proof.
  intros Hm [Hb Hk]. apply wp_bind. eapply wp_keeps; [exact Hm|]. intros e' He. apply wp_ret.
  split; [by rewrite He|done].
Qed.

Context (buf : bytes) (cmd : request).

Lemma post_put_same l hash k a o e' :
  balanced l hash -> t_map hash !! k = Some (a, o) -> e_acquired e' = l ->
  post hash (t_put hash k o) e'.
Proof.
  intros Hb Hk He. pose proof Hb as [Hi _ _ _]. eapply post_map; [exact Hb|by apply t_put_inv| |done].
  rewrite (t_put_map hash k a o) by done. by apply insert_id.
Qed.

Lemma cmd_get_ok hash e :
  balanced (e_acquired e) hash -> wp no_exn (cmd_get buf cmd hash) (post hash) e.
Proof.
  intros Hb. pose proof Hb as [Hi _ _ _]. unfold cmd_get. apply wp_bind.
  destruct (t_map hash !! name_bytes buf cmd) as [[a o]|] eqn:Hk.
  - eapply wp_apply_hit; [done..|]. apply wp_bind. eapply wp_keeps; [apply keeps_sendv|].
    intros e' He. apply wp_ret. cbn [fst snd]. apply wp_reply; [apply keeps_ret|].
    by eapply post_put_same.
  - apply wp_apply_none; [done..|]. apply wp_reply; [by apply keeps_when, keeps_error|].
    eapply post_map; [exact Hb|by apply t_skip_inv|apply t_skip_map|done].
Qed.

(** The request is an [Acquire] within the limit. *)
Hypothesis Hacq : q_status cmd = OK -> q_command cmd = Acquire ->
  0 < q_resources cmd <= q_maximum cmd /\ q_maximum cmd <= limit.

Lemma cmd_acquire_ok hash e :
  q_status cmd = OK -> q_command cmd = Acquire ->
  balanced (e_acquired e) hash -> wp no_exn (cmd_acquire cf buf cmd hash) (post hash) e.
Proof.
  intros Hs Hc Hb. destruct (Hacq Hs Hc) as [Hr Hm]. pose proof Hb as [Hi Ha Hrest Ho].
  unfold cmd_acquire. apply wp_bind.
  destruct (t_map hash !! name_bytes buf cmd) as [[a o]|] eqn:Hk.
  - eapply wp_apply_hit; [done..|]. unfold acquire_handler, acquire.
    destruct (Ho _ _ _ Hk) as [Hc1 Hl1]. pose proof (balanced_le _ _ _ _ _ Hb Hk) as Hle.
    rewrite u32_small, Z.gtb_ltb by lia.
    destruct (Z.ltb_spec (q_maximum cmd) (o_consumption o + q_resources cmd)); cbn [negb].
    + apply wp_bind. eapply wp_keeps; [by apply keeps_error|]. intros e' He. do 2 apply wp_ret.
      by eapply post_put_same.
    + apply wp_bind. eapply on_acquire_ok; [done|exact Ha|lia|cbn; lia|]. intros e' l' Hh Hacc.
      apply wp_bind. eapply wp_keeps; [apply keeps_sendv|]. intros e2 He2. do 2 apply wp_ret.
      unfold post. rewrite He2. eapply balanced_put; [exact Hb|exact Hk| | | |].
      * apply Hacc; [by intros x|]. by exists o.
      * intros b Hb'. rewrite Hh. cbn. destruct (Nat.eqb_spec a b); [congruence|lia].
      * rewrite Hh. cbn. rewrite Nat.eqb_refl. lia.
      * cbn. lia.
  - apply wp_apply_miss; [done..|]. unfold acquire_creator. apply wp_bind.
    destruct (balanced_fresh _ _ Hb) as (_&Hz&_).
    eapply on_acquire_ok; [done|exact Ha|lia|cbn; lia|]. intros e' l' Hh Hacc.
    apply wp_bind. eapply wp_keeps; [apply keeps_sendv|]. intros e2 He2.
    apply wp_bind, wp_modify. do 2 apply wp_ret. unfold post. cbn [e_acquired upd_stats].
    rewrite He2. eapply balanced_new; [exact Hb|done|exact Hh|exact Hacc|done|cbn; lia].
Qed.

(** *** Release *)

Hypothesis Hres : 0 <= q_resources cmd.

(** What [on_release] returns: refused and nothing changed, or the amount taken
    from the entry. *)
Lemma on_release_ok m l k r e (Q : bool -> env -> Prop) :
  e_acquired e = l -> acc_ok m l -> 0 <= r ->
  Q false e ->
  (forall e', let l' := e_acquired e' in
     r <= held (kr_addr k) l ->
     (forall b, held b l' = held b l - if (kr_addr k =? b)%nat then r else 0) ->
     acc_ok m l' -> Q true e') ->
  wp no_exn (on_release k r) Q e.
Proof using Type.
  intros He Ha Hr HF HQ. unfold on_release. apply wp_bind, wp_gets. rewrite He.
  destruct (find_acquired (kr_addr k) l) as [[i v]|] eqn:Hf; [|by apply wp_ret].
  destruct (find_acquired_Some _ _ _ _ Hf) as (k'&Hk'&Hp&Hal).
  pose proof (acc_ok_perm _ _ _ Hp Ha) as Ha'. destruct (acc_ok_head _ _ _ _ Ha') as (Hz&Hv&Hd).
  assert (held (kr_addr k) l = v) as Hh.
  { rewrite (held_perm _ _ _ Hp), held_cons, <- Hk', Nat.eqb_refl, Hz. lia. }
  destruct (Z.ltb_spec v r); [by apply wp_ret|].
  destruct (Z.eqb_spec v r) as [E|Hne]; apply wp_bind, wp_modify, wp_ret, HQ; cbn; rewrite ?He.
  - lia.
  - intros b. rewrite (held_perm b _ _ Hp), held_cons, Hk'. destruct (kr_addr k =? b)%nat; lia.
  - done.
  - lia.
  - intros b. rewrite (held_perm _ _ _ (Hal (v - r))), (held_perm _ _ _ Hp), !held_cons, Hk'.
    destruct (kr_addr k =? b)%nat; lia.
  - eapply acc_ok_perm; [symmetry; apply Hal|]. eapply acc_ok_replace; [|exact Ha']. lia.
Qed.

Lemma release_ok r o : r <= o_consumption o ->
  exists o', release cf r o = (true, o') /\ o_consumption o' = o_consumption o - r.
Proof using Type.
  intros Hr. unfold release. rewrite Z.gtb_ltb. destruct (Z.ltb_spec (o_consumption o) r); [lia|].
  by eexists.
Qed.

Lemma cmd_release_ok hash e :
  balanced (e_acquired e) hash -> wp no_exn (cmd_release cf buf cmd hash) (post hash) e.
Proof using Hres HT.
  intros Hb. pose proof Hb as [Hi Ha Hrest Ho]. unfold cmd_release. apply wp_bind.
  destruct (t_map hash !! name_bytes buf cmd) as [[a o]|] eqn:Hk.
  - eapply wp_apply_hit; [done..|]. unfold release_handler. apply wp_bind.
    destruct (Ho _ _ _ Hk) as [Hc1 Hl1]. pose proof (balanced_le _ _ _ _ _ Hb Hk) as Hle.
    eapply on_release_ok; [done|exact Ha|done| |].
    + cbn [negb]. apply wp_bind. eapply wp_keeps; [by apply keeps_error|]. intros e' He. apply wp_ret.
      apply wp_reply; [apply keeps_ret|]. by eapply post_put_same.
    + intros e' l' Hr Hh Hacc. cbn [negb kr_addr] in *.
      destruct (release_ok (q_resources cmd) o) as (o'& -> &Ho'); [lia|]. cbn [negb].
      apply wp_bind. eapply wp_keeps; [apply keeps_send|]. intros e2 He2. apply wp_ret.
      apply wp_reply; [apply keeps_ret|]. cbn [fst snd]. unfold post. rewrite He2.
      eapply balanced_put; [exact Hb|exact Hk|exact Hacc| | |].
      * intros b Hb'. rewrite Hh. destruct (Nat.eqb_spec a b); [congruence|lia].
      * rewrite Ho', Hh, Nat.eqb_refl. lia.
      * cbn. lia.
  - apply wp_apply_none; [done..|]. apply wp_reply; [by apply keeps_when, keeps_error|].
    eapply post_map; [exact Hb|by apply t_skip_inv|apply t_skip_map|done].
Qed.

Lemma cmd_dump_ok hash e :
  balanced (e_acquired e) hash -> wp no_exn (cmd_dump cf buf cmd hash) (post hash) e.
Proof using HT.
  intros Hb. unfold cmd_dump. apply wp_bind. unfold wp at 1. rewrite t_foreach_spec. apply wp_keeps with (view := e_acquired).
  - apply keeps_iterM. intros [k o]. apply keeps_sendv.
  - intros e' He. apply wp_reply; [apply keeps_send|]. apply post_refl. by rewrite He.
Qed.

(** [execute]: the books stay balanced and no check fails. *)
Lemma execute_ok hash e :
  balanced (e_acquired e) hash -> wp no_exn (execute cf buf cmd hash) (post hash) e.
Proof using Hlimit Hacq Hres HT.
  intros Hb. unfold execute. case_bool_decide as Hs; cbn [negb].
  2: { apply wp_reply; [by apply keeps_error|by apply post_refl]. }
  apply wp_bind, wp_modify.
  set (e1 := upd_stats _ e). assert (balanced (e_acquired e1) hash) as Hb1 by done. clearbody e1.
  case_eq (q_command cmd); intros; auto using cmd_get_ok, cmd_acquire_ok, cmd_release_ok, cmd_dump_ok.
  all: apply wp_reply; [|by apply post_refl].
  - apply keeps_send.
  - apply keeps_stats.
  - by apply keeps_error.
  - by apply keeps_error.
Qed.
End connection.

(** ** Releasing everything *)

Section release_all.
Context {H : Type} `{HT : Table H object} (cf : conf).
Context (limit : Z) (rest : nat -> Z).

Lemma release_one_ok k c l hash e :
  balanced limit rest ((k, c) :: l) hash ->
  wp no_exn (release_one cf k c hash)
    (fun hash' e' => e' = e /\ balanced limit rest l hash' /\ kept hash hash') e.
Proof.
  intros Hb. pose proof Hb as [Hi Ha Hrest Ho]. destruct (acc_ok_head _ _ _ _ Ha) as (Hz&Hc&Hl).
  assert (exists o, t_map hash !! kr_data k = Some (kr_addr k, o)) as [o Hk]
    by (destruct Ha as [_ Hf]; apply Forall_cons in Hf as [[_ Hlive] _]; exact Hlive).
  pose proof (balanced_le _ _ _ _ _ _ _ Hb Hk) as Hle. destruct (Ho _ _ _ Hk) as [Hc1 Hl1].
  cbn in Hle, Hc1. rewrite Nat.eqb_refl, Hz in *.
  destruct (release_ok cf c o) as (o'&Hr&Ho'); [lia|].
  unfold release_one, release_all_handler.
  apply wp_bind. eapply wp_apply_hit; [done|exact Hk|]. rewrite Hr. cbn [fst snd]. apply wp_ret. cbn [fst snd negb].
  apply wp_ret.
  edestruct (balanced_put limit rest ((k, c) :: l) l hash (kr_data k) (kr_addr k) o o' Hb Hk Hl)
    as [Hb' Hkept].
  - intros b Hne. cbn. destruct (Nat.eqb_spec (kr_addr k) b); [congruence|lia].
  - rewrite Ho', Hz. lia.
  - lia.
  - by split_and!.
Qed.

Lemma release_each_ok l hash e :
  balanced limit rest l hash ->
  wp no_exn (release_each cf l hash)
    (fun hash' e' => e' = e /\ balanced limit rest [] hash' /\ kept hash hash') e.
Proof.
  revert hash. induction l as [|[k c] l IH]; intros hash Hb; cbn [release_each].
  - apply wp_ret. split_and!; [done|done|by intros x].
  - apply wp_bind. eapply wp_mono; [by apply release_one_ok|]. intros hash1 e1 (->&Hb1&Hk1).
    eapply wp_mono; [by apply IH|]. intros hash' e' (->&Hb2&Hk2). split_and!; [done|done|].
    intros x Hx. by apply Hk2, Hk1.
Qed.

Lemma release_all_ok hash e :
  balanced limit rest (e_acquired e) hash ->
  wp no_exn (release_all cf hash)
    (fun hash' e' => e_acquired e' = [] /\ e_stats e' = e_stats e /\
       balanced limit rest [] hash' /\ kept hash hash') e.
Proof.
  intros Hb. unfold release_all. apply wp_bind, wp_gets, wp_bind.
  eapply wp_mono; [by apply release_each_ok|]. intros hash' e' (->&Hb'&Hk).
  apply wp_bind, wp_modify, wp_ret. done.
Qed.
End release_all.

(** ** All connections *)

(** What all connections together hold of an object. *)
Definition total (a : nat) (conns : gmap nat acquired) : Z :=
  map_fold (fun _ l acc => held a l + acc) 0 conns.

Lemma total_insert a id l conns :
  conns !! id = None -> total a (<[id := l]> conns) = held a l + total a conns.
Proof. intros Hid. unfold total. rewrite map_fold_insert_L; [done|lia|done]. Qed.

Lemma total_delete a id l conns :
  conns !! id = Some l -> total a conns = held a l + total a (delete id conns).
Proof.
  intros Hid. rewrite <- (insert_delete_id conns id l Hid) at 1. apply total_insert, lookup_delete_eq.
Qed.

Lemma total_update a id l l' conns :
  conns !! id = Some l -> total a (<[id := l']> conns) = held a l' + total a (delete id conns).
Proof.
  intros Hid. rewrite <- (insert_delete_eq conns id l'). apply total_insert, lookup_delete_eq.
Qed.

Definition conns_ok (m : omap) (conns : gmap nat acquired) : Prop :=
  forall id l, conns !! id = Some l -> acc_ok m l.

Lemma total_props m a conns :
  conns_ok m conns ->
  0 <= total a conns /\ (total a conns <> 0 -> exists k, kr_addr k = a /\ live m k).
Proof.
  induction conns as [|id l conns Hid IH] using map_ind; intros Hc; [done|].
  rewrite total_insert by done.
  destruct IH as [Hn Hlive].
  { intros id' l' Hl. apply (Hc id'). rewrite lookup_insert_ne; [done|congruence]. }
  assert (acc_ok m l) as Ha by (apply (Hc id); by rewrite lookup_insert_eq).
  pose proof (held_nonneg _ a _ Ha). split; [lia|]. intros Ht.
  destruct (decide (held a l = 0)) as [E|Hne]; [apply Hlive; lia|]. by eapply held_live.
Qed.

(** ** The service *)

Section system.
Context {H : Type} `{HT : Table H object}.
Context (limit : Z).

Record csys := { cy_hash : H; cy_stats : statistics; cy_conns : gmap nat acquired }.

Definition cenv (s : csys) (l : acquired) : env :=
  {| e_stats := cy_stats s; e_acquired := l; e_out := [] |}.

(** Accepting a connection, executing one request of a connection, the reset and
    the destruction of a connection, and a run of the collector.  The requests of
    different connections interleave; the clock moves freely. *)
Inductive cstep : csys -> csys -> Prop :=
| cs_accept s id cf st :
    cy_conns s !! id = None -> make_counter_socket cf (cy_stats s) = Some st ->
    cstep s {| cy_hash := cy_hash s; cy_stats := st; cy_conns := <[id := []]> (cy_conns s) |}
| cs_execute s id l cf buf cmd hash e :
    cy_conns s !! id = Some l -> parse buf = Some cmd -> q_maximum cmd <= limit ->
    execute cf buf cmd (cy_hash s) (cenv s l) = (inr hash, e) ->
    cstep s {| cy_hash := hash; cy_stats := e_stats e;
               cy_conns := <[id := e_acquired e]> (cy_conns s) |}
| cs_reset s id l cf hash e :
    cy_conns s !! id = Some l -> release_all cf (cy_hash s) (cenv s l) = (inr hash, e) ->
    cstep s {| cy_hash := hash; cy_stats := e_stats e;
               cy_conns := <[id := e_acquired e]> (cy_conns s) |}
| cs_destroy s id l cf hash e :
    cy_conns s !! id = Some l -> release_all cf (cy_hash s) (cenv s l) = (inr hash, e) ->
    cstep s {| cy_hash := hash; cy_stats := count_invalidate (e_stats e);
               cy_conns := delete id (cy_conns s) |}
| cs_gc s cf sizes us hash c :
    gc cf sizes (cy_hash s) gc_counters_init = (inr hash, c) ->
    cstep s {| cy_hash := hash; cy_stats := publish c us (cy_stats s); cy_conns := cy_conns s |}.

(** The books balance. *)
Record csys_ok (s : csys) : Prop := {
  ck_inv : t_inv (cy_hash s);
  ck_conns : conns_ok (t_map (cy_hash s)) (cy_conns s);
  ck_obj k a o : t_map (cy_hash s) !! k = Some (a, o) ->
    o_consumption o = total a (cy_conns s) /\ o_consumption o <= limit
}.

(** The view of one connection, and back. *)
Lemma csys_balanced s id l :
  csys_ok s -> cy_conns s !! id = Some l ->
  balanced limit (fun a => total a (delete id (cy_conns s))) l (cy_hash s).
Proof.
  intros [Hi Hc Ho] Hid. constructor; [done|by eapply Hc| |].
  - intros a. apply total_props. intros id' l' [Hne Hl']%lookup_delete_Some. by eapply Hc.
  - intros k a o Hk. destruct (Ho k a o Hk) as [-> ?]. split; [|done]. by apply total_delete.
Qed.

Lemma balanced_csys s id l l' hash st :
  csys_ok s -> cy_conns s !! id = Some l ->
  balanced limit (fun a => total a (delete id (cy_conns s))) l' hash -> kept (cy_hash s) hash ->
  csys_ok {| cy_hash := hash; cy_stats := st; cy_conns := <[id := l']> (cy_conns s) |}.
Proof.
  intros [_ Hc _] Hid [Hi Ha _ Ho] Hk. constructor; cbn; [done| |].
  - intros id1 l1. destruct (decide (id1 = id)) as [-> |Hne].
    + rewrite lookup_insert_eq. by intros [= <-].
    + rewrite lookup_insert_ne by done. intros Hl1. eapply acc_ok_mono; [exact Hk|]. by eapply Hc.
  - intros k a o Hko. rewrite (total_update _ _ _ _ _ Hid). by apply (Ho k a o).
Qed.

Lemma csys_delete s hash st id :
  csys_ok {| cy_hash := hash; cy_stats := st; cy_conns := <[id := []]> (cy_conns s) |} ->
  forall st', csys_ok {| cy_hash := hash; cy_stats := st'; cy_conns := delete id (cy_conns s) |}.
Proof.
  intros [Hi Hc Ho] st'. cbn in *. constructor; cbn; [done| |].
  - intros id1 l1 [Hne Hl]%lookup_delete_Some. apply (Hc id1). by rewrite lookup_insert_ne.
  - intros k a o Hk. destruct (Ho k a o Hk) as [-> Hl]. split; [|done].
    rewrite (total_delete a id [] (<[id := []]> (cy_conns s))) by apply lookup_insert_eq.
    by rewrite delete_insert_eq.
Qed.

(** The predicate of the collector, on a map from which deletable objects are missing. *)
Lemma gc_pred_keeps (cf : conf) (sizes : Z) (m m0 : omap) k a o (e0 : gc_counters) :
  m0 !! k = Some (a, o) ->
  (forall k, m0 !! k = m !! k \/
     (m0 !! k = None /\ exists a o, m !! k = Some (a, o) /\ deletable cf o = true)) ->
  wp no_exn (gc_pred cf sizes {| kr_addr := a; kr_data := k |} o) (fun p _ =>
    forall k', let m1 := if p.1 : bool then delete k m0 else <[k := (a, p.2)]> m0 in
      m1 !! k' = m !! k' \/
      (m1 !! k' = None /\ exists a o, m !! k' = Some (a, o) /\ deletable cf o = true)) e0.
Proof using Type.
  intros Hk HI. unfold gc_pred.
  assert (m !! k = Some (a, o)) as Hk0 by (destruct (HI k) as [E|[E _]]; congruence).
  destruct (deletable cf o) eqn:Hd.
  - apply wp_ret. intros k'. cbn. destruct (decide (k' = k)) as [-> |Hne].
    + right. rewrite lookup_delete_eq. split; [done|]. by exists a, o.
    + rewrite lookup_delete_ne by done. apply HI.
  - apply wp_bind, wp_modify, wp_ret. cbn. rewrite insert_id by done. exact HI.
Qed.

(** The collector removes objects that nobody holds. *)
Lemma counter_gc_ok cf sizes hash c :
  t_inv hash ->
  wp no_exn (gc cf sizes hash)
    (fun hash' _ => t_inv hash' /\ forall k, t_map hash' !! k = t_map hash !! k \/
       (t_map hash' !! k = None /\ exists a o, t_map hash !! k = Some (a, o) /\ deletable cf o = true)) c.
Proof.
  intros Hi. unfold gc.
  set (I := fun (_ : gset bytes) (m : omap) (_ : gc_counters) => forall k, m !! k = t_map hash !! k \/
       (m !! k = None /\ exists a o, t_map hash !! k = Some (a, o) /\ deletable cf o = true)).
  eapply wp_mono; [apply (t_gc_rule no_exn I); try done|by intros hash' c' [? ?]].
  - intros k. by left.
  - intros todo m0 k a o e0 _ Hk HI. by apply gc_pred_keeps.
Qed.

Lemma gc_csys s hash st (cf : conf) :
  csys_ok s -> t_inv hash ->
  (forall k, t_map hash !! k = t_map (cy_hash s) !! k \/
     (t_map hash !! k = None /\ exists a o, t_map (cy_hash s) !! k = Some (a, o) /\ deletable cf o = true)) ->
  csys_ok {| cy_hash := hash; cy_stats := st; cy_conns := cy_conns s |}.
Proof.
  intros [Hi Hc Ho] Hi' Hm. constructor; cbn; [done| |].
  - intros id l Hl. pose proof (Hc id l Hl) as Ha. destruct Ha as [Hn Hf]. split; [done|].
    rewrite Forall_forall in Hf |- *. intros [k v] Hkv. destruct (Hf _ Hkv) as [Hv [o Hk]]. cbn in *.
    split; [done|]. destruct (Hm (kr_data k)) as [E|(_&a&o'&Hk'&Hd)].
    + exists o. by rewrite E.
    + exfalso. rewrite Hk in Hk'. injection Hk' as <- <-.
      unfold deletable in Hd. apply andb_true_iff in Hd as [Hz%Z.eqb_eq _].
      destruct (Ho _ _ _ Hk) as [Ht _]. rewrite (total_delete _ _ _ _ Hl) in Ht.
      destruct (total_props (t_map (cy_hash s)) (kr_addr k) (delete id (cy_conns s))) as [Hr _].
      { intros id' l' [_ Hl']%lookup_delete_Some. by eapply Hc. }
      assert (0 < held (kr_addr k) l) as Hh; [|lia].
      apply elem_of_Permutation in Hkv as [l0 Hp]. rewrite (held_perm _ _ _ Hp), held_cons, Nat.eqb_refl.
      pose proof (held_nonneg (t_map (cy_hash s)) (kr_addr k) ((k, v) :: l0)) as Hge.
      pose proof (acc_ok_perm _ _ _ Hp (Hc id l Hl)) as Ha2. destruct (acc_ok_head _ _ _ _ Ha2) as (->&?&_). lia.
  - intros k a o Hk. destruct (Hm k) as [E|[E _]]; [|congruence]. apply (Ho k). congruence.
Qed.

Hypothesis Hlimit : 2 * limit < 2 ^ 32.

(** A parsed request within the limit. *)
Lemma parsed_within buf cmd :
  parse buf = Some cmd -> q_maximum cmd <= limit ->
  (q_status cmd = OK -> q_command cmd = Acquire ->
   0 < q_resources cmd <= q_maximum cmd /\ q_maximum cmd <= limit) /\ 0 <= q_resources cmd.
Proof using Type.
  intros Hp Hm. destruct (parse_swp buf) as [Hok _]. destruct (Hok _ Hp) as []. split; [|lia].
  intros Hs Hc. split; [by apply qk_acquire|done].
Qed.

Lemma cstep_ok s s' : csys_ok s -> cstep s s' -> csys_ok s'.
Proof using Hlimit HT.
  intros Hok Hst. destruct Hst as [s id cf st Hid Hmk|s id l cf buf cmd hash e Hid Hp Hm Hx
    |s id l cf hash e Hid Hx|s id l cf hash e Hid Hx|s cf sizes us hash c Hg].
  - destruct Hok as [Hi Hc Ho]. constructor; cbn; [done| |].
    + intros id1 l1. destruct (decide (id1 = id)) as [-> |Hne].
      * rewrite lookup_insert_eq. intros [= <-]. split; constructor.
      * rewrite lookup_insert_ne by done. apply Hc.
    + intros k a o Hk. rewrite total_insert by done. cbn. by apply (Ho k).
  - destruct (parsed_within buf cmd Hp Hm) as [Hacq Hres].
    pose proof (execute_ok cf limit Hlimit _ buf cmd Hacq Hres (cy_hash s) (cenv s l)
      (csys_balanced s id l Hok Hid)) as Hw.
    unfold wp in Hw. rewrite Hx in Hw. destruct Hw as [Hb Hk]. by eapply balanced_csys.
  - pose proof (release_all_ok cf limit _ (cy_hash s) (cenv s l) (csys_balanced s id l Hok Hid)) as Hw.
    unfold wp in Hw. rewrite Hx in Hw. destruct Hw as (->&_&Hb&Hk). by eapply balanced_csys.
  - pose proof (release_all_ok cf limit _ (cy_hash s) (cenv s l) (csys_balanced s id l Hok Hid)) as Hw.
    unfold wp in Hw. rewrite Hx in Hw. destruct Hw as (_&_&Hb&Hk).
    eapply (csys_delete _ _ (cy_stats s)). by eapply balanced_csys.
  - pose proof (counter_gc_ok cf sizes (cy_hash s) gc_counters_init (ck_inv s Hok)) as Hw.
    unfold wp in Hw. rewrite Hg in Hw. destruct Hw as [Hi Hm]. by eapply gc_csys.
Qed.

(** The requests in a buffer have maxima within the limit. *)
Fixpoint within (fuel : nat) (head : bytes) : Prop :=
  match fuel with
  | O => True
  | S f =>
      match parse head with
      | Some cmd => q_maximum cmd <= limit /\ within f (drop (q_length cmd) head)
      | None => True
      end
  end.

Lemma process_balanced cf rest f head hash e :
  (length head < f)%nat -> within f head -> balanced limit rest (e_acquired e) hash ->
  wp no_exn (process cf f head hash) (fun p e' => post limit rest hash p.2 e') e.
Proof using Hlimit HT.
  revert head hash e. induction f as [|f IH]; intros head hash e Hf Hwi Hb; [lia|].
  cbn [process within] in *. destruct head as [|b head]; [by apply wp_ret, post_refl|].
  destruct (parse_swp (b :: head)) as [Hok Hs]. destruct (Hs I) as [cmd Hp].
  pose proof (qk_len _ _ (Hok cmd Hp)) as Hl. rewrite Hp in Hwi |- *. apply wp_bind, wp_ret.
  destruct (Nat.eqb_spec (q_length cmd) 0); [by apply wp_ret, post_refl|].
  destruct Hwi as [Hm Hwi]. destruct (parsed_within _ _ Hp Hm) as [Hacq Hres].
  apply wp_bind. eapply wp_mono; [by apply (execute_ok cf limit Hlimit rest)|]. intros hash' e' [Hb' Hk].
  eapply wp_mono; [apply IH; [rewrite length_drop; cbn in *; lia|exact Hwi|exact Hb']|].
  intros p e2 [Hb2 Hk2]. split; [done|]. intros x Hx. by apply Hk2, Hk.
Qed.

(** An empty table and no connection. *)
Definition cinitial (s : csys) : Prop :=
  t_inv (cy_hash s) /\ t_map (cy_hash s) = ∅ /\ cy_conns s = ∅.

Lemma creachable_ok s0 s : cinitial s0 -> rtc cstep s0 s -> csys_ok s.
Proof using Hlimit HT.
  intros (Hi&Hm&Hc) Hr. assert (csys_ok s0) as Hok.
  { constructor; [done|by intros id l; rewrite Hc|]. intros k a o. by rewrite Hm. }
  clear Hi Hm Hc. induction Hr as [|x y z Hst _ IH]; [done|]. by apply IH, (cstep_ok x).
Qed.

(** ** Theorems *)

Context (s0 s : csys).
Hypothesis (Hini : cinitial s0) (Hreach : rtc cstep s0 s).

(** The books balance.  In every state reachable with maxima up to the
    limit, the consumption of every object is the sum of what the connections
    hold of it, and at most the limit; and everything a connection holds is
    positive and belongs to an object that is still in the table, so that no
    pointer to a key dangles. *)
Theorem counter_balanced :
  (forall k a o, t_map (cy_hash s) !! k = Some (a, o) ->
     o_consumption o = total a (cy_conns s) /\ o_consumption o <= limit) /\
  (forall id l k v, cy_conns s !! id = Some l -> (k, v) ∈ l ->
     0 < v /\ exists o, t_map (cy_hash s) !! kr_data k = Some (kr_addr k, o)).
Proof using Hlimit HT Hini Hreach.
  destruct (creachable_ok s0 s Hini Hreach) as [_ Hc Ho]. split; [exact Ho|].
  intros id l k v Hl Hkv. destruct (Hc id l Hl) as [_ Hf]. rewrite Forall_forall in Hf.
  by apply (Hf (k, v)).
Qed.

(** Requests never fail internally.  In every reachable state, the requests
    that a connection has sent are all executed: the loop over them terminates
    without an exception (the parser stays in the buffer and the checks after
    [on_release] never fire) if their maxima are within the limit, and every
    object counts what this and the other connections then hold. *)
Theorem counter_requests_safe id l cf head :
  cy_conns s !! id = Some l -> within (S (length head)) head ->
  exists rest hash e, process cf (S (length head)) head (cy_hash s) (cenv s l) = (inr (rest, hash), e) /\
    forall k a o, t_map hash !! k = Some (a, o) ->
      o_consumption o = held a (e_acquired e) + total a (delete id (cy_conns s)) /\
      o_consumption o <= limit.
Proof using Hlimit HT Hini Hreach.
  intros Hid Hwi. pose proof (process_balanced cf _ (S (length head)) head (cy_hash s) (cenv s l)
    ltac:(lia) Hwi (csys_balanced s id l (creachable_ok s0 s Hini Hreach) Hid)) as Hw.
  unfold wp in Hw. destruct (process _ _ _ _ _) as [[x|[rest hash]] e]; [done|].
  destruct Hw as [[_ _ _ Ho] _]. by exists rest, hash, e.
Qed.

(** A connection that goes away gives everything back.  In every reachable
    state [release_all], which the reset and the destructor of a connection run,
    completes without an exception, forgets everything the connection held, and
    leaves in every object exactly what the other connections hold. *)
Theorem counter_release_all id l cf :
  cy_conns s !! id = Some l ->
  exists hash e, release_all cf (cy_hash s) (cenv s l) = (inr hash, e) /\ e_acquired e = [] /\
    (forall k a o, t_map hash !! k = Some (a, o) ->
       o_consumption o = total a (delete id (cy_conns s))).
Proof using Hlimit HT Hini Hreach.
  intros Hid. pose proof (release_all_ok cf limit _ (cy_hash s) (cenv s l)
    (csys_balanced s id l (creachable_ok s0 s Hini Hreach) Hid)) as Hw.
  unfold wp in Hw. destruct (release_all _ _ _) as [[x|hash] e]; [done|].
  destruct Hw as (He&_&[_ _ _ Ho]&_). exists hash, e. split_and!; try done.
  intros k a o Hk. by destruct (Ho k a o Hk) as [-> _].
Qed.
End system.

(** ** 32-bit sums *)

(** A full counter can be overrun.  [object::acquire] adds in 32 bits before
    it compares: when the sum wraps around, the request is granted although the
    object is above the maximum given, and the object then counts less than is
    held, so that an owner's release is refused. *)
Theorem acquire_wraps cf o resources maximum :
  0 <= o_consumption o < 2 ^ 32 -> 0 < resources <= maximum -> maximum < 2 ^ 32 ->
  o_consumption o + resources >= 2 ^ 32 ->
  exists o', acquire cf resources maximum o = (true, o') /\
    o_consumption o' = o_consumption o + resources - 2 ^ 32 /\
    (release cf (o_consumption o) o').1 = false.
Proof.
  intros Hc Hr Hm Ho. unfold acquire.
  assert (u32 (o_consumption o + resources) = o_consumption o + resources - 2 ^ 32) as ->.
  { unfold u32. symmetry. apply (Z.mod_unique_pos _ _ 1); lia. }
  rewrite Z.gtb_ltb.
  destruct (Z.ltb_spec maximum (o_consumption o + resources - 2 ^ 32)); [lia|].
  eexists. split; [reflexivity|]. split; [done|]. unfold release. cbn. rewrite Z.gtb_ltb.
  by destruct (Z.ltb_spec (o_consumption o + resources - 2 ^ 32) (o_consumption o)); [|lia].
Qed.

(** ** A run of the service *)

Definition sample_cf : conf := {| c_now := 100; c_stat_interval := 60; c_max_connections := 0 |}.
Definition sample_cobject : object :=
  {| o_consumption := 2 ^ 32 - 1; o_max_consumption := 2 ^ 32 - 1; o_last_updated := 100 |}.

Lemma acquire_wraps_witness :
  exists o', acquire sample_cf 1 1 sample_cobject = (true, o') /\
    o_consumption o' = o_consumption sample_cobject + 1 - 2 ^ 32 /\
    (release sample_cf (o_consumption sample_cobject) o').1 = false.
Proof. apply (acquire_wraps sample_cf sample_cobject 1 1); cbn; lia. Defined.

Abbreviation ctable := (hash_map object).
Definition counter_key : sip_key := siphash24_seed (replicate 16 x01).
#[export] Instance counter_ops : TableOps ctable object := hash_map_ops counter_key object.
#[export] Instance counter_laws : Table ctable object := hash_map_table counter_key object.

Definition sample_cstart : csys (H := ctable) :=
  {| cy_hash := hash_map_ctor object 3; cy_stats := stats_reset; cy_conns := ∅ |}.
Definition sample_accepted (id : nat) (s : csys (H := ctable)) : csys (H := ctable) :=
  {| cy_hash := cy_hash s;
     cy_stats := default (cy_stats s) (make_counter_socket sample_cf (cy_stats s));
     cy_conns := <[id := []]> (cy_conns s) |}.

(** [Acquire] and [Release] requests on the wire. *)
Definition sample_acquire (r m : Z) : bytes :=
  encode Acquire x00 (replicate 4 x00) (body_of [r; m] (lit "n")).
Definition sample_release (r : Z) : bytes :=
  encode Release x00 (replicate 4 x00) (body_of [r] (lit "n")).

Definition sample_exec (id : nat) (buf : bytes) (s : csys (H := ctable)) : option (csys (H := ctable)) :=
  l ← cy_conns s !! id;
  cmd ← parse buf;
  if q_maximum cmd <=? 10 then
    match execute sample_cf buf cmd (cy_hash s) (cenv s l) with
    | (inr hash, e) => Some {| cy_hash := hash; cy_stats := e_stats e;
                               cy_conns := <[id := e_acquired e]> (cy_conns s) |}
    | _ => None
    end
  else None.

Lemma sample_exec_step id buf s s' : sample_exec id buf s = Some s' -> cstep 10 s s'.
Proof.
  unfold sample_exec. destruct (cy_conns s !! id) as [l|] eqn:Hl; [|done]. cbn [mbind option_bind].
  destruct (parse buf) as [cmd|] eqn:Hp; [|done]. cbn [mbind option_bind].
  destruct (Z.leb_spec (q_maximum cmd) 10); [|done].
  destruct (execute _ _ _ _ _) as [[x|hash] e] eqn:Hx; [done|]. intros [= <-].
  by eapply cs_execute.
Qed.

(** Two connections acquire three and four of ten. *)
Definition sample_two : csys (H := ctable) := sample_accepted 2 (sample_accepted 1 sample_cstart).
Definition sample_first : csys (H := ctable) :=
  default sample_two (sample_exec 1 (sample_acquire 3 10) sample_two).
Definition sample_cstate : csys (H := ctable) :=
  default sample_first (sample_exec 2 (sample_acquire 4 10) sample_first).

Lemma sample_cinitial : cinitial sample_cstart.
Proof. split_and!; [by apply ctor_inv|apply ctor_map|done]. Qed.

Lemma sample_creachable : rtc (cstep 10) sample_cstart sample_cstate.
Proof.
  eapply rtc_l; [by apply (cs_accept 10 sample_cstart 1 sample_cf)|].
  eapply rtc_l; [by apply (cs_accept 10 (sample_accepted 1 sample_cstart) 2 sample_cf)|].
  eapply rtc_l; [apply (sample_exec_step 1 (sample_acquire 3 10) sample_two sample_first); vm_compute; reflexivity|].
  apply rtc_once, (sample_exec_step 2 (sample_acquire 4 10)). vm_compute. reflexivity.
Qed.

Definition sample_ref : kref := {| kr_addr := 0; kr_data := lit "n" |}.

Lemma counter_balanced_witness :
  (forall k a o, t_map (cy_hash sample_cstate) !! k = Some (a, o) ->
     o_consumption o = total a (cy_conns sample_cstate) /\ o_consumption o <= 10) /\
  (forall id l k v, cy_conns sample_cstate !! id = Some l -> (k, v) ∈ l ->
     0 < v /\ exists o, t_map (cy_hash sample_cstate) !! kr_data k = Some (kr_addr k, o)).
Proof.
  apply (counter_balanced 10 ltac:(lia) sample_cstart sample_cstate sample_cinitial sample_creachable).
Defined.

Lemma counter_requests_safe_witness :
  exists rest hash e,
    process sample_cf (S (length (sample_release 1 ++ sample_release 9)))
      (sample_release 1 ++ sample_release 9) (cy_hash sample_cstate)
      (cenv sample_cstate [(sample_ref, 3)]) = (inr (rest, hash), e) /\
    forall k a o, t_map hash !! k = Some (a, o) ->
      o_consumption o = held a (e_acquired e) + total a (delete 1%nat (cy_conns sample_cstate)) /\
      o_consumption o <= 10.
Proof.
  apply (counter_requests_safe 10 ltac:(lia) sample_cstart sample_cstate sample_cinitial sample_creachable 1).
  - vm_compute. reflexivity.
  - vm_compute. repeat split; discriminate.
Defined.

Lemma counter_release_all_witness :
  exists hash e, release_all sample_cf (cy_hash sample_cstate) (cenv sample_cstate [(sample_ref, 3)]) =
      (inr hash, e) /\ e_acquired e = [] /\
    (forall k a o, t_map hash !! k = Some (a, o) ->
       o_consumption o = total a (delete 1%nat (cy_conns sample_cstate))).
Proof.
  apply (counter_release_all 10 ltac:(lia) sample_cstart sample_cstate sample_cinitial sample_creachable 1).
  vm_compute. reflexivity.
Defined.
