(* ===== verification/CounterWork.v ===== *)
(** * The receive job of a counter connection, one table operation at a time

    As MemWork does for the memcache protocol: between two accesses to the table other threads
    may run.  All requests but [Dump] are one step; [Dump] takes one step per bucket and the
    release of everything one step per object. *)

From S2P Require Import Prelude CLib Table Siphash HashMap HashMapSpec BucketVisit Machine Counter.

Import counter.

Section work.
Context (sk : sip_key).
#[local] Instance cwork_ops : TableOps (hash_map object) object := hash_map_ops sk object.
Abbreviation table := (hash_map object).

(** What is left of a job; [fin] is what is done after a loop over the table. *)
Inductive cwork :=
| k_recv (rs : list received) (buf : bytes)      (** before [receive] *)
| k_proc (rs : list received) (head : bytes)     (** before the next request *)
| k_dump (v : visitor env object) (i : nat) (fin : M env unit) (next : cwork)
| k_release (l : list (kref * Z)) (fin : M env unit) (next : cwork)
| k_done (pending : bytes).

Section step.
Context (cf : conf).

(** [release_all] begins: it goes over the map as it is now. *)
Definition start_release (fin : M env unit) (next : cwork) (hash : table) : M env (cwork * table) :=
  let! l := gets e_acquired in ret (k_release l fin next, hash).

(** [execute] up to and including its first operation on the table. *)
Definition start_execute (buf : bytes) (cmd : request) (next : cwork) (hash : table)
    : M env (cwork * table) :=
  let whole := let! hash := execute cf buf cmd hash in ret (next, hash) in
  if negb (bool_decide (q_status cmd = OK)) then whole else
  match q_command cmd with
  | Dump =>
      count_op (q_command cmd) ;;!
      ret (k_dump (dump_pred cf buf cmd) 0 (success cmd (opaque_bytes buf cmd)) next, hash)
  | _ => whole
  end.

(** The end of the inner loop of the job, with [head] left over. *)
Definition counter_end_of_data (rs : list received) (head : bytes) (hash : table)
    : M env (cwork * table) :=
  if blen head >? max_request_length
  then start_release invalidate_and_close (k_done []) hash
  else ret (k_recv rs head, hash).

(** One iteration of the inner loop. *)
Definition counter_proc_step (rs : list received) (head : bytes) (hash : table)
    : M env (cwork * table) :=
  match head with
  | [] => counter_end_of_data rs [] hash
  | _ :: _ =>
      let! parser := checked (parse head) in
      let c := q_length parser in
      if (c =? 0)%nat then counter_end_of_data rs head hash
      else start_execute head parser (k_proc rs (drop c head)) hash
  end.

(** One step of the job. *)
Definition cwork_step (w : cwork) (hash : table) : M env (cwork * table) :=
  match w with
  | k_recv [] buf | k_recv (recv_again :: _) buf => ret (k_done buf, hash)
  | k_recv (recv_reset :: _) buf => start_release (ret tt) (k_done []) hash
  | k_recv (recv_ok d :: rs) buf => ret (k_proc rs (buf ++ d), hash)
  | k_proc rs head => counter_proc_step rs head hash
  | k_dump v i fin next =>
      match m_buckets hash !! i with
      | Some b => bucket_foreach b v ;;! ret (k_dump v (S i) fin next, hash)
      | None => fin ;;! ret (next, hash)
      end
  | k_release ((k, count) :: l) fin next =>
      let! hash := release_one cf k count hash in ret (k_release l fin next, hash)
  | k_release [] fin next =>
      modify (upd_acquired (fun _ => [])) ;;! fin ;;! ret (next, hash)
  | k_done p => ret (k_done p, hash)
  end.

(** ** The machine left alone *)

Definition counter_finished (w : cwork) : option bytes :=
  match w with k_done p => Some p | _ => None end.

Abbreviation job_runs := (runs cwork_step counter_finished).
Abbreviation continues := (continues cwork_step counter_finished).
Abbreviation goes_on := (goes_on cwork_step counter_finished).

Lemma cruns_dump v i fin next hash e res :
  after_run (iterM (fun b => bucket_foreach b v) (drop i (m_buckets hash)) ;;! fin ;;! ret hash)
    (continues next res) e res ->
  job_runs (k_dump v i fin next) hash e res.
Proof.
  remember (drop i (m_buckets hash)) as bs eqn:Hbs. revert i e Hbs.
  induction bs as [|b bs IH]; intros i e Hbs Hr; apply runs_first; cbn [cwork_step].
  - assert (m_buckets hash !! i = None) as ->; [|by apply after_fin].
    apply lookup_ge_None. apply (f_equal length) in Hbs. rewrite length_drop in Hbs. cbn in Hbs. lia.
  - destruct (cons_drop _ _ _ _ Hbs) as [-> Hbs'].
    cbn [iterM] in Hr. rewrite !after_bind in *. unfold after_run at 1 in Hr. unfold after_run at 1.
    destruct (bucket_foreach b v e) as [[x|[]] e']; [done|]. apply (IH (S i) e' Hbs').
    by rewrite after_bind.
Qed.

Lemma cruns_release l fin next hash e res :
  after_run (let! hash := release_each cf l hash in
              modify (upd_acquired (fun _ => [])) ;;! fin ;;! ret hash) (continues next res) e res ->
  job_runs (k_release l fin next) hash e res.
Proof.
  revert hash e. induction l as [|[k c] l IH]; intros hash e Hr; apply runs_first;
    cbn [cwork_step release_each] in *.
  { rewrite after_bind in *. by apply after_fin. }
  rewrite !after_bind in *. unfold after_run at 1 in Hr. unfold after_run at 1.
  destruct (release_one _ _ _ _ e) as [[x|h] e']; [done|].
  apply IH. by rewrite after_bind.
Qed.

Lemma cruns_release_all fin next hash e res :
  after_run (let! hash := release_all cf hash in fin ;;! ret hash) (continues next res) e res ->
  after_run (start_release fin next hash) (goes_on res) e res.
Proof.
  intros Hr. unfold start_release, release_all in *. rewrite !after_bind in *. cbn in *.
  unfold Machine.goes_on. cbn [fst snd]. apply cruns_release. rewrite !after_bind in *. unfold after_run at 1 in Hr. unfold after_run at 1.
  destruct (release_each cf (e_acquired e) hash e) as [[x|h] e']; exact Hr.
Qed.

Lemma start_execute_runs buf cmd next hash e res :
  after_run (execute cf buf cmd hash) (continues next res) e res ->
  after_run (start_execute buf cmd next hash) (goes_on res) e res.
Proof.
  intros Hr. unfold start_execute. cbv zeta.
  pose proof (after_next _ _ _ _ _ _ Hr) as Hwhole.
  case_bool_decide as Hst; cbn [negb]; [|exact Hwhole].
  destruct (q_command cmd) eqn:Hc; try exact Hwhole; clear Hwhole.
  unfold execute in Hr. rewrite (bool_decide_eq_true_2 _ Hst), Hc in Hr. cbn [negb] in Hr.
  rewrite after_bind in Hr. rewrite after_bind.
  unfold after_run at 1 in Hr. unfold after_run at 1.
  destruct (count_op _ e) as [[x|[]] e']; [done|]. apply cruns_dump. exact Hr.
Qed.

Lemma cruns_proc f rs head hash e res :
  (length head < f)%nat ->
  after_run (process cf f head hash)
    (fun p e' => after_run (counter_end_of_data rs p.1 p.2) (goes_on res) e' res) e res ->
  job_runs (k_proc rs head) hash e res.
Proof.
  revert head hash e. induction f as [|f IH]; intros head hash e Hf Hr; [lia|].
  apply runs_first. cbn [cwork_step process] in *. unfold counter_proc_step.
  destruct head as [|b head]; [exact Hr|].
  after_first Hr.
  destruct (checked _ e) as [[x|p] e']; [done|]. cbv zeta in *.
  destruct (Nat.eqb_spec (q_length p) 0); [exact Hr|]. apply start_execute_runs.
  apply (proj1 (after_bind _ _ _ _ _)) in Hr. unfold after_run at 1 in Hr. unfold after_run at 1.
  destruct (execute _ _ _ _ e') as [[x|h] e2]; [done|].
  apply IH; [rewrite length_drop; cbn in *; lia|exact Hr].
Qed.

(** The steps are the job: uninterrupted they end, and with what [recvjob] gives. *)
Theorem counter_job_steps rs buf hash e :
  job_runs (k_recv rs buf) hash e (recvjob cf rs buf hash e).
Proof.
  revert buf hash e. induction rs as [|[d| |] rs IH]; intros buf hash e; apply runs_first;
    cbn [cwork_step recvjob].
  - by apply runs_done.
  - refine (cruns_proc (S (length (buf ++ d))) rs (buf ++ d) hash e _ _ _); [lia|].
    generalize (process cf (S (length (buf ++ d))) (buf ++ d) hash). intros m.
    unfold after_run at 1, bind. destruct (m e) as [[x|[rest h]] e']; [done|].
    unfold counter_end_of_data. cbn [fst snd]. destruct (_ >? _).
    + apply cruns_release_all. rewrite !after_bind. unfold after_run at 1.
      destruct (release_all cf h e') as [[x|h2] e2]; [done|]. cbn. by apply runs_done.
    + apply IH.
  - by apply runs_done.
  - apply cruns_release_all. rewrite !after_bind. unfold after_run at 1, bind.
    destruct (release_all cf hash e) as [[x|h2] e2]; [done|]. cbn. by apply runs_done.
Qed.
End step.
End work.
