(* ===== verification/CounterConc.v ===== *)
(** * The counter service with all its threads

    CounterSystem takes a request, a release of everything and a collection as one step
    each.  Here a step is one critical section of the table: a step of CounterWork, one
    object that a destructor gives back, one bucket of a collection.  The books balance
    all the same, when what a release in progress has yet to give back is counted. *)

From S2P Require Import Prelude CLib Table Siphash HashMap HashMapSpec BucketVisit TextRoundtrip.
From S2P Require Import Counter CounterSpec CounterSystem CounterWork.

Import counter.

Section conc.
Context (sk : sip_key) (limit : Z).
#[local] Instance cconc_ops : TableOps (hash_map object) object := hash_map_ops sk object.
#[local] Instance cconc_laws : Table (hash_map object) object := hash_map_table sk object.
Abbreviation table := (hash_map object).

(** ** States *)

(** A connection between jobs, in a receive job, or in its destructor. *)
Inductive counter_activity :=
| at_rest (pending : bytes)
| in_job (w : cwork)
| in_dtor (l : list (kref * Z)).

Record counter_conn := { cc_acquired : list (kref * Z); cc_act : counter_activity }.

(** A collection in progress: the next bucket and the counters. *)
Record counter_gc := { cg_next : nat; cg_counters : gc_counters }.

Record ksys := {
  ks_hash : table;
  ks_stats : statistics;
  ks_conns : gmap nat counter_conn;
  ks_gc : option counter_gc
}.

Definition ks_env (s : ksys) (l : list (kref * Z)) : env :=
  {| e_stats := ks_stats s; e_acquired := l; e_out := [] |}.

Definition kconn_next (s : ksys) (id : nat) (hash : table) (e : env) (act : counter_activity) : ksys :=
  {| ks_hash := hash; ks_stats := e_stats e;
     ks_conns := <[id := {| cc_acquired := e_acquired e; cc_act := act |}]> (ks_conns s);
     ks_gc := ks_gc s |}.

Definition kgc_next (s : ksys) (hash : table) (st : statistics) (g : option counter_gc) : ksys :=
  {| ks_hash := hash; ks_stats := st; ks_conns := ks_conns s; ks_gc := g |}.

(** One bucket of a collection. *)
Definition counter_gc_visit (cf : conf) (sizes : Z) (g : counter_gc) (hash : table) : M gc_counters table :=
  map_gc_at (modify (set_in_bucket 0)) (gc_pred cf sizes) (ret tt) hash (cg_next g).

(** ** Steps *)

(** The connection whose job takes the step, if it is one. *)
Inductive kstep : option nat -> ksys -> ksys -> Prop :=
| k_accept s id cf st :
    ks_conns s !! id = None -> make_counter_socket cf (ks_stats s) = Some st ->
    kstep None s (kconn_next s id (ks_hash s) {| e_stats := st; e_acquired := []; e_out := [] |} (at_rest []))
| k_start s id l pending rs :
    ks_conns s !! id = Some {| cc_acquired := l; cc_act := at_rest pending |} ->
    kstep None s (kconn_next s id (ks_hash s) (ks_env s l) (in_job (k_recv rs pending)))
| k_work s id l cf w w' hash e :
    ks_conns s !! id = Some {| cc_acquired := l; cc_act := in_job w |} ->
    cwork_step sk cf w (ks_hash s) (ks_env s l) = (inr (w', hash), e) ->
    kstep (Some id) s (kconn_next s id hash e (in_job w'))
| k_finish s id l pending :
    ks_conns s !! id = Some {| cc_acquired := l; cc_act := in_job (k_done pending) |} ->
    kstep None s (kconn_next s id (ks_hash s) (ks_env s l) (at_rest pending))
| k_close s id l pending :
    ks_conns s !! id = Some {| cc_acquired := l; cc_act := at_rest pending |} ->
    kstep None s (kconn_next s id (ks_hash s)
               {| e_stats := count_invalidate (ks_stats s); e_acquired := l; e_out := [] |} (in_dtor l))
| k_return s id l cf k c rest hash e :
    ks_conns s !! id = Some {| cc_acquired := l; cc_act := in_dtor ((k, c) :: rest) |} ->
    release_one cf k c (ks_hash s) (ks_env s l) = (inr hash, e) ->
    kstep None s (kconn_next s id hash e (in_dtor rest))
| k_gone s id l :
    ks_conns s !! id = Some {| cc_acquired := l; cc_act := in_dtor [] |} ->
    kstep None s {| ks_hash := ks_hash s; ks_stats := ks_stats s; ks_conns := delete id (ks_conns s);
               ks_gc := ks_gc s |}
| k_gc_begin s :
    ks_gc s = None ->
    kstep None s (kgc_next s (ks_hash s) (ks_stats s)
               (Some {| cg_next := 0; cg_counters := gc_counters_init |}))
| k_gc_visit s g cf sizes hash c :
    ks_gc s = Some g -> (cg_next g < length (m_buckets (ks_hash s)))%nat ->
    counter_gc_visit cf sizes g (ks_hash s) (cg_counters g) = (inr hash, c) ->
    kstep None s (kgc_next s hash (ks_stats s) (Some {| cg_next := S (cg_next g); cg_counters := c |}))
| k_gc_end s g us :
    ks_gc s = Some g -> (length (m_buckets (ks_hash s)) <= cg_next g)%nat ->
    kstep None s (kgc_next s (ks_hash s) (publish (cg_counters g) us (ks_stats s)) None).

(** The request that the next step executes, if any, asks for a maximum within the limit. *)
Definition next_within (w : cwork) : Prop :=
  match w with
  | k_proc _ head => forall cmd, parse head = Some cmd -> q_maximum cmd <= limit
  | _ => True
  end.

(** Steps that only execute requests within the limit. *)
Definition kwithin (s s' : ksys) : Prop := exists j, kstep j s s' /\
  forall id l w, j = Some id -> ks_conns s !! id = Some {| cc_acquired := l; cc_act := in_job w |} -> next_within w.

Definition ks_initial (s : ksys) : Prop :=
  t_inv (ks_hash s) /\ t_map (ks_hash s) = ∅ /\ ks_conns s = ∅ /\ ks_gc s = None.

(** ** The invariant *)

(** What a connection still holds: during a release, what is yet to be given back. *)
Definition work_holds (w : cwork) (l : list (kref * Z)) : list (kref * Z) :=
  match w with k_release r _ _ => r | _ => l end.
Definition conn_holds (c : counter_conn) : list (kref * Z) :=
  match cc_act c with
  | at_rest _ => cc_acquired c
  | in_job w => work_holds w (cc_acquired c)
  | in_dtor l => l
  end.

(** The points of a job that are not inside a loop over the table. *)
Definition at_point (w : cwork) : Prop :=
  match w with k_recv _ _ | k_proc _ _ | k_done _ => True | _ => False end.
Definition cwork_ok (w : cwork) : Prop :=
  match w with
  | k_dump v _ fin next =>
      (forall k o, keeps e_acquired (v k o)) /\ keeps e_acquired fin /\ at_point next
  | k_release _ fin next => keeps e_acquired fin /\ at_point next
  | _ => True
  end.

(** The state as CounterSystem sees it. *)
Definition ks_abs (s : ksys) : csys (H := table) :=
  {| cy_hash := ks_hash s; cy_stats := ks_stats s; cy_conns := conn_holds <$> ks_conns s |}.

Definition ksys_ok (s : ksys) : Prop :=
  csys_ok limit (ks_abs s) /\
  forall id c w, ks_conns s !! id = Some c -> cc_act c = in_job w -> cwork_ok w.

Hypothesis Hlimit : 2 * limit < 2 ^ 32.

Section step.
Context (cf : conf) (rest : nat -> Z).

(** After a step: still balanced, with what is then held, and no object has gone. *)
Definition cstep_post (hash : table) (p : cwork * table) (e : env) : Prop :=
  cwork_ok p.1 /\ balanced limit rest (work_holds p.1 (e_acquired e)) p.2 /\ kept hash p.2.

Lemma at_point_post hash hash' next e :
  at_point next -> post limit rest hash hash' e -> cstep_post hash (next, hash') e.
Proof. intros Hn [Hb Hk]. unfold cstep_post. by destruct next. Qed.

Lemma start_release_ok fin next hash e :
  keeps e_acquired fin -> at_point next -> balanced limit rest (e_acquired e) hash ->
  wp no_exn (start_release fin next hash) (cstep_post hash) e.
Proof.
  intros Hf Hn Hb. unfold start_release. apply wp_bind, wp_gets, wp_ret.
  split_and!; [done|done|by intros x].
Qed.

Lemma end_of_counter_data_ok rs head hash e :
  balanced limit rest (e_acquired e) hash ->
  wp no_exn (counter_end_of_data rs head hash) (cstep_post hash) e.
Proof.
  intros Hb. unfold counter_end_of_data. destruct (_ >? _).
  - apply start_release_ok; [by apply keeps_modify|done|done].
  - by apply wp_ret, at_point_post, post_refl.
Qed.

Lemma counter_proc_step_ok rs head hash e :
  next_within (k_proc rs head) -> balanced limit rest (e_acquired e) hash ->
  wp no_exn (counter_proc_step sk cf rs head hash) (cstep_post hash) e.
Proof.
  intros Hm Hb. unfold counter_proc_step. destruct head as [|b head]; [by apply end_of_counter_data_ok|].
  destruct (parse_swp (b :: head)) as [Hok Hs]. destruct (Hs I) as [cmd Hp]. rewrite Hp.
  apply wp_bind, wp_ret. destruct (Nat.eqb_spec (q_length cmd) 0); [by apply end_of_counter_data_ok|].
  destruct (parsed_within limit _ _ Hp (Hm cmd Hp)) as [Hacq Hres].
  set (next := k_proc rs _).
  assert (wp no_exn (let! h := execute cf (b :: head) cmd hash in ret (next, h)) (cstep_post hash) e) as Hwhole.
  { apply wp_bind. eapply wp_mono; [by apply (execute_ok cf limit Hlimit rest)|].
    intros hash' e' Hpost. by apply wp_ret, at_point_post. }
  unfold start_execute. cbv zeta. destruct (negb _); [exact Hwhole|].
  destruct (q_command cmd); try exact Hwhole. apply wp_bind, wp_modify, wp_ret.
  split; [|split; [exact Hb|by intros x]]. cbn. split_and!; [|by apply keeps_send|done].
  intros k o. apply keeps_sendv.
Qed.

Lemma bucket_dump_ok (b : list (item object)) (v : visitor env object) e :
  (forall k o, keeps e_acquired (v k o)) ->
  wp no_exn (bucket_foreach b v) (fun _ e' => e_acquired e' = e_acquired e) e.
Proof.
  intros Hv. eapply wp_keeps with (view := e_acquired); [|done].
  unfold bucket_foreach. apply keeps_iterM. intros p. apply Hv.
Qed.

(** Every step of a job keeps the books balanced, and no check fails. *)
Lemma cwork_step_ok w hash e :
  next_within w -> cwork_ok w -> balanced limit rest (work_holds w (e_acquired e)) hash ->
  wp no_exn (cwork_step sk cf w hash) (cstep_post hash) e.
Proof.
  intros Hn Hw Hb. destruct w as [rs buf|rs head|v i fin next|l fin next|p]; cbn [work_holds cwork_ok] in *.
  - destruct rs as [|[d| |] rs]; cbn [cwork_step].
    1, 2, 3: by apply wp_ret, at_point_post, post_refl.
    apply start_release_ok; [by apply keeps_ret|done|done].
  - by apply counter_proc_step_ok.
  - destruct Hw as (Hv&Hf&Hp). cbn [cwork_step]. destruct (m_buckets hash !! i) as [b|].
    + apply wp_bind. eapply wp_mono; [by apply bucket_dump_ok|]. intros [] e' He. apply wp_ret.
      split_and!; [done| |by intros x]. cbn [fst snd work_holds]. by rewrite He.
    + apply wp_bind. eapply (wp_keeps _ e_acquired); [done|]. intros e' He.
      apply wp_ret, at_point_post; [done|]. apply post_refl. by rewrite He.
  - destruct Hw as (Hf&Hp). destruct l as [|[k c] l]; cbn [cwork_step].
    + apply wp_bind, wp_modify, wp_bind. eapply (wp_keeps _ e_acquired); [done|]. intros e' He.
      apply wp_ret, at_point_post; [done|]. apply post_refl. by rewrite He.
    + apply wp_bind. eapply wp_mono; [by apply (release_one_ok cf limit rest k c l)|].
      intros hash' e' (->&Hb'&Hk). apply wp_ret. by split_and!.
  - by apply wp_ret, at_point_post, post_refl.
Qed.
End step.

(** What a step of a connection does to the books of all. *)
Lemma kconn_next_ok s id c hash e act :
  ksys_ok s -> ks_conns s !! id = Some c ->
  let c' := {| cc_acquired := e_acquired e; cc_act := act |} in
  (forall w, act = in_job w -> cwork_ok w) ->
  balanced limit (fun a => total a (delete id (cy_conns (ks_abs s)))) (conn_holds c') hash ->
  kept (ks_hash s) hash -> ksys_ok (kconn_next s id hash e act).
Proof.
  intros [Hs Hw] Hl c' Ha Hb Hk. split.
  - unfold ks_abs, kconn_next. cbn [ks_hash ks_stats ks_conns]. rewrite fmap_insert. fold c'.
    apply (balanced_csys limit (ks_abs s) id (conn_holds c)); try done. cbn. by rewrite lookup_fmap, Hl.
  - intros id' d w Hd Hact. cbn in Hd. apply lookup_insert_Some in Hd as [[<- <-]|[_ Hd]]; [by apply Ha|].
    by eapply Hw.
Qed.

Lemma conn_balanced s id c :
  ksys_ok s -> ks_conns s !! id = Some c ->
  balanced limit (fun a => total a (delete id (cy_conns (ks_abs s)))) (conn_holds c) (ks_hash s).
Proof.
  intros [Hs _] Hl. apply (csys_balanced limit (ks_abs s) id (conn_holds c) Hs). cbn.
  by rewrite lookup_fmap, Hl.
Qed.

Lemma kept_refl (hash : table) : kept hash hash.
Proof. by intros k. Qed.

(** A step of a job, an iteration of a destructor and a visit of a bucket in a balanced state. *)
Lemma conn_job_ok s id l cf w :
  ksys_ok s -> ks_conns s !! id = Some {| cc_acquired := l; cc_act := in_job w |} -> next_within w ->
  wp no_exn (cwork_step sk cf w (ks_hash s))
    (cstep_post (fun a => total a (delete id (cy_conns (ks_abs s)))) (ks_hash s)) (ks_env s l).
Proof using Hlimit.
  intros Hs Hl Hn. pose proof (conn_balanced s id _ Hs Hl) as Hb. destruct Hs as [_ Hw].
  apply cwork_step_ok; [done|by eapply Hw|exact Hb].
Qed.

Lemma conn_return_ok s id l cf k c rest :
  ksys_ok s -> ks_conns s !! id = Some {| cc_acquired := l; cc_act := in_dtor ((k, c) :: rest) |} ->
  wp no_exn (release_one cf k c (ks_hash s)) (fun hash e =>
    e = ks_env s l /\ balanced limit (fun a => total a (delete id (cy_conns (ks_abs s)))) rest hash /\
    kept (ks_hash s) hash) (ks_env s l).
Proof. intros Hs Hl. apply release_one_ok. exact (conn_balanced s id _ Hs Hl). Qed.

Lemma counter_gc_visit_ok cf sizes g hash c :
  t_inv hash -> (cg_next g < length (m_buckets hash))%nat ->
  wp no_exn (counter_gc_visit cf sizes g hash) (fun hash' _ =>
    t_inv hash' /\ forall k, t_map hash' !! k = t_map hash !! k \/
      (t_map hash' !! k = None /\ exists a o, t_map hash !! k = Some (a, o) /\ deletable cf o = true)) c.
Proof.
  intros Hi Hn. unfold counter_gc_visit.
  set (I := fun (_ : gset bytes) (m : omap) (_ : gc_counters) => forall k, m !! k = t_map hash !! k \/
       (m !! k = None /\ exists a o, t_map hash !! k = Some (a, o) /\ deletable cf o = true)).
  eapply wp_mono; [apply (map_gc_at_rule sk no_exn I); try done|].
  - intros k. by left.
  - intros todo m0 k a o e0 _ Hk HI. by apply gc_pred_keeps.
  - intros hash' c' (Hi'&_&others&HI&_). by split.
Qed.

Lemma kgc_next_ok s hash st g cf :
  ksys_ok s -> t_inv hash ->
  (forall k, t_map hash !! k = t_map (ks_hash s) !! k \/
     (t_map hash !! k = None /\ exists a o, t_map (ks_hash s) !! k = Some (a, o) /\ deletable cf o = true)) ->
  ksys_ok (kgc_next s hash st g).
Proof.
  intros [Hs Hw] Hi Hm. split; [|exact Hw]. exact (gc_csys limit (ks_abs s) hash st cf Hs Hi Hm).
Qed.

Lemma kstep_ok s s' : ksys_ok s -> kwithin s s' -> ksys_ok s'.
Proof using Hlimit.
  intros Hs (j&Hst&Hwi). destruct Hst as [s id cf st Hl Hmk|s id l p rs Hl|s id l cf w w' hash e Hl Hx
    |s id l p Hl|s id l p Hl|s id l cf k c rest hash e Hl Hx|s id l Hl|s Hg|s g cf sizes hash c Hg Hn Hx|s g us Hg Hn].
  - destruct Hs as [Hs Hw]. split.
    + unfold ks_abs, kconn_next. cbn [ks_hash ks_stats ks_conns]. rewrite fmap_insert.
      apply (cstep_ok limit Hlimit (ks_abs s)); [done|]. eapply cs_accept; [|exact Hmk].
      cbn. by rewrite lookup_fmap, Hl.
    + intros id' d w Hd Hact. cbn in Hd. apply lookup_insert_Some in Hd as [[<- <-]|[_ Hd]]; [done|].
      by eapply Hw.
  - eapply kconn_next_ok; [done|exact Hl|by intros w [= <-]|exact (conn_balanced _ _ _ Hs Hl)|apply kept_refl].
  - pose proof (conn_job_ok s id l cf w Hs Hl (Hwi id l w eq_refl Hl)) as Hp. unfold wp in Hp. rewrite Hx in Hp.
    destruct Hp as (Hw&Hb&Hk). eapply kconn_next_ok; [done|exact Hl| |exact Hb|exact Hk]. by intros w2 [= <-].
  - eapply kconn_next_ok; [done|exact Hl|done|exact (conn_balanced _ _ _ Hs Hl)|apply kept_refl].
  - eapply kconn_next_ok; [done|exact Hl|done|exact (conn_balanced _ _ _ Hs Hl)|apply kept_refl].
  - pose proof (conn_return_ok s id l cf k c rest Hs Hl) as Hp. unfold wp in Hp. rewrite Hx in Hp.
    destruct Hp as (->&Hb&Hk). by eapply kconn_next_ok.
  - destruct Hs as [Hs Hw]. split.
    + unfold ks_abs. cbn [ks_hash ks_stats ks_conns]. rewrite fmap_delete.
      eapply (csys_delete limit (ks_abs s) _ (ks_stats s)). cbn. rewrite insert_id; [exact Hs|].
      by rewrite lookup_fmap, Hl.
    + intros id' d w Hd Hact. cbn in Hd. apply lookup_delete_Some in Hd as [_ Hd]. by eapply Hw.
  - eapply (kgc_next_ok _ _ _ _ sample_cf); [done|apply Hs|by left].
  - pose proof (counter_gc_visit_ok cf sizes g (ks_hash s) (cg_counters g) (ck_inv _ _ (proj1 Hs)) Hn) as Hp.
    unfold wp in Hp. rewrite Hx in Hp. destruct Hp as [Hi Hm]. by eapply kgc_next_ok.
  - eapply (kgc_next_ok _ _ _ _ sample_cf); [done|apply Hs|by left].
Qed.

Lemma kreachable_ok s0 s : ks_initial s0 -> rtc kwithin s0 s -> ksys_ok s.
Proof using Hlimit.
  intros (Hi&Hm&Hc&_) Hr. assert (ksys_ok s0) as Hok.
  { split; [|intros id c w; by rewrite Hc]. constructor; cbn; [done| |].
    - intros id l. by rewrite Hc, fmap_empty.
    - intros k a o Hk. cbn in Hm. by rewrite Hm in Hk. }
  clear Hi Hm Hc. induction Hr as [|x y z Hst _ IH]; [done|]. by apply IH, (kstep_ok x).
Qed.

Context (s0 s : ksys).
Hypothesis (Hini : ks_initial s0) (Hreach : rtc kwithin s0 s).

(** C11: The books balance under every interleaving of requests within a limit.  Take any
    limit whose double fits in 32 bits, and any run of jobs, destructors and collections,
    one critical section at a time, in which no request that is executed asks for a maximum
    above this limit (above it the 32-bit sum of [acquire] can wrap around).  In every state
    reached, the consumption of every object is the sum of what the connections hold of it
    and at most the limit, where a connection that is giving everything back holds what it
    has not given back yet; and everything held is positive and belongs to an object that is
    in the table, so that no pointer to a key dangles. *)
Theorem counter_conc_balanced :
  (forall k a o, t_map (ks_hash s) !! k = Some (a, o) ->
     o_consumption o = total a (conn_holds <$> ks_conns s) /\ o_consumption o <= limit) /\
  (forall id c k v, ks_conns s !! id = Some c -> (k, v) ∈ conn_holds c ->
     0 < v /\ exists o, t_map (ks_hash s) !! kr_data k = Some (kr_addr k, o)).
Proof using Hlimit Hini Hreach.
  destruct (kreachable_ok s0 s Hini Hreach) as [[_ Hc Ho] _]. split; [exact Ho|].
  intros id c k v Hl Hkv. destruct (Hc id (conn_holds c)) as [_ Hf].
  { cbn. by rewrite lookup_fmap, Hl. }
  rewrite Forall_forall in Hf. by apply (Hf (k, v)).
Qed.

End conc.

(** ** A run with interleavings *)

(** Executable steps: accept a connection, start a job on it with an input, let its job
    take a step, end the job, close it, let its destructor give back an object, begin a
    collection, let it visit a bucket. *)
Inductive kmove :=
| km_accept (id : nat)
| km_start (id : nat) (input : bytes)
| km_work (id : nat)
| km_finish (id : nat)
| km_close (id : nat)
| km_return (id : nat)
| km_gc_begin
| km_gc_visit.

Definition within_test (limit : Z) (w : cwork) : bool :=
  match w with
  | k_proc _ head => match parse head with Some cmd => q_maximum cmd <=? limit | None => true end
  | _ => true
  end.

#[local] Instance sample_k_ops : TableOps (hash_map object) object := hash_map_ops counter_key object.

Definition do_kmove (m : kmove) (s : ksys) : option ksys :=
  match m with
  | km_accept id =>
      match ks_conns s !! id, make_counter_socket sample_cf (ks_stats s) with
      | None, Some st =>
          Some (kconn_next s id (ks_hash s) {| e_stats := st; e_acquired := []; e_out := [] |} (at_rest []))
      | _, _ => None
      end
  | km_start id input =>
      match ks_conns s !! id with
      | Some {| cc_acquired := l; cc_act := at_rest p |} =>
          Some (kconn_next s id (ks_hash s) (ks_env s l) (in_job (k_recv [recv_ok input] p)))
      | _ => None
      end
  | km_work id =>
      match ks_conns s !! id with
      | Some {| cc_acquired := l; cc_act := in_job w |} =>
          if within_test 10 w then
            match cwork_step counter_key sample_cf w (ks_hash s) (ks_env s l) with
            | (inr (w', hash), e) => Some (kconn_next s id hash e (in_job w'))
            | _ => None
            end
          else None
      | _ => None
      end
  | km_finish id =>
      match ks_conns s !! id with
      | Some {| cc_acquired := l; cc_act := in_job (k_done p) |} =>
          Some (kconn_next s id (ks_hash s) (ks_env s l) (at_rest p))
      | _ => None
      end
  | km_close id =>
      match ks_conns s !! id with
      | Some {| cc_acquired := l; cc_act := at_rest p |} =>
          Some (kconn_next s id (ks_hash s)
                  {| e_stats := count_invalidate (ks_stats s); e_acquired := l; e_out := [] |} (in_dtor l))
      | _ => None
      end
  | km_return id =>
      match ks_conns s !! id with
      | Some {| cc_acquired := l; cc_act := in_dtor ((k, c) :: rest) |} =>
          match release_one sample_cf k c (ks_hash s) (ks_env s l) with
          | (inr hash, e) => Some (kconn_next s id hash e (in_dtor rest))
          | _ => None
          end
      | _ => None
      end
  | km_gc_begin =>
      match ks_gc s with
      | None => Some (kgc_next s (ks_hash s) (ks_stats s)
                        (Some {| cg_next := 0; cg_counters := gc_counters_init |}))
      | Some _ => None
      end
  | km_gc_visit =>
      match ks_gc s with
      | Some g =>
          if decide (cg_next g < length (m_buckets (ks_hash s)))%nat then
            match counter_gc_visit sample_cf 64 g (ks_hash s) (cg_counters g) with
            | (inr hash, c) =>
                Some (kgc_next s hash (ks_stats s) (Some {| cg_next := S (cg_next g); cg_counters := c |}))
            | _ => None
            end
          else None
      | None => None
      end
  end.

Lemma within_test_ok limit w : within_test limit w = true -> next_within limit w.
Proof.
  destruct w as [|rs head| | |]; try done. cbn. intros Ht cmd Hp. rewrite Hp in Ht. by apply Z.leb_le.
Qed.

Lemma kwithin_other sk limit s s' : kstep sk None s s' -> kwithin sk limit s s'.
Proof. intros Hst. exists None. by split. Qed.

Lemma do_kmove_step m s s' : do_kmove m s = Some s' -> kwithin counter_key 10 s s'.
Proof.
  intros Hm. destruct m as [id|id input|id|id|id|id| |]; cbn [do_kmove] in Hm;
    repeat (case_match; simplify_eq).
  - apply kwithin_other. by eapply k_accept.
  - apply kwithin_other. by eapply k_start.
  - exists (Some id). split; [by eapply k_work|]. intros id' l' w' [= <-] Hl. simplify_eq. by apply within_test_ok.
  - apply kwithin_other. by eapply k_finish.
  - apply kwithin_other. by eapply k_close.
  - apply kwithin_other. by eapply k_return.
  - apply kwithin_other. by eapply k_gc_begin.
  - apply kwithin_other. by eapply k_gc_visit.
Qed.

Fixpoint do_kmoves (ms : list kmove) (s : ksys) : option ksys :=
  match ms with
  | [] => Some s
  | m :: ms => s ← do_kmove m s; do_kmoves ms s
  end.

Lemma do_kmoves_steps ms s s' : do_kmoves ms s = Some s' -> rtc (kwithin counter_key 10) s s'.
Proof.
  revert s. induction ms as [|m ms IH]; intros s Hm; cbn in Hm; [by injection Hm as <-|].
  apply bind_Some in Hm as (s1&H1&H2). eapply rtc_l; [by apply (do_kmove_step m)|by apply IH].
Qed.

Definition sample_kstart : ksys :=
  {| ks_hash := hash_map_ctor object 3; ks_stats := stats_reset; ks_conns := ∅; ks_gc := None |}.
Definition sample_dump : bytes := encode Dump x00 (replicate 4 x00) [].

(** Three and four of ten are acquired; then the first connection goes away while the second
    is in the middle of a dump and a collection is on its way. *)
Definition sample_kmoves : list kmove :=
  [km_accept 1; km_accept 2; km_start 1 (sample_acquire 3 10); km_start 2 (sample_acquire 4 10 ++ sample_dump);
   km_work 1; km_work 2; km_work 2; km_gc_begin; km_work 1; km_gc_visit; km_work 1; km_work 2; km_work 1;
   km_finish 1; km_work 2; km_close 1].
Definition sample_kstate : ksys := default sample_kstart (do_kmoves sample_kmoves sample_kstart).

Lemma sample_kinitial : ks_initial counter_key sample_kstart.
Proof. split_and!; [by apply ctor_inv|apply ctor_map|done|done]. Qed.
Lemma sample_kreachable : rtc (kwithin counter_key 10) sample_kstart sample_kstate.
Proof.
  apply (do_kmoves_steps sample_kmoves). unfold sample_kstate.
  assert (match do_kmoves sample_kmoves sample_kstart with Some _ => true | None => false end = true) as Hm
    by (vm_compute; reflexivity).
  by destruct (do_kmoves sample_kmoves sample_kstart).
Qed.

Lemma counter_conc_balanced_witness :
  exists a o c, t_map (H0 := counter_ops) (ks_hash sample_kstate) !! lit "n" = Some (a, o) /\
    o_consumption o = 7 /\ ks_conns sample_kstate !! 1%nat = Some c /\
    cc_act c = in_dtor [(sample_ref, 3)] /\
    o_consumption o = total a (conn_holds <$> ks_conns sample_kstate).
Proof.
  destruct (counter_conc_balanced counter_key 10 ltac:(lia) sample_kstart sample_kstate sample_kinitial
    sample_kreachable) as [Hb _].
  set (o := {| o_consumption := 7; o_max_consumption := 7; o_last_updated := 100 |}).
  assert (t_map (H0 := counter_ops) (ks_hash sample_kstate) !! lit "n" = Some (0%nat, o)) as Hn
    by (vm_compute; reflexivity).
  exists 0%nat, o, {| cc_acquired := [(sample_ref, 3)]; cc_act := in_dtor [(sample_ref, 3)] |}.
  split_and!; [exact Hn|reflexivity|vm_compute; reflexivity|reflexivity|exact (proj1 (Hb _ _ _ Hn))].
Defined.

