(* ===== verification/Dynbuf.v ===== *)
(** * Dynamic buffers (class dynbuf of cybozu/dynbuf.hpp)

    A buffer owns a block of memory.  The model keeps the block byte by byte, the
    bytes beyond the contents included: what [malloc] returns is arbitrary, a write
    past the end of a block is an error, and the blocks given back to the allocator
    are recorded with what they hold.  Theorems: the operations refine a plain
    sequence of bytes, and a buffer that erases leaves none of its former contents
    in the memory it frees. *)

From S2P Require Import Prelude.

(** ** The allocator *)

Record heap := {
  h_allocs : nat;            (** the number of allocations so far *)
  h_freed : list bytes       (** the blocks given back, with their contents *)
}.

(** [std::size_t] additions. *)
Definition size_add (a b : nat) : nat := Z.to_nat (u64 (Z.of_nat a + Z.of_nat b)).

Record dynbuf := {
  d_p : option bytes;        (** the block at [m_p]; [None] is [nullptr] *)
  d_default_capacity : nat;
  d_capacity : nat;
  d_erase : bool;
  d_used : nat
}.

Definition set_block (p : option bytes) (cap used : nat) (d : dynbuf) : dynbuf :=
  {| d_p := p; d_default_capacity := d_default_capacity d; d_capacity := cap;
     d_erase := d_erase d; d_used := used |}.
Definition block (d : dynbuf) : bytes := default [] (d_p d).

Section dynbuf.
(** What the [k]-th allocation of [n] bytes holds. *)
Context (junk : nat -> nat -> bytes).

(** [_malloc], [_free] and [_realloc]; allocation succeeds. *)
Definition malloc (n : nat) : M heap bytes :=
  let! k := gets h_allocs in
  modify (fun h => {| h_allocs := S (h_allocs h); h_freed := h_freed h |}) ;;!
  ret (junk k n).
Definition free (p : option bytes) : M heap unit :=
  match p with
  | Some b => modify (fun h => {| h_allocs := h_allocs h; h_freed := h_freed h ++ [b] |})
  | None => ret tt
  end.
Definition realloc (p : option bytes) (n : nat) : M heap bytes :=
  let! b := malloc n in
  let old := take n (default [] p) in
  free p ;;!
  ret (old ++ drop (length old) b).

(** [std::memcpy], [std::memmove] and [clear_memory] into a block. *)
Definition splice (b : bytes) (off : nat) (p : bytes) : bytes :=
  take off b ++ p ++ drop (off + length p) b.
Definition store (b : bytes) (off : nat) (p : bytes) : M heap bytes :=
  if decide (off + length p <= length b)%nat then ret (splice b off p) else throw bad_read.
Definition load (b : bytes) (off n : nat) : M heap bytes := checked (read_n b off n).
Definition clear_memory (b : bytes) (off n : nat) : M heap bytes := store b off (replicate n x00).

(** The constructor. *)
Definition dynbuf_new (default_capacity : nat) (erase : bool) : M heap dynbuf :=
  let! p := (if (default_capacity =? 0)%nat then ret None
             else let! b := malloc default_capacity in ret (Some b)) in
  ret {| d_p := p; d_default_capacity := default_capacity; d_capacity := default_capacity;
         d_erase := erase; d_used := 0 |}.

(** The destructor. *)
Definition dynbuf_dtor (d : dynbuf) : M heap unit :=
  match d_p d with
  | None => ret tt
  | Some b =>
      let! b := (if d_erase d then clear_memory b 0 (d_used d) else ret b) in
      free (Some b)
  end.

(** [freebytes]. *)
Definition freebytes (d : dynbuf) : nat := d_capacity d - d_used d.

(** [enlarge]. *)
Definition enlarge (additional : nat) (d : dynbuf) : M heap dynbuf :=
  if (additional =? 0)%nat then ret d else
  let new_capacity := size_add (d_capacity d) additional in
  let! new_p :=
    (if d_erase d then
       let! new_p := malloc new_capacity in
       match d_p d with
       | Some p =>
           let! old := load p 0 (d_used d) in
           let! new_p := store new_p 0 old in
           let! p := clear_memory p 0 (d_used d) in
           free (Some p) ;;!
           ret new_p
       | None => ret new_p
       end
     else realloc (d_p d) new_capacity) in
  ret (set_block (Some new_p) new_capacity (d_used d) d).

(** [reset]. *)
Definition reset (d : dynbuf) : M heap dynbuf :=
  let! p := (if negb (d_used d =? 0)%nat && d_erase d
             then let! b := clear_memory (block d) 0 (d_used d) in ret (Some b)
             else ret (d_p d)) in
  let d := set_block p (d_capacity d) 0 d in
  if (d_default_capacity d =? d_capacity d)%nat then ret d else
  let! new_p := (if negb (d_default_capacity d =? 0)%nat
                 then let! b := malloc (d_default_capacity d) in ret (Some b) else ret None) in
  free (d_p d) ;;!
  ret (set_block new_p (d_default_capacity d) 0 d).

(** [prepare]: the free space starts at offset [m_used] of the block. *)
Definition prepare (len : nat) (d : dynbuf) : M heap dynbuf :=
  if (freebytes d <? len)%nat then enlarge len d else ret d.

(** [append]. *)
Definition append (p : bytes) (d : dynbuf) : M heap dynbuf :=
  let! d := prepare (length p) d in
  match p with
  | [] => ret d
  | _ => let! b := store (block d) (d_used d) p in
         ret (set_block (Some b) (d_capacity d) (d_used d + length p) d)
  end.

(** What a system call writes to the free space, then [consume]. *)
Definition consume (len : nat) (d : dynbuf) : dynbuf :=
  set_block (d_p d) (d_capacity d) (d_used d + len) d.
Definition fill (len : nat) (p : bytes) (d : dynbuf) : M heap dynbuf :=
  let! d := prepare len d in
  match p with
  | [] => ret d
  | _ => let! b := store (block d) (d_used d) p in
         ret (consume (length p) (set_block (Some b) (d_capacity d) (d_used d) d))
  end.

(** [erase]. *)
Definition erase (len : nat) (d : dynbuf) : M heap dynbuf :=
  if (d_used d <? len)%nat then throw invalid_argument else
  if (len =? 0)%nat then ret d else
  let remain := (d_used d - len)%nat in
  if (remain =? 0)%nat then reset d else
  if (remain <=? d_default_capacity d)%nat && negb (d_capacity d =? d_default_capacity d)%nat then
    let! new_p := malloc (d_default_capacity d) in
    let! rest := load (block d) len remain in
    let! new_p := store new_p 0 rest in
    let! p := (if d_erase d then clear_memory (block d) 0 (d_used d) else ret (block d)) in
    free (Some p) ;;!
    ret (set_block (Some new_p) (d_default_capacity d) remain d)
  else
    let! rest := load (block d) len remain in
    let! p := store (block d) 0 rest in
    let! p := (if d_erase d then clear_memory p remain len else ret p) in
    ret (set_block (Some p) (d_capacity d) remain d).

(** [swap]: the default capacities and the erase flags stay. *)
Definition swap (d other : dynbuf) : dynbuf * dynbuf :=
  (set_block (d_p other) (d_capacity other) (d_used other) d,
   set_block (d_p d) (d_capacity d) (d_used d) other).

(** [data] and [size]. *)
Definition contents (d : dynbuf) : bytes := take (d_used d) (block d).
Definition empty (d : dynbuf) : bool := (d_used d =? 0)%nat.

(** ** The invariant *)

Hypothesis Hjunk : forall k n, length (junk k n) = n.

Record dyn_ok (d : dynbuf) : Prop := {
  do_null : d_p d = None -> d_capacity d = 0%nat;
  do_len : length (block d) = d_capacity d;
  do_used : (d_used d <= d_capacity d)%nat
}.

(** Bytes that are zero or that the block had from the allocator. *)
Definition harmless (b : bytes) (from : nat) : Prop := exists k, forall i x,
  (from <= i)%nat -> b !! i = Some x -> x = x00 \/ junk k (length b) !! i = Some x.

(** Where erasing is on: nothing of former contents is left behind. *)
Definition clean (d : dynbuf) : Prop := d_erase d = true -> harmless (block d) (d_used d).
Definition freed_clean (d : dynbuf) (h : heap) : Prop :=
  d_erase d = true -> Forall (fun b => harmless b 0) (h_freed h).

Definition dyn_inv (d : dynbuf) (h : heap) : Prop := dyn_ok d /\ clean d /\ freed_clean d h.

Lemma wp_malloc X n (Q : bytes -> heap -> Prop) h :
  (forall k h', h_freed h' = h_freed h -> Q (junk k n) h') -> wp X (malloc n) Q h.
Proof. intros HQ. apply wp_bind, wp_gets, wp_bind, wp_modify, wp_ret. by apply HQ. Qed.

Lemma wp_store X b off p (Q : bytes -> heap -> Prop) h :
  (off + length p <= length b)%nat -> Q (splice b off p) h -> wp X (store b off p) Q h.
Proof. intros Hl HQ. unfold store. rewrite decide_True by done. by apply wp_ret. Qed.

Lemma wp_clear X b off n (Q : bytes -> heap -> Prop) h :
  (off + n <= length b)%nat -> Q (splice b off (replicate n x00)) h ->
  wp X (clear_memory b off n) Q h.
Proof. intros Hl HQ. apply wp_store; [by rewrite length_replicate|done]. Qed.

Lemma wp_load X b off n (Q : bytes -> heap -> Prop) h :
  (off + n <= length b)%nat -> Q (take n (drop off b)) h -> wp X (load b off n) Q h.
Proof. intros Hl HQ. unfold load, read_n. rewrite decide_True by done. by apply wp_ret. Qed.

Lemma length_splice b off p : (off + length p <= length b)%nat -> length (splice b off p) = length b.
Proof. intros Hl. unfold splice. rewrite !length_app, length_take, length_drop. lia. Qed.

Lemma lookup_splice b off p i :
  (off + length p <= length b)%nat ->
  splice b off p !! i =
    if decide (off <= i < off + length p)%nat then p !! (i - off)%nat else b !! i.
Proof.
  intros Hl. unfold splice. destruct (decide (i < off)%nat).
  { rewrite decide_False, lookup_app_l by (rewrite ?length_take; lia). by apply lookup_take_lt. }
  rewrite lookup_app_r, length_take, Nat.min_l by (rewrite ?length_take; lia).
  destruct (decide (i < off + length p)%nat).
  - by rewrite decide_True, lookup_app_l by lia.
  - rewrite decide_False, lookup_app_r, lookup_drop by lia. f_equal. lia.
Qed.

Lemma take_splice b off p :
  (off + length p <= length b)%nat -> take (off + length p) (splice b off p) = take off b ++ p.
Proof.
  intros Hl. unfold splice. rewrite app_assoc, take_app_length'; [done|].
  rewrite length_app, length_take. lia.
Qed.

Lemma take_splice0 b p n :
  (length p <= length b)%nat -> length p = n -> take n (splice b 0 p) = p.
Proof. intros Hl <-. apply (take_splice b 0 p). lia. Qed.

(** *** Harmless memory *)

Lemma harmless_junk k n from : harmless (junk k n) from.
Proof. exists k. intros i x _ Hi. right. by rewrite Hjunk. Qed.

Lemma harmless_mono b from from' : (from <= from')%nat -> harmless b from -> harmless b from'.
Proof. intros Hle [k Hk]. exists k. intros i x Hi. apply Hk. lia. Qed.

Lemma harmless_data b off p :
  (off + length p <= length b)%nat -> harmless b off -> harmless (splice b off p) (off + length p).
Proof.
  intros Hl [k Hk]. exists k. intros i x Hi. rewrite lookup_splice, length_splice by done.
  rewrite decide_False by lia. apply Hk. lia.
Qed.

Lemma harmless_zeros b u off n from :
  (off + n <= length b)%nat -> (off <= from)%nat -> (u <= off + n)%nat -> harmless b u ->
  harmless (splice b off (replicate n x00)) from.
Proof.
  intros Hl Hf Hu [k Hk]. exists k. intros i x Hi.
  rewrite lookup_splice, length_splice by (by rewrite length_replicate).
  rewrite length_replicate. case_decide.
  - rewrite lookup_replicate. intros [-> _]. by left.
  - apply Hk. lia.
Qed.

(** Moving the contents to the front does not touch the bytes behind them. *)
Lemma harmless_front b u p :
  (length p <= u)%nat -> (u <= length b)%nat -> harmless b u -> harmless (splice b 0 p) u.
Proof.
  intros Hp Hl [k Hk]. exists k. intros i x Hi. rewrite lookup_splice, length_splice by lia.
  rewrite decide_False by lia. by apply Hk.
Qed.

(** ** The operations keep the invariant and refine sequences of bytes *)

(** After an operation: the invariant, the contents, what never changes, and how
    much the block grew at most. *)
Definition dyn_post (d : dynbuf) (c : bytes) (grow : nat) (d' : dynbuf) (h' : heap) : Prop :=
  dyn_inv d' h' /\ contents d' = c /\ d_default_capacity d' = d_default_capacity d /\
  d_erase d' = d_erase d /\
  (d_capacity d' <= Nat.max (d_capacity d) (d_default_capacity d) + grow)%nat.

Lemma dyn_inv_heap d h h' : h_freed h' = h_freed h -> dyn_inv d h -> dyn_inv d h'.
Proof. unfold dyn_inv, freed_clean. by intros ->. Qed.

Lemma freed_more d h b :
  freed_clean d h -> (d_erase d = true -> harmless b 0) ->
  freed_clean d {| h_allocs := h_allocs h; h_freed := h_freed h ++ [b] |}.
Proof. intros Hf Hb He. cbn. apply Forall_app. split; [by apply Hf|]. by constructor; [apply Hb|]. Qed.

Lemma size_add_small a b : Z.of_nat a + Z.of_nat b < 2 ^ 64 -> size_add a b = (a + b)%nat.
Proof. intros Hlt. unfold size_add. rewrite u64_small; lia. Qed.

Lemma dyn_contents_length d : dyn_ok d -> length (contents d) = d_used d.
Proof. intros [_ Hl Hu]. unfold contents. rewrite length_take. lia. Qed.

Lemma dyn_inv_block d b cap used h :
  length b = cap -> (used <= cap)%nat -> (d_erase d = true -> harmless b used) ->
  freed_clean d h -> dyn_inv (set_block (Some b) cap used d) h.
Proof. intros Hl Hu Hh Hf. split; [by split|]. by split. Qed.

Lemma dyn_inv_null d h : freed_clean d h -> dyn_inv (set_block None 0 0 d) h.
Proof.
  intros Hf. split; [by split|]. split; [|done]. intros _.
  exists 0%nat. intros i x _ Hi. cbn in Hi. by rewrite lookup_nil in Hi.
Qed.

Lemma dynbuf_new_ok X cap er h :
  Forall (fun b => harmless b 0) (h_freed h) ->
  wp X (dynbuf_new cap er) (fun d h' => dyn_inv d h' /\ contents d = [] /\
    d_default_capacity d = cap /\ d_erase d = er /\ d_capacity d = cap) h.
Proof.
  intros Hf. unfold dynbuf_new. apply wp_bind.
  set (d0 := {| d_p := None; d_default_capacity := cap; d_capacity := cap; d_erase := er; d_used := 0 |}).
  destruct (Nat.eqb_spec cap 0) as [Hz|Hne].
  - do 2 apply wp_ret. split_and!; try done. subst cap. apply (dyn_inv_null d0 h). by intros _.
  - apply wp_bind, wp_malloc. intros k h' Hh'. do 2 apply wp_ret. split_and!; try done.
    apply (dyn_inv_block d0 (junk k cap) cap 0 h'); [apply Hjunk|lia|intros _; apply harmless_junk|].
    intros _. by rewrite Hh'.
Qed.

Lemma enlarge_ok X n d h :
  dyn_inv d h -> Z.of_nat (d_capacity d) + Z.of_nat n < 2 ^ 64 ->
  wp X (enlarge n d) (fun d' h' => dyn_post d (contents d) n d' h' /\
    d_used d' = d_used d /\ d_capacity d' = (d_capacity d + n)%nat) h.
Proof.
  intros (Hok&Hcl&Hfr) Hlt. pose proof Hok as [Hnull Hlen Hused]. unfold enlarge.
  destruct (Nat.eqb_spec n 0) as [-> |Hne].
  { apply wp_ret. split; [|split; [done|lia]]. split; [done|]. split_and!; [done..|lia]. }
  rewrite size_add_small by done. apply wp_bind.
  set (m := if d_erase d then _ else _).
  assert (wp X m (fun b h' => length b = (d_capacity d + n)%nat /\ take (d_used d) b = contents d /\
    (d_erase d = true -> harmless b (d_used d)) /\ freed_clean d h') h) as Hm.
  { subst m. unfold contents, clean, block in *. revert Hnull Hlen Hcl Hfr. unfold freed_clean.
    destruct (d_erase d) eqn:He; intros Hnull Hlen Hcl Hfr.
    - apply wp_bind, wp_malloc. intros k h1 Hh1. revert Hnull Hlen Hcl.
      destruct (d_p d) as [p|]; cbn [default from_option id]; intros Hnull Hlen Hcl.
      + apply wp_bind, wp_load; [lia|]. rewrite drop_0. set (old := take (d_used d) p).
        assert (length old = d_used d) as Hold by (unfold old; rewrite length_take; lia).
        apply wp_bind, wp_store; [rewrite Hjunk; lia|]. apply wp_bind, wp_clear; [lia|].
        apply wp_bind, wp_modify, wp_ret. rewrite length_splice, Hjunk by (rewrite Hjunk; lia).
        split_and!; [done| | |].
        * by apply take_splice0; [rewrite Hjunk; lia|].
        * intros _. rewrite <- Hold. apply (harmless_data _ 0 old); [rewrite Hjunk; lia|apply harmless_junk].
        * intros _. cbn. rewrite Hh1. apply Forall_app. split; [by apply Hfr|]. constructor; [|done].
          by apply (harmless_zeros p (d_used d)); [lia|lia|lia|apply Hcl].
      + apply wp_ret. rewrite Hnull in * by done. replace (d_used d) with 0%nat by lia.
        split_and!; [apply Hjunk|done|intros _; apply harmless_junk|intros _; rewrite Hh1; by apply Hfr].
    - unfold realloc. apply wp_bind, wp_malloc. intros k h1 Hh1.
      set (old := take (d_capacity d + n) (default [] (d_p d))).
      assert (old = default [] (d_p d)) as Hold by (apply take_ge; rewrite Hlen; lia).
      assert (length old = d_capacity d) as Hlo by (by rewrite Hold).
      assert (forall h', wp X (free (d_p d)) (fun _ _ => True) h') as Hfree by (intros h'; by destruct (d_p d)).
      apply wp_bind. eapply wp_mono; [apply Hfree|]. intros _ h2 _. apply wp_ret.
      rewrite length_app, length_drop, Hjunk. split_and!; [lia| |done|].
      + by rewrite take_app_le, Hold by lia.
      + done. }
  eapply wp_mono; [exact Hm|]. intros b h' (Hb&Ht&Hh&Hf). apply wp_ret.
  split; [|done]. split; [by apply dyn_inv_block; [|lia| |]|]. split_and!; try done. cbn. lia.
Qed.
Lemma prepare_ok X n d h :
  dyn_inv d h -> Z.of_nat (d_capacity d) + Z.of_nat n < 2 ^ 64 ->
  wp X (prepare n d) (fun d' h' => dyn_post d (contents d) n d' h' /\
    d_used d' = d_used d /\ (d_used d' + n <= d_capacity d')%nat) h.
Proof.
  intros Hi Hlt. unfold prepare, freebytes. pose proof (proj1 Hi) as [_ _ Hu].
  destruct (Nat.ltb_spec (d_capacity d - d_used d) n).
  - eapply wp_mono; [by apply enlarge_ok|]. intros d' h' (Hp&Hd&Hc). split; [done|]. split; [done|lia].
  - apply wp_ret. split; [|split; [done|lia]]. split; [done|]. split_and!; [done..|lia].
Qed.

(** Bytes written to the free space become contents. *)
Lemma written_ok d h p :
  dyn_inv d h -> (d_used d + length p <= d_capacity d)%nat ->
  let d' := set_block (Some (splice (block d) (d_used d) p)) (d_capacity d) (d_used d + length p) d in
  dyn_inv d' h /\ contents d' = contents d ++ p.
Proof.
  intros (Hok&Hcl&Hfr) Hroom d'. pose proof Hok as [_ Hlen _]. split.
  - apply dyn_inv_block; [rewrite length_splice by lia; done|lia| |done].
    intros He. apply harmless_data; [lia|by apply Hcl].
  - unfold contents at 1. cbn [d' set_block d_used block d_p default from_option id].
    by rewrite take_splice by lia.
Qed.

Lemma append_ok X p d h :
  dyn_inv d h -> Z.of_nat (d_capacity d) + Z.of_nat (length p) < 2 ^ 64 ->
  wp X (append p d) (dyn_post d (contents d ++ p) (length p)) h.
Proof.
  intros Hi Hlt. unfold append. apply wp_bind. eapply wp_mono; [by apply prepare_ok|].
  intros d1 h1 ((Hi1&Hc&Hd&He&Hg)&Hu&Hroom).
  destruct p as [|b p]; [apply wp_ret; rewrite app_nil_r; by split|].
  pose proof (do_len _ (proj1 Hi1)) as Hlen. apply wp_bind, wp_store; [lia|]. apply wp_ret.
  destruct (written_ok d1 h1 (b :: p) Hi1 Hroom) as [Hi2 Hc2]. rewrite Hc in Hc2. by split.
Qed.

(** A system call writes at most what was prepared. *)
Lemma fill_ok X len p d h :
  dyn_inv d h -> (length p <= len)%nat -> Z.of_nat (d_capacity d) + Z.of_nat len < 2 ^ 64 ->
  wp X (fill len p d) (dyn_post d (contents d ++ p) len) h.
Proof.
  intros Hi Hle Hlt. unfold fill. apply wp_bind. eapply wp_mono; [by apply prepare_ok|].
  intros d1 h1 ((Hi1&Hc&Hd&He&Hg)&Hu&Hroom).
  destruct p as [|b p]; [apply wp_ret; rewrite app_nil_r; by split|].
  pose proof (do_len _ (proj1 Hi1)) as Hlen. apply wp_bind, wp_store; [lia|]. apply wp_ret.
  destruct (written_ok d1 h1 (b :: p) Hi1 ltac:(lia)) as [Hi2 Hc2]. rewrite Hc in Hc2. by split.
Qed.

Lemma wp_free X d b (Q : unit -> heap -> Prop) h :
  freed_clean d h -> (d_erase d = true -> forall x, b = Some x -> harmless x 0) ->
  (forall h', freed_clean d h' -> Q tt h') -> wp X (free b) Q h.
Proof.
  intros Hf Hb HQ. destruct b as [x|]; [|by apply wp_ret, HQ].
  apply wp_modify, HQ, freed_more; [done|]. intros He. by apply Hb.
Qed.

Lemma reset_ok X d h :
  dyn_inv d h -> wp X (reset d) (dyn_post d [] 0) h.
Proof.
  intros (Hok&Hcl&Hfr). pose proof Hok as [Hnull Hlen Hused]. unfold reset. apply wp_bind.
  set (m := if _ && _ then _ else _).
  assert (wp X m (fun p h' => h' = h /\ length (default [] p) = d_capacity d /\
    (p = None -> d_capacity d = 0%nat) /\
    (d_erase d = true -> harmless (default [] p) 0)) h) as Hm.
  { subst m. destruct (negb (d_used d =? 0)%nat && d_erase d) eqn:Hb.
    - apply andb_prop in Hb as [Hu He]. apply wp_bind, wp_clear; [lia|]. apply wp_ret. split; [done|].
      cbn. rewrite length_splice by (rewrite length_replicate; lia). split; [done|]. split; [done|].
      intros _. by apply (harmless_zeros _ (d_used d)); [lia|lia|lia|apply Hcl].
    - apply wp_ret. split; [done|]. split; [done|]. split; [done|]. intros He.
      rewrite He, andb_true_r in Hb. apply negb_false_iff, Nat.eqb_eq in Hb. rewrite <- Hb. by apply Hcl. }
  eapply wp_mono; [exact Hm|]. intros p h1 (->&Hlp&Hnp&Hhp). cbv zeta. cbn [d_default_capacity d_capacity set_block d_p].
  destruct (Nat.eqb_spec (d_default_capacity d) (d_capacity d)) as [Heq|Hne].
  - apply wp_ret. split; [|split_and!; try done; cbn; lia]. split; [by split; [..|cbn; lia]|]. split; [|done].
    intros He. by apply Hhp.
  - apply wp_bind. destruct (Nat.eqb_spec (d_default_capacity d) 0) as [Hz|Hnz]; cbn [negb].
    + apply wp_ret. apply wp_bind, (wp_free X d); [done|intros He x ->; by apply Hhp|].
      intros h2 Hf2. apply wp_ret. rewrite Hz. split; [by apply (dyn_inv_null d)|]. split_and!; try done. cbn. lia.
    + apply wp_bind, wp_malloc. intros k h2 Hh2. apply wp_ret.
      apply wp_bind, (wp_free X d); [intros He; rewrite Hh2; by apply Hfr|intros He x ->; by apply Hhp|].
      intros h3 Hf3. apply wp_ret. split; [|split_and!; try done; cbn; lia].
      apply (dyn_inv_block d); [apply Hjunk|lia|intros _; apply harmless_junk|done].
Qed.

Lemma length_rest (b : bytes) off n : (off + n <= length b)%nat -> length (take n (drop off b)) = n.
Proof. intros Hl. rewrite length_take, length_drop. lia. Qed.

Lemma contents_drop d len :
  dyn_ok d -> (len <= d_used d)%nat ->
  take (d_used d - len) (drop len (block d)) = drop len (contents d).
Proof. intros _ Hle. unfold contents. by rewrite skipn_firstn_comm. Qed.

Lemma contents_splice0 d b cap n rest :
  (length rest <= length b)%nat -> length rest = n ->
  contents (set_block (Some (splice b 0 rest)) cap n d) = rest.
Proof.
  intros Hl <-. unfold contents. cbn [set_block d_used block d_p default from_option id].
  by apply take_splice0.
Qed.

Lemma erase_in_place X (er : bool) b len used rest h :
  (used <= length b)%nat -> (len <= used)%nat -> length rest = (used - len)%nat ->
  (er = true -> harmless b used) ->
  wp X (if er then clear_memory (splice b 0 rest) (used - len) len else ret (splice b 0 rest))
    (fun p h' => h' = h /\ length p = length b /\ take (used - len) p = rest /\
       (er = true -> harmless p (used - len))) h.
Proof.
  intros Hub Hlu Hr Hh. assert (length (splice b 0 rest) = length b) as Hl by (apply length_splice; lia).
  assert (take (used - len) (splice b 0 rest) = rest) as Ht.
  { apply take_splice0; lia. }
  destruct er; [|by apply wp_ret].
  apply wp_clear; [lia|]. split; [done|]. rewrite length_splice by (rewrite length_replicate; lia).
  split; [done|]. split.
  - unfold splice at 1. rewrite take_app_le by (rewrite length_take; lia). by rewrite take_take, Nat.min_id.
  - intros _. apply (harmless_zeros _ used); [lia..|]. apply harmless_front; [lia..|by apply Hh].
Qed.

(** [erase] of more than the contents throws and changes nothing; otherwise the first
    bytes go. *)
Lemma erase_ok X len d h :
  dyn_inv d h -> (len <= d_used d)%nat ->
  wp X (erase len d) (dyn_post d (drop len (contents d)) 0) h.
Proof.
  intros Hi Hle. pose proof Hi as ([Hnull Hlen Hused]&Hcl&Hfr). unfold erase.
  destruct (Nat.ltb_spec (d_used d) len); [lia|].
  destruct (Nat.eqb_spec len 0) as [-> |Hne].
  { apply wp_ret. split; [done|]. split_and!; [done..|lia]. }
  destruct (Nat.eqb_spec (d_used d - len) 0) as [Hz|Hnz].
  { eapply wp_mono; [by apply reset_ok|]. intros d' h' Hp.
    rewrite drop_ge; [done|]. rewrite dyn_contents_length by apply Hi. lia. }
  rewrite <- contents_drop by (try apply Hi; done).
  destruct (Nat.leb_spec (d_used d - len) (d_default_capacity d)) as [Hr|Hr]; cbn [andb].
  1: destruct (Nat.eqb_spec (d_capacity d) (d_default_capacity d)) as [Hc|Hc]; cbn [negb].
  2:{ apply wp_bind, wp_malloc. intros k h1 Hh1. apply wp_bind, wp_load; [lia|].
      set (rest := take _ _). assert (length rest = (d_used d - len)%nat) as Hrl by (apply length_rest; lia).
      apply wp_bind, wp_store; [rewrite Hjunk; lia|]. apply wp_bind.
      set (m := if d_erase d then _ else _).
      assert (wp X m (fun p h' => h' = h1 /\ (d_erase d = true -> harmless p 0)) h1) as Hm.
      { subst m. destruct (d_erase d) eqn:He; [|by apply wp_ret]. apply wp_clear; [lia|]. split; [done|].
        intros _. by apply (harmless_zeros _ (d_used d)); [lia..|apply Hcl]. }
      eapply wp_mono; [exact Hm|]. intros p h2 (->&Hp). apply wp_bind, (wp_free X d).
      - intros He. rewrite Hh1. by apply Hfr.
      - intros He x [= <-]. by apply Hp.
      - intros h3 Hf3. apply wp_ret. split.
        + apply dyn_inv_block; [rewrite length_splice, Hjunk by (rewrite Hjunk; lia); done|done| |done].
          intros He. rewrite <- Hrl. apply (harmless_data _ 0 rest); [rewrite Hjunk; lia|apply harmless_junk].
        + rewrite contents_splice0 by (rewrite ?Hjunk; lia). split_and!; try done. cbn. lia. }
  all: apply wp_bind, wp_load; [lia|].
  all: set (rest := take _ _); assert (length rest = (d_used d - len)%nat) as Hrl by (apply length_rest; lia).
  all: apply wp_bind, wp_store; [lia|]; apply wp_bind.
  all: eapply wp_mono; [by apply (erase_in_place X (d_erase d) (block d) len (d_used d) rest); [lia..|apply Hcl]|].
  all: intros p h2 (->&Hp&Ht&Hh); apply wp_ret; rewrite Hlen in Hp.
  all: split; [apply dyn_inv_block; [done|lia|done|done]|].
  all: split_and!; try done; cbn; lia.
Qed.

Lemma erase_too_much len d h : (d_used d < len)%nat -> erase len d h = (inl invalid_argument, h).
Proof. intros Hlt. unfold erase. by destruct (Nat.ltb_spec (d_used d) len); [|lia]. Qed.

(** The destructor hands back a harmless block. *)
Lemma dynbuf_dtor_ok X d h :
  dyn_inv d h -> wp X (dynbuf_dtor d) (fun _ h' => freed_clean d h') h.
Proof.
  intros ([Hnull Hlen Hused]&Hcl&Hfr). unfold dynbuf_dtor, clean, block in *.
  destruct (d_p d) as [b|]; [|by apply wp_ret]. cbn [default from_option id] in *.
  apply wp_bind. destruct (d_erase d) eqn:He; [|apply wp_ret].
  - apply wp_clear; [lia|]. apply wp_free with (d := d); [done| |done].
    intros _ x [= <-]. by apply (harmless_zeros _ (d_used d)); [lia..|apply Hcl].
  - apply wp_free with (d := d); [done|congruence|done].
Qed.

(** ** The life of a buffer *)

Inductive dyn_op :=
| DAppend (p : bytes)
| DFill (len : nat) (p : bytes)    (** [prepare len], a system call writing [p], [consume] *)
| DErase (len : nat)
| DReset.

Definition dyn_step (o : dyn_op) (d : dynbuf) : M heap dynbuf :=
  match o with
  | DAppend p => append p d
  | DFill len p => fill len p d
  | DErase len => erase len d
  | DReset => reset d
  end.

Fixpoint dyn_run (ops : list dyn_op) (d : dynbuf) : M heap dynbuf :=
  match ops with
  | [] => ret d
  | o :: ops => let! d := dyn_step o d in dyn_run ops d
  end.

(** The whole life: construction, operations, the contents seen, destruction. *)
Definition dyn_life (cap : nat) (er : bool) (ops : list dyn_op) : M heap bytes :=
  let! d := dynbuf_new cap er in
  let! d := dyn_run ops d in
  let c := contents d in
  dynbuf_dtor d ;;!
  ret c.

(** The same on a plain sequence of bytes; [None] is [std::invalid_argument]. *)
Definition seq_step (o : dyn_op) (c : bytes) : option bytes :=
  match o with
  | DAppend p | DFill _ p => Some (c ++ p)
  | DErase len => if (length c <? len)%nat then None else Some (drop len c)
  | DReset => Some []
  end.
Fixpoint seq_run (ops : list dyn_op) (c : bytes) : option bytes :=
  match ops with
  | [] => Some c
  | o :: ops => seq_step o c ≫= seq_run ops
  end.

(** How much space an operation asks for, and that a call fills no more. *)
Definition op_space (o : dyn_op) : nat :=
  match o with DAppend p => length p | DFill len _ => len | _ => 0 end.
Definition op_fits (o : dyn_op) : Prop :=
  match o with DFill len p => (length p <= len)%nat | _ => True end.
Definition ops_space (ops : list dyn_op) : nat := sum_list (op_space <$> ops).

Lemma dyn_step_ok o d h :
  dyn_inv d h -> op_fits o -> Z.of_nat (d_capacity d) + Z.of_nat (op_space o) < 2 ^ 64 ->
  match seq_step o (contents d) with
  | Some c => wp no_exn (dyn_step o d) (dyn_post d c (op_space o)) h
  | None => dyn_step o d h = (inl invalid_argument, h)
  end.
Proof.
  intros Hi Hf Hlt. destruct o as [p|len p|len|]; cbn [seq_step dyn_step op_fits op_space] in *.
  - by apply append_ok.
  - by apply fill_ok.
  - rewrite dyn_contents_length by apply Hi. destruct (Nat.ltb_spec (d_used d) len).
    + by apply erase_too_much.
    + by apply erase_ok.
  - by apply reset_ok.
Qed.

Lemma dyn_run_ok ops d h :
  dyn_inv d h -> Forall op_fits ops ->
  Z.of_nat (Nat.max (d_capacity d) (d_default_capacity d)) + Z.of_nat (ops_space ops) < 2 ^ 64 ->
  match seq_run ops (contents d) with
  | Some c => wp no_exn (dyn_run ops d) (fun d' h' =>
      dyn_inv d' h' /\ contents d' = c /\ d_erase d' = d_erase d) h
  | None => exists h', dyn_run ops d h = (inl invalid_argument, h') /\ freed_clean d h'
  end.
Proof.
  revert d h. induction ops as [|o ops IH]; intros d h Hi Hf Hlt; [by apply wp_ret|].
  apply Forall_cons in Hf as [Ho Hops].
  assert (ops_space (o :: ops) = (op_space o + ops_space ops)%nat) as Hsp by done. rewrite Hsp in Hlt.
  cbn [seq_run dyn_run]. pose proof (dyn_step_ok o d h Hi Ho ltac:(lia)) as Hs.
  destruct (seq_step o (contents d)) as [c|]; cbn [mbind option_bind].
  2:{ exists h. unfold bind. rewrite Hs. split; [done|]. apply Hi. }
  unfold wp in Hs. destruct (dyn_step o d h) as [[x|d1] h1] eqn:Hr; [done|].
  destruct Hs as (Hi1&<-&Hd1&He1&Hg). specialize (IH d1 h1 Hi1 Hops ltac:(lia)).
  assert (bind (dyn_step o d) (fun d => dyn_run ops d) h = dyn_run ops d1 h1) as Hb
    by (unfold bind; by rewrite Hr).
  unfold freed_clean in *. rewrite He1 in IH. destruct (seq_run ops (contents d1)); [|by rewrite Hb].
  unfold wp in *. by rewrite Hb.
Qed.

(** What a whole life does, on a fresh heap. *)
Definition fresh_heap : heap := {| h_allocs := 0; h_freed := [] |}.

(** C29: A dynamic buffer is a sequence of bytes.  Whatever the allocator hands out and
    whatever the sequence of appends, of system calls filling prepared space, of erases
    at the front and of resets, as long as the sizes asked for stay below 2^64: no byte
    outside the buffer's block is touched and the contents are those of a plain byte
    sequence treated the same way; an erase of more than the contents, and nothing else,
    throws [std::invalid_argument].  Where the buffer erases, no block handed back to
    the allocator, in the end by the destructor, holds a byte of former contents: each is zero or
    what the allocator had put there. *)
Theorem dynbuf_is_sequence cap er ops :
  Forall op_fits ops -> Z.of_nat cap + Z.of_nat (ops_space ops) < 2 ^ 64 ->
  let (res, h) := dyn_life cap er ops fresh_heap in
  res = match seq_run ops [] with Some c => inr c | None => inl invalid_argument end /\
  (er = true -> Forall (fun b => harmless b 0) (h_freed h)).
Proof.
  intros Hf Hlt. unfold dyn_life, bind.
  pose proof (dynbuf_new_ok no_exn cap er fresh_heap ltac:(constructor)) as Hn. unfold wp in Hn.
  destruct (dynbuf_new cap er fresh_heap) as [[x|d] h1]; [done|].
  destruct Hn as (Hi&Hc&Hd&He&Hcap). pose proof (dyn_run_ok ops d h1 Hi Hf ltac:(lia)) as Hr.
  rewrite Hc in Hr. destruct (seq_run ops []) as [c|].
  - unfold wp in Hr. destruct (dyn_run ops d h1) as [[x|d2] h2]; [done|]. destruct Hr as (Hi2&<-&He2).
    pose proof (dynbuf_dtor_ok no_exn d2 h2 Hi2) as Hdt. unfold wp in Hdt.
    destruct (dynbuf_dtor d2 h2) as [[x|[]] h3]; [done|]. split; [done|]. intros Her. apply Hdt. congruence.
  - destruct Hr as (h'&->&Hfr). split; [done|]. intros Her. apply Hfr. congruence.
Qed.
End dynbuf.

(** An eight-byte buffer that erases: it grows, is cut back to its first block and
    destroyed. *)
Lemma dynbuf_is_sequence_witness :
  let junk := fun k n => replicate n (bZ (170 + Z.of_nat k)) in
  let ops := [DAppend (lit "hello"); DFill 16 (lit " world"); DErase 4; DErase 2] in
  Forall op_fits ops /\ seq_run ops [] = Some (lit "world") /\
  let (res, h) := dyn_life junk 8 true ops fresh_heap in
  res = inr (lit "world") /\ length (h_freed h) = 3%nat /\ Forall (fun b => harmless junk b 0) (h_freed h).
Proof.
  intros junk ops. assert (Forall op_fits ops) as Hf by (repeat constructor; cbn; lia).
  pose proof (dynbuf_is_sequence junk (fun k n => length_replicate n _) 8 true ops Hf ltac:(vm_compute; done)) as H.
  split; [done|]. split; [reflexivity|].
  destruct (dyn_life junk 8 true ops fresh_heap) as [res h] eqn:E. destruct H as [Hr Hh].
  split; [by rewrite Hr|]. split; [|by apply Hh]. apply (f_equal snd) in E. cbn [snd] in E. rewrite <- E. reflexivity.
Defined.
