(* ===== verification/Tempfile.v ===== *)
(** * Temporary files (class tempfile of src/tempfile.hpp and src/tempfile.cpp)

    Large objects live in an unlinked file.  The file is a sequence of bytes with the
    offset of its descriptor; each system call takes or gives as many bytes as the
    kernel decides, or fails.  Theorem: what [read_contents] appends to a buffer is what
    was written since the last [clear]. *)

From S2P Require Import Prelude.
From S2P Require Import Dynbuf.

(** What the kernel makes of one [write] or [pread]: at most [n + 1] bytes, or an error. *)
Inductive io := Short (n : nat) | Fail.

(** The file behind [m_fd], and [m_length]. *)
Record tempfile := { tf_data : bytes; tf_offset : nat; tf_length : nat }.

Definition tempfile_new : tempfile := {| tf_data := []; tf_offset := 0; tf_length := 0 |}.

(** [::write] at the descriptor's offset; [m_length] grows with it. *)
Definition write_at (t : tempfile) (p : bytes) : tempfile :=
  {| tf_data := take (tf_offset t) (tf_data t) ++ p ++ drop (tf_offset t + length p) (tf_data t);
     tf_offset := tf_offset t + length p; tf_length := tf_length t + length p |}.

(** [write]; when the answers run out the kernel takes everything. *)
Fixpoint write (ios : list io) (p : bytes) : M tempfile unit :=
  match p, ios with
  | [], _ => ret tt
  | _, [] => modify (fun t => write_at t p)
  | _, Fail :: _ => throw system_error
  | _, Short n :: ios => modify (fun t => write_at t (take (S n) p)) ;;! write ios (drop (S n) p)
  end.

(** [clear]: the two system calls may fail. *)
Definition clear (seek_ok trunc_ok : bool) : M tempfile unit :=
  if seek_ok then
    modify (fun t => {| tf_data := tf_data t; tf_offset := 0; tf_length := tf_length t |}) ;;!
    (if trunc_ok
     then modify (fun t => {| tf_data := []; tf_offset := tf_offset t; tf_length := 0 |})
     else throw system_error)
  else throw system_error.

Section reading.
Context (junk : nat -> nat -> bytes).

(** [pread] into the free space of the buffer, then [consume]. *)
Definition pread_consume (t : tempfile) (count off : nat) (d : dynbuf) : M heap (nat * dynbuf) :=
  let p := take count (drop off (tf_data t)) in
  match p with
  | [] => ret (0%nat, d)
  | _ => let! b := store (block d) (d_used d) p in
         ret (length p, consume (length p) (set_block (Some b) (d_capacity d) (d_used d) d))
  end.

(** How much the next [pread] gives at most. *)
Definition io_count (ios : list io) (to_read : nat) : nat :=
  match ios with Short n :: _ => Nat.min (S n) to_read | _ => to_read end.

(** The loop of [read_contents]; [fuel] bounds the iterations. *)
Fixpoint read_loop (fuel : nat) (ios : list io) (t : tempfile) (to_read : nat) (d : dynbuf) : M heap dynbuf :=
  match to_read, fuel with
  | O, _ => ret d
  | _, O => throw no_fuel
  | _, S fuel =>
      match ios with
      | Fail :: _ => throw system_error
      | _ =>
          let! nd := pread_consume t (io_count ios to_read) (tf_length t - to_read) d in
          if (fst nd =? 0)%nat then throw runtime_error else
          read_loop fuel (tail ios) t (to_read - fst nd) (snd nd)
      end
  end.

(** [read_contents]. *)
Definition read_contents (ios : list io) (t : tempfile) (d : dynbuf) : M heap dynbuf :=
  let! d := prepare junk (tf_length t) d in
  read_loop (tf_length t) ios t (tf_length t) d.

(** ** Correctness *)

Hypothesis Hjunk : forall k n, length (junk k n) = n.

(** The length kept is the length of the file, and the descriptor is at its end. *)
Record file_ok (t : tempfile) : Prop := {
  fo_offset : tf_offset t = length (tf_data t);
  fo_length : tf_length t = length (tf_data t)
}.

Lemma write_at_ok t p :
  file_ok t -> file_ok (write_at t p) /\ tf_data (write_at t p) = tf_data t ++ p.
Proof.
  intros [Ho Hl]. assert (tf_data (write_at t p) = tf_data t ++ p) as Hd.
  { cbn. rewrite Ho, firstn_all, drop_ge by lia. by rewrite app_nil_r. }
  split; [|done]. split; rewrite Hd, length_app; cbn; lia.
Qed.

Lemma write_ok ios p t :
  file_ok t -> let (r, t') := write ios p t in
  file_ok t' /\ match r with
  | inr _ => tf_data t' = tf_data t ++ p
  | inl x => x = system_error /\ Fail ∈ ios /\ exists q, q `prefix_of` p /\ tf_data t' = tf_data t ++ q
  end.
Proof.
  revert p t. induction ios as [|[n|] ios IH]; intros p t Ht; destruct p as [|b p]; cbn [write]; try (by rewrite app_nil_r).
  - apply write_at_ok, Ht.
  - set (q := take (S n) (b :: p)). unfold bind, modify.
    destruct (write_at_ok t q Ht) as [Ht1 Hd1]. specialize (IH (drop (S n) (b :: p)) (write_at t q) Ht1).
    destruct (write ios (drop (S n) (b :: p)) (write_at t q)) as [[x|u] t']; destruct IH as [Hok IH]; split; try done.
    + destruct IH as (->&Hf&q2&Hq2&Hd). split; [done|]. split; [by right|]. exists (q ++ q2). split.
      * rewrite <- (take_drop (S n) (b :: p)). by apply prefix_app.
      * by rewrite Hd, Hd1, <- app_assoc.
    + by rewrite IH, Hd1, <- app_assoc; unfold q; rewrite take_drop.
  - split; [done|]. split; [done|]. split; [left|]. exists []. split; [apply prefix_nil|by rewrite app_nil_r].
Qed.

Lemma pread_ok t count off d h :
  dyn_inv junk d h -> (0 < count)%nat -> (off + count <= length (tf_data t))%nat ->
  (d_used d + count <= d_capacity d)%nat ->
  wp no_exn (pread_consume t count off d) (fun nd h' => fst nd = count /\ dyn_inv junk (snd nd) h' /\
    contents (snd nd) = contents d ++ take count (drop off (tf_data t)) /\
    d_used (snd nd) = (d_used d + count)%nat /\ d_capacity (snd nd) = d_capacity d) h.
Proof.
  intros Hi Hc Hle Hroom. unfold pread_consume. set (p := take count _).
  assert (length p = count) as Hp by (apply length_rest; lia). clearbody p.
  destruct p as [|b p]; [cbn in Hp; lia|]. pose proof (do_len _ (proj1 Hi)) as Hlen.
  apply wp_bind, wp_store; [lia|]. apply wp_ret. cbn [fst snd].
  destruct (written_ok junk d h (b :: p) Hi ltac:(lia)) as [Hi2 Hc2].
  split_and!; [done..|cbn in *; lia|done].
Qed.

(** The exception that a failed call raises. *)
Definition call_failed (ios : list io) (x : exn) : Prop := x = system_error /\ Fail ∈ ios.

Lemma call_failed_tail ios x : call_failed (tail ios) x -> call_failed ios x.
Proof. intros [-> Hf]. split; [done|]. destruct ios; [done|by right]. Qed.

Lemma read_loop_ok fuel ios t to_read d h :
  file_ok t -> dyn_inv junk d h -> (to_read <= fuel)%nat -> (to_read <= tf_length t)%nat ->
  (d_used d + to_read <= d_capacity d)%nat ->
  wp (call_failed ios) (read_loop fuel ios t to_read d) (fun d' h' =>
    dyn_inv junk d' h' /\ contents d' = contents d ++ drop (tf_length t - to_read) (tf_data t)) h.
Proof.
  intros [_ Hl]. revert ios to_read d h.
  induction fuel as [|fuel IH]; intros ios [|m] d h Hi Hfuel Hle Hroom; try lia.
  1,2: apply wp_ret; split; [done|]; by rewrite drop_ge, app_nil_r by lia.
  cbn [read_loop]. set (m1 := S m) in *. set (count := io_count ios m1).
  assert (0 < count <= m1)%nat as Hc.
  { unfold count, io_count. destruct ios as [|[n|] ios]; lia. }
  assert (wp (call_failed ios) (let! nd := pread_consume t count (tf_length t - m1) d in
    if (fst nd =? 0)%nat then throw runtime_error
    else read_loop fuel (tail ios) t (m1 - fst nd) (snd nd)) (fun d' h' =>
    dyn_inv junk d' h' /\ contents d' = contents d ++ drop (tf_length t - m1) (tf_data t)) h) as Hgo.
  { apply wp_bind. eapply wp_mono; [eapply wp_exn_mono; [apply pread_ok; [done|lia..]|done]|].
    intros [n d1] h1 (Hn&Hi1&Hc1&Hu1&Hcap1). cbn [fst snd] in *. subst n.
    destruct (Nat.eqb_spec count 0); [lia|].
    eapply wp_mono; [eapply wp_exn_mono; [apply (IH (tail ios)); [done|lia..]|apply call_failed_tail]|].
    intros d2 h2 [Hi2 Hc2]. split; [done|].
    rewrite Hc2, Hc1, <- app_assoc. f_equal.
    replace (tf_length t - (m1 - count))%nat with (tf_length t - m1 + count)%nat by lia.
    by rewrite <- drop_drop, take_drop. }
  destruct ios as [|[n|] ios]; [exact Hgo|exact Hgo|]. apply wp_throw. split; [done|left].
Qed.

(** [read_contents] appends what the file holds, unless a call fails. *)
Lemma read_contents_ok ios t d h :
  file_ok t -> dyn_inv junk d h -> Z.of_nat (d_capacity d) + Z.of_nat (tf_length t) < 2 ^ 64 ->
  wp (call_failed ios) (read_contents ios t d) (fun d' h' =>
    dyn_inv junk d' h' /\ contents d' = contents d ++ tf_data t) h.
Proof.
  intros Ht Hd Hlt. unfold read_contents. apply wp_bind.
  eapply wp_mono; [by apply (prepare_ok junk Hjunk)|]. intros d1 h1 ((Hi1&Hc1&_)&Hu1&Hroom).
  eapply wp_mono; [apply read_loop_ok; try done; lia|]. intros d2 h2 [Hi2 Hc2]. split; [done|].
  by rewrite Hc2, Hc1, Nat.sub_diag, drop_0.
Qed.

(** ** The life of a temporary file *)

Inductive tf_op := TWrite (ios : list io) (p : bytes) | TClear.

Definition tf_step (o : tf_op) : M tempfile unit :=
  match o with TWrite ios p => write ios p | TClear => clear true true end.

(** What the operations leave in the file when no call fails. *)
Definition tf_spec (ops : list tf_op) : bytes :=
  fold_left (fun c o => match o with TWrite _ p => c ++ p | TClear => [] end) ops [].

Definition tf_smooth (o : tf_op) : Prop := match o with TWrite ios _ => Fail ∉ ios | TClear => True end.

Lemma tf_run_ok ops t :
  file_ok t -> Forall tf_smooth ops ->
  wp no_exn (iterM tf_step ops) (fun _ t' => file_ok t' /\
    tf_data t' = fold_left (fun c o => match o with TWrite _ p => c ++ p | TClear => [] end) ops (tf_data t)) t.
Proof.
  revert t. induction ops as [|o ops IH]; intros t Ht Hs; [by apply wp_ret|].
  apply Forall_cons in Hs as [Ho Hs]. cbn [iterM fold_left]. apply wp_bind. destruct o as [ios p|]; cbn [tf_step].
  - pose proof (write_ok ios p t Ht) as Hw. unfold wp at 1. destruct (write ios p t) as [[x|u] t1].
    { destruct Hw as (_&_&Hf&_). done. }
    destruct Hw as [Ht1 <-]. by apply IH.
  - apply wp_bind, wp_modify, wp_modify. by apply IH.
Qed.

(** A temporary file gives back what was put into it.  After any sequence of writes
    and clears whose system calls take any number of bytes at a time without failing, reading the
    file, again in pieces of any size, appends to a buffer exactly the bytes
    written since the last clear: no end of file is met early, nothing is written
    outside the buffer, and the loop ends. *)
Theorem tempfile_roundtrip ops ios d h :
  Forall tf_smooth ops -> Fail ∉ ios -> dyn_inv junk d h ->
  Z.of_nat (d_capacity d) + Z.of_nat (length (tf_spec ops)) < 2 ^ 64 ->
  exists t d' h', iterM tf_step ops tempfile_new = (inr tt, t) /\
    read_contents ios t d h = (inr d', h') /\ dyn_inv junk d' h' /\
    contents d' = contents d ++ tf_spec ops.
Proof.
  intros Hs Hio Hd Hlt. assert (file_ok tempfile_new) as H0 by (by split).
  pose proof (tf_run_ok ops tempfile_new H0 Hs) as Hrun. unfold wp in Hrun.
  destruct (iterM tf_step ops tempfile_new) as [[x|[]] t]; [done|]. destruct Hrun as [Ht Hdata].
  change (tf_data t = tf_spec ops) in Hdata. pose proof (fo_length _ Ht) as Hl.
  assert (wp no_exn (read_contents ios t d) (fun d' h' =>
    dyn_inv junk d' h' /\ contents d' = contents d ++ tf_spec ops) h) as Hread.
  { rewrite <- Hdata in *. eapply wp_exn_mono; [apply (read_contents_ok ios); try done; lia|]. by intros x []. }
  unfold wp in Hread. destruct (read_contents ios t d h) as [[x|d'] h'] eqn:Hr; [done|].
  destruct Hread. by exists t, d', h'.
Qed.
End reading.

(** A file written in three pieces, cleared in between, read in two. *)
Lemma tempfile_roundtrip_witness :
  let junk := fun _ n => replicate n xff in
  let ops := [TWrite [] (lit "old"); TClear; TWrite [Short 1; Short 0] (lit "hello"); TWrite [] (lit "!")] in
  Forall tf_smooth ops /\ tf_spec ops = lit "hello!" /\
  exists d h t d' h', dyn_inv junk d h /\ contents d = lit "> " /\
    iterM tf_step ops tempfile_new = (inr tt, t) /\
    read_contents junk [Short 2] t d h = (inr d', h') /\ contents d' = lit "> hello!".
Proof.
  intros junk ops. assert (forall k n, length (junk k n) = n) as Hj by (intros k n; apply length_replicate).
  assert (Forall tf_smooth ops) as Hs by (repeat constructor; cbn; set_solver).
  set (d := {| d_p := Some (lit "> "); d_default_capacity := 2; d_capacity := 2; d_erase := false; d_used := 2 |}).
  assert (dyn_inv junk d fresh_heap) as Hd by (split; [split; cbn; (done || lia)|by split]).
  destruct (tempfile_roundtrip junk Hj ops [Short 2] d fresh_heap Hs ltac:(set_solver) Hd ltac:(vm_compute; done))
    as (t&d'&h'&Hrun&Hread&_&Hc).
  split; [done|]. split; [reflexivity|]. exists d, fresh_heap, t, d', h'. split_and!; done.
Defined.
