(* ===== verification/DynbufFrame.v ===== *)
(** * Buffers beside other owners of memory

    The lemmas of Dynbuf speak of all the memory ever freed.  Here they are put in
    a form a client with several buffers can use: an operation on one buffer only
    adds to the freed blocks, what it does does not depend on the blocks freed
    before, and where the buffer erases, the blocks it adds hold no contents. *)

From S2P Require Import Prelude.
From S2P Require Import Dynbuf Tempfile.

(** The heap with some blocks freed earlier. *)
Definition freed_before (old : list bytes) (h : heap) : heap :=
  {| h_allocs := h_allocs h; h_freed := old ++ h_freed h |}.

Definition local {A} (m : M heap A) : Prop := forall old h,
  m (freed_before old h) = let (r, h') := m h in (r, freed_before old h').

Create HintDb local.

Lemma local_ret {A} (a : A) : local (ret a).
Proof. done. Qed.
Lemma local_throw {A} x : local (A := A) (throw x).
Proof. done. Qed.
Lemma local_allocs {A} (f : nat -> A) : local (gets (fun h => f (h_allocs h))).
Proof. done. Qed.
Lemma local_bind {A B} (m : M heap A) (k : A -> M heap B) :
  local m -> (forall a, local (k a)) -> local (bind m k).
Proof.
  intros Hm Hk old h. unfold bind. rewrite Hm. destruct (m h) as [[x|a] h']; [done|]. apply Hk.
Qed.
#[export] Hint Resolve local_ret local_throw : local.

(** One case distinction or binding at a time. *)
Ltac local :=
  repeat first
    [ progress intros
    | solve [auto with local]
    | match goal with
      | |- local (bind _ _) => apply local_bind
      | |- local (match ?x with _ => _ end) => destruct x
      | |- local (let _ := _ in _) => cbv zeta
      end ].

Section local.
Context (junk : nat -> nat -> bytes).

Lemma local_malloc n : local (malloc junk n).
Proof. by intros old h. Qed.
Lemma local_free p : local (free p).
Proof. destruct p as [b|]; [|done]. intros old h. cbn. unfold freed_before. cbn. by rewrite app_assoc. Qed.
Lemma local_store b off p : local (store b off p).
Proof. unfold store. local. Qed.
Lemma local_load b off n : local (load b off n).
Proof. unfold load, checked. local. Qed.
Hint Resolve local_malloc local_free local_store local_load : local.

Lemma local_clear b off n : local (clear_memory b off n).
Proof. apply local_store. Qed.
Hint Resolve local_clear : local.

Lemma local_new cap er : local (dynbuf_new junk cap er).
Proof. unfold dynbuf_new. local. Qed.
Lemma local_dtor d : local (dynbuf_dtor d).
Proof. unfold dynbuf_dtor. local. Qed.
Lemma local_enlarge n d : local (enlarge junk n d).
Proof. unfold enlarge, realloc. local. Qed.
Lemma local_reset d : local (reset junk d).
Proof. unfold reset. local. Qed.
Hint Resolve local_enlarge : local.
Lemma local_prepare n d : local (prepare junk n d).
Proof. unfold prepare. local. Qed.
Hint Resolve local_prepare : local.
Lemma local_append p d : local (append junk p d).
Proof. unfold append. local. Qed.
Lemma local_erase n d : local (erase junk n d).
Proof. pose proof local_reset. unfold erase. local. Qed.
Lemma local_fill n p d : local (fill junk n p d).
Proof. unfold fill. local. Qed.

Lemma local_read_loop fuel ios t n d : local (read_loop fuel ios t n d).
Proof.
  revert ios n d. induction fuel as [|fuel IH]; intros ios [|n] d; cbn [read_loop]; [local..|].
  unfold pread_consume. local; apply IH.
Qed.
Hint Resolve local_read_loop : local.
Lemma local_read_contents ios t d : local (read_contents junk ios t d).
Proof. unfold read_contents. local. Qed.

(** ** The lemmas of Dynbuf, for one buffer among others *)

Hypothesis Hjunk : forall k n, length (junk k n) = n.

Definition dyn_good (d : dynbuf) : Prop := dyn_ok d /\ clean junk d.

(** The blocks freed between [h] and [h']. *)
Definition frees_clean (er : bool) (h h' : heap) : Prop := exists new,
  h_freed h' = h_freed h ++ new /\ (er = true -> Forall (fun b => harmless junk b 0) new).

Lemma frees_clean_refl er h : frees_clean er h h.
Proof. exists []. by rewrite app_nil_r. Qed.

Lemma frees_clean_trans er h1 h2 h3 : frees_clean er h1 h2 -> frees_clean er h2 h3 -> frees_clean er h1 h3.
Proof.
  intros (n1&H1&F1) (n2&H2&F2). exists (n1 ++ n2). rewrite H2, H1, app_assoc. split; [done|].
  intros He. apply Forall_app. auto.
Qed.

Lemma wp_local {A} X (m : M heap A) (er : bool) (Q : A -> heap -> Prop) (R : A -> Prop) h :
  local m -> wp X m Q {| h_allocs := h_allocs h; h_freed := [] |} ->
  (forall a h', Q a h' -> R a /\ (er = true -> Forall (fun b => harmless junk b 0) (h_freed h'))) ->
  wp X m (fun a h' => R a /\ frees_clean er h h') h.
Proof.
  intros Hl Hw HR. unfold wp in *.
  pose proof (Hl (h_freed h) {| h_allocs := h_allocs h; h_freed := [] |}) as Hm.
  unfold freed_before in Hm at 1. cbn in Hm. rewrite app_nil_r in Hm. destruct h as [na fr]. cbn in *.
  rewrite Hm. destruct (m _) as [[x|a] h']; [done|].
  destruct (HR a h' Hw) as [Ha Hf]. split; [done|]. by exists (h_freed h').
Qed.

Lemma good_inv d h : dyn_good d -> h_freed h = [] -> dyn_inv junk d h.
Proof. intros [Hok Hc] Hf. split; [done|]. split; [done|]. intros _. by rewrite Hf. Qed.

Lemma good_new X cap er h :
  wp X (dynbuf_new junk cap er) (fun d h' => (dyn_good d /\ Dynbuf.contents d = [] /\
    d_default_capacity d = cap /\ d_erase d = er /\ d_capacity d = cap) /\ frees_clean er h h') h.
Proof.
  eapply wp_local; [apply local_new|by apply dynbuf_new_ok|].
  intros d h' ((Hok&Hc&Hf)&Hct&Hd&He&Hcap). split; [done|]. by rewrite <- He.
Qed.

Lemma good_post X (m : M heap dynbuf) d c grow h :
  local m -> dyn_good d -> (forall h', dyn_inv junk d h' -> wp X m (dyn_post junk d c grow) h') ->
  wp X m (fun d' h' => (dyn_good d' /\ Dynbuf.contents d' = c /\
    d_default_capacity d' = d_default_capacity d /\ d_erase d' = d_erase d /\
    (d_capacity d' <= Nat.max (d_capacity d) (d_default_capacity d) + grow)%nat) /\
    frees_clean (d_erase d) h h') h.
Proof.
  intros Hl Hg Hm. eapply wp_local; [done|by apply Hm, good_inv|].
  intros d' h' ((Hok&Hc&Hf)&Hct&Hd&He&Hcap). split; [done|]. by rewrite <- He.
Qed.

Lemma good_append X p d h :
  dyn_good d -> Z.of_nat (d_capacity d) + Z.of_nat (length p) < 2 ^ 64 ->
  wp X (append junk p d) (fun d' h' => (dyn_good d' /\ Dynbuf.contents d' = Dynbuf.contents d ++ p /\
    d_default_capacity d' = d_default_capacity d /\ d_erase d' = d_erase d /\
    (d_capacity d' <= Nat.max (d_capacity d) (d_default_capacity d) + length p)%nat) /\
    frees_clean (d_erase d) h h') h.
Proof. intros Hg Hlt. apply good_post; [apply local_append|done|]. intros h' Hi. by apply append_ok. Qed.

Lemma good_reset X d h :
  dyn_good d ->
  wp X (reset junk d) (fun d' h' => (dyn_good d' /\ Dynbuf.contents d' = [] /\
    d_default_capacity d' = d_default_capacity d /\ d_erase d' = d_erase d /\
    (d_capacity d' <= Nat.max (d_capacity d) (d_default_capacity d) + 0)%nat) /\
    frees_clean (d_erase d) h h') h.
Proof. intros Hg. apply good_post; [apply local_reset|done|]. intros h' Hi. by apply reset_ok. Qed.

Lemma good_erase X n d h :
  dyn_good d -> (n <= d_used d)%nat ->
  wp X (erase junk n d) (fun d' h' => (dyn_good d' /\ Dynbuf.contents d' = drop n (Dynbuf.contents d) /\
    d_default_capacity d' = d_default_capacity d /\ d_erase d' = d_erase d /\
    (d_capacity d' <= Nat.max (d_capacity d) (d_default_capacity d) + 0)%nat) /\
    frees_clean (d_erase d) h h') h.
Proof. intros Hg Hle. apply good_post; [apply local_erase|done|]. intros h' Hi. by apply erase_ok. Qed.

(** [reset] goes back to the default capacity. *)
Lemma reset_capacity d h d' h' : reset junk d h = (inr d', h') -> d_capacity d' = d_default_capacity d.
Proof.
  unfold reset. intros Hr. unfold bind at 1 in Hr. destruct (if _ && _ then _ else _) as [[x|p] h1]; [done|].
  cbn [d_default_capacity set_block d_capacity] in Hr.
  destruct (Nat.eqb_spec (d_default_capacity d) (d_capacity d)) as [Heq|Hne]; [by injection Hr as <- _|].
  unfold bind at 1 in Hr. destruct (if negb _ then _ else _) as [[x|q] h2]; [done|].
  unfold bind in Hr. destruct (free _ h2) as [[x|[]] h3]; [done|]. by injection Hr as <- _.
Qed.

Lemma good_dtor X d h :
  dyn_good d -> wp X (dynbuf_dtor d) (fun _ h' => True /\ frees_clean (d_erase d) h h') h.
Proof.
  intros Hg. eapply wp_local; [apply local_dtor|by apply (dynbuf_dtor_ok junk), good_inv|].
  intros u h' Hf. split; [done|]. exact Hf.
Qed.

(** Into room that is there already, [append] touches no other memory. *)
Lemma append_room p d h :
  dyn_ok d -> (d_used d + length p <= d_capacity d)%nat ->
  exists d', append junk p d h = (inr d', h) /\ dyn_ok d' /\
    Dynbuf.contents d' = Dynbuf.contents d ++ p /\ d_used d' = (d_used d + length p)%nat /\
    d_capacity d' = d_capacity d /\ d_default_capacity d' = d_default_capacity d /\
    d_erase d' = d_erase d.
Proof.
  intros Hok Hr. pose proof Hok as [Hn Hl Hu]. unfold append, prepare, freebytes, bind.
  destruct (Nat.ltb_spec (d_capacity d - d_used d) (length p)); [lia|]. cbn.
  destruct p as [|b p]; [exists d; rewrite app_nil_r; split_and!; (done || cbn; lia)|].
  unfold store. rewrite decide_True by lia. eexists. split; [reflexivity|].
  split; [split; cbn; [done|rewrite length_splice by (cbn in *; lia); done|cbn in *; lia]|].
  split; [|done]. unfold Dynbuf.contents at 1. cbn [set_block d_used block d_p default from_option id].
  by rewrite take_splice by lia.
Qed.

Lemma good_read X ios t d h :
  (forall x, call_failed ios x -> X x) ->
  file_ok t -> dyn_good d -> Z.of_nat (d_capacity d) + Z.of_nat (tf_length t) < 2 ^ 64 ->
  wp X (read_contents junk ios t d) (fun d' h' =>
    (dyn_good d' /\ Dynbuf.contents d' = Dynbuf.contents d ++ tf_data t) /\ frees_clean false h h') h.
Proof.
  intros HX Ht Hg Hlt. eapply wp_exn_mono; [|exact HX].
  eapply wp_local; [apply local_read_contents|apply (read_contents_ok junk Hjunk); [done|by apply good_inv|done]|].
  by intros d' h' ((Hok&Hc&Hf)&Hct).
Qed.
End local.
