(* ===== verification/ObjectStore.v ===== *)
(** * Objects on buffers and temporary files (src/memcache/object.hpp, object.cpp)

    MemObject keeps the value of an object as bytes.  Here the same operations work on
    what the source has: [m_data] is a dynamic buffer in allocated memory, [m_file] a
    temporary file whose system calls take as much as the kernel decides, or fail.
    Theorems: the operations refine those of MemObject, and where [secure_erase] is
    on no freed memory holds a value, unless [prepend] was used or a value was read from its file.

    An exception that leaves an operation ends the process (thread_base::run_in_try),
    so that the destructors of local buffers are modelled on normal return only. *)

From S2P Require Import Prelude CLib MemTypes MemState MemObject MemObjectSpec.
From S2P Require Import Dynbuf Tempfile DynbufFrame.

Record cobject := {
  co_length : Z;
  co_data : dynbuf;
  co_file : option tempfile;
  co_flags : Z;
  co_exptime : Z;
  co_cas : Z;
  co_gc_old : Z;
  co_lock : Z
}.

(** Memory, the object and what the kernel will answer: one list of answers for each
    operation on the file. *)
Record ostore := { s_heap : heap; s_obj : cobject; s_io : list (list io) }.

(** Assignments to the members. *)
Definition co_set_length (n : Z) (c : cobject) : cobject :=
  {| co_length := n; co_data := co_data c; co_file := co_file c; co_flags := co_flags c;
     co_exptime := co_exptime c; co_cas := co_cas c; co_gc_old := co_gc_old c; co_lock := co_lock c |}.
Definition co_set_data (d : dynbuf) (c : cobject) : cobject :=
  {| co_length := co_length c; co_data := d; co_file := co_file c; co_flags := co_flags c;
     co_exptime := co_exptime c; co_cas := co_cas c; co_gc_old := co_gc_old c; co_lock := co_lock c |}.
Definition co_set_file (f : option tempfile) (c : cobject) : cobject :=
  {| co_length := co_length c; co_data := co_data c; co_file := f; co_flags := co_flags c;
     co_exptime := co_exptime c; co_cas := co_cas c; co_gc_old := co_gc_old c; co_lock := co_lock c |}.
Definition co_set_meta (fl ex : Z) (c : cobject) : cobject :=
  {| co_length := co_length c; co_data := co_data c; co_file := co_file c; co_flags := fl;
     co_exptime := ex; co_cas := co_cas c; co_gc_old := co_gc_old c; co_lock := co_lock c |}.
Definition co_set_age (n : Z) (c : cobject) : cobject :=
  {| co_length := co_length c; co_data := co_data c; co_file := co_file c; co_flags := co_flags c;
     co_exptime := co_exptime c; co_cas := co_cas c; co_gc_old := n; co_lock := co_lock c |}.
(** [++ m_cas; m_gc_old = 0;]. *)
Definition co_modified (c : cobject) : cobject :=
  {| co_length := co_length c; co_data := co_data c; co_file := co_file c; co_flags := co_flags c;
     co_exptime := co_exptime c; co_cas := incr64 (co_cas c); co_gc_old := 0; co_lock := co_lock c |}.

(** ** Effects on the store *)

Definition set_s_heap (h : heap) (s : ostore) : ostore := {| s_heap := h; s_obj := s_obj s; s_io := s_io s |}.
Definition upd_obj (f : cobject -> cobject) (s : ostore) : ostore :=
  {| s_heap := s_heap s; s_obj := f (s_obj s); s_io := s_io s |}.

Definition assign (f : cobject -> cobject) : M ostore unit := modify (upd_obj f).
Definition member {A} (f : cobject -> A) : M ostore A := gets (fun s => f (s_obj s)).

(** Code that works on memory only. *)
Definition in_heap {A} (m : M heap A) : M ostore A := fun s =>
  let (r, h) := m (s_heap s) in (r, set_s_heap h s).

(** A method of [m_data]. *)
Definition on_data (f : dynbuf -> M heap dynbuf) : M ostore unit :=
  let! d := member co_data in
  let! d := in_heap (f d) in
  assign (co_set_data d).

(** The answers to the next operation on a file. *)
Definition next_io : M ostore (list io) := fun s =>
  (inr (default [] (head (s_io s))), {| s_heap := s_heap s; s_obj := s_obj s; s_io := tail (s_io s) |}).

(** A method of [*m_file]; dereferencing a null pointer is not defined. *)
Definition on_file (f : list io -> M tempfile unit) : M ostore unit :=
  let! ios := next_io in
  fun s => match co_file (s_obj s) with
  | None => (inl bad_read, s)
  | Some t => let (r, t') := f ios t in (r, upd_obj (co_set_file (Some t')) s)
  end.

(** The kernel's answer to the [k]-th call of an operation that is not a loop. *)
Definition answer (k : nat) (ios : list io) : bool :=
  match ios !! k with Some Fail => false | _ => true end.

(** [m_file = std::unique_ptr<tempfile>(new tempfile)]: [mkostemp] may fail. *)
Definition new_file : M ostore unit :=
  let! ios := next_io in
  if answer 0 ios then assign (co_set_file (Some tempfile_new)) else throw system_error.

Definition file_write (p : bytes) : M ostore unit := on_file (fun ios => write ios p).
Definition file_clear : M ostore unit := on_file (fun ios => clear (answer 0 ios) (answer 1 ios)).

Section store.
Context (cfg : mem_config) (junk : nat -> nat -> bytes).

Definition data_append (p : bytes) : M ostore unit := on_data (append junk p).
Definition data_reset : M ostore unit := on_data (reset junk).
(** [n] bytes from [m_data.data()]. *)
Definition data_read (n : Z) : M ostore bytes :=
  let! d := member co_data in
  in_heap (load (block d) 0 (Z.to_nat n)).

(** [m_file->read_contents(buf)]. *)
Definition file_read (buf : dynbuf) : M ostore dynbuf :=
  let! ios := next_io in
  let! f := member co_file in
  match f with
  | None => throw bad_read
  | Some t => in_heap (read_contents junk ios t buf)
  end.

(** ** The operations *)

(** The members as the constructors initialise them. *)
Definition co_init (len : Z) (d : dynbuf) (fl ex : Z) : cobject :=
  {| co_length := len; co_data := d; co_file := None; co_flags := fl; co_exptime := ex;
     co_cas := 1; co_gc_old := 0; co_lock := -1 |}.

(** [object(p, len, flags, exptime)]. *)
Definition co_new (p : bytes) (fl ex : Z) : M ostore unit :=
  let! d := in_heap (dynbuf_new junk 0 (c_secure_erase cfg)) in
  assign (fun _ => co_init (blen p) d fl ex) ;;!
  if blen p >? heap_data_limit cfg then
    new_file ;;!
    file_write p
  else when (blen p >? 0) (data_append p).

(** [object(initial, exptime)]. *)
Definition co_number (initial ex : Z) : M ostore unit :=
  let! d := in_heap (dynbuf_new junk 24 (c_secure_erase cfg)) in
  assign (fun _ => co_init 0 d 0 ex) ;;!
  let s := to_string initial in
  assign (co_set_length (blen s)) ;;!
  data_append s.

(** [object::set]. *)
Definition co_set (p : bytes) (fl ex : Z) : M ostore unit :=
  assign (co_set_meta fl ex) ;;!
  assign co_modified ;;!
  data_reset ;;!
  (if blen p >? heap_data_limit cfg then
     let! f := member co_file in
     (match f with
      | None => new_file
      | Some _ => file_clear
      end) ;;!
     file_write p
   else
     assign (co_set_file None) ;;!
     when (blen p >? 0) (data_append p)) ;;!
  assign (co_set_length (blen p)).

(** [object::append]. *)
Definition co_append (p : bytes) : M ostore unit :=
  assign co_modified ;;!
  if blen p =? 0 then ret tt else
  let! len := member co_length in
  let new_size := len + blen p in
  (if new_size >? heap_data_limit cfg then
     let! f := member co_file in
     match f with
     | None =>
         new_file ;;!
         when (len >? 0) (let! b := data_read len in file_write b) ;;!
         data_reset ;;!
         file_write p
     | Some _ => file_write p
     end
   else data_append p) ;;!
  assign (co_set_length new_size).

(** [object::prepend]: the local buffer is made without the erase flag. *)
Definition co_prepend (p : bytes) : M ostore unit :=
  assign co_modified ;;!
  if blen p =? 0 then ret tt else
  let! len := member co_length in
  let new_size := len + blen p in
  (if new_size >? heap_data_limit cfg then
     let! f := member co_file in
     match f with
     | None =>
         new_file ;;!
         file_write p ;;!
         when (len >? 0) (let! b := data_read len in file_write b) ;;!
         data_reset
     | Some _ =>
         let! buf := in_heap (dynbuf_new junk (Z.to_nat new_size) false) in
         let! buf := in_heap (append junk p buf) in
         let! buf := file_read buf in
         file_clear ;;!
         let! b := in_heap (load (block buf) 0 (Z.to_nat new_size)) in
         file_write b ;;!
         in_heap (dynbuf_dtor buf)
     end
   else
     let! buf := in_heap (dynbuf_new junk (Z.to_nat new_size) false) in
     let! buf := in_heap (append junk p buf) in
     let! b := data_read len in
     let! buf := in_heap (append junk b buf) in
     let! d := member co_data in
     let (d, buf) := swap d buf in
     assign (co_set_data d) ;;!
     in_heap (dynbuf_dtor buf)) ;;!
  assign (co_set_length new_size).

(** The number at the start of [incr] and [decr]. *)
Definition co_value : M ostore Z :=
  let! f := member co_file in
  match f with
  | Some _ => throw not_a_number
  | None =>
      let! len := member co_length in
      let! b := data_read len in
      match to_uint64 b with None => throw not_a_number | Some v => ret v end
  end.

(** What [incr] and [decr] do with the result. *)
Definition co_store_number (v : Z) : M ostore Z :=
  let s := to_string v in
  assign (co_set_length (blen s)) ;;!
  data_reset ;;!
  data_append s ;;!
  assign co_modified ;;!
  ret v.

(** [object::incr]. *)
Definition co_incr (n : Z) : M ostore Z :=
  let! v := co_value in
  co_store_number (u64 (v + n)).

(** [object::decr]. *)
Definition co_decr (n : Z) : M ostore Z :=
  let! v := co_value in
  co_store_number (if v <? n then 0 else v - n).

(** [object::touch]. *)
Definition co_touch (ex : Z) : M ostore unit :=
  let! fl := member co_flags in
  assign (co_set_meta fl ex) ;;!
  assign (co_set_age 0).

(** [object::data]: the contents of the buffer referred to, and [buf]. *)
Definition co_get_data (buf : dynbuf) : M ostore (bytes * dynbuf) :=
  assign (co_set_age 0) ;;!
  let! f := member co_file in
  match f with
  | None => let! d := member co_data in ret (Dynbuf.contents d, buf)
  | Some _ =>
      let! buf := in_heap (reset junk buf) in
      let! buf := file_read buf in
      ret (Dynbuf.contents buf, buf)
  end.

(** [object::size]. *)
Definition co_size : M ostore Z :=
  let! f := member co_file in
  match f with
  | None => let! d := member co_data in ret (Z.of_nat (d_used d))
  | Some t => ret (Z.of_nat (tf_length t))
  end.

(** [cybozu::dynbuf buf(0); ... obj.data(buf) ...], as the commands and the
    replication read an object. *)
Definition co_read : M ostore bytes :=
  let! buf := in_heap (dynbuf_new junk 0 false) in
  let! r := co_get_data buf in
  in_heap (dynbuf_dtor (snd r)) ;;!
  ret (fst r).

(** The destructor. *)
Definition co_dtor : M ostore unit :=
  let! d := member co_data in
  in_heap (dynbuf_dtor d).


(** ** The life of an object *)

Inductive oinit := INew (p : bytes) (fl ex : Z) | INumber (v ex : Z).
Inductive oop :=
| OSet (p : bytes) (fl ex : Z) | OAppend (p : bytes) | OPrepend (p : bytes)
| OIncr (n : Z) | ODecr (n : Z) | OTouch (ex : Z) | ORead | OSize.
Inductive ores := RUnit | RNumber (v : Z) | RNotANumber | RBytes (b : bytes) | RSize (n : Z).

Definition co_create (i : oinit) : M ostore unit :=
  match i with INew p fl ex => co_new p fl ex | INumber v ex => co_number v ex end.

(** The commands catch [not_a_number]. *)
Definition co_step (op : oop) : M ostore ores :=
  match op with
  | OSet p fl ex => co_set p fl ex ;;! ret RUnit
  | OAppend p => co_append p ;;! ret RUnit
  | OPrepend p => co_prepend p ;;! ret RUnit
  | OIncr n => catch (let! v := co_incr n in ret (RNumber v)) not_a_number (ret RNotANumber)
  | ODecr n => catch (let! v := co_decr n in ret (RNumber v)) not_a_number (ret RNotANumber)
  | OTouch ex => co_touch ex ;;! ret RUnit
  | ORead => let! b := co_read in ret (RBytes b)
  | OSize => let! n := co_size in ret (RSize n)
  end.

Fixpoint co_run (ops : list oop) : M ostore (list ores) :=
  match ops with
  | [] => ret []
  | op :: ops => let! r := co_step op in let! rs := co_run ops in ret (r :: rs)
  end.

Definition object_life (i : oinit) (ops : list oop) : M ostore (list ores) :=
  co_create i ;;!
  let! rs := co_run ops in
  co_dtor ;;!
  ret rs.

End store.

(** The same life in MemObject. *)
Section abstract.
Context (cfg : mem_config).

Definition abs_create (i : oinit) : object :=
  match i with INew p fl ex => object_new cfg p fl ex | INumber v ex => object_number v ex end.

Definition abs_number (r : option (Z * object)) (o : object) : ores * object :=
  match r with Some (v, o') => (RNumber v, o') | None => (RNotANumber, o) end.

Definition abs_step (op : oop) (o : object) : ores * object :=
  match op with
  | OSet p fl ex => (RUnit, object_set cfg p fl ex o)
  | OAppend p => (RUnit, object_append cfg p o)
  | OPrepend p => (RUnit, object_prepend cfg p o)
  | OIncr n => abs_number (object_incr n o) o
  | ODecr n => abs_number (object_decr n o) o
  | OTouch ex => (RUnit, object_touch ex o)
  | ORead => (RBytes (object_data o).1, (object_data o).2)
  | OSize => (RSize (object_size o), o)
  end.

Fixpoint abs_run (ops : list oop) (o : object) : list ores :=
  match ops with
  | [] => []
  | op :: ops => let (r, o') := abs_step op o in r :: abs_run ops o'
  end.

(** The object after them. *)
Fixpoint abs_after (ops : list oop) (o : object) : object :=
  match ops with
  | [] => o
  | op :: ops => abs_after ops (abs_step op o).2
  end.

Definition abstract_life (i : oinit) (ops : list oop) : list ores := abs_run ops (abs_create i).
End abstract.

(** The arguments have their widths. *)
Definition init_legal (i : oinit) : Prop :=
  match i with INew _ fl _ => 0 <= fl < 2 ^ 32 | INumber v _ => 0 <= v < 2 ^ 64 end.
Definition oop_legal (op : oop) : Prop :=
  match op with OSet _ fl _ => 0 <= fl < 2 ^ 32 | OIncr n | ODecr n => 0 <= n < 2 ^ 64 | _ => True end.

(** How much memory a step may add. *)
Definition init_space (i : oinit) : nat := match i with INew p _ _ => 24 + length p | INumber _ _ => 48 end.
Definition oop_space (op : oop) : nat :=
  match op with
  | OSet p _ _ | OAppend p | OPrepend p => length p
  | OIncr _ | ODecr _ => 24
  | _ => 0
  end.
Definition life_space (i : oinit) (ops : list oop) : nat := init_space i + sum_list_with oop_space ops.

(** Operations that give memory with a value in it back without the erase flag: [prepend],
    and reading a value that is in a file. *)
Definition leaky (op : oop) (o : object) : bool :=
  match op with
  | OPrepend p => negb (blen p =? 0)
  | ORead => bool_decide (is_Some (o_file o))
  | _ => false
  end.
Fixpoint leak_free (cfg : mem_config) (ops : list oop) (o : object) : bool :=
  match ops with
  | [] => true
  | op :: ops => negb (leaky op o) && leak_free cfg ops (abs_step cfg op o).2
  end.
