(* ===== verification/ObjectStoreSpec.v ===== *)
(** * The stored objects refine the abstract ones

    A small program logic for the operations of ObjectStore, the relation between a
    stored object and one of MemObject, and the simulation: whatever sequence of operations a
    client makes, the results are those of MemObject, or a system call has failed. *)

From S2P Require Import Prelude CLib MemTypes MemState MemObject MemObjectSpec.
From S2P Require Import Dynbuf Tempfile DynbufFrame ObjectStore.

Section logic.
Context (junk : nat -> nat -> bytes) (Hjunk : forall k n, length (junk k n) = n).
(** All the answers of the kernel, and whether freed memory must be clean. *)
Context (IO : list (list io)) (cl : bool).

(** The only exception of an operation that is not part of its contract. *)
Definition io_error (x : exn) : Prop := x = system_error /\ exists ios, ios ∈ IO /\ Fail ∈ ios.

(** Weakest preconditions on the object alone. *)
Definition owp {A} (X : exn -> Prop) (m : M ostore A) (Q : A -> cobject -> Prop) (c : cobject) : Prop :=
  forall s, s_obj s = c -> s_io s ⊆ IO ->
  wp X m (fun a s' => Q a (s_obj s') /\ s_io s' ⊆ IO /\ frees_clean junk cl (s_heap s) (s_heap s')) s.

Section rules.
Context (X : exn -> Prop) (HX : forall x, io_error x -> X x).

Lemma owp_ret {A} (a : A) (Q : A -> cobject -> Prop) c : Q a c -> owp X (ret a) Q c.
Proof. intros HQ s <- Hs. apply wp_ret. split_and!; [done..|apply frees_clean_refl]. Qed.

Lemma owp_throw {A} x (Q : A -> cobject -> Prop) c : X x -> owp X (throw x) Q c.
Proof. intros Hx s _ _. by apply wp_throw. Qed.

Lemma owp_bind {A B} (m : M ostore A) (k : A -> M ostore B) Q c :
  owp X m (fun a c' => owp X (k a) Q c') c -> owp X (bind m k) Q c.
Proof.
  intros Hm s Hc Hs. apply wp_bind. eapply wp_mono; [by apply Hm|].
  intros a s1 (Hk&Hs1&Hf1). eapply wp_mono; [by apply Hk|].
  intros b s2 (HQ&Hs2&Hf2). split_and!; [done..|]. by eapply frees_clean_trans.
Qed.

Lemma owp_mono {A} (m : M ostore A) (P Q : A -> cobject -> Prop) c :
  owp X m P c -> (forall a c', P a c' -> Q a c') -> owp X m Q c.
Proof. intros Hm HPQ s Hc Hs. eapply wp_mono; [by apply Hm|]. intros a s' (HP&?&?). by split; [apply HPQ|]. Qed.

Lemma owp_assign f (Q : unit -> cobject -> Prop) c : Q tt (f c) -> owp X (assign f) Q c.
Proof. intros HQ s <- Hs. apply wp_modify. split_and!; [done..|apply frees_clean_refl]. Qed.

Lemma owp_member {A} (f : cobject -> A) (Q : A -> cobject -> Prop) c : Q (f c) c -> owp X (member f) Q c.
Proof. intros HQ s <- Hs. apply wp_gets. split_and!; [done..|apply frees_clean_refl]. Qed.

Lemma owp_when (b : bool) m (Q : unit -> cobject -> Prop) c :
  (b = true -> owp X m Q c) -> (b = false -> Q tt c) -> owp X (when b m) Q c.
Proof. destruct b; intros Ht Hf; [by apply Ht|by apply owp_ret, Hf]. Qed.

Lemma owp_in_heap {A} (er : bool) (R : A -> Prop) (m : M heap A) (Q : A -> cobject -> Prop) c :
  (forall h, wp X m (fun a h' => R a /\ frees_clean junk er h h') h) ->
  (cl = true -> er = true) -> (forall a, R a -> Q a c) -> owp X (in_heap m) Q c.
Proof.
  intros Hm He HR s <- Hs. specialize (Hm (s_heap s)). unfold wp, in_heap in *.
  destruct (m (s_heap s)) as [[x|a] h']; [done|]. destruct Hm as [Ha (new&Hn&Hf)].
  split_and!; [by apply HR|done|]. exists new. auto.
Qed.

Lemma owp_pure {A} (m : M heap A) a (Q : A -> cobject -> Prop) c :
  (forall h, m h = (inr a, h)) -> Q a c -> owp X (in_heap m) Q c.
Proof.
  intros Hm HQ. apply (owp_in_heap true (fun b => b = a)); [|done|by intros ? ->].
  intros h. unfold wp. rewrite Hm. split; [done|apply frees_clean_refl].
Qed.

Lemma owp_next_io (Q : list io -> cobject -> Prop) c :
  (forall ios, (forall x, call_failed ios x -> X x) -> Q ios c) -> owp X next_io Q c.
Proof.
  intros HQ s <- Hs. unfold next_io, wp.
  assert (forall x, call_failed (default [] (head (s_io s))) x -> X x) as Hio.
  { intros x [-> Hf]. apply HX. split; [done|]. destruct (s_io s) as [|ios l]; [by apply elem_of_nil in Hf|].
    exists ios. split; [apply Hs; left|done]. }
  split_and!; [by apply HQ| |apply frees_clean_refl]. cbn. destruct (s_io s); [done|set_solver].
Qed.

Lemma answer_fails k ios : answer k ios = false -> Fail ∈ ios.
Proof. unfold answer. destruct (ios !! k) as [[n|]|] eqn:E; try done. intros _. by apply list_elem_of_lookup_2 in E. Qed.

Lemma owp_new_file (Q : unit -> cobject -> Prop) c :
  Q tt (co_set_file (Some tempfile_new) c) -> owp X new_file Q c.
Proof.
  intros HQ. apply owp_bind, owp_next_io. intros ios Hio. destruct (answer 0 ios) eqn:Ha.
  - by apply owp_assign.
  - apply owp_throw, Hio. split; [done|]. by eapply answer_fails.
Qed.

Lemma owp_on_file (f : list io -> M tempfile unit) t (Q : unit -> cobject -> Prop) c :
  co_file c = Some t ->
  (forall ios, wp (call_failed ios) (f ios) (fun _ t' => Q tt (co_set_file (Some t') c)) t) ->
  owp X (on_file f) Q c.
Proof.
  intros Ht Hf. apply owp_bind, owp_next_io. intros ios Hio s <- Hs. specialize (Hf ios).
  unfold wp in *. rewrite Ht. destruct (f ios t) as [[x|[]] t'].
  - by apply Hio.
  - split_and!; [done..|apply frees_clean_refl].
Qed.

Lemma owp_write p t (Q : unit -> cobject -> Prop) c :
  co_file c = Some t -> file_ok t ->
  (forall t', file_ok t' -> tf_data t' = tf_data t ++ p -> Q tt (co_set_file (Some t') c)) ->
  owp X (file_write p) Q c.
Proof.
  intros Ht Hok HQ. apply (owp_on_file _ t); [done|]. intros ios.
  pose proof (write_ok ios p t Hok) as Hw. unfold wp. destruct (write ios p t) as [[x|[]] t'].
  - destruct Hw as (_&->&Hf&_). by split.
  - destruct Hw as [Hok' Hd]. by apply HQ.
Qed.

Lemma owp_clear t (Q : unit -> cobject -> Prop) c :
  co_file c = Some t ->
  (forall t', file_ok t' -> tf_data t' = [] -> Q tt (co_set_file (Some t') c)) ->
  owp X file_clear Q c.
Proof.
  intros Ht HQ. apply (owp_on_file _ t); [done|]. intros ios. unfold clear.
  destruct (answer 0 ios) eqn:H0; [|apply wp_throw; split; [done|by eapply answer_fails]].
  apply wp_bind, wp_modify. destruct (answer 1 ios) eqn:H1; [|apply wp_throw; split; [done|by eapply answer_fails]].
  apply wp_modify. by apply HQ.
Qed.

(** [m_data]: where freed memory must be clean it erases. *)
Lemma owp_data_append p (Q : unit -> cobject -> Prop) c :
  dyn_good junk (co_data c) -> Z.of_nat (d_capacity (co_data c)) + Z.of_nat (length p) < 2 ^ 64 ->
  (cl = true -> d_erase (co_data c) = true) ->
  (forall d, dyn_good junk d -> Dynbuf.contents d = Dynbuf.contents (co_data c) ++ p ->
     d_default_capacity d = d_default_capacity (co_data c) -> d_erase d = d_erase (co_data c) ->
     (d_capacity d <= Nat.max (d_capacity (co_data c)) (d_default_capacity (co_data c)) + length p)%nat ->
     Q tt (co_set_data d c)) ->
  owp X (data_append junk p) Q c.
Proof.
  intros Hg Hlt He HQ. apply owp_bind, owp_member, owp_bind.
  eapply owp_in_heap; [intros h; by apply (good_append junk Hjunk)|done|].
  intros d (?&?&?&?&?). by apply owp_assign, HQ.
Qed.

Lemma owp_data_reset (Q : unit -> cobject -> Prop) c :
  dyn_good junk (co_data c) -> (cl = true -> d_erase (co_data c) = true) ->
  (forall d, dyn_good junk d -> Dynbuf.contents d = [] ->
     d_default_capacity d = d_default_capacity (co_data c) -> d_erase d = d_erase (co_data c) ->
     (d_capacity d <= Nat.max (d_capacity (co_data c)) (d_default_capacity (co_data c)) + 0)%nat ->
     Q tt (co_set_data d c)) ->
  owp X (data_reset junk) Q c.
Proof.
  intros Hg He HQ. apply owp_bind, owp_member, owp_bind.
  eapply owp_in_heap; [intros h; by apply (good_reset junk Hjunk)|done|].
  intros d (?&?&?&?&?). by apply owp_assign, HQ.
Qed.

Lemma load_contents d n h :
  dyn_ok d -> n = Z.of_nat (d_used d) -> load (block d) 0 (Z.to_nat n) h = (inr (Dynbuf.contents d), h).
Proof. intros [_ Hl Hu] ->. unfold load, read_n. by rewrite Nat2Z.id, decide_True by lia. Qed.

Lemma owp_data_read n (Q : bytes -> cobject -> Prop) c :
  dyn_ok (co_data c) -> n = Z.of_nat (d_used (co_data c)) ->
  Q (Dynbuf.contents (co_data c)) c -> owp X (data_read n) Q c.
Proof.
  intros Hok Hn HQ. apply owp_bind, owp_member.
  apply (owp_pure _ (Dynbuf.contents (co_data c))); [|done]. intros h. by apply load_contents.
Qed.

Lemma owp_file_read buf t (Q : dynbuf -> cobject -> Prop) c :
  co_file c = Some t -> file_ok t -> dyn_good junk buf -> cl = false ->
  Z.of_nat (d_capacity buf) + Z.of_nat (tf_length t) < 2 ^ 64 ->
  (forall d, dyn_good junk d -> Dynbuf.contents d = Dynbuf.contents buf ++ tf_data t -> Q d c) ->
  owp X (file_read junk buf) Q c.
Proof.
  intros Ht Hok Hg Hcl Hlt HQ. apply owp_bind, owp_next_io. intros ios Hio. apply owp_bind, owp_member.
  rewrite Ht. eapply owp_in_heap; [intros h; by apply (good_read junk Hjunk)|by rewrite Hcl|].
  intros d []. by apply HQ.
Qed.

(** Local buffers do not erase. *)
Lemma owp_local_new n (Q : dynbuf -> cobject -> Prop) c :
  (forall d, dyn_ok d -> Dynbuf.contents d = [] -> d_capacity d = n -> d_used d = 0%nat ->
     d_erase d = false -> d_default_capacity d = n -> Q d c) ->
  owp X (in_heap (dynbuf_new junk n false)) Q c.
Proof.
  intros HQ. eapply (owp_in_heap true (fun d => dyn_ok d /\ Dynbuf.contents d = [] /\ d_capacity d = n /\
    d_used d = 0%nat /\ d_erase d = false /\ d_default_capacity d = n)); [|done|].
  - intros h. unfold dynbuf_new. destruct (Nat.eqb_spec n 0) as [-> |Hn].
    + apply wp_bind, wp_ret, wp_ret. split; [by split_and!|apply frees_clean_refl].
    + apply wp_bind, wp_bind, wp_malloc. intros k h' Hh'. do 2 apply wp_ret. split.
      * split_and!; try done. split; cbn; [done|apply Hjunk|lia].
      * exists []. by rewrite Hh', app_nil_r.
  - intros d (?&?&?&?&?&?). by apply HQ.
Qed.

Lemma owp_local_append p d (Q : dynbuf -> cobject -> Prop) c :
  dyn_ok d -> (d_used d + length p <= d_capacity d)%nat ->
  (forall d', dyn_ok d' -> Dynbuf.contents d' = Dynbuf.contents d ++ p ->
     d_used d' = (d_used d + length p)%nat -> d_capacity d' = d_capacity d -> d_erase d' = d_erase d ->
     Q d' c) ->
  owp X (in_heap (append junk p d)) Q c.
Proof.
  intros Hok Hr HQ. eapply (owp_in_heap true (fun d' => dyn_ok d' /\ Dynbuf.contents d' = Dynbuf.contents d ++ p /\
    d_used d' = (d_used d + length p)%nat /\ d_capacity d' = d_capacity d /\ d_erase d' = d_erase d)); [|done|].
  - intros h. destruct (append_room junk p d h Hok Hr) as (d'&Ha&?&?&?&?&?&?). unfold wp. rewrite Ha.
    split; [done|apply frees_clean_refl].
  - intros d' (?&?&?&?&?). by apply HQ.
Qed.

Lemma owp_local_dtor d (Q : unit -> cobject -> Prop) c :
  dyn_good junk d -> (cl = true -> d_erase d = true) -> Q tt c -> owp X (in_heap (dynbuf_dtor d)) Q c.
Proof.
  intros Hg He HQ. eapply owp_in_heap; [intros h; by apply (good_dtor junk)|done|]. by intros [].
Qed.
End rules.

(** ** The relation to an object of MemObject *)

Context (cfg : mem_config).
Hypothesis Hcl : cl = true -> c_secure_erase cfg = true.

Definition file_repr (t : option tempfile) (f : option bytes) : Prop :=
  match t, f with
  | Some t, Some f => file_ok t /\ tf_data t = f
  | None, None => True
  | _, _ => False
  end.

(** [bound] limits the memory and the file used so far. *)
Record repr (bound : nat) (c : cobject) (o : object) : Prop := {
  r_inv : object_inv cfg o;
  r_good : dyn_good junk (co_data c);
  r_data : Dynbuf.contents (co_data c) = o_data o;
  r_file : file_repr (co_file c) (o_file o);
  r_length : co_length c = o_length o;
  r_flags : co_flags c = o_flags o;
  r_exptime : co_exptime c = o_exptime o;
  r_cas : co_cas c = o_cas o;
  r_age : co_gc_old c = o_gc_old o;
  r_lock : co_lock c = o_lock o;
  r_erase : d_erase (co_data c) = c_secure_erase cfg;
  r_cap : (Nat.max (d_capacity (co_data c)) (d_default_capacity (co_data c)) <= bound)%nat;
  r_bound : o_length o <= Z.of_nat bound
}.

Lemma repr_erase b c o : repr b c o -> cl = true -> d_erase (co_data c) = true.
Proof. intros Hr Hc. rewrite (r_erase _ _ _ Hr). by apply Hcl. Qed.

Lemma repr_file b c o f : repr b c o -> o_file o = Some f ->
  exists t, co_file c = Some t /\ file_ok t /\ tf_data t = f /\ Z.of_nat (tf_length t) = o_length o.
Proof.
  intros Hr Hf. pose proof (r_file _ _ _ Hr) as Ht. rewrite Hf in Ht. destruct (co_file c) as [t|]; [|done].
  destruct Ht as [Hok Hd]. exists t. split_and!; try done. rewrite (fo_length _ Hok), Hd.
  rewrite (oi_length _ _ (r_inv _ _ _ Hr)). unfold MemObjectSpec.contents, object_data. by rewrite Hf.
Qed.

Lemma repr_nofile b c o : repr b c o -> o_file o = None ->
  co_file c = None /\ co_length c = Z.of_nat (d_used (co_data c)) /\ o_length o = blen (o_data o) /\
  Dynbuf.contents (co_data c) = o_data o.
Proof.
  intros Hr Hf. pose proof (r_file _ _ _ Hr) as Ht. rewrite Hf in Ht. destruct (co_file c) as [t|]; [done|].
  destruct (inv_take cfg o (r_inv _ _ _ Hr) Hf) as [_ Hl]. split_and!; [done| |done|apply (r_data _ _ _ Hr)].
  rewrite (r_length _ _ _ Hr), <- Hl. unfold blen. rewrite <- (r_data _ _ _ Hr).
  by rewrite (dyn_contents_length _ (proj1 (r_good _ _ _ Hr))).
Qed.

Section ops.
Context (X : exn -> Prop) (HX : forall x, io_error x -> X x).

Lemma file_fresh : file_ok tempfile_new.
Proof. by split. Qed.

Lemma blen_nonpos p : blen p <= 0 -> p = [].
Proof. destruct p; [done|]. unfold blen. cbn. lia. Qed.

(** A value put into an emptied object: what the constructor and [set] have in common. *)
Lemma put_ok p c b o (Q : unit -> cobject -> Prop) :
  dyn_good junk (co_data c) -> Dynbuf.contents (co_data c) = [] -> d_erase (co_data c) = c_secure_erase cfg ->
  (Nat.max (d_capacity (co_data c)) (d_default_capacity (co_data c)) <= b)%nat ->
  Z.of_nat b + blen p < 2 ^ 64 ->
  object_inv cfg o -> o_length o = blen p -> o_file o = None -> o_data o = p -> co_file c = None ->
  co_flags c = o_flags o -> co_exptime c = o_exptime o ->
  co_cas c = o_cas o -> co_gc_old c = o_gc_old o -> co_lock c = o_lock o ->
  (forall c', co_length c' = co_length c -> repr (b + length p) (co_set_length (blen p) c') o -> Q tt c') ->
  owp X (when (blen p >? 0) (data_append junk p)) Q c.
Proof.
  intros Hg Hct He Hcap Hlt Hi Hol Hof Hod Hf Hfl Hex Hca Hag Hlo HQ. apply owp_when.
  - intros _. apply owp_data_append; [done|unfold blen in *; lia|rewrite He; exact Hcl|].
    intros d Hd Hdc Hdd Hde Hdcap. apply HQ; [done|]. split; cbn; try done; try congruence.
    + by rewrite Hdc, Hct, Hod.
    + by rewrite Hf, Hof.
    + lia.
    + rewrite Hol. unfold blen. lia.
  - intros Hz. assert (p = []) as -> by (apply blen_nonpos; rewrite Z.gtb_ltb in Hz; apply Z.ltb_ge in Hz; lia).
    apply HQ; [done|]. split; cbn; try done; try congruence.
    + by rewrite Hf, Hof.
    + lia.
    + rewrite Hol. cbn. lia.
Qed.

Lemma co_set_length_id n c : co_length c = n -> co_set_length n c = c.
Proof. intros <-. by destruct c. Qed.

Lemma co_new_ok p fl ex c :
  0 <= fl < 2 ^ 32 -> blen p + 24 < 2 ^ 64 ->
  owp X (co_new cfg junk p fl ex)
    (fun _ c' => repr (24 + length p) c' (object_new cfg p fl ex)) c.
Proof.
  intros Hfl Hlt. pose proof (object_new_inv cfg p fl ex Hfl) as Hi. pose proof (blen_nonneg p). apply owp_bind.
  eapply owp_in_heap; [intros h; apply (good_new junk Hjunk)|exact Hcl|].
  intros d (Hg&Hct&Hd&He&Hcap). apply owp_bind, owp_assign. unfold object_new in *.
  destruct (gtb_case (blen p) (heap_data_limit cfg)) as [[Hb ?]|[Hb ?]]; rewrite Hb in *.
  - apply owp_bind, owp_new_file; [done|]. eapply owp_write; [done|reflexivity|apply file_fresh|].
    intros t Ht Hdt. cbn in Hdt. split; cbn; try done; [lia|unfold blen; lia].
  - eapply (put_ok _ _ 24); try done; [cbn; lia|cbn; lia|].
    intros c' Hc'. by rewrite co_set_length_id.
Qed.

Lemma co_number_ok v ex c :
  0 <= v < 2 ^ 64 ->
  owp X (co_number cfg junk v ex) (fun _ c' => repr 48 c' (object_number v ex)) c.
Proof.
  intros Hv. pose proof (to_string_length v Hv) as Hlen. apply owp_bind.
  eapply owp_in_heap; [intros h; apply (good_new junk Hjunk)|exact Hcl|].
  intros d (Hg&Hct&Hd&He&Hcap). apply owp_bind, owp_assign, owp_bind, owp_assign.
  apply owp_data_append; unfold co_set_length, co_init; cbn [co_data]; [done|rewrite Hcap; lia|rewrite He; exact Hcl|].
  rewrite Hct. cbn [app]. intros d' Hd' Hdc Hdd Hde Hdcap.
  pose proof (object_number_inv cfg v ex) as Hi. unfold object_number in *.
  set (z := to_string v) in *. clearbody z. split; cbn; try done; try congruence; [lia|unfold blen; lia].
Qed.

Lemma co_set_ok p fl ex b c o :
  repr b c o -> 0 <= fl < 2 ^ 32 -> Z.of_nat b + blen p < 2 ^ 64 ->
  owp X (co_set cfg junk p fl ex) (fun _ c' => repr (b + length p) c' (object_set cfg p fl ex o)) c.
Proof.
  intros Hr Hfl Hlt. pose proof (object_set_inv cfg p fl ex o Hfl) as Hi. pose proof (blen_nonneg p).
  apply owp_bind, owp_assign, owp_bind, owp_assign, owp_bind.
  pose proof (r_cap _ _ _ Hr). pose proof (r_bound _ _ _ Hr).
  apply owp_data_reset; [apply (r_good _ _ _ Hr)|by apply (repr_erase b c o)|]. cbn.
  intros d Hd Hdc Hdd Hde Hdcap. rewrite (r_erase _ _ _ Hr) in Hde. apply owp_bind. unfold object_set in *.
  destruct (gtb_case (blen p) (heap_data_limit cfg)) as [[Hb ?]|[Hb ?]]; rewrite Hb in *.
  - apply owp_bind, owp_member, owp_bind. cbn.
    assert (forall t, file_ok t -> tf_data t = [] ->
      owp X (file_write p) (fun _ c' => owp X (assign (co_set_length (blen p)))
        (fun _ c'' => repr (b + length p) c'' (with_data (blen p) [] (Some p) (modified (with_meta fl ex o)))) c')
        (co_set_file (Some t) (co_set_data d (co_modified (co_set_meta fl ex c))))) as Hw.
    { intros t Ht Htd. eapply owp_write; [done..|]. intros t' Ht' Hd'. apply owp_assign.
      rewrite Htd in Hd'. destruct Hr. split; cbn; try congruence; try done; [lia|unfold blen; lia]. }
    destruct (co_file c) as [t|] eqn:Ef.
    + eapply owp_clear; [done|done|]. intros t' Ht' Hd'. by apply (Hw t').
    + apply owp_new_file; [done|]. by apply (Hw tempfile_new).
  - apply owp_bind, owp_assign. destruct Hr.
    eapply (put_ok p _ b (with_data (blen p) p None (modified (with_meta fl ex o)))); cbn; try done; try congruence; try lia.
    intros c' _ Hc'. by apply owp_assign.
Qed.

Lemma repr_modified b c o : repr b c o -> repr b (co_modified c) (modified o).
Proof.
  intros Hr. pose proof (u64_range (o_cas o + 1)). destruct Hr as [[] ]. split; cbn; try congruence; try done.
Qed.

Lemma repr_mono b b' c o : (b <= b')%nat -> repr b c o -> repr b' c o.
Proof. intros Hb []. split; try done; lia. Qed.

Lemma blen_pos p : (blen p =? 0) = false -> 0 < blen p.
Proof. rewrite Z.eqb_neq. unfold blen. lia. Qed.

(** Closes the relation for a rebuilt object, from the relation before. *)
Ltac rebuild := split; cbn; try done; try congruence; try lia; try (split; [done|congruence]).

(** What is in memory goes to the file. *)
Lemma spill_ok c t len (Q : unit -> cobject -> Prop) :
  co_file c = Some t -> file_ok t -> dyn_ok (co_data c) -> len = Z.of_nat (d_used (co_data c)) ->
  (forall t', file_ok t' -> tf_data t' = tf_data t ++ Dynbuf.contents (co_data c) ->
     Q tt (co_set_file (Some t') c)) ->
  owp X (when (len >? 0) (let! b := data_read len in file_write b)) Q c.
Proof.
  intros Hf Ht Hok Hlen HQ. apply owp_when.
  - intros _. apply owp_bind, owp_data_read; [done..|]. by eapply owp_write.
  - intros Hn. rewrite Z.gtb_ltb in Hn. apply Z.ltb_ge in Hn.
    replace c with (co_set_file (Some t) c) at 1 by (rewrite <- Hf; by destruct c). apply HQ; [done|].
    unfold Dynbuf.contents. replace (d_used (co_data c)) with 0%nat by lia. by rewrite app_nil_r.
Qed.

Lemma co_append_ok p b c o :
  repr b c o -> Z.of_nat b + blen p < 2 ^ 64 ->
  owp X (co_append cfg junk p) (fun _ c' => repr (b + length p) c' (object_append cfg p o)) c.
Proof.
  intros Hr Hlt. pose proof (object_append_spec cfg p o (r_inv _ _ _ Hr)) as [Hi _].
  apply owp_bind, owp_assign. apply repr_modified in Hr. unfold object_append in *.
  set (o1 := modified o) in *. set (c1 := co_modified c) in *. clearbody o1 c1. clear o c.
  destruct (blen p =? 0) eqn:Hz; [apply owp_ret; eapply repr_mono; [|done]; lia|]. apply blen_pos in Hz.
  apply owp_bind, owp_member, owp_bind. rewrite (r_length _ _ _ Hr).
  pose proof (r_cap _ _ _ Hr) as Hcap. pose proof (r_bound _ _ _ Hr) as Hbd.
  assert (Z.of_nat (b + length p) = Z.of_nat b + blen p) as Hsum by (unfold blen; lia).
  destruct (o_length o1 + blen p >? heap_data_limit cfg).
  - apply owp_bind, owp_member. destruct (o_file o1) as [f|] eqn:Ef.
    + destruct (repr_file _ _ _ f Hr Ef) as (t&Hft&Ht&Hd&_). rewrite Hft.
      eapply owp_write; [done..|]. intros t' Ht' Hd'. apply owp_assign. destruct Hr. rebuild.
    + destruct (repr_nofile _ _ _ Hr Ef) as (->&Hlen&Hol&Hct).
      rewrite (if_positive_take cfg) in * by (done || apply (r_inv _ _ _ Hr)).
      apply owp_bind, owp_new_file; [done|]. apply owp_bind.
      eapply spill_ok; [done|apply file_fresh|apply (r_good _ _ _ Hr)|by rewrite <- (r_length _ _ _ Hr)|].
      cbn. rewrite Hct. intros t Ht Hd.
      apply owp_bind, owp_data_reset; [apply (r_good _ _ _ Hr)|exact (repr_erase b c1 o1 Hr)|].
      cbn. intros d Hgd Hdc Hdd Hde Hdcap. eapply owp_write; [done..|]. intros t' Ht' Hd'. apply owp_assign.
      destruct Hr. rebuild.
  - apply owp_data_append; [apply (r_good _ _ _ Hr)|unfold blen in *; lia|exact (repr_erase b c1 o1 Hr)|].
    intros d Hgd Hdc Hdd Hde Hdcap. apply owp_assign. destruct Hr. rebuild.
Qed.

(** The block that [swap] hands to [m_data] is full. *)
Lemma swap_good d buf :
  dyn_ok buf -> d_used buf = d_capacity buf -> dyn_good junk (swap d buf).1.
Proof.
  intros [Hn Hl Hu] Hfull. split; [by split|]. intros _. exists 0%nat. intros i x Hi Hx.
  apply lookup_lt_Some in Hx. cbn in *. unfold block in *. cbn in *. lia.
Qed.

(** Prepending in memory. *)
Lemma prepend_heap_ok p b c o :
  repr b c o -> 0 < blen p -> Z.of_nat b + blen p < 2 ^ 63 -> o_file o = None -> cl = false ->
  let n := o_length o + blen p in
  object_inv cfg (with_data n (p ++ o_data o) None o) ->
  owp X (let! buf := in_heap (dynbuf_new junk (Z.to_nat n) false) in
         let! buf := in_heap (append junk p buf) in
         let! b := data_read (o_length o) in
         let! buf := in_heap (append junk b buf) in
         let! d := member co_data in
         let (d, buf) := swap d buf in
         assign (co_set_data d) ;;! in_heap (dynbuf_dtor buf))
    (fun _ c' => repr (b + length p) (co_set_length n c') (with_data n (p ++ o_data o) None o)) c.
Proof.
  intros Hr Hz Hlt Ef Hc n Hi. destruct (repr_nofile _ _ _ Hr Ef) as (Hnf&Hlen&Hol&Hct).
  pose proof (r_cap _ _ _ Hr) as Hcap. pose proof (r_bound _ _ _ Hr) as Hbd. pose proof (blen_nonneg (o_data o)).
  assert (Z.of_nat (b + length p) = Z.of_nat b + blen p) as Hsum by (unfold blen; lia).
  assert (Z.to_nat n = (length p + length (o_data o))%nat) as Hn by (unfold n, blen in *; lia).
  apply owp_bind, owp_local_new. intros d1 Hok1 Hc1 Hcap1 Hu1 He1 Hdd1.
  apply owp_bind, owp_local_append; [done|lia|]. intros d2 Hok2 Hc2 Hu2 Hcap2 He2.
  apply owp_bind, owp_data_read; [apply (r_good _ _ _ Hr)|rewrite <- (r_length _ _ _ Hr); lia|]. rewrite Hct.
  apply owp_bind, owp_local_append; [done|lia|]. intros d3 Hok3 Hc3 Hu3 Hcap3 He3.
  apply owp_bind, owp_member, owp_bind, owp_assign.
  pose proof (swap_good (co_data c) d3 Hok3 ltac:(lia)) as Hsg.
  apply owp_local_dtor; [|by rewrite Hc|].
  - pose proof (r_good _ _ _ Hr) as [[] _]. split; [by split|]. intros He. cbn in He. congruence.
  - destruct Hr. rebuild.
    change (Dynbuf.contents d3 = p ++ o_data o). by rewrite Hc3, Hc2, Hc1.
Qed.

(** Prepending to a file: the file is read, cleared and written again. *)
Lemma prepend_file_ok p b c o f :
  repr b c o -> 0 < blen p -> Z.of_nat b + blen p < 2 ^ 63 -> o_file o = Some f -> cl = false ->
  let n := o_length o + blen p in
  object_inv cfg (with_data n (o_data o) (Some (p ++ f)) o) ->
  owp X (let! buf := in_heap (dynbuf_new junk (Z.to_nat n) false) in
         let! buf := in_heap (append junk p buf) in
         let! buf := file_read junk buf in
         file_clear ;;!
         let! b := in_heap (load (block buf) 0 (Z.to_nat n)) in
         file_write b ;;! in_heap (dynbuf_dtor buf))
    (fun _ c' => repr (b + length p) (co_set_length n c') (with_data n (o_data o) (Some (p ++ f)) o)) c.
Proof.
  intros Hr Hz Hlt Ef Hc n Hi. destruct (repr_file _ _ _ f Hr Ef) as (t&Hft&Ht&Hd&Hl).
  pose proof (r_cap _ _ _ Hr) as Hcap. pose proof (r_bound _ _ _ Hr) as Hbd.
  assert (Z.of_nat (b + length p) = Z.of_nat b + blen p) as Hsum by (unfold blen; lia).
  pose proof (fo_length _ Ht) as Htl. rewrite Hd in Htl.
  assert (Z.to_nat n = (length p + length f)%nat) as Hn by (unfold n, blen in *; lia).
  apply owp_bind, owp_local_new. intros d1 Hok1 Hc1 Hcap1 Hu1 He1 Hdd1.
  apply owp_bind, owp_local_append; [done|lia|]. intros d2 Hok2 Hc2 Hu2 Hcap2 He2.
  apply owp_bind. eapply owp_file_read; [done|done|done| |done|lia|].
  { split; [done|]. intros He. congruence. }
  intros d3 Hg3 Hc3. apply owp_bind. eapply owp_clear; [done..|]. intros t1 Ht1 Hd1.
  assert (Dynbuf.contents d3 = p ++ f) as Hct by (by rewrite Hc3, Hc2, Hc1, Hd).
  apply owp_bind, (owp_pure _ _ (p ++ f)).
  { intros h. rewrite <- Hct. apply load_contents; [apply Hg3|].
    rewrite <- (dyn_contents_length _ (proj1 Hg3)), Hct, length_app. lia. }
  apply owp_bind. eapply owp_write; [done..|]. intros t2 Ht2 Hd2.
  apply owp_local_dtor; [done|by rewrite Hc|]. destruct Hr. rewrite Hd1 in Hd2. rebuild.
Qed.

Lemma co_prepend_ok p b c o :
  repr b c o -> Z.of_nat b + blen p < 2 ^ 63 -> (cl = true -> (blen p =? 0) = true) ->
  owp X (co_prepend cfg junk p) (fun _ c' => repr (b + length p) c' (object_prepend cfg p o)) c.
Proof.
  intros Hr Hlt Hemp. pose proof (object_prepend_spec cfg p o (r_inv _ _ _ Hr)) as [Hi _].
  apply owp_bind, owp_assign. apply repr_modified in Hr. unfold object_prepend in *.
  set (o1 := modified o) in *. set (c1 := co_modified c) in *. clearbody o1 c1. clear o c.
  destruct (blen p =? 0) eqn:Hz; [apply owp_ret; eapply repr_mono; [|done]; lia|]. apply blen_pos in Hz.
  assert (cl = false) as Hc by (destruct cl; [by specialize (Hemp eq_refl)|done]).
  apply owp_bind, owp_member, owp_bind. rewrite (r_length _ _ _ Hr). pose proof (r_inv _ _ _ Hr) as Hi1.
  destruct (o_file o1) as [f|] eqn:Ef.
  - destruct (oi_file _ _ Hi1 f Ef) as [_ Hbig]. destruct (repr_file _ _ _ f Hr Ef) as (t&Hft&Ht&Hd&Hl).
    pose proof (fo_length _ Ht) as Htl. rewrite Hd in Htl.
    destruct (gtb_case (o_length o1 + blen p) (heap_data_limit cfg)) as [[Hb ?]|[Hb ?]]; rewrite Hb in *;
      [|unfold heap_data_limit in *; lia].
    rewrite take_ge in * by (rewrite length_app; unfold blen in *; lia).
    apply owp_bind, owp_member. rewrite Hft. eapply owp_mono; [by apply prepend_file_ok|].
    intros [] c' Hc'. by apply owp_assign.
  - destruct (inv_take cfg o1 Hi1 Ef) as [Htk _]. rewrite (if_positive_take cfg) in * by done. rewrite Htk in *.
    destruct (o_length o1 + blen p >? heap_data_limit cfg).
    + destruct (repr_nofile _ _ _ Hr Ef) as (Hnf&Hlen&Hol&Hct). apply owp_bind, owp_member. rewrite Hnf.
      pose proof (r_cap _ _ _ Hr) as Hcap. pose proof (r_bound _ _ _ Hr) as Hbd.
      assert (Z.of_nat (b + length p) = Z.of_nat b + blen p) as Hsum by (unfold blen; lia).
      apply owp_bind, owp_new_file; [done|]. apply owp_bind.
      eapply owp_write; [done|done|apply file_fresh|]. cbn. intros t Ht Hd. apply owp_bind.
      eapply spill_ok; [done|done|apply (r_good _ _ _ Hr)|by rewrite <- (r_length _ _ _ Hr)|].
      cbn. rewrite Hct. intros t' Ht' Hd'.
      apply owp_data_reset; [apply (r_good _ _ _ Hr)|exact (repr_erase b c1 o1 Hr)|].
      cbn. intros d Hgd Hdc Hdd Hde Hdcap. apply owp_assign. destruct Hr. rebuild.
    + eapply owp_mono; [by apply prepend_heap_ok|]. intros [] c' Hc'. by apply owp_assign.
Qed.

(** ** Numbers *)

Lemma co_value_ok b c o (Q : Z -> cobject -> Prop) :
  repr b c o -> (object_value o = None -> X not_a_number) ->
  (forall v, object_value o = Some v -> o_file o = None -> Q v c) -> owp X co_value Q c.
Proof.
  intros Hr HN HQ. unfold object_value in *. apply owp_bind, owp_member.
  destruct (o_file o) as [f|] eqn:Ef.
  - destruct (repr_file _ _ _ f Hr Ef) as (t&->&_). by apply owp_throw, HN.
  - destruct (repr_nofile _ _ _ Hr Ef) as (->&Hlen&Hol&Hct). apply owp_bind, owp_member.
    apply owp_bind, owp_data_read; [apply (r_good _ _ _ Hr)|done|]. rewrite Hct.
    destruct (inv_take cfg o (r_inv _ _ _ Hr) Ef) as [Htk _]. rewrite Htk in *.
    destruct (to_uint64 (o_data o)) as [v|]; [by apply owp_ret, HQ|by apply owp_throw, HN].
Qed.

Lemma co_store_number_ok v b c o :
  repr b c o -> o_file o = None -> 0 <= v < 2 ^ 64 -> Z.of_nat b + 24 < 2 ^ 64 ->
  owp X (co_store_number junk v) (fun r c' => r = v /\ repr (b + 24) c' (store_number v o)) c.
Proof.
  intros Hr Ef Hv Hlt. destruct (store_number_spec cfg v o (r_inv _ _ _ Hr) Ef) as [Hi _].
  pose proof (to_string_length v Hv) as Hlen. unfold co_store_number, store_number in *.
  set (z := to_string v) in *. clearbody z.
  pose proof (r_cap _ _ _ Hr) as Hcap. pose proof (r_bound _ _ _ Hr) as Hbd.
  apply owp_bind, owp_assign, owp_bind, owp_data_reset; [apply (r_good _ _ _ Hr)|exact (repr_erase b c o Hr)|].
  cbn [co_data co_set_length]. intros d Hgd Hdc Hdd Hde Hdcap.
  apply owp_bind, owp_data_append; [done|cbn [co_data co_set_data]; lia|cbn; rewrite Hde; exact (repr_erase b c o Hr)|].
  cbn [co_data co_set_data]. rewrite Hdc. cbn [app]. intros d' Hgd' Hdc' Hdd' Hde' Hdcap'.
  apply owp_bind, owp_assign, owp_ret. split; [done|]. destruct Hr. rebuild. unfold blen. lia.
Qed.

(** ** Reading *)

Lemma co_read_ok b c o :
  repr b c o -> Z.of_nat b < 2 ^ 64 -> (cl = true -> o_file o = None) ->
  owp X (co_read junk) (fun r c' => r = (object_data o).1 /\ repr b c' (object_data o).2) c.
Proof.
  intros Hr Hlt Hc. apply owp_bind. eapply owp_pure; [done|]. apply owp_bind.
  pose proof (object_data_inv cfg o (r_inv _ _ _ Hr)) as Hi. unfold object_data in *. cbn in Hi.
  apply owp_bind, owp_assign, owp_bind, owp_member. cbn [co_file co_set_age].
  destruct (o_file o) as [f|] eqn:Ef.
  - destruct (repr_file _ _ _ f Hr Ef) as (t&Hft&Ht&Hd&Hl). rewrite Hft.
    assert (cl = false) as Hcf by (destruct cl; [by specialize (Hc eq_refl)|done]).
    apply owp_bind. eapply owp_pure; [done|]. apply owp_bind. pose proof (r_bound _ _ _ Hr).
    eapply owp_file_read; [done|done|done| |done|cbn; lia|].
    { by split; [split; cbn|]. }
    cbn. intros d Hg Hdc. apply owp_ret. apply owp_bind, owp_local_dtor; [done|by rewrite Hcf|].
    apply owp_ret. split; [by rewrite Hdc|]. destruct Hr. rebuild.
  - destruct (repr_nofile _ _ _ Hr Ef) as (->&Hlen&Hol&Hct). apply owp_bind, owp_member, owp_ret. cbn.
    apply owp_bind. eapply owp_pure; [done|]. apply owp_ret. split; [done|]. destruct Hr. rebuild.
Qed.

Lemma co_size_ok b c o (Q : Z -> cobject -> Prop) :
  repr b c o -> Q (object_size o) c -> owp X co_size Q c.
Proof.
  intros Hr HQ. unfold object_size in HQ. apply owp_bind, owp_member. destruct (o_file o) as [f|] eqn:Ef.
  - destruct (repr_file _ _ _ f Hr Ef) as (t&->&Ht&Hd&Hl). apply owp_ret.
    by rewrite (fo_length _ Ht), Hd.
  - destruct (repr_nofile _ _ _ Hr Ef) as (->&Hlen&Hol&Hct). apply owp_bind, owp_member, owp_ret.
    by rewrite <- Hlen, (r_length _ _ _ Hr), Hol.
Qed.

Lemma co_touch_ok ex b c o :
  repr b c o -> owp X (co_touch ex) (fun _ c' => repr b c' (object_touch ex o)) c.
Proof.
  intros Hr. apply owp_bind, owp_member, owp_bind, owp_assign, owp_assign.
  pose proof (object_touch_inv cfg ex o (r_inv _ _ _ Hr)). destruct Hr. rebuild.
Qed.

(** ** Steps and lives *)

(** The exception of [incr] and [decr] leaves everything as it was. *)
Lemma co_value_nan b s o :
  repr b (s_obj s) o -> object_value o = None -> co_value s = (inl not_a_number, s).
Proof.
  intros Hr Hn. unfold co_value, object_value, bind, member, gets in *.
  destruct (o_file o) as [f|] eqn:Ef.
  - by destruct (repr_file _ _ _ f Hr Ef) as (t&->&_).
  - destruct (repr_nofile _ _ _ Hr Ef) as (->&Hlen&Hol&Hct).
    unfold data_read, in_heap, bind, member, gets. cbn beta iota.
    rewrite load_contents by (done || apply (r_good _ _ _ Hr)). cbn beta iota.
    destruct (inv_take cfg o (r_inv _ _ _ Hr) Ef) as [Htk _]. rewrite Htk in Hn. rewrite Hct, Hn.
    by destruct s.
Qed.

Hypothesis HN : ~ X not_a_number.

Lemma number_step_ok (f : Z -> Z) b c o :
  repr b c o -> Z.of_nat b + 24 < 2 ^ 63 -> (forall v, 0 <= v < 2 ^ 64 -> 0 <= f v < 2 ^ 64) ->
  owp X (catch (let! v := (let! v := co_value in co_store_number junk (f v)) in ret (RNumber v))
           not_a_number (ret RNotANumber))
    (fun r c' => let a := abs_number (v ← object_value o; Some (f v, store_number (f v) o)) o in
       r = a.1 /\ repr (b + 24) c' a.2) c.
Proof.
  intros Hr Hlt Hf. destruct (object_value o) as [v|] eqn:Ev; cbn.
  - assert (owp X (let! v := (let! v := co_value in co_store_number junk (f v)) in ret (RNumber v))
      (fun r c' => r = RNumber (f v) /\ repr (b + 24) c' (store_number (f v) o)) c) as Hw.
    { apply owp_bind, owp_bind. apply (co_value_ok b c o); [done|by rewrite Ev|]. rewrite Ev.
      intros v' [= <-] Ef. eapply owp_mono; [apply (co_store_number_ok _ b c o); try done; try lia|].
      - apply Hf. unfold object_value in Ev. rewrite Ef in Ev. by eapply stoull_range.
      - intros r c' [-> Hc']. by apply owp_ret. }
    intros s Hs Hio. specialize (Hw s Hs Hio). unfold wp, catch in *.
    destruct (bind _ _ s) as [[x|r] s']; [|done]. case_decide; [|done].
    by subst x.
  - intros s <- Hio. unfold wp, catch, bind. rewrite (co_value_nan b s o) by done.
    rewrite decide_True by done. cbn. split_and!; try done; [eapply repr_mono; [|done]; lia|apply frees_clean_refl].
Qed.

(** Where freed memory must be clean, nothing leaks. *)
Definition erases (ops : list oop) (o : object) : Prop := cl = true -> leak_free cfg ops o = true.

Lemma erases_cons op ops o :
  erases (op :: ops) o -> (cl = true -> leaky op o = false) /\ erases ops (abs_step cfg op o).2.
Proof.
  intros He. split; intros Hc; specialize (He Hc); cbn in He; apply andb_prop in He as [H1 H2]; [|done].
  by apply negb_true_iff.
Qed.

Lemma co_step_ok op b c o :
  repr b c o -> oop_legal op -> Z.of_nat (b + oop_space op) < 2 ^ 63 -> (cl = true -> leaky op o = false) ->
  owp X (co_step cfg junk op) (fun r c' => r = (abs_step cfg op o).1 /\
    repr (b + oop_space op) c' (abs_step cfg op o).2) c.
Proof.
  intros Hr Hleg Hlt Her.
  assert (forall (m : M ostore unit) o', owp X m (fun _ c' => repr (b + oop_space op) c' o') c ->
    owp X (bind m (fun _ => ret RUnit)) (fun r c' => r = RUnit /\ repr (b + oop_space op) c' o') c) as Hunit.
  { intros m o' Hm. apply owp_bind. eapply owp_mono; [exact Hm|]. intros [] c' Hc'. by apply owp_ret. }
  destruct op as [p fl ex|p|p|n|n|ex| |]; cbn [co_step abs_step oop_space fst snd] in *.
  - apply Hunit, co_set_ok; try done. unfold blen. lia.
  - apply Hunit, co_append_ok; try done. unfold blen. lia.
  - apply Hunit, co_prepend_ok; try done; [unfold blen; lia|]. intros Hc. by apply negb_false_iff, Her.
  - apply (number_step_ok (fun v => u64 (v + n))); [done|lia|]. intros v _. apply u64_range.
  - apply (number_step_ok (fun v => if v <? n then 0 else v - n)); [done|lia|]. cbn in Hleg.
    intros v Hv. destruct (Z.ltb_spec v n); lia.
  - apply Hunit. rewrite Nat.add_0_r. by apply co_touch_ok.
  - apply owp_bind. rewrite Nat.add_0_r in *. eapply owp_mono; [apply (co_read_ok b c o); [done|lia|]|].
    + intros Hc. specialize (Her Hc). apply bool_decide_eq_false in Her. destruct (o_file o); [by destruct Her|done].
    + intros r c' [-> Hc']. by apply owp_ret.
  - apply owp_bind, (co_size_ok b c o); [done|]. apply owp_ret. by rewrite Nat.add_0_r.
Qed.

Lemma co_run_ok ops b c o :
  repr b c o -> Forall oop_legal ops -> Z.of_nat (b + sum_list_with oop_space ops) < 2 ^ 63 -> erases ops o ->
  owp X (co_run cfg junk ops) (fun rs c' => rs = abs_run cfg ops o /\
    repr (b + sum_list_with oop_space ops) c' (abs_after cfg ops o)) c.
Proof.
  revert b c o. induction ops as [|op ops IH]; intros b c o Hr Hleg Hlt Her; cbn in Hlt.
  { apply owp_ret. split; [done|]. cbn. by rewrite Nat.add_0_r. }
  apply Forall_cons in Hleg as [Hop Hleg]. apply owp_bind.
  eapply owp_mono; [apply (co_step_ok op b c o); try done; [lia|]|].
  { by apply (erases_cons op ops o). }
  apply erases_cons in Her as [_ Her]. intros r c1 [-> Hr1]. apply owp_bind. cbn [abs_run abs_after sum_list_with].
  destruct (abs_step cfg op o) as [r o1] eqn:Ea.
  cbn [fst snd] in *. eapply owp_mono; [apply (IH _ _ _ Hr1 Hleg); [lia|done]|].
  intros rs c2 [-> Hc2]. apply owp_ret. split; [done|]. by rewrite Nat.add_assoc.
Qed.

Lemma co_create_ok i c :
  init_legal i -> Z.of_nat (init_space i) < 2 ^ 63 ->
  owp X (co_create cfg junk i) (fun _ c' => repr (init_space i) c' (abs_create cfg i)) c.
Proof.
  intros Hi Hlt. destruct i; cbn in *; [apply co_new_ok; [done|unfold blen; lia]|by apply co_number_ok].
Qed.

Lemma co_dtor_ok b c o (Q : unit -> cobject -> Prop) : repr b c o -> Q tt c -> owp X co_dtor Q c.
Proof.
  intros Hr HQ. apply owp_bind, owp_member.
  by apply owp_local_dtor; [apply (r_good _ _ _ Hr)|apply (repr_erase b c o)|].
Qed.

Lemma object_life_ok i ops c :
  init_legal i -> Forall oop_legal ops -> Z.of_nat (life_space i ops) < 2 ^ 63 -> erases ops (abs_create cfg i) ->
  owp X (object_life cfg junk i ops) (fun rs _ => rs = abstract_life cfg i ops) c.
Proof.
  intros Hi Hops Hlt Her. unfold life_space in Hlt. apply owp_bind.
  eapply owp_mono; [apply co_create_ok; [done|lia]|]. intros [] c1 Hr1. apply owp_bind.
  eapply owp_mono; [by apply (co_run_ok ops _ c1 (abs_create cfg i) Hr1)|]. intros rs c2 [-> Hr2].
  apply owp_bind. eapply co_dtor_ok; [done|]. by apply owp_ret.
Qed.
End ops.
End logic.

(** The values of objects live up to their contract wherever they are stored.
    Take any object, any sequence of operations on it, any memory the allocator hands
    out and any way the kernel splits the reads and writes of the temporary file;
    as long as the sizes add up to less than 2^63, every result (values read,
    sizes, numbers, the refusal of what is not a number) is the one the operations on
    plain bytes give: values move between memory and file without losing a byte and
    nothing outside a buffer is touched.  The one other outcome is
    [std::system_error], and only when a system call failed. *)
Theorem object_store_refines cfg junk i ops s :
  (forall k n, length (junk k n) = n) ->
  init_legal i -> Forall oop_legal ops -> Z.of_nat (life_space i ops) < 2 ^ 63 ->
  match (object_life cfg junk i ops s).1 with
  | inr rs => rs = abstract_life cfg i ops
  | inl x => x = system_error /\ exists ios, ios ∈ s_io s /\ Fail ∈ ios
  end.
Proof.
  intros Hj Hi Hops Hlt.
  pose proof (object_life_ok junk Hj (s_io s) false cfg ltac:(done) (io_error (s_io s)) ltac:(done)
    ltac:(by intros []) i ops (s_obj s) Hi Hops Hlt ltac:(done) s eq_refl ltac:(done)) as H.
  unfold wp in H. destruct (object_life _ _ _ _ s) as [[x|rs] s']; [done|by destruct H].
Qed.

(** C28: With [secure_erase], an object leaves nothing behind, unless its operations leak.
    Take any operations on an object, in memory or in a file, none of which is a [prepend]
    of some bytes or reads the value while it is in a file, whose sizes add up to less than
    2^63, and any answers of the kernel: either a system call fails, which ends the process
    with [std::system_error], or, when the object has been destroyed, every block that was
    handed back to the allocator on its behalf, then or before, holds zeros or what the
    allocator had put there, and nothing of any value. *)
Theorem object_erases cfg junk i ops s :
  (forall k n, length (junk k n) = n) -> c_secure_erase cfg = true ->
  init_legal i -> Forall oop_legal ops -> Z.of_nat (life_space i ops) < 2 ^ 63 ->
  leak_free cfg ops (abs_create cfg i) = true ->
  match object_life cfg junk i ops s with
  | (inr _, s') => exists new, h_freed (s_heap s') = h_freed (s_heap s) ++ new /\
                     Forall (fun b => harmless junk b 0) new
  | (inl x, _) => x = system_error /\ exists ios, ios ∈ s_io s /\ Fail ∈ ios
  end.
Proof.
  intros Hj He Hi Hops Hlt Hl.
  pose proof (object_life_ok junk Hj (s_io s) true cfg ltac:(done) (io_error (s_io s)) ltac:(done)
    ltac:(by intros []) i ops (s_obj s) Hi Hops Hlt (fun _ => Hl) s eq_refl ltac:(done)) as H.
  unfold wp in H. destruct (object_life _ _ _ _ s) as [[x|rs] s']; [done|].
  destruct H as (_&_&new&Hn&Hf). exists new. auto.
Qed.

(** Memory that the allocator fills with a recognisable byte. *)
Definition some_junk (k n : nat) : bytes := replicate n (bZ (170 + Z.of_nat k)).
Lemma some_junk_length k n : length (some_junk k n) = n.
Proof. apply length_replicate. Qed.

(** A small heap limit, so that short values live in files. *)
Definition small_config (limit : Z) : mem_config := {|
  c_memory_limit := 2 ^ 20; c_port := 11211; c_repl_port := 11213; c_vip := lit "192.168.0.1";
  c_secure_erase := true; c_lock_memory := false; c_tempdir := lit "/var/tmp"; c_buckets := 7;
  c_max_data_size := 1000; c_heap_data_limit := limit; c_workers := 1; c_gc_interval := 10 |}.

Definition start (ios : list (list io)) : ostore :=
  {| s_heap := fresh_heap; s_io := ios;
     s_obj := co_init 0 {| d_p := None; d_default_capacity := 0; d_capacity := 0; d_erase := true; d_used := 0 |} 0 0 |}.

(** A value that grows into a file, is extended at both ends there, and is replaced by a
    number. *)
Lemma object_store_refines_witness :
  let i := INew (lit "key") 7 0 in
  let ops := [OAppend (lit "ring"); OPrepend (lit "a "); ORead; OIncr 1; OPrepend (lit "not "); OAppend (lit "!");
              ORead; OSize; OSet (lit "9") 0 0; OIncr 3; ORead; OPrepend (lit "0"); ODecr 20; ORead] in
  let ios := [[]; [Short 1; Short 0]; []; [Short 2]] in
  init_legal i /\ Forall oop_legal ops /\ Z.of_nat (life_space i ops) < 2 ^ 63 /\
  (object_life (small_config 8) some_junk i ops (start ios)).1 =
    inr [RUnit; RUnit; RBytes (lit "a keyring"); RNotANumber; RUnit; RUnit; RBytes (lit "not a keyring!"); RSize 14;
         RUnit; RNumber 12; RBytes (lit "12"); RUnit; RNumber 0; RBytes (lit "0")].
Proof.
  intros i ops ios. assert (init_legal i) as Hi by (cbn; lia).
  assert (Forall oop_legal ops) as Ho by (repeat constructor; cbn; lia).
  assert (Z.of_nat (life_space i ops) < 2 ^ 63) as Hs by (vm_compute; done).
  split; [done|]. split; [done|]. split; [done|].
  pose proof (object_store_refines (small_config 8) some_junk i ops (start ios) some_junk_length Hi Ho Hs) as H.
  destruct (object_life _ _ _ _ _).1 as [x|rs].
  - destruct H as (_&l&Hl&Hf). exfalso. unfold start, ios in Hl. cbn in Hl.
    repeat (apply elem_of_cons in Hl as [-> |Hl]; [set_solver|]). by apply elem_of_nil in Hl.
  - rewrite H. vm_compute. reflexivity.
Defined.

(** A secret that is replaced, grows, moves to a file and is destroyed. *)
Lemma object_erases_witness :
  let i := INew (lit "secret") 0 0 in
  let ops := [OAppend (lit "!"); ORead; OSet (lit "41") 0 0; OIncr 1; OAppend (lit " is the answer")] in
  exists rs s' new, object_life (small_config 8) some_junk i ops (start []) = (inr rs, s') /\
    h_freed (s_heap s') = new /\ length new = 4%nat /\ Forall (fun b => harmless some_junk b 0) new.
Proof.
  intros i ops.
  pose proof (object_erases (small_config 8) some_junk i ops (start []) some_junk_length eq_refl
    ltac:(cbn; lia) ltac:(repeat constructor; cbn; lia) ltac:(vm_compute; done) ltac:(vm_compute; reflexivity)) as Hl.
  destruct (object_life _ _ _ _ _) as [[x|rs] s'] eqn:El.
  - exfalso. destruct Hl as (_&ios&Hin&_). by apply elem_of_nil in Hin.
  - destruct Hl as (new&Hf&Hn). exists rs, s', new. split; [reflexivity|]. split; [exact Hf|]. split; [|exact Hn].
    change (h_freed (s_heap s') = new) in Hf. rewrite <- Hf. apply (f_equal snd) in El. cbn [snd] in El. rewrite <- El.
    vm_compute. reflexivity.
Defined.

(** Finding: [prepend] puts the new value together in a local buffer without the erase
    flag.  The block that held the old value goes back to the allocator as it is: the
    secret is still there after the object is gone, with [secure_erase] on. *)
Theorem prepend_leaves_secret :
  let ops := [OPrepend (lit "my ")] in
  exists rs s', object_life (small_config 100) some_junk (INew (lit "secret") 0 0) ops (start []) = (inr rs, s') /\
    lit "secret" ∈ h_freed (s_heap s').
Proof. eexists _, _. split; [vm_compute; reflexivity|]. vm_compute. left. Qed.

(** Finding: a value in a file is read into a buffer without the erase flag, too. *)
Theorem file_read_leaves_secret :
  exists rs s', object_life (small_config 4) some_junk (INew (lit "secret") 0 0) [ORead] (start []) = (inr rs, s') /\
    lit "secret" ∈ h_freed (s_heap s').
Proof. eexists _, _. split; [vm_compute; reflexivity|]. vm_compute. left. Qed.
