(* ===== verification/StoreTable.v ===== *)
(** * A table of objects on buffers and files

    The table of the server holds the objects of ObjectStore: every value lives in a buffer
    of its own or in a temporary file of its own, all in one heap.  A client of the table
    gives handlers, creators and predicates to [apply], [remove_if] and [bucket::gc] of
    cybozu/hash_map.hpp, as the commands and the collector do: a handler looks at the
    members of the object and decides which of its operations to call.  The theorem: the
    client sees what it would see with a finite map from keys to plain values. *)

From S2P Require Import Prelude CLib Siphash Table HashMap HashMapSpec MemTypes MemState MemObject.
From S2P Require Import MemObjectSpec Dynbuf Tempfile DynbufFrame ObjectStore ObjectStoreSpec.

(** ** The members that a handler may look at *)

Record meta := {
  me_length : Z; me_flags : Z; me_exptime : Z; me_cas : Z; me_gc_old : Z; me_lock : Z
}.
Definition co_meta (c : cobject) : meta :=
  {| me_length := co_length c; me_flags := co_flags c; me_exptime := co_exptime c;
     me_cas := co_cas c; me_gc_old := co_gc_old c; me_lock := co_lock c |}.
Definition o_meta (o : object) : meta :=
  {| me_length := o_length o; me_flags := o_flags o; me_exptime := o_exptime o;
     me_cas := o_cas o; me_gc_old := o_gc_old o; me_lock := o_lock o |}.

(** [object::lock] and [object::unlock] assign [m_lock]. *)
Definition co_set_lock (n : Z) (c : cobject) : cobject :=
  {| co_length := co_length c; co_data := co_data c; co_file := co_file c; co_flags := co_flags c;
     co_exptime := co_exptime c; co_cas := co_cas c; co_gc_old := co_gc_old c; co_lock := n |}.

(** A handler: from the members, the operations to call and the new lock, if any. *)
Definition plan : Type := meta -> list oop * option Z.

Inductive top :=
| TApply (k : bytes) (h : option plan) (c : option oinit)
| TRemove (k : bytes) (p : meta -> bool)
| TCollect (p : meta -> bool).

(** What the client gets to see: whether there was an object, and the results. *)
Inductive tout := OApply (found : bool) (rs : list ores) | ORemove (found : bool).

(** ** On buffers and files *)

Record tstore := { ts_heap : heap; ts_io : list (list io); ts_out : list tout }.

(** A method of one object. *)
Definition focus {A} (m : M ostore A) (c : cobject) : M tstore (A * cobject) := fun s =>
  match m {| s_heap := ts_heap s; s_obj := c; s_io := ts_io s |} with
  | (inr a, s') => (inr (a, s_obj s'), {| ts_heap := s_heap s'; ts_io := s_io s'; ts_out := ts_out s |})
  | (inl x, s') => (inl x, {| ts_heap := s_heap s'; ts_io := s_io s'; ts_out := ts_out s |})
  end.
Definition emit (o : tout) : M tstore unit :=
  modify (fun s => {| ts_heap := ts_heap s; ts_io := ts_io s; ts_out := ts_out s ++ [o] |}).

Section store_table.
Context (cfg : mem_config) (junk : nat -> nat -> bytes) (raw : cobject).
Context {H : Type} `{TableOps H cobject}.

Definition st_relock (l : option Z) (c : cobject) : cobject :=
  match l with Some n => co_set_lock n c | None => c end.

Definition st_handler (h : plan) : handler tstore cobject := fun _ c =>
  let '(ops, l) := h (co_meta c) in
  let! (rs, c) := focus (co_run cfg junk ops) c in
  emit (OApply true rs) ;;!
  ret (true, st_relock l c).

(** The memory of a new item holds [raw] until the constructor has run. *)
Definition st_creator (i : oinit) : creator tstore cobject := fun _ =>
  let! (_, c) := focus (co_create cfg junk i) raw in
  emit (OApply false []) ;;!
  ret c.

(** Deleting an item runs the destructor of its object. *)
Definition st_predicate (p : meta -> bool) : predicate tstore cobject := fun _ c =>
  if p (co_meta c) then let! (_, c) := focus co_dtor c in ret (true, c) else ret (false, c).

Definition st_collect (p : meta -> bool) : handler tstore cobject := fun _ c =>
  if p (co_meta c) then let! (_, c) := focus co_dtor c in ret (true, c)
  else ret (false, co_set_age (u32 (co_gc_old c + 1)) c).

Definition st_step (op : top) (hash : H) : M tstore H :=
  match op with
  | TApply k h c =>
      let! (r, hash) := t_apply hash k (st_handler <$> h) (st_creator <$> c) in
      when (negb r) (emit (OApply false [])) ;;!
      ret hash
  | TRemove k p =>
      let! (r, hash) := t_remove_if hash k (st_predicate p) in
      emit (ORemove r) ;;!
      ret hash
  | TCollect p => t_gc hash (ret tt) (st_collect p) (ret tt)
  end.

Fixpoint st_run (ops : list top) (hash : H) : M tstore H :=
  match ops with
  | [] => ret hash
  | op :: ops => let! hash := st_step op hash in st_run ops hash
  end.
End store_table.

(** ** On a finite map of plain values *)

Section abstract.
Context (cfg : mem_config).

Definition ab_relock (l : option Z) (o : object) : object :=
  match l with Some n => with_lock n o | None => o end.

Definition ab_step (op : top) (m : gmap bytes object) : list tout * gmap bytes object :=
  match op with
  | TApply k h c =>
      match m !! k with
      | Some o =>
          match h with
          | Some h => let '(ops, l) := h (o_meta o) in
                      ([OApply true (abs_run cfg ops o)], <[k := ab_relock l (abs_after cfg ops o)]> m)
          | None => ([OApply false []], m)
          end
      | None =>
          ([OApply false []], match c with Some i => <[k := abs_create cfg i]> m | None => m end)
      end
  | TRemove k p =>
      match m !! k with
      | Some o => ([ORemove true], if p (o_meta o) then delete k m else m)
      | None => ([ORemove false], m)
      end
  | TCollect p => ([], omap (fun o => if p (o_meta o) then None
                                      else Some (with_age (u32 (o_gc_old o + 1)) o)) m)
  end.

Fixpoint ab_run (ops : list top) (m : gmap bytes object) : list tout * gmap bytes object :=
  match ops with
  | [] => ([], m)
  | op :: ops => let '(o, m) := ab_step op m in let '(os, m) := ab_run ops m in (o ++ os, m)
  end.
End abstract.

(** The arguments have their widths, and a step adds at most [n] bytes to an object. *)
Definition top_legal (n : nat) (op : top) : Prop :=
  match op with
  | TApply _ h c =>
      (forall p me, h = Some p ->
         Forall oop_legal (p me).1 /\ (sum_list_with oop_space (p me).1 <= n)%nat) /\
      (forall i, c = Some i -> init_legal i /\ (init_space i <= n)%nat)
  | _ => True
  end.

(** ** The refinement *)

Section refine.
Context (cfg : mem_config) (junk : nat -> nat -> bytes) (raw : cobject).
Context (Hjunk : forall k n, length (junk k n) = n) (IO : list (list io)).
Context {H : Type} `{HT : Table H cobject}.

Abbreviation X := (io_error IO).
Abbreviation represents := (repr junk cfg).
Abbreviation owns_io m Q c := (owp junk IO false X m Q c).

(** Every object of the table stands for the value under its key. *)
Definition entry_rel (b : nat) (x : option (nat * cobject)) (y : option object) : Prop :=
  match x, y with
  | Some (_, c), Some o => represents b c o
  | None, None => True
  | _, _ => False
  end.
Definition table_rel (b : nat) (hm : gmap bytes (nat * cobject)) (m : gmap bytes object) : Prop :=
  forall k, entry_rel b (hm !! k) (m !! k).

Lemma entry_mono b b' x y : (b <= b')%nat -> entry_rel b x y -> entry_rel b' x y.
Proof. destruct x as [[a c]|], y as [o|]; cbn; try done. intros Hb. by apply repr_mono. Qed.

Lemma table_mono b b' hm m : (b <= b')%nat -> table_rel b hm m -> table_rel b' hm m.
Proof. intros Hb Hr k. by eapply entry_mono. Qed.

Lemma table_insert b hm m k a c o :
  table_rel b hm m -> represents b c o -> table_rel b (<[k := (a, c)]> hm) (<[k := o]> m).
Proof.
  intros Hr Ho k'. destruct (decide (k = k')) as [<-|Hne]; [by rewrite !lookup_insert_eq|].
  rewrite !lookup_insert_ne by done. apply Hr.
Qed.

Lemma table_delete b hm m k : table_rel b hm m -> table_rel b (delete k hm) (delete k m).
Proof.
  intros Hr k'. destruct (decide (k = k')) as [<-|Hne]; [by rewrite !lookup_delete_eq|].
  rewrite !lookup_delete_ne by done. apply Hr.
Qed.

Lemma repr_meta b c o : represents b c o -> co_meta c = o_meta o.
Proof. intros []. unfold co_meta, o_meta. congruence. Qed.

Lemma repr_relock b c o l : represents b c o -> represents b (st_relock l c) (ab_relock l o).
Proof.
  intros Hr. destruct l as [n|]; [|done]. pose proof (with_lock_inv cfg n o (r_inv _ _ _ _ _ Hr)).
  destruct Hr. by split.
Qed.

Lemma repr_age b c o :
  represents b c o -> represents b (co_set_age (u32 (co_gc_old c + 1)) c) (with_age (u32 (o_gc_old o + 1)) o).
Proof.
  intros Hr. pose proof (with_age_inv cfg (u32 (o_gc_old o + 1)) o (u32_range _) (r_inv _ _ _ _ _ Hr)).
  destruct Hr. split; try done. cbn. congruence.
Qed.

Lemma focus_ok {A} (m : M ostore A) (Q : A -> cobject -> Prop) c s :
  owns_io m Q c -> ts_io s ⊆ IO ->
  wp X (focus m c) (fun p s' => Q p.1 p.2 /\ ts_io s' ⊆ IO /\ ts_out s' = ts_out s) s.
Proof.
  intros Hm Hs. specialize (Hm {| s_heap := ts_heap s; s_obj := c; s_io := ts_io s |} eq_refl Hs).
  unfold wp, focus in *. destruct (m _) as [[x|a] s']; [done|]. destruct Hm as (HQ&Hio&_). done.
Qed.

Lemma not_nan : ~ X not_a_number.
Proof. by intros []. Qed.

Lemma focus_dtor b c o (Q : cobject -> tstore -> Prop) s :
  represents b c o -> ts_io s ⊆ IO ->
  (forall s', ts_io s' ⊆ IO -> ts_out s' = ts_out s -> Q c s') ->
  wp X (let! (_, c) := focus co_dtor c in ret (true, c)) (fun p s' => p.1 = true /\ Q p.2 s') s.
Proof.
  intros Hr Hs HQ. apply wp_bind. eapply wp_mono.
  - apply (focus_ok _ (fun _ c' => c' = c)); [|done].
    by apply (co_dtor_ok junk IO false cfg ltac:(done) X b c o).
  - intros [u c'] s' (Ec&Hio&Ho). cbn in Ec. subst c'. apply wp_ret. split; [done|]. by apply HQ.
Qed.

Abbreviation after_step n b op m s := (fun hash' s' =>
  t_inv hash' /\ table_rel (b + n) (t_map hash') (ab_step cfg op m).2 /\
  ts_out s' = ts_out s ++ (ab_step cfg op m).1 /\ ts_io s' ⊆ IO).

Lemma emit_end (hash : H) o (Q : H -> tstore -> Prop) s :
  Q hash {| ts_heap := ts_heap s; ts_io := ts_io s; ts_out := ts_out s ++ [o] |} ->
  wp X (emit o ;;! ret hash) Q s.
Proof. intros HQ. by apply wp_bind, wp_modify, wp_ret. Qed.

Lemma st_apply_ok n b k h c hash m s :
  t_inv hash -> table_rel b (t_map hash) m -> top_legal n (TApply k h c) ->
  Z.of_nat (b + n) < 2 ^ 63 -> ts_io s ⊆ IO ->
  wp X (st_step cfg junk raw (TApply k h c) hash) (after_step n b (TApply k h c) m s) s.
Proof.
  intros Hi Hr [Hh Hc] Hlt Hs. cbn [st_step ab_step]. apply wp_bind.
  pose proof (table_mono b (b + n) _ _ ltac:(lia) Hr) as Hr'. pose proof (Hr k) as Hk.
  destruct (t_map hash !! k) as [[a x]|] eqn:Ehit, (m !! k) as [o|]; try done.
  - destruct h as [h|]; cbn [fmap option_fmap option_map].
    + rewrite <- (repr_meta _ _ _ Hk) in *. destruct (h (co_meta x)) as [ops l] eqn:Eh.
      destruct (Hh h (co_meta x) eq_refl) as [Hleg Hsp]. rewrite Eh in *. cbn [fst] in *.
      apply (wp_apply_hit X hash k a x); [done|done|]. unfold st_handler. rewrite Eh. apply wp_bind.
      eapply wp_mono; [apply focus_ok; [|done]; apply (co_run_ok junk Hjunk IO false cfg ltac:(done) X
        ltac:(done) not_nan ops b x o Hk Hleg); [lia|done]|].
      intros [rs x'] s' ([Ers Hx']&Hio&Hout). cbn [fst snd] in *. subst rs. apply wp_bind, wp_modify, wp_ret. cbn [fst snd negb when].
      apply wp_bind, wp_ret, wp_ret. split_and!.
      * by apply t_put_inv.
      * rewrite (t_put_map _ _ _ _ _ Hi Ehit). apply table_insert; [done|].
        apply repr_relock. eapply repr_mono; [|exact Hx']. lia.
      * cbn. by rewrite Hout.
      * done.
    + unfold wp at 1. rewrite (t_apply_hit_null hash k a x) by done. cbn [negb when].
      apply emit_end. cbn. split_and!; try done; [by apply t_skip_inv|by rewrite t_skip_map].
  - destruct c as [i|]; cbn [fmap option_fmap option_map].
    + destruct (Hc i eq_refl) as [Hleg Hsp].
      apply wp_apply_miss; [done|done|]. apply wp_bind.
      eapply wp_mono; [apply focus_ok; [|done]; apply (co_create_ok junk Hjunk IO false cfg ltac:(done) X
        ltac:(done) i raw Hleg); lia|].
      intros [u x'] s' (Hx'&Hio&Hout). apply wp_bind, wp_modify, wp_ret. cbn [fst snd negb when].
      apply wp_bind, wp_ret, wp_ret. split_and!.
      * by apply t_new_inv.
      * rewrite (t_new_map _ _ _ Hi Ehit). apply table_insert; [done|].
        eapply repr_mono; [|exact Hx']. lia.
      * cbn. by rewrite Hout.
      * done.
    + apply wp_apply_none; [done|done|]. cbn [negb when]. apply emit_end. cbn.
      split_and!; try done; [by apply t_skip_inv|by rewrite t_skip_map].
Qed.

Lemma st_remove_ok n b k p hash m s :
  t_inv hash -> table_rel b (t_map hash) m -> ts_io s ⊆ IO ->
  wp X (st_step cfg junk raw (TRemove k p) hash) (after_step n b (TRemove k p) m s) s.
Proof.
  intros Hi Hr Hs. cbn [st_step ab_step]. apply wp_bind.
  pose proof (table_mono b (b + n) _ _ ltac:(lia) Hr) as Hr'. pose proof (Hr k) as Hk.
  destruct (t_map hash !! k) as [[a x]|] eqn:Ehit, (m !! k) as [o|] eqn:Em; try done.
  - apply (wp_remove_if_hit X hash k a x); [done|done|]. unfold st_predicate.
    rewrite (repr_meta _ _ _ Hk). destruct (p (o_meta o)).
    + eapply wp_mono; [apply (focus_dtor b x o (fun _ s' => ts_io s' ⊆ IO /\ ts_out s' = ts_out s)); done|].
      intros [r x'] s' [Er [Hio Hout]]. cbn [fst snd] in *. subst r. apply emit_end. cbn.
      split_and!; [by apply t_del_inv|rewrite t_del_map by done; by apply table_delete|by rewrite Hout|done].
    + apply wp_ret. cbn [fst snd]. apply emit_end. cbn.
      split_and!; [by apply t_put_inv| |done|done].
      rewrite (t_put_map _ _ _ _ _ Hi Ehit). rewrite <- (insert_id m k o Em). apply table_insert; [done|].
      eapply repr_mono; [|exact Hk]. lia.
  - unfold wp at 1. rewrite t_remove_if_miss by done. apply emit_end. cbn.
    split_and!; try done; [by apply t_skip_inv|by rewrite t_skip_map].
Qed.

Lemma st_collect_ok n b p hash m s :
  t_inv hash -> table_rel b (t_map hash) m -> ts_io s ⊆ IO ->
  wp X (st_step cfg junk raw (TCollect p) hash) (after_step n b (TCollect p) m s) s.
Proof.
  intros Hi Hr Hs. cbn [st_step ab_step fst snd].
  set (keep := fun o => if p (o_meta o) then None else Some (with_age (u32 (o_gc_old o + 1)) o)).
  eapply wp_mono.
  - apply (t_gc_rule X (fun todo hm s' => todo ⊆ dom hm /\ ts_io s' ⊆ IO /\ ts_out s' = ts_out s /\
      forall k, entry_rel (b + n) (hm !! k) (if decide (k ∈ todo) then m !! k else omap keep m !! k)));
      [done| | | |].
    + split_and!; try done. intros k. destruct (decide (k ∈ dom (t_map hash))) as [Hin|Hin].
      * eapply entry_mono; [|apply Hr]. lia.
      * apply not_elem_of_dom in Hin. specialize (Hr k). rewrite Hin in *. cbn in *.
        rewrite lookup_omap. by destruct (m !! k).
    + intros todo m0 k a x s0 Hin Hk (Hsub&Hio&Hout&Hrel). pose proof (Hrel k) as Hrk.
      rewrite Hk, decide_True in Hrk by done. destruct (m !! k) as [o|] eqn:Em; [|done]. cbn in Hrk.
      assert (forall s', ts_io s' ⊆ IO -> ts_out s' = ts_out s0 -> forall (r : bool) x',
        entry_rel (b + n) (if r then None else Some (a, x')) (keep o) ->
        let hm := if r then delete k m0 else <[k := (a, x')]> m0 in
        todo ∖ {[k]} ⊆ dom hm /\ ts_io s' ⊆ IO /\ ts_out s' = ts_out s /\
        forall k', entry_rel (b + n) (hm !! k')
          (if decide (k' ∈ todo ∖ {[k]}) then m !! k' else omap keep m !! k')) as Hnext.
      { intros s' Hio' Hout' r x' He. cbv zeta. split_and!; [destruct r; set_solver|done|congruence|].
        intros k'. destruct (decide (k' = k)) as [-> |Hne].
        - rewrite decide_False by set_solver. rewrite lookup_omap, Em. cbn.
          destruct r; [by rewrite lookup_delete_eq|by rewrite lookup_insert_eq].
        - assert ((if r then delete k m0 else <[k := (a, x')]> m0) !! k' = m0 !! k') as ->
            by (destruct r; [by rewrite lookup_delete_ne|by rewrite lookup_insert_ne]).
          specialize (Hrel k'). destruct (decide (k' ∈ todo)).
          + by rewrite decide_True by set_solver.
          + by rewrite decide_False by set_solver. }
      unfold st_collect. rewrite (repr_meta _ _ _ Hrk).
      destruct (p (o_meta o)) eqn:Ep.
      * eapply wp_mono; [apply (focus_dtor (b + n) x o (fun _ s' => ts_io s' ⊆ IO /\ ts_out s' = ts_out s0)); done|].
        intros [r x'] s' [Er [Hio' Hout']]. cbn [fst snd] in *. subst r.
        apply (Hnext s' Hio' Hout' true x'). unfold keep. by rewrite Ep.
      * apply wp_ret. cbn [fst snd]. apply (Hnext s0 Hio eq_refl false). unfold keep. rewrite Ep.
        by apply repr_age.
    + intros todo m0 s0 HI. by apply wp_ret.
    + intros todo m0 s0 HI. by apply wp_ret.
  - intros hash' s' (Hi'&_&Hio&Hout&Hrel). split_and!; [done| |by rewrite app_nil_r|done].
    intros k. specialize (Hrel k). by rewrite decide_False in Hrel by set_solver.
Qed.

Lemma st_step_ok n b op hash m s :
  t_inv hash -> table_rel b (t_map hash) m -> top_legal n op -> Z.of_nat (b + n) < 2 ^ 63 ->
  ts_io s ⊆ IO -> wp X (st_step cfg junk raw op hash) (after_step n b op m s) s.
Proof.
  destruct op as [k h c|k p|p]; intros; [by apply st_apply_ok|by apply st_remove_ok|by apply st_collect_ok].
Qed.

Lemma st_run_ok n ops b hash m s :
  t_inv hash -> table_rel b (t_map hash) m -> Forall (top_legal n) ops ->
  Z.of_nat (b + length ops * n) < 2 ^ 63 -> ts_io s ⊆ IO ->
  wp X (st_run cfg junk raw ops hash) (fun hash' s' =>
    t_inv hash' /\ table_rel (b + length ops * n) (t_map hash') (ab_run cfg ops m).2 /\
    ts_out s' = ts_out s ++ (ab_run cfg ops m).1) s.
Proof.
  revert b hash m s. induction ops as [|op ops IH]; intros b hash m s Hi Hr Hleg Hlt Hs;
    cbn [st_run ab_run length Nat.mul] in *.
  { apply wp_ret. cbn. rewrite app_nil_r, Nat.add_0_r. done. }
  apply Forall_cons in Hleg as [Hop Hleg]. apply wp_bind.
  eapply wp_mono; [apply (st_step_ok n b op hash m s); try done; lia|].
  destruct (ab_step cfg op m) as [o m1]. cbn [fst snd]. intros hash1 s1 (Hi1&Hr1&Ho1&Hs1).
  eapply wp_mono; [apply (IH (b + n)%nat hash1 m1 s1); try done; lia|].
  destruct (ab_run cfg ops m1) as [os m2]. cbn [fst snd]. intros hash2 s2 (Hi2&Hr2&Ho2).
  split_and!; [done| |by rewrite Ho2, Ho1, app_assoc]. by rewrite Nat.add_assoc.
Qed.

(** C9: The table of stored objects is a finite map of values.  For any seed and number of
    buckets, any sequence of lookups with handlers, insertions, removals and collections on
    an empty table whose objects live in buffers and temporary files gives the client the
    same answers as the finite map from keys to plain values, whatever the allocator hands
    out and however the kernel splits reads and writes, as long as the sizes add up to less
    than 2^63; at the end every key has the value it should have.  The one other outcome is
    [std::system_error], when a system call failed. *)
Theorem table_store_refines n ops hash s :
  ts_io s ⊆ IO -> t_inv hash -> t_map hash = ∅ -> Forall (top_legal n) ops ->
  Z.of_nat (length ops * n) < 2 ^ 63 ->
  match st_run cfg junk raw ops hash s with
  | (inr hash', s') =>
      ts_out s' = ts_out s ++ (ab_run cfg ops ∅).1 /\
      table_rel (length ops * n) (t_map hash') (ab_run cfg ops ∅).2
  | (inl x, _) => x = system_error /\ exists ios, ios ∈ IO /\ Fail ∈ ios
  end.
Proof using Hjunk HT.
  intros Hs Hi Hm Hleg Hlt.
  pose proof (st_run_ok n ops 0 hash ∅ s Hi) as Hw. rewrite Hm in Hw.
  assert (table_rel 0 ∅ ∅) as H0' by done.
  specialize (Hw H0' Hleg Hlt Hs).
  unfold wp in Hw. destruct (st_run _ _ _ _ _ _) as [[x|hash'] s']; [done|].
  destruct Hw as (_&Hrel&Hout). by split.
Qed.
End refine.

(** ** A run

    Two values, one of which grows into a file, a conditional replacement, a number and a
    collection of what has not been used. *)
Definition get_plan : plan := fun _ => ([ORead], None).
Definition cas_plan (cas : Z) (p : bytes) : plan := fun me =>
  if me_cas me =? cas then ([OSet p 0 0], None) else ([], None).
Definition sample_tops : list top :=
  [TApply (lit "a") None (Some (INew (lit "value") 1 0));
   TApply (lit "n") None (Some (INumber 41 0));
   TApply (lit "a") (Some (fun _ => ([OAppend (lit " of a"); ORead], Some 5))) None;
   TApply (lit "n") (Some (fun _ => ([OIncr 1; ORead], None))) None;
   TApply (lit "a") (Some (cas_plan 1 (lit "lost"))) None;
   TApply (lit "b") (Some get_plan) None;
   TCollect (fun me => me_lock me =? -1);
   TApply (lit "n") (Some get_plan) None;
   TRemove (lit "a") (fun me => negb (me_lock me =? 5));
   TApply (lit "a") (Some get_plan) None].

Definition sample_tstore (ios : list (list io)) : tstore :=
  {| ts_heap := fresh_heap; ts_io := ios; ts_out := [] |}.
Definition sample_raw : cobject :=
  co_init 0 {| d_p := None; d_default_capacity := 0; d_capacity := 0; d_erase := true; d_used := 0 |} 0 0.

Lemma sample_tops_legal : Forall (top_legal 48) sample_tops.
Proof.
  assert (forall l, Forall oop_legal l -> (sum_list_with oop_space l <= 48)%nat -> forall c : option Z,
    Forall oop_legal (l, c).1 /\ (sum_list_with oop_space (l, c).1 <= 48)%nat) as Hp by done.
  unfold sample_tops, get_plan, cas_plan. repeat apply Forall_cons_2; try exact I; try apply Forall_nil_2.
  all: split; [intros q me Eq; first [discriminate Eq|injection Eq as <-; try case_match; (apply Hp;
      [repeat (apply Forall_cons_2; [first [exact I|cbn; lia]|]); apply Forall_nil_2|vm_compute; lia])]
    |intros i Ei; first [discriminate Ei|injection Ei as <-; split; [cbn; lia|vm_compute; lia]]].
Qed.

Lemma table_store_refines_witness :
  let sk := siphash24_seed (replicate 16 x00) in
  exists hash' s',
    st_run (small_config 8) some_junk sample_raw (H0 := hash_map_ops sk cobject) sample_tops
      (hash_map_ctor cobject 3) (sample_tstore [[]; [Short 2]; []; [Short 1]]) = (inr hash', s') /\
    ts_out s' = [OApply false []; OApply false []; OApply true [RUnit; RBytes (lit "value of a")];
                 OApply true [RNumber 42; RBytes (lit "42")]; OApply true []; OApply false [];
                 OApply false []; ORemove true; OApply true [RBytes (lit "value of a")]].
Proof.
  intros sk.
  pose proof (table_store_refines (small_config 8) some_junk sample_raw some_junk_length
    [[]; [Short 2]; []; [Short 1]] (HT := hash_map_table sk cobject) 48 sample_tops (hash_map_ctor cobject 3)
    (sample_tstore [[]; [Short 2]; []; [Short 1]])) as H.
  specialize (H (reflexivity _) (ctor_inv sk 3 eq_refl) (ctor_map 3)).
  specialize (H sample_tops_legal ltac:(vm_compute; done)).
  destruct (st_run _ _ _ _ _ _) as [[x|hash'] s'].
  - destruct H as (_&l&Hl&Hf). exfalso.
    repeat (apply elem_of_cons in Hl as [-> |Hl]; [set_solver|]). by apply elem_of_nil in Hl.
  - exists hash', s'. split; [done|]. destruct H as [-> _]. vm_compute. reflexivity.
Defined.
