(* ===== verification/RecvJob.v ===== *)
(** * The receive job and its buffers

    The jobs that read from clients (m_recvjob of src/memcache/sockets.cpp and of
    src/counter/sockets.cpp) are the same code around different requests: the bytes left over from
    the previous job are put in front of the worker's buffer, data is received behind them, complete
    requests are executed, the rest is kept.  MemSocket and Counter describe the jobs
    on plain sequences of bytes; here they run on the buffers of cybozu/dynbuf.hpp
    through tcp_socket::receive of cybozu/tcp.hpp.  Theorems: they are the same, the
    buffers stay bounded, and nothing outside them is read or written. *)

From S2P Require Import Prelude.
From S2P Require Import Dynbuf Tempfile DynbufFrame.

(** ** What is executed *)

(** The requests of a protocol, on a table of type [H]: the loop over the complete
    requests at the start of a buffer, giving what is left; what is done for a
    connection that is lost; and [invalidate_and_close]. *)
Class Service (E H : Type) := {
  sv_process : bytes -> H -> M E (bytes * H);
  sv_cleanup : H -> M E H;
  sv_close : M E unit
}.

(** The loop only moves the start of the buffer. *)
Class ServiceOk (E H : Type) `{Service E H} : Prop := {
  sv_rest : forall head hash e rest hash' e',
    sv_process head hash e = (inr (rest, hash'), e') -> rest `suffix_of` head
}.

(** [recv_result], with the bytes received; [ERROR] stands for the exception that [receive]
    throws for an error other than [EAGAIN], [EINTR] and [ECONNRESET]. *)
Inductive recv_result := OK (p : bytes) | AGAIN | RESET | NONE | ERROR.

(** What one [::recv] answers. *)
Inductive os_answer := Data (p : bytes) | Eagain | Eintr | Econnreset | Closed | Eother.

(** One call of [receive]: whether the socket has been invalidated since the last one, by
    another thread or by a request such as quit, and the answers to its calls of [::recv]. *)
Record call := { k_invalidated : bool; k_answers : list os_answer }.

(** [do ... while( n == -1 && errno == EINTR )]. *)
Fixpoint recv (answers : list os_answer) : os_answer :=
  match answers with
  | [] => Eagain
  | Eintr :: answers => recv answers
  | a :: _ => a
  end.

Section job.
Context {E H : Type} `{SV : Service E H} (junk : nat -> nat -> bytes).
(** [MAX_RECVSIZE] and [MAX_REQUEST_LENGTH]. *)
Context (max_recvsize : nat) (max_request_length : Z).

(** ** On plain bytes *)

Fixpoint plain_loop (rs : list recv_result) (buf : bytes) (hash : H) : M E (bytes * H) :=
  match rs with
  | [] | AGAIN :: _ => ret (buf, hash)
  | RESET :: _ | NONE :: _ => let! hash := sv_cleanup hash in ret ([], hash)
  | ERROR :: _ => throw system_error
  | OK d :: rs =>
      let! (rest, hash) := sv_process (buf ++ d) hash in
      if blen rest >? max_request_length then
        let! hash := sv_cleanup hash in
        sv_close ;;!
        ret ([], hash)
      else plain_loop rs rest hash
  end.

(** ** On the buffers *)

(** A connection on a worker: memory, the environment of the requests, the table, the
    worker's buffer, [m_pending], and whether the socket is valid. *)
Record conn := {
  cn_heap : heap;
  cn_env : E;
  cn_hash : H;
  cn_buf : dynbuf;
  cn_pending : dynbuf;
  cn_valid : bool
}.
Definition cn_set_buf (d : dynbuf) (c : conn) : conn :=
  {| cn_heap := cn_heap c; cn_env := cn_env c; cn_hash := cn_hash c; cn_buf := d;
     cn_pending := cn_pending c; cn_valid := cn_valid c |}.
Definition cn_set_pending (d : dynbuf) (c : conn) : conn :=
  {| cn_heap := cn_heap c; cn_env := cn_env c; cn_hash := cn_hash c; cn_buf := cn_buf c;
     cn_pending := d; cn_valid := cn_valid c |}.
Definition cn_set_hash (h : H) (c : conn) : conn :=
  {| cn_heap := cn_heap c; cn_env := cn_env c; cn_hash := h; cn_buf := cn_buf c;
     cn_pending := cn_pending c; cn_valid := cn_valid c |}.
Definition cn_invalidate (c : conn) : conn :=
  {| cn_heap := cn_heap c; cn_env := cn_env c; cn_hash := cn_hash c; cn_buf := cn_buf c;
     cn_pending := cn_pending c; cn_valid := false |}.
Definition cn_set_heap (h : heap) (c : conn) : conn :=
  {| cn_heap := h; cn_env := cn_env c; cn_hash := cn_hash c; cn_buf := cn_buf c;
     cn_pending := cn_pending c; cn_valid := cn_valid c |}.
Definition cn_set_env (e : E) (c : conn) : conn :=
  {| cn_heap := cn_heap c; cn_env := e; cn_hash := cn_hash c; cn_buf := cn_buf c;
     cn_pending := cn_pending c; cn_valid := cn_valid c |}.

(** Methods of [buf] and of [m_pending], and the requests. *)
Definition mem {A} (m : M heap A) : M conn A := fun c =>
  let (r, h) := m (cn_heap c) in (r, cn_set_heap h c).
Definition on_buf (f : dynbuf -> M heap dynbuf) : M conn unit :=
  let! d := gets cn_buf in
  let! d := mem (f d) in
  modify (cn_set_buf d).
Definition on_pending (f : dynbuf -> M heap dynbuf) : M conn unit :=
  let! d := gets cn_pending in
  let! d := mem (f d) in
  modify (cn_set_pending d).
Definition serve {A} (m : M E A) : M conn A := fun c =>
  let (r, e) := m (cn_env c) in (r, cn_set_env e c).

(** [tcp_socket::receive]: the kernel writes to the prepared space. *)
Definition receive (k : call) : M conn recv_result :=
  on_buf (prepare junk max_recvsize) ;;!
  when (k_invalidated k) (modify cn_invalidate) ;;!
  let! valid := gets cn_valid in
  if negb valid then ret RESET else
  match recv (k_answers k) with
  | Econnreset => modify cn_invalidate ;;! ret RESET
  | Closed => ret NONE
  | Eagain => ret AGAIN
  | Data p =>
      on_buf (fun d => let! b := store (block d) (d_used d) p in
                       ret (consume (length p) (set_block (Some b) (d_capacity d) (d_used d) d))) ;;!
      ret (OK p)
  | Eintr | Eother => throw system_error
  end.

Definition cleanup : M conn unit :=
  let! hash := gets cn_hash in
  let! hash := serve (sv_cleanup hash) in
  modify (cn_set_hash hash).

(** The [while( true )] of the job; after the listed calls there is no more data. *)
Definition no_more : call := {| k_invalidated := false; k_answers := [] |}.

(** One round; [again] is the rest of the loop. *)
Definition loop_body (k : call) (again : M conn unit) : M conn unit :=
  let! res := receive k in
  match res with
  | AGAIN => ret tt
  | RESET | NONE => on_buf (reset junk) ;;! cleanup
  | ERROR => throw system_error
  | OK _ =>
      let! d := gets cn_buf in
      let! hash := gets cn_hash in
      let! (rest, hash) := serve (sv_process (Dynbuf.contents d) hash) in
      modify (cn_set_hash hash) ;;!
      if blen rest >? max_request_length then
        (on_buf (reset junk) ;;! cleanup) ;;!
        serve sv_close ;;!
        modify cn_invalidate
      else
        on_buf (erase junk (d_used d - length rest)) ;;!
        again
  end.

Fixpoint buf_loop (calls : list call) : M conn unit :=
  match calls with
  | [] => loop_body no_more (ret tt)
  | k :: calls => loop_body k (buf_loop calls)
  end.

(** [m_recvjob], after the lock context has been set. *)
Definition buf_job (calls : list call) : M conn unit :=
  let! p := gets cn_pending in
  when (negb (empty p)) (on_buf (append junk (Dynbuf.contents p)) ;;! on_pending (reset junk)) ;;!
  buf_loop calls ;;!
  let! d := gets cn_buf in
  when (0 <? d_used d)%nat (on_pending (append junk (Dynbuf.contents d))).

(** The worker empties its buffer after each job (worker::run). *)
Definition run_job (calls : list call) : M conn unit :=
  buf_job calls ;;!
  on_buf (reset junk).

(** What a call of [receive] on a socket gives. *)
Definition result_of (valid : bool) (k : call) : recv_result :=
  if valid && negb (k_invalidated k) then
    match recv (k_answers k) with
    | Data p => OK p
    | Closed => NONE
    | Econnreset => RESET
    | Eagain => AGAIN
    | Eintr | Eother => ERROR
    end
  else RESET.

Fixpoint results (valid : bool) (calls : list call) : list recv_result :=
  match calls with
  | [] => [result_of valid no_more]
  | k :: calls => result_of valid k :: results valid calls
  end.

(** ** Correctness *)

Context {SVOK : ServiceOk E H}.
Hypothesis Hjunk : forall k n, length (junk k n) = n.
(** [WORKER_BUFSIZE]. *)
Context (bufsize : nat).
Definition max_request : nat := Z.to_nat max_request_length.
Definition buf_bound : nat := bufsize + max_request + 2 * max_recvsize.
Hypothesis Hsize : Z.of_nat (buf_bound + max_request + max_recvsize) < 2 ^ 64.

(** The kernel writes at least a byte and never more than it was asked to. *)
Definition call_ok (k : call) : Prop :=
  match recv (k_answers k) with
  | Data p => (0 < length p <= max_recvsize)%nat
  | _ => True
  end.

Lemma recv_not_intr l : recv l <> Eintr.
Proof. induction l as [|[] l IH]; done. Qed.

(** At the head of the loop. *)
Record loop_inv (c : conn) : Prop := {
  li_good : dyn_good junk (cn_buf c);
  li_default : d_default_capacity (cn_buf c) = bufsize;
  li_used : (d_used (cn_buf c) <= max_request)%nat;
  li_cap : (d_capacity (cn_buf c) <= buf_bound)%nat
}.

Lemma on_buf_run f c P :
  wp no_exn (f (cn_buf c)) (fun d _ => P d) (cn_heap c) ->
  exists d h, on_buf f c = (inr tt, cn_set_buf d (cn_set_heap h c)) /\ P d.
Proof.
  intros (d&h&E1&Hd)%wp_run. exists d, h. split; [|done]. unfold on_buf, mem, bind, gets, modify. by rewrite E1.
Qed.

Lemma on_pending_run f c P :
  wp no_exn (f (cn_pending c)) (fun d _ => P d) (cn_heap c) ->
  exists d h, on_pending f c = (inr tt, cn_set_pending d (cn_set_heap h c)) /\ P d.
Proof.
  intros (d&h&E1&Hd)%wp_run. exists d, h. split; [|done]. unfold on_pending, mem, bind, gets, modify. by rewrite E1.
Qed.

(** [prepare] grows the buffer only when it has less room than one receive. *)
Lemma prepare_bounded d h :
  dyn_good junk d -> d_default_capacity d = bufsize -> (d_used d <= max_request)%nat -> (d_capacity d <= buf_bound)%nat ->
  wp no_exn (prepare junk max_recvsize d) (fun d' _ => dyn_good junk d' /\
    Dynbuf.contents d' = Dynbuf.contents d /\ d_used d' = d_used d /\ d_default_capacity d' = bufsize /\
    (d_used d' + max_recvsize <= d_capacity d' <= buf_bound)%nat) h.
Proof.
  intros Hg Hd Hu Hc. unfold prepare, freebytes. pose proof (do_used _ (proj1 Hg)) as Hle.
  destruct (Nat.ltb_spec (d_capacity d - d_used d) max_recvsize).
  - eapply wp_mono.
    { eapply (wp_local junk _ _ false); [apply local_enlarge|apply (enlarge_ok junk Hjunk); [by apply good_inv|lia]|].
      intros d' h' (((Hok&Hcl&_)&Hct&Hdd&He&_)&Hu'&Hcap). split; [|done].
      exact (conj (conj Hok Hcl) (conj Hct (conj Hu' (conj Hdd Hcap)))). }
    intros d' h' [(Hg'&Hct&Hu'&Hdd&Hcap) _]. split_and!; try done; [congruence|lia|].
    unfold buf_bound in *. lia.
  - apply wp_ret. split_and!; try done. lia.
Qed.

(** What stays the same while data is received. *)
Definition same_rest (c c' : conn) : Prop :=
  cn_env c' = cn_env c /\ cn_hash c' = cn_hash c /\ cn_pending c' = cn_pending c.

Lemma receive_ok k c :
  loop_inv c -> call_ok k ->
  let res := result_of (cn_valid c) k in
  exists c', receive k c = (match res with ERROR => inl system_error | _ => inr res end, c') /\ same_rest c c' /\
    dyn_good junk (cn_buf c') /\ d_default_capacity (cn_buf c') = bufsize /\ (d_capacity (cn_buf c') <= buf_bound)%nat /\
    match res with
    | OK p => Dynbuf.contents (cn_buf c') = Dynbuf.contents (cn_buf c) ++ p /\ cn_valid c' = cn_valid c
    | _ => Dynbuf.contents (cn_buf c') = Dynbuf.contents (cn_buf c) /\ d_used (cn_buf c') = d_used (cn_buf c)
    end.
Proof.
  intros [Hg Hd Hu Hc] Hk res. unfold receive.
  destruct (on_buf_run (prepare junk max_recvsize) c _ (prepare_bounded _ _ Hg Hd Hu Hc))
    as (d1&h1&E1&Hg1&Hc1&Hu1&Hd1&Hroom). unfold bind at 1. rewrite E1. clear E1.
  set (c1 := cn_set_buf d1 (cn_set_heap h1 c)).
  assert (dyn_good junk (cn_buf c1) /\ d_default_capacity (cn_buf c1) = bufsize /\
    (d_capacity (cn_buf c1) <= buf_bound)%nat) as (Hi1&Hi2&Hi3)
    by (split; [done|split; [done|cbn; lia]]).
  unfold res, result_of, call_ok in *. clear res.
  destruct (k_invalidated k) eqn:Ek; cbn [when].
  { rewrite andb_false_r. exists (cn_invalidate c1). by split_and!. }
  rewrite andb_true_r. unfold bind at 1, ret at 1. unfold bind at 1, gets at 1. change (cn_valid c1) with (cn_valid c).
  destruct (cn_valid c) eqn:Ev; cbn [negb].
  2:{ exists c1. by split_and!. }
  pose proof (recv_not_intr (k_answers k)) as Hni.
  destruct (recv (k_answers k)) as [p| | | | |] eqn:Er; try done.
  - pose proof (do_len _ (proj1 Hg1)) as Hlen.
    assert (dyn_ok d1) as Hok1 by apply Hg1.
    destruct (on_buf_run (fun d => let! b := store (block d) (d_used d) p in
      ret (consume (length p) (set_block (Some b) (d_capacity d) (d_used d) d))) c1
      (fun d => d = consume (length p) (set_block (Some (splice (block d1) (d_used d1) p)) (d_capacity d1) (d_used d1) d1)))
      as (d2&h2&E2&Hd2).
    { apply wp_bind, wp_store; [cbn; lia|]. by apply wp_ret. }
    unfold bind at 1. rewrite E2. exists (cn_set_buf d2 (cn_set_heap h2 c1)). split; [done|]. split; [done|].
    destruct (written_ok junk d1 fresh_heap p (good_inv junk d1 fresh_heap Hg1 eq_refl) ltac:(lia)) as [(Hok2&Hcl2&_) Hct2].
    subst d2. cbn [cn_buf cn_set_buf]. rewrite <- Hc1. split_and!; done.
  - exists c1. by split_and!.
  - exists (cn_invalidate c1). by split_and!.
  - exists c1. by split_and!.
  - exists c1. by split_and!.
Qed.

Lemma cleanup_run c :
  cleanup c = match sv_cleanup (cn_hash c) (cn_env c) with
  | (inr hash, e) => (inr tt, cn_set_hash hash (cn_set_env e c))
  | (inl x, e) => (inl x, cn_set_env e c)
  end.
Proof. unfold cleanup, serve, bind, gets, modify. by destruct (sv_cleanup _ _) as [[x|hash] e]. Qed.

Lemma contents_nil_used d : dyn_ok d -> Dynbuf.contents d = [] -> d_used d = 0%nat.
Proof. intros Hok Hc. rewrite <- (dyn_contents_length d Hok). by rewrite Hc. Qed.

(** The worker's buffer at any time. *)
Definition buf_ok (c : conn) : Prop :=
  dyn_good junk (cn_buf c) /\ d_default_capacity (cn_buf c) = bufsize /\ (d_capacity (cn_buf c) <= buf_bound)%nat.

Lemma reset_run c :
  buf_ok c ->
  exists d h, on_buf (reset junk) c = (inr tt, cn_set_buf d (cn_set_heap h c)) /\
    Dynbuf.contents d = [] /\ forall c', cn_buf c' = d -> loop_inv c'.
Proof.
  intros (Hg&Hd&Hc).
  destruct (on_buf_run (reset junk) c (fun d' => dyn_good junk d' /\ Dynbuf.contents d' = [] /\
    d_default_capacity d' = bufsize /\ (d_capacity d' <= buf_bound)%nat)) as (d&h&E1&Hg'&Hc'&Hd'&Hcap').
  { eapply wp_mono; [by apply (good_reset junk Hjunk)|]. intros d' h' [(Hg'&Hc'&Hd'&_&Hcap) _].
    split; [done|]. split; [done|]. split; [congruence|]. unfold buf_bound in *. lia. }
  exists d, h. split; [done|]. split; [done|]. intros c2 <-. split; try done.
  rewrite contents_nil_used; [lia|apply Hg'|done].
Qed.

(** The relation between a run on buffers and one on plain bytes. *)
Definition agrees (run : (exn + unit) * conn) (plain : (exn + bytes * H) * E) (P : conn -> Prop) : Prop :=
  match run with
  | (inr _, c) => P c /\ plain = (inr (Dynbuf.contents (cn_buf c), cn_hash c), cn_env c)
  | (inl x, c) => plain = (inl x, cn_env c)
  end.

(** Losing the connection. *)
Lemma lost_run c :
  buf_ok c ->
  exists d h, Dynbuf.contents d = [] /\ (forall c', cn_buf c' = d -> loop_inv c') /\
    (on_buf (reset junk) ;;! cleanup) c =
      let c' := cn_set_buf d (cn_set_heap h c) in
      match sv_cleanup (cn_hash c) (cn_env c) with
      | (inr hash, e) => (inr tt, cn_set_hash hash (cn_set_env e c'))
      | (inl x, e) => (inl x, cn_set_env e c')
      end.
Proof.
  intros Hi. destruct (reset_run c Hi) as (d&h&E1&Hc&Hl). exists d, h. split; [done|]. split; [done|].
  unfold bind. rewrite E1. by rewrite cleanup_run.
Qed.

Lemma erase_run c rest :
  buf_ok c -> rest `suffix_of` Dynbuf.contents (cn_buf c) -> (length rest <= max_request)%nat ->
  exists d h, on_buf (erase junk (d_used (cn_buf c) - length rest)) c = (inr tt, cn_set_buf d (cn_set_heap h c)) /\
    Dynbuf.contents d = rest /\ forall c', cn_buf c' = d -> loop_inv c'.
Proof.
  intros (Hg&Hd&Hc) [pre Hpre] Hlen. pose proof (dyn_contents_length _ (proj1 Hg)) as Hu.
  rewrite Hpre, length_app in Hu.
  destruct (on_buf_run (erase junk (d_used (cn_buf c) - length rest)) c (fun d' => dyn_good junk d' /\
    Dynbuf.contents d' = rest /\ d_default_capacity d' = bufsize /\ (d_capacity d' <= buf_bound)%nat))
    as (d&h&E1&Hg'&Hc'&Hd'&Hcap').
  { eapply wp_mono; [apply (good_erase junk Hjunk); [done|lia]|]. intros d' h' [(Hg'&Hc'&Hd'&_&Hcap) _].
    split; [done|]. split; [|split; [congruence|unfold buf_bound in *; lia]].
    rewrite Hc', Hpre. apply drop_app_length'. lia. }
  exists d, h. split; [done|]. split; [done|]. intros c2 <-. split; try done.
  rewrite <- (dyn_contents_length _ (proj1 Hg')). by rewrite Hc'.
Qed.

Lemma loop_body_ok k again rs c :
  loop_inv c -> call_ok k ->
  (forall c1, loop_inv c1 -> cn_valid c1 = cn_valid c ->
     agrees (again c1) (plain_loop rs (Dynbuf.contents (cn_buf c1)) (cn_hash c1) (cn_env c1))
       (fun c' => loop_inv c' /\ cn_pending c' = cn_pending c1)) ->
  agrees (loop_body k again c)
    (plain_loop (result_of (cn_valid c) k :: rs) (Dynbuf.contents (cn_buf c)) (cn_hash c) (cn_env c))
    (fun c' => loop_inv c' /\ cn_pending c' = cn_pending c).
Proof.
  intros Hi Hk Hagain. destruct (receive_ok k c Hi Hk) as (c1&E1&(He&Hh&Hp)&Hg&Hd&Hc&Hres).
  assert (buf_ok c1) as Hb by (by split). rewrite <- He, <- Hh, <- Hp.
  unfold loop_body, bind at 1. rewrite E1. clear E1. revert Hres.
  assert (agrees ((on_buf (reset junk) ;;! cleanup) c1)
    ((let! hash := sv_cleanup (cn_hash c1) in ret ([], hash)) (cn_env c1))
    (fun c' => loop_inv c' /\ cn_pending c' = cn_pending c1)) as Hlost.
  { destruct (lost_run c1 Hb) as (d&h&Hct&Hl&->). unfold bind.
    destruct (sv_cleanup (cn_hash c1) (cn_env c1)) as [[x|hash] e]; [done|]. cbn. rewrite Hct.
    split; [|done]. split; [by apply Hl|done]. }
  destruct (result_of (cn_valid c) k) as [p| | | |]; cbn [plain_loop]; [|intros [Hct Hu] ..|]; try done.
  2:{ cbn. rewrite Hct. split; [|done]. split; [|done]. destruct Hi. split; try done. by rewrite Hu. }
  intros [Hct Hv]. rewrite <- Hct. unfold bind at 1 2, gets.
  destruct (sv_process (Dynbuf.contents (cn_buf c1)) (cn_hash c1) (cn_env c1)) as [[x|[rest hash]] e] eqn:Ep.
  { rewrite (bind_exn _ _ _ _ _ Ep), (bind_exn _ _ _ x (cn_set_env e c1)); [done|]. unfold serve. by rewrite Ep. }
  rewrite (bind_run _ _ _ _ _ Ep), (bind_run _ _ _ (rest, hash) (cn_set_env e c1)) by (unfold serve; by rewrite Ep).
  pose proof (sv_rest _ _ _ _ _ _ Ep) as Hsuf. rewrite (bind_run _ _ _ tt (cn_set_hash hash (cn_set_env e c1))) by done.
  set (c2 := cn_set_hash hash (cn_set_env e c1)). assert (buf_ok c2) as Hb2 by (by split).
  rewrite Z.gtb_ltb. destruct (Z.ltb_spec max_request_length (blen rest)) as [Hbig|Hsmall].
  - destruct (lost_run c2 Hb2) as (d&h&Hcd&Hl&El). cbn [c2 cn_hash cn_env cn_set_hash cn_set_env] in El.
    destruct (sv_cleanup hash e) as [[x|hash'] e'] eqn:Ec.
    { rewrite (bind_exn _ _ _ _ _ El). by rewrite (bind_exn _ _ _ _ _ Ec). }
    rewrite (bind_run _ _ _ _ _ El), (bind_run _ _ _ _ _ Ec). unfold bind, serve, modify. cbn [cn_env cn_set_hash cn_set_env].
    destruct (sv_close e') as [[x|[]] e'']; [done|]. cbn. rewrite Hcd. split; [|done]. split; [by apply Hl|done].
  - destruct (erase_run c2 rest Hb2 Hsuf ltac:(unfold max_request, blen in *; lia)) as (d&h&E2&Hcd&Hl).
    change (d_used (cn_buf c1)) with (d_used (cn_buf c2)). rewrite (bind_run _ _ _ _ _ E2).
    specialize (Hagain (cn_set_buf d (cn_set_heap h c2)) ltac:(by apply Hl) Hv). cbn in Hagain. rewrite Hcd in Hagain.
    exact Hagain.
Qed.

Lemma buf_loop_ok calls c :
  loop_inv c -> Forall call_ok calls ->
  agrees (buf_loop calls c)
    (plain_loop (results (cn_valid c) calls) (Dynbuf.contents (cn_buf c)) (cn_hash c) (cn_env c))
    (fun c' => loop_inv c' /\ cn_pending c' = cn_pending c).
Proof.
  revert c. induction calls as [|k calls IH]; intros c Hi Hk; cbn [buf_loop results].
  - apply loop_body_ok; [done|done|]. intros c1 Hi1 _. by split.
  - apply Forall_cons in Hk as [Hk Hks]. apply loop_body_ok; [done|done|].
    intros c1 Hi1 Hv. rewrite <- Hv. by apply IH.
Qed.

(** ** Whole jobs *)

(** Between jobs: the worker's buffer is empty and has its first size, and what is
    pending is at most the longest request. *)
Record idle (c : conn) : Prop := {
  id_good : dyn_good junk (cn_buf c);
  id_empty : Dynbuf.contents (cn_buf c) = [];
  id_default : d_default_capacity (cn_buf c) = bufsize;
  id_cap : d_capacity (cn_buf c) = bufsize;
  id_pending : dyn_good junk (cn_pending c);
  id_pdefault : d_default_capacity (cn_pending c) = 0%nat;
  id_pcap : (d_capacity (cn_pending c) <= max_request)%nat;
  id_pnone : d_used (cn_pending c) = 0%nat -> d_capacity (cn_pending c) = 0%nat
}.

(** During the loop [m_pending] is empty. *)
Definition pending_empty (d : dynbuf) : Prop :=
  dyn_good junk d /\ d_default_capacity d = 0%nat /\ d_capacity d = 0%nat /\ d_used d = 0%nat.

Lemma wp_reset_exact d h :
  dyn_good junk d -> wp no_exn (reset junk d) (fun d' _ => dyn_good junk d' /\ Dynbuf.contents d' = [] /\
    d_default_capacity d' = d_default_capacity d /\ d_capacity d' = d_default_capacity d) h.
Proof.
  intros Hg. destruct (wp_run _ _ _ (good_reset junk Hjunk no_exn d h Hg)) as (d'&h'&E1&(Hg'&Hc'&Hd'&_)&_).
  unfold wp. rewrite E1. split; [done|]. split; [done|]. split; [done|]. by eapply reset_capacity.
Qed.

(** Taking over what is pending. *)
Lemma load_pending_ok c :
  idle c ->
  exists c', (let! p := gets cn_pending in
     when (negb (empty p)) (on_buf (append junk (Dynbuf.contents p)) ;;! on_pending (reset junk))) c = (inr tt, c') /\
    loop_inv c' /\ Dynbuf.contents (cn_buf c') = Dynbuf.contents (cn_pending c) /\ pending_empty (cn_pending c') /\
    cn_env c' = cn_env c /\ cn_hash c' = cn_hash c /\ cn_valid c' = cn_valid c.
Proof.
  intros [Hg He Hd Hc Hp Hpd Hpc Hpn]. unfold bind at 1, gets, empty.
  pose proof (dyn_contents_length _ (proj1 Hp)) as Hpl. pose proof (do_used _ (proj1 Hp)) as Hpu.
  destruct (Nat.eqb_spec (d_used (cn_pending c)) 0) as [Hz|Hnz]; cbn [negb when].
  - exists c. split; [done|]. assert (Dynbuf.contents (cn_pending c) = []) as Hnil by (apply nil_length_inv; lia).
    rewrite Hnil. split; [|split; [done|split; [|done]]].
    + split; try done; [rewrite contents_nil_used; [lia|apply Hg|done]|unfold buf_bound; lia].
    + split; [done|]. split; [done|]. split; [by apply Hpn|done].
  - destruct (on_buf_run (append junk (Dynbuf.contents (cn_pending c))) c (fun d => dyn_good junk d /\
      Dynbuf.contents d = Dynbuf.contents (cn_pending c) /\ d_default_capacity d = bufsize /\
      (d_capacity d <= buf_bound)%nat)) as (d1&h1&E1&Hg1&Hc1&Hd1&Hcap1).
    { eapply wp_mono; [apply (good_append junk Hjunk); [done|unfold buf_bound in *; lia]|].
      intros d h [(Hg'&Hc'&Hd'&_&Hcap) _]. split; [done|]. split; [by rewrite Hc', He|].
      split; [congruence|unfold buf_bound; lia]. }
    rewrite (bind_run _ _ _ _ _ E1).
    destruct (on_pending_run (reset junk) (cn_set_buf d1 (cn_set_heap h1 c)) _ (wp_reset_exact _ _ Hp))
      as (d2&h2&E2&Hg2&Hc2&Hd2&Hcap2). rewrite E2. eexists. split; [done|]. cbn.
    split; [|split; [done|split; [|done]]].
    + split; cbn; try done. rewrite <- (dyn_contents_length _ (proj1 Hg1)), Hc1. lia.
    + split; [done|]. split; [congruence|]. split; [congruence|]. by apply contents_nil_used; [apply Hg2|].
Qed.

(** Keeping the rest, and emptying the worker's buffer. *)
Lemma keep_rest_ok c :
  loop_inv c -> pending_empty (cn_pending c) ->
  exists c', (let! d := gets cn_buf in
     when (0 <? d_used d)%nat (on_pending (append junk (Dynbuf.contents d))) ;;! on_buf (reset junk)) c = (inr tt, c') /\
    idle c' /\ Dynbuf.contents (cn_pending c') = Dynbuf.contents (cn_buf c) /\
    cn_env c' = cn_env c /\ cn_hash c' = cn_hash c.
Proof.
  intros [Hg Hd Hu Hc] (Hpg&Hpd&Hpc&Hpu). unfold bind at 1, gets.
  pose proof (dyn_contents_length _ (proj1 Hg)) as Hl.
  assert (forall c1, cn_buf c1 = cn_buf c -> dyn_good junk (cn_pending c1) -> d_default_capacity (cn_pending c1) = 0%nat ->
    (d_capacity (cn_pending c1) <= max_request)%nat -> (d_used (cn_pending c1) = 0%nat -> d_capacity (cn_pending c1) = 0%nat) ->
    Dynbuf.contents (cn_pending c1) = Dynbuf.contents (cn_buf c) -> cn_env c1 = cn_env c -> cn_hash c1 = cn_hash c ->
    exists c', on_buf (reset junk) c1 = (inr tt, c') /\ idle c' /\
      Dynbuf.contents (cn_pending c') = Dynbuf.contents (cn_buf c) /\ cn_env c' = cn_env c /\ cn_hash c' = cn_hash c) as Hend.
  { intros c1 Hb1 Hp1 Hp2 Hp3 Hp4 Hp5 He1 Hh1. rewrite <- Hb1 in Hg.
    destruct (on_buf_run (reset junk) c1 _ (wp_reset_exact _ _ Hg)) as (d&h&E1&Hg1&Hc1&Hd1&Hcap1).
    rewrite E1. eexists. split; [done|]. split; [|done]. split; cbn; try done; congruence. }
  destruct (Nat.ltb_spec 0 (d_used (cn_buf c))) as [Hpos|Hz]; cbn [when].
  - destruct (on_pending_run (append junk (Dynbuf.contents (cn_buf c))) c (fun d => dyn_good junk d /\
      Dynbuf.contents d = Dynbuf.contents (cn_buf c) /\ d_default_capacity d = 0%nat /\
      (d_capacity d <= max_request)%nat)) as (d1&h1&E1&Hg1&Hc1&Hd1&Hcap1).
    { eapply wp_mono; [apply (good_append junk Hjunk); [done|unfold buf_bound in *; lia]|].
      intros d h [(Hg'&Hc'&Hd'&_&Hcap) _]. split; [done|]. split; [|split; [congruence|lia]].
      rewrite Hc'. unfold Dynbuf.contents at 1. by rewrite Hpu. }
    rewrite (bind_run _ _ _ _ _ E1). apply Hend; cbn; try done.
    intros Hz. rewrite <- (dyn_contents_length _ (proj1 Hg1)), Hc1 in Hz. lia.
  - rewrite (bind_run _ _ _ tt c) by done. apply Hend; try done; [lia|].
    unfold Dynbuf.contents at 1. rewrite Hpu. symmetry. apply nil_length_inv. lia.
Qed.

Lemma run_job_ok calls c :
  idle c -> Forall call_ok calls ->
  let plain := plain_loop (results (cn_valid c) calls) (Dynbuf.contents (cn_pending c)) (cn_hash c) (cn_env c) in
  match run_job calls c with
  | (inr _, c') => idle c' /\ plain = (inr (Dynbuf.contents (cn_pending c'), cn_hash c'), cn_env c')
  | (inl x, c') => plain = (inl x, cn_env c')
  end.
Proof.
  intros Hi Hk plain. destruct (load_pending_ok c Hi) as (c1&E1&Hi1&Hc1&Hp1&He1&Hh1&Hv1).
  assert (run_job calls c = (buf_loop calls ;;! (let! d := gets cn_buf in
     when (0 <? d_used d)%nat (on_pending (append junk (Dynbuf.contents d))) ;;! on_buf (reset junk))) c1) as ->.
  { unfold run_job, buf_job. rewrite bind_assoc. unfold bind at 1 in E1. unfold bind at 1. cbn [gets] in *.
    unfold gets in *. rewrite bind_assoc. rewrite (bind_run _ _ _ _ _ E1). rewrite bind_assoc. by apply bind_ext. }
  pose proof (buf_loop_ok calls c1 Hi1 Hk) as Hl. rewrite Hc1, He1, Hh1, Hv1 in Hl. fold plain in Hl.
  destruct (buf_loop calls c1) as [[x|[]] c2] eqn:E2; cbn in Hl.
  - by rewrite (bind_exn _ _ _ _ _ E2).
  - destruct Hl as [[Hi2 Hp2] Hpl]. rewrite (bind_run _ _ _ _ _ E2). rewrite <- Hp2 in Hp1.
    destruct (keep_rest_ok c2 Hi2 Hp1) as (c3&E3&Hi3&Hc3&He3&Hh3). rewrite E3. split; [done|].
    by rewrite Hc3, He3, Hh3.
Qed.
End job.
