(* ===== verification/RecvServices.v ===== *)
(** * The receive jobs of the two protocols on their buffers

    The memcache and the counter connections as instances of the receive job of RecvJob,
    with the sizes of src/constants.hpp.  Theorems: running a job on the worker's buffer and
    on [m_pending] gives what MemSocket and Counter say about sequences of bytes. *)

From S2P Require Import Prelude CLib MemTypes Table TextRequest BinaryRequest MemState MemObject.
From S2P Require Import Response Stats Replication MemSocket Counter.
From S2P Require Import Dynbuf Tempfile DynbufFrame RecvJob.
From S2P Require Import HashMap HashMapSpec Siphash Samples.

(** [WORKER_BUFSIZE]. *)
Definition WORKER_BUFSIZE : Z := Z.shiftl 5 20.

(** The sizes as the buffers use them. *)
Definition recvsize : nat := Z.to_nat MAX_RECVSIZE.
Definition bufsiz : nat := Z.to_nat WORKER_BUFSIZE.

Lemma sizes_fit : Z.of_nat (buf_bound recvsize MAX_REQUEST_LENGTH bufsiz + max_request MAX_REQUEST_LENGTH + recvsize) < 2 ^ 64.
Proof.
  unfold buf_bound, max_request, recvsize, bufsiz.
  assert (MAX_RECVSIZE = 2097152) as -> by done. assert (WORKER_BUFSIZE = 5242880) as -> by done.
  assert (MAX_REQUEST_LENGTH = 31457280) as -> by done. lia.
Qed.

(** The buffers of a worker and of a new connection. *)
Definition new_conn {E H} (junk : nat -> nat -> bytes) (bufsiz : nat) (e : E) (hash : H) : M heap (conn (E := E) (H := H)) :=
  let! buf := dynbuf_new junk bufsiz false in
  let! pending := dynbuf_new junk 0 false in
  gets (fun h => {| cn_heap := h; cn_env := e; cn_hash := hash; cn_buf := buf; cn_pending := pending; cn_valid := true |}).

Lemma new_conn_idle {E H} junk maxr bufsiz (e : E) (hash : H) h :
  (forall k n, length (junk k n) = n) ->
  wp no_exn (new_conn junk bufsiz e hash) (fun c _ => idle junk maxr bufsiz c /\
    cn_env c = e /\ cn_hash c = hash /\ Dynbuf.contents (cn_pending c) = [] /\ cn_valid c = true) h.
Proof.
  intros Hj. apply wp_bind. eapply wp_mono; [apply (good_new junk Hj no_exn bufsiz false h)|].
  intros d1 h1 [(Hg1&Hc1&Hd1&_&Hcap1) _]. apply wp_bind.
  eapply wp_mono; [apply (good_new junk Hj no_exn 0 false h1)|].
  intros d2 h2 [(Hg2&Hc2&Hd2&_&Hcap2) _]. apply wp_gets. split; [|done]. split; cbn; try done. lia.
Qed.

(** ** memcache *)

Section memcache.
Context {H : Type} `{TableOps H object} (r : request_env) (ck : clock) (u : uninit).

#[local] Instance mem_service : Service env H := {|
  sv_process := process_all r ck u;
  sv_cleanup := unlock_all r;
  sv_close := invalidate_and_close
|}.

Definition mem_result (res : recv_result) : received :=
  match res with OK d => recv_ok d | AGAIN => recv_again | RESET | NONE => recv_reset | ERROR => recv_fail end.

Lemma process_suffix fuel head hash e rest hash' e' :
  process r ck u fuel head hash e = (inr (rest, hash'), e') -> rest `suffix_of` head.
Proof.
  revert head hash e. induction fuel as [|fuel IH]; intros head hash e; cbn [process]; [done|].
  destruct head as [|b head]; [by intros [= <- _ _]|]. set (buf := b :: head).
  assert (forall c hash1 e1, process r ck u fuel (drop c buf) hash1 e1 = (inr (rest, hash'), e') -> rest `suffix_of` buf) as Hgo.
  { intros c hash1 e1 Hp. apply IH in Hp. etrans; [exact Hp|]. exists (take c buf). by rewrite take_drop. }
  destruct (is_binary_request b); unfold bind at 1.
  - destruct (binary_parse ck u buf) as [q|]; cbn [checked]; [|done]. unfold ret at 1.
    destruct (b_request_len q =? 0)%nat; [by intros [= <- _ _]|]. unfold bind.
    destruct (cmd_bin r buf q hash e) as [[x|hash1] e1]; [done|]. apply Hgo.
  - destruct (text_parse ck buf) as [q|]; cbn [checked]; [|done]. unfold ret at 1.
    destruct (m_request_len q =? 0)%nat; [by intros [= <- _ _]|]. unfold bind.
    destruct (cmd_text r buf q hash e) as [[x|hash1] e1]; [done|]. apply Hgo.
Qed.

#[local] Instance mem_service_ok : ServiceOk env H.
Proof. split. intros head hash e rest hash' e'. apply process_suffix. Qed.

Lemma mem_plain rs buf hash e :
  plain_loop MAX_REQUEST_LENGTH rs buf hash e = recv_loop r ck u (mem_result <$> rs) buf hash e.
Proof.
  revert buf hash e. induction rs as [|[d| | | |] rs IH]; intros buf hash e; try done.
  cbn [plain_loop fmap list_fmap mem_result recv_loop]. apply bind_ext. intros [rest hash1] e1.
  by destruct (blen rest >? MAX_REQUEST_LENGTH).
Qed.
End memcache.

(** [m_recvjob] of a memcache connection: [g_context] is the descriptor if the socket is
    valid when the job starts. *)
Definition mem_job {H} `{TableOps H object} (r : request_env) (ck : clock) (u : uninit) (junk : nat -> nat -> bytes)
    (fd : Z) (calls : list call) : M (conn (E := env) (H := H)) unit :=
  let! valid := gets cn_valid in
  let r := if valid then with_context fd r else r in
  run_job (SV := mem_service r ck u) junk recvsize MAX_REQUEST_LENGTH calls.

(** C10: The buffers are invisible.  Take a connection between two jobs, with a worker's
    buffer and what is pending in memory of arbitrary contents, and any answers of the
    kernel to the calls of [recv], interrupted calls, resets, other errors, half-closed and
    invalidated sockets among them, data being at least a byte and at most what was asked
    for.  The job on these buffers leaves the table, the statistics, the locks and the
    replies that the job on plain sequences of bytes leaves, keeps the same unfinished
    request as pending, fails when and only when that one does, with the same exception, and
    leaves both buffers ready for the next job, what is pending being at most the longest
    request.  No byte outside a buffer is read or written. *)
Theorem client_job_refines {H} `{TableOps H object} r ck u junk fd calls (c : conn (E := env) (H := H)) :
  (forall k n, length (junk k n) = n) ->
  idle junk MAX_REQUEST_LENGTH bufsiz c -> Forall (call_ok recvsize) calls ->
  let plain := recvjob r ck u (cn_valid c) fd (Dynbuf.contents (cn_pending c))
                 (mem_result <$> results (cn_valid c) calls) (cn_hash c) (cn_env c) in
  match mem_job r ck u junk fd calls c with
  | (inr _, c') => idle junk MAX_REQUEST_LENGTH bufsiz c' /\
                   plain = (inr (Dynbuf.contents (cn_pending c'), cn_hash c'), cn_env c')
  | (inl x, c') => plain = (inl x, cn_env c')
  end.
Proof.
  intros Hj Hi Hk plain. unfold mem_job, bind, gets. unfold recvjob in plain.
  set (r' := if cn_valid c then with_context fd r else r).
  pose proof (run_job_ok (SV := mem_service r' ck u) (SVOK := mem_service_ok r' ck u) junk recvsize MAX_REQUEST_LENGTH
    Hj bufsiz sizes_fit calls c Hi Hk) as Hr.
  rewrite mem_plain in Hr. replace plain with (recv_loop r' ck u (mem_result <$> results (cn_valid c) calls)
    (Dynbuf.contents (cn_pending c)) (cn_hash c) (cn_env c)); [exact Hr|].
  unfold plain, r'. destruct (cn_valid c); [done|]. by destruct calls.
Qed.

(** An error of [::recv] such as [ETIMEDOUT] is thrown out of the job, and so ends the
    worker and, by thread_base, the process. *)
Theorem recv_error_thrown {H} `{TableOps H object} r ck u junk fd answers (c : conn (E := env) (H := H)) :
  (forall k n, length (junk k n) = n) -> idle junk MAX_REQUEST_LENGTH bufsiz c ->
  cn_valid c = true -> recv answers = Eother ->
  exists c', mem_job r ck u junk fd [{| k_invalidated := false; k_answers := answers |}] c = (inl system_error, c').
Proof.
  intros Hj Hi Hv Ha. unfold mem_job, bind, gets. rewrite Hv.
  set (r' := with_context fd r). set (k := {| k_invalidated := false; k_answers := answers |}).
  pose proof (run_job_ok (SV := mem_service r' ck u) (SVOK := mem_service_ok r' ck u) junk recvsize MAX_REQUEST_LENGTH
    Hj bufsiz sizes_fit [k] c Hi) as Hr. specialize (Hr ltac:(repeat constructor; unfold call_ok; cbn; by rewrite Ha)).
  rewrite Hv in Hr. unfold results, result_of in Hr. cbn [k k_invalidated k_answers negb andb] in Hr. rewrite Ha in Hr.
  cbn [plain_loop] in Hr. destruct (run_job _ _ _ _ c) as [[x|[]] c']; [|by destruct Hr].
  injection Hr as <- _. by exists c'.
Qed.

(** Data in two pieces that cut a request, with a signal in between. *)
Definition crlf_line (s : string) : bytes := lit s ++ [x0d; x0a].
Definition sample_calls : list call :=
  [{| k_invalidated := false; k_answers := [Eintr; Data (crlf_line "set a 1 0 2" ++ lit "x")] |};
   {| k_invalidated := false; k_answers := [Data (lit "y" ++ [x0d; x0a] ++ lit "get ")] |};
   {| k_invalidated := false; k_answers := [Eintr; Eintr; Eagain] |}].

(** A command, and then an error. *)
Definition sample_broken : list call :=
  [{| k_invalidated := false; k_answers := [Data (crlf_line "set a 1 0 2" ++ lit "xy" ++ [x0d; x0a])] |};
   {| k_invalidated := false; k_answers := [Eintr; Eother] |}].

Lemma sample_broken_ok : Forall (call_ok recvsize) sample_broken.
Proof.
  assert (Z.of_nat recvsize = 2097152) as Hr by (unfold recvsize; by rewrite Z2Nat.id).
  revert Hr. generalize recvsize. intros n Hn. repeat constructor; cbn; lia.
Qed.

Lemma sample_calls_ok : Forall (call_ok recvsize) sample_calls.
Proof.
  assert (Z.of_nat recvsize = 2097152) as Hr by (unfold recvsize; by rewrite Z2Nat.id).
  revert Hr. generalize recvsize. intros n Hn. repeat constructor; cbn; lia.
Qed.

Lemma client_job_refines_witness :
  let junk := fun k n => replicate n (bZ (Z.of_nat k)) in
  exists c h c', new_conn junk bufsiz (sample_env []) sample_empty fresh_heap = (inr c, h) /\
    mem_job (sample_request 0 []) sample_clock sample_u junk 5 sample_calls c = (inr tt, c') /\
    Dynbuf.contents (cn_pending c') = lit "get " /\
    e_out (cn_env c') = [out_send (crlf_line "STORED") true] /\
    exists c'', mem_job (sample_request 0 []) sample_clock sample_u junk 5 sample_broken c = (inl system_error, c'') /\
      e_out (cn_env c'') = [out_send (crlf_line "STORED") true].
Proof.
  intros junk. assert (forall k n, length (junk k n) = n) as Hj by (intros k n; apply length_replicate).
  destruct (wp_run _ _ _ (new_conn_idle junk MAX_REQUEST_LENGTH bufsiz (sample_env []) sample_empty fresh_heap Hj))
    as (c&h&E1&Hi&He&Hh&Hp&Hv).
  pose proof (client_job_refines (sample_request 0 []) sample_clock sample_u junk 5 sample_calls c Hj Hi sample_calls_ok) as Hr.
  pose proof (client_job_refines (sample_request 0 []) sample_clock sample_u junk 5 sample_broken c Hj Hi sample_broken_ok) as Hb.
  rewrite Hp, Hv, He, Hh in Hr, Hb. exists c, h.
  set (plain := recvjob _ _ _ _ _ _ _ _ _) in Hr. vm_compute in plain. cbv zeta in Hr. subst plain.
  set (plain := recvjob _ _ _ _ _ _ _ _ _) in Hb. vm_compute in plain. cbv zeta in Hb. subst plain.
  destruct (mem_job _ _ _ _ _ sample_calls c) as [[x|[]] c']; [discriminate Hr|]. destruct Hr as [_ Hr].
  exists c'. split; [done|]. split; [done|]. injection Hr as H1 H2 H3. rewrite <- H1, <- H3.
  split; [reflexivity|]. split; [reflexivity|].
  destruct (mem_job _ _ _ _ _ sample_broken c) as [[x|[]] c'']; [|destruct Hb as [_ Hb]; discriminate Hb].
  injection Hb as H4 H5. rewrite <- H4. exists c''. split; [reflexivity|]. by rewrite <- H5.
Defined.

(** ** counter *)

Module counter_job.
Import counter.

Section job.
Context {H : Type} `{TableOps H object} (cf : conf).

#[local] Instance counter_service : Service env H := {|
  sv_process := fun head => process cf (S (length head)) head;
  sv_cleanup := release_all cf;
  sv_close := invalidate_and_close
|}.

(** The service of Counter is given no failing call. *)
Definition counter_result (res : recv_result) : received :=
  match res with RecvJob.OK d => recv_ok d | AGAIN => recv_again | RESET | NONE | ERROR => recv_reset end.

Lemma counter_process_suffix fuel head hash e rest hash' e' :
  process cf fuel head hash e = (inr (rest, hash'), e') -> rest `suffix_of` head.
Proof.
  revert head hash e. induction fuel as [|fuel IH]; intros head hash e; cbn [process]; [done|].
  destruct head as [|b head]; [by intros [= <- _ _]|]. set (buf := b :: head). unfold bind at 1.
  destruct (parse buf) as [q|]; cbn [checked]; [|done]. unfold ret at 1.
  destruct (q_length q =? 0)%nat; [by intros [= <- _ _]|]. unfold bind.
  destruct (execute cf buf q hash e) as [[x|hash1] e1]; [done|]. intros Hp%IH.
  etrans; [exact Hp|]. exists (take (q_length q) buf). by rewrite take_drop.
Qed.

#[local] Instance counter_service_ok : ServiceOk env H.
Proof. split. intros head hash e rest hash' e'. apply counter_process_suffix. Qed.

Lemma counter_plain rs buf hash e :
  Forall (fun res => res <> ERROR) rs ->
  plain_loop max_request_length rs buf hash e = recvjob cf (counter_result <$> rs) buf hash e.
Proof.
  intros Hrs. revert buf hash e. induction Hrs as [|[d| | | |] rs Hr Hrs IH]; intros buf hash e; try done.
  cbn [plain_loop fmap list_fmap counter_result recvjob]. apply bind_ext. intros [rest hash1] e1.
  by destruct (blen rest >? max_request_length).
Qed.

(** [m_recvjob] of a counter connection. *)
Definition job (junk : nat -> nat -> bytes) (calls : list call) : M (conn (E := env) (H := H)) unit :=
  run_job junk recvsize max_request_length calls.

(** The same for the counter protocol, when no call of [::recv] fails. *)
Theorem counter_job_refines junk calls (c : conn (E := env) (H := H)) :
  (forall k n, length (junk k n) = n) ->
  idle junk max_request_length bufsiz c -> Forall (call_ok recvsize) calls ->
  Forall (fun res => res <> ERROR) (results (cn_valid c) calls) ->
  let plain := recvjob cf (counter_result <$> results (cn_valid c) calls) (Dynbuf.contents (cn_pending c))
                 (cn_hash c) (cn_env c) in
  match job junk calls c with
  | (inr _, c') => idle junk max_request_length bufsiz c' /\
                   plain = (inr (Dynbuf.contents (cn_pending c'), cn_hash c'), cn_env c')
  | (inl x, c') => plain = (inl x, cn_env c')
  end.
Proof.
  intros Hj Hi Hk Hne plain. pose proof (run_job_ok junk recvsize max_request_length Hj bufsiz sizes_fit calls c Hi Hk) as Hr.
  rewrite counter_plain in Hr by done. exact Hr.
Qed.
End job.
End counter_job.
