(* ===== verification/SlaveRecv.v ===== *)
(** * What a slave receives (repl_client_socket of src/memcache/sockets.cpp)

    The slave reads the stream of its master in pieces that the network cuts anywhere,
    collects them in a dynamic buffer, applies the complete messages with [repl_recv] and
    keeps the rest.  This composes the buffer of [Dynbuf] with the replication of
    [Replication]. *)

From S2P Require Import Prelude.
From S2P Require Import Dynbuf.
From S2P Require Import MemTypes.
From S2P Require Import Table.
From S2P Require Import BinaryRequest.
From S2P Require Import MemState.
From S2P Require Import MemObject.
From S2P Require Import Replication.
From S2P Require Import HashMap.
From S2P Require Import HashMapSpec.
From S2P Require Import ReplicationSpec.
From S2P Require Import Samples.

Import replication.

(** What [::recv] answers: data, [EAGAIN], [EINTR], [ECONNRESET], the end of the stream,
    another error. *)
Inductive recv_answer := RData (p : bytes) | RAgain | RIntr | RReset | RClosed | RError.

(** [MAX_ITER]. *)
Definition MAX_ITER : nat := 50.

Section client.
Context {H : Type} `{HT : Table H object} (cfg : mem_config) (ck : clock) (u : uninit).
Context (junk : nat -> nat -> bytes).

(** The members of the socket, with the allocator, the environment of the table, and what
    the reactor sees: [quit], the valid flag, [add_readable]. *)
Record client := {
  cl_heap : heap;
  cl_env : env;
  m_recvbuf : dynbuf;
  m_hash : H;
  cl_quit : bool;
  cl_valid : bool;
  cl_readable : bool
}.
Definition set_recvbuf (d : dynbuf) (c : client) : client :=
  {| cl_heap := cl_heap c; cl_env := cl_env c; m_recvbuf := d; m_hash := m_hash c;
     cl_quit := cl_quit c; cl_valid := cl_valid c; cl_readable := cl_readable c |}.
Definition set_hash (h : H) (c : client) : client :=
  {| cl_heap := cl_heap c; cl_env := cl_env c; m_recvbuf := m_recvbuf c; m_hash := h;
     cl_quit := cl_quit c; cl_valid := cl_valid c; cl_readable := cl_readable c |}.
Definition set_gone (c : client) : client :=
  {| cl_heap := cl_heap c; cl_env := cl_env c; m_recvbuf := m_recvbuf c; m_hash := m_hash c;
     cl_quit := true; cl_valid := false; cl_readable := cl_readable c |}.
Definition set_readable (b : bool) (c : client) : client :=
  {| cl_heap := cl_heap c; cl_env := cl_env c; m_recvbuf := m_recvbuf c; m_hash := m_hash c;
     cl_quit := cl_quit c; cl_valid := cl_valid c; cl_readable := b |}.

(** Operations on the buffer and on the table. *)
Definition on_heap {A} (m : M heap A) : M client A := fun c =>
  let (r, h) := m (cl_heap c) in
  (r, {| cl_heap := h; cl_env := cl_env c; m_recvbuf := m_recvbuf c; m_hash := m_hash c;
         cl_quit := cl_quit c; cl_valid := cl_valid c; cl_readable := cl_readable c |}).
Definition on_env {A} (m : M env A) : M client A := fun c =>
  let (r, e) := m (cl_env c) in
  (r, {| cl_heap := cl_heap c; cl_env := e; m_recvbuf := m_recvbuf c; m_hash := m_hash c;
         cl_quit := cl_quit c; cl_valid := cl_valid c; cl_readable := cl_readable c |}).

(** [m_recvbuf.consume], [repl_recv] and [m_recvbuf.erase] for the bytes [p] that the
    kernel wrote to the prepared space. *)
Definition take_in (p : bytes) : M client unit :=
  let! d := gets m_recvbuf in
  let! b := on_heap (store (block d) (d_used d) p) in
  let d := consume (length p) (set_block (Some b) (d_capacity d) (d_used d) d) in
  modify (set_recvbuf d) ;;!
  let! hash := gets m_hash in
  let! r := on_env (repl_recv cfg ck u (Dynbuf.contents d) hash) in
  modify (set_hash (snd r)) ;;!
  let! d := on_heap (erase junk (fst r) d) in
  modify (set_recvbuf d).

(** [on_readable]: its value, and the answers the kernel has not given yet. *)
Fixpoint client_recv (n_iter : nat) (ans : list recv_answer) : M client (bool * list recv_answer) :=
  let! d := gets m_recvbuf in
  let! d := on_heap (prepare junk (Z.to_nat MAX_RECVSIZE) d) in
  modify (set_recvbuf d) ;;!
  match ans with
  | [] => ret (true, [])
  | RAgain :: ans => ret (true, ans)
  | RIntr :: ans => client_recv n_iter ans
  | RReset :: ans | RClosed :: ans => modify set_gone ;;! ret (false, ans)
  | RError :: ans => throw system_error
  | RData p :: ans =>
      take_in p ;;!
      if (MAX_ITER <=? S n_iter)%nat
      then modify (set_readable true) ;;! ret (true, ans)
      else client_recv (S n_iter) ans
  end.
Definition client_on_readable (ans : list recv_answer) : M client (bool * list recv_answer) :=
  modify (set_readable false) ;;! client_recv 0 ans.

(** The reactor calls [on_readable] as long as the kernel has an answer. *)
Fixpoint client_calls (fuel : nat) (ans : list recv_answer) : M client bool :=
  match ans, fuel with
  | [], _ => ret true
  | _, O => throw no_fuel
  | _, S fuel =>
      let! r := client_on_readable ans in
      if (fst r : bool) then client_calls fuel (snd r) else ret false
  end.

(** The constructor, for a table that may hold the objects of an earlier session. *)
Definition RECVBUF_SIZE : Z := Z.shiftl 30 20.
Definition client_new (hash : H) (e : env) : M heap client :=
  let! d := dynbuf_new junk (Z.to_nat RECVBUF_SIZE) false in
  gets (fun h => {| cl_heap := h; cl_env := e; m_recvbuf := d; m_hash := hash; cl_quit := false; cl_valid := true;
                    cl_readable := false |}).

(** ** Correctness *)

Hypothesis Hjunk : forall k n, length (junk k n) = n.

(** The bytes that were read. *)
Definition data_of (a : recv_answer) : bytes := match a with RData p => p | _ => [] end.
Definition data (ans : list recv_answer) : bytes := concat (data_of <$> ans).

(** The kernel gives at least a byte and at most what was asked for. *)
Definition answer_ok (a : recv_answer) : Prop :=
  match a with RData p => p <> [] /\ blen p <= MAX_RECVSIZE | _ => True end.

(** The answers up to the end of the connection. *)
Fixpoint heard (ans : list recv_answer) : list recv_answer :=
  match ans with
  | [] => []
  | (RReset | RClosed | RError) as a :: _ => [a]
  | a :: ans => a :: heard ans
  end.
(** How the connection ends, if it does. *)
Inductive ending := Lasting | Lost | Failed.
Fixpoint ending_of (ans : list recv_answer) : ending :=
  match ans with
  | [] => Lasting
  | RReset :: _ | RClosed :: _ => Lost
  | RError :: _ => Failed
  | _ :: ans => ending_of ans
  end.

(** The part of the next message that has arrived. *)
Definition partial (c : bytes) (evs : list event) : Prop :=
  match evs with
  | [] => c = []
  | ev :: _ => exists n, (n < length (wire ev))%nat /\ c = take n (wire ev)
  end.

Lemma split_stream evs q :
  events_wf evs -> q `prefix_of` stream evs ->
  exists a b c, evs = a ++ b /\ q = stream a ++ c /\ partial c b.
Proof.
  intros Hwf. revert q. induction Hwf as [|ev evs Hev Hwf IH]; intros q Hq.
  - exists [], [], []. apply prefix_nil_inv in Hq as ->. done.
  - destruct (decide (length q < length (wire ev))%nat) as [Hlt|Hge].
    + exists [], (ev :: evs), q. split_and!; [done|done|]. exists (length q). split; [done|].
      destruct Hq as [k Hk]. change (wire ev ++ stream evs = q ++ k) in Hk.
      rewrite <- (take_app_le (wire ev) (stream evs)) by lia. rewrite Hk. by rewrite take_app_length.
    + destruct Hq as [k Hk]. change (wire ev ++ stream evs = q ++ k) in Hk.
      assert (q = wire ev ++ drop (length (wire ev)) q) as Eq.
      { rewrite <- (take_drop (length (wire ev)) q) at 1. f_equal. rewrite <- (take_app_le q k) by lia. rewrite <- Hk. by rewrite take_app_length. }
      destruct (IH (drop (length (wire ev)) q)) as (a&b&c&->&Ec&Hp).
      { exists k. rewrite Eq, <- app_assoc in Hk. by apply app_inv_head in Hk. }
      exists (ev :: a), b, c. split_and!; [done| |done]. rewrite Eq, Ec. unfold stream. cbn. by rewrite <- app_assoc.
Qed.

(** The changes [done] are applied, of the changes [todo] a part of the next message is
    in the buffer, and there is room for [k] more reads in the address space. *)
Record client_inv (m0 : gmap bytes value) (done todo : list event) (k : nat) (alive : bool) (c : client) : Prop := {
  ci_buf : dyn_inv junk (m_recvbuf c) (cl_heap c);
  ci_part : partial (Dynbuf.contents (m_recvbuf c)) todo;
  ci_table : t_inv (m_hash c);
  ci_view : view (t_map (m_hash c)) = foldl (receive_event ck) m0 done;
  ci_room : Z.of_nat (Nat.max (d_capacity (m_recvbuf c)) (d_default_capacity (m_recvbuf c))) + Z.of_nat k * MAX_RECVSIZE < 2 ^ 64;
  ci_alive : cl_quit c = negb alive /\ cl_valid c = alive
}.

Lemma wp_on_heap {A} (X : exn -> Prop) (m : M heap A) (Q : A -> client -> Prop) c :
  wp X m (fun a h => Q a (snd (on_heap (fun _ => (inr a, h)) c))) (cl_heap c) -> wp X (on_heap m) Q c.
Proof. unfold wp, on_heap. by destruct (m (cl_heap c)) as [[x|a] h]. Qed.

Lemma MAX_RECVSIZE_pos : 0 < MAX_RECVSIZE.
Proof. done. Qed.

(** [prepare] leaves room for one read. *)
Lemma wp_prepare {A} (X : exn -> Prop) m0 pre todo k (K : M client A) Q c :
  client_inv m0 pre todo (S k) true c ->
  (forall c', client_inv m0 pre todo k true c' -> Dynbuf.contents (m_recvbuf c') = Dynbuf.contents (m_recvbuf c) ->
     (d_used (m_recvbuf c') + Z.to_nat MAX_RECVSIZE <= d_capacity (m_recvbuf c'))%nat -> wp X K Q c') ->
  wp X (let! d := gets m_recvbuf in
             let! d := on_heap (prepare junk (Z.to_nat MAX_RECVSIZE) d) in
             modify (set_recvbuf d) ;;! K) Q c.
Proof.
  intros [Hb Hp Ht Hv Hr Ha] HQ. pose proof MAX_RECVSIZE_pos. apply wp_bind, wp_gets, wp_bind, wp_on_heap.
  eapply wp_mono; [apply (prepare_ok junk Hjunk); [done|lia]|]. intros d' h' ((Hi&Hc&Hd&_&Hg)&Hu&Hroom). apply wp_bind, wp_modify, HQ.
  - split; cbn; try done; [by rewrite Hc|]. rewrite Hd. lia.
  - done.
  - done.
Qed.

(** [repl_recv] on a stream that ends within a message. *)
Lemma repl_recv_partial a b c hash e :
  events_wf a -> events_wf b -> partial c b -> t_inv hash ->
  exists hash' e', repl_recv cfg ck u (stream a ++ c) hash e = (inr (length (stream a), hash'), e') /\ t_inv hash' /\
    view (t_map hash') = foldl (receive_event ck) (view (t_map hash)) a.
Proof.
  intros Ha Hb Hc Hi. unfold repl_recv.
  assert (exists ev n, event_wf ev /\ (n < length (wire ev))%nat /\ c = take n (wire ev)) as (ev&n&Hev&Hn&->).
  { destruct b as [|ev b]; cbn in Hc.
    - exists (ev_delete (lit "k")), 0%nat. subst. split_and!; [done|vm_compute; lia|done].
    - destruct Hc as (n&Hn&->). exists ev, n. split; [by inversion Hb|done]. }
  apply (repl_loop_stream cfg ck u a _ ev n 0 hash e); [done..|lia].
Qed.

Lemma take_in_ok (X : exn -> Prop) m0 pre todo k p c :
  client_inv m0 pre todo k true c -> events_wf todo -> blen p <= MAX_RECVSIZE ->
  (d_used (m_recvbuf c) + Z.to_nat MAX_RECVSIZE <= d_capacity (m_recvbuf c))%nat ->
  Dynbuf.contents (m_recvbuf c) ++ p `prefix_of` stream todo ->
  wp X (take_in p) (fun _ c' => exists a b, todo = a ++ b /\ client_inv m0 (pre ++ a) b k true c' /\
    Dynbuf.contents (m_recvbuf c) ++ p = stream a ++ Dynbuf.contents (m_recvbuf c')) c.
Proof.
  intros [Hb Hp Ht Hv Hr Ha] Hwf Hlen Hroom Hpre. pose proof MAX_RECVSIZE_pos. unfold blen in Hlen.
  destruct (split_stream todo _ Hwf Hpre) as (a&b&q&->&Eq&Hq). apply Forall_app in Hwf as [Hwa Hwb].
  pose proof (proj1 Hb) as [_ Hdl _]. unfold take_in. apply wp_bind, wp_gets, wp_bind, wp_on_heap.
  apply wp_store; [lia|]. apply wp_bind, wp_modify. cbn [snd on_heap].
  destruct (written_ok junk (m_recvbuf c) (cl_heap c) p Hb) as [Hb1 Hc1]; [lia|]. set (d1 := consume _ _).
  change (dyn_inv junk d1 (cl_heap c)) in Hb1. change (Dynbuf.contents d1 = Dynbuf.contents (m_recvbuf c) ++ p) in Hc1.
  apply wp_bind, wp_gets, wp_bind. cbn [m_hash set_recvbuf].
  destruct (repl_recv_partial a b q (m_hash c) (cl_env c) Hwa Hwb Hq Ht) as (hash'&e'&Hrun&Ht'&Hv').
  unfold wp at 1, on_env. cbn [cl_env set_recvbuf]. rewrite Hc1, Eq, Hrun. apply wp_bind, wp_modify. cbn [fst snd].
  apply wp_bind, wp_on_heap. cbn [cl_heap set_hash set_recvbuf].
  assert (length (Dynbuf.contents d1) = d_used d1) as Hu.
  { unfold Dynbuf.contents. rewrite length_take. pose proof (do_used _ (proj1 Hb1)). pose proof (do_len _ (proj1 Hb1)). lia. }
  eapply wp_mono; [apply (erase_ok junk Hjunk); [done|rewrite <- Hu, Hc1, Eq, length_app; lia]|].
  intros d2 h2 (Hb2&Hc2&Hd2&_&Hg2). rewrite Hc1, Eq, drop_app_length in Hc2. apply wp_modify. exists a, b. split; [done|].
  split; [|cbn; by rewrite Hc2]. split; cbn; try done.
  - by rewrite Hc2.
  - by rewrite Hv', Hv, foldl_app.
  - rewrite Hd2. cbn in Hg2 |- *. lia.
Qed.

Lemma client_inv_less alive m0 pre todo k k' c :
  (k' <= k)%nat -> client_inv m0 pre todo k alive c -> client_inv m0 pre todo k' alive c.
Proof. intros Hk [Hb Hp Ht Hv Hr Ha]. pose proof MAX_RECVSIZE_pos. split; try done. nia. Qed.

(** The reads that are left to the next call. *)
Definition reads_left (rest : list recv_answer) : nat := match rest with [] => 0 | _ => S (length rest) end.

(** From state [c] the answers [used] lead to state [c']. *)
Definition progress (alive : bool) (m0 : gmap bytes value) (pre todo : list event) (used rest : list recv_answer) (c c' : client) : Prop :=
  exists a b, todo = a ++ b /\ client_inv m0 (pre ++ a) b (reads_left rest) alive c' /\
    Dynbuf.contents (m_recvbuf c) ++ data used = stream a ++ Dynbuf.contents (m_recvbuf c').

Lemma progress_stop alive m0 pre todo a rest k c c0 :
  client_inv m0 pre todo k alive c -> (reads_left rest <= k)%nat -> data [a] = [] ->
  Dynbuf.contents (m_recvbuf c) = Dynbuf.contents (m_recvbuf c0) -> progress alive m0 pre todo [a] rest c0 c.
Proof.
  intros Hi Hk Hd Hc. exists [], todo. rewrite !app_nil_r, Hd, Hc, app_nil_r. split_and!; [done| |done]. by eapply client_inv_less.
Qed.

(** One more answer in front. *)
Lemma progress_cons alive m0 pre a0 b0 x used rest c0 c1 c2 :
  progress alive m0 (pre ++ a0) b0 used rest c1 c2 ->
  Dynbuf.contents (m_recvbuf c0) ++ data_of x = stream a0 ++ Dynbuf.contents (m_recvbuf c1) ->
  progress alive m0 pre (a0 ++ b0) (x :: used) rest c0 c2.
Proof.
  intros (a&b&->&Hi&Hc) E. exists (a0 ++ a), b. rewrite !app_assoc. split_and!; [done|done|].
  unfold data in *. cbn. rewrite app_assoc, E, <- app_assoc, Hc, app_assoc. f_equal. unfold stream. by rewrite fmap_app, concat_app.
Qed.

(** The answers [used] come first: as long as the connection lasts [rest] is left to come, and
    otherwise they are all that counts. *)
Definition consumed (alive : bool) (ans used rest : list recv_answer) : Prop :=
  if alive then ans = used ++ rest /\ heard ans = used ++ heard rest /\ ending_of ans = ending_of rest
  else heard ans = used /\ ending_of ans = Lost.

(** An answer that does not end the connection. *)
Definition goes_on (x : recv_answer) : Prop :=
  forall ans, heard (x :: ans) = x :: heard ans /\ ending_of (x :: ans) = ending_of ans.

Lemma consumed_cons alive x ans used rest :
  goes_on x -> consumed alive ans used rest -> consumed alive (x :: ans) (x :: used) rest.
Proof.
  intros Hx. unfold consumed. destruct (Hx ans) as [-> ->]. destruct alive; [|by intros [-> ?]].
  by intros (->&->&?).
Qed.

Abbreviation failing ans := (fun x => x = system_error /\ ending_of ans = Failed).

Lemma client_recv_ok m0 ans : forall n pre todo c,
  client_inv m0 pre todo (S (length ans)) true c -> Forall answer_ok ans -> events_wf todo ->
  Dynbuf.contents (m_recvbuf c) ++ data (heard ans) `prefix_of` stream todo ->
  wp (failing ans) (client_recv n ans) (fun r c' => exists used, consumed (fst r) ans used (snd r) /\
    (ans <> [] -> used <> []) /\ progress (fst r) m0 pre todo used (snd r) c c') c.
Proof.
  induction ans as [|x ans IH]; intros n pre todo c Hi Hok Hwf Hpre; cbn [client_recv]; (eapply wp_prepare; [done|]); intros c1 Hi1 Hc1 Hroom.
  { apply wp_ret. exists []. split_and!; [done..|]. exists [], todo. rewrite !app_nil_r, Hc1. split_and!; [done| |done].
    by eapply client_inv_less. }
  apply Forall_cons in Hok as [Hx Hok].
  assert (forall c2 a b, todo = a ++ b -> goes_on x -> client_inv m0 (pre ++ a) b (S (length ans)) true c2 ->
    Dynbuf.contents (m_recvbuf c) ++ data_of x = stream a ++ Dynbuf.contents (m_recvbuf c2) ->
    forall n', wp (failing (x :: ans)) (client_recv n' ans) (fun r c' => exists used, consumed (fst r) (x :: ans) used (snd r) /\
      (x :: ans <> [] -> used <> []) /\ progress (fst r) m0 pre todo used (snd r) c c') c2) as Hgo.
  { intros c2 a b -> Hg Hi2 E n'. destruct (Hg ans) as [Eh Ee]. rewrite Eh in Hpre. rewrite Ee.
    apply Forall_app in Hwf as [_ Hwb].
    eapply wp_mono; [apply (IH n' (pre ++ a) b c2); try done|].
    - unfold data in Hpre. cbn in Hpre. rewrite app_assoc, E in Hpre.
      unfold stream in Hpre at 2. rewrite fmap_app, concat_app, <- app_assoc in Hpre. by apply prefix_app_inv in Hpre.
    - intros r c3 (used&Hr&_&Hpr). exists (x :: used). split_and!; [by apply consumed_cons|done|by eapply progress_cons]. }
  destruct x as [p| | | | |].
  - destruct Hx as [_ Hlen]. unfold data in Hpre. cbn in Hpre. rewrite app_assoc in Hpre.
    assert (Dynbuf.contents (m_recvbuf c1) ++ p `prefix_of` stream todo) as Hp1.
    { rewrite Hc1. etransitivity; [|exact Hpre]. by apply prefix_app_r. }
    apply wp_bind. eapply wp_mono; [by apply take_in_ok|]. intros [] c2 (a&b&Eab&Hi2&E). rewrite Hc1 in E.
    destruct (MAX_ITER <=? S n)%nat; [|by apply (Hgo c2 a b)].
    apply wp_bind, wp_modify, wp_ret. exists [RData p]. split_and!; [done..|]. exists a, b. split; [done|].
    unfold data. cbn. rewrite app_nil_r. split; [|done]. destruct Hi2 as [? ? ? ? Hr ?]. split; try done. cbn.
    pose proof MAX_RECVSIZE_pos. cbn [snd]. unfold reads_left. destruct ans; cbn in *; lia.
  - apply wp_ret. exists [RAgain]. split_and!; [done..|]. eapply progress_stop; [exact Hi1| |done|done]. cbn. unfold reads_left. destruct ans; cbn; lia.
  - apply (Hgo c1 [] todo); [done|done|by rewrite app_nil_r|]. cbn. by rewrite app_nil_r, Hc1.
  - apply wp_bind, wp_modify, wp_ret. exists [RReset]. split_and!; [done..|].
    eapply (progress_stop false _ _ _ _ _ (S (length ans))); [destruct Hi1; by split| |done|done]. cbn. unfold reads_left. destruct ans; cbn; lia.
  - apply wp_bind, wp_modify, wp_ret. exists [RClosed]. split_and!; [done..|].
    eapply (progress_stop false _ _ _ _ _ (S (length ans))); [destruct Hi1; by split| |done|done]. cbn. unfold reads_left. destruct ans; cbn; lia.
  - by apply wp_throw.
Qed.

Lemma client_calls_ok m0 fuel : forall ans pre todo c,
  (length ans <= fuel)%nat -> client_inv m0 pre todo (reads_left ans) true c -> Forall answer_ok ans -> events_wf todo ->
  Dynbuf.contents (m_recvbuf c) ++ data (heard ans) `prefix_of` stream todo ->
  wp (failing ans) (client_calls fuel ans) (fun r c' =>
    ending_of ans = (if r : bool then Lasting else Lost) /\
    exists rest, progress r m0 pre todo (heard ans) rest c c') c.
Proof.
  assert (forall pre todo c, client_inv m0 pre todo 0 true c -> progress true m0 pre todo [] [] c c) as Hnil.
  { intros pre todo c Hi. exists [], todo. by rewrite !app_nil_r. }
  induction fuel as [|fuel IH]; intros ans pre todo c Hf Hi Hok Hwf Hpre.
  { destruct ans; [|cbn in Hf; lia]. apply wp_ret. split; [done|]. exists []. auto. }
  destruct ans as [|x ans]; [apply wp_ret; split; [done|]; exists []; auto|]. cbn [client_calls]. set (xs := x :: ans) in *. apply wp_bind.
  unfold client_on_readable. apply wp_bind, wp_modify. set (c0 := set_readable false c).
  assert (client_inv m0 pre todo (S (length xs)) true c0) as Hi0 by (destruct Hi; by split).
  eapply wp_mono; [by apply (client_recv_ok m0 xs 0 pre todo c0)|]. intros [r rest] c1 (used&E&Hne&(a&b&->&Hi1&Hc1)).
  cbn [fst snd] in *. change (Dynbuf.contents (m_recvbuf c0)) with (Dynbuf.contents (m_recvbuf c)) in Hc1.
  destruct r; cbn [consumed] in E.
  2:{ destruct E as [<- E]. apply wp_ret. split; [done|]. exists rest, a, b. by split_and!. }
  destruct E as (Ex&Eh&Ee). rewrite Eh in *. rewrite Ee. rewrite Ex in Hok. apply Forall_app in Hok as [_ Hok]. apply Forall_app in Hwf as [_ Hwb].
  unfold data in Hpre. rewrite fmap_app, concat_app, app_assoc in Hpre. fold (data used) (data (heard rest)) in Hpre. rewrite Hc1 in Hpre.
  unfold stream in Hpre at 2. rewrite fmap_app, concat_app, <- app_assoc in Hpre. apply prefix_app_inv in Hpre.
  eapply wp_mono; [apply (IH rest (pre ++ a) b c1); try done|].
  { rewrite Ex, length_app in Hf. destruct used; [by destruct Hne|]. cbn in Hf. lia. }
  intros r' c2 (He&rest'&a2&b2&->&Hi2&Hc2). split; [done|]. exists rest', (a ++ a2), b2. rewrite !app_assoc. split_and!; [done|done|].
  unfold data. rewrite fmap_app, concat_app, app_assoc. fold (data used) (data (heard rest)).
  rewrite Hc1, <- app_assoc, Hc2, app_assoc. f_equal. unfold stream. by rewrite fmap_app, concat_app.
Qed.

Lemma client_new_ok evs k hash e :
  events_wf evs -> t_inv hash -> RECVBUF_SIZE + Z.of_nat k * MAX_RECVSIZE < 2 ^ 64 ->
  wp no_exn (client_new hash e) (fun c0 _ => client_inv (view (t_map hash)) [] evs k true c0 /\
    Dynbuf.contents (m_recvbuf c0) = []) fresh_heap.
Proof.
  intros Hwf Hi Hroom. unfold client_new.
  assert (Z.of_nat (Z.to_nat RECVBUF_SIZE) = RECVBUF_SIZE) as E by (by apply Z2Nat.id).
  generalize dependent (Z.to_nat RECVBUF_SIZE). intros cap E. apply wp_bind.
  eapply wp_mono; [apply (dynbuf_new_ok junk Hjunk); constructor|]. intros d h0 (Hd&Hc&Hdef&Her&Hcap). apply wp_gets. split; [|done].
  split; cbn [cl_heap m_recvbuf m_hash cl_quit cl_valid]; try done.
  - rewrite Hc. destruct evs as [|ev evs]; [done|]. exists 0%nat. split; [|done]. inversion Hwf as [|? ? Hev]; subst.
    pose proof (length_wire ev Hev). lia.
  - rewrite Hdef, Hcap, Nat.max_id. lia.
Qed.

(** C15: A slave follows the stream of its master however it is cut.  The master sends the
    messages of a sequence of changes with legal keys, 32-bit flags and values within the
    request limit; the network delivers any prefix of it in pieces of any size, with
    interrupted and would-block calls in between, and the connection may be reset, closed or
    broken by another error.  The calls of [on_readable] return, stay within the receive
    buffer and read everything, throwing only for that other error; afterwards exactly the
    changes whose messages arrived completely are applied, in order, as the slave's parser
    reads them ([receive_event]), the buffer holds the part of the next message that has
    arrived, and the reactor is told to quit if and only if the connection is lost.  If no
    value is empty and all expiration times are 0 or absolute 32-bit times, these are the
    changes of the master themselves. *)
Theorem slave_reads_stream evs ans hash e :
  events_wf evs -> Forall answer_ok ans -> data (heard ans) `prefix_of` stream evs -> t_inv hash ->
  RECVBUF_SIZE + (1 + Z.of_nat (length ans)) * MAX_RECVSIZE < 2 ^ 64 ->
  exists c0 h0, client_new hash e fresh_heap = (inr c0, h0) /\
  match client_calls (length ans) ans c0 with
  | (inr lasts, c) => ending_of ans = (if lasts then Lasting else Lost) /\ cl_quit c = negb lasts /\
      exists pre todo, evs = pre ++ todo /\ data (heard ans) = stream pre ++ Dynbuf.contents (m_recvbuf c) /\
      partial (Dynbuf.contents (m_recvbuf c)) todo /\ t_inv (m_hash c) /\
      view (t_map (m_hash c)) = foldl (receive_event ck) (view (t_map hash)) pre /\
      (Forall faithful evs ->
        view (t_map (m_hash c)) = foldl (fun m ev => apply_event ev m) (view (t_map hash)) pre)
  | (inl x, _) => x = system_error /\ ending_of ans = Failed
  end.
Proof.
  intros Hwf Hok Hpre Hi Hroom. pose proof MAX_RECVSIZE_pos.
  assert (reads_left ans <= 1 + length ans)%nat as Hl by (unfold reads_left; destruct ans; lia).
  pose proof (client_new_ok evs (reads_left ans) hash e Hwf Hi ltac:(nia)) as Hnew.
  apply wp_run in Hnew as (c0&h0&E&Hi0&Hc0). exists c0, h0. split; [done|].
  pose proof (client_calls_ok (view (t_map hash)) (length ans) ans [] evs c0 (le_n _) Hi0 Hok Hwf) as Hrun.
  rewrite Hc0 in Hrun. specialize (Hrun Hpre). unfold wp in Hrun.
  destruct (client_calls (length ans) ans c0) as [[x|lasts] c]; [done|].
  destruct Hrun as (He&rest&a&b&->&[_ Hp Ht Hv _ [Hq _]]&Hd). rewrite Hc0 in Hd. cbn [app] in *.
  split_and!; [done|done|]. exists a, b. split_and!; try done. intros [Hf _]%Forall_app.
  by rewrite Hv, receive_all_faithful.
Qed.
End client.

(** ** Three messages in five pieces, and an end in the middle *)

Definition sample_cuts : list recv_answer :=
  let s := stream sample_events in
  [RData (take 3 s); RIntr; RData (take 40 (drop 3 s)); RAgain; RData (drop 43 s)].
Definition sample_lost : list recv_answer := take 3 sample_cuts ++ [RClosed; RAgain].

Lemma slave_reads_stream_witness :
  (exists c0 h0 c pre todo,
    client_new (fun _ n => replicate n x00) sample_empty (sample_env []) fresh_heap = (inr c0, h0) /\
    client_calls sample_config sample_clock sample_u (fun _ n => replicate n x00) (length sample_cuts) sample_cuts c0 = (inr true, c) /\
    sample_events = pre ++ todo /\ data sample_cuts = stream pre ++ Dynbuf.contents (m_recvbuf c) /\
    view (t_map (m_hash c)) = foldl (fun m ev => apply_event ev m) (view (t_map sample_empty)) pre) /\
  (exists c0 h0 c pre todo,
    client_new (fun _ n => replicate n x00) sample_empty (sample_env []) fresh_heap = (inr c0, h0) /\
    client_calls sample_config sample_clock sample_u (fun _ n => replicate n x00) (length sample_lost) sample_lost c0 = (inr false, c) /\
    sample_events = pre ++ todo /\ data (heard sample_lost) = stream pre ++ Dynbuf.contents (m_recvbuf c)).
Proof.
  assert (events_wf sample_events) as Hw by (repeat constructor; done).
  assert (Forall faithful sample_events) as Hf by (repeat constructor; done || (right; done)).
  split.
  - destruct (slave_reads_stream sample_config sample_clock sample_u (fun _ n => replicate n x00)
      (fun _ n => length_replicate n x00) sample_events sample_cuts sample_empty (sample_env []) Hw)
      as (c0&h0&E&Hr); [repeat constructor; done|exists []; by vm_compute|by apply ctor_inv|by vm_compute|].
    destruct (client_calls _ _ _ _ _ _ c0) as [[x|[]] c] eqn:Ec; try (destruct Hr as [? Hr]; discriminate).
    destruct Hr as (_&_&pre&todo&E1&E2&_&_&_&E3). exists c0, h0, c, pre, todo. split_and!; [exact E|exact Ec|exact E1|exact E2|by apply E3].
  - destruct (slave_reads_stream sample_config sample_clock sample_u (fun _ n => replicate n x00)
      (fun _ n => length_replicate n x00) sample_events sample_lost sample_empty (sample_env []) Hw)
      as (c0&h0&E&Hr); [repeat constructor; done|eexists; by vm_compute|by apply ctor_inv|by vm_compute|].
    destruct (client_calls _ _ _ _ _ _ c0) as [[x|[]] c] eqn:Ec; try (destruct Hr as [? Hr]; discriminate).
    destruct Hr as (_&_&pre&todo&E1&E2&_). exists c0, h0, c, pre, todo. split_and!; [exact E|exact Ec|exact E1|exact E2].
Defined.
