(* ===== verification/Tcp.v ===== *)
(** * Connected TCP sockets (class tcp_socket of cybozu/tcp.hpp and cybozu/tcp.cpp)

    A socket is shared by the worker threads that send responses, by the threads that
    replicate to it and by the reactor.  Each operation holds the socket's mutex, so a
    history of the socket is a sequence of operations; a sender that finds no room
    waits, and its next attempt is another operation of the sequence.  The kernel
    is a list of answers per operation: how many bytes a call took, that the call was
    interrupted, that it would block, or an error. *)

From S2P Require Import Prelude.

(** [MAX_BUFCNT], [SENDBUF_SIZE] and [MAX_IOVCNT]. *)
Definition MAX_BUFCNT : Z := 65536.
Definition SENDBUF_SIZE : Z := 2 ^ 20.
Definition MAX_IOVCNT : Z := 20.

(** What the kernel answers to [send] and [writev]: a number of bytes, [EINTR],
    [EAGAIN], or another error. *)
Inductive answer := Sent (n : nat) | Intr | Again | Err.

(** An entry of [m_pending]: the buffer, the data written to it, how much was sent. *)
Record pending := { pb_p : nat; pb_data : bytes; pb_sent : nat }.

(** The members of the socket and of its base class, and what the environment sees:
    the bytes the kernel has taken, how many of them were flushed, the calls of
    [notify_all], the buffers given back, the requests to the reactor. *)
Record tcp_socket := {
  m_free_buffers : list nat;       (** the back of the vector first *)
  m_pending : list pending;
  m_tmpbuf : bytes;
  m_shutdown : bool;
  m_valid : bool;
  wire : bytes;
  flushed : nat;
  notified : nat;
  freed : list nat;
  removals : nat
}.

Definition set_queue (f : list nat) (q : list pending) (t : bytes) (s : tcp_socket) : tcp_socket :=
  {| m_free_buffers := f; m_pending := q; m_tmpbuf := t; m_shutdown := m_shutdown s;
     m_valid := m_valid s; wire := wire s; flushed := flushed s; notified := notified s;
     freed := freed s; removals := removals s |}.
Definition put_wire (p : bytes) (s : tcp_socket) : tcp_socket :=
  {| m_free_buffers := m_free_buffers s; m_pending := m_pending s; m_tmpbuf := m_tmpbuf s;
     m_shutdown := m_shutdown s; m_valid := m_valid s; wire := wire s ++ p; flushed := flushed s;
     notified := notified s; freed := freed s; removals := removals s |}.
Definition set_shutdown (s : tcp_socket) : tcp_socket :=
  {| m_free_buffers := m_free_buffers s; m_pending := m_pending s; m_tmpbuf := m_tmpbuf s;
     m_shutdown := true; m_valid := m_valid s; wire := wire s; flushed := flushed s;
     notified := notified s; freed := freed s; removals := removals s |}.
Definition set_freed (l : list nat) (s : tcp_socket) : tcp_socket :=
  {| m_free_buffers := m_free_buffers s; m_pending := m_pending s; m_tmpbuf := m_tmpbuf s;
     m_shutdown := m_shutdown s; m_valid := m_valid s; wire := wire s; flushed := flushed s;
     notified := notified s; freed := l; removals := removals s |}.
Definition set_invalid (s : tcp_socket) : tcp_socket :=
  {| m_free_buffers := m_free_buffers s; m_pending := m_pending s; m_tmpbuf := m_tmpbuf s;
     m_shutdown := m_shutdown s; m_valid := false; wire := wire s; flushed := flushed s;
     notified := notified s; freed := freed s; removals := removals s |}.
Definition request_removal (s : tcp_socket) : tcp_socket :=
  {| m_free_buffers := m_free_buffers s; m_pending := m_pending s; m_tmpbuf := m_tmpbuf s;
     m_shutdown := m_shutdown s; m_valid := m_valid s; wire := wire s; flushed := flushed s;
     notified := notified s; freed := freed s; removals := S (removals s) |}.
(** [m_cond_write.notify_all]. *)
Definition notify_all (s : tcp_socket) : tcp_socket :=
  {| m_free_buffers := m_free_buffers s; m_pending := m_pending s; m_tmpbuf := m_tmpbuf s;
     m_shutdown := m_shutdown s; m_valid := m_valid s; wire := wire s; flushed := flushed s;
     notified := S (notified s); freed := freed s; removals := removals s |}.
(** [_flush]: what the kernel holds goes out. *)
Definition _flush (s : tcp_socket) : tcp_socket :=
  {| m_free_buffers := m_free_buffers s; m_pending := m_pending s; m_tmpbuf := m_tmpbuf s;
     m_shutdown := m_shutdown s; m_valid := m_valid s; wire := wire s; flushed := length (wire s);
     notified := notified s; freed := freed s; removals := removals s |}.

(** The constructor. *)
Definition tcp_socket_new (bufcnt : nat) : exn + tcp_socket :=
  if MAX_BUFCNT <? Z.of_nat bufcnt then inl logic_error else
  inr {| m_free_buffers := rev (seq 0 bufcnt); m_pending := []; m_tmpbuf := [];
         m_shutdown := false; m_valid := true; wire := []; flushed := 0; notified := 0;
         freed := []; removals := 0 |}.

(** [capacity], [can_send], [empty]. *)
Definition capacity (s : tcp_socket) : Z :=
  let c := Z.of_nat (length (m_free_buffers s)) * SENDBUF_SIZE in
  match last (m_pending s) with
  | None => c
  | Some t => c + SENDBUF_SIZE - blen (pb_data t)
  end.
Definition can_send (len : Z) (s : tcp_socket) : bool :=
  if m_shutdown s then true else
  if negb (bool_decide (m_tmpbuf s = [])) then false else
  if bool_decide (m_pending s = []) then true else
  len <=? capacity s.
Definition empty (s : tcp_socket) : bool :=
  bool_decide (m_pending s = []) && bool_decide (m_tmpbuf s = []).

(** [free_buffers]. *)
Definition free_buffers (s : tcp_socket) : tcp_socket :=
  let s := set_freed (freed s ++ (pb_p <$> m_pending s) ++ rev (m_free_buffers s)) s in
  set_shutdown (set_queue [] [] [] s).

(** [on_invalidate]: the kernel's connection is shut down as well. *)
Definition on_invalidate (s : tcp_socket) : tcp_socket := notify_all (free_buffers s).

(** [resource::invalidate] and [resource::invalidate_and_close_]. *)
Definition invalidate (s : tcp_socket) : bool * tcp_socket :=
  if m_valid s then (false, on_invalidate (set_invalid s)) else (true, s).
Definition invalidate_and_close_ (s : tcp_socket) : tcp_socket :=
  if m_valid s then request_removal (on_invalidate (set_invalid s)) else s.

(** ** Calls of the kernel *)

(** The loops around [::send]: until all is sent, the call would block, or fails.
    The result: what the kernel took, what is left, and whether it failed. *)
Fixpoint send_loop (ans : list answer) (p : bytes) : bytes * bytes * bool * list answer :=
  match p, ans with
  | [], _ => ([], [], false, ans)
  | _, [] => ([], p, false, [])
  | _, Intr :: ans => send_loop ans p
  | _, Again :: ans => ([], p, false, ans)
  | _, Err :: ans => ([], p, true, ans)
  | _, Sent n :: ans =>
      let '(w, rest, e, ans) := send_loop ans (drop n p) in
      (take n p ++ w, rest, e, ans)
  end.

(** Skipping what [writev] took from the vectors. *)
Fixpoint advance (n : nat) (v : list bytes) : list bytes :=
  match v with
  | [] => []
  | x :: v' => if (n =? 0)%nat then v else
               if (n <? length x)%nat then drop n x :: v' else advance (n - length x) v'
  end.

(** The loop around [::writev]. *)
Fixpoint writev_loop (ans : list answer) (v : list bytes) : bytes * list bytes * bool * list answer :=
  match v, ans with
  | [], _ => ([], [], false, ans)
  | _, [] => ([], v, false, [])
  | _, Intr :: ans => writev_loop ans v
  | _, Again :: ans => ([], v, false, ans)
  | _, Err :: ans => ([], v, true, ans)
  | _, Sent n :: ans =>
      let '(w, rest, e, ans) := writev_loop ans (advance n v) in
      (take n (concat v) ++ w, rest, e, ans)
  end.

(** ** Sending *)

Section monadic.
Notation S := (M tcp_socket).

(** [std::memcpy] to the end of a buffer's data. *)
Definition buf_append (t : pending) (p : bytes) : S pending :=
  if blen (pb_data t) + blen p <=? SENDBUF_SIZE
  then ret {| pb_p := pb_p t; pb_data := pb_data t ++ p; pb_sent := pb_sent t |}
  else throw bad_read.

(** [m_free_buffers.back] and [pop_back]; [m_pending.emplace_back]; writing through
    a reference to [m_pending.back()]. *)
Definition take_buffer : S nat :=
  let! f := gets m_free_buffers in
  match f with
  | [] => throw bad_read
  | b :: f => modify (fun s => set_queue f (m_pending s) (m_tmpbuf s) s) ;;! ret b
  end.
Definition push_pending (t : pending) : S unit :=
  modify (fun s => set_queue (m_free_buffers s) (m_pending s ++ [t]) (m_tmpbuf s) s).
Definition set_back (t : pending) : S unit :=
  modify (fun s => set_queue (m_free_buffers s) (removelast (m_pending s) ++ [t]) (m_tmpbuf s) s).
Definition set_tmpbuf (p : bytes) : S unit :=
  modify (fun s => set_queue (m_free_buffers s) (m_pending s) p s).

(** The last loop of [_send]: whole buffers.  [fuel] bounds the iterations. *)
Fixpoint queue_loop (fuel : nat) (p : bytes) : S unit :=
  match p, fuel with
  | [], _ => ret tt
  | _, O => throw no_fuel
  | _, Datatypes.S fuel =>
      let! t_p := take_buffer in
      let to_write := Z.to_nat (Z.min (blen p) SENDBUF_SIZE) in
      let! t := buf_append {| pb_p := t_p; pb_data := []; pb_sent := 0 |} (take to_write p) in
      push_pending t ;;!
      queue_loop fuel (drop to_write p)
  end.

(** [_send], one attempt of a sender: [None] is a sender that waits for
    [m_cond_write]; otherwise the returned value. *)
Definition _send (ans : list answer) (p : bytes) : S (option bool) :=
  let! ok := gets (can_send (blen p)) in
  if negb ok then ret None else
  let! down := gets m_shutdown in
  if down then ret (Some false) else
  let! q := gets m_pending in
  let '(w, p, e, _) := (if bool_decide (q = []) then send_loop ans p else ([], p, false, ans)) in
  modify (put_wire w) ;;!
  if e then ret (Some false) else
  if bool_decide (q = []) && bool_decide (p = []) then ret (Some true) else
  let! c := gets capacity in
  if c <? blen p then set_tmpbuf p ;;! ret (Some true) else
  let! p :=
    (match last q with
     | None => ret p
     | Some t =>
         let room := SENDBUF_SIZE - blen (pb_data t) in
         if 0 <? room then
           let to_write := Z.to_nat (Z.min room (blen p)) in
           let! t := buf_append t (take to_write p) in
           set_back t ;;!
           ret (drop to_write p)
         else ret p
     end) in
  let! f := gets m_free_buffers in
  queue_loop (length f) p ;;!
  ret (Some true).

(** The inner loop of [_sendv]: filling one buffer. *)
Fixpoint fill_loop (room : Z) (t : pending) (v : list bytes) : S (pending * list bytes) :=
  match v with
  | [] => ret (t, [])
  | x :: v' =>
      if room <=? 0 then ret (t, v) else
      let to_write := Z.min room (blen x) in
      let! t := buf_append t (take (Z.to_nat to_write) x) in
      set_back t ;;!
      if to_write =? blen x then fill_loop (room - to_write) t v'
      else ret (t, drop (Z.to_nat to_write) x :: v')
  end.

(** The outer loop of [_sendv]. *)
Fixpoint queuev_loop (fuel : nat) (v : list bytes) : S unit :=
  match v, fuel with
  | [], _ => ret tt
  | _, O => throw no_fuel
  | _, Datatypes.S fuel =>
      let! q := gets m_pending in
      let! t :=
        (let new :=
           let! t_p := take_buffer in
           let t := {| pb_p := t_p; pb_data := []; pb_sent := 0 |} in
           push_pending t ;;!
           ret t in
         match last q with
         | None => new
         | Some t => if blen (pb_data t) =? SENDBUF_SIZE then new else ret t
         end) in
      let! tv := fill_loop (SENDBUF_SIZE - blen (pb_data t)) t v in
      queuev_loop fuel (snd tv)
  end.

(** [_sendv], one attempt. *)
Definition _sendv (ans : list answer) (iov : list bytes) : S (option bool) :=
  let! ok := gets (can_send (blen (concat iov))) in
  if negb ok then ret None else
  let! down := gets m_shutdown in
  if down then ret (Some false) else
  let v := filter (fun x => x <> []) iov in
  let! q := gets m_pending in
  let '(w, v, e, _) := (if bool_decide (q = []) then writev_loop ans v else ([], v, false, ans)) in
  modify (put_wire w) ;;!
  if e then ret (Some false) else
  if bool_decide (q = []) && bool_decide (v = []) then ret (Some true) else
  let! c := gets capacity in
  if c <? blen (concat v) then set_tmpbuf (concat v) ;;! ret (Some true) else
  let! f := gets m_free_buffers in
  queuev_loop (Datatypes.S (length f)) v ;;!
  ret (Some true).

(** ** Writing out *)

(** The second loop of [write_pending_data]: [Some] is an early return. *)
Fixpoint pending_loop (q : list pending) (ans : list answer) : S (option bool) :=
  match q with
  | [] => ret None
  | t :: q' =>
      let '(w, rest, e, ans) := send_loop ans (drop (pb_sent t) (pb_data t)) in
      modify (put_wire w) ;;!
      if e then ret (Some false) else
      match rest with
      | [] =>
          modify (fun s => set_queue (pb_p t :: m_free_buffers s) q' (m_tmpbuf s) s) ;;!
          pending_loop q' ans
      | _ =>
          let t := {| pb_p := pb_p t; pb_data := pb_data t; pb_sent := pb_sent t + length w |} in
          modify (fun s => set_queue (m_free_buffers s) (t :: q') (m_tmpbuf s) s) ;;!
          modify notify_all ;;!
          ret (Some true)
      end
  end.

(** [write_pending_data]. *)
Definition write_pending_data (ans : list answer) : S bool :=
  let! tmp := gets m_tmpbuf in
  let '(w, rest, e, ans) := send_loop ans tmp in
  modify (put_wire w) ;;!
  set_tmpbuf rest ;;!
  if e then ret false else
  if negb (bool_decide (rest = [])) then ret true else
  let! q := gets m_pending in
  let! r := pending_loop q ans in
  match r with
  | Some b => ret b
  | None =>
      modify _flush ;;!
      let! down := gets m_shutdown in
      if down then ret false else
      modify notify_all ;;!
      ret true
  end.

(** ** The operations other components call *)

(** What became of one attempt: refused by [with_fd], waiting, or run to its end with
    the value of [_send] and the value returned. *)
Inductive outcome := Refused | Waiting | Ran (sent : bool) (r : bool).

(** The end of [with_fd], and its start: a waiting sender has passed the test. *)
Definition with_fd_end (o : option (bool * bool)) : S outcome :=
  match o with
  | None => ret Waiting
  | Some (sent, true) => ret (Ran sent true)
  | Some (sent, false) => modify invalidate_and_close_ ;;! ret (Ran sent false)
  end.
Definition with_fd (first : bool) (f : S (option (bool * bool))) : S outcome :=
  let! ok := gets m_valid in
  if first && negb ok then ret Refused else
  let! o := f in with_fd_end o.

(** The bodies of [send] and [sendv], and of [send_close] and [sendv_close]. *)
Definition send_body (flush : bool) (attempt : S (option bool)) : S (option (bool * bool)) :=
  let! r := attempt in
  match r with
  | None => ret None
  | Some false => ret (Some (false, false))
  | Some true =>
      let! e := gets empty in
      when (flush && e) (modify _flush) ;;!
      ret (Some (true, true))
  end.
Definition close_body (attempt : S (option bool)) : S (option (bool * bool)) :=
  let! r := attempt in
  match r with
  | None => ret None
  | Some false => ret (Some (false, false))
  | Some true =>
      modify set_shutdown ;;!
      let! e := gets empty in
      if (e : bool) then modify _flush ;;! ret (Some (true, false))
      else modify notify_all ;;! ret (Some (true, true))
  end.

(** [send], [sendv], [send_close], [sendv_close]; [first] is false when a waiting call
    goes on. *)
Definition send (first : bool) (ans : list answer) (p : bytes) (flush : bool) : S outcome :=
  with_fd first (send_body flush (_send ans p)).
Definition send_close (first : bool) (ans : list answer) (p : bytes) : S outcome :=
  with_fd first (close_body (_send ans p)).
Definition sendv (first : bool) (ans : list answer) (iov : list bytes) (flush : bool) : S outcome :=
  with_fd first (if MAX_IOVCNT <=? Z.of_nat (length iov) then throw logic_error
                 else send_body flush (_sendv ans iov)).
Definition sendv_close (first : bool) (ans : list answer) (iov : list bytes) : S outcome :=
  with_fd first (if MAX_IOVCNT <=? Z.of_nat (length iov) then throw logic_error
                 else close_body (_sendv ans iov)).

(** [on_writable], by the reactor; [write_pending_data] in a job of a worker. *)
Definition on_writable (ans : list answer) : S bool :=
  let! r := write_pending_data ans in
  if (r : bool) then ret true else
  fun s => let (b, s) := invalidate s in (inr b, s).
Definition sendjob (ans : list answer) : S outcome :=
  with_fd true (let! r := write_pending_data ans in ret (Some (true, r))).
End monadic.
