(* ===== verification/TcpSpec.v ===== *)
(** * What the sending side of a TCP socket promises

    The queue of a socket, the invariant of its buffers, and the histories of a socket:
    every byte accepted reaches the kernel in order, the buffers are neither lost nor
    given back twice, a sender that waits is woken when there is room. *)

From S2P Require Import Prelude.
From S2P Require Import Tcp.

(** ** The queue *)

Definition unsent (t : pending) : bytes := drop (pb_sent t) (pb_data t).
Definition queued (s : tcp_socket) : bytes := m_tmpbuf s ++ concat (unsent <$> m_pending s).
Definition buffers (s : tcp_socket) : list nat := m_free_buffers s ++ (pb_p <$> m_pending s).

Definition pend_ok (t : pending) : Prop :=
  (pb_sent t <= length (pb_data t))%nat /\ blen (pb_data t) <= SENDBUF_SIZE.

(** The invariant: a socket with [n] buffers. *)
Record sock_inv (n : nat) (s : tcp_socket) : Prop := {
  si_pend : Forall pend_ok (m_pending s);
  si_tmp : m_tmpbuf s <> [] -> m_pending s = [];
  si_open : m_valid s = true -> buffers s ≡ₚ seq 0 n /\ freed s = [] /\ removals s = 0%nat;
  si_closed : m_valid s = false ->
    buffers s = [] /\ m_tmpbuf s = [] /\ m_shutdown s = true /\ freed s ≡ₚ seq 0 n /\
    (removals s <= 1)%nat
}.

(** What sending leaves alone. *)
Definition same_env (s s' : tcp_socket) : Prop :=
  m_shutdown s' = m_shutdown s /\ m_valid s' = m_valid s /\ flushed s' = flushed s /\
  notified s' = notified s /\ freed s' = freed s /\ removals s' = removals s.

#[export] Instance same_env_preorder : PreOrder same_env.
Proof.
  split; [by intros s|]. intros s1 s2 s3 (?&?&?&?&?&?) (?&?&?&?&?&?). repeat split; congruence.
Qed.

(** Putting [p] behind the pending data. *)
Record queues (s : tcp_socket) (p : bytes) (s' : tcp_socket) : Prop := {
  qu_env : same_env s s';
  qu_wire : wire s' = wire s;
  qu_tmp : m_tmpbuf s' = m_tmpbuf s;
  qu_bufs : buffers s' ≡ₚ buffers s;
  qu_pend : Forall pend_ok (m_pending s');
  qu_data : concat (unsent <$> m_pending s') = concat (unsent <$> m_pending s) ++ p;
  qu_cap : capacity s' = capacity s - blen p;
  qu_ne : m_pending s <> [] -> m_pending s' <> []
}.

Lemma queues_refl s : Forall pend_ok (m_pending s) -> queues s [] s.
Proof. intros Hp. split; try done; [by rewrite app_nil_r|unfold blen; cbn [length]; lia]. Qed.

Lemma queues_trans s p s1 q s2 : queues s p s1 -> queues s1 q s2 -> queues s (p ++ q) s2.
Proof.
  intros [] []. split; try done; try congruence.
  - by etrans.
  - by etrans.
  - rewrite app_assoc. congruence.
  - rewrite blen_app. lia.
  - auto.
Qed.

(** The last buffer has no room. *)
Definition back_full (s : tcp_socket) : Prop :=
  match last (m_pending s) with None => True | Some t => blen (pb_data t) = SENDBUF_SIZE end.

Lemma back_full_capacity s :
  back_full s -> capacity s = Z.of_nat (length (m_free_buffers s)) * SENDBUF_SIZE.
Proof. unfold back_full, capacity. destruct (last _); lia. Qed.

Lemma SENDBUF_pos : 0 < SENDBUF_SIZE.
Proof. done. Qed.
#[local] Opaque SENDBUF_SIZE.

Lemma last_split {A} (l : list A) t : last l = Some t -> l = removelast l ++ [t].
Proof. intros H. apply last_Some in H as [l' ->]. by rewrite removelast_last. Qed.

(** *** Buffers *)

Definition fresh (b : nat) (p : bytes) : pending := {| pb_p := b; pb_data := p; pb_sent := 0 |}.

Lemma queues_push s b f p :
  m_free_buffers s = b :: f -> Forall pend_ok (m_pending s) -> back_full s -> blen p <= SENDBUF_SIZE ->
  queues s p (set_queue f (m_pending s ++ [fresh b p]) (m_tmpbuf s) s).
Proof.
  intros Hf Hp Hb Hl. split; cbn; try done.
  - unfold buffers. cbn. rewrite Hf, fmap_app. cbn. by rewrite app_assoc, <- Permutation_cons_append.
  - apply Forall_app. split; [done|]. constructor; [|done]. split; cbn; [lia|done].
  - rewrite fmap_app, concat_app. cbn. by rewrite app_nil_r.
  - rewrite (back_full_capacity s) by done. unfold capacity. cbn. rewrite last_snoc, Hf. cbn [length pb_data fresh]. lia.
  - intros _. by destruct (m_pending s).
Qed.

Definition more (t : pending) (p : bytes) : pending :=
  {| pb_p := pb_p t; pb_data := pb_data t ++ p; pb_sent := pb_sent t |}.

Lemma queues_back s t p :
  last (m_pending s) = Some t -> Forall pend_ok (m_pending s) -> blen (pb_data t) + blen p <= SENDBUF_SIZE ->
  queues s p (set_queue (m_free_buffers s) (removelast (m_pending s) ++ [more t p]) (m_tmpbuf s) s).
Proof.
  intros Hl Hp Hr. pose proof (last_split _ _ Hl) as Hs. set (q := removelast _) in *.
  rewrite Hs in Hp. apply Forall_app in Hp as [Hq Ht]. apply Forall_cons in Ht as [[Ht1 Ht2] _].
  split; cbn; try done.
  - unfold buffers. cbn. by rewrite Hs, !fmap_app.
  - apply Forall_app. split; [done|]. constructor; [|done]. split; cbn; [rewrite length_app; lia|].
    by rewrite blen_app.
  - rewrite Hs, !fmap_app, !concat_app. unfold unsent at 2. cbn. rewrite !app_nil_r, <- app_assoc.
    f_equal. by rewrite drop_app_le.
  - unfold capacity. cbn. rewrite last_snoc, Hl. cbn. rewrite blen_app. lia.
  - intros _. by destruct q.
Qed.

Lemma wp_buf_append t p (Q : pending -> tcp_socket -> Prop) s :
  blen (pb_data t) + blen p <= SENDBUF_SIZE -> Q (more t p) s -> wp no_exn (buf_append t p) Q s.
Proof.
  intros Hl HQ. unfold buf_append. destruct (Z.leb_spec (blen (pb_data t) + blen p) SENDBUF_SIZE); [|lia].
  by apply wp_ret.
Qed.

Lemma blen_take n (p : bytes) : 0 <= n <= blen p -> blen (take (Z.to_nat n) p) = n.
Proof. unfold blen. intros ?. rewrite length_take. lia. Qed.
Lemma blen_drop n (p : bytes) : 0 <= n <= blen p -> blen (drop (Z.to_nat n) p) = blen p - n.
Proof. unfold blen. intros ?. rewrite length_drop. lia. Qed.

(** [_send] puts what is left into whole buffers. *)
Lemma queue_loop_ok fuel p s :
  Forall pend_ok (m_pending s) -> (p = [] \/ back_full s) ->
  blen p <= Z.of_nat (length (m_free_buffers s)) * SENDBUF_SIZE ->
  (length (m_free_buffers s) <= fuel)%nat ->
  wp no_exn (queue_loop fuel p) (fun _ s' => queues s p s') s.
Proof.
  pose proof SENDBUF_pos as HS. revert p s. induction fuel as [|fuel IH]; intros p s Hp Hb Hl Hf.
  { destruct p; [by apply wp_ret, queues_refl|]. exfalso. unfold blen in Hl. cbn [length] in Hl. nia. }
  destruct p as [|c p]; [by apply wp_ret, queues_refl|]. destruct Hb as [|Hb]; [done|].
  set (p0 := c :: p) in *. cbn [queue_loop].
  assert (0 < blen p0) as Hpos by (unfold blen, p0; cbn; lia).
  destruct (m_free_buffers s) as [|b f] eqn:Ef; [cbn in Hl; lia|].
  apply wp_bind. unfold take_buffer at 1. apply wp_bind, wp_gets. rewrite Ef. apply wp_bind, wp_modify, wp_ret.
  set (n := Z.min (blen p0) SENDBUF_SIZE).
  assert (blen (take (Z.to_nat n) p0) = n) as Hn by (apply blen_take; lia).
  apply wp_bind, wp_buf_append; [cbn [pb_data]; rewrite Hn; change (blen []) with 0; lia|].
  apply wp_bind, wp_modify.
  set (s1 := set_queue f (m_pending s ++ [fresh b (take (Z.to_nat n) p0)]) (m_tmpbuf s) s).
  assert (queues s (take (Z.to_nat n) p0) s1) as Hq1 by (apply queues_push; [done..|lia]).
  eapply (wp_mono _ _ (fun _ s' => queues s1 (drop (Z.to_nat n) p0) s')); cycle 1.
  { intros _ s2 Hq2. rewrite <- (take_drop (Z.to_nat n) p0). by eapply queues_trans. }
  apply IH.
  - apply Hq1.
  - destruct (decide (blen p0 <= SENDBUF_SIZE)).
    + left. apply drop_ge. unfold blen in *. lia.
    + right. unfold back_full, s1. cbn. rewrite last_snoc. cbn. rewrite Hn. lia.
  - rewrite blen_drop by lia. unfold s1. cbn [set_queue m_free_buffers length] in *. nia.
  - cbn in Hf |- *. lia.
Qed.

(** [_sendv] fills one buffer. *)
Lemma fill_loop_ok v t s :
  Forall pend_ok (m_pending s) -> last (m_pending s) = Some t ->
  Forall (fun x => x <> []) v ->
  wp no_exn (fill_loop (SENDBUF_SIZE - blen (pb_data t)) t v) (fun tv s' =>
    exists p, queues s p s' /\ concat v = p ++ concat (snd tv) /\
      m_free_buffers s' = m_free_buffers s /\
      Forall (fun x => x <> []) (snd tv) /\ (snd tv = [] \/ back_full s')) s.
Proof.
  revert t s. induction v as [|x v IH]; intros t s Hp Hl Hv.
  { apply wp_ret. exists []. split; [by apply queues_refl|]. split_and!; try done. by left. }
  cbn [fill_loop]. apply Forall_cons in Hv as Hv2. destruct Hv2 as [Hx Hv'].
  assert (blen (pb_data t) <= SENDBUF_SIZE) as Ht.
  { pose proof (proj1 (Forall_forall _ _) Hp t) as [_ Hd]; [|done].
    apply last_Some in Hl as [l ->]. set_solver. }
  destruct (Z.leb_spec (SENDBUF_SIZE - blen (pb_data t)) 0) as [Hfull|Hroom].
  { apply wp_ret. exists []. split; [by apply queues_refl|]. split_and!; try done. right.
    unfold back_full. rewrite Hl. lia. }
  set (n := Z.min _ (blen x)). pose proof (blen_nonneg x).
  assert (blen (take (Z.to_nat n) x) = n) as Hn by (apply blen_take; lia).
  apply wp_bind, wp_buf_append; [lia|]. apply wp_bind, wp_modify.
  set (t1 := more t (take (Z.to_nat n) x)). set (s1 := set_queue _ _ _ _).
  assert (queues s (take (Z.to_nat n) x) s1) as Hq by (apply queues_back; [done..|lia]).
  assert (last (m_pending s1) = Some t1) as Hl1 by (unfold s1; cbn; by rewrite last_snoc).
  assert (blen (pb_data t1) = blen (pb_data t) + n) as Hd by (cbn; rewrite blen_app; lia).
  destruct (Z.eqb_spec n (blen x)) as [Hall|Hpart].
  - replace (SENDBUF_SIZE - blen (pb_data t) - n) with (SENDBUF_SIZE - blen (pb_data t1)) by lia.
    eapply wp_mono; [apply IH; [apply Hq|done..]|]. intros tv s2 (p&Hq2&Hc&Hf&Hr).
    exists (x ++ p). split; [|split; [|by rewrite Hf]].
    + rewrite take_ge in Hq by (unfold blen in *; lia). by eapply queues_trans.
    + cbn. by rewrite Hc, app_assoc.
  - apply wp_ret. exists (take (Z.to_nat n) x). split; [done|]. cbn [snd concat].
    split_and!; [by rewrite app_assoc, take_drop|done| |].
    + constructor; [|done]. intros Hnil. apply (f_equal blen) in Hnil.
      rewrite blen_drop in Hnil by lia. change (blen []) with 0 in Hnil. lia.
    + right. unfold back_full. rewrite Hl1. lia.
Qed.

Lemma concat_nonempty v : Forall (fun x : bytes => x <> []) v -> v <> [] -> 0 < blen (concat v).
Proof.
  intros Hv Hne. destruct v as [|x v]; [done|]. apply Forall_cons in Hv as [Hx _].
  cbn. rewrite blen_app. pose proof (blen_nonneg (concat v)). destruct x; [done|]. unfold blen. cbn. lia.
Qed.

Lemma queuev_loop_ok fuel v s :
  Forall pend_ok (m_pending s) -> Forall (fun x => x <> []) v -> blen (concat v) <= capacity s ->
  (length (m_free_buffers s) < fuel \/ length (m_free_buffers s) <= fuel /\ (v = [] \/ back_full s))%nat ->
  wp no_exn (queuev_loop fuel v) (fun _ s' => queues s (concat v) s') s.
Proof.
  pose proof SENDBUF_pos as HS. revert v s. induction fuel as [|fuel IH]; intros v s Hp Hv Hl Hf.
  { destruct v as [|x v]; [by apply wp_ret, queues_refl|]. exfalso.
    destruct Hf as [?|[Hz [?|Hb]]]; [lia|done|]. rewrite back_full_capacity in Hl by done.
    pose proof (concat_nonempty _ Hv ltac:(done)). nia. }
  destruct v as [|x v]; [by apply wp_ret, queues_refl|]. set (v0 := x :: v) in *. cbn [queuev_loop].
  pose proof (concat_nonempty v0 Hv ltac:(done)) as Hpos.
  apply wp_bind, wp_gets, wp_bind. set (new := bind take_buffer _).
  assert (back_full s -> wp no_exn new (fun t s1 => queues s [] s1 /\ last (m_pending s1) = Some t /\
    S (length (m_free_buffers s1)) = length (m_free_buffers s)) s) as Hnew.
  { intros Hb. subst new. rewrite back_full_capacity in Hl by done.
    destruct (m_free_buffers s) as [|b f] eqn:Ef; [cbn [length] in Hl; lia|].
    apply wp_bind. unfold take_buffer. apply wp_bind, wp_gets. rewrite Ef.
    apply wp_bind, wp_modify, wp_ret, wp_bind, wp_modify, wp_ret. split_and!; [|cbn; by rewrite last_snoc|done].
    apply (queues_push s b f []); [done..|]. change (blen []) with 0. lia. }
  assert (wp no_exn match last (m_pending s) with
      | None => new | Some t => if blen (pb_data t) =? SENDBUF_SIZE then new else ret t end
    (fun t s1 => queues s [] s1 /\ last (m_pending s1) = Some t /\
      (length (m_free_buffers s1) <= fuel)%nat) s) as Ht.
  { unfold back_full in *. destruct (last (m_pending s)) as [t|] eqn:El.
    - destruct (Z.eqb_spec (blen (pb_data t)) SENDBUF_SIZE) as [Hfull|Hroom].
      + eapply wp_mono; [by apply Hnew|]. intros t1 s1 (?&?&?). split_and!; [done..|lia].
      + apply wp_ret. split_and!; [by apply queues_refl|done|]. destruct Hf as [?|[_ [?|?]]]; [lia|done..].
    - eapply wp_mono; [by apply Hnew|]. intros t1 s1 (?&?&?). split_and!; [done..|lia]. }
  eapply wp_mono; [exact Ht|]. intros t s1 (Hq1&Hl1&Hf1). apply wp_bind.
  eapply wp_mono; [apply fill_loop_ok; [apply Hq1|done..]|].
  intros [t2 v2] s2 (p&Hq2&Hc&Hfr&Hv2&Hb). cbn [snd] in *.
  pose proof (queues_trans _ _ _ _ _ Hq1 Hq2) as Hq. cbn [app] in Hq.
  eapply wp_mono; [apply IH; [apply Hq|done| |]|].
  - rewrite (qu_cap _ _ _ Hq). rewrite Hc, blen_app in Hl. lia.
  - right. rewrite Hfr. done.
  - intros [] s3 Hq3. rewrite Hc. by eapply queues_trans.
Qed.

(** *** The kernel's part *)

Lemma send_loop_split ans p w rest e ans' :
  send_loop ans p = (w, rest, e, ans') ->
  p = w ++ rest /\ (e = true -> Err ∈ ans) /\ ans' `suffix_of` ans.
Proof.
  revert p w rest e ans'. induction ans as [|a ans IH]; intros p w rest e ans'.
  { destruct p; intros [= <- <- <- <-]; done. }
  destruct p as [|c p]; [intros [= <- <- <- <-]; done|]. set (p0 := c :: p). destruct a as [n| | |].
  - change (send_loop (Sent n :: ans) p0) with
      (let '(w, rest, e, ans) := send_loop ans (drop n p0) in (take n p0 ++ w, rest, e, ans)).
    destruct (send_loop ans (drop n p0)) as [[[w1 r1] e1] a1] eqn:E. intros [= <- <- <- <-].
    apply IH in E as (Hd&He&Hs). split; [by rewrite <- app_assoc, <- Hd, take_drop|].
    split; [intros ->; right; by apply He|by apply suffix_cons_r].
  - intros H. apply IH in H as (H1&H2&H3). split; [done|]. split; [intros ?; right; auto|by apply suffix_cons_r].
  - intros [= <- <- <- <-]. split_and!; [done..|by apply suffix_cons_r].
  - intros [= <- <- <- <-]. split_and!; [done|intros _; left|by apply suffix_cons_r].
Qed.

Lemma concat_advance n v : concat (advance n v) = drop n (concat v).
Proof.
  revert n. induction v as [|x v IH]; intros n; [by destruct n|]. cbn [advance concat].
  destruct (Nat.eqb_spec n 0) as [-> |Hn]; [by rewrite drop_0|]. destruct (Nat.ltb_spec n (length x)).
  - cbn. by rewrite drop_app_le by lia.
  - rewrite IH, drop_app_ge by lia. done.
Qed.

Lemma advance_nonempty n v :
  Forall (fun x : bytes => x <> []) v -> Forall (fun x => x <> []) (advance n v).
Proof.
  revert n. induction v as [|x v IH]; intros n Hv; [done|]. cbn [advance].
  destruct (Nat.eqb_spec n 0); [done|]. apply Forall_cons in Hv as [Hx Hv].
  destruct (Nat.ltb_spec n (length x)); [|by apply IH]. constructor; [|done].
  intros Hd. apply (f_equal length) in Hd. rewrite length_drop in Hd. cbn in Hd. lia.
Qed.

Lemma writev_loop_split ans v w rest e ans' :
  Forall (fun x => x <> []) v -> writev_loop ans v = (w, rest, e, ans') ->
  concat v = w ++ concat rest /\ Forall (fun x => x <> []) rest /\ (e = true -> Err ∈ ans).
Proof.
  revert v w rest e ans'. induction ans as [|a ans IH]; intros v w rest e ans' Hv.
  { destruct v; intros [= <- <- <- <-]; done. }
  destruct v as [|c v]; [intros [= <- <- <- <-]; done|]. set (v0 := c :: v) in *. destruct a as [n| | |].
  - change (writev_loop (Sent n :: ans) v0) with
      (let '(w, rest, e, ans) := writev_loop ans (advance n v0) in (take n (concat v0) ++ w, rest, e, ans)).
    destruct (writev_loop ans (advance n v0)) as [[[w1 r1] e1] a1] eqn:E. intros [= <- <- <- <-].
    apply IH in E as (Hd&Hn&He); [|by apply advance_nonempty]. rewrite concat_advance in Hd.
    split; [by rewrite <- app_assoc, <- Hd, take_drop|]. split; [done|]. intros ->. right. by apply He.
  - intros H. apply IH in H as (H1&H2&H3); [|done]. split; [done|]. split; [done|]. intros ?. right. auto.
  - intros [= <- <- <- <-]. done.
  - intros [= <- <- <- <-]. split; [done|]. split; [done|]. intros _. left.
Qed.

(** ** One attempt to send *)

(** Only the kernel took something. *)
Definition wired (s : tcp_socket) (w : bytes) (s' : tcp_socket) : Prop :=
  same_env s s' /\ wire s' = wire s ++ w /\ m_pending s' = m_pending s /\
  m_tmpbuf s' = m_tmpbuf s /\ m_free_buffers s' = m_free_buffers s.

Lemma wired_put s w : wired s w (put_wire w s).
Proof. by repeat split. Qed.

(** The three ends of an attempt to send [p]. *)
Definition attempt_post (n : nat) (ans : list answer) (p : bytes) (s : tcp_socket)
    (r : option bool) (s' : tcp_socket) : Prop :=
  match r with
  | None => s' = s /\ can_send (blen p) s = false
  | Some false => exists w rest, p = w ++ rest /\ wired s w s' /\
      (m_shutdown s = true /\ w = [] \/
       m_shutdown s = false /\ queued s = [] /\ Err ∈ ans)
  | Some true => sock_inv n s' /\ same_env s s' /\ m_shutdown s = false /\
      wire s' ++ queued s' = wire s ++ queued s ++ p /\
      (m_pending s <> [] -> m_pending s' <> [] /\ capacity s' <= capacity s) /\
      m_tmpbuf s = []
  end.

Lemma can_send_open s len :
  can_send len s = true -> m_shutdown s = false ->
  m_tmpbuf s = [] /\ (m_pending s = [] \/ len <= capacity s).
Proof.
  unfold can_send. intros Hc Hd. rewrite Hd in Hc. case_bool_decide as Ht; [|done]. split; [done|]. cbn in Hc.
  case_bool_decide; [by left|]. right. by apply Z.leb_le.
Qed.

Lemma sock_inv_move n s s' :
  sock_inv n s -> m_valid s = true -> m_valid s' = true -> freed s' = freed s -> removals s' = removals s ->
  Forall pend_ok (m_pending s') -> (m_tmpbuf s' <> [] -> m_pending s' = []) ->
  buffers s' ≡ₚ buffers s -> sock_inv n s'.
Proof.
  intros [? ? Ho _] Hv Hv' Hf Hr Hp Ht Hb. split; [done..| |congruence].
  intros _. destruct (Ho Hv) as (?&?&?). split_and!; [by etrans|congruence..].
Qed.

Lemma sock_inv_shift n s s' :
  sock_inv n s -> m_valid s = true -> same_env s s' -> Forall pend_ok (m_pending s') ->
  (m_tmpbuf s' <> [] -> m_pending s' = []) -> buffers s' ≡ₚ buffers s -> sock_inv n s'.
Proof. intros Hi Hv (?&?&?&?&?&?). apply (sock_inv_move n s); congruence. Qed.

(** The open socket while something is left after the kernel took [w]: kept aside when
    no buffers can hold it, queued otherwise. *)
Lemma keep_aside n s w p s1 :
  sock_inv n s -> m_valid s = true -> m_tmpbuf s = [] -> m_pending s = [] -> wired s w s1 ->
  let s2 := set_queue (m_free_buffers s1) (m_pending s1) p s1 in
  sock_inv n s2 /\ same_env s s2 /\ wire s2 ++ queued s2 = wire s ++ queued s ++ w ++ p.
Proof.
  intros Hi Hv Ht Hp (He&Hw&Hp1&Ht1&Hf1) s2.
  assert (same_env s s2) as He2 by (subst s2; by destruct He as (?&?&?&?&?&?); repeat split).
  split_and!; [|done|].
  - apply (sock_inv_shift n s); [done..| | |].
    + subst s2. cbn. by rewrite Hp1, Hp.
    + intros _. subst s2. cbn. congruence.
    + subst s2. unfold buffers. cbn. by rewrite Hp1, Hf1.
  - unfold queued. subst s2. cbn. by rewrite Hp1, Hp, Ht, Hw, app_nil_r, <- app_assoc.
Qed.

Lemma queued_up n s w p s1 s2 :
  sock_inv n s -> m_valid s = true -> m_tmpbuf s = [] -> (m_pending s = [] \/ w = []) ->
  wired s w s1 -> queues s1 p s2 ->
  sock_inv n s2 /\ same_env s s2 /\ wire s2 ++ queued s2 = wire s ++ queued s ++ w ++ p /\
  (m_pending s <> [] -> m_pending s2 <> [] /\ capacity s2 <= capacity s).
Proof.
  intros Hi Hv Ht Hor (He&Hw&Hp1&Ht1&Hf1) [He2 Hw2 Ht2 Hb2 Hp2 Hd2 Hc2 Hn2].
  assert (same_env s s2) as Hss by (by etrans). split_and!; [|done| |].
  - apply (sock_inv_shift n s); [done..| |]; [congruence|]. rewrite Hb2. unfold buffers. by rewrite Hp1, Hf1.
  - unfold queued. rewrite Hw2, Hw, Ht2, Ht1, Ht, Hd2, Hp1. cbn. rewrite <- !app_assoc. f_equal.
    destruct Hor as [-> | ->]; [done|]. by rewrite !app_nil_l.
  - rewrite <- Hp1. intros Hne. split; [by apply Hn2|]. rewrite Hc2. unfold capacity. rewrite Hp1, Hf1.
    pose proof (blen_nonneg p). lia.
Qed.

Lemma sock_inv_open n s : sock_inv n s -> m_shutdown s = false -> m_valid s = true.
Proof. intros [_ _ _ Hc] Hd. destruct (m_valid s); [done|]. destruct Hc as (_&_&?&_); [done|congruence]. Qed.

Lemma wired_capacity s w s1 : wired s w s1 -> capacity s1 = capacity s.
Proof. intros (_&_&Hp&_&Hf). unfold capacity. by rewrite Hp, Hf. Qed.

(** [_send] first uses the room in the last buffer. *)
Lemma room_ok s p :
  Forall pend_ok (m_pending s) -> blen p <= capacity s ->
  wp no_exn
    (match last (m_pending s) with
     | None => ret p
     | Some t =>
         if 0 <? SENDBUF_SIZE - blen (pb_data t) then
           let! t' := buf_append t (take (Z.to_nat (Z.min (SENDBUF_SIZE - blen (pb_data t)) (blen p))) p) in
           set_back t' ;;!
           ret (drop (Z.to_nat (Z.min (SENDBUF_SIZE - blen (pb_data t)) (blen p))) p)
         else ret p
     end)
    (fun p2 s2 => exists p1, queues s p1 s2 /\ p = p1 ++ p2 /\ (p2 = [] \/ back_full s2) /\
       blen p2 <= capacity s2) s.
Proof.
  intros Hp Hc. pose proof (queues_refl s Hp) as Hrefl. destruct (last (m_pending s)) as [t|] eqn:El.
  2:{ apply wp_ret. exists []. split_and!; [done..| |done]. right. unfold back_full. by rewrite El. }
  assert (blen (pb_data t) <= SENDBUF_SIZE) as Ht.
  { pose proof (proj1 (Forall_forall _ _) Hp t) as [_ Hd]; [|done]. apply last_Some in El as [l ->]. set_solver. }
  destruct (Z.ltb_spec 0 (SENDBUF_SIZE - blen (pb_data t))) as [Hr|Hr].
  2:{ apply wp_ret. exists []. split_and!; [done..| |done]. right. unfold back_full. rewrite El. lia. }
  set (n := Z.min _ (blen p)). pose proof (blen_nonneg p).
  assert (blen (take (Z.to_nat n) p) = n) as Hn by (apply blen_take; lia).
  assert (blen (drop (Z.to_nat n) p) = blen p - n) as Hn2 by (apply blen_drop; lia).
  apply wp_bind, wp_buf_append; [lia|]. apply wp_bind, wp_modify, wp_ret.
  exists (take (Z.to_nat n) p). assert (queues s (take (Z.to_nat n) p)
    (set_queue (m_free_buffers s) (removelast (m_pending s) ++ [more t (take (Z.to_nat n) p)]) (m_tmpbuf s) s)) as Hq
    by (apply queues_back; [done..|lia]).
  split; [done|]. split; [by rewrite take_drop|]. rewrite (qu_cap _ _ _ Hq), Hn, Hn2. split; [|lia].
  destruct (decide (n = blen p)); [left; apply nil_length_inv; unfold blen in *; lia|right].
  unfold back_full. cbn. rewrite last_snoc. cbn. rewrite blen_app, Hn. lia.
Qed.

Lemma _send_ok n ans p s :
  sock_inv n s -> wp no_exn (_send ans p) (attempt_post n ans p s) s.
Proof.
  intros Hi. unfold _send. apply wp_bind, wp_gets. destruct (can_send (blen p) s) eqn:Hcan; [|by apply wp_ret].
  apply wp_bind, wp_gets. destruct (m_shutdown s) eqn:Hdown; cbn [negb].
  { apply wp_ret. exists [], p. split; [done|]. split; [|by left]. repeat split; by rewrite ?app_nil_r. }
  destruct (can_send_open _ _ Hcan Hdown) as [Ht Hroom]. pose proof (sock_inv_open _ _ Hi Hdown) as Hv.
  apply wp_bind, wp_gets.
  destruct (if bool_decide (m_pending s = []) then _ else _) as [[[w p1] e] ans1] eqn:Hsend.
  assert (p = w ++ p1 /\ (e = true -> Err ∈ ans) /\ (m_pending s = [] \/ w = [] /\ e = false)) as (Hp&He&Hor).
  { case_bool_decide as Hq; [apply send_loop_split in Hsend as (?&?&?); by auto|].
    injection Hsend as <- <- <- <-. split_and!; [done..|by right]. }
  apply wp_bind, wp_modify. pose proof (wired_put s w) as Hwired. set (s1 := put_wire w s) in *.
  destruct e.
  { apply wp_ret. destruct Hor as [Hq|[_ ?]]; [|done]. exists w, p1. split; [done|]. split; [done|]. right.
    split; [done|]. split; [unfold queued; by rewrite Hq, Ht|by apply He]. }
  assert (m_pending s = [] \/ w = []) as Hor2 by (destruct Hor as [|[]]; auto).
  case_bool_decide as Hq; cbn [andb].
  1: case_bool_decide as Hp1.
  { apply wp_ret. subst p1. assert (queues s1 [] s1) as Hqs by (apply queues_refl, Hi).
    destruct (queued_up n s w [] s1 s1 Hi Hv Ht Hor2 Hwired Hqs) as (?&?&Heq&?).
    rewrite app_nil_r in Heq, Hp. subst p. done. }
  all: apply wp_bind, wp_gets; destruct (Z.ltb_spec (capacity s1) (blen p1)) as [Hlt|Hge].
  { apply wp_bind, wp_modify, wp_ret. destruct (keep_aside n s w p1 s1 Hi Hv Ht Hq Hwired) as (?&?&?).
    rewrite Hp. done. }
  2:{ exfalso. destruct Hroom as [?|Hroom]; [done|]. destruct Hor2 as [?| ->]; [done|].
      rewrite (wired_capacity _ _ _ Hwired) in Hlt. cbn in Hp. subst p. lia. }
  all: eapply (wp_mono _ _ (fun r s2 => r = Some true /\ queues s1 p1 s2)); cycle 1;
    [intros r s2 [-> Hqs]; destruct (queued_up n s w p1 s1 s2 Hi Hv Ht Hor2 Hwired Hqs) as (?&?&?&?);
     by rewrite Hp|].
  - rewrite Hq. cbn [last]. apply wp_bind, wp_ret, wp_bind, wp_gets, wp_bind.
    eapply wp_mono; [apply queue_loop_ok|intros [] s2 Hs2; by apply wp_ret]; try done.
    + apply Hi.
    + right. unfold back_full, s1. cbn. by rewrite Hq.
    + unfold s1, capacity in Hge. cbn in Hge. by rewrite Hq in Hge.
  - change (m_pending s) with (m_pending s1). apply wp_bind. assert (Forall pend_ok (m_pending s1)) as Hpok by apply Hi.
    eapply wp_mono; [by apply room_ok|]. intros p2 s2 (p3&Hq2&->&Hb2&Hc2).
    apply wp_bind, wp_gets, wp_bind.
    eapply wp_mono; [apply queue_loop_ok; [apply Hq2|done| |done]|intros [] s3 Hs3; apply wp_ret].
    + destruct Hb2 as [-> |Hb]; [change (blen []) with 0; pose proof SENDBUF_pos; nia|].
      by rewrite <- back_full_capacity.
    + split; [done|]. by eapply queues_trans.
Qed.

Lemma concat_filter (iov : list bytes) : concat (filter (fun x => x <> []) iov) = concat iov.
Proof.
  induction iov as [|x iov IH]; [done|]. rewrite filter_cons. case_decide as Hx; cbn; [by rewrite IH|].
  by rewrite IH, Hx.
Qed.

Lemma _sendv_ok n ans iov s :
  sock_inv n s -> wp no_exn (_sendv ans iov) (attempt_post n ans (concat iov) s) s.
Proof.
  intros Hi. unfold _sendv. set (p := concat iov). apply wp_bind, wp_gets.
  destruct (can_send (blen p) s) eqn:Hcan; [|by apply wp_ret].
  apply wp_bind, wp_gets. destruct (m_shutdown s) eqn:Hdown; cbn [negb].
  { apply wp_ret. exists [], p. split; [done|]. split; [|by left]. repeat split; by rewrite ?app_nil_r. }
  destruct (can_send_open _ _ Hcan Hdown) as [Ht Hroom]. pose proof (sock_inv_open _ _ Hi Hdown) as Hv.
  apply wp_bind, wp_gets. set (v := filter _ iov). assert (Forall (fun x => x <> []) v) as Hvne.
  { apply Forall_forall. intros x Hx. by apply list_elem_of_filter in Hx as [? _]. }
  assert (concat v = p) as Hvp by apply concat_filter.
  destruct (if bool_decide (m_pending s = []) then _ else _) as [[[w v1] e] ans1] eqn:Hsend.
  assert (p = w ++ concat v1 /\ Forall (fun x => x <> []) v1 /\ (e = true -> Err ∈ ans) /\
    (m_pending s = [] \/ w = [] /\ e = false)) as (Hp&Hv1&He&Hor).
  { case_bool_decide as Hq; [apply writev_loop_split in Hsend as (?&?&?); [rewrite <- Hvp; by auto|done]|].
    injection Hsend as <- <- <- <-. split_and!; [done..|by right]. }
  apply wp_bind, wp_modify. pose proof (wired_put s w) as Hwired. set (s1 := put_wire w s) in *.
  destruct e.
  { apply wp_ret. destruct Hor as [Hq|[_ ?]]; [|done]. exists w, (concat v1). split; [done|]. split; [done|].
    right. split; [done|]. split; [unfold queued; by rewrite Hq, Ht|by apply He]. }
  assert (m_pending s = [] \/ w = []) as Hor2 by (destruct Hor as [|[]]; auto).
  case_bool_decide as Hq; cbn [andb].
  1: case_bool_decide as Hp1.
  { apply wp_ret. subst v1. assert (queues s1 [] s1) as Hqs by (apply queues_refl, Hi).
    destruct (queued_up n s w [] s1 s1 Hi Hv Ht Hor2 Hwired Hqs) as (?&?&Heq&?).
    cbn [concat] in Hp. rewrite app_nil_r in Heq, Hp. rewrite Hp. done. }
  all: apply wp_bind, wp_gets; destruct (Z.ltb_spec (capacity s1) (blen (concat v1))) as [Hlt|Hge].
  { apply wp_bind, wp_modify, wp_ret. destruct (keep_aside n s w (concat v1) s1 Hi Hv Ht Hq Hwired) as (?&?&?).
    rewrite Hp. done. }
  2:{ exfalso. destruct Hroom as [?|Hroom]; [done|]. destruct Hor2 as [?| ->]; [done|].
      rewrite (wired_capacity _ _ _ Hwired) in Hlt. rewrite Hp in Hroom. cbn [app] in Hroom. lia. }
  all: apply wp_bind, wp_gets, wp_bind; eapply wp_mono;
    [apply queuev_loop_ok; [apply Hi|done|done|left; lia]|intros [] s2 Hqs; apply wp_ret].
  all: destruct (queued_up n s w (concat v1) s1 s2 Hi Hv Ht Hor2 Hwired Hqs) as (?&?&?&?); by rewrite Hp.
Qed.

(** ** Writing out *)

Lemma queued_drained n s w t q :
  sock_inv n s -> m_valid s = true -> m_tmpbuf s = [] -> m_pending s = t :: q -> unsent t = w ->
  let s1 := put_wire w s in
  let s2 := set_queue (pb_p t :: m_free_buffers s1) q (m_tmpbuf s1) s1 in
  sock_inv n s2 /\ same_env s s2 /\ wire s2 ++ queued s2 = wire s ++ queued s.
Proof.
  intros Hi Hv Ht Hp <- s1 s2. assert (same_env s s2) as He by (by repeat split). split_and!; [|done|].
  - apply (sock_inv_shift n s); [done..| | |].
    + pose proof (si_pend _ _ Hi) as Hf. rewrite Hp in Hf. by apply Forall_cons in Hf as [_ Hf].
    + cbn. by rewrite Ht.
    + unfold buffers. cbn. rewrite Hp. cbn. by rewrite Permutation_middle.
  - unfold queued. cbn. rewrite Ht, Hp. cbn. by rewrite <- app_assoc.
Qed.

(** What writing out guarantees: data only moves to the kernel; [false] is a failure of the
    kernel or the end of a socket that shuts down. *)
Record drains (n : nat) (ans : list answer) (s : tcp_socket) (r : option bool) (s' : tcp_socket) : Prop := {
  dr_inv : sock_inv n s';
  dr_down : m_shutdown s' = m_shutdown s;
  dr_valid : m_valid s' = m_valid s;
  dr_freed : freed s' = freed s;
  dr_removals : removals s' = removals s;
  dr_note : (notified s <= notified s')%nat;
  dr_data : if decide (r = Some false) then wire s' `prefix_of` wire s ++ queued s
            else wire s' ++ queued s' = wire s ++ queued s
}.

Lemma drains_trans n ans ans' s s1 r s2 :
  drains n ans s None s1 -> drains n ans' s1 r s2 -> drains n ans' s r s2.
Proof.
  intros [] []. split; try done; try congruence; [lia|]. rewrite decide_False in dr_data0 by done.
  case_decide; congruence.
Qed.

Lemma pending_loop_ok n q ans s :
  sock_inv n s -> m_tmpbuf s = [] -> m_pending s = q ->
  wp no_exn (pending_loop q ans) (fun r s' =>
    drains n ans s r s' /\ m_tmpbuf s' = [] /\
    match r with
    | None => m_pending s' = [] /\ notified s' = notified s
    | Some true => notified s' = S (notified s)
    | Some false => Err ∈ ans
    end) s.
Proof.
  revert ans s. induction q as [|t q IH]; intros ans s Hi Ht Hp; cbn [pending_loop].
  { apply wp_ret. split_and!; [by split|done..]. }
  assert (m_valid s = true) as Hv.
  { destruct (m_valid s) eqn:Hv; [done|]. destruct (si_closed _ _ Hi Hv) as (Hb&_). unfold buffers in Hb.
    rewrite Hp in Hb. by destruct (m_free_buffers s). }
  destruct (send_loop ans (drop (pb_sent t) (pb_data t))) as [[[w rest] e] ans1] eqn:Es.
  pose proof (send_loop_split _ _ _ _ _ _ Es) as (Hw&He&Hsuf). fold (unsent t) in Hw.
  pose proof (si_pend _ _ Hi) as Hpok. rewrite Hp in Hpok. apply Forall_cons in Hpok as [[Hs Hl] Hq].
  apply wp_bind, wp_modify. set (s1 := put_wire w s).
  assert (same_env s s1) as Henv by (by repeat split).
  destruct e.
  - apply wp_ret. split_and!; [|done|by apply He]. split; try done.
    + by apply (sock_inv_shift n s); [..|apply Hi| |].
    + cbn. unfold queued. rewrite Ht, Hp. cbn. rewrite Hw. exists (rest ++ concat (unsent <$> q)).
      by rewrite <- !app_assoc.
  - destruct rest as [|c rest].
    + apply wp_bind, wp_modify. rewrite app_nil_r in Hw.
      destruct (queued_drained n s w t q Hi Hv Ht Hp Hw) as (Hi2&He2&Hd2). fold s1 in Hi2, He2, Hd2.
      set (s2 := set_queue (pb_p t :: m_free_buffers s1) q (m_tmpbuf s1) s1) in *.
      eapply wp_mono; [by apply (IH ans1 s2)|]. intros r s3 (Hdr&Ht3&Hr).
      assert (drains n ans1 s None s2) as Hdr2 by (by split).
      destruct (drains_trans _ _ _ _ _ _ _ Hdr2 Hdr) as []. split_and!; [by split|done|].
      destruct r as [[]|]; [done| |done]. destruct Hsuf as [k ->]. set_solver.
    + apply wp_bind, wp_modify, wp_bind, wp_modify, wp_ret. split_and!; [|done|done].
      assert (drop (pb_sent t + length w) (pb_data t) = c :: rest) as Hrest.
      { rewrite <- drop_drop. fold (unsent t). by rewrite Hw, drop_app_length. }
      split; try done.
      * apply (sock_inv_move n s); try done; cbn.
        -- constructor; [|done]. split; cbn; [|done].
           apply (f_equal length) in Hrest. rewrite length_drop in Hrest. cbn in Hrest. lia.
        -- unfold buffers. cbn. by rewrite Hp.
      * cbn. lia.
      * cbn. unfold queued. cbn. rewrite Ht, Hp. cbn. unfold unsent at 1. cbn. rewrite Hrest, Hw.
        by rewrite <- !app_assoc.
Qed.

Lemma write_pending_data_ok n ans s :
  sock_inv n s -> wp no_exn (write_pending_data ans) (fun r s' =>
    drains n ans s (Some r) s' /\
    (r = false -> Err ∈ ans \/
       m_shutdown s = true /\ wire s' = wire s ++ queued s /\ flushed s' = length (wire s')) /\
    (r = true -> notified s' = S (notified s) \/ m_tmpbuf s' <> [] /\ m_tmpbuf s <> [])) s.
Proof.
  intros Hi. unfold write_pending_data. apply wp_bind, wp_gets.
  destruct (send_loop ans (m_tmpbuf s)) as [[[w rest] e] ans1] eqn:Es.
  pose proof (send_loop_split _ _ _ _ _ _ Es) as (Hw&He&Hsuf).
  apply wp_bind, wp_modify, wp_bind, wp_modify.
  set (s1 := set_queue _ _ rest _).
  assert (drains n ans s None s1 /\ notified s1 = notified s) as [Hdr Hnot].
  { split; [|done]. split; try done.
    - destruct Hi as [Hpe Htm Hop Hcl]. split; try done.
      + intros Hr. cbn in *. apply Htm. intros Hn. rewrite Hn in Hw. by destruct w.
      + intros Hv. destruct (Hcl Hv) as (?&Htmp&?). split; [done|]. split; [|done]. cbn.
        rewrite Htmp in Hw. by destruct w, rest.
    - cbn. unfold queued. cbn. rewrite Hw. by rewrite <- !app_assoc. }
  destruct e.
  { apply wp_ret. destruct Hdr. split_and!; [|by auto|done]. split; try done. cbn.
    rewrite decide_True by done. eapply prefix_app_l. by rewrite <- dr_data0. }
  case_bool_decide as Hrest; cbn [negb].
  2:{ apply wp_ret. split_and!; [by destruct Hdr|done|]. intros _. right. split; [done|].
      intros Hn. rewrite Hn in Hw. by destruct w. }
  apply wp_bind, wp_gets, wp_bind.
  eapply wp_mono; [by apply (pending_loop_ok n _ ans1 s1); [apply Hdr|..]|]. intros r s2 (Hd2&Ht2&Hr).
  pose proof (drains_trans _ _ ans1 _ _ _ _ Hdr Hd2) as Hd. rewrite Hnot in Hr.
  destruct r as [b|].
  - apply wp_ret. split_and!; [by destruct Hd|intros -> |intros ->].
    + left. destruct Hsuf as [k ->]. set_solver.
    + by left.
  - destruct Hr as [Hp2 Hn2]. apply wp_bind, wp_modify, wp_bind, wp_gets.
    assert (sock_inv n (_flush s2)) as Hi2 by (destruct Hd as [[] ? ? ? ? ?]; by split).
    assert (queued s2 = []) as Hq2 by (unfold queued; by rewrite Hp2, Ht2).
    destruct Hd as [_ Hdn Hvd Hfr Hrm Hnt Hdt]. rewrite decide_False, Hq2, app_nil_r in Hdt by done.
    change (m_shutdown (_flush s2)) with (m_shutdown s2). rewrite Hdn. destruct (m_shutdown s) eqn:Hdown.
    + apply wp_ret. split_and!; [|by auto|done]. split; try done; [cbn; congruence|]. rewrite decide_True by done. cbn. by rewrite <- Hdt.
    + apply wp_bind, wp_modify, wp_ret. split_and!; [|done|intros _; left; cbn; by rewrite Hn2].
      split; try done; [by destruct Hi2|cbn; congruence|cbn; lia|]. cbn. unfold queued in *. cbn. by rewrite Hq2, app_nil_r.
Qed.
