(* ===== verification/TcpHistory.v ===== *)
(** * Histories of a TCP socket

    Any interleaving of the operations of any number of threads on one socket, with any
    answers of the kernel: what reaches the wire, what becomes of the buffers, who is
    woken, and that the queue drains. *)

From S2P Require Import Prelude.
From S2P Require Import Tcp.
From S2P Require Import TcpSpec.

(** ** Operations *)

(** [first] tells a fresh call from a waiting one that goes on. *)
Inductive tcp_event :=
| TSend (first : bool) (ans : list answer) (p : bytes) (flush : bool)
| TSendClose (first : bool) (ans : list answer) (p : bytes)
| TSendv (first : bool) (ans : list answer) (iov : list bytes) (flush : bool)
| TSendvClose (first : bool) (ans : list answer) (iov : list bytes)
| TWritable (ans : list answer)
| TSendjob (ans : list answer)
| TInvalidate.          (** [on_error] or [on_hangup] of the reactor *)

Definition tcp_step (e : tcp_event) : M tcp_socket outcome :=
  match e with
  | TSend first ans p flush => send first ans p flush
  | TSendClose first ans p => send_close first ans p
  | TSendv first ans iov flush => sendv first ans iov flush
  | TSendvClose first ans iov => sendv_close first ans iov
  | TWritable ans => let! b := on_writable ans in ret (Ran true b)
  | TSendjob ans => sendjob ans
  | TInvalidate => fun s => let (b, s) := invalidate s in (inr (Ran true b), s)
  end.

Fixpoint tcp_run (evs : list tcp_event) : M tcp_socket (list outcome) :=
  match evs with
  | [] => ret []
  | e :: evs => let! o := tcp_step e in let! os := tcp_run evs in ret (o :: os)
  end.

(** The data and the kernel's answers of an operation; [sendv] is called with fewer
    than [MAX_IOVCNT] vectors. *)
Definition ev_data (e : tcp_event) : bytes :=
  match e with
  | TSend _ _ p _ | TSendClose _ _ p => p
  | TSendv _ _ iov _ | TSendvClose _ _ iov => concat iov
  | _ => []
  end.
Definition ev_answers (e : tcp_event) : list answer :=
  match e with
  | TSend _ ans _ _ | TSendClose _ ans _ | TSendv _ ans _ _ | TSendvClose _ ans _
  | TWritable ans | TSendjob ans => ans
  | TInvalidate => [Err]
  end.
Definition ev_ok (e : tcp_event) : Prop :=
  match e with
  | TSendv _ _ iov _ | TSendvClose _ _ iov => Z.of_nat (length iov) < MAX_IOVCNT
  | _ => True
  end.

(** What was accepted, what a failing call may have sent in part, and an operation
    that neither failed nor found the socket closing. *)
Definition accepted (e : tcp_event) (o : outcome) : bytes :=
  match o with Ran true _ => ev_data e | _ => [] end.
Definition torn (e : tcp_event) (o : outcome) : bytes :=
  match o with Ran false _ => ev_data e | _ => [] end.
Definition smooth (e : tcp_event) (o : outcome) : Prop :=
  Err ∉ ev_answers e /\ (forall r, o <> Ran false r).

(** ** One operation *)

(** A waiting sender whose condition becomes true is notified. *)
Definition wakes (s s' : tcp_socket) : Prop :=
  (notified s <= notified s')%nat /\
  forall len, can_send len s = false -> can_send len s' = true -> (notified s < notified s')%nat.

Lemma can_send_down len s : m_shutdown s = true -> can_send len s = true.
Proof. unfold can_send. by intros ->. Qed.

Lemma wakes_down s s' : m_shutdown s = true -> (notified s <= notified s')%nat -> wakes s s'.
Proof. intros Hd Hn. split; [done|]. intros len. by rewrite can_send_down. Qed.

Lemma wakes_more s s' : (notified s < notified s')%nat -> wakes s s'.
Proof. split; [lia|done]. Qed.

Lemma wakes_same s w s' : wired s w s' -> wakes s s'.
Proof.
  intros ((Hd&_&_&Hn&_)&_&Hp&Ht&Hf). split; [lia|]. intros len. unfold can_send, capacity.
  rewrite Hd, Hp, Ht, Hf. by intros ->.
Qed.

(** The stream: all accepted bytes are on the wire or queued, in order; after the end,
    what is on the wire is what was accepted, or a part of it with a part of a message
    that failed. *)
Record stream_ok (n : nat) (acc : bytes) (torns : list bytes) (quiet : Prop) (s : tcp_socket) : Prop := {
  so_inv : sock_inv n s;
  so_open : m_valid s = true -> wire s ++ queued s = acc;
  so_closed : m_valid s = false -> exists t, t ∈ [] :: torns /\ wire s `prefix_of` acc ++ t;
  so_quiet : m_valid s = false -> quiet -> wire s = acc /\ flushed s = length acc
}.

Lemma stream_closed n acc torns (quiet : Prop) s t s' :
  stream_ok n acc torns quiet s -> sock_inv n s' -> m_valid s = false -> m_valid s' = false ->
  wire s' = wire s -> flushed s' = flushed s \/ flushed s' = length (wire s') -> forall quiet' : Prop, (quiet' -> quiet) ->
  stream_ok n acc (torns ++ [t]) quiet' s'.
Proof.
  intros [Hi Ho Hc Hq] Hi' Hv Hv' Hw Hf quiet' Himp. split; [done|congruence|intros _|intros _ H].
  - destruct (Hc Hv) as (u&Hu&Hpre). exists u. rewrite Hw. split; [|done]. set_solver.
  - destruct (Hq Hv (Himp H)) as [Ha Hfl]. rewrite Hw. split; [done|]. destruct Hf as [-> | ->]; congruence.
Qed.

(** Closing an open socket. *)
Lemma on_invalidate_inv n s :
  sock_inv n s -> m_valid s = true ->
  let s' := on_invalidate (set_invalid s) in
  sock_inv n s' /\ m_valid s' = false /\ wire s' = wire s /\ flushed s' = flushed s /\
  notified s' = S (notified s) /\ sock_inv n (request_removal s').
Proof.
  intros [Hp Ht Ho _] Hv s'. destruct (Ho Hv) as (Hb&Hf&Hr).
  assert (freed s' ≡ₚ seq 0 n) as Hfr.
  { cbn. rewrite Hf, <- Hb. cbn. rewrite <- Permutation_rev. unfold buffers. apply Permutation_app_comm. }
  split_and!; try done; (split; cbn; [done..|]); intros _; split_and!; try done; cbn; lia.
Qed.

Lemma stream_close n torns t acc' (quiet' : Prop) s' (rm : bool) :
  sock_inv n s' -> m_valid s' = true ->
  wire s' `prefix_of` acc' ++ t -> (quiet' -> wire s' = acc' /\ flushed s' = length acc') ->
  let s2 := on_invalidate (set_invalid s') in
  stream_ok n acc' (torns ++ [t]) quiet' (if rm then request_removal s2 else s2).
Proof.
  intros Hi Hv Hpre Hq s2. destruct (on_invalidate_inv n s' Hi Hv) as (Hi2&Hv2&Hw2&Hf2&_&Hi3).
  fold s2 in Hi2, Hv2, Hw2, Hf2, Hi3.
  assert (forall s3, wire s3 = wire s2 -> flushed s3 = flushed s2 -> m_valid s3 = m_valid s2 -> sock_inv n s3 ->
    stream_ok n acc' (torns ++ [t]) quiet' s3) as Hgo.
  { intros s3 E1 E2 E3 H3. split; [done|congruence|intros _|intros _ ?].
    - exists t. rewrite E1, Hw2. split; [set_solver|done].
    - rewrite E1, E2, Hw2, Hf2. auto. }
  destruct rm; by apply Hgo.
Qed.

(** What the body of a sending call does before [with_fd] ends. *)
Definition body_post (n : nat) (ans : list answer) (p : bytes) (s : tcp_socket)
    (o : option (bool * bool)) (s' : tcp_socket) : Prop :=
  match o with
  | None => s' = s
  | Some (false, r) => r = false /\ exists w rest, p = w ++ rest /\ wired s w s' /\
      (m_shutdown s = true /\ w = [] \/ m_shutdown s = false /\ queued s = [] /\ Err ∈ ans)
  | Some (true, r) => sock_inv n s' /\ m_valid s = true /\ m_valid s' = true /\
      wire s' ++ queued s' = wire s ++ queued s ++ p /\ (notified s <= notified s')%nat /\
      (if r : bool then wakes s s' else queued s' = [] /\ flushed s' = length (wire s'))
  end.

Lemma attempt_wakes n ans p s s' : attempt_post n ans p s (Some true) s' -> wakes s s'.
Proof.
  intros (_&(Hd&_&_&Hn&_)&Hdown&_&Hcap&Ht). split; [lia|]. intros len. unfold can_send.
  rewrite Hd, Hdown, Ht. cbn. case_bool_decide as Hp; [done|]. destruct (Hcap Hp) as [Hp' Hc].
  case_bool_decide; cbn; [|done]. rewrite bool_decide_false by done.
  intros H1%Z.leb_gt H2%Z.leb_le. lia.
Qed.

Lemma body_of_attempt n ans p s attempt :
  sock_inv n s -> wp no_exn attempt (attempt_post n ans p s) s ->
  (forall flush, wp no_exn (send_body flush attempt) (body_post n ans p s) s) /\
  wp no_exn (close_body attempt) (body_post n ans p s) s.
Proof.
  intros Hi Ha. split; [intros flush|]; apply wp_bind; (eapply wp_mono; [exact Ha|]); intros [[]|] s1 Hr.
  all: try (destruct Hr as [-> _]; by apply wp_ret).
  all: try (apply wp_ret; by split).
  all: pose proof (attempt_wakes _ _ _ _ _ Hr) as [Hmono Hwk];
    destruct Hr as (Hi1&(Hd1&Hv1&_&Hn1&_&_)&Hdown&Hdata&_&_); pose proof (sock_inv_open _ _ Hi Hdown) as Hv.
  - apply wp_bind, wp_gets, wp_bind.
    assert (body_post n ans p s (Some (true, true)) (_flush s1)) as Hfl.
    { destruct Hi1. split; [by split|]. split_and!; try done. cbn; congruence. }
    destruct (flush && empty s1); [apply wp_modify, wp_ret, Hfl|apply wp_ret, wp_ret].
    split_and!; try done. congruence.
  - apply wp_bind, wp_modify, wp_bind, wp_gets. change (empty (set_shutdown s1)) with (empty s1).
    assert (sock_inv n (set_shutdown s1)) as Hi2 by (destruct Hi1 as [? ? ? Hc]; split; try done; by intros Hx; destruct (Hc Hx) as (?&?&?&?)).
    destruct (empty s1) eqn:He.
    + apply wp_bind, wp_modify, wp_ret. apply andb_prop in He as [E1%bool_decide_eq_true E2%bool_decide_eq_true].
      split; [by destruct Hi2|]. cbn. split_and!; try done; [congruence|].
      unfold queued. cbn. by rewrite E1, E2.
    + apply wp_bind, wp_modify, wp_ret. split; [by destruct Hi2|]. cbn. split_and!; try done; [congruence|lia|].
      apply wakes_more. cbn. lia.
Qed.

(** What every operation does. *)
Definition step_post (n : nat) (e : tcp_event) (s : tcp_socket) (o : outcome) (s' : tcp_socket) : Prop :=
  sock_inv n s' /\ wakes s s' /\
  forall acc torns quiet, stream_ok n acc torns quiet s ->
    stream_ok n (acc ++ accepted e o) (torns ++ [torn e o]) (quiet /\ smooth e o) s'.

Lemma wired_inv n s w s' : sock_inv n s -> wired s w s' -> sock_inv n s'.
Proof.
  intros [Hp Ht Ho Hc] ((Hd&Hv&_&_&Hf&Hr)&_&Hp'&Ht'&Hf'). unfold buffers in *.
  split; unfold buffers; rewrite ?Hp', ?Ht', ?Hf', ?Hv, ?Hf, ?Hr, ?Hd; done.
Qed.

Lemma wakes_refl s : wakes s s.
Proof. split; [done|]. by intros len ->. Qed.

Lemma stream_idle n acc torns quiet t (quiet' : Prop) s :
  stream_ok n acc torns quiet s -> stream_ok n (acc ++ []) (torns ++ [t]) (quiet /\ quiet') s.
Proof.
  intros [Hi Ho Hc Hq]. rewrite app_nil_r. split; [done..|intros Hv|intros Hv [? _]; auto].
  destruct (Hc Hv) as (u&Hu&?). exists u. split; [set_solver|done].
Qed.

Lemma step_idle n e s o : sock_inv n s -> accepted e o = [] -> step_post n e s o s.
Proof.
  intros Hi Ha. split; [done|]. split; [apply wakes_refl|]. intros acc torns quiet. rewrite Ha. apply stream_idle.
Qed.

Lemma step_moved n e s o s' :
  sock_inv n s' -> wakes s s' -> m_valid s = true -> m_valid s' = true ->
  wire s' ++ queued s' = wire s ++ queued s ++ accepted e o -> step_post n e s o s'.
Proof.
  intros Hi Hw Hv Hv' Hd. split; [done|]. split; [done|]. intros acc torns quiet [_ Ho _ _].
  split; [done| |congruence..]. intros _. by rewrite Hd, <- (Ho Hv), app_assoc.
Qed.

(** The socket [s1] reached from the open [s] is closed. *)
Lemma step_ends n e s o s1 (rm : bool) :
  sock_inv n s1 -> m_valid s = true -> m_valid s1 = true -> (notified s <= notified s1)%nat ->
  wire s1 `prefix_of` (wire s ++ queued s ++ accepted e o) ++ torn e o ->
  (smooth e o -> wire s1 = wire s ++ queued s ++ accepted e o /\ flushed s1 = length (wire s1)) ->
  let s2 := on_invalidate (set_invalid s1) in
  step_post n e s o (if rm then request_removal s2 else s2).
Proof.
  intros Hi1 Hv Hv1 Hn Hpre Hsm s2. destruct (on_invalidate_inv n s1 Hi1 Hv1) as (Hi2&_&_&_&Hn2&Hi3).
  split; [by destruct rm|]. split; [apply wakes_more; destruct rm; cbn; lia|].
  intros acc torns quiet [_ Ho _ _]. specialize (Ho Hv). subst acc.
  apply stream_close; [done..|by rewrite <- (app_assoc (wire s))|]. intros [_ Hs]. destruct (Hsm Hs) as [Hw Hf].
  rewrite Hf, Hw. by rewrite app_assoc.
Qed.

Lemma with_fd_ok n e first f s :
  sock_inv n s -> wp no_exn f (body_post n (ev_answers e) (ev_data e) s) s ->
  wp no_exn (with_fd first f) (step_post n e s) s.
Proof.
  intros Hi Hf. unfold with_fd. apply wp_bind, wp_gets.
  destruct (first && negb (m_valid s)); [by apply wp_ret, step_idle|].
  apply wp_bind. eapply wp_mono; [exact Hf|]. intros [[[] []]|] s1 Hb; cbn [with_fd_end body_post] in *.
  - apply wp_ret. destruct Hb as (Hi1&Hv&Hv1&Hd&_&Hw). by apply step_moved.
  - destruct Hb as (Hi1&Hv&Hv1&Hd&Hn&Hq&Hfl). apply wp_bind, wp_modify, wp_ret. unfold invalidate_and_close_.
    rewrite Hv1. rewrite Hq, app_nil_r in Hd.
    apply (step_ends n e s (Ran true false) s1 true); cbn; try done.
    by rewrite Hd, app_nil_r.
  - by destruct Hb.
  - destruct Hb as (_&w&rest&Hp&Hw&Hor). apply wp_bind, wp_modify, wp_ret. unfold invalidate_and_close_.
    pose proof (wired_inv _ _ _ _ Hi Hw) as Hi1. pose proof Hw as ((Hd1&Hv1&Hf1&Hn1&_)&Hw1&Hwq).
    rewrite Hv1. destruct (m_valid s) eqn:Hv.
    + apply (step_ends n e s (Ran false false) s1 true); cbn; try done; [lia| |].
      * rewrite app_nil_r, Hw1, Hp. destruct Hor as [[_ ->]|[_ [-> _]]].
        -- rewrite app_nil_r, <- app_assoc. by eexists.
        -- rewrite app_nil_r, app_assoc. by eexists.
      * intros [_ Hs]. by destruct (Hs false).
    + destruct (si_closed _ _ Hi Hv) as (_&_&Hdown&_). destruct Hor as [[_ ->]|[? _]]; [|congruence].
      rewrite app_nil_r in Hw1. split; [done|]. split; [apply wakes_down; [done|lia]|].
      intros acc torns quiet Hs. rewrite app_nil_r. apply (stream_closed n acc torns quiet s); try done; [by left|].
      by intros [].
  - subst s1. by apply wp_ret, step_idle.
Qed.

(** The reactor's part. *)
Lemma socket_invalidate_ok n e s (Q : outcome) :
  sock_inv n s -> accepted e Q = [] -> Err ∈ ev_answers e ->
  step_post n e s Q (snd (invalidate s)).
Proof.
  intros Hi Ha He. unfold invalidate. destruct (m_valid s) eqn:Hv; [|by apply step_idle].
  apply (step_ends n e s Q s false); try done.
  - rewrite Ha, app_nil_r, <- app_assoc. by eexists.
  - by intros [].
Qed.

Lemma drained_ok n e s r s1 :
  sock_inv n s -> ev_data e = [] -> drains n (ev_answers e) s (Some r) s1 -> m_valid s = true ->
  (r = false -> Err ∈ ev_answers e \/
     m_shutdown s = true /\ wire s1 = wire s ++ queued s /\ flushed s1 = length (wire s1)) ->
  (r = true -> notified s1 = S (notified s) \/ m_tmpbuf s1 <> [] /\ m_tmpbuf s <> []) ->
  if r then step_post n e s (Ran true true) s1
  else forall rm : bool, let s2 := on_invalidate (set_invalid s1) in
       step_post n e s (Ran true false) (if rm then request_removal s2 else s2).
Proof.
  intros Hi He [Hi1 Hd Hv1 _ _ Hmono Hdt] Hv Hf Hr. destruct r.
  - rewrite decide_False in Hdt by done. apply step_moved; try done; [|congruence|cbn; by rewrite He, app_nil_r].
    destruct (Hr eq_refl) as [Hn|[Ht1 Ht]]; [apply wakes_more; lia|]. split; [done|]. intros len. unfold can_send.
    rewrite Hd. destruct (m_shutdown s); [done|]. by rewrite (bool_decide_false (m_tmpbuf s1 = [])) by done.
  - rewrite decide_True in Hdt by done. intros rm. apply step_ends; cbn; try done; [congruence|..]; rewrite He, !app_nil_r.
    + done.
    + intros [Hne _]. destruct (Hf eq_refl) as [?|(_&Hw&Hfl)]; [done|]. done.
Qed.

(** Writing out a closed socket does nothing. *)
Lemma closed_drain n ans s :
  sock_inv n s -> m_valid s = false ->
  exists s', write_pending_data ans s = (inr false, s') /\ m_valid s' = false /\
    forall e r, ev_data e = [] -> step_post n e s (Ran true r) s'.
Proof.
  intros Hi Hv. destruct (si_closed _ _ Hi Hv) as (Hb&Ht&Hdown&Hf&Hr).
  assert (m_pending s = []) as Hp by (unfold buffers in Hb; by destruct (m_free_buffers s), (m_pending s)).
  unfold write_pending_data, bind, gets. rewrite Ht. destruct ans as [|a ans]; cbn; rewrite Hp; cbn; rewrite Hdown.
  all: eexists; split; [reflexivity|]; split; [done|].
  all: intros e r He; match goal with |- step_post _ _ _ _ ?x => set (s' := x) end.
  all: assert (sock_inv n s') as Hi' by (split; cbn; [by rewrite ?Hp|done|congruence|intros _; unfold buffers in *; cbn; by rewrite ?Hp in *]).
  all: split; [done|]; split; [by apply wakes_down|].
  all: intros acc torns quiet Hs; cbn [accepted]; rewrite He, app_nil_r.
  all: apply (stream_closed n acc torns quiet s); try done; cbn; [by rewrite app_nil_r|by right|by intros []].
Qed.

(** Every operation. *)
Lemma tcp_step_ok n e s : sock_inv n s -> ev_ok e -> wp no_exn (tcp_step e) (step_post n e s) s.
Proof.
  intros Hi Hok. destruct e as [first ans p flush|first ans p|first ans iov flush|first ans iov|ans|ans|];
    cbn [tcp_step].
  - apply with_fd_ok; [done|]. by apply (body_of_attempt n ans p s), _send_ok.
  - apply with_fd_ok; [done|]. by apply (body_of_attempt n ans p s), _send_ok.
  - apply with_fd_ok; [done|]. cbn in Hok. destruct (Z.leb_spec MAX_IOVCNT (Z.of_nat (length iov))); [lia|].
    by apply (body_of_attempt n ans (concat iov) s), _sendv_ok.
  - apply with_fd_ok; [done|]. cbn in Hok. destruct (Z.leb_spec MAX_IOVCNT (Z.of_nat (length iov))); [lia|].
    by apply (body_of_attempt n ans (concat iov) s), _sendv_ok.
  - apply wp_bind. unfold on_writable. apply wp_bind. destruct (m_valid s) eqn:Hv.
    + eapply wp_mono; [by apply (write_pending_data_ok n)|]. intros r s1 (Hdr&Hf&Ht).
      pose proof (drained_ok n (TWritable ans) s r s1 Hi eq_refl Hdr Hv Hf Ht) as Hpost.
      destruct r; [by apply wp_ret, wp_ret|]. unfold wp, invalidate.
      rewrite (dr_valid _ _ _ _ _ Hdr), Hv. apply (Hpost false).
    + destruct (closed_drain n ans s Hi Hv) as (s1&Hrun&Hv1&Hpost). unfold wp. rewrite Hrun.
      unfold invalidate. rewrite Hv1. by apply (Hpost (TWritable ans)).
  - unfold sendjob, with_fd. apply wp_bind, wp_gets. destruct (m_valid s) eqn:Hv; [|by apply wp_ret, step_idle].
    cbn [andb negb]. apply wp_bind, wp_bind.
    eapply wp_mono; [by apply (write_pending_data_ok n)|]. intros r s1 (Hdr&Hf&Ht).
    pose proof (drained_ok n (TSendjob ans) s r s1 Hi eq_refl Hdr Hv Hf Ht) as Hpost. apply wp_ret.
    destruct r; [by apply wp_ret|]. apply wp_bind, wp_modify, wp_ret. unfold invalidate_and_close_.
    rewrite (dr_valid _ _ _ _ _ Hdr), Hv. apply (Hpost true).
  - unfold wp. pose proof (fun b => socket_invalidate_ok n TInvalidate s (Ran true b) Hi eq_refl ltac:(left)) as Hpost.
    destruct (invalidate s). apply Hpost.
Qed.

(** Any history. *)
Lemma tcp_run_ok n evs s acc torns quiet :
  stream_ok n acc torns quiet s -> Forall ev_ok evs ->
  wp no_exn (tcp_run evs) (fun os s' =>
    stream_ok n (acc ++ concat (zip_with accepted evs os)) (torns ++ zip_with torn evs os)
      (quiet /\ Forall2 smooth evs os) s') s.
Proof.
  revert s acc torns quiet. induction evs as [|e evs IH]; intros s acc torns quiet Hs Hok; cbn [tcp_run].
  { apply wp_ret. cbn. rewrite !app_nil_r. destruct Hs. split; try done. intros ? []. auto. }
  apply Forall_cons in Hok as [He Hok]. apply wp_bind.
  eapply wp_mono; [by apply (tcp_step_ok n); [apply Hs|]|]. intros o s1 (Hi1&_&Hst). apply wp_bind.
  eapply wp_mono; [by apply IH; [apply Hst|]|]. intros os s2 Hs2. apply wp_ret. cbn [zip_with concat].
  cbv beta in Hs2. rewrite <- !app_assoc in Hs2. cbn [app] in Hs2. destruct Hs2 as [? ? ? Hq]. split; try done.
  intros Hv [? Hf]. apply Hq; [done|]. by apply Forall2_cons in Hf as [].
Qed.

Lemma tcp_new_ok n : Z.of_nat n <= MAX_BUFCNT ->
  exists s, tcp_socket_new n = inr s /\ stream_ok n [] [] True s.
Proof.
  intros Hn. unfold tcp_socket_new. destruct (Z.ltb_spec MAX_BUFCNT (Z.of_nat n)); [lia|].
  eexists. split; [done|]. split; [|done..]. split; [done..| |done]. intros _. split; [|done].
  unfold buffers. cbn. by rewrite app_nil_r, <- Permutation_rev.
Qed.

(** The states of a socket's life. *)
Definition tcp_reaches (n : nat) (s : tcp_socket) : Prop :=
  exists s0 evs os, tcp_socket_new n = inr s0 /\ Forall ev_ok evs /\ tcp_run evs s0 = (inr os, s).

Lemma tcp_reaches_inv n s : Z.of_nat n <= MAX_BUFCNT -> tcp_reaches n s -> sock_inv n s.
Proof.
  intros Hn (s0&evs&os&Hnew&Hok&Hrun). destruct (tcp_new_ok n Hn) as (s1&Hnew1&Hs).
  assert (s1 = s0) as -> by congruence. pose proof (tcp_run_ok n evs s0 [] [] True Hs Hok) as H.
  unfold wp in H. rewrite Hrun in H. by apply H.
Qed.

(** *** A kernel that takes data *)

Definition takes (a : answer) : Prop := match a with Sent n => (0 < n)%nat | _ => False end.

Lemma send_loop_drains ans p :
  Forall takes ans -> (length p <= length ans)%nat ->
  exists ans', send_loop ans p = (p, [], false, ans') /\ Forall takes ans' /\
    (length ans <= length ans' + length p)%nat.
Proof.
  revert p. induction ans as [|a ans IH]; intros p Ht Hl; destruct p as [|c p]; try (by eexists); [cbn in Hl; lia| |].
  { exists (a :: ans). split; [done|]. split; [done|]. lia. }
  apply Forall_cons in Ht as [Ha Ht]. destruct a as [[|n]| | |]; try done; [cbn in Ha; lia|].
  destruct (IH (drop (S n) (c :: p)) Ht) as (ans'&Hr&Ht'&Hl').
  { rewrite length_drop. cbn in Hl |- *. lia. }
  exists ans'. split; [|split; [done|]].
  - change (send_loop (Sent (S n) :: ans) (c :: p)) with
      (let '(w, rest, e, ans) := send_loop ans (drop (S n) (c :: p)) in (take (S n) (c :: p) ++ w, rest, e, ans)).
    rewrite Hr. by rewrite take_drop.
  - rewrite length_drop in Hl'. cbn in *. lia.
Qed.

Lemma pending_loop_drains q ans s :
  Forall takes ans -> (length (concat (unsent <$> q)) <= length ans)%nat -> m_pending s = q ->
  exists s', pending_loop q ans s = (inr None, s') /\ m_pending s' = [] /\ m_tmpbuf s' = m_tmpbuf s /\
    wire s' = wire s ++ concat (unsent <$> q) /\ m_shutdown s' = m_shutdown s /\ notified s' = notified s.
Proof.
  revert ans s. induction q as [|t q IH]; intros ans s Ht Hl Hp.
  { exists s. by rewrite app_nil_r. }
  cbn [fmap list_fmap concat] in Hl. rewrite length_app in Hl.
  destruct (send_loop_drains ans (unsent t) Ht ltac:(lia)) as (ans1&Hs&Ht1&Hl1).
  cbn [pending_loop]. unfold unsent in Hs. rewrite Hs. fold (unsent t).
  set (s1 := put_wire (unsent t) s). set (s2 := set_queue (pb_p t :: m_free_buffers s1) q (m_tmpbuf s1) s1).
  destruct (IH ans1 s2 Ht1 ltac:(lia) eq_refl) as (s3&Hrun&H1&H2&H3&H4&H5).
  exists s3. split; [exact Hrun|]. split_and!; try done. rewrite H3. cbn. by rewrite <- app_assoc.
Qed.

Lemma drain_all ans s :
  Forall takes ans -> (length (queued s) <= length ans)%nat ->
  exists s', write_pending_data ans s = (inr (negb (m_shutdown s)), s') /\
    wire s' = wire s ++ queued s /\ queued s' = [] /\ flushed s' = length (wire s') /\
    (forall len, can_send len s' = true) /\ (m_shutdown s = false -> notified s' = S (notified s)).
Proof.
  intros Ht Hl. unfold queued in Hl. rewrite length_app in Hl.
  destruct (send_loop_drains ans (m_tmpbuf s) Ht ltac:(lia)) as (ans1&Hs&Ht1&Hl1).
  unfold write_pending_data, bind, gets. rewrite Hs. cbn [modify put_wire set_tmpbuf].
  set (s1 := set_queue _ _ [] _). change (m_pending s) with (m_pending s1) in Hl.
  destruct (pending_loop_drains (m_pending s1) ans1 s1 Ht1 ltac:(lia) eq_refl) as (s2&Hrun&H1&H2&H3&H4&H5).
  cbn [bool_decide negb decide]. rewrite bool_decide_true by done. cbn [negb]. rewrite Hrun.
  assert (wire s2 = wire s ++ queued s) as Hw by (rewrite H3; unfold queued; cbn; by rewrite <- app_assoc).
  assert (queued s2 = []) as Hq by (unfold queued; by rewrite H1, H2).
  cbn. rewrite H4. change (m_shutdown s1) with (m_shutdown s).
  destruct (m_shutdown s) eqn:Hd; cbn; eexists; (split; [reflexivity|]); split_and!; try done.
  - intros len. unfold can_send. cbn. rewrite H4. change (m_shutdown s1) with (m_shutdown s). by rewrite Hd.
  - intros len. unfold can_send. cbn. rewrite H4. change (m_shutdown s1) with (m_shutdown s). by rewrite Hd, H1, H2.
  - intros _. cbn. by rewrite H5.
Qed.

(** ** Claims *)

(** C8: A socket is a reliable byte stream towards the kernel.  For every number of send
    buffers the constructor allows, every interleaving of [send], [sendv], [send_close],
    [sendv_close], calls that waited and go on, writable events, send jobs of workers and
    invalidations by the reactor, and all answers of the kernel (partial writes,
    interruptions, full buffers, errors): no operation throws, reads the back of an empty
    vector or writes beyond a send buffer; while the socket is valid, what the kernel took
    followed by what is queued is exactly the accepted messages in order; once it is
    invalid, the kernel took a prefix of the accepted messages, or all of them and a
    prefix of one message whose call failed; when nothing failed and no call came after a
    closing one, the kernel took all of it and it was flushed.  Every send buffer is
    kept exactly once until the end, when each is given back exactly once. *)
Theorem tcp_stream n evs :
  Z.of_nat n <= MAX_BUFCNT -> Forall ev_ok evs ->
  exists s0 os s, tcp_socket_new n = inr s0 /\ tcp_run evs s0 = (inr os, s) /\
    let acc := concat (zip_with accepted evs os) in
    (m_valid s = true -> wire s ++ queued s = acc) /\
    (m_valid s = false -> exists t, t ∈ [] :: zip_with torn evs os /\ wire s `prefix_of` acc ++ t) /\
    (m_valid s = false -> Forall2 smooth evs os -> wire s = acc /\ flushed s = length acc) /\
    buffers s ++ freed s ≡ₚ seq 0 n /\ (freed s <> [] -> m_valid s = false) /\ (removals s <= 1)%nat.
Proof.
  intros Hn Hok. destruct (tcp_new_ok n Hn) as (s0&Hnew&Hs).
  pose proof (tcp_run_ok n evs s0 [] [] True Hs Hok) as H. unfold wp in H.
  destruct (tcp_run evs s0) as [[x|os] s] eqn:Hrun; [done|]. exists s0, os, s. split; [done|]. split; [done|].
  cbn [app] in H. destruct H as [Hi Ho Hc Hq]. split_and!; try done; [by auto| | |].
  - destruct (m_valid s) eqn:Hv; [destruct (si_open _ _ Hi Hv) as (Hb&->&_)|destruct (si_closed _ _ Hi Hv) as (->&_&_&Hf&_)].
    + by rewrite app_nil_r.
    + done.
  - intros Hne. destruct (m_valid s) eqn:Hv; [|done]. by destruct (si_open _ _ Hi Hv) as (_&?&_).
  - destruct (m_valid s) eqn:Hv; [destruct (si_open _ _ Hi Hv) as (_&_&->); lia|].
    by destruct (si_closed _ _ Hi Hv) as (_&_&_&_&?).
Qed.

(** A reply sent in parts, one queued behind it, the rest written when the kernel has
    room, and the socket closed after the last message. *)
Lemma tcp_stream_witness :
  let evs := [TSend true [Sent 2; Intr; Sent 1; Again] (lit "hello") true;
              TSendv true [] [lit "wor"; []; lit "ld"] false;
              TSendClose true [] (lit "!");
              TWritable [Sent 4; Again]; TWritable [Sent 10; Sent 10]] in
  Z.of_nat 2 <= MAX_BUFCNT /\ Forall ev_ok evs /\
  exists s0 os s, tcp_socket_new 2 = inr s0 /\ tcp_run evs s0 = (inr os, s) /\
    m_valid s = false /\ wire s = lit "helloworld!".
Proof.
  intros evs. assert (Z.of_nat 2 <= MAX_BUFCNT) as Hn by done.
  assert (Forall ev_ok evs) as Hok by (repeat constructor; done).
  destruct (tcp_stream 2 evs Hn Hok) as (s0&os&s&Hnew&Hrun&_). split; [done|]. split; [done|].
  exists s0, os, s. split; [done|]. split; [done|].
  injection Hnew as <-. apply (f_equal snd) in Hrun. cbn [snd] in Hrun. rewrite <- Hrun.
  split; vm_compute; reflexivity.
Defined.

(** C21: No wake-up of a waiting sender is lost.  In every state a socket can reach, an
    operation of any thread after which a call that had no room could go on calls
    [notify_all] on the condition variable the call waits on. *)
Theorem tcp_no_lost_wakeup n s e len o s' :
  Z.of_nat n <= MAX_BUFCNT -> tcp_reaches n s -> ev_ok e -> tcp_step e s = (inr o, s') ->
  can_send len s = false -> can_send len s' = true -> (notified s < notified s')%nat.
Proof.
  intros Hn Hr He Hstep. pose proof (tcp_step_ok n e s (tcp_reaches_inv n s Hn Hr) He) as H.
  unfold wp in H. rewrite Hstep in H. destruct H as (_&[_ Hw]&_). apply Hw.
Qed.

(** A sender waits behind a message kept aside; the reactor's write wakes it. *)
Lemma tcp_no_lost_wakeup_witness :
  exists s s', tcp_reaches 0 s /\ tcp_step (TWritable [Sent 3]) s = (inr (Ran true true), s') /\
    can_send 4 s = false /\ can_send 4 s' = true /\ (notified s < notified s')%nat.
Proof.
  destruct (tcp_socket_new 0) as [x|s0] eqn:Hnew; [discriminate|].
  destruct (tcp_run [TSend true [Sent 2; Again] (lit "hello") false] s0) as [[x|os] s] eqn:Hrun.
  { injection Hnew as <-. discriminate. }
  assert (tcp_reaches 0 s) as Hr by (exists s0, [TSend true [Sent 2; Again] (lit "hello") false], os; by repeat constructor).
  injection Hnew as <-. vm_compute in Hrun. injection Hrun as <- <-.
  eexists _, _. split; [exact Hr|]. split; [vm_compute; reflexivity|]. split; [done|]. split; [done|].
  refine (tcp_no_lost_wakeup 0 _ (TWritable [Sent 3]) 4 _ _ _ Hr _ _ _ _); done.
Defined.

(** C22: What is queued goes out.  In every state a socket can reach, one writable event
    during which the kernel takes at least one byte per call hands over everything queued
    and flushes it; an open socket stays open, wakes its waiting senders and has room for
    each of them, a socket being closed is closed now. *)
Theorem tcp_drains n s ans :
  Z.of_nat n <= MAX_BUFCNT -> tcp_reaches n s -> m_valid s = true ->
  Forall takes ans -> (length (queued s) <= length ans)%nat ->
  exists s', on_writable ans s = (inr (negb (m_shutdown s)), s') /\
    wire s' = wire s ++ queued s /\ queued s' = [] /\ flushed s' = length (wire s') /\
    m_valid s' = negb (m_shutdown s) /\ (notified s < notified s')%nat /\ forall len, can_send len s' = true.
Proof.
  intros Hn Hr Hv Ht Hl. destruct (drain_all ans s Ht Hl) as (s1&Hrun&Hw&Hq&Hf&Hc&Hnt).
  pose proof (tcp_reaches_inv n s Hn Hr) as Hi.
  pose proof (write_pending_data_ok n ans s Hi) as Hpost. unfold wp in Hpost. rewrite Hrun in Hpost.
  destruct Hpost as (Hdr&_&_). pose proof (dr_valid _ _ _ _ _ Hdr) as Hv1. pose proof (dr_note _ _ _ _ _ Hdr).
  unfold on_writable, bind. rewrite Hrun. destruct (m_shutdown s) eqn:Hd; cbn [negb].
  - unfold invalidate. rewrite Hv1, Hv. eexists. split; [reflexivity|]. split_and!; try done. cbn. lia.
  - exists s1. split; [done|]. split_and!; try done; [congruence|]. rewrite Hnt by done. lia.
Qed.

(** Two replies queued in a buffer, written out five bytes at a time. *)
Lemma tcp_drains_witness :
  exists s s', tcp_reaches 1 s /\ queued s = lit "hello, world" /\
    on_writable (replicate 12 (Sent 5)) s = (inr true, s') /\ wire s' = lit "hello, world".
Proof.
  set (evs := [TSend true [] (lit "hello, ") false; TSend true [] (lit "world") true]).
  destruct (tcp_socket_new 1) as [x|s0] eqn:Hnew; [discriminate|].
  destruct (tcp_run evs s0) as [[x|os] s] eqn:Hrun.
  { injection Hnew as <-. discriminate. }
  assert (tcp_reaches 1 s) as Hr by (exists s0, evs, os; by repeat constructor).
  injection Hnew as <-. vm_compute in Hrun. injection Hrun as <- <-.
  destruct (tcp_drains 1 _ (replicate 12 (Sent 5)) ltac:(done) Hr eq_refl) as (s'&Hs'&Hw&_).
  { repeat constructor. }
  { apply Nat.leb_le. vm_compute. reflexivity. }
  eexists _, s'. split; [exact Hr|]. split; [vm_compute; reflexivity|]. split; [exact Hs'|exact Hw].
Defined.

(** *** A call after a closing one *)

(** [send_close] promises to close the socket after its data are sent.  A later [send]
    on the socket, by the same thread for the next request of a pipeline, finds
    [m_shutdown] set, returns [false] and [with_fd] closes the socket: what [send_close]
    had queued is dropped although the kernel never failed. *)
Theorem send_after_close_drops :
  let evs := [TSendClose true [Sent 10; Again] (replicate 24 x81); TSend true [] (lit "x") true] in
  exists s0 os s, tcp_socket_new 0 = inr s0 /\ tcp_run evs s0 = (inr os, s) /\
    Forall (fun e => Err ∉ ev_answers e) evs /\ os = [Ran true true; Ran false false] /\
    m_valid s = false /\ wire s = replicate 10 x81 /\ queued s = [].
Proof.
  intros evs. destruct (tcp_socket_new 0) as [x|s0] eqn:Hnew; [discriminate|].
  destruct (tcp_run evs s0) as [[x|os] s] eqn:Hrun; injection Hnew as <-; [discriminate|].
  vm_compute in Hrun. injection Hrun as <- <-. eexists _, _, _. split; [reflexivity|]. split; [vm_compute; reflexivity|].
  split_and!; try done. repeat constructor; cbn; set_solver.
Qed.
