(* ===== verification/Config.v ===== *)
(** * Configuration files (cybozu/config_parser, cybozu/ip_address, src/config)

    The file format, its conversion to numbers, sizes, booleans and addresses, and the
    configuration of the server.  [getaddrinfo] and the tests on directories are
    parameters: they belong to the C library and the file system. *)

From stdpp Require Import gmap.
From S2P Require Import Prelude.
From S2P Require Import CLib.

(** ** Exceptions *)

Inductive config_error :=
| open_failed
| parse_error (lineno : nat)
| not_found (key : bytes)
| illegal_value (key : bytes)
| bad_config
| bad_address
| gai_error                (** [std::runtime_error] of [gai_strerror] *)
| stoi_invalid             (** [std::invalid_argument] of [std::stoi] *)
| stoi_range.              (** [std::out_of_range] of [std::stoi] *)

Definition R (A : Type) : Type := config_error + A.
Definition rbind {A B} (m : R A) (k : A -> R B) : R B :=
  match m with inl x => inl x | inr a => k a end.
Declare Scope config_scope.
Delimit Scope config_scope with config.
Notation "'let?' x ':=' m 'in' k" := (rbind m (fun x => k))
  (at level 200, x name, m at level 100, k at level 200) : config_scope.
Open Scope config_scope.

(** ** Addresses (class ip_address) *)

(** [af] with the part of the address that is compared. *)
Inductive ip_address :=
| ip_none
| ip_v4 (addr : bytes)
| ip_v6 (addr : bytes) (scope : Z).

(** What [getaddrinfo] with [AI_NUMERICHOST] returns. *)
Inductive gai (A : Type) := gai_ok (a : A) | gai_noname | gai_addrfamily | gai_other.
Arguments gai_ok {A}. Arguments gai_noname {A}. Arguments gai_addrfamily {A}. Arguments gai_other {A}.

(** The environment of [config::load]. *)
Record system := {
  getaddrinfo4 : bytes -> gai bytes;
  getaddrinfo6 : bytes -> gai (bytes * Z);
  is_dir : bytes -> bool;
  is_writable : bytes -> bool
}.

(** [ip_address::parse]. *)
Definition ip_parse (sys : system) (s : bytes) : R ip_address :=
  let v6 :=
    match getaddrinfo6 sys s with
    | gai_ok (a, sc) => inr (ip_v6 a sc)
    | gai_other => inl gai_error
    | gai_noname | gai_addrfamily => inl bad_address
    end in
  match getaddrinfo4 sys s with
  | gai_ok a => inr (ip_v4 a)
  | gai_other => inl gai_error
  | gai_noname | gai_addrfamily => v6
  end.

(** [ip_address::operator==] and the search of [has_ip_address] over the addresses of
    the interfaces. *)
Definition ip_eqb (a b : ip_address) : bool :=
  match a, b with
  | ip_none, ip_none => true
  | ip_v4 x, ip_v4 y => bool_decide (x = y)
  | ip_v6 x sx, ip_v6 y sy => if negb (sx =? sy) then false else bool_decide (x = y)
  | _, _ => false
  end.
Definition has_ip_address (ifaddrs : list ip_address) (addr : ip_address) : bool :=
  existsb (ip_eqb addr) ifaddrs.

(** ** The file format (class config_parser) *)

Definition white_spaces : bytes := [x20; x0c; x0a; x0d; x09; x0b].
Definition is_white (b : byte) : bool := bool_decide (b ∈ white_spaces).

(** [ltrim] and [rtrim]. *)
Fixpoint ltrim (s : bytes) : bytes :=
  match s with
  | [] => []
  | b :: s' => if is_white b then ltrim s' else s
  end.
Definition rtrim (s : bytes) : bytes := rev (ltrim (rev s)).

(** [std::getline] until the end of the file; [cur] is the line being read, reversed. *)
Fixpoint getlines (s : bytes) (cur : bytes) : list bytes :=
  match s with
  | [] => match cur with [] => [] | _ => [rev cur] end
  | b :: s' => if Byte.eqb b x0a then rev cur :: getlines s' [] else getlines s' (b :: cur)
  end.

(** Unquoting. *)
Definition unquote (value : bytes) : bytes :=
  let len := length value in
  if (2 <=? len)%nat && bool_decide (head value = Some x22) && bool_decide (last value = Some x22)
  then take (len - 2) (drop 1 value) else value.

Notation config_map := (gmap bytes bytes).

(** [set], [exists], [get]. *)
Definition cp_set (key value : bytes) (m : config_map) : config_map := <[key := value]> m.
Definition cp_exists (key : bytes) (m : config_map) : bool := bool_decide (is_Some (m !! key)).
Definition cp_get (key : bytes) (m : config_map) : R bytes :=
  match m !! key with Some v => inr v | None => inl (not_found key) end.

(** One line: [None] when it is skipped. *)
Definition parse_line (lineno : nat) (l : bytes) : R (option (bytes * bytes)) :=
  let l := rtrim (ltrim l) in
  if bool_decide (l = []) || bool_decide (head l = Some x23) then inr None else
  match find_byte x3d l with
  | None => inl (parse_error lineno)
  | Some n =>
      let key := rtrim (take n l) in
      let value := ltrim (drop (n + 1) l) in
      inr (Some (key, unquote value))
  end.

Fixpoint load_lines (ls : list bytes) (lineno : nat) (m : config_map) : R config_map :=
  match ls with
  | [] => inr m
  | l :: ls =>
      let? kv := parse_line (S lineno) l in
      load_lines ls (S lineno) (match kv with Some (k, v) => cp_set k v m | None => m end)
  end.

(** [config_parser::load]: [None] is a file that cannot be opened. *)
Definition cp_load (file : option bytes) : R config_map :=
  match file with
  | None => inl open_failed
  | Some s => load_lines (getlines s []) 0 ∅
  end.

(** ** Conversions *)

Definition INT_MAX : Z := 2 ^ 31 - 1.
Definition INT_MIN : Z := - 2 ^ 31.

(** [std::stoi]: the terminating NUL of the string ends both scans. *)
Definition stoi (s : bytes) : R Z :=
  match skip_space (s ++ [x00]) with
  | None => inl stoi_invalid
  | Some (_, s1) =>
      let neg := bool_decide (head s1 = Some x2d) in
      let s2 := if neg || bool_decide (head s1 = Some x2b) then tail s1 else s1 in
      match scan_digits s2 0 with
      | None | Some (_, O) => inl stoi_invalid
      | Some (v, _) =>
          let n := if neg then - v else v in
          if (n <? INT_MIN) || (INT_MAX <? n) then inl stoi_range else inr n
      end
  end.

(** [get_as_int], [get_as_uint64], [get_as_bool]. *)
Definition get_as_int (key : bytes) (m : config_map) : R Z :=
  let? s := cp_get key m in
  match stoi s with
  | inl stoi_invalid | inl stoi_range => inl (illegal_value key)
  | r => r
  end.
Definition get_as_uint64 (key : bytes) (m : config_map) : R Z :=
  let? s := cp_get key m in
  match stoull s with Some n => inr n | None => inl (illegal_value key) end.
Definition get_as_bool (key : bytes) (m : config_map) : R bool :=
  let? s := cp_get key m in
  if bool_decide (s = lit "true") then inr true else
  if bool_decide (s = lit "false") then inr false else
  inl (illegal_value key).

(** [parse_unit], of a string that is not empty. *)
Definition unit_base (b : byte) : Z :=
  if bool_decide (b = x6b) || bool_decide (b = x4b) then 2 ^ 10 else
  if bool_decide (b = x6d) || bool_decide (b = x4d) then 2 ^ 20 else
  if bool_decide (b = x67) || bool_decide (b = x47) then 2 ^ 30 else 1.
Definition parse_unit (s : bytes) : R Z :=
  let base := unit_base (List.last s x00) in
  let s := if base =? 1 then s else removelast s in
  let? n := stoi s in
  if n <? 1 then inl bad_config else inr (u64 (base * u64 n)).

(** ** The configuration of the server *)

Inductive severity := sev_error | sev_warning | sev_info | sev_debug.

Definition THRESHOLDS (s : bytes) : option severity :=
  if bool_decide (s = lit "error") then Some sev_error else
  if bool_decide (s = lit "warning") then Some sev_warning else
  if bool_decide (s = lit "info") then Some sev_info else
  if bool_decide (s = lit "debug") then Some sev_debug else None.

Record counter_config := {
  cc_enable : bool; cc_port : Z; cc_max_connections : Z; cc_buckets : Z; cc_stat_interval : Z
}.

Record config := {
  cf_vip : ip_address; cf_port : Z; cf_repl_port : Z; cf_bind_ip : list ip_address;
  cf_max_connections : Z; cf_tempdir : bytes; cf_user : bytes; cf_group : bytes;
  cf_threshold : severity; cf_logfile : bytes; cf_buckets : Z; cf_max_data_size : Z;
  cf_heap_data_limit : Z; cf_memory_limit : Z; cf_repl_bufsize : Z;
  cf_initial_repl_sleep_delay_usec : Z; cf_secure_erase : bool; cf_lock_memory : bool;
  cf_workers : Z; cf_gc_interval : Z; cf_slave_timeout : Z; cf_counter : counter_config
}.

(** The defaults (constants.hpp). *)
Definition DEFAULT_BUCKETS : Z := 1000000.
Definition counter_default : counter_config :=
  {| cc_enable := false; cc_port := 11215; cc_max_connections := 0; cc_buckets := DEFAULT_BUCKETS;
     cc_stat_interval := 86400 |}.
Definition config_default (localhost : ip_address) : config :=
  {| cf_vip := localhost; cf_port := 11211; cf_repl_port := 11213; cf_bind_ip := [];
     cf_max_connections := 0; cf_tempdir := lit "/var/tmp"; cf_user := []; cf_group := [];
     cf_threshold := sev_info; cf_logfile := []; cf_buckets := DEFAULT_BUCKETS;
     cf_max_data_size := 2 ^ 20; cf_heap_data_limit := 256 * 2 ^ 10; cf_memory_limit := 2 ^ 30;
     cf_repl_bufsize := 30; cf_initial_repl_sleep_delay_usec := 0; cf_secure_erase := false;
     cf_lock_memory := false; cf_workers := 8; cf_gc_interval := 10; cf_slave_timeout := 10;
     cf_counter := counter_default |}.
Definition MAX_WORKERS : Z := 64.

(** ** Loading *)

(** An option of the file, when it is there: [f] converts and checks it. *)
Definition option_of {A : Type} (key : bytes) (m : config_map) (old : A) (f : R A) : R A :=
  if cp_exists key m then f else inr old.

(** Ports, and integers with a lower bound. *)
Definition load_port (key : bytes) (m : config_map) (old : Z) : R Z :=
  option_of key m old (
    let? n := get_as_int key m in
    if (n <? 1) || (65535 <? n) then inl bad_config else inr (u16 n)).
Definition load_int (key : bytes) (lo : Z) (m : config_map) (old : Z) : R Z :=
  option_of key m old (
    let? n := get_as_int key m in
    if n <? lo then inl bad_config else inr (u32 n)).
Definition load_bool (key : bytes) (m : config_map) (old : bool) : R bool :=
  option_of key m old (get_as_bool key m).
Definition load_string (key : bytes) (m : config_map) (old : bytes) : R bytes :=
  option_of key m old (cp_get key m).
(** Sizes with a unit. *)
Definition load_size (key : bytes) (m : config_map) (old : Z) : R Z :=
  option_of key m old (
    let? t := cp_get key m in
    if bool_decide (t = []) then inl bad_config else parse_unit t).

(** [counter_config::load]. *)
Definition counter_load (m : config_map) (c : counter_config) : R counter_config :=
  let? enable := load_bool (lit "counter.enable") m (cc_enable c) in
  let? port := load_port (lit "counter.port") m (cc_port c) in
  let? conns := load_int (lit "counter.max_connections") 0 m (cc_max_connections c) in
  let? buckets := load_int (lit "counter.buckets") 1 m (cc_buckets c) in
  let? interval := load_int (lit "counter.stat_interval") 10 m (cc_stat_interval c) in
  inr {| cc_enable := enable; cc_port := port; cc_max_connections := conns; cc_buckets := buckets;
         cc_stat_interval := interval |}.

Section load.
Context (sys : system).

Fixpoint parse_all (l : list bytes) : R (list ip_address) :=
  match l with
  | [] => inr []
  | s :: l => let? a := ip_parse sys s in let? r := parse_all l in inr (a :: r)
  end.

Definition load_vip (m : config_map) (old : ip_address) : R ip_address :=
  option_of (lit "virtual_ip") m old (let? s := cp_get (lit "virtual_ip") m in ip_parse sys s).
Definition load_bind_ip (m : config_map) (old : list ip_address) : R (list ip_address) :=
  option_of (lit "bind_ip") m old (
    let? s := cp_get (lit "bind_ip") m in
    let? l := parse_all (tokenize s x20) in
    inr (old ++ l)).
Definition load_tempdir (m : config_map) (old : bytes) : R bytes :=
  option_of (lit "temp_dir") m old (
    let? s := cp_get (lit "temp_dir") m in
    if negb (is_dir sys s) then inl bad_config else
    if negb (is_writable sys s) then inl bad_config else inr s).
Definition load_threshold (m : config_map) (old : severity) : R severity :=
  option_of (lit "log.threshold") m old (
    let? s := cp_get (lit "log.threshold") m in
    match THRESHOLDS s with None => inl bad_config | Some t => inr t end).
Definition load_logfile (m : config_map) (old : bytes) : R bytes :=
  option_of (lit "log.file") m old (
    let? s := cp_get (lit "log.file") m in
    if bool_decide (s = []) || negb (bool_decide (head s = Some x2f)) then inl bad_config else inr s).
Definition load_heap_data_limit (m : config_map) (old : Z) : R Z :=
  option_of (lit "heap_data_limit") m old (
    let? t := cp_get (lit "heap_data_limit") m in
    if bool_decide (t = []) then inl bad_config else
    let? n := parse_unit t in
    if n <? 4096 then inl bad_config else inr n).
Definition load_workers (m : config_map) (old : Z) : R Z :=
  option_of (lit "workers") m old (
    let? n := get_as_int (lit "workers") m in
    if n <? 1 then inl bad_config else
    if MAX_WORKERS <? n then inl bad_config else inr (u32 n)).

(** [config::load] after the file was read. *)
Definition config_apply (m : config_map) (c : config) : R config :=
  let? vip := load_vip m (cf_vip c) in
  let? port := load_port (lit "port") m (cf_port c) in
  let? repl_port := load_port (lit "repl_port") m (cf_repl_port c) in
  let? bind_ip := load_bind_ip m (cf_bind_ip c) in
  let? max_connections := load_int (lit "max_connections") 0 m (cf_max_connections c) in
  let? tempdir := load_tempdir m (cf_tempdir c) in
  let? user := load_string (lit "user") m (cf_user c) in
  let? group := load_string (lit "group") m (cf_group c) in
  let? threshold := load_threshold m (cf_threshold c) in
  let? logfile := load_logfile m (cf_logfile c) in
  let? buckets := load_int (lit "buckets") 1 m (cf_buckets c) in
  let? max_data_size := load_size (lit "max_data_size") m (cf_max_data_size c) in
  let? heap_data_limit := load_heap_data_limit m (cf_heap_data_limit c) in
  let? memory_limit := load_size (lit "memory_limit") m (cf_memory_limit c) in
  let? repl_bufsize := load_int (lit "repl_buffer_size") 1 m (cf_repl_bufsize c) in
  let? delay := option_of (lit "initial_repl_sleep_delay_usec") m (cf_initial_repl_sleep_delay_usec c)
                  (get_as_uint64 (lit "initial_repl_sleep_delay_usec") m) in
  let? secure_erase := load_bool (lit "secure_erase") m (cf_secure_erase c) in
  let? lock_memory := load_bool (lit "lock_memory") m (cf_lock_memory c) in
  let? workers := load_workers m (cf_workers c) in
  let? gc_interval := load_int (lit "gc_interval") 1 m (cf_gc_interval c) in
  let? slave_timeout := load_int (lit "slave_timeout") 1 m (cf_slave_timeout c) in
  let? counter := counter_load m (cf_counter c) in
  inr {| cf_vip := vip; cf_port := port; cf_repl_port := repl_port; cf_bind_ip := bind_ip;
         cf_max_connections := max_connections; cf_tempdir := tempdir; cf_user := user;
         cf_group := group; cf_threshold := threshold; cf_logfile := logfile;
         cf_buckets := buckets; cf_max_data_size := max_data_size;
         cf_heap_data_limit := heap_data_limit; cf_memory_limit := memory_limit;
         cf_repl_bufsize := repl_bufsize; cf_initial_repl_sleep_delay_usec := delay;
         cf_secure_erase := secure_erase; cf_lock_memory := lock_memory; cf_workers := workers;
         cf_gc_interval := gc_interval; cf_slave_timeout := slave_timeout; cf_counter := counter |}.

(** [config::load]. *)
Definition config_load (file : option bytes) (c : config) : R config :=
  let? m := cp_load file in config_apply m c.
End load.

(** ** Legal configurations *)

Definition port_ok (n : Z) : Prop := 1 <= n <= 65535.
Definition uint_ok (lo n : Z) : Prop := lo <= n <= INT_MAX.
Definition size_ok (lo n : Z) : Prop := lo <= n < 2 ^ 61.

Record counter_legal (c : counter_config) : Prop := {
  cl_port : port_ok (cc_port c);
  cl_conns : uint_ok 0 (cc_max_connections c);
  cl_buckets : uint_ok 1 (cc_buckets c);
  cl_interval : uint_ok 10 (cc_stat_interval c)
}.

Record config_legal (sys : system) (tmpdir : bytes) (c : config) : Prop := {
  le_port : port_ok (cf_port c);
  le_repl_port : port_ok (cf_repl_port c);
  le_conns : uint_ok 0 (cf_max_connections c);
  le_tempdir : cf_tempdir c = tmpdir \/
    is_dir sys (cf_tempdir c) = true /\ is_writable sys (cf_tempdir c) = true;
  le_logfile : cf_logfile c = [] \/ head (cf_logfile c) = Some x2f;
  le_buckets : uint_ok 1 (cf_buckets c);
  le_max_data : size_ok 1 (cf_max_data_size c);
  le_heap : size_ok 4096 (cf_heap_data_limit c);
  le_memory : size_ok 1 (cf_memory_limit c);
  le_repl : uint_ok 1 (cf_repl_bufsize c);
  le_delay : 0 <= cf_initial_repl_sleep_delay_usec c < 2 ^ 64;
  le_workers : 1 <= cf_workers c <= MAX_WORKERS;
  le_gc : uint_ok 1 (cf_gc_interval c);
  le_timeout : uint_ok 1 (cf_slave_timeout c);
  le_counter : counter_legal (cf_counter c)
}.

Lemma rbind_inr {A B} (m : R A) (k : A -> R B) b :
  rbind m k = inr b -> exists a, m = inr a /\ k a = inr b.
Proof. destruct m as [x|a]; [done|]. by exists a. Qed.

(** Takes a successful chain of conversions apart. *)
Ltac rinv H :=
  repeat match type of H with
  | rbind _ _ = inr _ => let a := fresh "v" in let E := fresh "E" in
      apply rbind_inr in H as (a & E & H)
  end.

Lemma option_of_inr {A : Type} key m (old : A) f v (P : A -> Prop) :
  option_of key m old f = inr v -> P old -> (f = inr v -> P v) -> P v.
Proof. unfold option_of. destruct (cp_exists key m); [auto|]. by intros [= ->]. Qed.

Lemma stoi_range_ok s n : stoi s = inr n -> INT_MIN <= n <= INT_MAX.
Proof.
  unfold stoi. destruct (skip_space _) as [[k s1]|]; [|done].
  destruct (scan_digits _ 0) as [[v [|j]]|]; try done. case_match eqn:E; [done|]. intros [= <-].
  apply orb_false_iff in E as [?%Z.ltb_ge ?%Z.ltb_ge]. lia.
Qed.

Lemma get_as_int_range key m n : get_as_int key m = inr n -> INT_MIN <= n <= INT_MAX.
Proof.
  unfold get_as_int. intros H. rinv H. destruct (stoi v) as [[]|k] eqn:Es; try done.
  injection H as <-. by apply stoi_range_ok in Es.
Qed.

Lemma load_port_ok key m old n : load_port key m old = inr n -> port_ok old -> port_ok n.
Proof.
  intros H Hold. eapply option_of_inr; [exact H|done|]. clear H. intros H. rinv H.
  case_match eqn:Eb; [done|]. apply orb_false_iff in Eb as [?%Z.ltb_ge ?%Z.ltb_ge].
  injection H as <-. unfold port_ok, u16. rewrite Z.mod_small; lia.
Qed.

Lemma load_int_ok key lo m old n :
  0 <= lo -> load_int key lo m old = inr n -> uint_ok lo old -> uint_ok lo n.
Proof.
  intros Hlo H Hold. eapply option_of_inr; [exact H|done|]. clear H. intros H. rinv H.
  apply get_as_int_range in E. destruct (Z.ltb_spec v lo); [done|]. injection H as <-.
  unfold uint_ok, INT_MAX in *. rewrite u32_small; lia.
Qed.

Lemma unit_base_range b : 1 <= unit_base b <= 2 ^ 30.
Proof. unfold unit_base. repeat case_match; lia. Qed.

Lemma parse_unit_ok s n : parse_unit s = inr n -> size_ok 1 n.
Proof.
  unfold parse_unit. intros H. rinv H. apply stoi_range_ok in E. destruct (Z.ltb_spec v 1); [done|].
  injection H as <-. pose proof (unit_base_range (List.last s x00)). unfold size_ok, INT_MAX in *.
  rewrite (u64_small v) by lia. rewrite u64_small by nia. nia.
Qed.

Lemma load_size_ok key m old n : load_size key m old = inr n -> size_ok 1 old -> size_ok 1 n.
Proof.
  intros H Hold. eapply option_of_inr; [exact H|done|]. clear H. intros H. rinv H.
  case_match; [done|]. by eapply parse_unit_ok.
Qed.

Lemma load_heap_ok m old n :
  load_heap_data_limit m old = inr n -> size_ok 4096 old -> size_ok 4096 n.
Proof.
  intros H Hold. eapply option_of_inr; [exact H|done|]. clear H. intros H. rinv H.
  case_match; [done|]. rinv H. apply parse_unit_ok in E0. destruct (Z.ltb_spec v0 4096); [done|].
  injection H as <-. unfold size_ok in *. lia.
Qed.

Lemma load_workers_ok m old n :
  load_workers m old = inr n -> 1 <= old <= MAX_WORKERS -> 1 <= n <= MAX_WORKERS.
Proof.
  intros H Hold. eapply (option_of_inr _ _ _ _ n (fun n => 1 <= n <= MAX_WORKERS)); [exact H|done|].
  clear H. intros H. rinv H. destruct (Z.ltb_spec v 1); [done|]. destruct (Z.ltb_spec MAX_WORKERS v); [done|].
  injection H as <-. unfold MAX_WORKERS in *. rewrite u32_small; lia.
Qed.

Lemma load_tempdir_ok sys m old d :
  load_tempdir sys m old = inr d -> d = old \/ is_dir sys d = true /\ is_writable sys d = true.
Proof.
  intros H. apply (option_of_inr _ _ _ _ _ (fun d => d = old \/ is_dir sys d = true /\ is_writable sys d = true) H); [by left|].
  clear H. intros H. rinv H. destruct (is_dir sys v) eqn:E1; [|done]. destruct (is_writable sys v) eqn:E2; [|done].
  injection H as <-. by right.
Qed.

Lemma load_logfile_ok m old f :
  load_logfile m old = inr f -> old = [] \/ head old = Some x2f -> f = [] \/ head f = Some x2f.
Proof.
  intros H Hold. eapply (option_of_inr _ _ _ _ _ (fun f => f = [] \/ head f = Some x2f)); [exact H|done|].
  clear H. intros H. rinv H. case_match eqn:Eb; [done|]. injection H as <-.
  apply orb_false_iff in Eb as [_ Eb]. case_bool_decide; [by right|done].
Qed.

Lemma counter_load_ok m c c' : counter_load m c = inr c' -> counter_legal c -> counter_legal c'.
Proof.
  intros H [H1 H2 H3 H4]. unfold counter_load in H. rinv H. injection H as <-. split; cbn.
  - by eapply load_port_ok.
  - by eapply load_int_ok; [| |].
  - by eapply load_int_ok; [| |].
  - by eapply load_int_ok; [| |].
Qed.

Lemma config_load_ok sys localhost file c :
  config_load sys file (config_default localhost) = inr c ->
  config_legal sys (lit "/var/tmp") c.
Proof.
  intros H. unfold config_load in H. rinv H. unfold config_apply in H. rinv H. injection H as <-.
  split; cbn.
  all: try (eapply load_port_ok; [eassumption|done]).
  all: try (eapply load_int_ok; [done|eassumption|done]).
  all: try (eapply load_size_ok; [eassumption|done]).
  - eapply load_tempdir_ok; eassumption.
  - eapply load_logfile_ok; [eassumption|by left].
  - eapply load_heap_ok; [eassumption|done].
  - match goal with H : option_of (lit "initial_repl_sleep_delay_usec") _ _ _ = inr _ |- _ =>
      eapply (option_of_inr _ _ _ _ _ (fun n => 0 <= n < 2 ^ 64)); [exact H|done|] end.
    intros Hd. unfold get_as_uint64 in Hd. rinv Hd. destruct (stoull _) eqn:Es; [|done].
    injection Hd as <-. by eapply stoull_range.
  - eapply load_workers_ok; [eassumption|done].
  - eapply counter_load_ok; [eassumption|done].
Qed.

(** C35: The server never runs with a configuration out of bounds.  Whatever the file
    holds, a configuration that [config::load] accepts, starting from the defaults, has
    ports between 1 and 65535, at least one and at most 64 workers, hash tables with at
    least one bucket, positive intervals, timeouts and sizes, a heap limit of at least 4096
    bytes, an absolute log file and a temporary directory that exists and is writable
    (or the default one); no number was truncated by its conversion to the member's type. *)
Theorem config_load_legal sys localhost file c :
  config_load sys file (config_default localhost) = inr c ->
  config_legal sys (lit "/var/tmp") c.
Proof. apply config_load_ok. Qed.
