(* ===== verification/ConfigRoundtrip.v ===== *)
(** * Configuration files that load to a given configuration

    Writes a configuration as a file, one quoted option per line, and shows that
    [config::load] reads back the same configuration. *)

From stdpp Require Import gmap.
From S2P Require Import Prelude.
From S2P Require Import CLib.
From S2P Require Import Tcp.
From S2P Require Import Config.

(** ** Writing *)

(** The characters between key and value, and the end of a line. *)
Definition entry_line (k v : bytes) : bytes := k ++ lit " = " ++ [x22] ++ v ++ [x22].
Definition show_file (kvs : list (bytes * bytes)) : bytes :=
  concat ((fun kv => entry_line kv.1 kv.2 ++ [x0a]) <$> kvs).

Definition key_ok (k : bytes) : Prop :=
  k <> [] /\ Forall (fun b => is_white b = false /\ b <> x3d) k /\ head k <> Some x23.
Definition value_ok (v : bytes) : Prop := x0a ∉ v.

(** *** Lines *)

Lemma getlines_run l s cur :
  x0a ∉ l -> getlines (l ++ x0a :: s) cur = (rev cur ++ l) :: getlines s [].
Proof.
  revert cur. induction l as [|b l IH]; intros cur Hl; cbn; [by rewrite app_nil_r|].
  apply not_elem_of_cons in Hl as [Hb Hl]. destruct (Byte.eqb b x0a) eqn:E.
  { apply Byte.byte_dec_bl in E. congruence. }
  rewrite IH by done. cbn. by rewrite <- app_assoc.
Qed.

Lemma key_no_newline k : key_ok k -> x0a ∉ k.
Proof. intros (_&Hk&_) Hin. rewrite Forall_forall in Hk. by destruct (Hk _ Hin). Qed.

Lemma entry_no_newline k v : key_ok k -> value_ok v -> x0a ∉ entry_line k v.
Proof.
  intros Hk Hv. unfold entry_line. rewrite !elem_of_app. intros [Hin|[Hin|[Hin|[Hin|Hin]]]].
  - by apply (key_no_newline k).
  - cbn in Hin. set_solver.
  - set_solver.
  - done.
  - set_solver.
Qed.

Lemma ltrim_stop b s : is_white b = false -> ltrim (b :: s) = b :: s.
Proof. cbn. by intros ->. Qed.

Lemma rtrim_stop b s : is_white b = false -> rtrim (s ++ [b]) = s ++ [b].
Proof. intros Hb. unfold rtrim. rewrite rev_app_distr. cbn. rewrite Hb. cbn. by rewrite rev_involutive. Qed.

Lemma rtrim_white b s : is_white b = true -> rtrim (s ++ [b]) = rtrim s.
Proof. intros Hb. unfold rtrim. rewrite rev_app_distr. cbn. by rewrite Hb. Qed.

Lemma unquote_quoted v : unquote (x22 :: v ++ [x22]) = v.
Proof.
  unfold unquote. cbn [length]. rewrite length_app. cbn [length].
  rewrite (bool_decide_true (head _ = _)) by done.
  rewrite (bool_decide_true (last _ = _)) by (rewrite app_comm_cons; by rewrite last_snoc).
  destruct (Nat.leb_spec 2 (S (length v + 1))); [|lia]. cbn [andb]. change (drop 1 (x22 :: v ++ [x22])) with (v ++ [x22]).
  rewrite take_app_length'; [done|lia].
Qed.

Lemma parse_entry n k v : key_ok k -> parse_line n (entry_line k v) = inr (Some (k, v)).
Proof.
  intros (Hne&Hk&Hh). unfold parse_line.
  assert (ltrim (entry_line k v) = entry_line k v) as ->.
  { destruct k as [|b k]; [done|]. apply Forall_cons in Hk as [[Hb _] _]. by apply ltrim_stop. }
  assert (rtrim (entry_line k v) = entry_line k v) as ->.
  { unfold entry_line. rewrite !app_assoc. by apply rtrim_stop. }
  rewrite bool_decide_false by (unfold entry_line; by destruct k).
  rewrite bool_decide_false by (unfold entry_line; destruct k; [done|done]).
  assert (entry_line k v = (k ++ [x20]) ++ x3d :: (x20 :: x22 :: v ++ [x22])) as ->
    by (unfold entry_line; by rewrite <- app_assoc).
  rewrite find_byte_mid.
  2:{ rewrite elem_of_app. intros [Hin|Hin]; [|set_solver]. rewrite Forall_forall in Hk. by destruct (Hk _ Hin). }
  cbn [orb]. do 3 f_equal.
  - rewrite take_app_length, rtrim_white by done. destruct (exists_last Hne) as (k'&b&->).
    apply Forall_app in Hk as [_ [[Hb _] _]%Forall_cons]. by apply rtrim_stop.
  - change (x3d :: x20 :: x22 :: v ++ [x22]) with ([x3d] ++ x20 :: x22 :: v ++ [x22]).
    rewrite app_assoc, drop_app_length' by (by rewrite (length_app (k ++ [x20]))).
    change (ltrim (x20 :: x22 :: v ++ [x22])) with (x22 :: v ++ [x22]). apply unquote_quoted.
Qed.

(** The whole file. *)
Lemma load_file kvs n m :
  Forall (fun kv => key_ok kv.1 /\ value_ok kv.2) kvs ->
  load_lines (getlines (show_file kvs) []) n m = inr (fold_left (fun m kv => cp_set kv.1 kv.2 m) kvs m).
Proof.
  revert n m. induction kvs as [|[k v] kvs IH]; intros n m Hok; [done|].
  apply Forall_cons in Hok as [[Hk Hv] Hok]. cbn [fst snd] in *.
  unfold show_file. cbn [fmap list_fmap concat fst snd]. rewrite <- app_assoc. cbn [app].
  rewrite getlines_run by (by apply entry_no_newline). cbn [rev app load_lines].
  rewrite parse_entry by done. cbn [rbind]. apply IH. done.
Qed.

Lemma fold_set_other (kvs : list (bytes * bytes)) (m : config_map) k :
  k ∉ kvs.*1 -> fold_left (fun m kv => cp_set kv.1 kv.2 m) kvs m !! k = m !! k.
Proof.
  revert m. induction kvs as [|[k' v'] kvs IH]; intros m Hk; [done|]. cbn [fold_left fmap list_fmap fst snd] in *.
  apply not_elem_of_cons in Hk as [Hne Hk]. rewrite IH by done. unfold cp_set. by rewrite lookup_insert_ne.
Qed.

Lemma fold_set_lookup (kvs : list (bytes * bytes)) (m : config_map) k v :
  NoDup kvs.*1 -> (k, v) ∈ kvs -> fold_left (fun m kv => cp_set kv.1 kv.2 m) kvs m !! k = Some v.
Proof.
  revert m. induction kvs as [|[k' v'] kvs IH]; intros m Hnd Hin; [by apply not_elem_of_nil in Hin|].
  cbn [fold_left fmap list_fmap fst snd] in *. apply NoDup_cons in Hnd as [Hk' Hnd]. apply elem_of_cons in Hin as [[= -> ->]|Hin]; [|by apply IH].
  rewrite fold_set_other by done. unfold cp_set. by rewrite lookup_insert_eq.
Qed.

(** *** Values *)

Lemma stoi_to_string n : 0 <= n <= INT_MAX -> stoi (to_string n) = inr n.
Proof.
  intros Hn. unfold stoi. destruct (to_string_spec n) as (Hne&Hd&Hv); [lia|].
  pose proof (scan_digits_run (to_string n) x00 [] 0 Hd eq_refl) as Hscan. rewrite Hv in Hscan.
  destruct (to_string n) as [|d ds]; [done|]. apply Forall_cons in Hd as [Hd _].
  cbn [app skip_space] in *. rewrite (isdigit_not_space d) by done. cbn [head tail].
  destruct (isdigit_not_sign d Hd) as [Hm Hp].
  rewrite !bool_decide_eq_false_2 by congruence. cbn [orb]. rewrite Hscan. cbn [length].
  unfold INT_MIN, INT_MAX in *. rewrite (proj2 (Z.ltb_ge n _)) by lia. by rewrite (proj2 (Z.ltb_ge _ n)) by lia.
Qed.

Lemma isdigit_not_unit b : isdigit b = true -> unit_base b = 1.
Proof. destruct b; vm_compute; congruence. Qed.

Lemma parse_unit_to_string n : 1 <= n <= INT_MAX -> parse_unit (to_string n) = inr n.
Proof.
  intros Hn. unfold parse_unit. destruct (to_string_spec n) as (Hne&Hd&_); [lia|].
  assert (unit_base (List.last (to_string n) x00) = 1) as ->.
  { apply isdigit_not_unit. destruct (exists_last Hne) as (s&b&Heq). rewrite Heq in Hd |- *.
    rewrite List.last_last. by apply Forall_app in Hd as [_ [Hb _]%Forall_cons]. }
  cbn [Z.eqb Pos.eqb]. rewrite stoi_to_string by lia. cbn [rbind].
  destruct (Z.ltb_spec n 1); [lia|]. unfold INT_MAX in *. rewrite (u64_small n), u64_small by lia. f_equal. lia.
Qed.

Lemma digits_value n : 0 <= n -> value_ok (to_string n).
Proof.
  intros Hn Hin. destruct (to_string_spec n Hn) as (_&Hd&_). rewrite Forall_forall in Hd.
  by specialize (Hd _ Hin).
Qed.

Fixpoint join (l : list bytes) : bytes :=
  match l with [] => [] | [x] => x | x :: l => x ++ x20 :: join l end.

Lemma tokenize_run c x s t :
  c ∉ x -> tokenize_loop (x ++ s) c (Some t) = tokenize_loop s c (Some (rev x ++ t)).
Proof.
  revert t. induction x as [|b x IH]; intros t Hx; [done|]. apply not_elem_of_cons in Hx as [Hb Hx].
  cbn. rewrite decide_True by congruence. rewrite IH by done. by rewrite <- app_assoc.
Qed.

Lemma tokenize_token c x s :
  c ∉ x -> x <> [] -> tokenize_loop (x ++ s) c None = tokenize_loop s c (Some (rev x)).
Proof.
  intros Hx Hne. destruct x as [|b x]; [done|]. apply not_elem_of_cons in Hx as [Hb Hx].
  cbn. rewrite decide_True by congruence. by rewrite tokenize_run.
Qed.

Lemma tokenize_join l :
  Forall (fun x => x20 ∉ x /\ x <> []) l -> tokenize (join l) x20 = l.
Proof.
  unfold tokenize. induction l as [|x [|y l] IH]; intros Hl; [done|..]; apply Forall_cons in Hl as [[Hx Hne] Hl].
  - cbn [join]. rewrite <- (app_nil_r x) at 1. rewrite tokenize_token by done. cbn. by rewrite rev_involutive.
  - change (join (x :: y :: l)) with (x ++ x20 :: join (y :: l)). rewrite tokenize_token by done.
    cbn [tokenize_loop]. rewrite decide_False by (intros H; by apply H). by rewrite rev_involutive, IH.
Qed.

(** *** The options *)

Definition show_bool (b : bool) : bytes := if b then lit "true" else lit "false".
Definition show_threshold (t : severity) : bytes :=
  match t with
  | sev_error => lit "error" | sev_warning => lit "warning" | sev_info => lit "info" | sev_debug => lit "debug"
  end.

Lemma THRESHOLDS_show t : THRESHOLDS (show_threshold t) = Some t.
Proof. by destruct t. Qed.

Section options.
Context (m : config_map).

Lemma exists_get key v : m !! key = Some v -> cp_exists key m = true /\ cp_get key m = inr v.
Proof. intros Hm. unfold cp_exists, cp_get. rewrite Hm. by rewrite bool_decide_true by eauto. Qed.

Lemma get_int_shown key n :
  m !! key = Some (to_string n) -> 0 <= n <= INT_MAX -> cp_exists key m = true /\ get_as_int key m = inr n.
Proof.
  intros [He Hg]%exists_get Hn. split; [done|]. unfold get_as_int. rewrite Hg. cbn [rbind].
  by rewrite stoi_to_string.
Qed.

Lemma load_port_shown key n old :
  m !! key = Some (to_string n) -> port_ok n -> load_port key m old = inr n.
Proof.
  intros Hm Hn. unfold port_ok in Hn. destruct (get_int_shown key n Hm) as [He Hg]; [unfold INT_MAX; lia|].
  unfold load_port, option_of. rewrite He, Hg. cbn [rbind]. rewrite (proj2 (Z.ltb_ge n _)), (proj2 (Z.ltb_ge _ n)) by lia.
  unfold u16. by rewrite Z.mod_small by lia.
Qed.

Lemma load_int_shown key lo n old :
  m !! key = Some (to_string n) -> 0 <= lo -> uint_ok lo n -> load_int key lo m old = inr n.
Proof.
  intros Hm Hlo Hn. unfold uint_ok in Hn. destruct (get_int_shown key n Hm) as [He Hg]; [lia|].
  unfold load_int, option_of. rewrite He, Hg. cbn [rbind]. rewrite (proj2 (Z.ltb_ge n _)) by lia.
  unfold INT_MAX in Hn. by rewrite u32_small by lia.
Qed.

Lemma load_workers_shown n old :
  m !! lit "workers" = Some (to_string n) -> 1 <= n <= MAX_WORKERS -> load_workers m old = inr n.
Proof.
  intros Hm Hn. unfold MAX_WORKERS in Hn. destruct (get_int_shown _ n Hm) as [He Hg]; [unfold INT_MAX; lia|].
  unfold load_workers, option_of. rewrite He, Hg. cbn [rbind]. unfold MAX_WORKERS.
  rewrite (proj2 (Z.ltb_ge n _)), (proj2 (Z.ltb_ge _ n)) by lia. by rewrite u32_small by lia.
Qed.

Lemma to_string_ne n : 0 <= n -> to_string n <> [].
Proof. intros Hn. by destruct (to_string_spec n Hn). Qed.

Lemma load_size_shown key n old :
  m !! key = Some (to_string n) -> 1 <= n <= INT_MAX -> load_size key m old = inr n.
Proof.
  intros [He Hg]%exists_get Hn. unfold load_size, option_of. rewrite He, Hg. cbn [rbind].
  rewrite bool_decide_false by (apply to_string_ne; lia). by apply parse_unit_to_string.
Qed.

Lemma load_heap_shown n old :
  m !! lit "heap_data_limit" = Some (to_string n) -> 4096 <= n <= INT_MAX -> load_heap_data_limit m old = inr n.
Proof.
  intros [He Hg]%exists_get Hn. unfold load_heap_data_limit, option_of. rewrite He, Hg. cbn [rbind].
  rewrite bool_decide_false by (apply to_string_ne; lia). rewrite parse_unit_to_string by lia. cbn [rbind].
  by rewrite (proj2 (Z.ltb_ge n _)) by lia.
Qed.

Lemma load_bool_shown key b old : m !! key = Some (show_bool b) -> load_bool key m old = inr b.
Proof.
  intros [He Hg]%exists_get. unfold load_bool, option_of, get_as_bool. rewrite He, Hg. cbn [rbind]. by destruct b.
Qed.

Lemma load_string_shown key s old : m !! key = Some s -> load_string key m old = inr s.
Proof. intros [He Hg]%exists_get. unfold load_string, option_of. by rewrite He, Hg. Qed.

Lemma load_threshold_shown t old :
  m !! lit "log.threshold" = Some (show_threshold t) -> load_threshold m old = inr t.
Proof.
  intros [He Hg]%exists_get. unfold load_threshold, option_of. rewrite He, Hg. cbn [rbind]. by rewrite THRESHOLDS_show.
Qed.

Lemma load_delay_shown n old :
  m !! lit "initial_repl_sleep_delay_usec" = Some (to_string n) -> 0 <= n < 2 ^ 64 ->
  option_of (lit "initial_repl_sleep_delay_usec") m old
    (get_as_uint64 (lit "initial_repl_sleep_delay_usec") m) = inr n.
Proof.
  intros [He Hg]%exists_get Hn. unfold option_of, get_as_uint64. rewrite He, Hg. cbn [rbind].
  by rewrite stoull_to_string by (unfold ULLONG_MAX; lia).
Qed.

Lemma option_absent {A : Type} key (old : A) f : m !! key = None -> option_of key m old f = inr old.
Proof. intros Hm. unfold option_of, cp_exists. rewrite Hm. rewrite bool_decide_false; [done|]. by intros [? ?]. Qed.

Lemma load_logfile_shown s old :
  m !! lit "log.file" = Some s -> head s = Some x2f -> load_logfile m old = inr s.
Proof.
  intros [He Hg]%exists_get Hs. unfold load_logfile, option_of. rewrite He, Hg. cbn [rbind].
  rewrite bool_decide_false by (by intros ->). by rewrite Hs.
Qed.

Lemma load_tempdir_shown sys s old :
  m !! lit "temp_dir" = Some s -> is_dir sys s = true -> is_writable sys s = true ->
  load_tempdir sys m old = inr s.
Proof.
  intros [He Hg]%exists_get Hd Hw. unfold load_tempdir, option_of. rewrite He, Hg. cbn [rbind]. by rewrite Hd, Hw.
Qed.
End options.

(** ** A whole configuration *)

Section show.
Context (sys : system) (show_ip : ip_address -> bytes).

(** An address that reads back from how it is written. *)
Definition shown_ip (a : ip_address) : Prop :=
  ip_parse sys (show_ip a) = inr a /\ x0a ∉ show_ip a /\ x20 ∉ show_ip a /\ show_ip a <> [].

Lemma parse_all_shown l : Forall shown_ip l -> parse_all sys (show_ip <$> l) = inr l.
Proof.
  induction l as [|a l IH]; intros Hl; [done|]. apply Forall_cons in Hl as [(Ha&_) Hl].
  cbn. rewrite Ha. cbn. by rewrite IH.
Qed.

Lemma load_vip_shown m a old : m !! lit "virtual_ip" = Some (show_ip a) -> shown_ip a -> load_vip sys m old = inr a.
Proof.
  intros [He Hg]%exists_get (Ha&_). unfold load_vip, option_of. rewrite He, Hg. cbn [rbind]. done.
Qed.

Lemma load_bind_shown m l :
  m !! lit "bind_ip" = Some (join (show_ip <$> l)) -> Forall shown_ip l -> load_bind_ip sys m [] = inr l.
Proof.
  intros [He Hg]%exists_get Hl. unfold load_bind_ip, option_of. rewrite He, Hg. cbn [rbind].
  rewrite tokenize_join, parse_all_shown; [done..|].
  apply Forall_fmap. eapply Forall_impl; [exact Hl|]. by intros a (_&_&?&?).
Qed.

(** The options of the file. *)
Definition show_counter (c : counter_config) : list (bytes * bytes) :=
  [(lit "counter.enable", show_bool (cc_enable c)); (lit "counter.port", to_string (cc_port c));
   (lit "counter.max_connections", to_string (cc_max_connections c));
   (lit "counter.buckets", to_string (cc_buckets c));
   (lit "counter.stat_interval", to_string (cc_stat_interval c))].
Definition show_config (tmpdir : bytes) (c : config) : list (bytes * bytes) :=
  [(lit "virtual_ip", show_ip (cf_vip c)); (lit "port", to_string (cf_port c));
   (lit "repl_port", to_string (cf_repl_port c)); (lit "bind_ip", join (show_ip <$> cf_bind_ip c));
   (lit "max_connections", to_string (cf_max_connections c));
   (lit "user", cf_user c); (lit "group", cf_group c);
   (lit "log.threshold", show_threshold (cf_threshold c));
   (lit "buckets", to_string (cf_buckets c)); (lit "max_data_size", to_string (cf_max_data_size c));
   (lit "heap_data_limit", to_string (cf_heap_data_limit c));
   (lit "memory_limit", to_string (cf_memory_limit c));
   (lit "repl_buffer_size", to_string (cf_repl_bufsize c));
   (lit "initial_repl_sleep_delay_usec", to_string (cf_initial_repl_sleep_delay_usec c));
   (lit "secure_erase", show_bool (cf_secure_erase c)); (lit "lock_memory", show_bool (cf_lock_memory c));
   (lit "workers", to_string (cf_workers c)); (lit "gc_interval", to_string (cf_gc_interval c));
   (lit "slave_timeout", to_string (cf_slave_timeout c))] ++
  show_counter (cf_counter c) ++
  (if bool_decide (cf_tempdir c = tmpdir) then [] else [(lit "temp_dir", cf_tempdir c)]) ++
  (if bool_decide (cf_logfile c = []) then [] else [(lit "log.file", cf_logfile c)]).

(** What can be written on a line, and in bytes without a unit. *)
Record config_shown (c : config) : Prop := {
  sh_vip : shown_ip (cf_vip c);
  sh_bind : Forall shown_ip (cf_bind_ip c);
  sh_user : value_ok (cf_user c);
  sh_group : value_ok (cf_group c);
  sh_tempdir : value_ok (cf_tempdir c);
  sh_logfile : value_ok (cf_logfile c);
  sh_max_data : cf_max_data_size c <= INT_MAX;
  sh_heap : cf_heap_data_limit c <= INT_MAX;
  sh_memory : cf_memory_limit c <= INT_MAX
}.

Lemma join_value l : Forall shown_ip l -> value_ok (join (show_ip <$> l)).
Proof.
  unfold value_ok. induction l as [|a [|b l] IH]; intros Hl; [by apply not_elem_of_nil|..];
    apply Forall_cons in Hl as [(_&Ha&_) Hl]; [done|].
  change (join (show_ip <$> a :: b :: l)) with (show_ip a ++ x20 :: join (show_ip <$> b :: l)).
  rewrite elem_of_app, elem_of_cons. intros [?|[?|?]]; [done..|]. by apply IH.
Qed.

Lemma bool_value b : value_ok (show_bool b).
Proof. unfold value_ok. by destruct b; vm_compute; set_solver. Qed.
Lemma threshold_value t : value_ok (show_threshold t).
Proof. unfold value_ok. by destruct t; vm_compute; set_solver. Qed.

(** Keys are checked by evaluation. *)
Definition key_okb (k : bytes) : bool :=
  negb (bool_decide (k = [])) && forallb (fun b => negb (is_white b) && negb (bool_decide (b = x3d))) k &&
  negb (bool_decide (head k = Some x23)).
Lemma key_okb_ok k : key_okb k = true -> key_ok k.
Proof.
  unfold key_okb, key_ok. rewrite !andb_true_iff, !negb_true_iff, !bool_decide_eq_false, forallb_forall.
  intros [[Hne Hk] Hh]. split; [done|]. split; [|done]. apply Forall_forall. intros b Hb%list_elem_of_In.
  apply Hk in Hb. rewrite andb_true_iff, !negb_true_iff, bool_decide_eq_false in Hb. done.
Qed.

Lemma config_entries_ok tmpdir c :
  config_legal sys tmpdir c -> config_shown c ->
  Forall (fun kv => key_ok kv.1 /\ value_ok kv.2) (show_config tmpdir c).
Proof.
  intros Hle Hsh. destruct (le_counter _ _ _ Hle). destruct Hle, Hsh. unfold port_ok, uint_ok, size_ok in *.
  unfold show_config. repeat (apply Forall_app; split).
  all: repeat case_bool_decide; repeat (apply Forall_cons; split); try apply Forall_nil_2; cbn [fst snd];
    (split; [by apply key_okb_ok|]).
  all: try (by apply bool_value); try (by apply threshold_value); try (apply digits_value; lia); try done.
  - by match goal with H : shown_ip (cf_vip c) |- _ => destruct H as (_&?&_) end.
  - by apply join_value.
Qed.

Lemma config_keys_nodup tmpdir c : NoDup (show_config tmpdir c).*1.
Proof.
  unfold show_config. repeat case_bool_decide; cbn [app fmap list_fmap fst show_counter];
    apply (bool_decide_unpack _); vm_compute; exact I.
Qed.
(** Finds an option in the list. *)
Ltac find_option :=
  unfold show_config, show_counter; apply elem_of_app;
  first [ solve [left; repeat (first [apply list_elem_of_here | apply list_elem_of_further])]
        | right; apply elem_of_app; left; repeat (first [apply list_elem_of_here | apply list_elem_of_further])].

(** One option of a configuration read back. *)
Tactic Notation "shown" hyp(Hin) uconstr(lem) :=
  rewrite lem by (done || lia || (apply Hin; find_option)); cbn [rbind].

Lemma counter_shown m tmpdir c old :
  (forall k v, (k, v) ∈ show_config tmpdir c -> m !! k = Some v) -> counter_legal (cf_counter c) ->
  counter_load m old = inr (cf_counter c).
Proof.
  intros Hin []. unfold counter_load.
  shown Hin (load_bool_shown _ _ (cc_enable (cf_counter c))).
  shown Hin (load_port_shown _ _ (cc_port (cf_counter c))).
  shown Hin (load_int_shown _ _ 0 (cc_max_connections (cf_counter c))).
  shown Hin (load_int_shown _ _ 1 (cc_buckets (cf_counter c))).
  shown Hin (load_int_shown _ _ 10 (cc_stat_interval (cf_counter c))).
  by destruct (cf_counter c).
Qed.

Lemma tempdir_shown m tmpdir c :
  (forall k v, (k, v) ∈ show_config tmpdir c -> m !! k = Some v) ->
  (forall k, k ∉ (show_config tmpdir c).*1 -> m !! k = None) ->
  config_legal sys tmpdir c -> load_tempdir sys m tmpdir = inr (cf_tempdir c).
Proof.
  intros Hin Hout Hle. destruct (decide (cf_tempdir c = tmpdir)) as [E|E].
  - rewrite E. apply option_absent, Hout. unfold show_config. rewrite bool_decide_true by done.
    repeat case_bool_decide; cbn [app fmap list_fmap fst show_counter]; apply (bool_decide_unpack _); vm_compute; exact I.
  - destruct (le_tempdir _ _ _ Hle) as [?|[Hd Hw]]; [done|]. apply load_tempdir_shown; [|done..].
    apply Hin. unfold show_config. rewrite (bool_decide_false (cf_tempdir c = tmpdir)) by done.
    apply elem_of_app. right. apply elem_of_app. right. apply elem_of_app. left. left.
Qed.

Lemma logfile_shown m tmpdir c :
  (forall k v, (k, v) ∈ show_config tmpdir c -> m !! k = Some v) ->
  (forall k, k ∉ (show_config tmpdir c).*1 -> m !! k = None) ->
  config_legal sys tmpdir c -> load_logfile m [] = inr (cf_logfile c).
Proof.
  intros Hin Hout Hle. destruct (decide (cf_logfile c = [])) as [E|E].
  - rewrite E. apply option_absent, Hout. unfold show_config. rewrite (bool_decide_true (cf_logfile c = [])) by done.
    repeat case_bool_decide; cbn [app fmap list_fmap fst show_counter]; apply (bool_decide_unpack _); vm_compute; exact I.
  - destruct (le_logfile _ _ _ Hle) as [?|Hs]; [done|]. apply load_logfile_shown; [|done].
    apply Hin. unfold show_config. rewrite (bool_decide_false (cf_logfile c = [])) by done.
    apply elem_of_app. right. apply elem_of_app. right. apply elem_of_app. right. left.
Qed.

(** C36: Every legal configuration has a file.  Writing the options of a legal configuration one per
    line, quoted, numbers in decimal, and loading that file over the defaults gives back
    exactly that configuration: comments and white space are handled, the right text reaches
    the right member, nothing is lost in a conversion.  Addresses are those
    [getaddrinfo] reads back; sizes are those that need no unit. *)
Theorem config_roundtrip localhost c :
  config_legal sys (lit "/var/tmp") c -> config_shown c ->
  config_load sys (Some (show_file (show_config (lit "/var/tmp") c))) (config_default localhost) = inr c.
Proof.
  intros Hle Hsh. unfold config_load, cp_load. set (kvs := show_config _ c).
  rewrite load_file by (by apply config_entries_ok). cbn [rbind]. set (m := fold_left _ kvs ∅).
  assert (forall k v, (k, v) ∈ kvs -> m !! k = Some v) as Hin
    by (intros k v; apply fold_set_lookup, config_keys_nodup).
  assert (forall k, k ∉ kvs.*1 -> m !! k = None) as Hout
    by (intros k Hk; unfold m; by rewrite fold_set_other, lookup_empty).
  clearbody m. destruct Hsh.
  pose proof (counter_shown m (lit "/var/tmp") c counter_default Hin (le_counter _ _ _ Hle)) as Hcounter.
  pose proof (tempdir_shown m _ c Hin Hout Hle) as Htmp. pose proof (logfile_shown m _ c Hin Hout Hle) as Hlog.
  destruct Hle. unfold size_ok in *. unfold config_apply. cbn [config_default cf_bind_ip cf_tempdir cf_logfile cf_counter].
  shown Hin (load_vip_shown m (cf_vip c)).
  shown Hin (load_port_shown _ _ (cf_port c)).
  shown Hin (load_port_shown _ _ (cf_repl_port c)).
  shown Hin (load_bind_shown m (cf_bind_ip c)).
  shown Hin (load_int_shown _ _ 0 (cf_max_connections c)).
  rewrite Htmp. cbn [rbind].
  shown Hin (load_string_shown _ _ (cf_user c)).
  shown Hin (load_string_shown _ _ (cf_group c)).
  shown Hin (load_threshold_shown _ (cf_threshold c)).
  rewrite Hlog. cbn [rbind].
  shown Hin (load_int_shown _ _ 1 (cf_buckets c)).
  shown Hin (load_size_shown _ _ (cf_max_data_size c)).
  shown Hin (load_heap_shown _ (cf_heap_data_limit c)).
  shown Hin (load_size_shown _ _ (cf_memory_limit c)).
  shown Hin (load_int_shown _ _ 1 (cf_repl_bufsize c)).
  shown Hin (load_delay_shown _ (cf_initial_repl_sleep_delay_usec c)).
  shown Hin (load_bool_shown _ _ (cf_secure_erase c)).
  shown Hin (load_bool_shown _ _ (cf_lock_memory c)).
  shown Hin (load_workers_shown _ (cf_workers c)).
  shown Hin (load_int_shown _ _ 1 (cf_gc_interval c)).
  shown Hin (load_int_shown _ _ 1 (cf_slave_timeout c)).
  rewrite Hcounter. cbn [rbind]. by destruct c.
Qed.
End show.

(** A system whose addresses are single letters, with one writable directory. *)
Definition sample_system : system :=
  {| getaddrinfo4 := fun s => match s with [b] => gai_ok [b] | _ => gai_noname end;
     getaddrinfo6 := fun _ => gai_noname;
     is_dir := fun s => bool_decide (s = lit "/tmp/y"); is_writable := fun s => bool_decide (s = lit "/tmp/y") |}.
Definition sample_show (a : ip_address) : bytes := match a with ip_v4 b => b | _ => lit "?" end.
Definition sample_config : config :=
  {| cf_vip := ip_v4 (lit "a"); cf_port := 11211; cf_repl_port := 11213;
     cf_bind_ip := [ip_v4 (lit "b"); ip_v4 (lit "c")]; cf_max_connections := 10000;
     cf_tempdir := lit "/tmp/y"; cf_user := lit "nobody"; cf_group := lit "no group";
     cf_threshold := sev_debug; cf_logfile := lit "/var/log/y.log"; cf_buckets := 1000;
     cf_max_data_size := 10485760; cf_heap_data_limit := 4096; cf_memory_limit := 1073741824;
     cf_repl_bufsize := 30; cf_initial_repl_sleep_delay_usec := 18446744073709551615;
     cf_secure_erase := true; cf_lock_memory := false; cf_workers := 64; cf_gc_interval := 1;
     cf_slave_timeout := 10; cf_counter := counter_default |}.

Lemma config_roundtrip_witness :
  config_legal sample_system (lit "/var/tmp") sample_config /\ config_shown sample_system sample_show sample_config /\
  config_load sample_system
    (Some (show_file (show_config sample_show (lit "/var/tmp") sample_config))) (config_default ip_none)
  = inr sample_config.
Proof.
  assert (config_legal sample_system (lit "/var/tmp") sample_config) as Hle.
  { split; try (vm_compute; split; congruence); try (by right). split; vm_compute; split; congruence. }
  assert (config_shown sample_system sample_show sample_config) as Hsh.
  { assert (forall b, b <> x0a -> b <> x20 -> shown_ip sample_system sample_show (ip_v4 [b])) as Hip.
    { intros b H1 H2. split; [done|]. cbn. split_and!; [set_solver..|done]. }
    split; cbn [sample_config cf_vip cf_bind_ip cf_user cf_group cf_tempdir cf_logfile].
    all: try (by apply Hip); try (unfold value_ok; apply (bool_decide_unpack _); vm_compute; exact I); try done.
    repeat constructor; by apply Hip. }
  split; [done|]. split; [done|]. by apply config_roundtrip.
Defined.

(** A file with comments, white space, a unit and an option given twice. *)
Lemma config_load_legal_witness :
  exists c, config_load sample_system (Some (
      lit "# sample" ++ x0a :: lit "  port=1" ++ x0a :: x0a :: lit "port = 12000  " ++ x0a ::
      lit "max_data_size = 2m")) (config_default ip_none) = inr c /\
    cf_port c = 12000 /\ cf_max_data_size c = 2097152 /\ config_legal sample_system (lit "/var/tmp") c.
Proof.
  eexists. split; [vm_compute; reflexivity|]. split; [reflexivity|]. split; [reflexivity|].
  eapply (config_load_legal sample_system ip_none (Some (
    lit "# sample" ++ x0a :: lit "  port=1" ++ x0a :: x0a :: lit "port = 12000  " ++ x0a ::
    lit "max_data_size = 2m"))). vm_compute. reflexivity.
Defined.

(** ** Where the loader and its documentation part *)

(** [config.hpp] says that [load] throws exceptions derived from [std::runtime_error];
    a size that is not a number lets [std::invalid_argument] of [std::stoi], a
    [std::logic_error], through. *)
Theorem config_size_not_runtime_error :
  config_load sample_system (Some (lit "memory_limit = lots")) (config_default ip_none) = inl stoi_invalid /\
  config_load sample_system (Some (lit "max_data_size = 99999999999")) (config_default ip_none) = inl stoi_range.
Proof. split; vm_compute; reflexivity. Qed.

(** The loader accepts replication buffers that the constructor of the replication
    socket then refuses with [std::logic_error], in the reactor of the master. *)
Theorem config_repl_buffers_refused :
  exists c, config_load sample_system (Some (lit "repl_buffer_size = 65537")) (config_default ip_none) = inr c /\
    tcp_socket_new (Z.to_nat (cf_repl_bufsize c)) = inl logic_error.
Proof. eexists. split; [vm_compute; reflexivity|]. vm_compute. reflexivity. Qed.
