(* ===== verification/Logger.v ===== *)
(** * Logging (cybozu/logger.hpp, cybozu/logger.cpp)

    A log statement builds a line in a stream and writes it when the stream is
    destroyed; the logger writes to the standard error or to a file that it opens, and
    opens again when the file has been moved away (SIGHUP).  The file system is a directory of
    paths over numbered files; each [::write] takes as many bytes as the kernel
    decides.  Theorem: every file holds whole lines, those that were logged while it was
    the current one, in order. *)

From stdpp Require Import gmap.
From S2P Require Import Prelude CLib MemTypes.

(** ** The file system *)

(** What one [::write] answers: at most [n + 1] bytes were taken; [EAGAIN] or [EINTR];
    another error. *)
Inductive wr := Wrote (n : nat) | Again | Failed.

(** The descriptor of the logger. *)
Inductive descr := Stderr | Closed | File (inode : nat).
#[export] Instance descr_eq_dec : EqDecision descr.
Proof. solve_decision. Defined.

Record log_world := {
  lw_dir : gmap bytes nat;       (** paths and the files behind them *)
  lw_files : gmap nat bytes;     (** the contents of the files *)
  lw_next : nat;                 (** the number of the next new file *)
  lw_stderr : bytes;
  m_fd : descr;
  m_path : bytes;
  threshold : severity
}.
Definition set_fd (d : descr) (w : log_world) : log_world :=
  {| lw_dir := lw_dir w; lw_files := lw_files w; lw_next := lw_next w; lw_stderr := lw_stderr w;
     m_fd := d; m_path := m_path w; threshold := threshold w |}.
Definition set_path (p : bytes) (w : log_world) : log_world :=
  {| lw_dir := lw_dir w; lw_files := lw_files w; lw_next := lw_next w; lw_stderr := lw_stderr w;
     m_fd := m_fd w; m_path := p; threshold := threshold w |}.
(** [set_threshold]. *)
Definition set_threshold (s : severity) (w : log_world) : log_world :=
  {| lw_dir := lw_dir w; lw_files := lw_files w; lw_next := lw_next w; lw_stderr := lw_stderr w;
     m_fd := m_fd w; m_path := m_path w; threshold := s |}.

(** [O_APPEND]: bytes go to the end of the file behind the descriptor. *)
Definition append_to (d : descr) (b : bytes) (w : log_world) : log_world :=
  match d with
  | Stderr => {| lw_dir := lw_dir w; lw_files := lw_files w; lw_next := lw_next w;
                 lw_stderr := lw_stderr w ++ b; m_fd := m_fd w; m_path := m_path w; threshold := threshold w |}
  | File i => {| lw_dir := lw_dir w; lw_files := <[i := default [] (lw_files w !! i) ++ b]> (lw_files w);
                 lw_next := lw_next w; lw_stderr := lw_stderr w; m_fd := m_fd w; m_path := m_path w;
                 threshold := threshold w |}
  | Closed => w
  end.

(** [::open(path, O_WRONLY|O_APPEND|O_CREAT, 0644)]. *)
Definition sys_open (path : bytes) (w : log_world) : nat * log_world :=
  match lw_dir w !! path with
  | Some i => (i, w)
  | None =>
      (lw_next w,
       {| lw_dir := <[path := lw_next w]> (lw_dir w); lw_files := <[lw_next w := []]> (lw_files w);
          lw_next := S (lw_next w); lw_stderr := lw_stderr w; m_fd := m_fd w; m_path := m_path w;
          threshold := threshold w |})
  end.

(** ** class logger *)

(** [open_nolock]; [ok] tells whether the call of [::open] succeeds. *)
Definition open_nolock (ok : bool) (path : bytes) : M log_world unit :=
  let! fd := gets m_fd in
  if negb (bool_decide (fd = Closed)) && negb (bool_decide (fd = Stderr)) then throw logic_error else
  if ok then
    let! i := (fun w => let (i, w') := sys_open path w in (inr i, w')) in
    modify (set_fd (File i))
  else
    modify (set_fd Stderr) ;;!
    throw system_error.

(** [close_nolock]. *)
Definition close_nolock : M log_world unit :=
  let! fd := gets m_fd in
  if bool_decide (fd = Closed) || bool_decide (fd = Stderr) then ret tt else
  modify (set_fd Closed).

(** [open], [reopen]. *)
Definition log_open (ok : bool) (path : bytes) : M log_world unit :=
  modify (set_path path) ;;!
  open_nolock ok path.
Definition log_reopen (ok : bool) : M log_world unit :=
  let! fd := gets m_fd in
  if bool_decide (fd = Stderr) then ret tt else
  close_nolock ;;!
  let! path := gets m_path in
  open_nolock ok path.

(** The loop of [log]; when the answers run out the kernel takes everything.  Writing
    to a closed descriptor fails. *)
Fixpoint log_loop (ans : list wr) (msg : bytes) : M log_world unit :=
  match msg, ans with
  | [], _ => ret tt
  | _, [] => modify (fun w => append_to (m_fd w) msg w)
  | _, Again :: ans => log_loop ans msg
  | _, Failed :: _ => throw system_error
  | _, Wrote n :: ans =>
      modify (fun w => append_to (m_fd w) (take (S n) msg) w) ;;!
      log_loop ans (drop (S n) msg)
  end.
Definition log (ans : list wr) (msg : bytes) : M log_world unit :=
  let! fd := gets m_fd in
  if bool_decide (fd = Closed) && negb (bool_decide (msg = [])) then throw system_error else
  log_loop ans msg.

(** ** class logstream *)

Record logstream := { m_valid : bool; m_os : option bytes }.

(** The numbers of the enumeration [severity], and the names in a line. *)
Definition severity_code (s : severity) : Z :=
  match s with sev_error => 0 | sev_warning => 1 | sev_info => 2 | sev_debug => 3 end.
Definition level_name (s : severity) : bytes :=
  match s with
  | sev_error => lit "ERROR" | sev_warning => lit "WARN" | sev_info => lit "INFO" | sev_debug => lit "DEBUG"
  end.

Section stream.
(** The time of day as [strftime] prints it. *)
Context (stamp : bytes).

(** [add_prefix], the constructor; [error], [warning], [info] and [debug]. *)
Definition add_prefix (level os : bytes) : bytes := os ++ stamp ++ level ++ lit " ".
Definition logstream_new (valid : bool) (level : bytes) : logstream :=
  {| m_valid := valid; m_os := if valid then Some (add_prefix level []) else None |}.
Definition log_at (s : severity) : M log_world logstream :=
  let! t := gets threshold in
  ret (logstream_new (severity_code t >=? severity_code s) (level_name s)).

(** [operator<<]. *)
Definition stream_put (arg : bytes) (l : logstream) : logstream :=
  if m_valid l then {| m_valid := true; m_os := (fun b => b ++ arg) <$> m_os l |} else l.

(** [output], called by the destructor of a valid stream. *)
Definition output (ans : list wr) (l : logstream) : M log_world logstream :=
  match m_os l with
  | None => ret l
  | Some b => log ans (b ++ [x0a]) ;;! ret {| m_valid := m_valid l; m_os := None |}
  end.
Definition logstream_dtor (ans : list wr) (l : logstream) : M log_world unit :=
  when (m_valid l) (let! _ := output ans l in ret tt).

(** A statement [logger::info() << a << b;]. *)
Definition statement (s : severity) (args : list bytes) (ans : list wr) : M log_world unit :=
  let! l := log_at s in
  logstream_dtor ans (fold_left (fun l a => stream_put a l) args l).
End stream.

(** ** What happens to a log *)

Inductive log_event :=
| LStatement (stamp : bytes) (s : severity) (args : list bytes) (ans : list wr)
| LOpen (path : bytes)
| LReopen                                  (** SIGHUP *)
| LMove (from to : bytes)                  (** [mv] by an administrator *)
| LThreshold (s : severity).

(** [mv]: the file keeps its contents under another name. *)
Definition move (from to : bytes) (w : log_world) : log_world :=
  match lw_dir w !! from with
  | Some i => {| lw_dir := <[to := i]> (delete from (lw_dir w)); lw_files := lw_files w; lw_next := lw_next w;
                 lw_stderr := lw_stderr w; m_fd := m_fd w; m_path := m_path w; threshold := threshold w |}
  | None => w
  end.

Definition log_step (e : log_event) : M log_world unit :=
  match e with
  | LStatement stamp s args ans => statement stamp s args ans
  | LOpen path => log_open true path
  | LReopen => log_reopen true
  | LMove from to => modify (move from to)
  | LThreshold s => modify (set_threshold s)
  end.

(** ** The specification: lines in files *)

Record log_spec := {
  sp_dir : gmap bytes nat;
  sp_lines : gmap nat (list bytes);
  sp_next : nat;
  sp_stderr : list bytes;
  sp_current : option nat;      (** [None]: the standard error *)
  sp_path : bytes;
  sp_threshold : severity
}.

Definition the_line (stamp : bytes) (s : severity) (args : list bytes) : bytes :=
  stamp ++ level_name s ++ lit " " ++ concat args ++ [x0a].

Definition spec_line (l : bytes) (p : log_spec) : log_spec :=
  match sp_current p with
  | None => {| sp_dir := sp_dir p; sp_lines := sp_lines p; sp_next := sp_next p; sp_stderr := sp_stderr p ++ [l];
               sp_current := None; sp_path := sp_path p; sp_threshold := sp_threshold p |}
  | Some i => {| sp_dir := sp_dir p; sp_lines := <[i := default [] (sp_lines p !! i) ++ [l]]> (sp_lines p);
                 sp_next := sp_next p; sp_stderr := sp_stderr p; sp_current := Some i; sp_path := sp_path p;
                 sp_threshold := sp_threshold p |}
  end.

(** The file at a path becomes the current one; a missing file is created empty. *)
Definition spec_open (path : bytes) (p : log_spec) : log_spec :=
  match sp_dir p !! path with
  | Some i => {| sp_dir := sp_dir p; sp_lines := sp_lines p; sp_next := sp_next p; sp_stderr := sp_stderr p;
                 sp_current := Some i; sp_path := path; sp_threshold := sp_threshold p |}
  | None => {| sp_dir := <[path := sp_next p]> (sp_dir p); sp_lines := <[sp_next p := []]> (sp_lines p);
               sp_next := S (sp_next p); sp_stderr := sp_stderr p; sp_current := Some (sp_next p);
               sp_path := path; sp_threshold := sp_threshold p |}
  end.

Definition spec_step (e : log_event) (p : log_spec) : log_spec :=
  match e with
  | LStatement stamp s args _ =>
      if severity_code (sp_threshold p) >=? severity_code s then spec_line (the_line stamp s args) p else p
  | LOpen path => spec_open path p
  | LReopen => match sp_current p with None => p | Some _ => spec_open (sp_path p) p end
  | LMove from to =>
      match sp_dir p !! from with
      | Some i => {| sp_dir := <[to := i]> (delete from (sp_dir p)); sp_lines := sp_lines p; sp_next := sp_next p;
                     sp_stderr := sp_stderr p; sp_current := sp_current p; sp_path := sp_path p;
                     sp_threshold := sp_threshold p |}
      | None => p
      end
  | LThreshold s =>
      {| sp_dir := sp_dir p; sp_lines := sp_lines p; sp_next := sp_next p; sp_stderr := sp_stderr p;
         sp_current := sp_current p; sp_path := sp_path p; sp_threshold := s |}
  end.

(** ** Correctness *)

(** No [::write] fails for good, and the file is opened at most once. *)
Fixpoint events_ok (opened : bool) (es : list log_event) : Prop :=
  match es with
  | [] => True
  | LStatement _ _ _ ans :: es => Failed ∉ ans /\ events_ok opened es
  | LOpen _ :: es => opened = false /\ events_ok true es
  | _ :: es => events_ok opened es
  end.

Record log_repr (w : log_world) (p : log_spec) : Prop := {
  lr_dir : lw_dir w = sp_dir p;
  lr_files : lw_files w = (fun ls => concat ls) <$> sp_lines p;
  lr_next : lw_next w = sp_next p;
  lr_stderr : lw_stderr w = concat (sp_stderr p);
  lr_fd : m_fd w = match sp_current p with None => Stderr | Some i => File i end;
  lr_path : m_path w = sp_path p;
  lr_threshold : threshold w = sp_threshold p
}.

Lemma append_to_fd d b w : m_fd (append_to d b w) = m_fd w.
Proof. by destruct d. Qed.

Lemma append_to_twice d a b w : append_to d b (append_to d a w) = append_to d (a ++ b) w.
Proof.
  destruct d; cbn; [by rewrite app_assoc|done|]. rewrite lookup_insert_eq. cbn.
  by rewrite insert_insert_eq, app_assoc.
Qed.

Lemma log_loop_ok ans msg w :
  Failed ∉ ans -> msg <> [] -> log_loop ans msg w = (inr tt, append_to (m_fd w) msg w).
Proof.
  revert msg w. induction ans as [|[n| |] ans IH]; intros msg w Hf Hne; destruct msg as [|b msg]; try done; cbn [log_loop].
  - unfold bind, modify. set (m := b :: msg) in *. destruct (drop (S n) m) as [|c rest] eqn:Hd.
    + assert (take (S n) m = m) as -> by (rewrite <- (take_drop (S n) m) at 2; by rewrite Hd, app_nil_r).
      by destruct ans as [|[]].
    + rewrite <- Hd. rewrite IH; [|set_solver|by rewrite Hd].
      rewrite append_to_fd, append_to_twice, take_drop. done.
  - apply IH; [set_solver|done].
  - set_solver.
Qed.

Lemma log_ok ans msg w :
  Failed ∉ ans -> msg <> [] -> m_fd w <> Closed -> log ans msg w = (inr tt, append_to (m_fd w) msg w).
Proof.
  intros Hf Hne Hc. unfold log, bind, gets. rewrite (bool_decide_eq_false_2 (m_fd w = Closed)) by done. by apply log_loop_ok.
Qed.

(** The text collected in a stream. *)
Lemma stream_args args b :
  fold_left (fun l a => stream_put a l) args {| m_valid := true; m_os := Some b |} =
  {| m_valid := true; m_os := Some (b ++ concat args) |}.
Proof.
  revert b. induction args as [|a args IH]; intros b; cbn; [by rewrite app_nil_r|]. unfold stream_put. cbn.
  rewrite IH. by rewrite <- app_assoc.
Qed.

Lemma stream_silent args :
  fold_left (fun l a => stream_put a l) args {| m_valid := false; m_os := None |} = {| m_valid := false; m_os := None |}.
Proof. by induction args. Qed.

Lemma statement_ok stamp s args ans w :
  Failed ∉ ans -> m_fd w <> Closed ->
  statement stamp s args ans w =
    (inr tt, if severity_code (threshold w) >=? severity_code s then append_to (m_fd w) (the_line stamp s args) w else w).
Proof.
  intros Hf Hc. unfold statement, log_at, logstream_new, add_prefix, bind at 1 2, gets, ret. cbn [app].
  destruct (severity_code (threshold w) >=? severity_code s); [|by rewrite stream_silent].
  rewrite stream_args. unfold logstream_dtor, output. cbn [m_valid m_os when].
  assert (((stamp ++ level_name s ++ lit " ") ++ concat args) ++ [x0a] = the_line stamp s args) as ->
    by (unfold the_line; by rewrite <- !app_assoc).
  assert (the_line stamp s args <> []) as Hne.
  { unfold the_line. intros E. apply (f_equal length) in E. rewrite !length_app in E. cbn in E. lia. }
  unfold bind. by rewrite log_ok.
Qed.

Lemma append_repr w p l :
  log_repr w p -> log_repr (append_to (m_fd w) l w) (spec_line l p).
Proof.
  intros []. rewrite lr_fd0. unfold spec_line. destruct (sp_current p) as [i|] eqn:Ec; split; cbn; try done; try by rewrite Ec.
  - rewrite lr_files0, lookup_fmap, fmap_insert. f_equal. destruct (sp_lines p !! i); cbn.
    + by rewrite concat_app; cbn; rewrite app_nil_r.
    + by rewrite app_nil_r.
  - by rewrite lr_stderr0, concat_app; cbn; rewrite app_nil_r.
Qed.

(** Opening depends on the files only, not on the descriptor before. *)
Lemma open_repr path w w0 p :
  log_repr w0 p -> m_fd w = Closed \/ m_fd w = Stderr -> m_path w = path ->
  lw_dir w = lw_dir w0 -> lw_files w = lw_files w0 -> lw_next w = lw_next w0 -> lw_stderr w = lw_stderr w0 ->
  threshold w = threshold w0 ->
  exists w', open_nolock true path w = (inr tt, w') /\ log_repr w' (spec_open path p).
Proof.
  intros [] Hfd Hp H1 H2 H3 H4 H5. unfold open_nolock, bind, gets.
  assert (negb (bool_decide (m_fd w = Closed)) && negb (bool_decide (m_fd w = Stderr)) = false) as ->
    by (destruct Hfd as [-> | ->]; done).
  unfold sys_open, spec_open, modify. rewrite <- lr_dir0, <- H1. destruct (lw_dir w !! path) as [i|].
  - eexists. split; [done|]. split; cbn; congruence.
  - eexists. split; [done|]. split; cbn; try congruence. by rewrite fmap_insert, H2, lr_files0, H3, lr_next0.
Qed.

Definition opened (p : log_spec) : bool := match sp_current p with Some _ => true | None => false end.

Lemma log_step_ok e es w p :
  log_repr w p -> events_ok (opened p) (e :: es) ->
  exists w', log_step e w = (inr tt, w') /\ log_repr w' (spec_step e p) /\ events_ok (opened (spec_step e p)) es.
Proof.
  intros Hr Hok. pose proof Hr as []. destruct e as [stamp s args ans|path| |from to|s]; cbn [log_step spec_step events_ok] in *.
  - destruct Hok as [Hf Hok]. rewrite statement_ok; [|done|rewrite lr_fd0; by destruct (sp_current p)].
    rewrite lr_threshold0. destruct (severity_code (sp_threshold p) >=? severity_code s); eexists; (split; [done|]).
    + split; [by apply append_repr|]. unfold opened, spec_line in *. by destruct (sp_current p).
    + done.
  - destruct Hok as [Hop Hok]. unfold opened in Hop. destruct (sp_current p) as [i|] eqn:Ec; [done|].
    unfold log_open, bind, modify.
    destruct (open_repr path (set_path path w) w p Hr) as (w'&E1&Hw'); try done; [by right|].
    rewrite E1. eexists. split; [done|]. split; [done|]. unfold opened, spec_open. by destruct (sp_dir p !! path).
  - unfold log_reopen, opened in *. destruct (sp_current p) as [i|] eqn:Ec.
    + assert (close_nolock w = (inr tt, set_fd Closed w)) as Hcl.
      { unfold close_nolock, bind, gets. by rewrite lr_fd0. }
      unfold bind at 1, gets at 1. rewrite lr_fd0, (bool_decide_eq_false_2 (File i = Stderr)) by done.
      rewrite (bind_run _ _ _ _ _ Hcl). unfold bind, gets.
      destruct (open_repr (sp_path p) (set_fd Closed w) w p Hr) as (w'&E1&Hw'); try done; [by left|].
      cbn [m_path set_fd]. rewrite lr_path0, E1. eexists. split; [done|]. split; [done|].
      unfold spec_open. by destruct (sp_dir p !! sp_path p).
    + unfold bind, gets. rewrite lr_fd0. eexists. split; [done|]. by rewrite Ec.
  - eexists. split; [done|]. unfold move. rewrite lr_dir0. destruct (sp_dir p !! from) as [i|]; [|done].
    split; [|done]. by split; cbn; rewrite ?lr_dir0.
  - eexists. split; [done|]. split; [|done]. by split.
Qed.

Lemma log_run_ok es w p :
  log_repr w p -> events_ok (opened p) es ->
  exists w', iterM log_step es w = (inr tt, w') /\ log_repr w' (fold_left (fun p e => spec_step e p) es p).
Proof.
  revert w p. induction es as [|e es IH]; intros w p Hr Hok; [by exists w|].
  destruct (log_step_ok e es w p Hr Hok) as (w1&E1&Hr1&Hok1). destruct (IH _ _ Hr1 Hok1) as (w2&E2&Hr2).
  exists w2. cbn [iterM fold_left]. by rewrite (bind_run _ _ _ _ _ E1).
Qed.

(** A process that has just started. *)
Definition log_start (s : severity) : log_world :=
  {| lw_dir := ∅; lw_files := ∅; lw_next := 0; lw_stderr := []; m_fd := Stderr; m_path := []; threshold := s |}.
Definition spec_start (s : severity) : log_spec :=
  {| sp_dir := ∅; sp_lines := ∅; sp_next := 0; sp_stderr := []; sp_current := None; sp_path := []; sp_threshold := s |}.

(** C34: Logs hold whole lines, each in the right file.  Whatever is logged, however the
    kernel splits and interrupts the writes, and whenever the log file is moved away and
    opened again: every file, and the standard error, consists of exactly the lines
    that were logged while it was the current one and whose severity reaches the threshold of that
    moment, in order, each with its time, its level and its arguments; after a move
    and a SIGHUP the lines go to a new file at the configured path, and none is lost.
    The logger never fails while the kernel does not. *)
Theorem log_lines s es :
  events_ok false es ->
  let p := fold_left (fun p e => spec_step e p) es (spec_start s) in
  exists w, iterM log_step es (log_start s) = (inr tt, w) /\
    lw_dir w = sp_dir p /\ (forall i, lw_files w !! i = (fun ls => concat ls) <$> sp_lines p !! i) /\
    lw_stderr w = concat (sp_stderr p).
Proof.
  intros Hok p. destruct (log_run_ok es (log_start s) (spec_start s)) as (w&E1&[]); [by split|done|].
  exists w. split; [done|]. split; [done|]. split; [|done]. intros i. by rewrite lr_files0, lookup_fmap.
Qed.

(** Two lines, a rotation between them, one line too detailed for the threshold. *)
Lemma log_lines_witness :
  let t := lit "2014-01-01 00:00:00 " in
  let es := [LStatement t sev_info [lit "start"] []; LOpen (lit "/l"); LStatement t sev_info [lit "a"; lit "b"] [Wrote 3; Again; Wrote 0];
             LMove (lit "/l") (lit "/l.1"); LStatement t sev_error [lit "c"] []; LReopen;
             LStatement t sev_debug [lit "d"] []; LStatement t sev_warning [lit "e"] []] in
  events_ok false es /\
  exists w, iterM log_step es (log_start sev_info) = (inr tt, w) /\
    lw_dir w !! lit "/l.1" = Some 0%nat /\ lw_dir w !! lit "/l" = Some 1%nat /\
    lw_files w !! 0%nat = Some (t ++ lit "INFO ab" ++ [x0a] ++ t ++ lit "ERROR c" ++ [x0a]) /\
    lw_files w !! 1%nat = Some (t ++ lit "WARN e" ++ [x0a]).
Proof.
  intros t es. assert (events_ok false es) as Hok by (cbn; split_and!; try done; set_solver).
  destruct (log_lines sev_info es Hok) as (w&E1&Hd&Hf&_).
  split; [done|]. exists w. split; [done|]. rewrite Hd, !Hf. split_and!; vm_compute; reflexivity.
Defined.
