(* ===== verification/Startup.v ===== *)
(** * Starting the server (src/main.cpp, cybozu/filesystem.cpp, cybozu/thread.hpp)

    What [main] does before it serves: the command line, the configuration, locked memory,
    the group and the user of the process, the log file; and what becomes of an exception in
    the main thread and in the other threads.  The kernel's answers and the user and group
    databases are parameters.  Theorem: the server only runs with the privileges that the
    configuration asks for. *)

From S2P Require Import Prelude CLib.
From S2P Require Import MemTypes Logger Config ConfigRoundtrip.

(** ** The process and the system *)

Record process := {
  p_uid : Z;
  p_gid : Z;
  p_groups : list Z;             (** the supplementary groups *)
  p_mlocked : bool;
  p_dumpable : bool;
  p_config : config;             (** [g_config] *)
  p_seed : option (Z * Z);       (** the key of the hash function *)
  p_log : log_world;
  p_stdout : list bytes;
  p_stderr : list bytes
}.

(** [::stat]: found, or [-1] with [errno]. *)
Inductive stat_answer := StatOk | StatErrno (errno : Z).
Definition ENOMEM : Z := 12.
Definition EFAULT : Z := 14.

Record host := {
  os_random : Z * Z;
  os_stamp : bytes;                     (** the time of day, as the log prints it *)
  os_file : bytes -> option bytes;      (** the files that can be read *)
  os_stat : bytes -> stat_answer;
  os_system : system;                   (** addresses and directories, for the configuration *)
  os_getgrnam : bytes -> option Z;
  os_getpwnam : bytes -> option Z;
  os_mlockall : bool;
  os_setgid : bool;
  os_setuid : bool;
  os_prctl : bool;
  os_log_open : bool
}.

Definition set_ids (uid gid : Z) (p : process) : process :=
  {| p_uid := uid; p_gid := gid; p_groups := p_groups p; p_mlocked := p_mlocked p; p_dumpable := p_dumpable p;
     p_config := p_config p; p_seed := p_seed p; p_log := p_log p; p_stdout := p_stdout p; p_stderr := p_stderr p |}.
Definition set_mlocked (p : process) : process :=
  {| p_uid := p_uid p; p_gid := p_gid p; p_groups := p_groups p; p_mlocked := true; p_dumpable := p_dumpable p;
     p_config := p_config p; p_seed := p_seed p; p_log := p_log p; p_stdout := p_stdout p; p_stderr := p_stderr p |}.
Definition set_dumpable (p : process) : process :=
  {| p_uid := p_uid p; p_gid := p_gid p; p_groups := p_groups p; p_mlocked := p_mlocked p; p_dumpable := true;
     p_config := p_config p; p_seed := p_seed p; p_log := p_log p; p_stdout := p_stdout p; p_stderr := p_stderr p |}.
Definition set_config (c : config) (p : process) : process :=
  {| p_uid := p_uid p; p_gid := p_gid p; p_groups := p_groups p; p_mlocked := p_mlocked p; p_dumpable := p_dumpable p;
     p_config := c; p_seed := p_seed p; p_log := p_log p; p_stdout := p_stdout p; p_stderr := p_stderr p |}.
Definition set_seed (k : Z * Z) (p : process) : process :=
  {| p_uid := p_uid p; p_gid := p_gid p; p_groups := p_groups p; p_mlocked := p_mlocked p; p_dumpable := p_dumpable p;
     p_config := p_config p; p_seed := Some k; p_log := p_log p; p_stdout := p_stdout p; p_stderr := p_stderr p |}.
Definition set_log (w : log_world) (p : process) : process :=
  {| p_uid := p_uid p; p_gid := p_gid p; p_groups := p_groups p; p_mlocked := p_mlocked p; p_dumpable := p_dumpable p;
     p_config := p_config p; p_seed := p_seed p; p_log := w; p_stdout := p_stdout p; p_stderr := p_stderr p |}.
Definition say_out (b : bytes) (p : process) : process :=
  {| p_uid := p_uid p; p_gid := p_gid p; p_groups := p_groups p; p_mlocked := p_mlocked p; p_dumpable := p_dumpable p;
     p_config := p_config p; p_seed := p_seed p; p_log := p_log p; p_stdout := p_stdout p ++ [b]; p_stderr := p_stderr p |}.
Definition say_err (b : bytes) (p : process) : process :=
  {| p_uid := p_uid p; p_gid := p_gid p; p_groups := p_groups p; p_mlocked := p_mlocked p; p_dumpable := p_dumpable p;
     p_config := p_config p; p_seed := p_seed p; p_log := p_log p; p_stdout := p_stdout p; p_stderr := p_stderr p ++ [b] |}.

Definition cout (b : bytes) : M process unit := modify (say_out b).
Definition cerr (b : bytes) : M process unit := modify (say_err b).

(** A method of the logger. *)
Definition in_log {A} (m : M log_world A) : M process A := fun p =>
  let (r, w) := m (p_log p) in (r, set_log w p).

(** ** Files *)

(** The message of the generic error condition 3, [ESRCH]. *)
Definition error_condition_3 : bytes := lit "No such process".

(** [cybozu::get_stat]: whether there is such a file. *)
Definition get_stat (o : host) (path : bytes) : M process bool :=
  match os_stat o path with
  | StatOk => ret true
  | StatErrno e =>
      if (e =? EFAULT) || (e =? ENOMEM) then throw system_error else
      in_log (statement (os_stamp o) MemTypes.sev_debug
        [lit "stat failed. path="; path; lit ", error="; error_condition_3; lit " ("; to_string e; lit ")"] []) ;;!
      ret false
  end.

(** ** main.cpp *)

Section main.
Context (o : host).
(** [DEFAULT_CONFIG] is set by the build, [COPYING] is a generated header; [what] is the
    text of an exception: its type, its code and its message. *)
Context (DEFAULT_CONFIG COPYING : bytes) (what : exn -> bytes).

(** [seed_siphash]. *)
Definition seed_siphash : M process unit := modify (set_seed (os_random o)).

(** [g_config.load(path)]: whatever the loader throws is an exception here. *)
Definition load_file (path : bytes) : M process unit :=
  let! c := gets p_config in
  match config_load (os_system o) (os_file o path) c with
  | inr c => modify (set_config c)
  | inl _ => throw runtime_error
  end.

(** The argument after the first [-f]; [Some None] when there is none. *)
Fixpoint find_f (args : list bytes) : option (option bytes) :=
  match args with
  | [] => None
  | a :: args => if bool_decide (a = lit "-f") then Some (head args) else find_f args
  end.

(** The warning at the end of [load_config]. *)
Definition quoted (b : bytes) : bytes := [x22] ++ b ++ [x22].
Definition warn_erase : M process unit :=
  let! c := gets p_config in
  when (cf_secure_erase c && (cf_max_data_size c >? cf_heap_data_limit c))
    (cerr (lit "WARNING: ") ;;!
     cerr (lit "   " ++ quoted (lit "secure_erase") ++ lit " is enabled but your data may be written out to disk.") ;;!
     cerr (lit "   Consider setting " ++ quoted (lit "max_data_size") ++ lit " equal to " ++ quoted (lit "heap_data_limit") ++ lit ".")).

(** [load_config]. *)
Definition load_config (args : list bytes) : M process bool :=
  match find_f args with
  | Some None => cerr (lit "missing filename after -f") ;;! ret false
  | Some (Some path) =>
      load_file path ;;!
      warn_erase ;;!
      ret true
  | None =>
      let! found := get_stat o DEFAULT_CONFIG in
      when found (load_file DEFAULT_CONFIG) ;;!
      warn_erase ;;!
      ret true
  end.

(** The group and the user, each only when the process is root; [Some] status ends [main]. *)
Definition drop_group : M process (option Z) :=
  let! c := gets p_config in
  let g := cf_group c in
  if bool_decide (g = []) then ret None else
  let! uid := gets p_uid in
  if negb (uid =? 0) then cerr (lit "Ignored group configuration.") ;;! ret None else
  match os_getgrnam o g with
  | None => cerr (lit "No such group: " ++ g) ;;! ret (Some 1)
  | Some gid =>
      if os_setgid o then modify (fun p => set_ids (p_uid p) gid p) ;;! ret None
      else cerr (lit "Failed to set group id!") ;;! ret (Some 1)
  end.

Definition drop_user : M process (option Z) :=
  let! c := gets p_config in
  let u := cf_user c in
  if bool_decide (u = []) then ret None else
  let! uid := gets p_uid in
  if negb (uid =? 0) then cerr (lit "Ignored user configuration.") ;;! ret None else
  match os_getpwnam o u with
  | None => cerr (lit "No such user: " ++ u) ;;! ret (Some 1)
  | Some uid =>
      if os_setuid o then modify (fun p => set_ids uid (p_gid p) p) ;;! ret None
      else cerr (lit "Failed to set user id!") ;;! ret (Some 1)
  end.

(** The rest of the [try] block, in order, up to [server().serve()]. *)
Definition then_ (m : M process (option Z)) (k : M process (option Z)) : M process (option Z) :=
  let! s := m in
  match s with Some st => ret (Some st) | None => k end.

Definition lock_memory : M process unit :=
  let! c := gets p_config in
  when (cf_lock_memory c) (if os_mlockall o then modify set_mlocked else throw system_error).

Definition make_dumpable : M process unit :=
  if os_prctl o then modify set_dumpable else cerr (lit "WARNING: failed to enable core dump!").

Definition sev_of (s : Config.severity) : MemTypes.severity :=
  match s with
  | Config.sev_error => MemTypes.sev_error | Config.sev_warning => MemTypes.sev_warning
  | Config.sev_info => MemTypes.sev_info | Config.sev_debug => MemTypes.sev_debug
  end.

Definition setup_logger : M process unit :=
  let! c := gets p_config in
  in_log (modify (set_threshold (sev_of (cf_threshold c)))) ;;!
  when (negb (bool_decide (cf_logfile c = []))) (in_log (log_open (os_log_open o) (cf_logfile c))).

Definition prepare_to_serve (args : list bytes) : M process (option Z) :=
  let! ok := load_config args in
  if negb ok then ret (Some 1) else
  lock_memory ;;!
  then_ drop_group (
  then_ drop_user (
    make_dumpable ;;!
    setup_logger ;;!
    ret None)).

Definition print_help : M process unit := cout (lit "Usage: yrmcdsd [-v] [-h] [-f FILE]").
Definition print_version : M process unit := cout (VERSION ++ [x0a; x0a] ++ COPYING).

(** The two handlers: the exception goes to the log and to the standard error. *)
Definition caught (x : exn) : M process Z :=
  in_log (statement (os_stamp o) MemTypes.sev_error [what x] []) ;;!
  cerr (lit "Exception " ++ what x) ;;!
  ret 1.

(** [main]: the exit status; [serve] is [yrmcds::server().serve()]. *)
Definition main (serve : M process unit) (args : list bytes) : M process Z :=
  if bool_decide (lit "-h" ∈ args) then print_help ;;! ret 0 else
  if bool_decide (lit "-v" ∈ args) then print_version ;;! ret 0 else
  seed_siphash ;;!
  fun p =>
    match (let! s := prepare_to_serve args in
           match s with Some st => ret st | None => serve ;;! ret 0 end) p with
    | (inr st, p') => (inr st, p')
    | (inl x, p') => caught x p'
    end.
End main.

(** ** Threads other than the main thread (class thread_base) *)

Record thread := { t_joinable : bool; m_done : bool }.

(** [start]: what the new thread runs is [run_in_try]. *)
Definition thread_start (t : thread) : exn + thread :=
  if t_joinable t then inl logic_error else inr {| t_joinable := true; m_done := false |}.

(** How [run_in_try] ends: it returns, or the process exits. *)
Inductive thread_end := Returns (t : thread) | Exit (status : Z).

Definition run_in_try (o : host) (what : exn -> bytes) (exit_on_exception : Z)
    (run : M process unit) (t : thread) : M process thread_end := fun p =>
  match run p with
  | (inr _, p') => (inr (Returns {| t_joinable := t_joinable t; m_done := true |}), p')
  | (inl x, p') =>
      (in_log (statement (os_stamp o) MemTypes.sev_error [what x] []) ;;!
       ret (if negb (exit_on_exception =? 0) then Exit exit_on_exception else Returns t)) p'
  end.

(** ** What the configuration asks for *)

(** [p1], reached from [p], is allowed to serve. *)
Record privileged (o : host) (p p1 : process) : Prop := {
  pr_config : config_legal (os_system o) (lit "/var/tmp") (p_config p1);
  pr_seed : p_seed p1 = Some (os_random o);
  pr_locked : cf_lock_memory (p_config p1) = true -> p_mlocked p1 = true;
  pr_gid : p_gid p1 = if p_uid p =? 0 then
      match cf_group (p_config p1) with [] => p_gid p | g => default (-1) (os_getgrnam o g) end
    else p_gid p;
  pr_group_exists : p_uid p = 0 -> cf_group (p_config p1) <> [] -> is_Some (os_getgrnam o (cf_group (p_config p1)));
  pr_uid : p_uid p1 = if p_uid p =? 0 then
      match cf_user (p_config p1) with [] => p_uid p | u => default (-1) (os_getpwnam o u) end
    else p_uid p;
  pr_user_exists : p_uid p = 0 -> cf_user (p_config p1) <> [] -> is_Some (os_getpwnam o (cf_user (p_config p1)));
  pr_groups : p_groups p1 = p_groups p;
  pr_threshold : threshold (p_log p1) = sev_of (cf_threshold (p_config p1));
  pr_logfile : match cf_logfile (p_config p1) with
    | [] => m_fd (p_log p1) = Stderr
    | f => exists i, lw_dir (p_log p1) !! f = Some i /\ m_fd (p_log p1) = File i
    end
}.

(** ** The log stays open *)

Definition log_usable (p : process) : Prop := m_fd (p_log p) <> Closed.
Definition stays_usable {A} (m : M process A) : Prop := forall p, log_usable p -> log_usable (snd (m p)).

Lemma usable_bind {A B} (m : M process A) (k : A -> M process B) :
  stays_usable m -> (forall a, stays_usable (k a)) -> stays_usable (bind m k).
Proof.
  intros Hm Hk p Hp. specialize (Hm p Hp). unfold bind. destruct (m p) as [[x|a] p']; [done|]. by apply Hk.
Qed.
Lemma usable_ret {A} (a : A) : stays_usable (ret a).
Proof. by intros p. Qed.
Lemma usable_throw {A} x : stays_usable (A := A) (throw x).
Proof. by intros p. Qed.
Lemma usable_gets {A} (f : process -> A) : stays_usable (gets f).
Proof. by intros p. Qed.
Lemma usable_modify f : (forall p, p_log (f p) = p_log p) -> stays_usable (modify f).
Proof. intros Hf p. unfold log_usable. cbn. by rewrite Hf. Qed.
Lemma usable_cerr b : stays_usable (cerr b).
Proof. by apply usable_modify. Qed.

Lemma statement_run stamp s args w :
  m_fd w <> Closed -> exists w', statement stamp s args [] w = (inr tt, w') /\ m_fd w' = m_fd w /\
    threshold w' = threshold w /\ lw_dir w' = lw_dir w.
Proof.
  intros Hc. rewrite statement_ok; [|by apply not_elem_of_nil|done]. eexists. split; [done|].
  case_match; [|done]. by destruct (m_fd w) eqn:E.
Qed.

Lemma usable_statement stamp s args : stays_usable (in_log (statement stamp s args [])).
Proof.
  intros p Hp. destruct (statement_run stamp s args (p_log p) Hp) as (w'&E&Hf&_). unfold in_log. rewrite E.
  unfold log_usable in *. cbn. by rewrite Hf.
Qed.

Lemma usable_log_open ok path : stays_usable (in_log (log_open ok path)).
Proof.
  intros p Hp. unfold in_log, log_usable, log_open, open_nolock, bind, modify, gets in *. cbn.
  destruct (bool_decide (m_fd (p_log p) = Closed)) eqn:E; [by apply bool_decide_eq_true in E|].
  destruct (bool_decide (m_fd (p_log p) = Stderr)); cbn; [|done]. destruct ok; [|done]. cbn.
  by destruct (sys_open _ _).
Qed.

Lemma usable_threshold t : stays_usable (in_log (modify (set_threshold t))).
Proof. by intros p. Qed.

Create HintDb usable.
#[export] Hint Resolve usable_threshold usable_ret usable_throw usable_gets usable_modify usable_cerr usable_statement usable_log_open : usable.
Ltac usable :=
  repeat first [ solve [eauto with usable] | apply usable_bind; [|intros ?] | progress unfold when | case_match ].

(** ** Correctness *)

Section startup.
Context (o : host) (DEFAULT_CONFIG COPYING : bytes) (what : exn -> bytes) (localhost : ip_address).

Lemma prepare_usable args : stays_usable (prepare_to_serve o DEFAULT_CONFIG args).
Proof.
  unfold prepare_to_serve, load_config, warn_erase, lock_memory, then_, drop_group, drop_user, make_dumpable, setup_logger,
    load_file, get_stat.
  usable.
Qed.

Lemma caught_ok x p : log_usable p -> exists p', caught o what x p = (inr 1, p') /\ log_usable p'.
Proof.
  intros Hp. destruct (statement_run (os_stamp o) MemTypes.sev_error [what x] (p_log p) Hp) as (w'&E&Hf&_).
  unfold caught, bind, in_log. rewrite E. eexists. split; [done|]. unfold log_usable. cbn. by rewrite Hf.
Qed.

Lemma config_default_legal sys : config_legal sys (lit "/var/tmp") (config_default localhost).
Proof. split; try done; try (by left). Qed.

(** Each step changes its own part of the process. *)
Definition ids (p : process) := (p_uid p, p_gid p, p_groups p, p_mlocked p, p_seed p).

Let any : exn -> Prop := fun _ => True.

Definition loaded (p p' : process) : Prop :=
  ids p' = ids p /\ m_fd (p_log p') = Stderr /\ config_legal (os_system o) (lit "/var/tmp") (p_config p').

Lemma load_file_ok path p :
  p_config p = config_default localhost -> m_fd (p_log p) = Stderr ->
  wp any (load_file o path) (fun _ => loaded p) p.
Proof.
  intros Hc Hl. unfold load_file. apply wp_bind, wp_gets. rewrite Hc.
  destruct (config_load _ _ _) as [|c] eqn:E; [done|]. apply wp_modify. split; [done|]. split; [done|].
  by eapply config_load_ok.
Qed.

Lemma get_stat_ok path p :
  m_fd (p_log p) = Stderr ->
  wp any (get_stat o path) (fun _ p' => ids p' = ids p /\ p_config p' = p_config p /\ m_fd (p_log p') = Stderr) p.
Proof.
  intros Hl. unfold get_stat. destruct (os_stat o path) as [|e]; [done|]. case_match; [done|]. apply wp_bind.
  destruct (statement_run (os_stamp o) MemTypes.sev_debug [lit "stat failed. path="; path; lit ", error=";
    error_condition_3; lit " ("; to_string e; lit ")"] (p_log p)) as (w'&E&Hf&_); [by rewrite Hl|].
  unfold wp at 1, in_log. rewrite E. cbn. split; [done|]. split; [done|]. by rewrite Hf.
Qed.

Lemma warn_erase_ok p p' : loaded p p' -> wp any (warn_erase ;;! ret true) (fun ok q => ok = true /\ loaded p q) p'.
Proof. intros H. unfold warn_erase, wp, bind, gets, when. by destruct (_ && _). Qed.

Lemma load_config_ok args p :
  p_config p = config_default localhost -> m_fd (p_log p) = Stderr ->
  wp any (load_config o DEFAULT_CONFIG args) (fun ok p' => ok = true -> loaded p p') p.
Proof.
  intros Hc Hl. unfold load_config.
  assert (forall p', loaded p p' -> wp any (warn_erase ;;! ret true) (fun ok p' => ok = true -> loaded p p') p') as Hw.
  { intros p' H. eapply wp_mono; [by apply warn_erase_ok|]. by intros ok q [? ?]. }
  destruct (find_f args) as [[path|]|]; [|done|].
  - apply wp_bind. eapply wp_mono; [by apply load_file_ok|]. intros [] p1 H1. by apply Hw.
  - apply wp_bind. eapply wp_mono; [by apply get_stat_ok|]. cbn. intros found p1 (Hi&Hc1&Hl1). apply wp_bind.
    assert (forall q, loaded p1 q -> loaded p q) as Htr by (intros q (E&?); split; [by rewrite E|done]).
    destruct found; cbn [when].
    + eapply wp_mono; [apply load_file_ok; [by rewrite Hc1|done]|]. intros [] p2 H2. by apply Hw, Htr.
    + apply wp_ret, Hw, Htr. split; [done|]. split; [done|]. rewrite Hc1, Hc. apply config_default_legal.
Qed.

Lemma drop_group_ok p :
  wp any (drop_group o) (fun s p' => match s with Some st => st = 1 | None =>
    p_config p' = p_config p /\ p_log p' = p_log p /\ p_seed p' = p_seed p /\ p_mlocked p' = p_mlocked p /\
    p_groups p' = p_groups p /\ p_uid p' = p_uid p /\
    (p_gid p' = if p_uid p =? 0 then match cf_group (p_config p) with [] => p_gid p | g => default (-1) (os_getgrnam o g) end
                else p_gid p) /\
    (p_uid p = 0 -> cf_group (p_config p) <> [] -> is_Some (os_getgrnam o (cf_group (p_config p)))) end) p.
Proof.
  unfold drop_group. apply wp_bind, wp_gets. destruct (cf_group (p_config p)) as [|b g] eqn:Eg.
  - apply wp_ret. split_and!; try done. by case_match.
  - rewrite (bool_decide_eq_false_2 (b :: g = [])) by done. apply wp_bind, wp_gets. destruct (Z.eqb_spec (p_uid p) 0); cbn [negb].
    + destruct (os_getgrnam o (b :: g)) as [gid|] eqn:Eq; [|done]. destruct (os_setgid o); [|done].
      unfold wp. cbn. rewrite ?Eg, ?Eq. split_and!; try done; try (by eexists).
    + unfold wp. cbn. split_and!; done.
Qed.

Lemma drop_user_ok p :
  wp any (drop_user o) (fun s p' => match s with Some st => st = 1 | None =>
    p_config p' = p_config p /\ p_log p' = p_log p /\ p_seed p' = p_seed p /\ p_mlocked p' = p_mlocked p /\
    p_groups p' = p_groups p /\ p_gid p' = p_gid p /\
    (p_uid p' = if p_uid p =? 0 then match cf_user (p_config p) with [] => p_uid p | u => default (-1) (os_getpwnam o u) end
                else p_uid p) /\
    (p_uid p = 0 -> cf_user (p_config p) <> [] -> is_Some (os_getpwnam o (cf_user (p_config p)))) end) p.
Proof.
  unfold drop_user. apply wp_bind, wp_gets. destruct (cf_user (p_config p)) as [|b u] eqn:Eu.
  - apply wp_ret. split_and!; try done. by case_match.
  - rewrite (bool_decide_eq_false_2 (b :: u = [])) by done. apply wp_bind, wp_gets. destruct (Z.eqb_spec (p_uid p) 0); cbn [negb].
    + destruct (os_getpwnam o (b :: u)) as [uid|] eqn:Eq; [|done]. destruct (os_setuid o); [|done].
      unfold wp. cbn. rewrite ?Eu, ?Eq. split_and!; try done; try (by eexists).
    + unfold wp. cbn. split_and!; done.
Qed.

Lemma log_open_ok path w :
  m_fd w = Stderr ->
  wp any (log_open (os_log_open o) path) (fun _ w' =>
    threshold w' = threshold w /\ exists i, lw_dir w' !! path = Some i /\ m_fd w' = File i) w.
Proof.
  intros Hf. unfold log_open, open_nolock, wp, bind, modify, gets. cbn. rewrite Hf.
  rewrite (bool_decide_eq_false_2 (Stderr = Closed)), (bool_decide_eq_true_2 (Stderr = Stderr)) by done. cbn.
  destruct (os_log_open o); [|done]. unfold sys_open. cbn [lw_dir set_path]. destruct (lw_dir w !! path) as [i|] eqn:E; cbn -[lookup insert].
  - split; [done|]. by exists i.
  - split; [done|]. exists (lw_next w). by rewrite lookup_insert_eq.
Qed.

Lemma setup_logger_ok p :
  m_fd (p_log p) = Stderr ->
  wp any (setup_logger o) (fun _ p' => ids p' = ids p /\ p_config p' = p_config p /\
    threshold (p_log p') = sev_of (cf_threshold (p_config p)) /\
    match cf_logfile (p_config p) with
    | [] => m_fd (p_log p') = Stderr
    | f => exists i, lw_dir (p_log p') !! f = Some i /\ m_fd (p_log p') = File i
    end) p.
Proof.
  intros Hf. unfold setup_logger. apply wp_bind, wp_gets, wp_bind.
  set (w := set_threshold (sev_of (cf_threshold (p_config p))) (p_log p)).
  change (wp any (when (negb (bool_decide (cf_logfile (p_config p) = [])))
    (in_log (log_open (os_log_open o) (cf_logfile (p_config p))))) (fun _ p' => ids p' = ids p /\ p_config p' = p_config p /\
    threshold (p_log p') = sev_of (cf_threshold (p_config p)) /\
    match cf_logfile (p_config p) with
    | [] => m_fd (p_log p') = Stderr
    | f => exists i, lw_dir (p_log p') !! f = Some i /\ m_fd (p_log p') = File i
    end) (set_log w p)).
  destruct (cf_logfile (p_config p)) as [|b f]; [done|].
  rewrite (bool_decide_eq_false_2 (b :: f = [])) by done. cbn [negb when].
  pose proof (log_open_ok (b :: f) w Hf) as Hop. unfold wp, in_log in *. cbn [p_log set_log].
  destruct (log_open _ _ w) as [[x|[]] w']; [done|]. destruct Hop as (Ht&Hi). cbn [p_log set_log]. by rewrite Ht.
Qed.

(** A process as [execve] leaves it. *)
Definition fresh (p : process) : Prop :=
  p_config p = config_default localhost /\ m_fd (p_log p) = Stderr.

Lemma prepare_privileged args p :
  fresh p -> p_seed p = Some (os_random o) ->
  wp any (prepare_to_serve o DEFAULT_CONFIG args) (fun s p1 =>
    match s with Some st => st = 1 | None => privileged o p p1 end) p.
Proof.
  intros [Hc Hl] Hseed. unfold prepare_to_serve. apply wp_bind. eapply wp_mono; [by apply load_config_ok|].
  intros [] p1 H1; cbn [negb]; [|done]. destruct (H1 eq_refl) as (Hi&Hl1&Hleg). clear H1.
  injection Hi as Hu1 Hg1 Hgs1 Hm1 Hs1. apply wp_bind. unfold lock_memory. apply wp_bind, wp_gets.
  assert (exists b : bool, wp any (when (cf_lock_memory (p_config p1)) (if os_mlockall o then modify set_mlocked else throw system_error))
    (fun _ p2 => p2 = (if b then set_mlocked p1 else p1) /\ (cf_lock_memory (p_config p1) = true -> b = true)) p1) as [b Hb].
  { destruct (cf_lock_memory _); [exists true|exists false]; [|done]. by destruct (os_mlockall o). }
  eapply wp_mono; [exact Hb|]. cbn. intros [] p2' [-> Hlock].
  set (p2 := if b then set_mlocked p1 else p1).
  assert (ids p2 = (p_uid p1, p_gid p1, p_groups p1, p_mlocked p2, p_seed p1) /\ p_config p2 = p_config p1 /\ p_log p2 = p_log p1 /\
    (cf_lock_memory (p_config p1) = true -> p_mlocked p2 = true)) as (Hi2&Hc2&Hl2&Hm2).
  { subst p2. destruct b; split_and!; try done. intros H. by specialize (Hlock H). }
  injection Hi2 as Hu2 Hg2 Hgs2 Hs2. clearbody p2. unfold then_. apply wp_bind.
  eapply wp_mono; [apply drop_group_ok|]. cbn. intros [st|] p3; [done|].
  intros (Hc3&Hl3&Hs3&Hm3&Hgs3&Hu3&Hgid&Hgex). apply wp_bind. eapply wp_mono; [apply drop_user_ok|].
  cbn. intros [st|] p4; [done|]. intros (Hc4&Hl4&Hs4&Hm4&Hgs4&Hg4&Huid&Huex). apply wp_bind.
  set (Q := fun p5 : process => p5 = p4 \/ p5 = set_dumpable p4 \/ p5 = say_err (lit "WARNING: failed to enable core dump!") p4).
  assert (wp any (make_dumpable o) (fun _ => Q) p4) as Hd.
  { unfold make_dumpable, wp, Q. destruct (os_prctl o); cbn; auto. }
  eapply wp_mono; [exact Hd|]. cbn. intros [] p5 Hq.
  assert (ids p5 = ids p4 /\ p_config p5 = p_config p4 /\ p_log p5 = p_log p4) as (Hi5&Hc5&Hl5)
    by (destruct Hq as [-> |[-> | ->]]; done).
  apply wp_bind. eapply wp_mono; [apply setup_logger_ok; congruence|].
  cbn. intros [] p6 (Hi6&Hc6&Ht&Hf). change (privileged o p p6). rewrite Hi5 in Hi6. injection Hi6 as Hu6 Hg6 Hgs6 Hm6 Hs6.
  assert (p_config p6 = p_config p1) as Hcfg by congruence.
  assert (p_uid p2 = p_uid p) as U2 by congruence. assert (p_config p2 = p_config p1) as C2 by congruence.
  assert (p_uid p3 = p_uid p) as U3 by congruence. assert (p_config p3 = p_config p1) as C3 by congruence.
  assert (p_config p5 = p_config p1) as C5 by congruence.
  rewrite U2, C2 in *. rewrite U3, C3 in *. rewrite C5 in *.
  split; rewrite ?Hcfg; try done; try congruence.
  - intros H. rewrite Hm6, Hm4, Hm3. by apply Hm2.
  - rewrite Hg6, Hg4, Hgid. by rewrite Hg2, Hg1.
Qed.

(** C30: The server only serves with the privileges that its configuration asks for.
    Whatever the arguments, the files and the answers of the kernel, [main] does one of two
    things.  Either it never gets to [serve], and then it ends with status 1, or with 0 if
    the help or the version was asked for.  Or it serves, in a process whose configuration
    is legal, whose hash function has its random key, whose memory is locked if
    [lock_memory] says so, which logs to the configured file from the configured severity
    on, and which, if it was started by root, has the configured group and the configured
    user, both of which exist; not started by root it keeps its ids.  Its supplementary
    groups are those it was started with. An exception of [serve] is logged and makes the
    status 1. *)
Theorem startup_privileges args p :
  fresh p ->
  (exists st p', (forall serve, main o DEFAULT_CONFIG COPYING what serve args p = (inr st, p')) /\
     (st = 0 /\ (lit "-h" ∈ args \/ lit "-v" ∈ args) \/ st = 1)) \/
  (exists p1, privileged o p p1 /\ forall serve,
     main o DEFAULT_CONFIG COPYING what serve args p =
       match serve p1 with
       | (inr _, p') => (inr 0, p')
       | (inl x, p') => caught o what x p'
       end).
Proof.
  intros Hf. unfold main.
  destruct (bool_decide (lit "-h" ∈ args)) eqn:Eh.
  { left. eexists _, _. split; [done|]. left. split; [done|]. left. by apply bool_decide_eq_true in Eh. }
  destruct (bool_decide (lit "-v" ∈ args)) eqn:Ev.
  { left. eexists _, _. split; [done|]. left. split; [done|]. right. by apply bool_decide_eq_true in Ev. }
  set (q := set_seed (os_random o) p).
  assert (log_usable q) as Hq by (unfold log_usable; cbn; by rewrite (proj2 Hf)).
  pose proof (prepare_usable args q Hq) as Hu. pose proof (prepare_privileged args q Hf eq_refl) as Hp.
  unfold wp in Hp. unfold seed_siphash, bind, modify. fold q.
  destruct (prepare_to_serve o DEFAULT_CONFIG args q) as [[x|[st|]] p1].
  - left. destruct (caught_ok x p1 Hu) as (p'&E&_). exists 1, p'. by split; [|right].
  - left. subst st. eexists _, _. split; [done|by right].
  - right. exists p1. split; [by destruct Hp|]. intros serve. by destruct (serve p1) as [[x|[]] p'].
Qed.
End startup.

(** Root starts the server with a user, a group and a log file in its configuration. *)
Definition sample_host : host :=
  {| os_random := (1, 2); os_stamp := []; os_stat := fun _ => StatErrno 2; os_system := sample_system;
     os_file := fun _ => Some (lit "user = nobody" ++ x0a :: lit "group = daemon" ++ x0a :: lit "lock_memory = true" ++ x0a ::
       lit "log.file = /l" ++ [x0a]);
     os_getgrnam := fun g => if bool_decide (g = lit "daemon") then Some 7 else None;
     os_getpwnam := fun u => if bool_decide (u = lit "nobody") then Some 99 else None;
     os_mlockall := true; os_setgid := true; os_setuid := true; os_prctl := true; os_log_open := true |}.
Definition sample_process : process :=
  {| p_uid := 0; p_gid := 0; p_groups := [0]; p_mlocked := false; p_dumpable := false; p_config := config_default ip_none;
     p_seed := None; p_log := log_start MemTypes.sev_info; p_stdout := []; p_stderr := [] |}.

Lemma startup_privileges_witness :
  fresh ip_none sample_process /\
  exists p1, privileged sample_host sample_process p1 /\ p_uid p1 = 99 /\ p_gid p1 = 7 /\ p_mlocked p1 = true /\
    main sample_host (lit "/c") [] (fun _ => []) (throw runtime_error) [lit "-f"; lit "/c"] sample_process =
      caught sample_host (fun _ => []) runtime_error p1.
Proof.
  assert (fresh ip_none sample_process) as Hf by done. split; [done|].
  destruct (startup_privileges sample_host (lit "/c") [] (fun _ => []) ip_none [lit "-f"; lit "/c"] sample_process Hf)
    as [(st&p'&Hm&Hst)|(p1&Hp&Hm)].
  - exfalso. specialize (Hm (ret tt)). apply (f_equal fst) in Hm. vm_compute in Hm. injection Hm as <-.
    destruct Hst as [[_ Hin]|]; [|done]. revert Hin. apply (bool_decide_unpack _). vm_compute. exact I.
  - exists p1. split; [done|]. rewrite Hm. pose proof (Hm (ret tt)) as H. apply (f_equal snd) in H. cbn [snd ret] in H.
    pose proof (f_equal p_uid H) as Hu. pose proof (f_equal p_gid H) as Hg. pose proof (f_equal p_mlocked H) as Hl.
    vm_compute in Hu, Hg, Hl. done.
Defined.
