(* ===== verification/Network.v ===== *)
(** * Opening and accepting connections (cybozu/tcp.cpp, cybozu/ip_address.cpp, the
    listening sockets of src/memcache/handler.cpp and src/counter/handler.cpp)

    The calls that make descriptors: connecting to the master, listening, accepting. The
    kernel is a table of open descriptors, of lists of [getaddrinfo] that were not freed,
    and a count of the calls that closed or freed something twice; what it answers is a
    parameter.  The reactor is the table of the descriptors registered in it. Theorems: a
    connection attempt leaves nothing behind when it fails; the server listens on what is
    configured and nothing else; every accepted connection is registered or closed. *)

From stdpp Require Import gmap.
From S2P Require Import Prelude CLib Config.

(** ** The kernel *)

Inductive af := AF_INET | AF_INET6.
#[export] Instance af_eq_dec : EqDecision af.
Proof. solve_decision. Defined.
Inductive ai_flag := AI_PASSIVE | AI_NUMERICSERV | AI_ADDRCONFIG | AI_V4MAPPED.
Inductive eai := EAI_FAMILY | EAI_ADDRFAMILY | EAI_NODATA | EAI_NONAME | EAI_SYSTEM | EAI_OTHER.
#[export] Instance eai_eq_dec : EqDecision eai.
Proof. solve_decision. Defined.

(** A socket: what was done with it. *)
Record sock := { s_af : af; s_peer : option bytes; s_local : option bytes; s_freebind : bool; s_listening : bool }.
Definition new_sock (f : af) : sock :=
  {| s_af := f; s_peer := None; s_local := None; s_freebind := false; s_listening := false |}.

(** What the sockets of a listening socket become. *)
Inductive wrapper := MakeMemcache | MakeRepl | MakeCounter.
#[export] Instance wrapper_eq_dec : EqDecision wrapper.
Proof. solve_decision. Defined.
Inductive role := RListen (w : wrapper) | RConn (w : wrapper).

Record net := {
  k_fds : gmap nat sock;       (** the open descriptors *)
  k_infos : nat;               (** results of [getaddrinfo] not yet freed *)
  k_bad : nat;                 (** calls that closed or freed what is not open *)
  n_reg : gmap nat role;       (** [reactor::m_resources] *)
  n_readables : list nat
}.
Definition set_fds (m : gmap nat sock) (k : net) : net :=
  {| k_fds := m; k_infos := k_infos k; k_bad := k_bad k; n_reg := n_reg k; n_readables := n_readables k |}.
Definition set_infos (n : nat) (k : net) : net :=
  {| k_fds := k_fds k; k_infos := n; k_bad := k_bad k; n_reg := n_reg k; n_readables := n_readables k |}.
Definition set_bad (n : nat) (k : net) : net :=
  {| k_fds := k_fds k; k_infos := k_infos k; k_bad := n; n_reg := n_reg k; n_readables := n_readables k |}.
Definition set_reg (m : gmap nat role) (k : net) : net :=
  {| k_fds := k_fds k; k_infos := k_infos k; k_bad := k_bad k; n_reg := m; n_readables := n_readables k |}.
Definition set_net_readables (l : list nat) (k : net) : net :=
  {| k_fds := k_fds k; k_infos := k_infos k; k_bad := k_bad k; n_reg := n_reg k; n_readables := l |}.

(** The lowest descriptor that is not open. *)
Fixpoint lowest (n fd : nat) (m : gmap nat sock) : nat :=
  match n with
  | O => fd
  | S n => match m !! fd with Some _ => lowest n (S fd) m | None => fd end
  end.
Definition free_fd (m : gmap nat sock) : nat := lowest (size m) 0 m.

Definition close (fd : nat) : M net unit := modify (fun k =>
  match k_fds k !! fd with
  | Some _ => set_fds (delete fd (k_fds k)) k
  | None => set_bad (S (k_bad k)) k
  end).
Definition freeaddrinfo : M net unit := modify (fun k =>
  match k_infos k with S n => set_infos n k | O => set_bad (S (k_bad k)) k end).
Definition on_sock (fd : nat) (f : sock -> sock) : M net unit :=
  modify (fun k => set_fds (alter f fd (k_fds k)) k).

Inductive poll_answer := PollTimeout | PollError | PollReady (bad : bool).
Inductive connect_answer := Connected | InProgress | ConnectError.
Definition EAFNOSUPPORT : Z := 97.

(** The answers; [n_socket] is [errno] or nothing. *)
Record answers := {
  a_gai : af -> list ai_flag -> option bytes -> Z -> eai + bytes;
  a_socket : af -> option Z;
  a_connect : bytes -> connect_answer;
  a_poll : Z -> poll_answer;
  a_soerror : option Z;                 (** [getsockopt(SO_ERROR)]; [None]: the call failed *)
  a_freebind : bool;
  a_bind : bytes -> bool;
  a_listen : bool;
  a_epoll : bool;
  a_nameinfo : ip_address -> option bytes
}.

Section calls.
Context (a : answers).

Definition getaddrinfo (f : af) (flags : list ai_flag) (node : option bytes) (port : Z) : M net (eai + bytes) :=
  match a_gai a f flags node port with
  | inl e => ret (inl e)
  | inr addr => modify (fun k => set_infos (S (k_infos k)) k) ;;! ret (inr addr)
  end.
Definition socket (f : af) : M net (Z + nat) := fun k =>
  match a_socket a f with
  | Some e => (inr (inl e), k)
  | None => let fd := free_fd (k_fds k) in (inr (inr fd), set_fds (<[fd := new_sock f]> (k_fds k)) k)
  end.

(** ** Connecting *)

Definition gai_failed (e : eai) : exn := if bool_decide (e = EAI_SYSTEM) then system_error else runtime_error.

(** [timeout ? timeout*1000 : -1] in [unsigned int], converted to [int]. *)
Definition poll_timeout (timeout : Z) : Z :=
  let u := if timeout =? 0 then u32 (-1) else u32 (timeout * 1000) in
  if u <? 2 ^ 31 then u else u - 2 ^ 32.

(** The wait for a connection in progress. *)
Definition wait_connected (s : nat) (timeout : Z) : M net (option nat) :=
  match a_poll a (poll_timeout timeout) with
  | PollTimeout => close s ;;! ret None
  | PollError => close s ;;! throw system_error
  | PollReady true => close s ;;! ret None
  | PollReady false =>
      match a_soerror a with
      | None => close s ;;! throw system_error
      | Some e => if negb (e =? 0) then close s ;;! ret None else ret (Some s)
      end
  end.

(** [tcp_connect]; [None] is [-1]. *)
Definition tcp_connect (node : option bytes) (port timeout : Z) : M net (option nat) :=
  let! e4 := getaddrinfo AF_INET [AI_NUMERICSERV; AI_ADDRCONFIG] node port in
  let! r :=
    match e4 with
    | inl (EAI_FAMILY | EAI_ADDRFAMILY | EAI_NODATA | EAI_NONAME) =>
        let! e6 := getaddrinfo AF_INET6 [AI_NUMERICSERV; AI_V4MAPPED] node port in
        ret (AF_INET6, e6)
    | _ => ret (AF_INET, e4)
    end in
  match r with
  | (_, inl e) => throw (gai_failed e)
  | (f, inr addr) =>
      let! o := socket f in
      match o with
      | inl _ => freeaddrinfo ;;! throw system_error
      | inr s =>
          on_sock s (fun x => {| s_af := s_af x; s_peer := Some addr; s_local := s_local x;
                                 s_freebind := s_freebind x; s_listening := s_listening x |}) ;;!
          freeaddrinfo ;;!
          match a_connect a addr with
          | Connected => ret (Some s)
          | InProgress => wait_connected s timeout
          | ConnectError => close s ;;! throw system_error
          end
      end
  end.

(** ** Listening *)

(** [setup_server_socket] from the new socket on. *)
Definition bind_and_listen (addr : bytes) (freebind : bool) (s : nat) : M net nat :=
  (if freebind then
     if a_freebind a
     then on_sock s (fun x => {| s_af := s_af x; s_peer := s_peer x; s_local := s_local x; s_freebind := true;
                                 s_listening := s_listening x |})
     else close s ;;! freeaddrinfo ;;! throw system_error
   else ret tt) ;;!
  (if a_bind a addr
   then on_sock s (fun x => {| s_af := s_af x; s_peer := s_peer x; s_local := Some addr; s_freebind := s_freebind x;
                               s_listening := s_listening x |})
   else close s ;;! freeaddrinfo ;;! throw system_error) ;;!
  freeaddrinfo ;;!
  (if a_listen a
   then on_sock s (fun x => {| s_af := s_af x; s_peer := s_peer x; s_local := s_local x; s_freebind := s_freebind x;
                               s_listening := true |})
   else close s ;;! throw system_error) ;;!
  ret s.

(** From the result of [getaddrinfo] on; [IPV4] is where [goto] jumps. *)
Definition with_info (f : af) (e : eai + bytes) (freebind : bool) (IPV4 : M net nat) : M net nat :=
  match e with
  | inl e => throw (gai_failed e)
  | inr addr =>
      let! o := socket f in
      match o with
      | inl errno =>
          freeaddrinfo ;;!
          if bool_decide (f = AF_INET6) && (errno =? EAFNOSUPPORT) then IPV4 else throw system_error
      | inr s => bind_and_listen addr freebind s
      end
  end.

Definition setup_server_socket (bind_addr : option bytes) (port : Z) (freebind : bool) : M net nat :=
  let flags := [AI_PASSIVE; AI_NUMERICSERV] in
  let IPV4 :=
    let! e := getaddrinfo AF_INET flags bind_addr port in
    with_info AF_INET e freebind (throw logic_error) in
  let! e := getaddrinfo AF_INET6 flags bind_addr port in
  match e with
  | inl (EAI_FAMILY | EAI_ADDRFAMILY | EAI_NODATA) => IPV4
  | _ => with_info AF_INET6 e freebind IPV4
  end.

(** [reactor::add_resource]: when [epoll_ctl] fails the resource is destructed. *)
Definition add_resource (r : role) (epoll_ok : bool) (fd : nat) : M net unit :=
  if epoll_ok then modify (fun k => set_reg (<[fd := r]> (n_reg k)) k)
  else close fd ;;! throw system_error.

(** [ip_address::str]. *)
Definition ip_str (ip : ip_address) : M net bytes :=
  match ip with
  | ip_none => ret []
  | _ => match a_nameinfo a ip with Some s => ret s | None => throw runtime_error end
  end.

(** [m_reactor.add_resource(make_server_socket(..., port, w, freebind), EVENT_IN)]. *)
Definition listen_any (port : Z) (w : wrapper) : M net unit :=
  let! s := setup_server_socket None port false in
  add_resource (RListen w) (a_epoll a) s.
Definition listen_ip (ip : ip_address) (port : Z) (w : wrapper) (freebind : bool) : M net unit :=
  let! b := ip_str ip in
  let! s := setup_server_socket (Some b) port freebind in
  add_resource (RListen w) (a_epoll a) s.

Definition listen_on (c : config) (port : Z) (w : wrapper) : M net unit :=
  match cf_bind_ip c with
  | [] => listen_any port w
  | ips =>
      listen_ip (cf_vip c) port w true ;;!
      iterM (fun s => listen_ip s port w false) ips
  end.

(** [handler::on_start] and [handler::on_master_start] of the memcache handler, and
    [handler::on_master_start] of the counter handler. *)
Definition memcache_on_start (c : config) : M net unit := listen_on c (cf_port c) MakeMemcache.
Definition memcache_on_master_start (c : config) : M net unit := listen_on c (cf_repl_port c) MakeRepl.
Definition counter_on_master_start (c : config) : M net unit := listen_on c (cc_port (cf_counter c)) MakeCounter.

(** The handlers of the server: what they do at the start of [serve] and of
    [serve_master]. *)
Definition serve_start (c : config) : M net unit := memcache_on_start c.
Definition master_start (c : config) : M net unit :=
  memcache_on_master_start c ;;!
  when (cc_enable (cf_counter c)) (counter_on_master_start c).
End calls.

(** ** Accepting (tcp_server_socket::on_readable) *)

Inductive accept_errno := ACC_EINTR | ACC_ECONNABORTED | ACC_EMFILE | ACC_ENFILE | ACC_EAGAIN | ACC_EWOULDBLOCK | ACC_OTHER.

(** One [accept4]: a connection, whether its address is an IP address, whether the handler wants
    it, and whether its constructor and [epoll_ctl] succeed; or an error. *)
Record connection := { c_peer : bytes; c_ip : bool; c_wanted : bool; c_ctor : bool; c_epoll : bool }.
Inductive accept_answer := Accepted (c : connection) | AcceptError (e : accept_errno).

Definition accept_fd (c : connection) : M net nat := fun k =>
  let fd := free_fd (k_fds k) in
  (inr fd, set_fds (<[fd := {| s_af := AF_INET6; s_peer := Some (c_peer c); s_local := None; s_freebind := false;
                              s_listening := false |}]> (k_fds k)) k).

(** [m_wrapper]: a constructor that throws destructs the part of the socket that is there,
    [~resource] closes the descriptor. *)
Definition wrap (w : wrapper) (c : connection) (s : nat) : M net bool :=
  if negb (c_ip c) then throw runtime_error else
  if negb (c_wanted c) then ret false else
  if c_ctor c then ret true else close s ;;! throw system_error.

Definition take_in (w : wrapper) (c : connection) (s : nat) : M net unit :=
  let! t := wrap w c s in
  if (t : bool) then add_resource (RConn w) (c_epoll c) s else close s.

(** [try { ... } catch( ... ) { h; throw; }] *)
Definition on_exception {A} (m : M net A) (h : M net unit) : M net A := fun k =>
  match m k with
  | (inl x, k') => (h ;;! throw x) k'
  | r => r
  end.

(** The loop; when the answers run out there is no connection left. *)
Fixpoint accept_loop (w : wrapper) (fd : nat) (ans : list accept_answer) : M net unit :=
  match ans with
  | [] => ret tt
  | AcceptError (ACC_EINTR | ACC_ECONNABORTED) :: ans => accept_loop w fd ans
  | AcceptError (ACC_EMFILE | ACC_ENFILE) :: _ => modify (fun k => set_net_readables (n_readables k ++ [fd]) k)
  | AcceptError (ACC_EAGAIN | ACC_EWOULDBLOCK) :: _ => ret tt
  | AcceptError ACC_OTHER :: _ => throw system_error
  | Accepted c :: ans =>
      let! s := accept_fd c in
      on_exception (take_in w c s) (close s) ;;!
      accept_loop w fd ans
  end.
Definition accept_on_readable (w : wrapper) (fd : nat) (ans : list accept_answer) : M net bool :=
  accept_loop w fd ans ;;! ret true.

(** ** Lemmas: descriptors *)

Lemma lowest_used n fd m :
  is_Some (m !! lowest n fd m) -> forall i, (i <= n)%nat -> is_Some (m !! (fd + i)%nat).
Proof.
  revert fd. induction n as [|n IH]; intros fd H i Hi; cbn in H.
  - by replace (fd + i)%nat with fd by lia.
  - destruct (m !! fd) as [x|] eqn:E; [|by rewrite E in H; destruct H].
    destruct i as [|i]; [by rewrite Nat.add_0_r, E|]. rewrite <- Nat.add_succ_comm. apply IH; [done|lia].
Qed.

Lemma free_fd_fresh m : m !! free_fd m = None.
Proof.
  destruct (m !! free_fd m) as [x|] eqn:E; [|done]. exfalso.
  assert (list_to_set (seq 0 (S (size m))) ⊆@{gset nat} dom m) as Hsub.
  { intros i Hi. apply elem_of_list_to_set, elem_of_seq in Hi. apply elem_of_dom.
    apply (lowest_used (size m) 0 m); [|lia]. unfold free_fd in E. by rewrite E. }
  apply subseteq_size in Hsub. rewrite size_list_to_set, length_seq, size_dom in Hsub by apply NoDup_seq. lia.
Qed.

(** ** Lemmas: nothing is left behind

    [cwp k0 m Q k]: from [k], [m] returns with [Q], or throws having restored [k0]. *)

Definition cwp {A} (k0 : net) (m : M net A) (Q : A -> net -> Prop) (k : net) : Prop :=
  match m k with
  | (inl _, k') => k' = k0
  | (inr v, k') => Q v k'
  end.

Section cwp.
Context (k0 : net).
Lemma cwp_bind {A B} (m : M net A) (f : A -> M net B) Q k :
  cwp k0 m (fun v k' => cwp k0 (f v) Q k') k -> cwp k0 (bind m f) Q k.
Proof. unfold cwp, bind. by destruct (m k) as [[x|v] k']. Qed.
Lemma cwp_mono {A} (m : M net A) (P Q : A -> net -> Prop) k :
  cwp k0 m P k -> (forall v k', P v k' -> Q v k') -> cwp k0 m Q k.
Proof. unfold cwp. intros H HPQ. destruct (m k) as [[x|v] k']; [done|by apply HPQ]. Qed.
Lemma cwp_ret {A} (v : A) (Q : A -> net -> Prop) k : Q v k -> cwp k0 (ret v) Q k.
Proof. done. Qed.
Lemma cwp_throw {A} x (Q : A -> net -> Prop) : cwp k0 (throw x) Q k0.
Proof. done. Qed.

(** [k0] with a new socket [s] and [n] results of [getaddrinfo]. *)
Definition with_sock (n s : nat) (x : sock) : net :=
  {| k_fds := <[s := x]> (k_fds k0); k_infos := n; k_bad := k_bad k0; n_reg := n_reg k0; n_readables := n_readables k0 |}.

Lemma cwp_on_sock n s x f (Q : unit -> net -> Prop) :
  Q tt (with_sock n s (f x)) -> cwp k0 (on_sock s f) Q (with_sock n s x).
Proof.
  unfold cwp, on_sock, modify, set_fds, with_sock. cbn. by rewrite alter_insert_eq.
Qed.
Lemma cwp_free n s x (Q : unit -> net -> Prop) :
  Q tt (with_sock n s x) -> cwp k0 freeaddrinfo Q (with_sock (S n) s x).
Proof. done. Qed.
Lemma cwp_free_only (Q : unit -> net -> Prop) :
  Q tt k0 -> cwp k0 freeaddrinfo Q (set_infos (S (k_infos k0)) k0).
Proof. unfold cwp, freeaddrinfo, modify, set_infos. cbn. by destruct k0. Qed.
Lemma cwp_close n s x (Q : unit -> net -> Prop) :
  k_fds k0 !! s = None -> Q tt (set_infos n k0) -> cwp k0 (close s) Q (with_sock n s x).
Proof.
  intros Hf HQ. unfold cwp, close, modify, set_fds. cbn. rewrite lookup_insert_eq. cbn.
  by rewrite delete_insert_id.
Qed.
(** Closing the socket restores everything, before and after the list is freed. *)
Lemma cwp_give_up {A} s x (m : M net A) Q :
  k_fds k0 !! s = None -> cwp k0 m Q k0 -> cwp k0 (close s ;;! m) Q (with_sock (k_infos k0) s x).
Proof. intros Hf Hm. apply cwp_bind, cwp_close; [done|]. by destruct k0. Qed.
Lemma cwp_give_up_info {A} s x (m : M net A) Q :
  k_fds k0 !! s = None -> cwp k0 m Q k0 -> cwp k0 (close s ;;! freeaddrinfo ;;! m) Q (with_sock (S (k_infos k0)) s x).
Proof. intros Hf Hm. apply cwp_bind, cwp_close; [done|]. by apply cwp_bind, cwp_free_only. Qed.

Lemma cwp_getaddrinfo a f flags node port (Q : eai + bytes -> net -> Prop) :
  (forall e, a_gai a f flags node port = inl e -> Q (inl e) k0) ->
  (forall addr, a_gai a f flags node port = inr addr -> Q (inr addr) (set_infos (S (k_infos k0)) k0)) ->
  cwp k0 (getaddrinfo a f flags node port) Q k0.
Proof. intros H1 H2. unfold cwp, getaddrinfo. destruct (a_gai a f flags node port); [by apply H1|by apply H2]. Qed.
Lemma cwp_socket a f (Q : Z + nat -> net -> Prop) :
  (forall e, Q (inl e) (set_infos (S (k_infos k0)) k0)) ->
  (forall s, k_fds k0 !! s = None -> Q (inr s) (with_sock (S (k_infos k0)) s (new_sock f))) ->
  cwp k0 (socket a f) Q (set_infos (S (k_infos k0)) k0).
Proof.
  intros H1 H2. unfold cwp, socket. destruct (a_socket a f); [by apply H1|]. apply H2. apply free_fd_fresh.
Qed.
End cwp.

(** ** Connecting *)

Section connecting.
Context (a : answers) (k : net).

(** When an attempt to connect to an address succeeds. *)
Definition established (timeout : Z) (addr : bytes) : Prop :=
  a_connect a addr = Connected \/
  a_connect a addr = InProgress /\ a_poll a (poll_timeout timeout) = PollReady false /\ a_soerror a = Some 0.

Definition connected_to (node : option bytes) (port timeout : Z) (o : option nat) (k' : net) : Prop :=
  match o with
  | None => k' = k
  | Some s => exists f flags addr, a_gai a f flags node port = inr addr /\ established timeout addr /\
      k_fds k !! s = None /\
      k' = with_sock k (k_infos k) s {| s_af := f; s_peer := Some addr; s_local := None; s_freebind := false; s_listening := false |}
  end.

Lemma wait_ok s x timeout (Q : option nat -> net -> Prop) :
  k_fds k !! s = None -> Q None k ->
  (a_poll a (poll_timeout timeout) = PollReady false -> a_soerror a = Some 0 -> Q (Some s) (with_sock k (k_infos k) s x)) ->
  cwp k (wait_connected a s timeout) Q (with_sock k (k_infos k) s x).
Proof.
  intros Hs HN HS. unfold wait_connected. destruct (a_poll a (poll_timeout timeout)) as [| |[]]; try by apply cwp_give_up.
  destruct (a_soerror a) as [e|]; [|by apply cwp_give_up].
  destruct (Z.eqb_spec e 0) as [-> |]; [by apply HS|by apply cwp_give_up].
Qed.

(** What the two calls of [getaddrinfo] come to. *)
Definition resolved (node : option bytes) (port : Z) (r : af * (eai + bytes)) (k' : net) : Prop :=
  match r with
  | (_, inl _) => k' = k
  | (f, inr addr) => (exists flags, a_gai a f flags node port = inr addr) /\ k' = set_infos (S (k_infos k)) k
  end.

Lemma tcp_connect_ok node port timeout :
  cwp k (tcp_connect a node port timeout) (connected_to node port timeout) k.
Proof.
  unfold tcp_connect. apply cwp_bind.
  apply (cwp_mono _ _ (fun e => resolved node port (AF_INET, e))).
  { apply cwp_getaddrinfo; cbn; eauto. }
  intros e4 k4 H4. apply cwp_bind. apply (cwp_mono _ _ (resolved node port)).
  { destruct e4 as [[]|]; try done; cbn in H4; subst; apply cwp_bind, cwp_getaddrinfo; intros; apply cwp_ret; cbn; eauto. }
  clear e4 k4 H4. intros [f [e|addr]] k' H; [cbn in H; subst; apply cwp_throw|]. destruct H as [[flags Hg] ->].
  apply cwp_bind, cwp_socket; [intros e; apply cwp_bind, cwp_free_only, cwp_throw|]. intros s Hs.
  apply cwp_bind, cwp_on_sock, cwp_bind, cwp_free. cbn. destruct (a_connect a addr) eqn:Ec.
  - apply cwp_ret. exists f, flags, addr. split_and!; [done|by left|done..].
  - apply wait_ok; [done..|]. intros Hp He. exists f, flags, addr. split_and!; [done|by right|done..].
  - by apply cwp_give_up.
Qed.
End connecting.

(** C33: Connecting leaves nothing behind.  [tcp_connect] either returns a new descriptor of
    a socket connected to an address that the node resolves to, or, when it returns [-1] and
    also when it throws, whatever call failed and with IPv4 and IPv6, the open descriptors
    and the lists of [getaddrinfo] are exactly those of before; nothing is closed or freed
    twice. *)
Theorem connect_clean a node port timeout k :
  match tcp_connect a node port timeout k with
  | (inr (Some s), k') => exists f flags addr,
      a_gai a f flags node port = inr addr /\ established a timeout addr /\ k_fds k !! s = None /\
      k_fds k' = <[s := {| s_af := f; s_peer := Some addr; s_local := None; s_freebind := false; s_listening := false |}]> (k_fds k) /\
      k_infos k' = k_infos k /\ k_bad k' = k_bad k
  | (_, k') => k' = k
  end.
Proof.
  pose proof (tcp_connect_ok a k node port timeout) as H. unfold cwp in H.
  destruct (tcp_connect a node port timeout k) as [[x|[s|]] k']; [done| |done].
  destruct H as (f&flags&addr&Hg&He&Hs&->). by exists f, flags, addr.
Qed.

(** ** Listening *)

(** An address to listen on, and what the connections become. *)
Record endpoint := { e_node : option bytes; e_port : Z; e_freebind : bool; e_wrapper : wrapper }.

Section listening.
Context (a : answers).

(** A listening socket of an endpoint. *)
Definition listens (e : endpoint) (x : sock) : Prop :=
  exists f addr, a_gai a f [AI_PASSIVE; AI_NUMERICSERV] (e_node e) (e_port e) = inr addr /\
    x = {| s_af := f; s_peer := None; s_local := Some addr; s_freebind := e_freebind e; s_listening := true |}.

Lemma bind_and_listen_ok k addr freebind s f (Q : nat -> net -> Prop) :
  k_fds k !! s = None ->
  Q s (with_sock k (k_infos k) s {| s_af := f; s_peer := None; s_local := Some addr; s_freebind := freebind; s_listening := true |}) ->
  cwp k (bind_and_listen a addr freebind s) Q (with_sock k (S (k_infos k)) s (new_sock f)).
Proof.
  intros Hs HQ. unfold bind_and_listen. apply cwp_bind.
  apply (cwp_mono _ _ (fun _ k' => k' = with_sock k (S (k_infos k)) s
    {| s_af := f; s_peer := None; s_local := None; s_freebind := freebind; s_listening := false |})).
  { destruct freebind; [|by apply cwp_ret]. destruct (a_freebind a); [by apply cwp_on_sock|by apply cwp_give_up_info]. }
  intros _ ? ->. apply cwp_bind. destruct (a_bind a addr); [|by apply cwp_give_up_info]. apply cwp_on_sock, cwp_bind, cwp_free, cwp_bind.
  destruct (a_listen a); [|by apply cwp_give_up]. by apply cwp_on_sock, cwp_ret.
Qed.

Lemma setup_server_socket_ok k e :
  cwp k (setup_server_socket a (e_node e) (e_port e) (e_freebind e)) (fun s k' =>
    k_fds k !! s = None /\ exists x, listens e x /\ k' = with_sock k (k_infos k) s x) k.
Proof.
  unfold setup_server_socket. set (Q := fun (s : nat) (k' : net) => _).
  assert (forall f r k' IPV4, (match r with inl _ => k' = k | inr addr =>
      a_gai a f [AI_PASSIVE; AI_NUMERICSERV] (e_node e) (e_port e) = inr addr /\ k' = set_infos (S (k_infos k)) k end) ->
    cwp k IPV4 Q k -> cwp k (with_info a f r (e_freebind e) IPV4) Q k') as Hw.
  { intros f [er|addr] k' IPV4 Hr HI; [subst; apply cwp_throw|]. destruct Hr as [Hg ->]. apply cwp_bind, cwp_socket.
    - intros errno. apply cwp_bind, cwp_free_only. case_match; [done|apply cwp_throw].
    - intros s Hs. apply bind_and_listen_ok; [done|]. split; [done|]. eexists. split; [|done]. by exists f, addr. }
  assert (cwp k (let! r := getaddrinfo a AF_INET [AI_PASSIVE; AI_NUMERICSERV] (e_node e) (e_port e) in
    with_info a AF_INET r (e_freebind e) (throw logic_error)) Q k) as H4.
  { apply cwp_bind, cwp_getaddrinfo; intros; (apply Hw; [done|apply cwp_throw]). }
  apply cwp_bind, cwp_getaddrinfo.
  - intros [] _; try apply H4; by apply Hw.
  - intros addr Hg. by apply Hw.
Qed.

(** ** What is configured *)

Definition node_of (ip : ip_address) : option bytes :=
  Some (match ip with ip_none => [] | _ => default [] (a_nameinfo a ip) end).

Definition endpoints_at (c : config) (port : Z) (w : wrapper) : list endpoint :=
  match cf_bind_ip c with
  | [] => [{| e_node := None; e_port := port; e_freebind := false; e_wrapper := w |}]
  | ips =>
      {| e_node := node_of (cf_vip c); e_port := port; e_freebind := true; e_wrapper := w |} ::
      map (fun ip => {| e_node := node_of ip; e_port := port; e_freebind := false; e_wrapper := w |}) ips
  end.
Definition client_endpoints (c : config) : list endpoint := endpoints_at c (cf_port c) MakeMemcache.
Definition master_endpoints (c : config) : list endpoint :=
  endpoints_at c (cf_repl_port c) MakeRepl ++
  (if cc_enable (cf_counter c) then endpoints_at c (cc_port (cf_counter c)) MakeCounter else []).

(** One more registered listening socket; several. *)
Definition opened (e : endpoint) (k k' : net) : Prop :=
  exists s x, k_fds k !! s = None /\ listens e x /\
    k' = set_reg (<[s := RListen (e_wrapper e)]> (n_reg k)) (with_sock k (k_infos k) s x).
Inductive opens : net -> list endpoint -> net -> Prop :=
| opens_nil k : opens k [] k
| opens_cons k e k' es k'' : opened e k k' -> opens k' es k'' -> opens k (e :: es) k''.

Lemma opens_app k es k' es' k'' : opens k es k' -> opens k' es' k'' -> opens k (es ++ es') k''.
Proof. induction 1; [done|]. intros. econstructor; eauto. Qed.

(** [m] opens [es]; if it throws, the first of them. *)
Definition opening (m : M net unit) (es : list endpoint) : Prop := forall k,
  match m k with
  | (inr _, k') => opens k es k'
  | (inl _, k') => exists l, l `prefix_of` es /\ opens k l k'
  end.

Lemma opening_bind m es n es' : opening m es -> opening n es' -> opening (m ;;! n) (es ++ es').
Proof.
  intros Hm Hn k. specialize (Hm k). unfold bind. destruct (m k) as [[x|[]] k'].
  - destruct Hm as (l&Hl&Ho). exists l. split; [by apply prefix_app_r|done].
  - specialize (Hn k'). destruct (n k') as [[x|[]] k''].
    + destruct Hn as (l&Hl&Ho). exists (es ++ l). split; [by apply prefix_app|by eapply opens_app].
    + by eapply opens_app.
Qed.
Lemma opening_ret : opening (ret tt) [].
Proof. intros k. constructor. Qed.
Lemma opening_iter {A} (f : A -> M net unit) (g : A -> endpoint) l :
  (forall v, opening (f v) [g v]) -> opening (iterM f l) (map g l).
Proof. intros Hf. induction l as [|v l IH]; [apply opening_ret|]. exact (opening_bind _ _ _ _ (Hf v) IH). Qed.
Lemma opening_cwp m e : (forall k, cwp k m (fun _ => opened e k) k) -> opening m [e].
Proof.
  intros Hm k. specialize (Hm k). unfold cwp in Hm. destruct (m k) as [[x|v] k'].
  - subst. exists []. split; [by apply prefix_nil|constructor].
  - econstructor; [done|constructor].
Qed.

Lemma register_ok k e s x :
  k_fds k !! s = None -> listens e x ->
  cwp k (add_resource (RListen (e_wrapper e)) (a_epoll a) s) (fun _ => opened e k) (with_sock k (k_infos k) s x).
Proof.
  intros Hs Hx. unfold add_resource. destruct (a_epoll a); [by exists s, x|by apply cwp_give_up].
Qed.

Lemma listen_any_ok port w :
  opening (listen_any a port w) [{| e_node := None; e_port := port; e_freebind := false; e_wrapper := w |}].
Proof.
  apply opening_cwp. intros k. set (e := {| e_node := None |}). apply cwp_bind.
  eapply cwp_mono; [apply (setup_server_socket_ok k e)|]. cbn. intros s ? (Hs&x&Hx&->). by apply (register_ok k e).
Qed.
Lemma listen_ip_ok ip port w fb :
  opening (listen_ip a ip port w fb) [{| e_node := node_of ip; e_port := port; e_freebind := fb; e_wrapper := w |}].
Proof.
  apply opening_cwp. intros k. set (e := {| e_node := node_of ip |}). apply cwp_bind.
  assert (cwp k (ip_str a ip) (fun b k' => k' = k /\ Some b = node_of ip) k) as Hip.
  { unfold ip_str, node_of. destruct ip; [done|..]; by destruct (a_nameinfo a _). }
  eapply cwp_mono; [exact Hip|]. cbn. intros b ? [-> ->]. apply cwp_bind.
  eapply cwp_mono; [apply (setup_server_socket_ok k e)|]. cbn. intros s ? (Hs&x&Hx&->). by apply (register_ok k e).
Qed.
Lemma listen_on_ok c port w : opening (listen_on a c port w) (endpoints_at c port w).
Proof.
  unfold listen_on, endpoints_at. destruct (cf_bind_ip c) as [|ip ips]; [apply listen_any_ok|].
  apply (opening_bind _ [_]); [apply listen_ip_ok|]. apply opening_iter. intros v. apply listen_ip_ok.
Qed.
Lemma opening_master_start c : opening (master_start a c) (master_endpoints c).
Proof.
  apply opening_bind; [apply listen_on_ok|]. destruct (cc_enable (cf_counter c)); [apply listen_on_ok|apply opening_ret].
Qed.

(** The sockets that were opened, in one view. *)
Record listening (k : net) (es : list endpoint) (fds : list nat) (k' : net) : Prop := {
  li_distinct : NoDup fds;
  li_each : Forall2 (fun fd e => k_fds k !! fd = None /\ n_reg k' !! fd = Some (RListen (e_wrapper e)) /\
    exists x, listens e x /\ k_fds k' !! fd = Some x) fds es;
  li_others : forall fd, fd ∉ fds -> k_fds k' !! fd = k_fds k !! fd /\ n_reg k' !! fd = n_reg k !! fd;
  li_clean : k_infos k' = k_infos k /\ k_bad k' = k_bad k
}.

Lemma opens_listening k es k' : opens k es k' -> exists fds, listening k es fds k'.
Proof.
  induction 1 as [k|k e k1 es k2 (s&x&Hs&Hx&->) _ (fds&[Hd He Ho Hc])].
  { exists []. split; [by constructor|by constructor|done|done]. }
  assert (s ∉ fds) as Hin.
  { intros Hin. apply list_elem_of_lookup in Hin as [i Hi]. destruct (Forall2_lookup_l _ _ _ _ _ He Hi) as (e'&_&Hf&_).
    cbn in Hf. by rewrite lookup_insert_eq in Hf. }
  exists (s :: fds). split; [by constructor| | |done].
  - constructor.
    + destruct (Ho s Hin) as [-> ->]. cbn. rewrite !lookup_insert_eq. eauto 10.
    + eapply Forall2_impl; [exact He|]. cbn. intros fd e' (Hf&Hr). split; [|done].
      destruct (decide (fd = s)) as [-> |]; [done|]. by rewrite lookup_insert_ne in Hf.
  - intros fd Hfd. apply not_elem_of_cons in Hfd as [Hne Hfd]. destruct (Ho fd Hfd) as [-> ->]. cbn.
    by rewrite !lookup_insert_ne.
Qed.
End listening.

(** C31: The server listens on what is configured.  When [serve] and [serve_master] have
    started, there is one listening socket for each configured endpoint, bound to an address
    that its node resolves to and registered in the reactor with the right kind of
    connections: without [bind_ip] any address, otherwise the virtual address (bound even if
    the machine does not have it, so that a slave can take over) and every [bind_ip]; the
    memcache port, then the replication port, then, if enabled, the counter port.  Nothing
    else is opened or registered, and a failure throws after a prefix of them, each of which
    is registered. *)
Theorem listens_as_configured a c k :
  match (serve_start a c ;;! master_start a c) k with
  | (inr _, k') => exists fds, listening a k (client_endpoints a c ++ master_endpoints a c) fds k'
  | (inl _, k') => exists l fds, l `prefix_of` client_endpoints a c ++ master_endpoints a c /\ listening a k l fds k'
  end.
Proof.
  pose proof (opening_bind a _ _ _ _ (listen_on_ok a c (cf_port c) MakeMemcache) (opening_master_start a c) k) as H.
  unfold serve_start, memcache_on_start. destruct (bind _ _ k) as [[x|v] k'].
  - destruct H as (l&Hl&Ho). destruct (opens_listening a k l k' Ho) as [fds Hf]. by exists l, fds.
  - by apply opens_listening.
Qed.

(** ** Accepting *)

(** Whatever is open is registered. *)
Definition owned (k : net) : Prop := dom (n_reg k) = dom (k_fds k).

(** A wanted connection whose socket cannot be made, or cannot be registered. *)
Definition broken (c : connection) : bool := c_wanted c && negb (c_ctor c && c_epoll c).

(** The connections that a call of [on_readable] gets to. *)
Fixpoint taken (ans : list accept_answer) : list connection :=
  match ans with
  | [] => []
  | AcceptError (ACC_EINTR | ACC_ECONNABORTED) :: ans => taken ans
  | AcceptError _ :: _ => []
  | Accepted c :: ans => c :: (if c_ip c && negb (broken c) then taken ans else [])
  end.
(** How it ends: no connection is left, no descriptor is left, an exception, an exception
    after which the descriptor is closed twice. *)
Inductive stop := Drained | Exhausted | Raised (x : exn) | ClosedTwice.
Fixpoint stop_of (ans : list accept_answer) : stop :=
  match ans with
  | [] => Drained
  | AcceptError (ACC_EINTR | ACC_ECONNABORTED) :: ans => stop_of ans
  | AcceptError (ACC_EMFILE | ACC_ENFILE) :: _ => Exhausted
  | AcceptError (ACC_EAGAIN | ACC_EWOULDBLOCK) :: _ => Drained
  | AcceptError ACC_OTHER :: _ => Raised system_error
  | Accepted c :: ans =>
      if negb (c_ip c) then Raised runtime_error else
      if broken c then ClosedTwice else stop_of ans
  end.
Definition outcome_of {A} (a : A) (st : stop) : exn + A :=
  match st with Raised x => inl x | ClosedTwice => inl system_error | _ => inr a end.
Definition again_of (fd : nat) (st : stop) : list nat := match st with Exhausted => [fd] | _ => [] end.
Definition twice_of (st : stop) : nat := match st with ClosedTwice => 1 | _ => 0 end.

Definition kept_conns (ans : list accept_answer) : list connection :=
  filter (fun c => c_ip c && c_wanted c && negb (broken c) = true) (taken ans).

(** [k'] has the new connections [l], on new descriptors. *)
Record admitted (w : wrapper) (l : list connection) (fds : list nat) (k k' : net) : Prop := {
  ad_distinct : NoDup fds;
  ad_each : Forall2 (fun fd c => k_fds k !! fd = None /\ n_reg k' !! fd = Some (RConn w) /\
    exists x, k_fds k' !! fd = Some x /\ s_peer x = Some (c_peer c)) fds l;
  ad_others : forall fd, fd ∉ fds -> k_fds k' !! fd = k_fds k !! fd /\ n_reg k' !! fd = n_reg k !! fd
}.

Lemma admitted_nil w k k' :
  k_fds k' = k_fds k -> n_reg k' = n_reg k -> admitted w [] [] k k'.
Proof. intros H1 H2. split; [by constructor|by constructor|]. intros fd _. by rewrite H1, H2. Qed.

Lemma admitted_owned w l fds k k' : admitted w l fds k k' -> owned k -> owned k'.
Proof.
  intros [Hd He Ho] Hr. apply set_eq. intros fd.
  destruct (decide (fd ∈ fds)) as [Hin|Hin].
  - apply list_elem_of_lookup in Hin as [i Hi]. destruct (Forall2_lookup_l _ _ _ _ _ He Hi) as (c&_&_&Hreg&x&Hx&_).
    rewrite !elem_of_dom, Hreg, Hx. split; eauto.
  - rewrite !elem_of_dom. destruct (Ho fd Hin) as [-> ->]. by rewrite <- !elem_of_dom, Hr.
Qed.

(** One connection: it is registered, closed, or closed twice. *)
Lemma taken_in_or_closed w c k s k1 :
  accept_fd c k = (inr s, k1) ->
  k_fds k !! s = None /\
  on_exception (take_in w c s) (close s) k1 =
    (if negb (c_ip c) then (inl runtime_error, k) else
     if broken c then (inl system_error, set_bad (S (k_bad k)) k) else
     (inr tt, if c_wanted c then set_reg (<[s := RConn w]> (n_reg k)) k1 else k)).
Proof.
  intros E. injection E as <- <-. split; [apply free_fd_fresh|].
  assert (forall x, match <[free_fd (k_fds k) := x]> (k_fds k) !! free_fd (k_fds k) with
    | Some _ => set_fds (delete (free_fd (k_fds k)) (<[free_fd (k_fds k) := x]> (k_fds k)))
        (set_fds (<[free_fd (k_fds k) := x]> (k_fds k)) k)
    | None => set_bad (S (k_bad k)) (set_fds (<[free_fd (k_fds k) := x]> (k_fds k)) k) end = k) as Hc.
  { intros x. rewrite lookup_insert_eq. unfold set_fds. cbn. rewrite delete_insert_id by apply free_fd_fresh. by destruct k. }
  unfold on_exception, take_in, wrap, broken, bind. destruct (c_ip c); cbn.
  - destruct (c_wanted c); cbn; [|by rewrite Hc].
    destruct (c_ctor c); cbn; [destruct (c_epoll c); cbn; [done|]|]; rewrite Hc; by rewrite free_fd_fresh.
  - by rewrite Hc.
Qed.

Lemma admitted_cons w c l s fds k k1 k' :
  k_fds k !! s = None -> admitted w l fds k1 k' ->
  (exists x, k_fds k1 = <[s := x]> (k_fds k) /\ s_peer x = Some (c_peer c)) -> n_reg k1 = <[s := RConn w]> (n_reg k) ->
  admitted w (c :: l) (s :: fds) k k'.
Proof.
  intros Hs [Hd He Ho] (x&Hf&Hp) Hr.
  assert (s ∉ fds) as Hin.
  { intros Hin. apply list_elem_of_lookup in Hin as [i Hi]. destruct (Forall2_lookup_l _ _ _ _ _ He Hi) as (c'&_&Hn&_).
    by rewrite Hf, lookup_insert_eq in Hn. }
  split; [by constructor| |].
  - constructor.
    + destruct (Ho s Hin) as [-> ->]. rewrite Hf, Hr, !lookup_insert_eq. eauto.
    + eapply Forall2_impl; [exact He|]. cbn. intros fd c' (Hn&Hrest). split; [|done].
      destruct (decide (fd = s)) as [-> |]; [done|]. by rewrite Hf, lookup_insert_ne in Hn.
  - intros fd Hfd. apply not_elem_of_cons in Hfd as [Hne Hfd]. destruct (Ho fd Hfd) as [-> ->].
    by rewrite Hf, Hr, !lookup_insert_ne.
Qed.

(** The state after a call. *)
Record accepted (w : wrapper) (fd : nat) (ans : list accept_answer) (fds : list nat) (k k' : net) : Prop := {
  ac_admitted : admitted w (kept_conns ans) fds k k';
  ac_again : n_readables k' = n_readables k ++ again_of fd (stop_of ans);
  ac_bad : k_bad k' = (k_bad k + twice_of (stop_of ans))%nat
}.

(** The end of the loop. *)
Lemma accepted_end w fd ans k k' :
  kept_conns ans = [] -> k_fds k' = k_fds k -> n_reg k' = n_reg k ->
  n_readables k' = n_readables k ++ again_of fd (stop_of ans) ->
  k_bad k' = (k_bad k + twice_of (stop_of ans))%nat -> accepted w fd ans [] k k'.
Proof. intros Hk H1 H2 H3 H4. split; [rewrite Hk; by apply admitted_nil|done|done]. Qed.

Lemma accept_loop_ok w fd ans k :
  exists fds k', accept_loop w fd ans k = (outcome_of tt (stop_of ans), k') /\ accepted w fd ans fds k k'.
Proof.
  revert k. induction ans as [|x ans IH]; intros k.
  { exists [], k. split; [done|]. apply accepted_end; cbn; rewrite ?app_nil_r; done || lia. }
  destruct x as [c|[]]; cbn [accept_loop];
    try (destruct (IH k) as (fds&k'&E&[H1 H2 H3]); by exists fds, k');
    try (eexists [], _; split; [reflexivity|]; apply accepted_end; cbn; rewrite ?app_nil_r; done || lia).
  destruct (accept_fd c k) as [[?|s] k1] eqn:Ea; [done|].
  destruct (taken_in_or_closed w c k s k1 Ea) as [Hfree Ht]. unfold bind at 1. rewrite Ea.
  assert (kept_conns (Accepted c :: ans) = if c_ip c && negb (broken c) then
    (if c_wanted c then c :: kept_conns ans else kept_conns ans) else []) as Hkept.
  { unfold kept_conns. cbn [taken]. rewrite filter_cons. destruct (c_ip c), (c_wanted c), (broken c); done. }
  assert (stop_of (Accepted c :: ans) = if negb (c_ip c) then Raised runtime_error else
    if broken c then ClosedTwice else stop_of ans) as Hstop by done.
  destruct (c_ip c); cbn [negb andb] in *.
  2:{ rewrite (bind_exn _ _ _ _ _ Ht). exists [], k. rewrite Hstop. split; [done|].
      apply accepted_end; rewrite ?Hstop; cbn; rewrite ?app_nil_r; done || lia. }
  destruct (broken c); cbn [negb] in *.
  { rewrite (bind_exn _ _ _ _ _ Ht). eexists [], _. rewrite Hstop. split; [reflexivity|].
    apply accepted_end; rewrite ?Hstop; cbn; rewrite ?app_nil_r; done || lia. }
  rewrite (bind_run _ _ _ _ _ Ht). destruct (c_wanted c).
  - destruct (IH (set_reg (<[s := RConn w]> (n_reg k)) k1)) as (fds&k'&El&[Ha Hr Hb]). rewrite El.
    exists (s :: fds), k'. rewrite Hstop. split; [done|]. injection Ea as <- <-. split; rewrite ?Hstop, ?Hkept; [|done|done].
    eapply admitted_cons; [done|exact Ha|by eexists|done].
  - destruct (IH k) as (fds&k'&El&[Ha Hr Hb]). rewrite El. exists fds, k'. rewrite Hstop. split; [done|].
    split; by rewrite ?Hstop, ?Hkept.
Qed.

(** C32: Every accepted connection is registered or closed.  For one call of
    [tcp_server_socket::on_readable] and any answers of [accept], of the constructors of the
    sockets and of [epoll_ctl]: each connection that the handler wants and whose socket can
    be made and registered is registered in the reactor with its own new descriptor, every
    other one that was accepted is closed; the loop ends only when there is no connection
    left, or when there is no descriptor left and then the listening socket is tried again,
    or with an exception for an error of [accept], an address that is no IP address, or a
    wanted connection whose socket cannot be made or registered.  In this last case, and
    only then, a descriptor is closed a second time. *)
Theorem accept_owned w fd ans k :
  owned k ->
  exists fds k', accept_on_readable w fd ans k = (outcome_of true (stop_of ans), k') /\
    owned k' /\ accepted w fd ans fds k k'.
Proof.
  intros Ho. destruct (accept_loop_ok w fd ans k) as (fds&k'&El&Ha). exists fds, k'.
  split; [|split; [by eapply admitted_owned; [apply Ha|]|done]].
  unfold accept_on_readable, bind. rewrite El. by destruct (stop_of ans).
Qed.

Definition sample_net : net :=
  {| k_fds := {[3%nat := new_sock AF_INET6]}; k_infos := 0; k_bad := 0; n_reg := {[3%nat := RListen MakeMemcache]}; n_readables := [] |}.
Definition conn_of (wanted : bool) (peer : string) : accept_answer :=
  Accepted {| c_peer := lit peer; c_ip := true; c_wanted := wanted; c_ctor := true; c_epoll := true |}.
Definition conn_broken : accept_answer :=
  Accepted {| c_peer := lit "d"; c_ip := true; c_wanted := true; c_ctor := true; c_epoll := false |}.

(** Two connections are wanted, one is not, and then there is no descriptor left, or the
    next one cannot be registered. *)
Lemma accept_owned_witness :
  let ans := [conn_of true "a"; AcceptError ACC_EINTR; conn_of false "b"; conn_of true "c"] in
  owned sample_net /\
  (exists (fds : list nat) k', accept_on_readable MakeMemcache 3 (ans ++ [AcceptError ACC_EMFILE]) sample_net = (inr true, k') /\ owned k' /\
    length fds = 2%nat /\ n_readables k' = [3%nat] /\ k_bad k' = 0%nat) /\
  (exists (fds : list nat) k', accept_on_readable MakeMemcache 3 (ans ++ [conn_broken]) sample_net = (inl system_error, k') /\ owned k' /\
    length fds = 2%nat /\ n_readables k' = [] /\ k_bad k' = 1%nat).
Proof.
  intros ans. assert (owned sample_net) as Ho.
  { unfold owned. cbn. by rewrite !dom_singleton_L. }
  split; [exact Ho|]. split.
  - destruct (accept_owned MakeMemcache 3 (ans ++ [AcceptError ACC_EMFILE]) sample_net Ho) as (fds&k'&E&Hk&[Ha Hr Hb]).
    exists fds, k'. split_and!; [exact E|exact Hk|exact (Forall2_length _ _ _ (ad_each _ _ _ _ _ Ha))|exact Hr|exact Hb].
  - destruct (accept_owned MakeMemcache 3 (ans ++ [conn_broken]) sample_net Ho) as (fds&k'&E&Hk&[Ha Hr Hb]).
    exists fds, k'. split_and!; [exact E|exact Hk|exact (Forall2_length _ _ _ (ad_each _ _ _ _ _ Ha))|exact Hr|exact Hb].
Defined.

(** When the constructor of a socket throws (an option that cannot be set), or
    [epoll_ctl] fails, the destructor of the socket has closed the descriptor before the
    handler closes it again: the second call hits nothing, or, in a process
    with other threads, whatever was opened in between. *)
Theorem accept_closes_twice :
  let c := {| c_peer := lit "a"; c_ip := true; c_wanted := true; c_ctor := true; c_epoll := false |} in
  let c' := {| c_peer := lit "a"; c_ip := true; c_wanted := true; c_ctor := false; c_epoll := true |} in
  (exists k', accept_on_readable MakeMemcache 3 [Accepted c] sample_net = (inl system_error, k') /\ k_bad k' = 1%nat) /\
  (exists k', accept_on_readable MakeMemcache 3 [Accepted c'] sample_net = (inl system_error, k') /\ k_bad k' = 1%nat).
Proof. split; eexists; (split; [vm_compute; reflexivity|reflexivity]). Qed.
