(* ===== verification/Server.v ===== *)
(** * Signals and statistics of the running server (src/server.cpp, cybozu/signal.hpp,
      cybozu/signal.cpp, [dump_stats] and [clear] of the handlers)

    Signals are blocked and read from a descriptor by the reactor thread.  What each one
    does: statistics in the log, a new log file, the end of the server.  Theorem: the
    log is the one that Logger.v specifies for the events of the signals, whatever the
    interruptions of the reads, and the server quits exactly when it was told to. *)

From stdpp Require Import gmap.
From S2P Require Import Prelude CLib Table MemTypes MemState Counter Logger.

(** ** Setting up (cybozu/signal.cpp) *)

Definition SIGHUP : Z := 1.
Definition SIGINT : Z := 2.
Definition SIGQUIT : Z := 3.
Definition SIGABRT : Z := 6.
Definition SIGUSR1 : Z := 10.
Definition SIGPIPE : Z := 13.
Definition SIGTERM : Z := 15.

Inductive disposition := SigDefault | SigIgnored | SigHandled (reset : bool).

Record sig_state := {
  sg_blocked : list Z;
  sg_disposition : Z -> disposition;
  sg_reader : option (list Z)        (** the mask of the descriptor of [signalfd] *)
}.
Definition block (l : list Z) (s : sig_state) : sig_state :=
  {| sg_blocked := sg_blocked s ++ l; sg_disposition := sg_disposition s; sg_reader := sg_reader s |}.
Definition sigaction (n : Z) (d : disposition) (s : sig_state) : sig_state :=
  {| sg_blocked := sg_blocked s; sg_disposition := fun m => if m =? n then d else sg_disposition s m; sg_reader := sg_reader s |}.
Definition open_reader (l : list Z) (s : sig_state) : sig_state :=
  {| sg_blocked := sg_blocked s; sg_disposition := sg_disposition s; sg_reader := Some l |}.

(** Which of the calls succeed. *)
Record sig_answers := { sa_mask : bool; sa_pipe : bool; sa_abort : bool; sa_fd : bool }.

(** A call that throws [system_error] when it fails. *)
Definition call {E} (ok : bool) (f : E -> E) : M E unit := if ok then modify f else throw system_error.

(** [signal_setup] with the constructor of [signal_reader]. *)
Definition signal_setup (a : sig_answers) (sigs : list Z) : M sig_state unit :=
  call (sa_mask a) (block sigs) ;;!
  call (sa_pipe a) (sigaction SIGPIPE SigIgnored) ;;!
  call (sa_abort a) (sigaction SIGABRT (SigHandled true)) ;;!
  call (sa_fd a) (open_reader sigs).

(** ** Reading (signal_reader::on_readable) *)

(** What one [read] answers: a signal, fewer bytes, an error. *)
Inductive sig_read := ReadSignal (signo : Z) | ReadShort | ReadIntr | ReadAgain | ReadError.

Fixpoint signal_on_readable {E} (callback : Z -> M E unit) (ans : list sig_read) : M E bool :=
  match ans with
  | [] => ret true
  | ReadIntr :: ans => signal_on_readable callback ans
  | ReadAgain :: _ => ret true
  | ReadError :: _ => throw system_error
  | ReadShort :: _ => throw runtime_error
  | ReadSignal n :: ans => callback n ;;! signal_on_readable callback ans
  end.

(** ** The server *)

Record server := {
  sv_log : log_world;
  m_signaled : bool;
  sv_running : bool;                       (** [reactor::m_running] *)
  m_is_slave : bool;
  sv_slaves : nat;                         (** [m_slaves.size()] *)
  sv_stats : statistics;
  sv_counter : option counter.statistics   (** the counter handler, when it is enabled *)
}.
Definition with_log (w : log_world) (s : server) : server :=
  {| sv_log := w; m_signaled := m_signaled s; sv_running := sv_running s; m_is_slave := m_is_slave s;
     sv_slaves := sv_slaves s; sv_stats := sv_stats s; sv_counter := sv_counter s |}.
Definition with_signaled (s : server) : server :=
  {| sv_log := sv_log s; m_signaled := true; sv_running := false; m_is_slave := m_is_slave s;
     sv_slaves := sv_slaves s; sv_stats := sv_stats s; sv_counter := sv_counter s |}.
Definition logs {A} (m : M log_world A) : M server A := fun s =>
  let (r, w) := m (sv_log s) in (r, with_log w s).

(** [logger::info() << ...]: the line of the statement. *)
Definition info (stamp : bytes) (args : list bytes) : M server unit := logs (statement stamp sev_info args []).

(** The sum of counters in [std::uint64_t]. *)
Definition sum64 (l : list Z) : Z := fold_left (fun acc v => u64 (acc + v)) l 0.

(** [dump_stats] of the two handlers: the line. *)
Definition memcache_line (s : server) : list bytes :=
  let st := sv_stats s in
  if m_is_slave s then
    [lit "memcache replication stats: "; to_string (repl_created st); lit " created, ";
     to_string (repl_updated st); lit " updated, "; to_string (repl_removed st); lit " removed."]
  else
    [lit "memcache master: "; to_string (Z.of_nat (sv_slaves s)); lit " slaves, "; to_string (objects st); lit " objects, ";
     to_string (curr_connections st); lit " clients, "; to_string (sum64 (text_ops st ++ bin_ops st)); lit " total ops."].
Definition counter_line (st : counter.statistics) : list bytes :=
  [lit "counter: "; to_string (counter.objects st); lit " objects, "; to_string (counter.curr_connections st);
   lit " clients, "; to_string (sum64 (counter.ops st)); lit " total ops."].

Section handler.
Context (stamp : bytes).

Definition memcache_dump_stats : M server unit :=
  let! s := gets id in info stamp (memcache_line s).
Definition counter_dump_stats (st : counter.statistics) : M server unit := info stamp (counter_line st).

(** The handler of signals; [ok]: the log file can be opened again. *)
Definition handle_signal (ok : bool) (signo : Z) : M server unit :=
  if signo =? SIGUSR1 then
    memcache_dump_stats ;;!
    let! c := gets sv_counter in
    match c with Some st => counter_dump_stats st | None => ret tt end
  else if signo =? SIGHUP then
    logs (log_reopen ok) ;;!
    info stamp [lit "got SIGHUP."]
  else if (signo =? SIGQUIT) || (signo =? SIGTERM) || (signo =? SIGINT) then
    info stamp [lit "got signal (signo="; to_string signo; lit ")."] ;;!
    modify with_signaled
  else ret tt.

(** [serve] sets up the five signals. *)
Definition served_signals : list Z := [SIGHUP; SIGQUIT; SIGTERM; SIGINT; SIGUSR1].
Definition server_signal_setup (a : sig_answers) : M sig_state unit := signal_setup a served_signals.
End handler.

(** ** A slave begins again (handler::clear) *)

Section clear.
Context {H : Type} `{TableOps H object}.
Definition clear_stats (s : statistics) : statistics :=
  set_repl_removed 0 (set_repl_updated 0 (set_repl_created 0 (set_total_objects 0 s))).
Definition memcache_clear (hash : H) (s : statistics) : H * statistics := (t_clear hash, clear_stats s).
End clear.

(** ** Correctness *)

(** What a signal does to the log. *)
Definition is_term (signo : Z) : bool := (signo =? SIGQUIT) || (signo =? SIGTERM) || (signo =? SIGINT).
Definition signal_events (stamp : bytes) (s : server) (signo : Z) : list log_event :=
  if signo =? SIGUSR1 then
    LStatement stamp sev_info (memcache_line s) [] ::
    match sv_counter s with Some st => [LStatement stamp sev_info (counter_line st) []] | None => [] end
  else if signo =? SIGHUP then [LReopen; LStatement stamp sev_info [lit "got SIGHUP."] []]
  else if is_term signo then [LStatement stamp sev_info [lit "got signal (signo="; to_string signo; lit ")."] []]
  else [].

(** The signals among the answers up to the first [EAGAIN]; no error among them. *)
Fixpoint signals_of (ans : list sig_read) : list Z :=
  match ans with
  | [] | ReadAgain :: _ | ReadShort :: _ | ReadError :: _ => []
  | ReadIntr :: ans => signals_of ans
  | ReadSignal n :: ans => n :: signals_of ans
  end.
Fixpoint reads_ok (ans : list sig_read) : bool :=
  match ans with
  | [] | ReadAgain :: _ => true
  | ReadShort :: _ | ReadError :: _ => false
  | ReadIntr :: ans | ReadSignal _ :: ans => reads_ok ans
  end.

Section correct.
Context (stamp : bytes).

Lemma quiet_events p es :
  Forall (fun e => match e with LStatement _ _ _ [] | LReopen => True | _ => False end) es -> events_ok (opened p) es.
Proof.
  induction 1 as [|e es He _ IH]; [done|]. destruct e as [st sv args [|]| | | |]; try done. split; [apply not_elem_of_nil|done].
Qed.

Lemma signal_quiet s n :
  Forall (fun e => match e with LStatement _ _ _ [] | LReopen => True | _ => False end) (signal_events stamp s n).
Proof. unfold signal_events. destruct (n =? SIGUSR1), (sv_counter s), (n =? SIGHUP), (is_term n); repeat constructor. Qed.

Ltac run_statement :=
  unfold bind; cbn -[statement log_reopen memcache_line counter_line to_string lit];
  match goal with |- context [statement ?a ?b ?c ?d ?e] => destruct (statement a b c d e) as [[?|[]] ?w]; [done|]; cbn -[statement log_reopen memcache_line counter_line to_string lit] end.

(** The handler is the events of the signal, and the flags. *)
Lemma handle_signal_events n s :
  handle_signal stamp true n s =
    (let (r, w) := iterM log_step (signal_events stamp s n) (sv_log s) in
     match r with
     | inl x => (inl x, with_log w s)
     | inr _ => (inr tt, if is_term n then with_signaled (with_log w s) else with_log w s)
     end).
Proof.
  unfold handle_signal, signal_events, is_term. destruct (Z.eqb_spec n SIGUSR1) as [-> |Hu]; cbn [iterM].
  - unfold memcache_dump_stats, counter_dump_stats, info, logs, bind, gets; cbn -[statement log_reopen memcache_line counter_line to_string lit].
    run_statement. destruct (sv_counter s) as [st|]; cbn -[statement counter_line]; [|done]. by run_statement.
  - destruct (Z.eqb_spec n SIGHUP) as [-> |Hh]; cbn [iterM].
    + unfold info, logs, bind, gets; cbn -[statement log_reopen memcache_line counter_line to_string lit]. destruct (log_reopen true (sv_log s)) as [[x|[]] w]; [done|]. cbn -[statement to_string lit]. by run_statement.
    + destruct ((n =? SIGQUIT) || (n =? SIGTERM) || (n =? SIGINT)); cbn [iterM]; [|by destruct s].
      unfold info, logs, bind; cbn -[statement log_reopen memcache_line counter_line to_string lit]. by run_statement.
Qed.

Definition same_server (s s' : server) : Prop :=
  m_is_slave s' = m_is_slave s /\ sv_slaves s' = sv_slaves s /\ sv_stats s' = sv_stats s /\ sv_counter s' = sv_counter s.

Lemma same_events s s' n : same_server s s' -> signal_events stamp s' n = signal_events stamp s n.
Proof. intros (E1&E2&E3&E4). unfold signal_events, memcache_line. by rewrite E1, E2, E3, E4. Qed.

Lemma handle_signal_ok n s p :
  log_repr (sv_log s) p ->
  exists s', handle_signal stamp true n s = (inr tt, s') /\ same_server s s' /\
    log_repr (sv_log s') (fold_left (fun p e => spec_step e p) (signal_events stamp s n) p) /\
    m_signaled s' = m_signaled s || is_term n /\ sv_running s' = sv_running s && negb (is_term n).
Proof.
  intros Hr. destruct (log_run_ok (signal_events stamp s n) (sv_log s) p Hr) as (w&E&Hw); [apply quiet_events, signal_quiet|].
  rewrite handle_signal_events, E. destruct (is_term n); eexists; (split; [done|]); cbn.
  - split; [done|]. split; [done|]. by destruct (m_signaled s), (sv_running s).
  - split; [done|]. split; [done|]. by destruct (m_signaled s), (sv_running s).
Qed.

Lemma signals_read ans s p :
  log_repr (sv_log s) p -> reads_ok ans = true ->
  exists s', signal_on_readable (handle_signal stamp true) ans s = (inr true, s') /\ same_server s s' /\
    log_repr (sv_log s') (fold_left (fun p e => spec_step e p) (flat_map (signal_events stamp s) (signals_of ans)) p) /\
    m_signaled s' = m_signaled s || existsb is_term (signals_of ans) /\
    sv_running s' = sv_running s && negb (existsb is_term (signals_of ans)).
Proof.
  revert s p. induction ans as [|[n| | | |] ans IH]; intros s p Hr Hok; cbn [signals_of reads_ok signal_on_readable] in *; try done.
  - exists s. cbn. split; [done|]. split; [done|]. split; [done|]. by destruct (m_signaled s), (sv_running s).
  - destruct (handle_signal_ok n s p Hr) as (s1&E1&Hs1&Hr1&Hf1&Hg1). rewrite (bind_run _ _ _ _ _ E1).
    destruct (IH s1 _ Hr1 Hok) as (s2&E2&Hs2&Hr2&Hf2&Hg2). exists s2. split; [done|].
    split; [unfold same_server in *; intuition congruence|]. cbn [flat_map existsb]. rewrite fold_left_app.
    rewrite Hf2, Hf1, Hg2, Hg1. split; [|by destruct (m_signaled s), (sv_running s), (is_term n), (existsb _ _)].
    assert (flat_map (signal_events stamp s1) (signals_of ans) = flat_map (signal_events stamp s) (signals_of ans)) as <-; [|done].
    apply flat_map_ext. intros m. by apply same_events.
  - by apply IH.
  - exists s. cbn. split; [done|]. split; [done|]. split; [done|]. by destruct (m_signaled s), (sv_running s).
Qed.

(** Signals do what they say.  Whatever signals are pending and however the reads of the
    descriptor are interrupted, one call of [signal_reader::on_readable] handles all of
    them, in order, up to the [EAGAIN]: the log files hold exactly the lines that the
    specification of the log gives for the events of the signals (on SIGUSR1 the statistics
    of the memcache handler and, if enabled, of the counter handler; on SIGHUP first the log
    file is opened again and then the line is written, so that it is in the new file; the
    signal number on a terminating one); the loop of the reactor is told to quit, and
    [serve] is told that this was a signal, if and only if SIGQUIT, SIGTERM or SIGINT is
    among them; nothing else of the server changes. *)
Theorem signals_served ans s p :
  log_repr (sv_log s) p -> reads_ok ans = true -> sv_running s = true -> m_signaled s = false ->
  exists s', signal_on_readable (handle_signal stamp true) ans s = (inr true, s') /\ same_server s s' /\
    log_repr (sv_log s') (fold_left (fun p e => spec_step e p) (flat_map (signal_events stamp s) (signals_of ans)) p) /\
    (m_signaled s' = true <-> exists n, n ∈ signals_of ans /\ n ∈ [SIGQUIT; SIGTERM; SIGINT]) /\
    sv_running s' = negb (m_signaled s').
Proof.
  intros Hr Hok Hrun Hsig. destruct (signals_read ans s p Hr Hok) as (s'&E&Hs&Hl&Hf&Hg). exists s'.
  rewrite Hsig in Hf. rewrite Hrun in Hg. cbn in Hf, Hg. rewrite Hf, Hg. split_and!; try done.
  rewrite existsb_exists. split; intros (n&Hn&Ht); exists n; (split; [by apply list_elem_of_In|]); unfold is_term in *.
  - rewrite !orb_true_iff, !Z.eqb_eq in Ht. apply list_elem_of_In. cbn. intuition.
  - apply list_elem_of_In in Ht. cbn in Ht. rewrite !orb_true_iff, !Z.eqb_eq. intuition.
Qed.
End correct.

(** The statistics, a rotation, and the end. *)
Definition sample_server : server :=
  {| sv_log := log_start sev_info; m_signaled := false; sv_running := true; m_is_slave := false; sv_slaves := 2;
     sv_stats := stats_reset; sv_counter := Some counter.stats_reset |}.

Lemma signals_served_witness :
  let ans := [ReadSignal SIGUSR1; ReadIntr; ReadSignal SIGHUP; ReadSignal SIGTERM; ReadAgain] in
  exists s', signal_on_readable (handle_signal (lit "T ") true) ans sample_server = (inr true, s') /\
    m_signaled s' = true /\
    lw_stderr (sv_log s') = lit "T INFO memcache master: 2 slaves, 0 objects, 0 clients, 0 total ops." ++ [x0a] ++
      lit "T INFO counter: 0 objects, 0 clients, 0 total ops." ++ [x0a] ++ lit "T INFO got SIGHUP." ++ [x0a] ++
      lit "T INFO got signal (signo=15)." ++ [x0a].
Proof.
  intros ans.
  assert (log_repr (sv_log sample_server) (spec_start sev_info)) as Hr by (split; done).
  destruct (signals_served (lit "T ") ans sample_server (spec_start sev_info) Hr) as (s'&E&Hs&Hl&Hsig&Hrun); [done..|].
  exists s'. split; [done|]. split.
  - apply Hsig. exists SIGTERM. split; apply (bool_decide_unpack _); vm_compute; exact I.
  - rewrite (lr_stderr _ _ Hl). vm_compute. reflexivity.
Defined.

(** A set-up that returns has blocked the served signals on all threads to come, ignores
    SIGPIPE, and reads exactly what it blocks; one that throws opens no descriptor. *)
Lemma signal_setup_ok a s :
  match server_signal_setup a s with
  | (inr _, s') => sg_blocked s' = sg_blocked s ++ served_signals /\ sg_disposition s' SIGPIPE = SigIgnored /\
      sg_disposition s' SIGABRT = SigHandled true /\ sg_reader s' = Some served_signals
  | (inl x, s') => x = system_error /\ sg_reader s' = sg_reader s
  end.
Proof.
  unfold server_signal_setup, signal_setup, call. destruct (sa_mask a); [|done]. destruct (sa_pipe a); [|done].
  destruct (sa_abort a); [|done]. by destruct (sa_fd a).
Qed.
