(* ===== verification/Reactor.v ===== *)
(** * The reactor, the workers and the master's handlers
      (cybozu/reactor, cybozu/worker.hpp, src/sync.hpp, src/memcache/handler, src/server)

    The reactor thread runs a program over the state below; worker threads and the
    garbage collection thread run beside it.  The program yields to them before every
    access to what they share: the valid flag and the lock of a socket, the busy flag of
    a socket, the running flag of a worker, the queue of removal requests, the end of the
    collection thread.  At each such point the schedule, part of the state, says which
    steps the other threads take.  What only the reactor thread touches is updated
    between two yields.

    Sockets live in a heap.  Using one that was destructed, using a descriptor that was
    closed, or looking up a descriptor that is not registered is an error. *)

From stdpp Require Import gmap.
From S2P Require Import Prelude.

(** [MAX_WORKERS], [MAX_SLAVES], [MAX_CONSECUTIVE_GCS]. *)
Definition MAX_WORKERS : nat := 64.
Definition MAX_SLAVES : nat := 5.
Definition MAX_CONSECUTIVE_GCS : Z := 3.

(** ** Sockets and threads *)

(** Listening sockets (of the replication port, or of a client port), client sockets,
    sockets of slaves. *)
Inductive kind := KServer (repl : bool) | KClient | KSlave.

(** class [resource] and the members of its subclasses that the reactor uses. *)
Record resource := {
  r_fd : nat;
  r_kind : kind;
  r_valid : bool;
  r_closed : bool;
  r_busy : bool;              (** [memcache_socket::m_busy] *)
  r_slaves : list nat;        (** [memcache_socket::m_slaves] *)
  r_heartbeat : Z             (** [repl_socket::m_last_heartbeat] *)
}.

Definition new_resource (fd : nat) (k : kind) (now : Z) : resource :=
  {| r_fd := fd; r_kind := k; r_valid := true; r_closed := false; r_busy := false; r_slaves := [];
     r_heartbeat := now |}.
Definition with_valid (b : bool) (x : resource) : resource :=
  {| r_fd := r_fd x; r_kind := r_kind x; r_valid := b; r_closed := r_closed x; r_busy := r_busy x;
     r_slaves := r_slaves x; r_heartbeat := r_heartbeat x |}.
Definition with_closed (x : resource) : resource :=
  {| r_fd := r_fd x; r_kind := r_kind x; r_valid := r_valid x; r_closed := true; r_busy := r_busy x;
     r_slaves := r_slaves x; r_heartbeat := r_heartbeat x |}.
Definition with_busy (b : bool) (x : resource) : resource :=
  {| r_fd := r_fd x; r_kind := r_kind x; r_valid := r_valid x; r_closed := r_closed x; r_busy := b;
     r_slaves := r_slaves x; r_heartbeat := r_heartbeat x |}.
Definition with_slaves (l : list nat) (x : resource) : resource :=
  {| r_fd := r_fd x; r_kind := r_kind x; r_valid := r_valid x; r_closed := r_closed x; r_busy := r_busy x;
     r_slaves := l; r_heartbeat := r_heartbeat x |}.
Definition with_heartbeat (t : Z) (x : resource) : resource :=
  {| r_fd := r_fd x; r_kind := r_kind x; r_valid := r_valid x; r_closed := r_closed x; r_busy := r_busy x;
     r_slaves := r_slaves x; r_heartbeat := t |}.

(** A worker, or the collection thread: whether it runs, the sockets its job can reach,
    the socket whose busy flag the job clears at its end, the [with_fd] it is in (its
    lock held; whether [valid] was seen true), and the socket it has just
    invalidated and will report. *)
Record thread := {
  th_running : bool;
  th_refs : list nat;
  th_recv : option nat;
  th_fd : option (nat * bool);
  th_drop : option nat
}.
#[export] Instance thread_eq_dec : EqDecision thread.
Proof. solve_decision. Defined.
Definition idle : thread :=
  {| th_running := false; th_refs := []; th_recv := None; th_fd := None; th_drop := None |}.
Definition started (refs : list nat) (recv : option nat) : thread :=
  {| th_running := true; th_refs := refs; th_recv := recv; th_fd := None; th_drop := None |}.
Definition with_fd_state (o : option (nat * bool)) (d : option nat) (t : thread) : thread :=
  {| th_running := th_running t; th_refs := th_refs t; th_recv := th_recv t; th_fd := o; th_drop := d |}.

(** Synchronization requests: the workers seen idle, and what to do in the end. *)
Inductive callback := AddSlave (r : nat) | ReactorGC.
Record sync_request := { rq_flags : list nat; rq_callback : callback }.

(** What happens outside: new descriptors for a listening socket, a peer that closed or
    reset its connection, a write that failed, too many connections. *)
Record input := { i_accept : list nat; i_dead : bool; i_fail : bool; i_full : bool }.
Definition no_input : input := {| i_accept := []; i_dead := false; i_fail := false; i_full := false |}.

(** A step of a thread: [inl i] is worker [i], [inr tt] the collection thread. *)
Inductive act :=
| ALock (r : nat)        (** [with_fd] begins: the read lock of the socket's descriptor *)
| ACheck                 (** its [valid()] *)
| AUse                   (** a system call on the descriptor *)
| AEnd                   (** [with_fd] ends with [true] *)
| AInvalidate            (** [invalidate_and_close_] up to its exchange of the flag *)
| ARequest               (** [request_removal], the end of [with_fd] *)
| AUnbusy                (** the end of a receiving job *)
| AFinish.               (** the end of the job, or of the collection *)

Record conf := { c_slave_timeout : Z; c_gc_interval : Z; c_memory_limit : Z }.

Record world := {
  w_heap : gmap nat resource;
  w_next : nat;
  m_resources : gmap nat nat;
  m_readables : list nat;
  m_drop_req : list nat;
  m_garbage : list nat;
  m_garbage_copy : list nat;
  w_workers : list thread;
  m_worker_index : nat;
  m_requests : list sync_request;
  m_slaves : list nat;
  m_new_slaves : list nat;
  m_gc_thread : option thread;
  m_last_gc : Z;
  m_consecutive_gcs : Z;
  g_current_time : Z;
  w_sched : list (list ((nat + unit) * act));
  w_inputs : list input
}.

(** Updates of one member. *)
Definition set_heap (v : gmap nat resource) (w : world) : world :=
  {| w_heap := v; w_next := w_next w; m_resources := m_resources w; m_readables := m_readables w;
     m_drop_req := m_drop_req w; m_garbage := m_garbage w; m_garbage_copy := m_garbage_copy w;
     w_workers := w_workers w; m_worker_index := m_worker_index w; m_requests := m_requests w;
     m_slaves := m_slaves w; m_new_slaves := m_new_slaves w; m_gc_thread := m_gc_thread w;
     m_last_gc := m_last_gc w; m_consecutive_gcs := m_consecutive_gcs w; g_current_time :=
     g_current_time w; w_sched := w_sched w; w_inputs := w_inputs w |}.
Definition set_next (v : nat) (w : world) : world :=
  {| w_heap := w_heap w; w_next := v; m_resources := m_resources w; m_readables := m_readables w;
     m_drop_req := m_drop_req w; m_garbage := m_garbage w; m_garbage_copy := m_garbage_copy w;
     w_workers := w_workers w; m_worker_index := m_worker_index w; m_requests := m_requests w;
     m_slaves := m_slaves w; m_new_slaves := m_new_slaves w; m_gc_thread := m_gc_thread w;
     m_last_gc := m_last_gc w; m_consecutive_gcs := m_consecutive_gcs w; g_current_time :=
     g_current_time w; w_sched := w_sched w; w_inputs := w_inputs w |}.
Definition set_resources (v : gmap nat nat) (w : world) : world :=
  {| w_heap := w_heap w; w_next := w_next w; m_resources := v; m_readables := m_readables w;
     m_drop_req := m_drop_req w; m_garbage := m_garbage w; m_garbage_copy := m_garbage_copy w;
     w_workers := w_workers w; m_worker_index := m_worker_index w; m_requests := m_requests w;
     m_slaves := m_slaves w; m_new_slaves := m_new_slaves w; m_gc_thread := m_gc_thread w;
     m_last_gc := m_last_gc w; m_consecutive_gcs := m_consecutive_gcs w; g_current_time :=
     g_current_time w; w_sched := w_sched w; w_inputs := w_inputs w |}.
Definition set_readables (v : list nat) (w : world) : world :=
  {| w_heap := w_heap w; w_next := w_next w; m_resources := m_resources w; m_readables := v;
     m_drop_req := m_drop_req w; m_garbage := m_garbage w; m_garbage_copy := m_garbage_copy w;
     w_workers := w_workers w; m_worker_index := m_worker_index w; m_requests := m_requests w;
     m_slaves := m_slaves w; m_new_slaves := m_new_slaves w; m_gc_thread := m_gc_thread w;
     m_last_gc := m_last_gc w; m_consecutive_gcs := m_consecutive_gcs w; g_current_time :=
     g_current_time w; w_sched := w_sched w; w_inputs := w_inputs w |}.
Definition set_drop_req (v : list nat) (w : world) : world :=
  {| w_heap := w_heap w; w_next := w_next w; m_resources := m_resources w; m_readables := m_readables
     w; m_drop_req := v; m_garbage := m_garbage w; m_garbage_copy := m_garbage_copy w; w_workers
     := w_workers w; m_worker_index := m_worker_index w; m_requests := m_requests w; m_slaves :=
     m_slaves w; m_new_slaves := m_new_slaves w; m_gc_thread := m_gc_thread w; m_last_gc :=
     m_last_gc w; m_consecutive_gcs := m_consecutive_gcs w; g_current_time := g_current_time w;
     w_sched := w_sched w; w_inputs := w_inputs w |}.
Definition set_garbage (v : list nat) (w : world) : world :=
  {| w_heap := w_heap w; w_next := w_next w; m_resources := m_resources w; m_readables := m_readables
     w; m_drop_req := m_drop_req w; m_garbage := v; m_garbage_copy := m_garbage_copy w;
     w_workers := w_workers w; m_worker_index := m_worker_index w; m_requests := m_requests w;
     m_slaves := m_slaves w; m_new_slaves := m_new_slaves w; m_gc_thread := m_gc_thread w;
     m_last_gc := m_last_gc w; m_consecutive_gcs := m_consecutive_gcs w; g_current_time :=
     g_current_time w; w_sched := w_sched w; w_inputs := w_inputs w |}.
Definition set_garbage_copy (v : list nat) (w : world) : world :=
  {| w_heap := w_heap w; w_next := w_next w; m_resources := m_resources w; m_readables := m_readables
     w; m_drop_req := m_drop_req w; m_garbage := m_garbage w; m_garbage_copy := v; w_workers :=
     w_workers w; m_worker_index := m_worker_index w; m_requests := m_requests w; m_slaves :=
     m_slaves w; m_new_slaves := m_new_slaves w; m_gc_thread := m_gc_thread w; m_last_gc :=
     m_last_gc w; m_consecutive_gcs := m_consecutive_gcs w; g_current_time := g_current_time w;
     w_sched := w_sched w; w_inputs := w_inputs w |}.
Definition set_workers (v : list thread) (w : world) : world :=
  {| w_heap := w_heap w; w_next := w_next w; m_resources := m_resources w; m_readables := m_readables
     w; m_drop_req := m_drop_req w; m_garbage := m_garbage w; m_garbage_copy := m_garbage_copy
     w; w_workers := v; m_worker_index := m_worker_index w; m_requests := m_requests w; m_slaves
     := m_slaves w; m_new_slaves := m_new_slaves w; m_gc_thread := m_gc_thread w; m_last_gc :=
     m_last_gc w; m_consecutive_gcs := m_consecutive_gcs w; g_current_time := g_current_time w;
     w_sched := w_sched w; w_inputs := w_inputs w |}.
Definition set_worker_index (v : nat) (w : world) : world :=
  {| w_heap := w_heap w; w_next := w_next w; m_resources := m_resources w; m_readables := m_readables
     w; m_drop_req := m_drop_req w; m_garbage := m_garbage w; m_garbage_copy := m_garbage_copy
     w; w_workers := w_workers w; m_worker_index := v; m_requests := m_requests w; m_slaves :=
     m_slaves w; m_new_slaves := m_new_slaves w; m_gc_thread := m_gc_thread w; m_last_gc :=
     m_last_gc w; m_consecutive_gcs := m_consecutive_gcs w; g_current_time := g_current_time w;
     w_sched := w_sched w; w_inputs := w_inputs w |}.
Definition set_requests (v : list sync_request) (w : world) : world :=
  {| w_heap := w_heap w; w_next := w_next w; m_resources := m_resources w; m_readables := m_readables
     w; m_drop_req := m_drop_req w; m_garbage := m_garbage w; m_garbage_copy := m_garbage_copy
     w; w_workers := w_workers w; m_worker_index := m_worker_index w; m_requests := v; m_slaves
     := m_slaves w; m_new_slaves := m_new_slaves w; m_gc_thread := m_gc_thread w; m_last_gc :=
     m_last_gc w; m_consecutive_gcs := m_consecutive_gcs w; g_current_time := g_current_time w;
     w_sched := w_sched w; w_inputs := w_inputs w |}.
Definition set_slaves (v : list nat) (w : world) : world :=
  {| w_heap := w_heap w; w_next := w_next w; m_resources := m_resources w; m_readables := m_readables
     w; m_drop_req := m_drop_req w; m_garbage := m_garbage w; m_garbage_copy := m_garbage_copy
     w; w_workers := w_workers w; m_worker_index := m_worker_index w; m_requests := m_requests
     w; m_slaves := v; m_new_slaves := m_new_slaves w; m_gc_thread := m_gc_thread w; m_last_gc
     := m_last_gc w; m_consecutive_gcs := m_consecutive_gcs w; g_current_time := g_current_time
     w; w_sched := w_sched w; w_inputs := w_inputs w |}.
Definition set_new_slaves (v : list nat) (w : world) : world :=
  {| w_heap := w_heap w; w_next := w_next w; m_resources := m_resources w; m_readables := m_readables
     w; m_drop_req := m_drop_req w; m_garbage := m_garbage w; m_garbage_copy := m_garbage_copy
     w; w_workers := w_workers w; m_worker_index := m_worker_index w; m_requests := m_requests
     w; m_slaves := m_slaves w; m_new_slaves := v; m_gc_thread := m_gc_thread w; m_last_gc :=
     m_last_gc w; m_consecutive_gcs := m_consecutive_gcs w; g_current_time := g_current_time w;
     w_sched := w_sched w; w_inputs := w_inputs w |}.
Definition set_gc_thread (v : option thread) (w : world) : world :=
  {| w_heap := w_heap w; w_next := w_next w; m_resources := m_resources w; m_readables := m_readables
     w; m_drop_req := m_drop_req w; m_garbage := m_garbage w; m_garbage_copy := m_garbage_copy
     w; w_workers := w_workers w; m_worker_index := m_worker_index w; m_requests := m_requests
     w; m_slaves := m_slaves w; m_new_slaves := m_new_slaves w; m_gc_thread := v; m_last_gc :=
     m_last_gc w; m_consecutive_gcs := m_consecutive_gcs w; g_current_time := g_current_time w;
     w_sched := w_sched w; w_inputs := w_inputs w |}.
Definition set_last_gc (v : Z) (w : world) : world :=
  {| w_heap := w_heap w; w_next := w_next w; m_resources := m_resources w; m_readables := m_readables
     w; m_drop_req := m_drop_req w; m_garbage := m_garbage w; m_garbage_copy := m_garbage_copy
     w; w_workers := w_workers w; m_worker_index := m_worker_index w; m_requests := m_requests
     w; m_slaves := m_slaves w; m_new_slaves := m_new_slaves w; m_gc_thread := m_gc_thread w;
     m_last_gc := v; m_consecutive_gcs := m_consecutive_gcs w; g_current_time := g_current_time
     w; w_sched := w_sched w; w_inputs := w_inputs w |}.
Definition set_consecutive_gcs (v : Z) (w : world) : world :=
  {| w_heap := w_heap w; w_next := w_next w; m_resources := m_resources w; m_readables := m_readables
     w; m_drop_req := m_drop_req w; m_garbage := m_garbage w; m_garbage_copy := m_garbage_copy
     w; w_workers := w_workers w; m_worker_index := m_worker_index w; m_requests := m_requests
     w; m_slaves := m_slaves w; m_new_slaves := m_new_slaves w; m_gc_thread := m_gc_thread w;
     m_last_gc := m_last_gc w; m_consecutive_gcs := v; g_current_time := g_current_time w;
     w_sched := w_sched w; w_inputs := w_inputs w |}.
Definition set_current_time (v : Z) (w : world) : world :=
  {| w_heap := w_heap w; w_next := w_next w; m_resources := m_resources w; m_readables := m_readables
     w; m_drop_req := m_drop_req w; m_garbage := m_garbage w; m_garbage_copy := m_garbage_copy
     w; w_workers := w_workers w; m_worker_index := m_worker_index w; m_requests := m_requests
     w; m_slaves := m_slaves w; m_new_slaves := m_new_slaves w; m_gc_thread := m_gc_thread w;
     m_last_gc := m_last_gc w; m_consecutive_gcs := m_consecutive_gcs w; g_current_time := v;
     w_sched := w_sched w; w_inputs := w_inputs w |}.
Definition set_sched (v : list (list ((nat + unit) * act))) (w : world) : world :=
  {| w_heap := w_heap w; w_next := w_next w; m_resources := m_resources w; m_readables := m_readables
     w; m_drop_req := m_drop_req w; m_garbage := m_garbage w; m_garbage_copy := m_garbage_copy
     w; w_workers := w_workers w; m_worker_index := m_worker_index w; m_requests := m_requests
     w; m_slaves := m_slaves w; m_new_slaves := m_new_slaves w; m_gc_thread := m_gc_thread w;
     m_last_gc := m_last_gc w; m_consecutive_gcs := m_consecutive_gcs w; g_current_time :=
     g_current_time w; w_sched := v; w_inputs := w_inputs w |}.
Definition set_inputs (v : list input) (w : world) : world :=
  {| w_heap := w_heap w; w_next := w_next w; m_resources := m_resources w; m_readables := m_readables
     w; m_drop_req := m_drop_req w; m_garbage := m_garbage w; m_garbage_copy := m_garbage_copy
     w; w_workers := w_workers w; m_worker_index := m_worker_index w; m_requests := m_requests
     w; m_slaves := m_slaves w; m_new_slaves := m_new_slaves w; m_gc_thread := m_gc_thread w;
     m_last_gc := m_last_gc w; m_consecutive_gcs := m_consecutive_gcs w; g_current_time :=
     g_current_time w; w_sched := w_sched w; w_inputs := v |}.

(** ** Steps of the other threads *)

Definition upd (r : nat) (f : resource -> resource) (w : world) : world := set_heap (alter f r (w_heap w)) w.

Definition get_thread (who : nat + unit) (w : world) : option thread :=
  match who with inl i => w_workers w !! i | inr _ => m_gc_thread w end.
Definition set_thread (who : nat + unit) (t : thread) (w : world) : world :=
  match who with
  | inl i => set_workers (<[i := t]> (w_workers w)) w
  | inr _ => set_gc_thread (Some t) w
  end.

(** One step; [inl] is a use of freed memory or of a closed descriptor.  A step that is
    not possible is skipped. *)
Definition thread_act (who : nat + unit) (a : act) (w : world) : exn + world :=
  match get_thread who w with
  | None => inr w
  | Some t =>
      if negb (th_running t) then inr w else
      match a, th_fd t, th_drop t with
      | ALock r, None, _ =>
          if bool_decide (r ∈ th_refs t) then
            match w_heap w !! r with
            | None => inl bad_read
            | Some _ => inr (set_thread who (with_fd_state (Some (r, false)) None t) w)
            end
          else inr w
      | ACheck, Some (r, false), _ =>
          match w_heap w !! r with
          | None => inl bad_read
          | Some x => inr (set_thread who (with_fd_state (if r_valid x then Some (r, true) else None) None t) w)
          end
      | AUse, Some (r, true), None =>
          match w_heap w !! r with
          | None => inl bad_read
          | Some x => if r_closed x then inl system_error else inr w
          end
      | AEnd, Some (r, true), None =>
          match w_heap w !! r with
          | None => inl bad_read
          | Some _ => inr (set_thread who (with_fd_state None None t) w)
          end
      | AInvalidate, Some (r, true), None =>
          match w_heap w !! r with
          | None => inl bad_read
          | Some x =>
              if r_valid x
              then inr (set_thread who (with_fd_state (Some (r, true)) (Some r) t) (upd r (with_valid false) w))
              else inr (set_thread who (with_fd_state None None t) w)
          end
      | ARequest, Some (r, true), Some d =>
          match w_heap w !! d with
          | None => inl bad_read
          | Some x => inr (set_thread who (with_fd_state None None t) (set_drop_req (m_drop_req w ++ [r_fd x]) w))
          end
      | AUnbusy, None, _ =>
          match th_recv t with
          | None => inr w
          | Some r =>
              match w_heap w !! r with
              | None => inl bad_read
              | Some _ => inr (set_thread who {| th_running := true; th_refs := th_refs t; th_recv := None;
                                                 th_fd := None; th_drop := None |} (upd r (with_busy false) w))
              end
          end
      | AFinish, None, _ =>
          match th_recv t with
          | None => inr (set_thread who idle w)
          | Some _ => inr w
          end
      | _, _, _ => inr w
      end
  end.

Fixpoint thread_acts (l : list ((nat + unit) * act)) (w : world) : exn + world :=
  match l with
  | [] => inr w
  | (who, a) :: l => match thread_act who a w with inl x => inl x | inr w => thread_acts l w end
  end.

(** The reactor is about to touch something shared. *)
Definition yield : M world unit := fun w =>
  match w_sched w with
  | [] => (inr tt, w)
  | l :: rest =>
      match thread_acts l (set_sched rest w) with
      | inl x => (inl x, w)
      | inr w => (inr tt, w)
      end
  end.

(** The next thing that happens outside. *)
Definition next_input : M world input := fun w =>
  match w_inputs w with
  | [] => (inr no_input, w)
  | i :: rest => (inr i, set_inputs rest w)
  end.

(** ** The reactor *)

(** Dereferencing a pointer to a socket. *)
Definition deref_res (r : nat) : M world resource :=
  let! h := gets w_heap in checked (h !! r).
(** [*(m_resources[fd])]. *)
Definition lookup_fd (fd : nat) : M world nat :=
  let! m := gets m_resources in checked (m !! fd).

(** [valid], [invalidate] on the reactor thread. *)
Definition valid (r : nat) : M world bool :=
  yield ;;! let! x := deref_res r in ret (r_valid x).
Definition invalidate (r : nat) : M world bool :=
  yield ;;!
  let! x := deref_res r in
  if r_valid x then modify (upd r (with_valid false)) ;;! ret false else ret true.

(** [try_close]: another thread in [with_fd] holds the lock. *)
Definition holds (r : nat) (t : thread) : bool :=
  match th_fd t with Some (r', _) => bool_decide (r' = r) | None => false end.
Definition held (r : nat) (w : world) : bool :=
  existsb (holds r) (w_workers w) || match m_gc_thread w with Some t => holds r t | None => false end.
Definition try_close (r : nat) : M world bool :=
  yield ;;!
  let! x := deref_res r in
  let! h := gets (held r) in
  if (h : bool) then ret false else
  modify (upd r with_closed) ;;! ret true.

(** [add_readable], [remove_resource], [add_resource]. *)
Definition add_readable (fd : nat) : M world unit := modify (fun w => set_readables (m_readables w ++ [fd]) w).
Definition remove_resource (fd : nat) : M world unit :=
  let! m := gets m_resources in
  match m !! fd with
  | None => throw logic_error
  | Some r =>
      modify (fun w => set_garbage (m_garbage w ++ [r]) w) ;;!
      modify (fun w => set_resources (delete fd (m_resources w)) w) ;;!
      modify (fun w => set_readables (filter (fun fd' => fd' <> fd) (m_readables w)) w) ;;!
      let! _ := try_close r in
      ret tt
  end.
Definition alloc (x : resource) : M world nat :=
  let! r := gets w_next in
  modify (fun w => set_next (S r) (set_heap (<[r := x]> (w_heap w)) w)) ;;!
  ret r.
Definition add_resource (r : nat) : M world unit :=
  let! x := deref_res r in
  modify (fun w => set_resources (<[r_fd x := r]> (m_resources w)) w).

(** [fix_garbage], [gc]: the destructors of the sockets close what is still open. *)
Definition fix_garbage : M world bool :=
  let! c := gets m_garbage_copy in
  if negb (bool_decide (c = [])) then throw logic_error else
  let! g := gets m_garbage in
  if bool_decide (g = []) then ret false else
  modify (fun w => set_garbage [] (set_garbage_copy g w)) ;;!
  iterM (fun r => let! _ := try_close r in ret tt) g ;;!
  ret true.
Definition destruct_resource (r : nat) : M world unit :=
  let! _ := deref_res r in
  modify (fun w => set_heap (delete r (w_heap w)) w).
Definition gc : M world unit :=
  let! c := gets m_garbage_copy in
  iterM destruct_resource c ;;!
  modify (set_garbage_copy []).

(** ** Workers and synchronization *)

(** [is_running] and [post_job]. *)
Definition is_running (i : nat) : M world bool :=
  yield ;;!
  let! ws := gets w_workers in
  let! t := checked (ws !! i) in
  ret (th_running t).
Definition post_job (i : nat) (refs : list nat) (recv : option nat) : M world unit :=
  yield ;;!
  modify (fun w => set_workers (<[i := started refs recv]> (w_workers w)) w).

(** The finder of an idle worker (server::server). *)
Fixpoint finder_loop (k : nat) : M world (option nat) :=
  match k with
  | O => ret None
  | S k =>
      let! i := gets m_worker_index in
      modify (fun w => set_worker_index ((i + 1) mod length (w_workers w)) w) ;;!
      let! b := is_running i in
      if (b : bool) then finder_loop k else ret (Some i)
  end.
Definition finder : M world (option nat) :=
  let! ws := gets w_workers in finder_loop (length ws).

(** The function of a request. *)
Definition run_callback (c : callback) : M world unit :=
  match c with
  | AddSlave r => modify (fun w => set_new_slaves (m_new_slaves w ++ [r]) w)
  | ReactorGC => gc
  end.

(** [sync_request::set] and [check]. *)
Definition rq_set (i : nat) (q : sync_request) : sync_request :=
  {| rq_flags := i :: rq_flags q; rq_callback := rq_callback q |}.
Definition rq_all (q : sync_request) : bool :=
  forallb (fun i => bool_decide (i ∈ rq_flags q)) (seq 0 MAX_WORKERS).
Definition rq_check (q : sync_request) : M world bool :=
  if rq_all q then run_callback (rq_callback q) ;;! ret true else ret false.

(** [syncer::add_request]. *)
Fixpoint set_idle (l : list nat) (q : sync_request) : M world sync_request :=
  match l with
  | [] => ret q
  | i :: l =>
      let! b := is_running i in
      set_idle l (if (b : bool) then q else rq_set i q)
  end.
Definition add_request (c : callback) : M world unit :=
  let! ws := gets w_workers in
  let n := length ws in
  let! q := set_idle (seq 0 n) {| rq_flags := []; rq_callback := c |} in
  let q := fold_right rq_set q (seq n (MAX_WORKERS - n)) in
  let! done := rq_check q in
  if (done : bool) then ret tt else modify (fun w => set_requests (m_requests w ++ [q]) w).

(** [syncer::check]: the flags of all requests first, then each is checked. *)
Fixpoint check_idle (l : list nat) : M world unit :=
  match l with
  | [] => ret tt
  | i :: l =>
      let! b := is_running i in
      when (negb b) (modify (fun w => set_requests (rq_set i <$> m_requests w) w)) ;;!
      check_idle l
  end.
(** [pre] are the requests that stay, [q] is being checked. *)
Fixpoint check_requests (pre qs : list sync_request) : M world unit :=
  match qs with
  | [] => ret tt
  | q :: qs =>
      let! done := rq_check q in
      if (done : bool)
      then modify (set_requests (pre ++ qs)) ;;! check_requests pre qs
      else check_requests (pre ++ [q]) qs
  end.
Definition syncer_check : M world unit :=
  let! ws := gets w_workers in
  check_idle (seq 0 (length ws)) ;;!
  let! qs := gets m_requests in
  check_requests [] qs.

(** ** Sockets of the master *)

(** Descriptors in use: the kernel hands out others. *)
Definition fd_open (fd : nat) (w : world) : bool :=
  bool_decide (map_Exists (fun _ x => r_fd x = fd /\ r_closed x = false) (w_heap w)).

(** [handler::make_memcache_socket] and [handler::make_repl_socket]. *)
Definition make_memcache_socket (full : bool) (fd : nat) : M world (option nat) :=
  if full then ret None else
  let! now := gets g_current_time in
  let! r := alloc (new_resource fd KClient now) in
  ret (Some r).
Definition make_repl_socket (fd : nat) : M world (option nat) :=
  let! l := gets m_slaves in
  if (length l =? MAX_SLAVES)%nat then ret None else
  let! now := gets g_current_time in
  let! r := alloc (new_resource fd KSlave now) in
  modify (fun w => set_slaves (m_slaves w ++ [r]) w) ;;!
  add_request (AddSlave r) ;;!
  ret (Some r).

(** [tcp_server_socket::on_readable]: the accepted connections, one by one. *)
Definition accept_one (repl full : bool) (fd : nat) : M world unit :=
  let! used := gets (fd_open fd) in
  if (used : bool) then ret tt else
  let! o := (if repl then make_repl_socket fd else make_memcache_socket full fd) in
  match o with None => ret tt | Some r => add_resource r end.

(** [memcache_socket::on_readable]. *)
Definition client_on_readable (r fd : nat) : M world bool :=
  yield ;;!
  let! x := deref_res r in
  if r_busy x then add_readable fd ;;! ret true else
  let! w := finder in
  match w with
  | None => add_readable fd ;;! ret true
  | Some i =>
      let! slaves := gets m_slaves in
      modify (upd r (with_slaves slaves)) ;;!
      modify (upd r (with_busy true)) ;;!
      post_job i (r :: slaves) (Some r) ;;!
      ret true
  end.

(** [on_readable] of each kind of socket; a listening socket that runs out of
    descriptors is tried again. *)
Definition on_readable (r fd : nat) : M world bool :=
  let! x := deref_res r in
  match r_kind x with
  | KServer repl =>
      let! i := next_input in
      iterM (accept_one repl (i_full i)) (i_accept i) ;;!
      when (i_fail i) (add_readable fd) ;;!
      ret true
  | KClient => client_on_readable r fd
  | KSlave =>
      let! i := next_input in
      if i_dead i then invalidate r else
      let! now := gets g_current_time in
      modify (upd r (with_heartbeat now)) ;;!
      ret true
  end.

(** [on_writable]: a job for an idle worker, or [tcp_socket::on_writable]. *)
Definition on_writable (r : nat) : M world bool :=
  let! x := deref_res r in
  match r_kind x with
  | KServer _ => ret true
  | _ =>
      let! w := finder in
      match w with
      | None => let! i := next_input in if i_fail i then invalidate r else ret true
      | Some i => post_job i [r] None ;;! ret true
      end
  end.

(** ** The loop of the reactor *)

Record event := { ev_fd : nat; ev_err : bool; ev_hup : bool; ev_in : bool; ev_out : bool }.

(** [std::sort] and [std::unique_copy]. *)
Fixpoint insert_unique (n : nat) (l : list nat) : list nat :=
  match l with
  | [] => [n]
  | m :: l' => if (n <? m)%nat then n :: l else if (n =? m)%nat then l else m :: insert_unique n l'
  end.
Definition sort_unique (l : list nat) : list nat := fold_right insert_unique [] l.

(** [epoll_wait] reports registered descriptors, each once. *)
Fixpoint epoll_wait (evs : list event) (seen : list nat) (m : gmap nat nat) : list event :=
  match evs with
  | [] => []
  | e :: evs =>
      if bool_decide (is_Some (m !! ev_fd e)) && negb (bool_decide (ev_fd e ∈ seen))
      then e :: epoll_wait evs (ev_fd e :: seen) m
      else epoll_wait evs seen m
  end.

(** A handler returned [false]: the socket is removed. *)
Definition unless_ok (fd : nat) (b : bool) (k : M world unit) : M world unit :=
  if b then k else remove_resource fd.

Definition process_event (e : event) : M world unit :=
  let fd := ev_fd e in
  let! r := lookup_fd fd in
  if ev_err e then let! b := invalidate r in unless_ok fd b (ret tt) else
  let! b := (if ev_hup e then invalidate r else ret true) in
  unless_ok fd b (
    let! b := (if ev_in e then on_readable r fd else ret true) in
    unless_ok fd b (
      let! b := (if ev_out e then on_writable r else ret true) in
      unless_ok fd b (ret tt))).

Definition process_readable (fd : nat) : M world unit :=
  let! r := lookup_fd fd in
  let! b := on_readable r fd in
  unless_ok fd b (ret tt).

(** [reactor::poll]. *)
Definition poll (evs : list event) : M world unit :=
  let! readables := gets m_readables in
  modify (set_readables []) ;;!
  iterM process_readable (sort_unique readables) ;;!
  yield ;;!
  let! drop := gets m_drop_req in
  modify (set_drop_req []) ;;!
  iterM remove_resource drop ;;!
  let! m := gets m_resources in
  iterM process_event (epoll_wait evs [] m).

(** ** The periodic work of the master *)

Record tick := { t_now : Z; t_flush_time : Z; t_used_memory : Z }.

Section master.
Context (cfg : conf).

(** [repl_socket::timed_out] *)
Definition timed_out (x : resource) (now : Z) : bool := r_heartbeat x + c_slave_timeout cfg <=? now.

(** The first loop of [handler::on_master_interval]; [pre] are the slaves that stay. *)
Fixpoint slaves_loop (pre l : list nat) : M world unit :=
  match l with
  | [] => ret tt
  | r :: l =>
      let! v := valid r in
      if negb v then modify (set_slaves (pre ++ l)) ;;! slaves_loop pre l else
      let! x := deref_res r in
      let! now := gets g_current_time in
      if timed_out x now then
        let! b := invalidate r in
        (if (b : bool) then ret tt else remove_resource (r_fd x)) ;;!
        modify (set_slaves (pre ++ l)) ;;!
        slaves_loop pre l
      else slaves_loop (pre ++ [r]) l
  end.

(** [handler::gc_ready]. *)
Definition gc_ready (t : tick) : M world bool :=
  yield ;;!
  let! g := gets m_gc_thread in
  if match g with Some th => th_running th | None => false end then ret false else
  (if bool_decide (g = None) then ret tt
   else modify (fun w => set_gc_thread None (set_last_gc (t_now t) w))) ;;!
  if negb (t_flush_time t =? 0) && (t_flush_time t <=? t_now t) then ret true else
  if c_memory_limit cfg <? t_used_memory t then ret true else
  let! ns := gets m_new_slaves in
  let! n := gets m_consecutive_gcs in
  if negb (bool_decide (ns = [])) && (n <? MAX_CONSECUTIVE_GCS)
  then modify (set_consecutive_gcs (n + 1)) ;;! ret true else
  let! last := gets m_last_gc in
  if last + c_gc_interval cfg <? t_now t then modify (set_consecutive_gcs 0) ;;! ret true else
  ret false.

(** The slaves of a collection thread (gc_thread::gc_thread). *)
Definition gc_slaves (slaves new_slaves : list nat) : list nat :=
  slaves ++ filter (fun r => r ∉ slaves) new_slaves.

(** [handler::on_master_interval]. *)
Definition on_master_interval (t : tick) : M world unit :=
  let! l := gets m_slaves in
  slaves_loop [] l ;;!
  let! ready := gc_ready t in
  if (ready : bool) then
    let! slaves := gets m_slaves in
    let! new_slaves := gets m_new_slaves in
    modify (set_gc_thread (Some (started (gc_slaves slaves new_slaves) None))) ;;!
    modify (set_new_slaves [])
  else ret tt.

(** [server::reactor_gc_ready] with [handler::reactor_gc_ready]. *)
Definition reactor_gc_ready (w : world) : bool :=
  negb (bool_decide (m_garbage w = [])) && bool_decide (m_requests w = []) &&
  bool_decide (m_gc_thread w = None) && bool_decide (m_new_slaves w = []).

(** The callback of [server::serve_master]. *)
Definition master_callback (t : tick) : M world unit :=
  modify (set_current_time (t_now t)) ;;!
  let! qs := gets m_requests in
  (if bool_decide (qs = []) then ret tt else syncer_check) ;;!
  on_master_interval t ;;!
  let! ready := gets reactor_gc_ready in
  if (ready : bool) then
    let! _ := fix_garbage in add_request ReactorGC
  else ret tt.

(** [reactor::run]: after each [poll], the callback when its interval has passed. *)
Definition iteration (it : list event * option tick) : M world unit :=
  poll (fst it) ;;!
  match snd it with None => ret tt | Some t => master_callback t end.
Definition run (its : list (list event * option tick)) : M world unit := iterM iteration its.
End master.

(** The master as it starts: listening sockets, idle workers. *)
Definition listening (l : list (nat * bool)) : gmap nat resource :=
  list_to_map (imap (fun i fr => (i, new_resource (fst fr) (KServer (snd fr)) 0)) l).
Definition master_start (workers : nat) (l : list (nat * bool))
    (sched : list (list ((nat + unit) * act))) (inputs : list input) : world :=
  {| w_heap := listening l; w_next := length l;
     m_resources := list_to_map (imap (fun i fr => (fst fr, i)) l);
     m_readables := []; m_drop_req := []; m_garbage := []; m_garbage_copy := [];
     w_workers := replicate workers idle; m_worker_index := 0; m_requests := [];
     m_slaves := []; m_new_slaves := []; m_gc_thread := None; m_last_gc := 0;
     m_consecutive_gcs := 0; g_current_time := 0; w_sched := sched; w_inputs := inputs |}.
