(* ===== verification/ReactorInv.v ===== *)
(** * The invariant of the running master

    What holds of sockets, threads and requests whenever the reactor thread yields, and
    that every step of the other threads keeps it. *)

From stdpp Require Import gmap.
From S2P Require Import Prelude.
From S2P Require Import Reactor.

(** ** The invariant *)

(** A thread: it reaches only living sockets; the descriptor of a [with_fd] that passed
    its test is open; a socket it has invalidated is still registered and nobody else
    reports it; a receiving job holds its socket's busy flag. *)
Record thread_ok (drops fresh : list nat) (w : world) (t : thread) : Prop := {
  to_refs : forall r, r ∈ th_refs t -> is_Some (w_heap w !! r) /\ r ∉ fresh;
  to_idle : th_running t = false -> t = idle;
  to_fd : forall r b, th_fd t = Some (r, b) -> r ∈ th_refs t /\
    (b = true -> exists x, w_heap w !! r = Some x /\ r_closed x = false);
  to_drop : forall d, th_drop t = Some d -> th_fd t = Some (d, true) /\
    exists x, w_heap w !! d = Some x /\ r_valid x = false /\ m_resources w !! r_fd x = Some d /\
      r_fd x ∉ m_drop_req w ++ drops;
  to_recv : forall r, th_recv t = Some r -> r ∈ th_refs t /\
    exists x, w_heap w !! r = Some x /\ r_busy x = true
}.

(** Sockets that must not be destructed yet because the reactor still uses them. *)
Definition kept (w : world) : list nat :=
  m_slaves w ++ m_new_slaves w ++
  omap (fun q => match rq_callback q with AddSlave r => Some r | ReactorGC => None end) (m_requests w).

(** The workers whose flag is set do not reach the garbage being collected. *)
Definition flags_ok (w : world) (q : sync_request) : Prop :=
  rq_callback q = ReactorGC ->
  forall i t r, i ∈ rq_flags q -> w_workers w !! i = Some t -> r ∈ th_refs t -> r ∉ m_garbage_copy w.

(** [drops]: removal requests being processed; [todo]: descriptors still to be processed;
    [fresh]: sockets not yet registered. *)
Record winv (drops todo fresh : list nat) (w : world) : Prop := {
  wi_reg : forall fd r, m_resources w !! fd = Some r ->
    exists x, w_heap w !! r = Some x /\ r_fd x = fd /\ r_closed x = false;
  wi_next : forall r, is_Some (w_heap w !! r) -> (r < w_next w)%nat;
  wi_valid : forall r x, w_heap w !! r = Some x -> r_valid x = true ->
    m_resources w !! r_fd x = Some r \/ r ∈ fresh;
  wi_closed : forall r x, w_heap w !! r = Some x -> r_closed x = true -> r_valid x = false;
  wi_garbage : forall r, r ∈ m_garbage w ++ m_garbage_copy w ->
    (exists x, w_heap w !! r = Some x /\ r_valid x = false) /\ r ∉ fresh /\
    forall fd, m_resources w !! fd <> Some r;
  wi_garbage_nodup : NoDup (m_garbage w ++ m_garbage_copy w);
  wi_drop : forall fd, fd ∈ m_drop_req w ++ drops ->
    exists r x, m_resources w !! fd = Some r /\ w_heap w !! r = Some x /\ r_valid x = false;
  wi_drop_nodup : NoDup (m_drop_req w ++ drops);
  wi_todo : forall fd, fd ∈ todo -> is_Some (m_resources w !! fd);
  wi_readables : forall fd, fd ∈ m_readables w -> is_Some (m_resources w !! fd);
  wi_thread : forall who t, get_thread who w = Some t -> thread_ok drops fresh w t;
  wi_drop_one : forall who1 who2 t1 t2 d, get_thread who1 w = Some t1 -> get_thread who2 w = Some t2 ->
    th_drop t1 = Some d -> th_drop t2 = Some d -> who1 = who2;
  wi_recv_one : forall who1 who2 t1 t2 r, get_thread who1 w = Some t1 -> get_thread who2 w = Some t2 ->
    th_recv t1 = Some r -> th_recv t2 = Some r -> who1 = who2;
  wi_slaves : NoDup (m_slaves w);
  wi_kept : forall r, r ∈ kept w -> is_Some (w_heap w !! r) /\ r ∉ m_garbage_copy w;
  wi_gc_refs : forall t r, m_gc_thread w = Some t -> r ∈ th_refs t -> r ∉ m_garbage_copy w;
  wi_flags : Forall (flags_ok w) (m_requests w);
  wi_workers : (length (w_workers w) <= MAX_WORKERS)%nat;
  wi_index : w_workers w <> [] -> (m_worker_index w < length (w_workers w))%nat
}.

(** ** What other threads may do to the state *)

(** What only the reactor thread writes. *)
Definition private (w : world) :=
  (m_resources w, m_readables w, m_garbage w, m_garbage_copy w, m_requests w,
   m_slaves w, m_new_slaves w, w_next w, (m_last_gc w, m_consecutive_gcs w, g_current_time w)).

Record rely (w w' : world) : Prop := {
  re_private : private w' = private w;
  re_back : forall r x', w_heap w' !! r = Some x' -> exists x, w_heap w !! r = Some x /\
    r_fd x' = r_fd x /\ r_kind x' = r_kind x /\ r_closed x' = r_closed x /\
    (r_valid x' = true -> r_valid x = true) /\ (r_busy x' = true -> r_busy x = true);
  re_dom : forall r, is_Some (w_heap w !! r) -> is_Some (w_heap w' !! r);
  re_busy : forall r x, w_heap w !! r = Some x -> r_busy x = true ->
    (forall who t, get_thread who w = Some t -> th_recv t <> Some r) ->
    exists x', w_heap w' !! r = Some x' /\ r_busy x' = true;
  re_thread : forall who t', get_thread who w' = Some t' -> exists t, get_thread who w = Some t /\
    (th_running t' = true -> th_running t = true) /\ th_refs t' ⊆ th_refs t /\
    (forall r, th_recv t' = Some r -> th_recv t = Some r);
  re_len : length (w_workers w') = length (w_workers w);
  re_gc : m_gc_thread w = None -> m_gc_thread w' = None
}.

Lemma rely_refl w : rely w w.
Proof. split; try done; intros; eauto 10. Qed.

Lemma rely_trans w1 w2 w3 : rely w1 w2 -> rely w2 w3 -> rely w1 w3.
Proof.
  intros [P1 B1 D1 U1 T1 L1 G1] [P2 B2 D2 U2 T2 L2 G2]. split.
  - congruence.
  - intros r x3 Hx3. destruct (B2 r x3 Hx3) as (x2&Hx2&?&?&?&?&?). destruct (B1 r x2 Hx2) as (x1&Hx1&?&?&?&?&?).
    exists x1. split_and!; [done|congruence..|auto|auto].
  - auto.
  - intros r x Hx Hb Hn. destruct (U1 r x Hx Hb Hn) as (x2&Hx2&Hb2). apply (U2 r x2 Hx2 Hb2).
    intros who t Ht Hr. destruct (T1 who t Ht) as (t0&Ht0&_&_&Hr0). apply (Hn who t0 Ht0). auto.
  - intros who t3 Ht3. destruct (T2 who t3 Ht3) as (t2&Ht2&?&?&?). destruct (T1 who t2 Ht2) as (t1&Ht1&?&?&?).
    exists t1. split_and!; [done|auto|set_solver|auto].
  - congruence.
  - auto.
Qed.

(** *** One thread changes *)

Lemma get_set_thread who t t' w who' :
  get_thread who w = Some t ->
  get_thread who' (set_thread who t' w) = if decide (who' = who) then Some t' else get_thread who' w.
Proof.
  intros Ht. destruct who as [i|[]], who' as [j|[]]; cbn in *; try done.
  - rewrite list_lookup_insert. pose proof (lookup_lt_Some _ _ _ Ht). case_decide as E.
    + destruct E as [-> _]. by rewrite decide_True by done.
    + rewrite decide_False; [done|]. intros [= ->]. by apply E.
Qed.

Lemma private_set_thread who t w : private (set_thread who t w) = private w.
Proof. by destruct who. Qed.
Lemma heap_set_thread who t w : w_heap (set_thread who t w) = w_heap w.
Proof. by destruct who. Qed.
Lemma drop_set_thread who t w : m_drop_req (set_thread who t w) = m_drop_req w.
Proof. by destruct who. Qed.
Lemma len_set_thread who t w : length (w_workers (set_thread who t w)) = length (w_workers w).
Proof. destruct who; [cbn; apply length_insert|done]. Qed.

Lemma thread_ok_ext drops fresh w w' t :
  w_heap w' = w_heap w -> m_resources w' = m_resources w -> m_drop_req w' = m_drop_req w ->
  thread_ok drops fresh w t -> thread_ok drops fresh w' t.
Proof. intros Eh Er Ed []. split; rewrite ?Eh, ?Er, ?Ed; done. Qed.

Lemma set_thread_same who t w :
  w_heap (set_thread who t w) = w_heap w /\ m_resources (set_thread who t w) = m_resources w /\
  m_drop_req (set_thread who t w) = m_drop_req w.
Proof. by destruct who. Qed.

Section invariant.
Context (drops todo fresh : list nat).
Notation winv := (winv drops todo fresh).
Notation thread_ok := (thread_ok drops fresh).

(** The members the invariant is about. *)
Definition core (w : world) :=
  (w_heap w, w_next w, m_resources w, m_readables w, m_drop_req w, m_garbage w, m_garbage_copy w,
   (w_workers w, m_worker_index w, m_requests w, m_slaves w, m_new_slaves w, m_gc_thread w)).

Lemma winv_core w w' : core w' = core w -> winv w -> winv w'.
Proof.
  intros E [H1 H2 H3 H4 H5 H6 H7 H8 H9 H10 H11 H12 H13 H14 H15 H16 H17 H18 H19].
  destruct w, w'. unfold core in E. cbn in E. injection E as -> -> -> -> -> -> -> -> -> -> -> -> ->.
  split; try done.
  intros who t Ht. eapply thread_ok_ext; cycle 3; [apply (H11 who t); by destruct who as [i|[]]|done..].
Qed.

Lemma winv_set_thread w who t t' :
  winv w -> get_thread who w = Some t -> thread_ok w t' -> th_refs t' ⊆ th_refs t ->
  (forall d, th_drop t' = Some d -> th_drop t = Some d \/
     forall who2 t2, get_thread who2 w = Some t2 -> who2 <> who -> th_drop t2 <> Some d) ->
  (forall r, th_recv t' = Some r -> th_recv t = Some r) ->
  winv (set_thread who t' w).
Proof.
  intros Hi Ht Hok Hrefs Hdrop Hrecv.
  assert (forall who2 t2, get_thread who2 (set_thread who t' w) = Some t2 ->
    (who2 = who /\ t2 = t') \/ (who2 <> who /\ get_thread who2 w = Some t2)) as Hget.
  { intros who2 t2. rewrite (get_set_thread who t) by done. case_decide; [intros [= <-]; auto|auto]. }
  destruct Hi as [H1 H2 H3 H4 H5 H6 H7 H8 H9 H10 H11 H12 H13 H14 H15 H16 H17 H18 H19].
  split; try (by destruct who).
  - intros who2 t2 [[-> ->]|[_ Hg]]%Hget; [|apply H11 in Hg]; eapply thread_ok_ext; try apply set_thread_same; done.
  - intros w1 w2 t1 t2 d [[-> ->]|[Hn1 Hg1]]%Hget [[-> ->]|[Hn2 Hg2]]%Hget Hd1 Hd2; try done.
    + destruct (Hdrop d Hd1) as [Hd|Hd]; [by eapply H12|by destruct (Hd w2 t2)].
    + destruct (Hdrop d Hd2) as [Hd|Hd]; [by eapply H12|by destruct (Hd w1 t1)].
    + by eapply H12.
  - intros w1 w2 t1 t2 r [[-> ->]|[Hn1 Hg1]]%Hget [[-> ->]|[Hn2 Hg2]]%Hget Hd1 Hd2; try done; eapply H13; eauto.
  - destruct who as [i|[]]; [done|]. cbn. intros t2 r [= <-] Hr. apply (H16 t); [done|by apply Hrefs].
  - rewrite Forall_forall in H17 |- *. destruct who as [i|[]]; [|done]. intros q Hq Hc j tj r Hj Htj Hr.
    destruct (Hget (inl j) tj Htj) as [[[= ->] ->]|[_ Hg]].
    + apply (H17 q Hq Hc i t); [done|done|by apply Hrefs].
    + by apply (H17 q Hq Hc j tj).
  - by rewrite len_set_thread.
  - rewrite len_set_thread. destruct who as [i|[]]; [|done]. cbn. intros _. apply H19. cbn in Ht.
    by destruct (w_workers w).
Qed.

Lemma rely_set_thread w who t t' :
  get_thread who w = Some t -> th_refs t' ⊆ th_refs t -> (forall r, th_recv t' = Some r -> th_recv t = Some r) ->
  th_running t = true -> rely w (set_thread who t' w).
Proof.
  intros Ht Hrefs Hrecv Hrun. split.
  - apply private_set_thread.
  - rewrite heap_set_thread. eauto 10.
  - by rewrite heap_set_thread.
  - rewrite heap_set_thread. eauto.
  - intros who2 t2. rewrite (get_set_thread who t) by done. case_decide as E; [|eauto 10].
    intros [= <-]. subst. exists t. done.
  - apply len_set_thread.
  - destruct who as [i|[]]; [done|]. cbn in *. congruence.
Qed.

(** *** A socket changes *)

Record mild (f : resource -> resource) : Prop := {
  mi_fd : forall x, r_fd (f x) = r_fd x;
  mi_kind : forall x, r_kind (f x) = r_kind x;
  mi_closed : forall x, r_closed (f x) = r_closed x;
  mi_valid : forall x, r_valid (f x) = true -> r_valid x = true
}.

Lemma upd_lookup r f w r' x' :
  w_heap (upd r f w) !! r' = Some x' ->
  exists x, w_heap w !! r' = Some x /\ x' = if decide (r' = r) then f x else x.
Proof.
  cbn. destruct (decide (r' = r)) as [-> |Hne].
  - rewrite lookup_alter_eq. intros (x&Hx&->)%fmap_Some. eauto.
  - rewrite lookup_alter_ne by done. eauto.
Qed.

Lemma upd_some r f w r' x :
  w_heap w !! r' = Some x -> w_heap (upd r f w) !! r' = Some (if decide (r' = r) then f x else x).
Proof.
  intros Hx. cbn. destruct (decide (r' = r)) as [-> |Hne]; [by rewrite lookup_alter_eq, Hx|by rewrite lookup_alter_ne].
Qed.

Lemma upd_is_some r f w r' : is_Some (w_heap w !! r') -> is_Some (w_heap (upd r f w) !! r').
Proof. intros [x Hx]. rewrite (upd_some r f w r' x) by done. eauto. Qed.

Lemma winv_upd w r f :
  winv w -> mild f ->
  (forall who t x, get_thread who w = Some t -> th_recv t = Some r -> w_heap w !! r = Some x -> r_busy (f x) = true) ->
  winv (upd r f w).
Proof.
  intros [H1 H2 H3 H4 H5 H6 H7 H8 H9 H10 H11 H12 H13 H14 H15 H16 H17 H18 H19] [Mf Mk Mc Mv] Hb.
  split; try done.
  - intros fd r' Hr. destruct (H1 fd r' Hr) as (x&Hx&Hfd&Hcl). eexists. split; [by apply upd_some|].
    case_decide; rewrite ?Mf, ?Mc; done.
  - intros r' [x' Hx']. apply upd_lookup in Hx' as (x&Hx&_). apply H2. eauto.
  - intros r' x' Hx' Hv. apply upd_lookup in Hx' as (x&Hx&->). destruct (H3 r' x Hx) as [|]; [|left|by right].
    + case_decide; [by apply Mv|done].
    + case_decide; rewrite ?Mf; done.
  - intros r' x' Hx' Hc. apply upd_lookup in Hx' as (x&Hx&->). specialize (H4 r' x Hx). case_decide; [|by auto].
    rewrite Mc in Hc. destruct (r_valid (f x)) eqn:Ev; [|done]. apply Mv in Ev. rewrite H4 in Ev; done.
  - intros r' Hr. destruct (H5 r' Hr) as ((x&Hx&Hv)&Hg). split; [|done]. eexists. split; [by apply upd_some|].
    case_decide; [|done]. destruct (r_valid (f x)) eqn:Ev; [|done]. apply Mv in Ev. congruence.
  - intros fd Hfd. destruct (H7 fd Hfd) as (r'&x&Hr&Hx&Hv). eexists r', _. split; [done|]. split; [by apply upd_some|].
    case_decide; [|done]. destruct (r_valid (f x)) eqn:Ev; [|done]. apply Mv in Ev. congruence.
  - intros who t Ht. destruct (H11 who t Ht) as [T1 T2 T3 T4 T5]. split; [|done|..].
    + intros r' Hr. destruct (T1 r' Hr). split; [by apply upd_is_some|done].
    + intros r' b Hr. destruct (T3 r' b Hr) as [Hin Hbt]. split; [done|]. intros Hb1.
      destruct (Hbt Hb1) as (x&Hx&Hc). eexists. split; [by apply upd_some|]. case_decide; rewrite ?Mc; done.
    + intros d Hd. destruct (T4 d Hd) as (Hfd&x&Hx&Hv&Hr&Hn). split; [done|]. eexists. split; [by apply upd_some|].
      case_decide; [|done]. rewrite !Mf. split; [|done].
      destruct (r_valid (f x)) eqn:Ev; [|done]. apply Mv in Ev. congruence.
    + intros r' Hr. destruct (T5 r' Hr) as (Hin&x&Hx&Hbx). split; [done|]. eexists. split; [by apply upd_some|].
      case_decide; [|done]. subst r'. by eapply Hb.
  - intros r' Hr. destruct (H15 r' Hr). split; [by apply upd_is_some|done].
Qed.

Lemma rely_upd w r f :
  mild f -> (forall x, r_busy (f x) = r_busy x) -> rely w (upd r f w).
Proof.
  intros [Mf Mk Mc Mv] Hb. split; try done.
  - intros r' x' Hx'. apply upd_lookup in Hx' as (x&Hx&->). exists x. split; [done|].
    case_decide; rewrite ?Mf, ?Mk, ?Mc, ?Hb; split_and!; auto.
  - intros r'. apply upd_is_some.
  - intros r' x Hx Hbx _. eexists. split; [by apply upd_some|]. case_decide; rewrite ?Hb; done.
  - eauto 10.
Qed.

Lemma mild_invalid : mild (with_valid false).
Proof. by split. Qed.
Lemma mild_busy b : mild (with_busy b).
Proof. by split. Qed.
Lemma mild_slaves l : mild (with_slaves l).
Proof. by split. Qed.
Lemma mild_heartbeat t : mild (with_heartbeat t).
Proof. by split. Qed.

(** A valid socket is reported by nobody. *)
Lemma valid_not_dropped w r x :
  winv w -> w_heap w !! r = Some x -> r_valid x = true -> m_resources w !! r_fd x = Some r ->
  r_fd x ∉ m_drop_req w ++ drops /\ forall who t, get_thread who w = Some t -> th_drop t <> Some r.
Proof.
  intros Hi Hx Hv Hr. split.
  - intros Hin. destruct (wi_drop _ _ _ _ Hi _ Hin) as (r'&x'&Hr'&Hx'&Hv'). congruence.
  - intros who t Ht Hd. destruct (to_drop _ _ _ _ (wi_thread _ _ _ _ Hi who t Ht) r Hd) as (_&x'&Hx'&Hv'&_). congruence.
Qed.

(** A removal request joins the queue. *)
Lemma winv_request w who t d x :
  winv w -> get_thread who w = Some t -> th_drop t = Some d -> w_heap w !! d = Some x ->
  winv (set_thread who (with_fd_state None None t) (set_drop_req (m_drop_req w ++ [r_fd x]) w)).
Proof.
  intros Hi Ht Hd Hx.
  pose proof (wi_thread _ _ _ _ Hi who t Ht) as Hok. destruct Hok as [T1 T2 T3 T4 T5].
  destruct (T4 d Hd) as (Hfd&x'&Hx'&Hv&Hr&Hn). assert (x' = x) as -> by congruence. clear Hx'.
  set (t' := with_fd_state None None t). set (w1 := set_thread who t' w).
  assert (winv w1) as Hi1.
  { apply (winv_set_thread w who t); try done. split; try done.
    intros Hrun. cbn in Hrun. specialize (T2 Hrun). subst t. done. }
  assert (forall who2 t2, get_thread who2 w1 = Some t2 -> th_drop t2 <> Some d) as Hnone.
  { intros who2 t2. unfold w1. rewrite (get_set_thread who t) by done. case_decide as E; [by intros [= <-]|].
    intros Ht2 Hd2. apply E. by eapply (wi_drop_one _ _ _ _ Hi). }
  destruct Hi1 as [H1 H2 H3 H4 H5 H6 H7 H8 H9 H10 H11 H12 H13 H14 H15 H16 H17 H18 H19].
  assert (set_thread who t' (set_drop_req (m_drop_req w ++ [r_fd x]) w)
          = set_drop_req (m_drop_req w1 ++ [r_fd x]) w1) as ->.
  { unfold w1. by destruct who as [i|[]]. }
  assert (m_resources w1 = m_resources w /\ w_heap w1 = w_heap w /\ m_drop_req w1 = m_drop_req w) as (Er&Eh&Ed)
    by (unfold w1; by destruct who).
  split; try done; cbn.
  - rewrite <- app_assoc. intros fd [Hin|[Hin|Hin]%elem_of_app]%elem_of_app.
    + apply H7, elem_of_app. auto.
    + apply list_elem_of_singleton in Hin as ->. exists d, x. rewrite Er, Eh. done.
    + apply H7, elem_of_app. auto.
  - rewrite <- app_assoc. cbn. rewrite <- Permutation_middle. apply NoDup_cons. by rewrite Ed in *.
  - intros who2 t2 Ht2. pose proof (H11 who2 t2) as Hok2. destruct who2 as [i2|[]]; cbn in Hok2, Ht2;
      destruct (Hok2 Ht2) as [U1 U2 U3 U4 U5]; (split; [done..| |done]); cbn.
    all: intros d2 Hd2; destruct (U4 d2 Hd2) as (Hfd2&x2&Hx2&Hv2&Hr2&Hn2); split; [done|]; exists x2; split_and!; try done.
    all: rewrite <- app_assoc, !elem_of_app in *; cbn; rewrite list_elem_of_singleton; intros [?|[Heq|?]]; [tauto| |tauto].
    all: assert (d2 = d) as -> by (rewrite Er, Heq in Hr2; congruence).
    + by apply (Hnone (inl i2) t2).
    + by apply (Hnone (inr ()) t2).
Qed.

Lemma rely_request w who t d x :
  get_thread who w = Some t -> th_running t = true -> th_drop t = Some d ->
  rely w (set_thread who (with_fd_state None None t) (set_drop_req (m_drop_req w ++ [r_fd x]) w)).
Proof.
  intros Ht Hrun Hd. set (w0 := set_drop_req _ w).
  eapply rely_trans; [|apply (rely_set_thread w0 who t); try done; by destruct who].
  split; try done; eauto 10.
Qed.

(** Changing only the [with_fd] of a thread. *)
Lemma act_with_fd w who t o :
  winv w -> get_thread who w = Some t -> th_running t = true ->
  (forall r b, o = Some (r, b) -> r ∈ th_refs t /\
     (b = true -> exists x, w_heap w !! r = Some x /\ r_closed x = false)) ->
  let w' := set_thread who (with_fd_state o None t) w in winv w' /\ rely w w'.
Proof.
  intros Hi Ht Hrun Ho w'. destruct (wi_thread _ _ _ _ Hi who t Ht) as [T1 T2 T3 T4 T5]. split.
  - apply (winv_set_thread w who t); try done. split; try done. cbn. congruence.
  - by apply (rely_set_thread w who t).
Qed.

Lemma idle_ok w : thread_ok w idle.
Proof. split; try done. by intros r ?%not_elem_of_nil. Qed.

Lemma act_unbusy w who t r :
  winv w -> get_thread who w = Some t -> th_running t = true -> th_recv t = Some r ->
  th_fd t = None -> th_drop t = None ->
  let w' := set_thread who {| th_running := true; th_refs := th_refs t; th_recv := None;
                              th_fd := None; th_drop := None |} (upd r (with_busy false) w) in
  winv w' /\ rely w w'.
Proof.
  intros Hi Ht Hrun Hr Hfd Hnd w'. set (t' := {| th_running := true; th_recv := None |}) in w'.
  set (w1 := set_thread who t' w). assert (w' = upd r (with_busy false) w1) as E by (subst w' w1; by destruct who).
  destruct (wi_thread _ _ _ _ Hi who t Ht) as [T1 T2 T3 T4 T5].
  assert (forall who2 t2, get_thread who2 w1 = Some t2 ->
    who2 = who /\ t2 = t' \/ who2 <> who /\ get_thread who2 w = Some t2) as Hget.
  { intros who2 t2. unfold w1. rewrite (get_set_thread who t) by done. case_decide; [intros [= <-]; auto|auto]. }
  split.
  - rewrite E. apply winv_upd; [|apply mild_busy|].
    + apply (winv_set_thread w who t); done || by split.
    + intros who2 t2 x [[-> ->]|[Hne Ht2]]%Hget Hr2 _; [done|].
      by destruct Hne; eapply (wi_recv_one _ _ _ _ Hi).
  - rewrite E. assert (w_heap w1 = w_heap w) as Eh by apply heap_set_thread. split.
    + change (private (upd r (with_busy false) w1)) with (private w1). apply private_set_thread.
    + intros r' x' Hx'. apply upd_lookup in Hx' as (x&Hx&->). rewrite Eh in Hx. exists x. split; [done|].
      case_decide; split_and!; done.
    + intros r' Hs. apply upd_is_some. by rewrite Eh.
    + intros r' x Hx Hb Hnone. assert (r' <> r) by (intros ->; by apply (Hnone who t)).
      exists x. split; [|done]. rewrite (upd_some r _ _ r' x) by (by rewrite Eh). by rewrite decide_False.
    + intros who2 t2 Hg. destruct (Hget who2 t2) as [[-> ->]|[_ Ht2]]; [by destruct who2 as [|[]]|..].
      * exists t. split_and!; done.
      * eauto 10.
    + change (length (w_workers w1) = length (w_workers w)). apply len_set_thread.
    + intros Hn. destruct who as [i|[]]; [done|]. cbn in Ht. congruence.
Qed.

Lemma thread_act_ok w who a :
  winv w -> match thread_act who a w with inl _ => False | inr w' => winv w' /\ rely w w' end.
Proof.
  intros Hi. pose proof (rely_refl w) as Hrefl. unfold thread_act.
  destruct (get_thread who w) as [t|] eqn:Ht; [|done].
  destruct (th_running t) eqn:Hrun; cbn [negb]; [|done].
  pose proof (wi_thread _ _ _ _ Hi who t Ht) as Hok. destruct Hok as [T1 T2 T3 T4 T5].
  destruct a as [r| | | | | | |], (th_fd t) as [[rf [|]]|] eqn:Hfd; try done.
  - (* ALock *) case_bool_decide as Hin; [|done]. destruct (T1 r Hin) as [[x ->] _].
    apply act_with_fd; try done. by intros r' b [= -> <-].
  - (* ACheck *) destruct (T3 rf false eq_refl) as [Hin _]. destruct (T1 rf Hin) as [[x Hx] _]. rewrite Hx.
    apply act_with_fd; try done. intros r b Hrb. destruct (r_valid x) eqn:Hv; [|done]. injection Hrb as <- <-.
    split; [done|]. intros _. exists x. split; [done|]. destruct (r_closed x) eqn:Hc; [|done].
    rewrite (wi_closed _ _ _ _ Hi rf x Hx Hc) in Hv. done.
  - (* AUse *) destruct (T3 rf true eq_refl) as [Hin Hb]. destruct (Hb eq_refl) as (x&Hx&Hc).
    destruct (th_drop t); [done|]. by rewrite Hx, Hc.
  - (* AEnd *) destruct (T3 rf true eq_refl) as [Hin Hb]. destruct (Hb eq_refl) as (x&Hx&Hc).
    destruct (th_drop t); [done|]. rewrite Hx. by apply act_with_fd.
  - (* AInvalidate *) destruct (T3 rf true eq_refl) as [Hin Hb]. destruct (Hb eq_refl) as (x&Hx&Hc).
    destruct (th_drop t); [done|]. rewrite Hx. destruct (r_valid x) eqn:Hv; [|by apply act_with_fd].
    destruct (T1 rf Hin) as [_ Hfresh]. destruct (wi_valid _ _ _ _ Hi rf x Hx Hv) as [Hreg|]; [|done].
    destruct (valid_not_dropped w rf x Hi Hx Hv Hreg) as [Hnd Hno].
    set (w1 := upd rf (with_valid false) w).
    assert (winv w1) as Hi1.
    { apply winv_upd; [done|apply mild_invalid|]. intros who2 t2 x2 Ht2 Hr2 Hx2.
      destruct (to_recv _ _ _ _ (wi_thread _ _ _ _ Hi who2 t2 Ht2) rf Hr2) as (_&x3&Hx3&Hb3). cbn. congruence. }
    assert (get_thread who w1 = Some t) as Ht1 by done.
    assert (w_heap w1 !! rf = Some (with_valid false x)) as Hx1
      by (unfold w1; rewrite (upd_some _ _ _ rf x) by done; by rewrite decide_True).
    split.
    + apply (winv_set_thread w1 who t); try done; cycle 1.
      { intros d [= <-]. right. intros who2 t2 Ht2 _. by apply (Hno who2 t2). }
      destruct (wi_thread _ _ _ _ Hi1 who t Ht1) as [U1 U2 U3 U4 U5]. split; cbn [th_refs th_running th_fd th_drop th_recv with_fd_state]; try done.
      * congruence.
      * intros r b [= <- <-]. split; [done|]. intros _. eauto.
      * intros d [= <-]. split; [done|]. exists (with_valid false x). done.
    + eapply rely_trans; [apply rely_upd; [apply mild_invalid|done]|]. by apply (rely_set_thread w1 who t).
  - (* ARequest *) destruct (th_drop t) as [d|] eqn:Hd; [|done].
    destruct (T4 d eq_refl) as (_&x&Hx&_). rewrite Hx. split; [by apply winv_request with (d := d)|].
    by apply rely_request with (d := d).
  - (* AUnbusy *) destruct (th_recv t) as [r|] eqn:Hr; [|done]. destruct (T5 r eq_refl) as (Hin&x&Hx&Hbz). rewrite Hx.
    assert (th_drop t = None) as Hnd by (destruct (th_drop t) as [d|]; [by destruct (T4 d eq_refl)|done]).
    by apply act_unbusy with (t := t).
  - (* AFinish *) destruct (th_recv t) as [r|] eqn:Hr; [done|]. split.
    + apply (winv_set_thread w who t); try done; [apply idle_ok|apply list_subseteq_nil].
    + by apply (rely_set_thread w who t); [|apply list_subseteq_nil|..].
Qed.

Lemma thread_acts_ok l w :
  winv w -> match thread_acts l w with inl _ => False | inr w' => winv w' /\ rely w w' end.
Proof.
  revert w. induction l as [|[who a] l IH]; intros w Hi; [split; [done|apply rely_refl]|]. cbn.
  pose proof (thread_act_ok w who a Hi) as Ha. destruct (thread_act who a w) as [x|w1]; [done|].
  destruct Ha as [Hi1 Hr1]. specialize (IH w1 Hi1). destruct (thread_acts l w1) as [x|w2]; [done|].
  destruct IH as [Hi2 Hr2]. split; [done|by eapply rely_trans].
Qed.

(** Yielding keeps the invariant. *)
Lemma yield_ok w : winv w -> wp no_exn yield (fun _ w' => winv w' /\ rely w w') w.
Proof.
  intros Hi. unfold wp, yield. destruct (w_sched w) as [|l rest]; [split; [done|apply rely_refl]|].
  assert (winv (set_sched rest w)) as Hi1 by (by apply (winv_core w)).
  pose proof (thread_acts_ok l _ Hi1) as Ha. destruct (thread_acts l _) as [x|w1]; [done|].
  destruct Ha as [Hi2 [P B D U T L G]]. split; [done|]. split; try done.
Qed.
End invariant.
