(* ===== verification/ReactorSafe.v ===== *)
(** * Safety of the running master

    Every operation of the reactor thread keeps the invariant at each of its yields, so
    that no schedule of the other threads makes any thread touch a destructed socket or
    a closed descriptor, and the checks of the reactor itself never fail. *)

From stdpp Require Import gmap.
From S2P Require Import Prelude.
From S2P Require Import Reactor.
From S2P Require Import ReactorInv.

(** ** Garbage being collected belongs to a request *)

Definition pend (w : world) : Prop :=
  m_garbage_copy w <> [] -> Exists (fun q => rq_callback q = ReactorGC) (m_requests w).

(** Properties of the requests and of the garbage being collected. *)
Definition about_gc (P : world -> Prop) : Prop := forall w w',
  m_garbage_copy w' = m_garbage_copy w -> m_requests w' = m_requests w -> P w -> P w'.

Lemma pend_gc : about_gc pend.
Proof. unfold about_gc, pend. by intros w w' -> ->. Qed.
Lemma true_gc : about_gc (fun _ => True).
Proof. done. Qed.

Lemma gc_private P w w' : about_gc P -> private w' = private w -> P w -> P w'.
Proof. unfold private. intros HP [= ? ? ? Eg Eq ? ? ? ? ? ?]. by apply HP. Qed.

(** *** Pure steps *)

Lemma kept_private w w' : private w' = private w -> kept w' = kept w.
Proof. unfold private, kept. intros [= ? ? ? ? -> -> -> ? ? ? ?]. done. Qed.

Lemma winv_todo drops todo todo' fresh w :
  (forall fd, fd ∈ todo' -> is_Some (m_resources w !! fd)) -> winv drops todo fresh w -> winv drops todo' fresh w.
Proof. intros Hs []. by split. Qed.

Lemma winv_pop fd drops todo fresh w : winv (fd :: drops) todo fresh w -> winv drops todo fresh w.
Proof.
  intros [H1 H2 H3 H4 H5 H6 H7 H8 H9 H10 H11 H12 H13 H14 H15 H16 H17 H18 H19]. split; try done.
  - intros fd' Hin. apply H7. set_solver.
  - rewrite <- Permutation_middle in H8. by apply NoDup_cons in H8 as [].
  - intros who t Ht. destruct (H11 who t Ht) as [T1 T2 T3 T4 T5]. split; try done.
    intros d Hd. destruct (T4 d Hd) as (?&x&?&?&?&?). split; [done|]. exists x. split_and!; [done..|set_solver].
Qed.

(** A registered, invalid socket that nobody reports any more. *)
Definition removable (drops : list nat) (fd r : nat) (w : world) : Prop :=
  m_resources w !! fd = Some r /\ (exists x, w_heap w !! r = Some x /\ r_valid x = false) /\
  fd ∉ m_drop_req w ++ drops /\ forall who t, get_thread who w = Some t -> th_drop t <> Some r.

Definition removed (fd r : nat) (w : world) : world :=
  set_readables (filter (fun fd' => fd' <> fd) (m_readables w))
    (set_resources (delete fd (m_resources w)) (set_garbage (m_garbage w ++ [r]) w)).

Lemma winv_remove drops todo fresh fd r w :
  winv drops todo fresh w -> removable drops fd r w -> fd ∉ todo -> r ∉ fresh ->
  winv drops todo fresh (removed fd r w).
Proof.
  intros [H1 H2 H3 H4 H5 H6 H7 H8 H9 H10 H11 H12 H13 H14 H15 H16 H17 H18 H19] (Hr&(x&Hx&Hv)&Hnd&Hno) Htodo Hfr.
  assert (r_fd x = fd) as Hfd by (destruct (H1 fd r Hr) as (x'&?&?&?); congruence).
  assert (forall fd', fd' <> fd -> is_Some (m_resources w !! fd') -> is_Some (delete fd (m_resources w) !! fd')) as Hkeep
    by (intros fd' Hne; by rewrite lookup_delete_ne).
  assert (forall fd' r', delete fd (m_resources w) !! fd' = Some r' -> m_resources w !! fd' = Some r') as Hback
    by (intros fd' r' Hd; by apply lookup_delete_Some in Hd as []).
  split; try done; cbn.
  - intros fd' r' Hr'. by apply H1, Hback.
  - intros r' x' Hx' Hv'. destruct (H3 r' x' Hx' Hv') as [Hreg|]; [|by right]. left.
    destruct (decide (r_fd x' = fd)) as [E|E]; [congruence|by rewrite lookup_delete_ne].
  - intros r' Hin. rewrite <- app_assoc in Hin. rewrite !elem_of_app, list_elem_of_singleton in Hin.
    assert (r' = r \/ r' ∈ m_garbage w ++ m_garbage_copy w) as [-> |Hg] by (rewrite elem_of_app; tauto).
    + split; [eauto|]. split; [done|]. intros fd' Hd. apply lookup_delete_Some in Hd as [Hne Hd].
      destruct (H1 fd' r Hd) as (x'&?&?&?). congruence.
    + destruct (H5 r' Hg) as (?&?&Hn). split; [done|]. split; [done|]. intros fd' Hd. by eapply Hn, Hback.
  - rewrite <- app_assoc. cbn. rewrite <- Permutation_middle. apply NoDup_cons. split; [|done].
    intros Hg. destruct (H5 r Hg) as (_&_&Hn). by apply (Hn fd).
  - intros fd' Hin. destruct (H7 fd' Hin) as (r'&x'&?&?&?). exists r', x'. split_and!; try done.
    rewrite lookup_delete_ne; [done|]. intros <-. done.
  - intros fd' Hin. apply Hkeep; [|by apply H9]. intros ->. done.
  - intros fd' Hin. apply list_elem_of_filter in Hin as [Hne Hin]. apply Hkeep; [done|by apply H10].
  - intros who t Ht. destruct (H11 who t) as [T1 T2 T3 T4 T5]; [by destruct who|]. split; try done. cbn.
    intros d Hd. destruct (T4 d Hd) as (?&xd&?&?&?&?). split; [done|]. exists xd. split_and!; try done.
    rewrite lookup_delete_ne; [done|]. intros E. apply (Hno who t); [by destruct who|]. rewrite Hd. congruence.
Qed.

(** Closing a descriptor nobody uses. *)
Lemma not_held r w who t :
  held r w = false -> get_thread who w = Some t -> holds r t = false.
Proof.
  unfold held. intros [Hw Hg]%orb_false_iff Ht. destruct who as [i|[]]; cbn in Ht.
  - apply not_true_iff_false. intros E. apply not_true_iff_false in Hw. apply Hw, existsb_exists. exists t.
    split; [|done]. apply list_elem_of_In. by eapply list_elem_of_lookup_2.
  - by rewrite Ht in Hg.
Qed.

Lemma winv_close drops todo fresh r w :
  winv drops todo fresh w -> r ∈ m_garbage w ++ m_garbage_copy w -> held r w = false ->
  winv drops todo fresh (upd r with_closed w).
Proof.
  intros [H1 H2 H3 H4 H5 H6 H7 H8 H9 H10 H11 H12 H13 H14 H15 H16 H17 H18 H19] Hin Hh.
  destruct (H5 r Hin) as ((xr&Hxr&Hvr)&_&Hn).
  split; try done.
  - intros fd r' Hr. destruct (H1 fd r' Hr) as (x&Hx&Hfd&Hcl). eexists. split; [by apply upd_some|].
    case_decide as E; [|done]. subst r'. by destruct (Hn fd).
  - intros r' [x' Hx']. apply upd_lookup in Hx' as (x&Hx&_). apply H2. eauto.
  - intros r' x' Hx' Hv. apply upd_lookup in Hx' as (x&Hx&->). destruct (H3 r' x Hx) as [|]; [|left|by right].
    + by case_decide.
    + by case_decide.
  - intros r' x' Hx' Hc. apply upd_lookup in Hx' as (x&Hx&->). case_decide as E; [|by apply (H4 r' x)].
    subst r'. cbn. congruence.
  - intros r' Hr. destruct (H5 r' Hr) as ((x&Hx&Hv)&Hg). split; [|done]. eexists. split; [by apply upd_some|]. by case_decide.
  - intros fd Hfd. destruct (H7 fd Hfd) as (r'&x&Hr&Hx&Hv). eexists r', _. split; [done|]. split; [by apply upd_some|]. by case_decide.
  - intros who t Ht. destruct (H11 who t Ht) as [T1 T2 T3 T4 T5]. pose proof (not_held r w who t Hh Ht) as Hnh. split; [|done|..].
    + intros r' Hr. destruct (T1 r' Hr). split; [by apply upd_is_some|done].
    + intros r' b Hr. destruct (T3 r' b Hr) as [Hr1 Hbt]. split; [done|]. intros Hb1.
      destruct (Hbt Hb1) as (x&Hx&Hc). eexists. split; [by apply upd_some|]. case_decide as E; [|done].
      subst r'. unfold holds in Hnh. rewrite Hr in Hnh. by rewrite bool_decide_true in Hnh.
    + intros d Hd. destruct (T4 d Hd) as (Hfd&x&Hx&Hv&Hr&Hnn). split; [done|]. eexists. split; [by apply upd_some|]. by case_decide.
    + intros r' Hr. destruct (T5 r' Hr) as (Hr1&x&Hx&Hbx). split; [done|]. eexists. split; [by apply upd_some|]. by case_decide.
  - intros r' Hr. destruct (H15 r' Hr). split; [by apply upd_is_some|done].
Qed.

(** ** Operations on sockets *)

Definition good (P : world -> Prop) (drops todo fresh : list nat) (w : world) : Prop :=
  winv drops todo fresh w /\ P w.

Lemma good_rely P drops todo fresh w w' :
  about_gc P -> P w -> winv drops todo fresh w' -> rely w w' -> good P drops todo fresh w'.
Proof. intros HP Hp Hi Hr. split; [done|]. eapply gc_private; [done|apply (re_private _ _ Hr)|done]. Qed.

Lemma wp_deref r x (Q : resource -> world -> Prop) w :
  w_heap w !! r = Some x -> Q x w -> wp no_exn (deref_res r) Q w.
Proof. intros Hx HQ. apply wp_bind, wp_gets. rewrite Hx. by apply wp_ret. Qed.

Lemma flags_rely w w' q : rely w w' -> flags_ok w q -> flags_ok w' q.
Proof.
  intros Hr Hq Hc i t r Hi Ht Hin. destruct (re_thread _ _ Hr (inl i) t Ht) as (t0&Ht0&_&Hsub&_).
  pose proof (re_private _ _ Hr) as Hp. unfold private in Hp. injection Hp as _ _ _ Eg _ _ _ _ _ _ _. rewrite Eg.
  apply (Hq Hc i t0); [done|done|by apply Hsub].
Qed.

Section ops.
Context (P : world -> Prop) (HP : about_gc P) (drops todo fresh : list nat).
Notation winv := (winv drops todo fresh).
Notation good := (good P drops todo fresh).

Lemma wp_yield (Q : unit -> world -> Prop) w :
  good w -> (forall w', good w' -> rely w w' -> Q tt w') -> wp no_exn yield Q w.
Proof.
  intros [Hi Hp] HQ. eapply wp_mono; [by apply (yield_ok drops todo fresh)|]. intros [] w' [Hi' Hr].
  apply HQ; [by eapply good_rely|done].
Qed.

Lemma rely_alloc w w' r : rely w w' -> is_Some (w_heap w !! r) -> exists x, w_heap w' !! r = Some x.
Proof. intros Hr Hs. apply (re_dom _ _ Hr) in Hs as [x Hx]. eauto. Qed.

Lemma rely_regs w w' : rely w w' -> m_resources w' = m_resources w.
Proof. intros [[= E _] _]. done. Qed.

Lemma registered_alloc w fd r : winv w -> m_resources w !! fd = Some r -> is_Some (w_heap w !! r).
Proof. intros Hi Hr. destruct (wi_reg _ _ _ _ Hi fd r Hr) as (x&Hx&_). eauto. Qed.

(** Where a socket was valid, the reactor's own invalidation makes it removable. *)
Lemma invalidate_ok fd r w :
  good w -> m_resources w !! fd = Some r ->
  wp no_exn (invalidate r) (fun b w' => good w' /\ rely w w' /\ (b = false -> removable drops fd r w')) w.
Proof.
  intros Hg Hreg. unfold invalidate. apply wp_bind, wp_yield; [done|]. intros w1 [Hi1 Hp1] Hr1.
  assert (m_resources w1 !! fd = Some r) as Hreg1 by (by rewrite (rely_regs w)).
  destruct (registered_alloc w1 fd r Hi1 Hreg1) as [x Hx]. apply wp_bind. eapply wp_deref; [done|].
  destruct (r_valid x) eqn:Hv; [|by apply wp_ret].
  assert (r_fd x = fd) as Hfd by (destruct (wi_reg _ _ _ _ Hi1 fd r Hreg1) as (x'&?&?&?); congruence).
  destruct (valid_not_dropped drops todo fresh w1 r x Hi1 Hx Hv) as [Hnd Hno]; [congruence|].
  apply wp_bind, wp_modify, wp_ret.
  assert (winv (upd r (with_valid false) w1)) as Hi2.
  { apply winv_upd; [done|apply mild_invalid|]. intros who t x2 Ht Hrt Hx2.
    destruct (to_recv _ _ _ _ (wi_thread _ _ _ _ Hi1 who t Ht) r Hrt) as (_&x3&?&?). cbn. congruence. }
  split; [split; [done|by apply (HP w1)]|]. split; [eapply rely_trans; [exact Hr1|by apply rely_upd; [apply mild_invalid|]]|].
  intros _. split; [done|]. split; [|by rewrite <- Hfd].
  eexists. split; [by apply upd_some|]. by rewrite decide_True.
Qed.

Lemma try_close_ok r w :
  good w -> r ∈ m_garbage w ++ m_garbage_copy w ->
  wp no_exn (try_close r) (fun _ w' => good w' /\ private w' = private w) w.
Proof.
  intros Hg Hin. unfold try_close. apply wp_bind, wp_yield; [done|]. intros w1 [Hi1 Hp1] Hr1.
  pose proof (re_private _ _ Hr1) as Hpr.
  assert (r ∈ m_garbage w1 ++ m_garbage_copy w1) as Hin1 by (injection Hpr as _ _ -> -> _ _ _ _ _ _ _; done).
  destruct (wi_garbage _ _ _ _ Hi1 r Hin1) as ((x&Hx&_)&_).
  apply wp_bind. eapply wp_deref; [done|]. apply wp_bind, wp_gets.
  destruct (held r w1) eqn:Hh; [by apply wp_ret|]. apply wp_bind, wp_modify, wp_ret.
  split; [|done]. split; [by apply winv_close|by apply (HP w1)].
Qed.

Lemma remove_resource_ok fd r w :
  good w -> removable drops fd r w -> fd ∉ todo -> r ∉ fresh ->
  wp no_exn (remove_resource fd) (fun _ w' => good w' /\ private w' = private (removed fd r w)) w.
Proof.
  intros [Hi Hp] Hrem Htodo Hfr. pose proof Hrem as (Hr&_). unfold remove_resource.
  apply wp_bind, wp_gets. rewrite Hr. apply wp_bind, wp_modify, wp_bind, wp_modify, wp_bind, wp_modify, wp_bind.
  change (wp no_exn (try_close r) (fun _ => wp no_exn (ret ()) (fun _ w' => good w' /\ private w' = private (removed fd r w)))
    (removed fd r w)).
  eapply wp_mono; [apply try_close_ok|].
  - split; [by apply winv_remove|by apply (HP w)].
  - cbn. set_solver.
  - intros _ w' [Hg' Hp']. apply wp_ret. done.
Qed.

(** ** Workers *)

Lemma is_running_ok i w :
  good w -> (i < length (w_workers w))%nat ->
  wp no_exn (is_running i) (fun b w' => good w' /\ rely w w' /\ (b = false -> w_workers w' !! i = Some idle)) w.
Proof.
  intros Hg Hlt. unfold is_running. apply wp_bind, wp_yield; [done|]. intros w1 [Hi1 Hp1] Hr1.
  destruct (lookup_lt_is_Some_2 (w_workers w1) i) as [t Ht]; [by rewrite (re_len _ _ Hr1)|].
  apply wp_bind, wp_gets, wp_bind. rewrite Ht. apply wp_ret, wp_ret. split; [done|]. split; [done|].
  intros Hrun. by rewrite (to_idle _ _ _ _ (wi_thread _ _ _ _ Hi1 (inl i) t Ht) Hrun) in Ht.
Qed.

Lemma good_index n w : good w -> (w_workers w <> [] -> n < length (w_workers w))%nat -> good (set_worker_index n w).
Proof.
  intros [[H1 H2 H3 H4 H5 H6 H7 H8 H9 H10 H11 H12 H13 H14 H15 H16 H17 H18 H19] Hp] Hn. split; [|by apply (HP w)].
  split; try done. intros who t Ht. eapply thread_ok_ext; cycle 3; [apply (H11 who t); by destruct who|done..].
Qed.

Lemma rely_idle w w' i : rely w w' -> good w' -> w_workers w !! i = Some idle -> w_workers w' !! i = Some idle.
Proof.
  intros Hr [Hi' _] Hw. destruct (lookup_lt_is_Some_2 (w_workers w') i) as [t Ht].
  { rewrite (re_len _ _ Hr). by eapply lookup_lt_Some. }
  destruct (re_thread _ _ Hr (inl i) t Ht) as (t0&Ht0&Hrun&_). cbn in Ht0. rewrite Hw in Ht0. injection Ht0 as <-.
  rewrite (to_idle _ _ _ _ (wi_thread _ _ _ _ Hi' (inl i) t Ht)) in Ht; [done|]. destruct (th_running t); [|done].
  by specialize (Hrun eq_refl).
Qed.

Lemma finder_loop_ok k w :
  good w -> (k <= length (w_workers w))%nat ->
  wp no_exn (finder_loop k) (fun o w' => good w' /\ rely w w' /\
    forall i, o = Some i -> w_workers w' !! i = Some idle) w.
Proof.
  revert w. induction k as [|k IH]; intros w Hg Hk; cbn [finder_loop].
  { apply wp_ret. split; [done|]. split; [apply rely_refl|done]. }
  apply wp_bind, wp_gets, wp_bind, wp_modify. set (w1 := set_worker_index _ w).
  assert (w_workers w <> []) as Hne by (intros E; rewrite E in Hk; cbn in Hk; lia).
  assert (good w1) as Hg1 by (apply good_index; [done|]; intros _; apply Nat.mod_upper_bound; by destruct (w_workers w)).
  assert (rely w w1) as Hr1 by (split; try done; eauto 10).
  apply wp_bind. eapply wp_mono; [apply is_running_ok; [done|]|].
  { apply (wi_index _ _ _ _ (proj1 Hg)). done. }
  intros b w2 (Hg2&Hr2&Hidle). pose proof (rely_trans _ _ _ Hr1 Hr2) as Hr. destruct b.
  - eapply wp_mono; [apply IH; [done|]|].
    + rewrite (re_len _ _ Hr). lia.
    + intros o w3 (Hg3&Hr3&Ho). split; [done|]. split; [by eapply rely_trans|done].
  - apply wp_ret. split; [done|]. split; [done|]. intros i [= <-]. by apply Hidle.
Qed.

Lemma finder_ok w :
  good w -> wp no_exn finder (fun o w' => good w' /\ rely w w' /\
    forall i, o = Some i -> w_workers w' !! i = Some idle) w.
Proof. intros Hg. unfold finder. apply wp_bind, wp_gets. by apply finder_loop_ok. Qed.

(** What a job may be given. *)
Definition job_ok (refs : list nat) (recv : option nat) (w : world) : Prop :=
  (forall r, r ∈ refs -> is_Some (w_heap w !! r) /\ r ∉ fresh /\ r ∉ m_garbage_copy w) /\
  (forall r, recv = Some r -> r ∈ refs /\ (exists x, w_heap w !! r = Some x /\ r_busy x = true) /\
     forall who t, get_thread who w = Some t -> th_recv t <> Some r).

Lemma job_ok_rely refs recv w w' : rely w w' -> job_ok refs recv w -> job_ok refs recv w'.
Proof.
  intros Hr [Hrefs Hrecv]. pose proof (re_private _ _ Hr) as Hp. unfold private in Hp. injection Hp as _ _ _ Eg _ _ _ _ _ _ _.
  split.
  - intros r Hin. rewrite Eg. destruct (Hrefs r Hin) as (?&?&?). split_and!; try done. by apply (re_dom _ _ Hr).
  - intros r E. destruct (Hrecv r E) as (Hin&(x&Hx&Hb)&Hno). split; [done|]. split; [by apply (re_busy _ _ Hr r x)|].
    intros who t Ht Hrt. destruct (re_thread _ _ Hr who t Ht) as (t0&Ht0&_&_&Hrt0). apply (Hno who t0 Ht0). auto.
Qed.

Lemma winv_post i refs recv w :
  winv w -> w_workers w !! i = Some idle -> job_ok refs recv w ->
  winv (set_workers (<[i := started refs recv]> (w_workers w)) w).
Proof.
  intros [H1 H2 H3 H4 H5 H6 H7 H8 H9 H10 H11 H12 H13 H14 H15 H16 H17 H18 H19] Hw [Hrefs Hrecv].
  set (w' := set_workers _ w).
  assert (forall who t, get_thread who w' = Some t -> who = inl i /\ t = started refs recv \/
    who <> inl i /\ get_thread who w = Some t) as Hget.
  { intros who t Ht. change w' with (set_thread (inl i) (started refs recv) w) in Ht.
    rewrite (get_set_thread (inl i) idle) in Ht by done. case_decide; [injection Ht as <-; auto|auto]. }
  split; try done; cbn.
  - intros who t [[-> ->]|[_ Ht]]%Hget.
    + split; try done; cbn.
      * intros r Hin. by destruct (Hrefs r Hin) as (?&?&?).
      * intros r E. by destruct (Hrecv r E) as (?&?&?).
    + eapply thread_ok_ext; cycle 3; [by apply (H11 who t)|done..].
  - intros who1 who2 t1 t2 d [[-> ->]|[? Ht1]]%Hget [[-> ->]|[? Ht2]]%Hget; try done. by apply H12 with (d := d).
  - intros who1 who2 t1 t2 r [[-> ->]|[? Ht1]]%Hget [[-> ->]|[? Ht2]]%Hget E1 E2; try done.
    + by destruct (Hrecv r E1) as (_&_&Hno); destruct (Hno who2 t2).
    + by destruct (Hrecv r E2) as (_&_&Hno); destruct (Hno who1 t1).
    + by apply (H13 who1 who2 t1 t2 r).
  - eapply Forall_impl; [exact H17|]. intros q Hq Hc j t r Hj Ht Hin.
    destruct (Hget (inl j) t Ht) as [[_ ->]|[_ Ht']]; [by destruct (Hrefs r Hin) as (_&_&?)|by apply (Hq Hc j t)].
  - by rewrite length_insert.
  - rewrite length_insert. intros _. apply H19. by destruct (w_workers w).
Qed.

Lemma post_job_ok i refs recv w :
  good w -> w_workers w !! i = Some idle -> job_ok refs recv w ->
  wp no_exn (post_job i refs recv) (fun _ w' => good w' /\ m_resources w' = m_resources w) w.
Proof.
  intros Hg Hw Hj. apply wp_bind, wp_yield; [done|]. intros w1 Hg1 Hr1. apply wp_modify.
  split; [|by rewrite <- (rely_regs w w1)]. split; [|by apply (HP w1), Hg1].
  apply winv_post; [apply Hg1|by eapply rely_idle|by eapply job_ok_rely].
Qed.

(** ** Requests *)

Lemma set_idle_ok l q w :
  good w -> (forall i, i ∈ l -> (i < length (w_workers w))%nat) -> flags_ok w q ->
  wp no_exn (set_idle l q) (fun q' w' => good w' /\ rely w w' /\ flags_ok w' q' /\ rq_callback q' = rq_callback q) w.
Proof.
  revert q w. induction l as [|i l IH]; intros q w Hg Hl Hq; cbn [set_idle].
  { apply wp_ret. split_and!; try done. apply rely_refl. }
  apply wp_bind. eapply wp_mono; [apply is_running_ok; [done|apply Hl; left]|]. intros b w1 (Hg1&Hr1&Hidle).
  assert (flags_ok w1 q) as Hq1 by (by eapply flags_rely).
  assert (flags_ok w1 (if b then q else rq_set i q)) as Hq2.
  { destruct b; [done|]. intros Hc j t r Hj Ht Hin. apply elem_of_cons in Hj as [-> |Hj].
    - rewrite (Hidle eq_refl) in Ht. injection Ht as <-. by apply not_elem_of_nil in Hin.
    - by apply (Hq1 Hc j t). }
  eapply wp_mono; [apply IH; [done| |done]|].
  - intros j Hj. rewrite (re_len _ _ Hr1). apply Hl. by right.
  - intros q' w2 (Hg2&Hr2&Hq'&Hc). split_and!; try done; [by eapply rely_trans|]. rewrite Hc. by destruct b.
Qed.
End ops.

(** ** Collecting *)

Lemma destruct_all c w :
  NoDup c -> (forall r, r ∈ c -> is_Some (w_heap w !! r)) ->
  exists h, iterM destruct_resource c w = (inr tt, set_heap h w) /\
    forall r, h !! r = if decide (r ∈ c) then None else w_heap w !! r.
Proof.
  revert w. induction c as [|r c IH]; intros w Hnd Hall.
  { exists (w_heap w). split; [by destruct w|]. intros r. rewrite decide_False; [done|apply not_elem_of_nil]. }
  apply NoDup_cons in Hnd as [Hr Hnd]. destruct (Hall r ltac:(left)) as [x Hx].
  destruct (IH (set_heap (delete r (w_heap w)) w) Hnd) as (h&Hrun&Hh).
  { intros r' Hr'. cbn. rewrite lookup_delete_ne by (intros ->; done). apply Hall. by right. }
  exists h. split.
  - cbn [iterM]. unfold bind at 1, destruct_resource at 1, deref_res, checked, bind, gets, modify, ret. rewrite Hx. exact Hrun.
  - intros r'. rewrite Hh. cbn. destruct (decide (r' ∈ c)) as [Hin|Hin].
    + rewrite decide_True; [done|by right].
    + destruct (decide (r' = r)) as [-> |Hne].
      * rewrite lookup_delete_eq, decide_True; [done|left].
      * rewrite lookup_delete_ne, decide_False; [done| |done]. rewrite elem_of_cons. tauto.
Qed.

(** No thread reaches the garbage being collected. *)
Definition unreachable (w : world) : Prop :=
  forall who t r, get_thread who w = Some t -> r ∈ th_refs t -> r ∉ m_garbage_copy w.

Lemma winv_gc drops todo fresh w h :
  winv drops todo fresh w -> unreachable w ->
  (forall r, h !! r = if decide (r ∈ m_garbage_copy w) then None else w_heap w !! r) ->
  winv drops todo fresh (set_garbage_copy [] (set_heap h w)).
Proof.
  intros [H1 H2 H3 H4 H5 H6 H7 H8 H9 H10 H11 H12 H13 H14 H15 H16 H17 H18 H19] Hun Hh.
  assert (forall r, r ∉ m_garbage_copy w -> h !! r = w_heap w !! r) as Hsame by (intros r Hr; by rewrite Hh, decide_False).
  assert (forall r x, h !! r = Some x -> w_heap w !! r = Some x) as Hback
    by (intros r x; rewrite Hh; by case_decide).
  assert (forall fd r, m_resources w !! fd = Some r -> r ∉ m_garbage_copy w) as Hreg.
  { intros fd r Hr Hin. destruct (H5 r) as (_&_&Hn); [set_solver|]. by apply (Hn fd). }
  split; try done; cbn.
  - intros fd r Hr. rewrite Hsame by (by eapply Hreg). by apply H1.
  - intros r [x Hx]. apply H2. eauto.
  - intros r x Hx. apply H3. auto.
  - intros r x Hx. apply (H4 r x). auto.
  - intros r Hin. rewrite app_nil_r in Hin. rewrite Hsame; [apply H5; set_solver|].
    apply NoDup_app in H6 as (_&Hd&_). by apply Hd.
  - rewrite app_nil_r. by apply NoDup_app in H6 as (?&_&_).
  - intros fd Hin. destruct (H7 fd Hin) as (r&x&Hr&Hx&Hv). exists r, x. split_and!; try done.
    rewrite Hsame by (by eapply Hreg). done.
  - intros who t Ht. assert (get_thread who w = Some t) as Ht' by (by destruct who).
    destruct (H11 who t Ht') as [T1 T2 T3 T4 T5]. pose proof (fun r => Hun who t r Ht') as Hu.
    split; try done; cbn.
    + intros r Hin. rewrite Hsame by auto. by apply T1.
    + intros r b Hfd. destruct (T3 r b Hfd) as [Hin Hb]. rewrite Hsame by auto. done.
    + intros d Hd. destruct (T4 d Hd) as (Hfd&x&Hx&Hrest). destruct (T3 d true Hfd) as [Hin _].
      split; [done|]. exists x. rewrite Hsame by auto. done.
    + intros r Hr. destruct (T5 r Hr) as (Hin&Hx). split; [done|]. rewrite Hsame by auto. done.
  - intros r Hr. destruct (H15 r Hr) as [Hs Hn]. rewrite Hsame by done. split; [done|apply not_elem_of_nil].
  - intros t r _ _. apply not_elem_of_nil.
  - apply Forall_forall. intros q _ _ i t r _ _ _. apply not_elem_of_nil.
Qed.

Lemma gc_ok drops todo fresh w :
  winv drops todo fresh w -> unreachable w ->
  wp no_exn gc (fun _ w' => winv drops todo fresh w' /\ m_garbage_copy w' = [] /\
    m_requests w' = m_requests w /\ m_slaves w' = m_slaves w /\ m_resources w' = m_resources w /\
    m_new_slaves w' = m_new_slaves w) w.
Proof.
  intros Hi Hun. unfold gc. apply wp_bind, wp_gets, wp_bind.
  pose proof (wi_garbage_nodup _ _ _ _ Hi) as (_&_&Hnd)%NoDup_app.
  destruct (destruct_all (m_garbage_copy w) w Hnd) as (h&Hrun&Hh).
  { intros r Hr. destruct (wi_garbage _ _ _ _ Hi r) as ((x&Hx&_)&_); [set_solver|eauto]. }
  unfold wp at 1. rewrite Hrun. apply wp_modify. split_and!; try done. by apply winv_gc.
Qed.

(** A request all of whose flags are set. *)
Lemma flags_unreachable drops todo fresh w q :
  winv drops todo fresh w -> flags_ok w q -> rq_callback q = ReactorGC -> rq_all q = true -> unreachable w.
Proof.
  intros Hi Hq Hc Hall who t r Ht Hin. destruct who as [i|[]]; cbn in Ht.
  - apply (Hq Hc i t); [|done|done]. unfold rq_all in Hall. rewrite forallb_forall in Hall.
    specialize (Hall i). rewrite in_seq in Hall. pose proof (lookup_lt_Some _ _ _ Ht).
    pose proof (wi_workers _ _ _ _ Hi). apply (bool_decide_eq_true_1 _), Hall. lia.
  - by apply (wi_gc_refs _ _ _ _ Hi t).
Qed.

(** What the function of a request leaves. *)
Definition callback_ok (c : callback) (w : world) : Prop :=
  match c with AddSlave r => is_Some (w_heap w !! r) /\ r ∉ m_garbage_copy w | ReactorGC => True end.

Lemma callback_rely c w w' : rely w w' -> callback_ok c w -> callback_ok c w'.
Proof.
  intros Hr. destruct c as [r|]; [|done]. intros [Hs Hn]. split; [by apply (re_dom _ _ Hr)|].
  pose proof (re_private _ _ Hr) as Hp. unfold private in Hp. injection Hp as _ _ _ Eg _ _ _ _ _ _ _. by rewrite Eg.
Qed.

Lemma winv_new_slave drops todo fresh w r :
  winv drops todo fresh w -> is_Some (w_heap w !! r) -> r ∉ m_garbage_copy w ->
  winv drops todo fresh (set_new_slaves (m_new_slaves w ++ [r]) w).
Proof.
  intros [H1 H2 H3 H4 H5 H6 H7 H8 H9 H10 H11 H12 H13 H14 H15 H16 H17 H18 H19] Hs Hn. split; try done.
  - intros who t Ht. eapply thread_ok_ext; cycle 3; [apply (H11 who t); by destruct who|done..].
  - intros r' Hr. unfold kept in Hr. cbn in Hr. rewrite !elem_of_app, list_elem_of_singleton in Hr.
    destruct (decide (r' = r)) as [-> |]; [done|]. apply H15. unfold kept. rewrite !elem_of_app. tauto.
Qed.

Lemma rq_check_ok drops todo fresh q w :
  winv drops todo fresh w -> flags_ok w q -> callback_ok (rq_callback q) w ->
  wp no_exn (rq_check q) (fun b w' => winv drops todo fresh w' /\
    m_requests w' = m_requests w /\ m_slaves w' = m_slaves w /\ m_resources w' = m_resources w /\
    b = rq_all q /\ (b = false -> w' = w) /\
    (b = true -> match rq_callback q with
                 | AddSlave r => m_garbage_copy w' = m_garbage_copy w /\ w_heap w' = w_heap w /\
                                 m_new_slaves w' = m_new_slaves w ++ [r]
                 | ReactorGC => m_garbage_copy w' = [] /\ m_new_slaves w' = m_new_slaves w
                 end)) w.
Proof.
  intros Hi Hq Hc. unfold rq_check. destruct (rq_all q) eqn:Hall; [|apply wp_ret; split_and!; done].
  apply wp_bind. destruct (rq_callback q) as [r|] eqn:Ec; cbn [run_callback].
  - apply wp_modify, wp_ret. destruct Hc as [Hs Hn]. split_and!; try done. by apply winv_new_slave.
  - eapply wp_mono; [apply (gc_ok drops todo fresh); [done|by eapply flags_unreachable]|].
    intros _ w' (?&?&?&?&?&?). apply wp_ret. split_and!; done.
Qed.

Lemma flags_high w q l :
  flags_ok w q -> (forall i, i ∈ l -> length (w_workers w) <= i)%nat ->
  flags_ok w (fold_right rq_set q l) /\ rq_callback (fold_right rq_set q l) = rq_callback q.
Proof.
  intros Hq. induction l as [|i l IH]; intros Hl; [done|]. destruct IH as [IHf IHc]; [set_solver|].
  cbn. split; [|done]. intros Hc j t r Hj Ht Hin. apply elem_of_cons in Hj as [-> |Hj]; [|by apply (IHf Hc j t)].
  apply lookup_lt_Some in Ht. specialize (Hl i ltac:(left)). lia.
Qed.

Lemma winv_add_request drops todo fresh w q :
  winv drops todo fresh w -> flags_ok w q -> callback_ok (rq_callback q) w ->
  winv drops todo fresh (set_requests (m_requests w ++ [q]) w).
Proof.
  intros [H1 H2 H3 H4 H5 H6 H7 H8 H9 H10 H11 H12 H13 H14 H15 H16 H17 H18 H19] Hq Hc. split; try done.
  - intros who t Ht. eapply thread_ok_ext; cycle 3; [apply (H11 who t); by destruct who|done..].
  - intros r Hr. unfold kept in Hr. cbn in Hr. rewrite omap_app, !elem_of_app in Hr. cbn in Hr.
    destruct (rq_callback q) as [r'|]; cbn in Hr.
    + rewrite list_elem_of_singleton in Hr. destruct (decide (r = r')) as [-> |]; [done|].
      apply H15. unfold kept. rewrite !elem_of_app. tauto.
    + rewrite elem_of_nil in Hr. apply H15. unfold kept. rewrite !elem_of_app. tauto.
  - cbn. apply Forall_app. split; [done|]. by constructor.
Qed.

Lemma add_request_ok drops todo fresh c w :
  winv drops todo fresh w -> callback_ok c w -> pend w \/ c = ReactorGC ->
  wp no_exn (add_request c) (fun _ w' => good pend drops todo fresh w' /\
    m_slaves w' = m_slaves w /\ m_resources w' = m_resources w /\
    (c <> ReactorGC -> exists w1, rely w w1 /\ w_heap w' = w_heap w1)) w.
Proof.
  intros Hi Hc Hor. unfold add_request. apply wp_bind, wp_gets, wp_bind.
  eapply wp_mono; [apply (set_idle_ok _ true_gc drops todo fresh); [done| |]|].
  { intros i Hin. apply elem_of_seq in Hin. lia. }
  { intros _ i t r Hin. by apply not_elem_of_nil in Hin. }
  intros q0 w1 ((Hi1&_)&Hr1&Hq0&Hc0). cbn [rq_callback] in Hc0.
  set (q := fold_right rq_set q0 _).
  destruct (flags_high w1 q0 (seq (length (w_workers w)) (MAX_WORKERS - length (w_workers w))) Hq0) as [Hq Hcq].
  { intros i Hin. apply elem_of_seq in Hin. rewrite (re_len _ _ Hr1). lia. }
  fold q in Hq, Hcq. rewrite Hc0 in Hcq.
  assert (callback_ok (rq_callback q) w1) as Hc1 by (rewrite Hcq; by eapply callback_rely).
  assert (pend w1 \/ c = ReactorGC) as Hor1.
  { destruct Hor; [left|by right]. eapply gc_private; [apply pend_gc|apply (re_private _ _ Hr1)|done]. }
  pose proof (re_private _ _ Hr1) as Hp. unfold private in Hp. injection Hp as Er _ _ _ _ Es _ _ _ _ _.
  apply wp_bind. eapply wp_mono; [by apply (rq_check_ok drops todo fresh)|].
  intros b w2 (Hi2&Eq2&Es2&Er2&_&Hf&Ht). destruct b.
  - apply wp_ret. specialize (Ht eq_refl). rewrite Hcq in Ht. split_and!; [|congruence|congruence|].
    + split; [done|]. unfold pend. destruct c as [r|]; [|by rewrite (proj1 Ht)]. destruct Ht as [Eg _].
      rewrite Eg, Eq2. by destruct Hor1.
    + intros Hne. exists w1. split; [done|]. destruct c; [by destruct Ht as (_&?&_)|done].
  - rewrite (Hf eq_refl). apply wp_modify. split_and!; try done; [|eauto].
    split; [by apply winv_add_request|]. unfold pend. cbn. intros Hg. apply Exists_app.
    destruct Hor1 as [Hp| ->]; [left; by apply Hp|right; by constructor].
Qed.

(** *** [syncer::check] *)

Lemma winv_requests drops todo fresh w qs :
  winv drops todo fresh w ->
  (forall q, q ∈ qs -> flags_ok w q /\ exists q0, q0 ∈ m_requests w /\ rq_callback q = rq_callback q0) ->
  winv drops todo fresh (set_requests qs w).
Proof.
  intros [H1 H2 H3 H4 H5 H6 H7 H8 H9 H10 H11 H12 H13 H14 H15 H16 H17 H18 H19] Hqs. split; try done.
  - intros who t Ht. eapply thread_ok_ext; cycle 3; [apply (H11 who t); by destruct who|done..].
  - intros r Hr. unfold kept in Hr. cbn in Hr. apply H15. unfold kept. rewrite !elem_of_app in *.
    destruct Hr as [?|[?|Hr]]; [tauto..|]. right. right. apply list_elem_of_omap in Hr as (q&Hq&Er).
    destruct (Hqs q Hq) as (_&q0&Hq0&Ec). apply list_elem_of_omap. exists q0. split; [done|by rewrite <- Ec].
  - cbn. apply Forall_forall. intros q Hq. by destruct (Hqs q Hq).
Qed.

Lemma flags_idle w q i : flags_ok w q -> w_workers w !! i = Some idle -> flags_ok w (rq_set i q).
Proof.
  intros Hq Hw Hc j t r Hj Ht Hin. apply elem_of_cons in Hj as [-> |Hj]; [|by apply (Hq Hc j t)].
  rewrite Hw in Ht. injection Ht as <-. by apply not_elem_of_nil in Hin.
Qed.

Lemma check_idle_ok drops todo fresh l w :
  good pend drops todo fresh w -> (forall i, i ∈ l -> (i < length (w_workers w))%nat) ->
  wp no_exn (check_idle l) (fun _ w' => good pend drops todo fresh w' /\ m_slaves w' = m_slaves w) w.
Proof.
  revert w. induction l as [|i l IH]; intros w Hg Hl; cbn [check_idle]; [by apply wp_ret|].
  apply wp_bind. eapply wp_mono; [apply (is_running_ok pend pend_gc drops todo fresh); [done|apply Hl; left]|].
  intros b w1 (Hg1&Hr1&Hidle). apply wp_bind.
  pose proof (re_private _ _ Hr1) as Hp. unfold private in Hp. injection Hp as _ _ _ _ _ Es _ _ _ _ _.
  eapply (wp_mono _ _ (fun _ w' => good pend drops todo fresh w' /\ m_slaves w' = m_slaves w1 /\
    length (w_workers w') = length (w_workers w1))).
  - destruct b; cbn [negb when]; [by apply wp_ret|]. apply wp_modify. destruct Hg1 as [Hi1 Hp1]. split; [|done]. split.
    + apply winv_requests; [done|]. intros q (q0&->&Hq0)%list_elem_of_fmap. split; [|eauto].
      apply flags_idle; [|by apply Hidle]. pose proof (wi_flags _ _ _ _ Hi1) as Hf. rewrite Forall_forall in Hf. auto.
    + unfold pend. cbn. intros Hne. apply Exists_fmap. eapply Exists_impl; [by apply Hp1|]. done.
  - intros [] w2 (Hg2&Es2&El2). eapply wp_mono; [apply IH; [done|]|].
    + intros j Hj. rewrite El2, (re_len _ _ Hr1). apply Hl. by right.
    + intros [] w3 (?&?). split; [done|congruence].
Qed.

Lemma request_callback_ok drops todo fresh w q :
  winv drops todo fresh w -> q ∈ m_requests w -> callback_ok (rq_callback q) w.
Proof.
  intros Hi Hq. unfold callback_ok. destruct (rq_callback q) as [r|] eqn:Ec; [|done].
  apply (wi_kept _ _ _ _ Hi). unfold kept. rewrite !elem_of_app. right. right.
  apply list_elem_of_omap. exists q. by rewrite Ec.
Qed.

(** A request that is done leaves the queue. *)
Lemma request_done drops todo fresh pre q qs w w1 :
  pend w -> m_requests w = pre ++ q :: qs -> winv drops todo fresh w1 -> m_requests w1 = m_requests w ->
  match rq_callback q with AddSlave _ => m_garbage_copy w1 = m_garbage_copy w | ReactorGC => m_garbage_copy w1 = [] end ->
  good pend drops todo fresh (set_requests (pre ++ qs) w1).
Proof.
  intros Hp Hrq Hi1 Erq Ht. split.
  - apply winv_requests; [done|]. intros q1 Hq1. assert (q1 ∈ m_requests w1) as Hin by (rewrite Erq, Hrq; set_solver).
    split; [|eauto]. pose proof (wi_flags _ _ _ _ Hi1) as Hf1. rewrite Forall_forall in Hf1. auto.
  - unfold pend. cbn. destruct (rq_callback q) eqn:Ec; [|by rewrite Ht]. rewrite Ht. intros Hne. specialize (Hp Hne).
    rewrite Hrq in Hp. apply Exists_app in Hp as [Hp|Hp]; apply Exists_app; [by left|].
    apply Exists_cons in Hp as [?|?]; [congruence|by right].
Qed.

Lemma check_requests_ok drops todo fresh pre qs w :
  good pend drops todo fresh w -> m_requests w = pre ++ qs ->
  wp no_exn (check_requests pre qs) (fun _ w' => good pend drops todo fresh w' /\ m_slaves w' = m_slaves w) w.
Proof.
  revert pre w. induction qs as [|q qs IH]; intros pre w [Hi Hp] Hrq; cbn [check_requests]; [by apply wp_ret|].
  assert (q ∈ m_requests w) as Hq by (rewrite Hrq; set_solver).
  pose proof (wi_flags _ _ _ _ Hi) as Hf. rewrite Forall_forall in Hf.
  apply wp_bind. eapply wp_mono; [apply (rq_check_ok drops todo fresh); [done|by apply Hf|by eapply request_callback_ok]|].
  intros b w1 (Hi1&Erq&Es&_&_&Hff&Ht). destruct b.
  - specialize (Ht eq_refl). apply wp_bind, wp_modify.
    eapply wp_mono; [apply (IH pre); [|done]|].
    + eapply request_done; [exact Hp|exact Hrq|done|done|]. destruct (rq_callback q); by destruct Ht.
    + intros [] w2 (?&?). split; [done|]. cbn in *. congruence.
  - rewrite (Hff eq_refl). apply IH; [done|]. by rewrite <- app_assoc.
Qed.

Lemma syncer_check_ok drops todo fresh w :
  good pend drops todo fresh w ->
  wp no_exn syncer_check (fun _ w' => good pend drops todo fresh w') w.
Proof.
  intros Hg. unfold syncer_check. apply wp_bind, wp_gets, wp_bind.
  eapply wp_mono; [apply (check_idle_ok drops todo fresh); [done|]|].
  { intros i Hin. apply elem_of_seq in Hin. lia. }
  intros [] w1 (Hg1&_). apply wp_bind, wp_gets.
  eapply wp_mono; [by apply (check_requests_ok drops todo fresh [])|]. by intros [] w2 (?&_).
Qed.
