(* ===== verification/ReactorRun.v ===== *)
(** * The loop of the master

    The event handlers, [poll], the periodic callback and whole runs keep the invariant
    of ReactorInv.v.  Theorems: safety of every run, and what synchronization requests
    guarantee. *)

From Stdlib Require Import Sorted.
From stdpp Require Import gmap.
From S2P Require Import Prelude.
From S2P Require Import Reactor.
From S2P Require Import ReactorInv.
From S2P Require Import ReactorSafe.

(** ** New sockets *)

Lemma winv_alloc todo x w :
  winv [] todo [] w -> r_closed x = false ->
  winv [] todo [w_next w] (set_next (S (w_next w)) (set_heap (<[w_next w := x]> (w_heap w)) w)).
Proof.
  intros [H1 H2 H3 H4 H5 H6 H7 H8 H9 H10 H11 H12 H13 H14 H15 H16 H17 H18 H19] Hcl. set (r := w_next w).
  assert (forall r' y, w_heap w !! r' = Some y -> r' <> r) as Hold.
  { intros r' y Hy ->. specialize (H2 r ltac:(eauto)). unfold r in H2. lia. }
  assert (forall r' y, w_heap w !! r' = Some y -> <[r := x]> (w_heap w) !! r' = Some y) as Hkeep.
  { intros r' y Hy. rewrite lookup_insert_ne; [done|]. intros E. by apply (Hold r' y). }
  assert (forall r', is_Some (w_heap w !! r') -> is_Some (<[r := x]> (w_heap w) !! r') /\ r' ∉ [r]) as Hsome.
  { intros r' [y Hy]. split; [eauto|]. rewrite list_elem_of_singleton. by apply (Hold r' y). }
  split; try done; cbn.
  - intros fd r' Hr. destruct (H1 fd r' Hr) as (y&Hy&?&?). exists y. auto.
  - intros r' [y Hy]. destruct (decide (r' = r)) as [-> |Hne]; [unfold r; lia|].
    rewrite lookup_insert_ne in Hy by done. specialize (H2 r' ltac:(eauto)). lia.
  - intros r' y Hy Hv. destruct (decide (r' = r)) as [-> |Hne]; [right; left|].
    rewrite lookup_insert_ne in Hy by done. destruct (H3 r' y Hy Hv) as [|Hn]; [by left|by apply not_elem_of_nil in Hn].
  - intros r' y Hy Hc. destruct (decide (r' = r)) as [-> |Hne].
    + rewrite lookup_insert_eq in Hy. congruence.
    + rewrite lookup_insert_ne in Hy by done. by apply (H4 r' y).
  - intros r' Hg. destruct (H5 r' Hg) as ((y&Hy&Hv)&_&Hn). split; [eauto|]. split; [|done]. apply Hsome. eauto.
  - intros fd Hfd. destruct (H7 fd Hfd) as (r'&y&?&?&?). exists r', y. auto.
  - intros who t Ht. destruct (H11 who t) as [T1 T2 T3 T4 T5]; [by destruct who|]. split; try done; cbn.
    + intros r' Hin. apply Hsome. by apply T1.
    + intros r' b Hfd. destruct (T3 r' b Hfd) as [Hin Hb]. split; [done|]. intros Hb1. destruct (Hb Hb1) as (y&?&?). eauto.
    + intros d Hd. destruct (T4 d Hd) as (?&y&?&?). split; [done|]. exists y. auto.
    + intros r' Hr. destruct (T5 r' Hr) as (?&y&?&?). eauto.
  - intros r' Hr. destruct (H15 r' Hr) as [Hs Hn]. split; [|done]. by apply Hsome.
Qed.

Lemma winv_slave todo r w :
  winv [] todo [r] w -> is_Some (w_heap w !! r) -> r ∉ m_garbage_copy w -> r ∉ m_slaves w ->
  winv [] todo [r] (set_slaves (m_slaves w ++ [r]) w).
Proof.
  intros [H1 H2 H3 H4 H5 H6 H7 H8 H9 H10 H11 H12 H13 H14 H15 H16 H17 H18 H19] Hs Hn Hns. split; try done.
  - intros who t Ht. eapply thread_ok_ext; cycle 3; [apply (H11 who t); by destruct who|done..].
  - cbn. apply NoDup_app. split; [done|]. split; [set_solver|apply NoDup_singleton].
  - intros r' Hr. unfold kept in Hr. cbn in Hr. rewrite !elem_of_app, list_elem_of_singleton in Hr.
    destruct (decide (r' = r)) as [-> |]; [done|]. apply H15. unfold kept. rewrite !elem_of_app. tauto.
Qed.

Lemma winv_register todo r x w :
  winv [] todo [r] w -> w_heap w !! r = Some x -> r_closed x = false -> m_resources w !! r_fd x = None ->
  winv [] todo [] (set_resources (<[r_fd x := r]> (m_resources w)) w).
Proof.
  intros [H1 H2 H3 H4 H5 H6 H7 H8 H9 H10 H11 H12 H13 H14 H15 H16 H17 H18 H19] Hx Hcl Hno.
  assert (forall fd r', m_resources w !! fd = Some r' -> <[r_fd x := r]> (m_resources w) !! fd = Some r') as Hkeep.
  { intros fd r' Hr. rewrite lookup_insert_ne; [done|]. congruence. }
  assert (forall fd, is_Some (m_resources w !! fd) -> is_Some (<[r_fd x := r]> (m_resources w) !! fd)) as Hsome
    by (intros fd [r' Hr]; eauto).
  split; try done; cbn.
  - intros fd r' Hr. apply lookup_insert_Some in Hr as [[<- <-]|[_ Hr]]; eauto.
  - intros r' y Hy Hv. left. destruct (H3 r' y Hy Hv) as [|Hin]; [by apply Hkeep|].
    apply list_elem_of_singleton in Hin as ->. assert (y = x) as -> by congruence. by rewrite lookup_insert_eq.
  - intros r' Hg. destruct (H5 r' Hg) as (?&Hfr&Hn). split; [done|]. split; [apply not_elem_of_nil|].
    intros fd Hr. apply lookup_insert_Some in Hr as [[_ <-]|[_ Hr]]; [|by apply (Hn fd)]. apply Hfr. left.
  - intros fd Hfd. destruct (H7 fd Hfd) as (r'&y&?&?&?). exists r', y. auto.
  - eauto.
  - eauto.
  - intros who t Ht. destruct (H11 who t) as [T1 T2 T3 T4 T5]; [by destruct who|]. split; try done; cbn.
    + intros r' Hin. destruct (T1 r' Hin). split; [done|apply not_elem_of_nil].
    + intros d Hd. destruct (T4 d Hd) as (?&y&?&?&?&?). split; [done|]. exists y. auto.
Qed.

Lemma fd_open_false fd todo w : winv [] todo [] w -> fd_open fd w = false -> m_resources w !! fd = None.
Proof.
  intros Hi Ho. destruct (m_resources w !! fd) as [r|] eqn:E; [|done].
  destruct (wi_reg _ _ _ _ Hi fd r E) as (x&Hx&Hfd&Hc). apply bool_decide_eq_false in Ho. destruct Ho.
  exists r, x. done.
Qed.

Lemma next_not_garbage drops todo fresh w : winv drops todo fresh w -> w_next w ∉ m_garbage_copy w /\ w_next w ∉ m_slaves w.
Proof.
  intros Hi. split; intros Hin.
  - destruct (wi_garbage _ _ _ _ Hi (w_next w)) as ((x&Hx&_)&_); [set_solver|].
    pose proof (wi_next _ _ _ _ Hi (w_next w) ltac:(eauto)). lia.
  - destruct (wi_kept _ _ _ _ Hi (w_next w)) as [Hs _]; [unfold kept; set_solver|].
    pose proof (wi_next _ _ _ _ Hi (w_next w) Hs). lia.
Qed.

Notation ok todo := (good pend [] todo []).

Lemma accept_one_ok todo repl full fd w :
  ok todo w -> wp no_exn (accept_one repl full fd) (fun _ w' => ok todo w' /\
    forall fd' r', m_resources w !! fd' = Some r' -> m_resources w' !! fd' = Some r') w.
Proof.
  intros [Hi Hp]. unfold accept_one. apply wp_bind, wp_gets. destruct (fd_open fd w) eqn:Ho; [by apply wp_ret|].
  pose proof (fd_open_false _ _ _ Hi Ho) as Hnone. destruct (next_not_garbage _ _ _ _ Hi) as [Hng Hns].
  assert (forall w2, good pend [] todo [w_next w] w2 -> m_resources w2 = m_resources w ->
    (exists x, w_heap w2 !! w_next w = Some x /\ r_fd x = fd /\ r_closed x = false) ->
    wp no_exn (add_resource (w_next w)) (fun _ w' => ok todo w' /\
      forall fd' r', m_resources w !! fd' = Some r' -> m_resources w' !! fd' = Some r') w2) as Hreg.
  { intros w2 [Hi2 Hp2] Er (x&Hx&Efd&Ecl). apply wp_bind. eapply wp_deref; [done|]. apply wp_modify. split; [split|].
    - apply winv_register; try done. by rewrite Er, Efd.
    - by apply (pend_gc w2).
    - intros fd' r' Hr'. cbn. rewrite Er, lookup_insert_ne; [done|]. intros E. congruence. }
  apply wp_bind. destruct repl.
  - unfold make_repl_socket. apply wp_bind, wp_gets. destruct (_ =? _)%nat; [by apply wp_ret, wp_ret|].
    apply wp_bind, wp_gets, wp_bind, wp_bind, wp_gets, wp_bind, wp_modify, wp_ret, wp_bind, wp_modify.
    set (w1 := set_next _ _). set (w2 := set_slaves _ w1). apply wp_bind.
    assert (winv [] todo [w_next w] w2) as Hi2.
    { apply winv_slave; [by apply winv_alloc|cbn; rewrite lookup_insert_eq; eauto|done|done]. }
    eapply wp_mono; [apply (add_request_ok [] todo [w_next w])|].
    + done.
    + split; [cbn; rewrite lookup_insert_eq; eauto|done].
    + left. by apply (pend_gc w).
    + intros [] w3 (Hg3&_&Er3&Hx3). apply wp_ret. apply Hreg; [done|done|].
      destruct Hx3 as (w4&Hr4&Eh4); [done|]. rewrite Eh4.
      destruct (rely_alloc _ _ (w_next w) Hr4) as [x Hx]; [cbn; rewrite lookup_insert_eq; eauto|].
      exists x. split; [done|]. destruct (re_back _ _ Hr4 _ _ Hx) as (x0&Hx0&Efd&_&Ecl&_).
      cbn in Hx0. rewrite lookup_insert_eq in Hx0. injection Hx0 as <-. done.
  - unfold make_memcache_socket. destruct full; [by apply wp_ret, wp_ret|].
    apply wp_bind, wp_gets, wp_bind, wp_bind, wp_gets, wp_bind, wp_modify, wp_ret, wp_ret.
    apply Hreg; [|done|].
    + split; [by apply winv_alloc|by apply (pend_gc w)].
    + cbn. rewrite lookup_insert_eq. eauto.
Qed.

(** ** Handlers *)

(** What a handler of the socket [r] registered as [fd] does. *)
Definition handled (todo : list nat) (fd r : nat) (b : bool) (w : world) : Prop :=
  ok todo w /\ m_resources w !! fd = Some r /\ (b = false -> removable [] fd r w).

Lemma wp_invalidate todo fd r w :
  ok todo w -> m_resources w !! fd = Some r -> wp no_exn (invalidate r) (handled todo fd r) w.
Proof.
  intros Hg Hr. eapply wp_mono; [by apply (invalidate_ok pend pend_gc [] todo [] fd)|].
  intros b w' (Hg'&Hrel&Hrem). split; [done|]. split; [by rewrite (rely_regs w)|done].
Qed.

Lemma winv_readable todo fd w :
  winv [] todo [] w -> is_Some (m_resources w !! fd) -> winv [] todo [] (set_readables (m_readables w ++ [fd]) w).
Proof.
  intros [H1 H2 H3 H4 H5 H6 H7 H8 H9 H10 H11 H12 H13 H14 H15 H16 H17 H18 H19] Hs. split; try done.
  - cbn. intros fd' [Hin|Hin]%elem_of_app; [by apply H10|]. by apply list_elem_of_singleton in Hin as ->.
  - intros who t Ht. eapply thread_ok_ext; cycle 3; [apply (H11 who t); by destruct who|done..].
Qed.

Lemma add_readable_ok todo fd r w :
  ok todo w -> m_resources w !! fd = Some r ->
  wp no_exn (add_readable fd ;;! ret true) (handled todo fd r) w.
Proof.
  intros [Hi Hp] Hr. apply wp_bind, wp_modify, wp_ret. split; [|done]. split; [apply winv_readable; [done|eauto]|].
  by apply (pend_gc w).
Qed.

Lemma registered_not_garbage drops todo fresh w fd r :
  winv drops todo fresh w -> m_resources w !! fd = Some r -> r ∉ m_garbage_copy w.
Proof. intros Hi Hr Hin. destruct (wi_garbage _ _ _ _ Hi r) as (_&_&Hn); [set_solver|]. by apply (Hn fd). Qed.

(** The receiving job of a socket that is not busy. *)
Lemma recv_job_ok todo fd r i slaves w :
  ok todo w -> m_resources w !! fd = Some r -> w_workers w !! i = Some idle -> slaves = m_slaves w ->
  (forall who t, get_thread who w = Some t -> th_recv t <> Some r) ->
  wp no_exn (modify (upd r (with_slaves slaves)) ;;!
    modify (upd r (with_busy true)) ;;! post_job i (r :: slaves) (Some r) ;;! ret true) (handled todo fd r) w.
Proof.
  intros [Hi Hp] Hr Hw -> Hno. apply wp_bind, wp_modify, wp_bind, wp_modify, wp_bind.
  set (w1 := upd r _ w). set (w2 := upd r _ w1).
  destruct (registered_alloc [] todo [] w fd r Hi Hr) as [x Hx].
  assert (winv [] todo [] w1) as Hi1.
  { apply winv_upd; [done|apply mild_slaves|]. intros who t y Ht Hrt Hy. by destruct (Hno who t). }
  assert (winv [] todo [] w2) as Hi2 by (apply winv_upd; [done|apply mild_busy|done]).
  assert (job_ok [] (r :: m_slaves w) (Some r) w2) as Hj.
  { split.
    - intros r' Hin. split; [do 2 apply upd_is_some|split; [apply not_elem_of_nil|]].
      + apply elem_of_cons in Hin as [-> |Hin]; [eauto|]. apply (wi_kept _ _ _ _ Hi). unfold kept. set_solver.
      + apply elem_of_cons in Hin as [-> |Hin]; [by eapply registered_not_garbage|].
        apply (wi_kept _ _ _ _ Hi). unfold kept. set_solver.
    - intros r' [= <-]. split; [left|]. split; [|done].
      eexists. split; [apply upd_some, upd_some, Hx|]. by rewrite !decide_True. }
  eapply wp_mono; [apply (post_job_ok pend pend_gc [] todo []); [|done|exact Hj]|].
  - split; [done|by apply (pend_gc w)].
  - intros [] w3 [Hg3 Er3]. apply wp_ret. split; [done|]. split; [by rewrite Er3|done].
Qed.

Lemma no_recv drops todo fresh w r x :
  winv drops todo fresh w -> w_heap w !! r = Some x -> r_busy x = false ->
  forall who t, get_thread who w = Some t -> th_recv t <> Some r.
Proof.
  intros Hi Hx Hb who t Ht Hr. destruct (to_recv _ _ _ _ (wi_thread _ _ _ _ Hi who t Ht) r Hr) as (_&y&?&?). congruence.
Qed.

Lemma client_on_readable_ok todo fd r w :
  ok todo w -> m_resources w !! fd = Some r -> wp no_exn (client_on_readable r fd) (handled todo fd r) w.
Proof.
  intros Hg Hr. unfold client_on_readable. apply wp_bind, (wp_yield pend pend_gc [] todo []); [done|].
  intros w1 Hg1 Hr1. assert (m_resources w1 !! fd = Some r) as Hreg1 by (by rewrite (rely_regs w)).
  destruct (registered_alloc [] todo [] w1 fd r (proj1 Hg1) Hreg1) as [x Hx]. apply wp_bind. eapply wp_deref; [done|].
  destruct (r_busy x) eqn:Hb; [by apply add_readable_ok|].
  pose proof (no_recv _ _ _ _ _ _ (proj1 Hg1) Hx Hb) as Hno.
  apply wp_bind. eapply wp_mono; [by apply (finder_ok pend pend_gc [] todo [])|]. intros o w2 (Hg2&Hr2&Hidle).
  assert (m_resources w2 !! fd = Some r) as Hreg2 by (by rewrite (rely_regs w1)).
  destruct o as [i|]; [|by apply add_readable_ok]. apply wp_bind, wp_gets. apply recv_job_ok; try done; [by apply Hidle|].
  intros who t Ht Hrt. destruct (re_thread _ _ Hr2 who t Ht) as (t0&Ht0&_&_&Hrt0). apply (Hno who t0 Ht0). auto.
Qed.

Lemma ok_input todo l w : ok todo w -> ok todo (set_inputs l w).
Proof. intros [Hi Hp]. split; [by apply (winv_core [] todo [] w)|by apply (pend_gc w)]. Qed.

Lemma wp_next_input todo fd r (Q : input -> world -> Prop) w :
  ok todo w -> m_resources w !! fd = Some r ->
  (forall i w', ok todo w' -> w_heap w' = w_heap w -> m_resources w' !! fd = Some r -> Q i w') -> wp no_exn next_input Q w.
Proof.
  intros Hg Hr HQ. unfold wp, next_input. destruct (w_inputs w) as [|i l]; apply HQ; try done. by apply ok_input.
Qed.

Lemma accepts_ok todo repl full l fd r w :
  ok todo w -> m_resources w !! fd = Some r ->
  wp no_exn (iterM (accept_one repl full) l) (fun _ w' => ok todo w' /\ m_resources w' !! fd = Some r) w.
Proof.
  revert w. induction l as [|a l IH]; intros w Hg Hr; [by apply wp_ret|]. cbn. apply wp_bind.
  eapply wp_mono; [by apply (accept_one_ok todo)|]. intros [] w1 [Hg1 Hk]. apply IH; [done|by apply Hk].
Qed.

Lemma on_readable_ok todo fd r w :
  ok todo w -> m_resources w !! fd = Some r -> wp no_exn (on_readable r fd) (handled todo fd r) w.
Proof.
  intros Hg Hr. destruct (registered_alloc [] todo [] w fd r (proj1 Hg) Hr) as [x Hx].
  unfold on_readable. apply wp_bind. eapply wp_deref; [done|]. destruct (r_kind x) as [repl| |].
  - apply wp_bind. eapply wp_next_input; [done|done|]. intros i w1 Hg1 _ Hr1.
    apply wp_bind. eapply wp_mono; [by apply accepts_ok|]. intros [] w2 [Hg2 Hr2].
    destruct (i_fail i); cbn [when]; [by apply add_readable_ok|]. apply wp_bind, wp_ret, wp_ret. done.
  - by apply client_on_readable_ok.
  - apply wp_bind. eapply wp_next_input; [done|done|]. intros i w1 Hg1 Eh Hr1.
    destruct (i_dead i); [by apply wp_invalidate|]. apply wp_bind, wp_gets, wp_bind, wp_modify, wp_ret.
    split; [|done]. destruct Hg1 as [Hi1 Hp1]. split; [|by apply (pend_gc w1)].
    apply winv_upd; [done|apply mild_heartbeat|]. intros who t y Ht Hrt Hy.
    destruct (to_recv _ _ _ _ (wi_thread _ _ _ _ Hi1 who t Ht) r Hrt) as (_&z&?&?). cbn. congruence.
Qed.

Lemma on_writable_ok todo fd r w :
  ok todo w -> m_resources w !! fd = Some r -> wp no_exn (on_writable r) (handled todo fd r) w.
Proof.
  intros Hg Hr. destruct (registered_alloc [] todo [] w fd r (proj1 Hg) Hr) as [x Hx].
  assert (wp no_exn (let! w := finder in match w with
      | Some i => post_job i [r] None ;;! ret true
      | None => let! i := next_input in if i_fail i then invalidate r else ret true end) (handled todo fd r) w) as Hgo.
  { apply wp_bind. eapply wp_mono; [by apply (finder_ok pend pend_gc [] todo [])|]. intros o w1 (Hg1&Hr1&Hidle).
    assert (m_resources w1 !! fd = Some r) as Hreg1 by (by rewrite (rely_regs w)).
    destruct o as [i|].
    - apply wp_bind. eapply wp_mono; [apply (post_job_ok pend pend_gc [] todo []); [done|by apply Hidle|]|].
      + split; [|done]. intros r' ->%list_elem_of_singleton.
        split; [by eapply registered_alloc; [apply Hg1|]|]. split; [apply not_elem_of_nil|].
        by eapply registered_not_garbage; [apply Hg1|].
      + intros [] w2 [Hg2 Er2]. apply wp_ret. split; [done|]. split; [by rewrite Er2|done].
    - apply wp_bind. eapply wp_next_input; [done|done|]. intros i w2 Hg2 _ Hr2.
      destruct (i_fail i); [by apply wp_invalidate|by apply wp_ret]. }
  unfold on_writable. apply wp_bind. eapply wp_deref; [done|].
  destruct (r_kind x); [by apply wp_ret|exact Hgo|exact Hgo].
Qed.

(** ** [poll] *)

Lemma unless_ok_ok todo fd r b k w :
  handled (fd :: todo) fd r b w -> fd ∉ todo ->
  (b = true -> wp no_exn k (fun _ w' => ok todo w') w) ->
  wp no_exn (unless_ok fd b k) (fun _ w' => ok todo w') w.
Proof.
  intros ([Hi Hp]&Hr&Hrem) Hfd Hk. destruct b; [by apply Hk|]. cbn.
  assert (ok todo w) as Hg.
  { split; [|done]. eapply winv_todo; [|exact Hi]. intros fd' Hin. apply (wi_todo _ _ _ _ Hi). by right. }
  eapply wp_mono; [apply (remove_resource_ok pend pend_gc [] todo [] fd r); [done|by apply Hrem|done|apply not_elem_of_nil]|].
  by intros [] w' [? _].
Qed.

Lemma ok_tail fd todo w : ok (fd :: todo) w -> ok todo w.
Proof.
  intros [Hi Hp]. split; [|done]. eapply winv_todo; [|exact Hi]. intros fd' Hin.
  apply (wi_todo _ _ _ _ Hi). by right.
Qed.

Lemma wp_lookup_fd fd todo (Q : nat -> world -> Prop) w :
  ok (fd :: todo) w -> (forall r, m_resources w !! fd = Some r -> Q r w) -> wp no_exn (lookup_fd fd) Q w.
Proof.
  intros [Hi _] HQ. apply wp_bind, wp_gets. destruct (wi_todo _ _ _ _ Hi fd ltac:(left)) as [r Hr].
  rewrite Hr. by apply wp_ret, HQ.
Qed.

Lemma handled_true todo fd r w : ok todo w -> m_resources w !! fd = Some r -> handled todo fd r true w.
Proof. by split. Qed.

Lemma process_event_ok e todo w :
  ok (ev_fd e :: todo) w -> ev_fd e ∉ todo -> wp no_exn (process_event e) (fun _ w' => ok todo w') w.
Proof.
  intros Hg Hfd. unfold process_event. set (fd := ev_fd e) in *. apply wp_bind. eapply wp_lookup_fd; [done|]. intros r Hr.
  destruct (ev_err e).
  { apply wp_bind. eapply wp_mono; [by apply (wp_invalidate (fd :: todo))|]. intros b w1 H1.
    eapply unless_ok_ok; [done..|]. intros _. apply wp_ret. by apply (ok_tail fd), H1. }
  assert (forall (c : bool) m w0, handled (fd :: todo) fd r true w0 ->
    wp no_exn m (handled (fd :: todo) fd r) w0 ->
    wp no_exn (if c then m else ret true) (handled (fd :: todo) fd r) w0) as Hif.
  { intros [] m w0 H0 Hm; [done|by apply wp_ret]. }
  apply wp_bind. eapply wp_mono; [apply Hif; [by apply handled_true|by apply wp_invalidate]|]. intros b1 w1 H1.
  eapply unless_ok_ok; [done..|]. intros ->. pose proof H1 as (Hg1&Hr1&_).
  apply wp_bind. eapply wp_mono; [apply Hif; [done|by apply on_readable_ok]|]. intros b2 w2 H2.
  eapply unless_ok_ok; [done..|]. intros ->. pose proof H2 as (Hg2&Hr2&_).
  apply wp_bind. eapply wp_mono; [apply Hif; [done|by apply on_writable_ok]|]. intros b3 w3 H3.
  eapply unless_ok_ok; [done..|]. intros ->. apply wp_ret. by apply (ok_tail fd), H3.
Qed.

Lemma process_readable_ok fd todo w :
  ok (fd :: todo) w -> fd ∉ todo -> wp no_exn (process_readable fd) (fun _ w' => ok todo w') w.
Proof.
  intros Hg Hfd. unfold process_readable. apply wp_bind. eapply wp_lookup_fd; [done|]. intros r Hr.
  apply wp_bind. eapply wp_mono; [by apply (on_readable_ok (fd :: todo))|]. intros b w1 H1.
  eapply unless_ok_ok; [done..|]. intros _. apply wp_ret. by apply (ok_tail fd), H1.
Qed.

Lemma iter_todo {A} (key : A -> nat) (f : A -> M world unit) l w :
  (forall a todo w, ok (key a :: todo) w -> key a ∉ todo -> wp no_exn (f a) (fun _ w' => ok todo w') w) ->
  NoDup (key <$> l) -> ok (key <$> l) w -> wp no_exn (iterM f l) (fun _ w' => ok [] w') w.
Proof.
  intros Hf. revert w. induction l as [|a l IH]; intros w Hnd Hg; [by apply wp_ret|].
  apply NoDup_cons in Hnd as [Ha Hnd]. cbn. apply wp_bind. eapply wp_mono; [by apply (Hf a (key <$> l))|].
  intros [] w1 Hg1. by apply IH.
Qed.

Lemma insert_unique_spec n l :
  Sorted lt l -> Sorted lt (insert_unique n l) /\ forall x, x ∈ insert_unique n l <-> x = n \/ x ∈ l.
Proof.
  induction l as [|m l IH]; intros Hs; cbn [insert_unique].
  { split; [by repeat constructor|]. intros x. rewrite list_elem_of_singleton, elem_of_nil. tauto. }
  apply Sorted_inv in Hs as [Hs Hh]. destruct (Nat.ltb_spec n m); [|destruct (Nat.eqb_spec n m) as [-> |]].
  - split; [|intros x; rewrite !elem_of_cons; tauto]. repeat (constructor; try done).
  - split; [by constructor|]. intros x. rewrite !elem_of_cons. tauto.
  - destruct (IH Hs) as [Hs' Hin]. split; [|intros x; rewrite !elem_of_cons, Hin; tauto]. constructor; [done|].
    destruct l as [|k l]; cbn [insert_unique]; [constructor; lia|]. inversion Hh; subst.
    destruct (Nat.ltb_spec n k); [constructor; lia|]. destruct (n =? k)%nat; constructor; lia.
Qed.

Lemma sort_unique_spec l : NoDup (sort_unique l) /\ forall x, x ∈ sort_unique l <-> x ∈ l.
Proof.
  assert (Sorted lt (sort_unique l) /\ forall x, x ∈ sort_unique l <-> x ∈ l) as [Hs Hin].
  { induction l as [|n l [IH1 IH2]]; [by repeat constructor|]. cbn [sort_unique fold_right].
    destruct (insert_unique_spec n _ IH1) as [H1 H2]. split; [done|]. intros x. unfold sort_unique in *. rewrite H2, IH2, elem_of_cons. tauto. }
  split; [|done]. apply Sorted_StronglySorted in Hs; [|intros ? ? ?; lia].
  clear Hin. induction Hs as [|n s Hs IH Hf]; [constructor|]. apply NoDup_cons. split; [|done].
  intros Hin. rewrite Forall_forall in Hf. specialize (Hf n Hin). lia.
Qed.

Lemma epoll_wait_spec evs seen m :
  NoDup (ev_fd <$> epoll_wait evs seen m) /\
  forall fd, fd ∈ ev_fd <$> epoll_wait evs seen m -> is_Some (m !! fd) /\ fd ∉ seen.
Proof.
  revert seen. induction evs as [|e evs IH]; intros seen; [split; [constructor|by intros fd ?%not_elem_of_nil]|].
  cbn. repeat case_bool_decide; cbn [andb negb]; try by apply IH. destruct (IH (ev_fd e :: seen)) as [Hnd Hin].
  cbn. split.
  - apply NoDup_cons. split; [|done]. intros Hx. apply Hin in Hx as [_ Hx]. apply Hx. left.
  - intros fd [-> |Hx]%elem_of_cons; [done|]. apply Hin in Hx as [? Hx]. split; [done|]. set_solver.
Qed.

Lemma removals_ok l w :
  good pend l [] [] w -> wp no_exn (iterM remove_resource l) (fun _ w' => ok [] w') w.
Proof.
  revert w. induction l as [|fd l IH]; intros w [Hi Hp]; [by apply wp_ret|]. cbn. apply wp_bind.
  destruct (wi_drop _ _ _ _ Hi fd) as (r&x&Hr&Hx&Hv); [set_solver|].
  pose proof (wi_drop_nodup _ _ _ _ Hi) as Hnd. rewrite <- Permutation_middle in Hnd. apply NoDup_cons in Hnd as [Hfd _].
  eapply wp_mono; [apply (remove_resource_ok pend pend_gc l [] [] fd r)|].
  - split; [by eapply winv_pop|done].
  - split; [done|]. split; [eauto|]. split; [done|]. intros who t Ht Hd.
    destruct (to_drop _ _ _ _ (wi_thread _ _ _ _ Hi who t Ht) r Hd) as (_&y&Hy&_&Hry&Hny).
    destruct (wi_reg _ _ _ _ Hi fd r Hr) as (z&Hz&Efd&_). assert (y = z) as -> by congruence. apply Hny. rewrite Efd. set_solver.
  - apply not_elem_of_nil.
  - apply not_elem_of_nil.
  - intros [] w1 [Hg1 _]. by apply IH.
Qed.

Lemma poll_ok evs w : ok [] w -> wp no_exn (poll evs) (fun _ w' => ok [] w') w.
Proof.
  intros [Hi Hp]. unfold poll. apply wp_bind, wp_gets, wp_bind, wp_modify. set (w0 := set_readables [] w).
  destruct (sort_unique_spec (m_readables w)) as [Hnd Hin].
  apply wp_bind. eapply wp_mono; [apply (iter_todo id process_readable (sort_unique (m_readables w)) w0)|].
  - intros fd todo. apply process_readable_ok.
  - by rewrite list_fmap_id.
  - rewrite list_fmap_id. split; [|by apply (pend_gc w)].
    destruct Hi as [H1 H2 H3 H4 H5 H6 H7 H8 H9 H10 H11 H12 H13 H14 H15 H16 H17 H18 H19]. split; try done.
    + intros fd Hx. apply H10. by apply Hin.
    + intros who t Ht. eapply thread_ok_ext; cycle 3; [apply (H11 who t); by destruct who|done..].
  - intros [] w1 Hg1. apply wp_bind, (wp_yield pend pend_gc [] [] []); [done|]. intros w2 [Hi2 Hp2] _.
    apply wp_bind, wp_gets, wp_bind, wp_modify, wp_bind.
    eapply wp_mono; [apply removals_ok|].
    + split; [|by apply (pend_gc w2)].
      destruct Hi2 as [H1 H2 H3 H4 H5 H6 H7 H8 H9 H10 H11 H12 H13 H14 H15 H16 H17 H18 H19].
      rewrite app_nil_r in *. split; try done.
      intros who t Ht. destruct (H11 who t) as [T1 T2 T3 T4 T5]; [by destruct who|]. split; try done. cbn.
      intros d Hd. destruct (T4 d Hd) as (?&x&?). split; [done|]. exists x. by rewrite app_nil_r in *.
    + intros [] w3 [Hi3 Hp3]. apply wp_bind, wp_gets. destruct (epoll_wait_spec evs [] (m_resources w3)) as [Hnd3 Hin3].
      apply (iter_todo ev_fd process_event); [|done|].
      * intros e todo. apply process_event_ok.
      * split; [|done]. eapply winv_todo; [|exact Hi3]. intros fd Hx. by apply Hin3.
Qed.

(** ** The periodic callback *)

Lemma winv_sub_slaves drops todo fresh l w :
  winv drops todo fresh w -> NoDup l -> l ⊆ m_slaves w -> winv drops todo fresh (set_slaves l w).
Proof.
  intros [H1 H2 H3 H4 H5 H6 H7 H8 H9 H10 H11 H12 H13 H14 H15 H16 H17 H18 H19] Hnd Hsub. split; try done.
  - intros who t Ht. eapply thread_ok_ext; cycle 3; [apply (H11 who t); by destruct who|done..].
  - intros r Hr. apply H15. unfold kept in *. cbn in Hr. rewrite !elem_of_app in *.
    destruct Hr as [Hr|Hr]; [left; by apply Hsub|by right].
Qed.

(** Slaves that are not being removed. *)
Definition apart (w : world) : Prop := forall r, r ∈ m_slaves w -> r ∉ m_garbage w.

Lemma slaves_loop_ok cfg pre l w :
  ok [] w -> m_slaves w = pre ++ l -> (forall r, r ∈ pre -> r ∉ m_garbage w) ->
  wp no_exn (slaves_loop cfg pre l) (fun _ w' => ok [] w' /\ apart w') w.
Proof.
  revert pre w. induction l as [|r l IH]; intros pre w Hg Hs Hpre; cbn [slaves_loop].
  { apply wp_ret. split; [done|]. unfold apart. by rewrite Hs, app_nil_r. }
  assert (forall w1, ok [] w1 -> m_slaves w1 = pre ++ r :: l -> (forall r', r' ∈ pre -> r' ∉ m_garbage w1) ->
    wp no_exn (modify (set_slaves (pre ++ l)) ;;! slaves_loop cfg pre l) (fun _ w' => ok [] w' /\ apart w') w1) as Herase.
  { intros w1 [Hi1 Hp1] Hs1 Hpre1. apply wp_bind, wp_modify. apply IH; [|done|done].
    split; [|by apply (pend_gc w1)]. pose proof (wi_slaves _ _ _ _ Hi1) as Hnd. rewrite Hs1 in Hnd.
    rewrite <- Permutation_middle in Hnd. apply NoDup_cons in Hnd as [_ Hnd].
    apply winv_sub_slaves; [done|done|]. rewrite Hs1. intros x. rewrite !elem_of_app, elem_of_cons. tauto. }
  apply wp_bind. unfold valid. apply wp_bind, (wp_yield pend pend_gc [] [] []); [done|]. intros w1 Hg1 Hr1.
  pose proof (re_private _ _ Hr1) as Hp. unfold private in Hp. injection Hp as _ _ Eg _ _ Es _ _ _ _ _.
  assert (m_slaves w1 = pre ++ r :: l) as Hs1 by (by rewrite Es).
  assert (forall r', r' ∈ pre -> r' ∉ m_garbage w1) as Hpre1 by (by rewrite Eg).
  pose proof (proj1 Hg1) as Hi1. destruct (wi_kept _ _ _ _ Hi1 r) as [[x Hx] _].
  { unfold kept. rewrite Hs1. set_solver. }
  apply wp_bind. eapply wp_deref; [done|]. apply wp_ret. destruct (r_valid x) eqn:Hv; cbn [negb]; [|by apply Herase].
  assert (r ∉ m_garbage w1) as Hng.
  { intros Hin. destruct (wi_garbage _ _ _ _ Hi1 r) as ((y&Hy&Hvy)&_); [set_solver|congruence]. }
  assert (m_resources w1 !! r_fd x = Some r) as Hreg.
  { destruct (wi_valid _ _ _ _ Hi1 r x Hx Hv) as [|Hn]; [done|by apply not_elem_of_nil in Hn]. }
  apply wp_bind. eapply wp_deref; [done|]. apply wp_bind, wp_gets. destruct (timed_out cfg x (g_current_time w1)).
  - apply wp_bind. eapply wp_mono; [by apply (invalidate_ok pend pend_gc [] [] [] (r_fd x))|].
    intros b w2 (Hg2&Hr2&Hrem). pose proof (re_private _ _ Hr2) as Hp2. unfold private in Hp2.
    injection Hp2 as _ _ Eg2 _ _ Es2 _ _ _ _ _. destruct b.
    + apply wp_bind, wp_ret. apply Herase; [done|by rewrite Es2|by rewrite Eg2].
    + apply wp_bind. eapply wp_mono; [apply (remove_resource_ok pend pend_gc [] [] [] (r_fd x) r); [done|by apply Hrem|apply not_elem_of_nil..]|].
      intros [] w3 [Hg3 Hp3]. unfold private in Hp3. injection Hp3 as _ _ Eg3 _ _ Es3 _ _ _ _ _. cbn in Eg3, Es3.
      apply Herase; [done|by rewrite Es3, Es2|]. intros r' Hr'. rewrite Eg3, Eg2. rewrite elem_of_app, list_elem_of_singleton.
      intros [Hin| ->]; [by apply (Hpre1 r')|]. pose proof (wi_slaves _ _ _ _ Hi1) as Hnd. rewrite Hs1 in Hnd.
      rewrite <- Permutation_middle in Hnd. apply NoDup_cons in Hnd as [Hn _]. set_solver.
  - apply IH; [done|by rewrite <- app_assoc|]. intros r' [Hin|Hin]%elem_of_app; [by apply Hpre1|].
    by apply list_elem_of_singleton in Hin as ->.
Qed.

Lemma winv_gc_thread drops todo fresh o w :
  winv drops todo fresh w ->
  (forall t, o = Some t -> exists refs, t = started refs None /\
     forall r, r ∈ refs -> is_Some (w_heap w !! r) /\ r ∉ fresh /\ r ∉ m_garbage_copy w) ->
  winv drops todo fresh (set_gc_thread o w).
Proof.
  intros [H1 H2 H3 H4 H5 H6 H7 H8 H9 H10 H11 H12 H13 H14 H15 H16 H17 H18 H19] Ho. split; try done.
  - intros [i|[]] t Ht; [eapply thread_ok_ext; cycle 3; [by apply (H11 (inl i) t)|done..]|].
    destruct (Ho t Ht) as (refs&->&Hrefs). split; try done. intros r Hr. by destruct (Hrefs r Hr) as (?&?&?).
  - intros [i|[]] [j|[]] t1 t2 d Ht1 Ht2 E1 E2; try done.
    + by apply (H12 (inl i) (inl j) t1 t2 d).
    + by destruct (Ho t2 Ht2) as (?&->&_).
    + by destruct (Ho t1 Ht1) as (?&->&_).
  - intros [i|[]] [j|[]] t1 t2 d Ht1 Ht2 E1 E2; try done.
    + by apply (H13 (inl i) (inl j) t1 t2 d).
    + by destruct (Ho t2 Ht2) as (?&->&_).
    + by destruct (Ho t1 Ht1) as (?&->&_).
  - intros t r Ht Hr. destruct (Ho t Ht) as (refs&->&Hrefs). by destruct (Hrefs r Hr) as (?&?&?).
Qed.

Lemma ok_core todo w w' : core w' = core w -> ok todo w -> ok todo w'.
Proof.
  intros E [Hi Hp]. split; [by apply (winv_core [] todo [] w)|]. unfold core in E.
  injection E as _ _ _ _ _ _ Eg _ _ Eq _ _ _. by apply (pend_gc w).
Qed.

Lemma gc_ready_ok cfg t w :
  ok [] w -> apart w ->
  wp no_exn (gc_ready cfg t) (fun b w' => ok [] w' /\ apart w' /\ (b = true -> m_gc_thread w' = None)) w.
Proof.
  intros Hg Ha. unfold gc_ready. apply wp_bind, (wp_yield pend pend_gc [] [] []); [done|]. intros w1 Hg1 Hr1.
  pose proof (re_private _ _ Hr1) as Hp. unfold private in Hp. injection Hp as _ _ Eg _ _ Es _ _ _ _ _.
  assert (apart w1) as Ha1 by (unfold apart; by rewrite Eg, Es).
  apply wp_bind, wp_gets. destruct (match m_gc_thread w1 with Some th => th_running th | None => false end); [by apply wp_ret|].
  apply wp_bind. eapply (wp_mono _ _ (fun _ w2 => ok [] w2 /\ apart w2 /\ m_gc_thread w2 = None)).
  { case_bool_decide as E; [by apply wp_ret|]. apply wp_modify. split; [|done]. destruct Hg1 as [Hi1 Hp1].
    split; [|by apply (pend_gc w1)]. apply winv_gc_thread; [by apply (winv_core [] [] [] w1)|done]. }
  intros [] w2 (Hg2&Ha2&Hn2). destruct (negb (t_flush_time t =? 0) && _); [by apply wp_ret|].
  destruct (c_memory_limit cfg <? t_used_memory t); [by apply wp_ret|]. apply wp_bind, wp_gets, wp_bind, wp_gets.
  destruct (negb _ && _).
  { apply wp_bind, wp_modify, wp_ret. split_and!; [by apply (ok_core [] w2)|done..]. }
  apply wp_bind, wp_gets. destruct (_ <? t_now t); [|by apply wp_ret].
  apply wp_bind, wp_modify, wp_ret. split_and!; [by apply (ok_core [] w2)|done..].
Qed.

Lemma winv_clear_new drops todo fresh w :
  winv drops todo fresh w -> winv drops todo fresh (set_new_slaves [] w).
Proof.
  intros [H1 H2 H3 H4 H5 H6 H7 H8 H9 H10 H11 H12 H13 H14 H15 H16 H17 H18 H19]. split; try done.
  - intros who t Ht. eapply thread_ok_ext; cycle 3; [apply (H11 who t); by destruct who|done..].
  - intros r Hr. apply H15. unfold kept in *. cbn in Hr. rewrite !elem_of_app in *. tauto.
Qed.

Lemma on_master_interval_ok cfg t w :
  ok [] w -> wp no_exn (on_master_interval cfg t) (fun _ w' => ok [] w' /\ apart w') w.
Proof.
  intros Hg. unfold on_master_interval. apply wp_bind, wp_gets, wp_bind.
  eapply wp_mono; [apply (slaves_loop_ok cfg [] (m_slaves w)); [done|done|by intros r ?%not_elem_of_nil]|].
  intros [] w1 [Hg1 Ha1]. apply wp_bind. eapply wp_mono; [by apply gc_ready_ok|]. intros b w2 (Hg2&Ha2&Hn2).
  destruct b; [|by apply wp_ret]. apply wp_bind, wp_gets, wp_bind, wp_gets, wp_bind, wp_modify, wp_modify.
  destruct Hg2 as [Hi2 Hp2]. split; [|done]. split; [|by apply (pend_gc w2)].
  apply winv_clear_new, winv_gc_thread; [done|]. intros th [= <-]. eexists. split; [done|]. intros r Hr.
  assert (r ∈ kept w2) as Hk.
  { unfold gc_slaves in Hr. unfold kept. rewrite !elem_of_app in *. destruct Hr as [?|Hr]; [by left|].
    apply list_elem_of_filter in Hr as [_ ?]. tauto. }
  destruct (wi_kept _ _ _ _ Hi2 r Hk). split_and!; [done|apply not_elem_of_nil|done].
Qed.

(** The garbage is fixed when nothing else reaches it. *)
Lemma winv_fix w :
  winv [] [] [] w -> apart w -> m_garbage_copy w = [] -> m_requests w = [] -> m_gc_thread w = None ->
  m_new_slaves w = [] -> winv [] [] [] (set_garbage [] (set_garbage_copy (m_garbage w) w)).
Proof.
  intros [H1 H2 H3 H4 H5 H6 H7 H8 H9 H10 H11 H12 H13 H14 H15 H16 H17 H18 H19] Ha Ec Er Et En.
  rewrite Ec, app_nil_r in H5, H6. split; try done; cbn.
  - intros who t Ht. eapply thread_ok_ext; cycle 3; [apply (H11 who t); by destruct who|done..].
  - intros r Hr. unfold kept in Hr. cbn in Hr. rewrite En, Er in Hr. cbn in Hr. rewrite app_nil_r in Hr.
    split; [|by apply Ha]. apply H15. unfold kept. set_solver.
  - intros t r Ht. congruence.
  - rewrite Er. constructor.
Qed.

Lemma close_all_ok P l w :
  about_gc P -> good P [] [] [] w -> (forall r, r ∈ l -> r ∈ m_garbage w ++ m_garbage_copy w) ->
  wp no_exn (iterM (fun r => let! _ := try_close r in ret tt) l) (fun _ w' => good P [] [] [] w' /\ private w' = private w) w.
Proof.
  intros HP. revert w. induction l as [|r l IH]; intros w Hg Hl; [by apply wp_ret|]. cbn [iterM].
  apply wp_bind, wp_bind. eapply wp_mono; [apply (try_close_ok P HP [] [] []); [done|apply Hl; left]|].
  intros b w1 [Hg1 Hp1]. apply wp_ret. pose proof Hp1 as Hp. unfold private in Hp. injection Hp as _ _ Eg Ec _ _ _ _ _ _ _.
  eapply wp_mono; [apply IH; [done|]|].
  - intros r' Hr'. rewrite Eg, Ec. apply Hl. by right.
  - intros [] w2 [Hg2 Hp2]. split; [done|congruence].
Qed.

Lemma master_callback_ok cfg t w : ok [] w -> wp no_exn (master_callback cfg t) (fun _ w' => ok [] w') w.
Proof.
  intros Hg. unfold master_callback. apply wp_bind, wp_modify. set (w0 := set_current_time _ w).
  assert (ok [] w0) as Hg0 by (by apply (ok_core [] w)). apply wp_bind, wp_gets, wp_bind.
  eapply (wp_mono _ _ (fun _ w' => ok [] w')).
  { case_bool_decide; [by apply wp_ret|]. by apply syncer_check_ok. }
  intros [] w1 Hg1. apply wp_bind. eapply wp_mono; [by apply on_master_interval_ok|]. intros [] w2 [[Hi2 Hp2] Ha2].
  apply wp_bind, wp_gets. destruct (reactor_gc_ready w2) eqn:Hready; [|by apply wp_ret].
  unfold reactor_gc_ready in Hready. rewrite !andb_true_iff, negb_true_iff, bool_decide_eq_false, !bool_decide_eq_true in Hready.
  destruct Hready as [[[Hgne Hrq] Hth] Hns].
  assert (m_garbage_copy w2 = []) as Hc.
  { destruct (decide (m_garbage_copy w2 = [])) as [|Hne]; [done|]. specialize (Hp2 Hne). rewrite Hrq in Hp2. by inversion Hp2. }
  apply wp_bind. unfold fix_garbage. apply wp_bind, wp_gets. rewrite Hc. rewrite bool_decide_true by done. cbn [negb].
  apply wp_bind, wp_gets. rewrite bool_decide_false by done. apply wp_bind, wp_modify, wp_bind.
  set (w3 := set_garbage [] _). assert (winv [] [] [] w3) as Hi3 by (by apply winv_fix).
  eapply wp_mono; [apply (close_all_ok _ (m_garbage w2) w3 true_gc); [by split|]|].
  { intros r Hr. cbn. set_solver. }
  intros [] w4 [[Hi4 _] _]. apply wp_ret. eapply wp_mono; [apply (add_request_ok [] [] [] ReactorGC); [done|done|by right]|].
  by intros [] w5 (?&_).
Qed.

Lemma run_ok cfg its w : ok [] w -> wp no_exn (run cfg its) (fun _ w' => ok [] w') w.
Proof.
  revert w. induction its as [|[evs o] its IH]; intros w Hg; [by apply wp_ret|]. cbn [run iterM]. apply wp_bind.
  unfold iteration. cbn [fst snd]. apply wp_bind. eapply wp_mono; [by apply poll_ok|]. intros [] w1 Hg1.
  destruct o as [t|]; [eapply wp_mono; [by apply master_callback_ok|]; intros [] w2 Hg2; by apply IH|].
  by apply wp_ret, IH.
Qed.

(** ** Runs *)

Lemma listening_lookup l r x :
  listening l !! r = Some x -> exists fr, l !! r = Some fr /\ x = new_resource (fst fr) (KServer (snd fr)) 0.
Proof.
  intros Hx. apply elem_of_list_to_map_2 in Hx. apply elem_of_lookup_imap in Hx as (i&[fd b]&[= -> ->]&Hi). eauto.
Qed.

Lemma listening_regs_keys l : (imap (fun i (fr : nat * bool) => (fst fr, i)) l).*1 = l.*1.
Proof. rewrite fmap_imap. apply imap_const. Qed.

Lemma listening_regs l fd r :
  list_to_map (M := gmap nat nat) (imap (fun i (fr : nat * bool) => (fst fr, i)) l) !! fd = Some r ->
  exists b, l !! r = Some (fd, b).
Proof.
  intros Hr. apply elem_of_list_to_map_2 in Hr. apply elem_of_lookup_imap in Hr as (i&[fd' b]&[= -> ->]&Hi). eauto.
Qed.

Lemma listening_heap l r fr : l !! r = Some fr -> listening l !! r = Some (new_resource (fst fr) (KServer (snd fr)) 0).
Proof.
  intros Hr. apply elem_of_list_to_map_1'.
  - intros y Hy. apply elem_of_lookup_imap in Hy as (i&fr'&[= -> ->]&Hi). congruence.
  - apply elem_of_lookup_imap. exists r, fr. done.
Qed.

Lemma master_start_ok workers l sched inputs :
  (workers <= MAX_WORKERS)%nat -> NoDup l.*1 -> ok [] (master_start workers l sched inputs).
Proof.
  intros Hw Hnd. assert (forall who t, get_thread who (master_start workers l sched inputs) = Some t -> t = idle) as Hidle.
  { intros [i|[]] t Ht; [|done]. cbn in Ht. by apply lookup_replicate in Ht as [-> _]. }
  split; [|by intros Hne]. split; cbn; try done; try (by intros ? ?%not_elem_of_nil).
  - intros fd r Hr. apply listening_regs in Hr as [b Hb]. eexists. split; [by apply listening_heap|]. done.
  - intros r [x Hx]. apply listening_lookup in Hx as (fr&Hr&_). by eapply lookup_lt_Some.
  - intros r x Hx _. left. apply listening_lookup in Hx as ([fd b]&Hr&->). cbn.
    apply elem_of_list_to_map_1; [by rewrite listening_regs_keys|]. apply elem_of_lookup_imap. exists r, (fd, b). done.
  - intros r x Hx Hc. apply listening_lookup in Hx as (fr&_&->). done.
  - constructor.
  - constructor.
  - intros who t Ht. apply Hidle in Ht as ->. apply idle_ok.
  - intros w1 w2 t1 t2 d H1 _ Hd. apply Hidle in H1 as ->. done.
  - intros w1 w2 t1 t2 d H1 _ Hd. apply Hidle in H1 as ->. done.
  - constructor.
  - by rewrite length_replicate.
  - rewrite length_replicate. destruct workers; [done|lia].
Qed.

(** The states of a master. *)
Definition master_reaches (w : world) : Prop :=
  exists cfg workers l sched inputs its, (workers <= MAX_WORKERS)%nat /\ NoDup l.*1 /\
    run cfg its (master_start workers l sched inputs) = (inr tt, w).

Lemma reaches_ok w : master_reaches w -> ok [] w.
Proof.
  intros (cfg&n&l&sched&inputs&its&Hn&Hl&Hrun).
  pose proof (run_ok cfg its _ (master_start_ok n l sched inputs Hn Hl)) as H. unfold wp in H. by rewrite Hrun in H.
Qed.

Lemma run_reaches cfg workers l sched inputs its :
  (workers <= MAX_WORKERS)%nat -> NoDup l.*1 -> master_reaches (snd (run cfg its (master_start workers l sched inputs))).
Proof.
  intros Hw Hl. exists cfg, workers, l, sched, inputs, its. split; [done|]. split; [done|].
  pose proof (run_ok cfg its _ (master_start_ok workers l sched inputs Hw Hl)) as H. unfold wp in H.
  by destruct (run cfg its _) as [[x|[]] w].
Qed.

(** *** Requests complete *)

Lemma is_running_idle i w :
  ok [] w -> w_workers w !! i = Some idle ->
  wp no_exn (is_running i) (fun b w' => ok [] w' /\ rely w w' /\ b = false /\ w_workers w' !! i = Some idle) w.
Proof.
  intros Hg Hw. unfold is_running. apply wp_bind, (wp_yield pend pend_gc [] [] []); [done|]. intros w1 Hg1 Hr1.
  assert (w_workers w1 !! i = Some idle) as Hw1 by (by eapply (rely_idle pend [] [] [])).
  apply wp_bind, wp_gets, wp_bind. rewrite Hw1. by apply wp_ret, wp_ret.
Qed.

(** Every worker was seen idle, or will be. *)
Definition nearly (l : list nat) (w : world) (q : sync_request) : Prop :=
  forall i, (i < MAX_WORKERS)%nat -> i ∈ rq_flags q \/ (i ∈ l /\ w_workers w !! i = Some idle).

Lemma requests_rely w w' : rely w w' -> m_requests w' = m_requests w.
Proof. intros Hr. pose proof (re_private _ _ Hr) as Hp. unfold private in Hp. by injection Hp as _ _ _ _ Eq _ _ _ _ _ _. Qed.

Definition added (w : world) (r : nat) : Prop :=
  r ∈ m_new_slaves w \/ exists q, q ∈ m_requests w /\ rq_callback q = AddSlave r.

Definition seen (i : nat) (b : bool) (w : world) : world :=
  if b then w else set_requests (rq_set i <$> m_requests w) w.

Lemma ok_seen i b w : ok [] w -> (b = false -> w_workers w !! i = Some idle) -> ok [] (seen i b w).
Proof.
  intros [Hi Hp] Hb. destruct b; [done|]. split.
  - apply winv_requests; [done|]. intros q (q0&->&Hq0)%list_elem_of_fmap. split; [|eauto].
    apply flags_idle; [|by apply Hb]. pose proof (wi_flags _ _ _ _ Hi) as Hf. rewrite Forall_forall in Hf. auto.
  - unfold pend. cbn. intros Hne. apply Exists_fmap. eapply Exists_impl; [by apply Hp|]. done.
Qed.

Lemma added_seen i b w r : added w r -> added (seen i b w) r.
Proof.
  destruct b; [done|]. intros [Hn|(q&Hq&Hc)]; [by left|]. right. exists (rq_set i q). split; [|done].
  cbn. apply list_elem_of_fmap. eauto.
Qed.

Lemma added_rely w w' r : rely w w' -> added w r -> added w' r.
Proof.
  intros Hr. pose proof (re_private _ _ Hr) as Hp. unfold private in Hp. injection Hp as _ _ _ _ Eq _ En _ _ _ _.
  unfold added. by rewrite Eq, En.
Qed.

Lemma nearly_seen i l b w w1 :
  rely w w1 -> ok [] w1 -> (b = true -> w_workers w !! i <> Some idle) ->
  Forall (nearly (i :: l) w) (m_requests w) -> Forall (nearly l (seen i b w1)) (m_requests (seen i b w1)).
Proof.
  intros Hr Hg Hb Hq. rewrite <- (requests_rely w w1 Hr) in Hq.
  assert (forall j, w_workers w !! j = Some idle -> w_workers w1 !! j = Some idle) as Hstay
    by (intros j; by eapply (rely_idle pend [] [] [])).
  rewrite Forall_forall in Hq |- *. destruct b; cbn [seen m_requests set_requests].
  - intros q Hin j Hj. destruct (Hq q Hin j Hj) as [?|[Hx Hw]]; [by left|].
    apply elem_of_cons in Hx as [-> |Hx]; [by destruct (Hb eq_refl)|right; auto].
  - intros q (q0&->&Hq0)%list_elem_of_fmap j Hj. cbn. destruct (Hq q0 Hq0 j Hj) as [?|[Hx Hw]]; [left; by right|].
    apply elem_of_cons in Hx as [-> |Hx]; [left; left|right; split; [done|by apply Hstay]].
Qed.

Lemma check_idle_nearly l w :
  ok [] w -> (forall i, i ∈ l -> (i < length (w_workers w))%nat) -> Forall (nearly l w) (m_requests w) ->
  wp no_exn (check_idle l) (fun _ w' => ok [] w' /\ Forall (nearly [] w') (m_requests w') /\
    forall r, added w r -> added w' r) w.
Proof.
  revert w. induction l as [|i l IH]; intros w Hg Hl Hq; cbn [check_idle]; [by apply wp_ret|].
  apply wp_bind. eapply (wp_mono _ _ (fun b w1 => ok [] w1 /\ rely w w1 /\ (b = false -> w_workers w1 !! i = Some idle) /\
    (b = true -> w_workers w !! i <> Some idle))).
  { destruct (decide (w_workers w !! i = Some idle)) as [E|E].
    - eapply wp_mono; [by apply is_running_idle|]. intros b w1 (?&?&->&?). done.
    - eapply wp_mono; [apply (is_running_ok pend pend_gc [] [] []); [done|apply Hl; left]|]. intros b w1 (?&?&?). done. }
  intros b w1 (Hg1&Hr1&Hidle&Hnot). apply wp_bind.
  eapply (wp_mono _ _ (fun _ w2 => w2 = seen i b w1)).
  { destruct b; cbn [negb when]; [by apply wp_ret|by apply wp_modify]. }
  intros [] w2 ->. eapply wp_mono; [apply IH; [by apply ok_seen| |by eapply nearly_seen]|].
  - intros j Hj. replace (length (w_workers (seen i b w1))) with (length (w_workers w)); [apply Hl; by right|].
    rewrite <- (re_len _ _ Hr1). by destruct b.
  - intros [] w3 (?&?&Hadd). split; [done|]. split; [done|]. intros r Hr. apply Hadd, added_seen. by eapply added_rely.
Qed.

Lemma check_requests_all qs w :
  ok [] w -> m_requests w = qs -> Forall (nearly [] w) qs ->
  wp no_exn (check_requests [] qs) (fun _ w' => ok [] w' /\ m_requests w' = [] /\ forall r, added w r -> added w' r) w.
Proof.
  revert w. induction qs as [|q qs IH]; intros w [Hi Hp] Hrq Hq; cbn [check_requests]; [by apply wp_ret|].
  apply Forall_cons in Hq as [Hq Hqs].
  assert (rq_all q = true) as Hall.
  { apply forallb_forall. intros i Hx%in_seq. apply bool_decide_eq_true. destruct (Hq i) as [?|[Hn _]]; [lia|done|].
    by apply not_elem_of_nil in Hn. }
  pose proof (wi_flags _ _ _ _ Hi) as Hf. rewrite Forall_forall in Hf.
  assert (q ∈ m_requests w) as Hqin by (rewrite Hrq; left).
  apply wp_bind. eapply wp_mono; [apply (rq_check_ok [] [] []); [done|by apply Hf|by eapply request_callback_ok]|].
  intros b w1 (Hi1&Erq&_&_&->&_&Ht). rewrite Hall in Ht |- *. specialize (Ht eq_refl). apply wp_bind, wp_modify.
  set (w2 := set_requests ([] ++ qs) w1).
  assert (ok [] w2) as Hg2.
  { apply (request_done [] [] [] [] q qs w); try done. destruct (rq_callback q); by destruct Ht. }
  eapply wp_mono; [apply (IH w2 Hg2 eq_refl)|].
  - eapply Forall_impl; [exact Hqs|]. intros q1 Hq1 i Hlt. destruct (Hq1 i Hlt) as [?|[Hn _]]; [by left|by apply not_elem_of_nil in Hn].
  - intros [] w3 (Hg3&Hr3&Hadd). split; [done|]. split; [done|]. intros r Hr. apply Hadd.
    destruct Hr as [Hn|(q1&Hq1&Hc1)].
    + left. cbn. destruct (rq_callback q); [destruct Ht as (_&_&->); set_solver|by destruct Ht as [_ ->]].
    + rewrite Hrq in Hq1. apply elem_of_cons in Hq1 as [-> |Hq1]; [|right; eauto]. left. cbn. rewrite Hc1 in Ht.
      destruct Ht as (_&_&->). set_solver.
Qed.

(** ** Claims *)

(** C7: The master never touches a dead socket.  With any number of workers up to 64, any
    listening sockets, any clients and slaves that connect, send, close, fail or fall
    silent, and any interleaving of the steps of the workers and of the collection
    thread with those of the reactor: no thread uses a socket after its destructor ran,
    no system call is made on a descriptor after it was closed (so none on a descriptor
    the kernel has given to another connection), every descriptor in an event, in the list
    of readable sockets or in a removal request is registered, and neither
    [remove_resource] nor [fix_garbage] throws. *)
Theorem master_no_dangling cfg workers l sched inputs its :
  (workers <= MAX_WORKERS)%nat -> NoDup l.*1 ->
  exists w, run cfg its (master_start workers l sched inputs) = (inr tt, w).
Proof.
  intros Hw Hl. pose proof (run_ok cfg its _ (master_start_ok workers l sched inputs Hw Hl)) as H. unfold wp in H.
  destruct (run cfg its _) as [[x|[]] w]; [done|eauto].
Qed.

(** C20: A client's requests are handled by one worker at a time.  In every state of the
    master, a socket whose receiving job is with a worker is marked busy, and no two
    workers have a receiving job for the same socket, so that the requests of a connection
    are served in order. *)
Theorem one_receiver w i j t1 t2 r :
  master_reaches w -> w_workers w !! i = Some t1 -> w_workers w !! j = Some t2 ->
  th_recv t1 = Some r -> th_recv t2 = Some r ->
  i = j /\ exists x, w_heap w !! r = Some x /\ r_busy x = true.
Proof.
  intros Hr H1 H2 E1 E2. destruct (reaches_ok w Hr) as [Hi _]. split.
  - by assert (inl i = inl j :> nat + unit) as [= ->] by exact (wi_recv_one _ _ _ _ Hi (inl i) (inl j) t1 t2 r H1 H2 E1 E2).
  - by destruct (to_recv _ _ _ _ (wi_thread _ _ _ _ Hi (inl i) t1 H1) r E1) as (_&?).
Qed.

(** C23: Synchronization requests complete.  In every state of the master: once each
    worker is idle, or was seen idle since the request was made, the next check carries
    out every request, whatever the workers do meanwhile.  The queue is then empty, every
    slave that waited is in the list for the initial replication, and the garbage that was
    being collected is gone. *)
Theorem sync_requests_complete w :
  master_reaches w ->
  (forall q i, q ∈ m_requests w -> (i < MAX_WORKERS)%nat ->
     i ∈ rq_flags q \/ (i < length (w_workers w))%nat /\ w_workers w !! i = Some idle) ->
  exists w', syncer_check w = (inr tt, w') /\ m_requests w' = [] /\ m_garbage_copy w' = [] /\
    forall q r, q ∈ m_requests w -> rq_callback q = AddSlave r -> r ∈ m_new_slaves w'.
Proof.
  intros Hr Hq. pose proof (reaches_ok w Hr) as Hg.
  assert (wp no_exn syncer_check (fun _ w' => ok [] w' /\ m_requests w' = [] /\ forall r, added w r -> added w' r) w) as H.
  { unfold syncer_check. apply wp_bind, wp_gets, wp_bind. eapply wp_mono; [apply (check_idle_nearly (seq 0 (length (w_workers w))) w Hg)|].
    - intros i Hin. apply elem_of_seq in Hin. lia.
    - apply Forall_forall. intros q Hin i Hi. destruct (Hq q i Hin Hi) as [?|[? ?]]; [by left|right].
      split; [|done]. apply elem_of_seq. lia.
    - intros [] w1 (Hg1&Hn1&Ha1). apply wp_bind, wp_gets.
      eapply wp_mono; [by apply check_requests_all|]. intros [] w2 (?&?&Ha2). split_and!; auto. }
  unfold wp in H. destruct (syncer_check w) as [[x|[]] w']; [done|]. destruct H as ([Hi' Hp']&Hrq&Hadd).
  exists w'. split_and!; try done.
  - destruct (decide (m_garbage_copy w' = [])) as [|Hne]; [done|]. specialize (Hp' Hne). rewrite Hrq in Hp'. by inversion Hp'.
  - intros q r Hin Hc. destruct (Hadd r) as [?|(q'&Hq'&_)]; [right; eauto|done|]. rewrite Hrq in Hq'. by apply not_elem_of_nil in Hq'.
Qed.

(** *** A master with two workers, a client and a slave *)

Definition ev_in_at (fd : nat) : event := {| ev_fd := fd; ev_err := false; ev_hup := false; ev_in := true; ev_out := false |}.
Definition accepts (fds : list nat) : input := {| i_accept := fds; i_dead := false; i_fail := false; i_full := false |}.
Definition demo_conf : conf := {| c_slave_timeout := 5; c_gc_interval := 10; c_memory_limit := 1000 |}.
Definition demo_tick (now : Z) : tick := {| t_now := now; t_flush_time := 0; t_used_memory := 0 |}.

(** The client connects; it sends a request, and a slave connects while the worker
    receives. *)
Definition demo_begin : list (list event * option tick) := [([ev_in_at 3], None); ([ev_in_at 5; ev_in_at 4], None)].
Definition demo_state (sched : list (list ((nat + unit) * act))) (its : list (list event * option tick)) : world :=
  snd (run demo_conf its (master_start 2 [(3%nat, false); (4%nat, true)] sched [accepts [5%nat]; accepts [6%nat]])).

(** The worker finds the connection reset, reports it and ends its job. *)
Definition demo_job : list ((nat + unit) * act) :=
  (inl 0%nat,.) <$> [ALock 2; ACheck; AUse; AInvalidate; ARequest; AUnbusy; AFinish].
Definition demo_sched : list (list ((nat + unit) * act)) := 
  replicate 7 [] ++ [demo_job] ++ replicate 9 [] ++ [[(inr tt, AFinish)]].
(** The socket of the client is removed, a tick begins a collection that replicates to the slave,
    and later ticks destruct the socket. *)
Definition demo_end : list (list event * option tick) :=
  [([], None); ([], Some (demo_tick 1)); ([], Some (demo_tick 2)); ([], Some (demo_tick 3))].

Lemma demo_reaches its : master_reaches (demo_state demo_sched its).
Proof. apply run_reaches; [unfold MAX_WORKERS; lia|by apply (bool_decide_unpack _)]. Qed.

(** The whole run: the connection of the client is destructed, the slave stays. *)
Lemma master_no_dangling_witness :
  (exists w, run demo_conf (demo_begin ++ demo_end)
     (master_start 2 [(3%nat, false); (4%nat, true)] demo_sched [accepts [5%nat]; accepts [6%nat]]) = (inr tt, w)) /\
  (fun w => (bool_decide (w_heap w !! 2%nat = None), m_garbage w, m_slaves w)) (demo_state demo_sched (demo_begin ++ demo_end)) =
    (true, [], [3%nat]).
Proof.
  split; [|by vm_compute]. apply master_no_dangling; [unfold MAX_WORKERS; lia|by apply (bool_decide_unpack _)].
Defined.

Definition receiving : thread := started [2%nat] (Some 2%nat).

(** While the job of the client's socket is with worker 0. *)
Lemma one_receiver_witness :
  exists x, w_heap (demo_state demo_sched demo_begin) !! 2%nat = Some x /\ r_busy x = true.
Proof.
  refine (proj2 (one_receiver (demo_state demo_sched demo_begin) 0 0 receiving receiving 2 _ _ _ _ _)); [|by vm_compute..].
  apply demo_reaches.
Defined.

(** The slave waited for the worker, which is idle now. *)
Lemma sync_requests_complete_witness :
  let w := demo_state demo_sched (demo_begin ++ take 1 demo_end) in
  rq_callback <$> m_requests w = [AddSlave 3] /\
  exists w', syncer_check w = (inr tt, w') /\ m_requests w' = [] /\ m_garbage_copy w' = [] /\
    forall q r, q ∈ m_requests w -> rq_callback q = AddSlave r -> r ∈ m_new_slaves w'.
Proof.
  intros w. split; [by vm_compute|]. apply sync_requests_complete.
  - apply demo_reaches.
  - intros q i Hq Hi. destruct i as [|i]; [right; vm_compute; split; [lia|done]|left].
    assert (forallb (fun q => forallb (fun i => bool_decide (i ∈ rq_flags q)) (seq 1 63)) (m_requests w) = true) as H by by vm_compute.
    rewrite forallb_forall in H. specialize (H q). rewrite forallb_forall in H.
    eapply bool_decide_eq_true, H; [by apply list_elem_of_In|]. apply in_seq. unfold MAX_WORKERS in Hi. lia.
Defined.
