(* ===== verification/ReactorStop.v ===== *)
(** * Stopping the master (src/server.cpp, the end of serve_master)

    After the loop of the reactor: every socket is invalidated, every worker is stopped and
    joined, and the collection thread is joined, while the other threads go on with what they were
    doing.  Joining is waiting: the schedule says how far the thread gets meanwhile.  Theorem: a run
    followed by the stop touches no dead socket, and what it leaves. *)

From stdpp Require Import gmap.
From S2P Require Import Prelude Reactor ReactorInv ReactorSafe ReactorRun.

(** ** Operations *)

(** [reactor::invalidate]. *)
Definition invalidate_all : M world unit :=
  let! m := gets m_resources in
  iterM (fun p : nat * nat => let! _ := invalidate (snd p) in ret tt) (map_to_list m).

(** [worker::stop] ends with a [join]; [false] if the thread never ends within the schedule. *)
Fixpoint join_worker (n i : nat) : M world bool :=
  let! b := is_running i in
  if negb b then ret true else
  match n with O => ret false | S n => join_worker n i end.
Definition stop_worker (i : nat) : M world bool :=
  let! l := gets w_sched in join_worker (length l) i.

Fixpoint stop_workers (l : list nat) : M world bool :=
  match l with
  | [] => ret true
  | i :: l =>
      let! b := stop_worker i in
      if (b : bool) then stop_workers l else ret false
  end.

(** [handler::on_master_end] of the memcache handler. *)
Fixpoint join_gc (n : nat) : M world bool :=
  yield ;;!
  let! g := gets m_gc_thread in
  if negb (match g with Some th => th_running th | None => false end)
  then modify (set_gc_thread None) ;;! ret true else
  match n with O => ret false | S n => join_gc n end.
Definition on_master_end : M world bool :=
  let! g := gets m_gc_thread in
  if bool_decide (g = None) then ret true else
  let! l := gets w_sched in join_gc (length l).

(** The lambda [stop]; [true] if every join returns. *)
Definition stop : M world bool :=
  invalidate_all ;;!
  let! ws := gets w_workers in
  let! b := stop_workers (seq 0 (length ws)) in
  if (b : bool) then on_master_end else ret false.

(** [serve_master] from [m_reactor.run] on. *)
Definition run_and_stop (cfg : conf) (its : list (list event * option tick)) : M world bool :=
  run cfg its ;;! stop.

(** ** Correctness *)

Notation ok := (good pend [] [] []).

Definition invalid (r : nat) (w : world) : Prop := forall x, w_heap w !! r = Some x -> r_valid x = false.

Lemma invalid_rely r w w' : rely w w' -> invalid r w -> invalid r w'.
Proof.
  intros Hr Hd x' Hx'. destruct (re_back _ _ Hr r x' Hx') as (x&Hx&_&_&_&Hv&_). specialize (Hd x Hx).
  destruct (r_valid x'); [|done]. by rewrite Hv in Hd.
Qed.

Lemma invalidate_invalid r w a w' : invalidate r w = (inr a, w') -> invalid r w'.
Proof.
  unfold invalidate, bind. destruct (yield w) as [[x|u] w1]; [done|]. unfold deref_res, bind, gets.
  destruct (w_heap w1 !! r) as [x|] eqn:Hx; cbn; [|done]. destruct (r_valid x) eqn:Hv; cbn.
  - intros [= <- <-] y Hy. cbn in Hy. rewrite lookup_alter_eq, Hx in Hy. by injection Hy as <-.
  - intros [= <- <-] y Hy. by simplify_eq.
Qed.

Lemma invalidate_one fd r w :
  ok w -> m_resources w !! fd = Some r ->
  wp no_exn (invalidate r) (fun _ w' => ok w' /\ rely w w' /\ invalid r w') w.
Proof.
  intros Hg Hr. pose proof (invalidate_ok pend pend_gc [] [] [] fd r w Hg Hr) as H. unfold wp in *.
  destruct (invalidate r w) as [[x|b] w'] eqn:E; [done|]. destruct H as (?&?&_). split_and!; [done..|].
  by eapply invalidate_invalid.
Qed.

Lemma invalidate_loop l w :
  ok w -> (forall fd r, (fd, r) ∈ l -> m_resources w !! fd = Some r) ->
  wp no_exn (iterM (fun p : nat * nat => let! _ := invalidate (snd p) in ret tt) l)
    (fun _ w' => ok w' /\ rely w w' /\ forall fd r, (fd, r) ∈ l -> invalid r w') w.
Proof.
  revert w. induction l as [|[fd r] l IH]; intros w Hg Hl; cbn [iterM].
  { apply wp_ret. split; [done|]. split; [apply rely_refl|]. intros fd r Hin. by apply not_elem_of_nil in Hin. }
  apply wp_bind, wp_bind. eapply wp_mono; [apply (invalidate_one fd r); [done|apply Hl; left]|].
  intros b w1 (Hg1&Hr1&Hd1). apply wp_ret. eapply wp_mono; [apply IH; [done|]|].
  { intros fd' r' Hin. rewrite (rely_regs w) by done. apply Hl. by right. }
  intros [] w2 (Hg2&Hr2&Hd2). split; [done|]. split; [by eapply rely_trans|].
  intros fd' r' [[= -> ->]|Hin]%elem_of_cons; [by eapply invalid_rely|by eapply Hd2].
Qed.

Definition all_invalid (w : world) : Prop := forall r, invalid r w.

Lemma all_invalid_rely w w' : rely w w' -> all_invalid w -> all_invalid w'.
Proof. intros Hr Ha r. by eapply invalid_rely. Qed.

Lemma invalidate_all_ok w : ok w -> wp no_exn invalidate_all (fun _ w' => ok w' /\ rely w w' /\ all_invalid w') w.
Proof.
  intros Hg. apply wp_bind, wp_gets. eapply wp_mono; [apply (invalidate_loop _ w Hg)|].
  { intros fd r Hin. by apply elem_of_map_to_list. }
  intros [] w' (Hg'&Hr'&Hd). split; [done|]. split; [done|]. intros r x Hx.
  destruct (r_valid x) eqn:Hv; [|done]. exfalso.
  destruct (wi_valid _ _ _ _ (proj1 Hg') r x Hx Hv) as [Hreg|Hf]; [|by apply not_elem_of_nil in Hf].
  rewrite (rely_regs w) in Hreg by done. apply elem_of_map_to_list in Hreg. specialize (Hd _ _ Hreg x Hx). congruence.
Qed.

Lemma join_worker_ok n i w :
  ok w -> (i < length (w_workers w))%nat ->
  wp no_exn (join_worker n i) (fun b w' => ok w' /\ rely w w' /\ (b = true -> w_workers w' !! i = Some idle)) w.
Proof.
  revert w. induction n as [|n IH]; intros w Hg Hi; cbn [join_worker]; apply wp_bind;
    (eapply wp_mono; [by apply (is_running_ok pend pend_gc [] [] [])|]); intros b w1 (Hg1&Hr1&Hidle); destruct b; cbn [negb].
  - by apply wp_ret.
  - apply wp_ret. auto.
  - eapply wp_mono; [apply IH; [done|by rewrite (re_len _ _ Hr1)]|]. intros b w2 (?&?&?). split; [done|].
    split; [by eapply rely_trans|done].
  - apply wp_ret. auto.
Qed.

Lemma stop_workers_ok l w :
  ok w -> (forall i, i ∈ l -> (i < length (w_workers w))%nat) ->
  wp no_exn (stop_workers l) (fun b w' => ok w' /\ rely w w' /\
    (b = true -> forall i, i ∈ l -> w_workers w' !! i = Some idle)) w.
Proof.
  revert w. induction l as [|i l IH]; intros w Hg Hl; cbn [stop_workers].
  { apply wp_ret. split; [done|]. split; [apply rely_refl|]. intros _ i Hi. by apply not_elem_of_nil in Hi. }
  apply wp_bind. unfold stop_worker. apply wp_bind, wp_gets.
  eapply wp_mono; [apply join_worker_ok; [done|apply Hl; left]|]. intros b w1 (Hg1&Hr1&Hidle).
  destruct b; [|by apply wp_ret]. eapply wp_mono; [apply IH; [done|]|].
  { intros j Hj. rewrite (re_len _ _ Hr1). apply Hl. by right. }
  intros b w2 (Hg2&Hr2&H2). split; [done|]. split; [by eapply rely_trans|]. intros Hb j [-> |Hj]%elem_of_cons; [|by apply H2].
  eapply (rely_idle pend [] [] []); [done|done|by apply Hidle].
Qed.

(** After a wait, and the end of the collection thread. *)
Definition waited (w w' : world) : Prop :=
  exists w1, rely w w1 /\ w_heap w' = w_heap w1 /\ w_workers w' = w_workers w1.

Lemma waited_rely w w1 w2 : rely w w1 -> waited w1 w2 -> waited w w2.
Proof. intros Hr (w3&Hr3&?&?). exists w3. split; [by eapply rely_trans|done]. Qed.

Lemma join_gc_ok n w :
  ok w -> wp no_exn (join_gc n) (fun b w' => ok w' /\ waited w w' /\ (b = true -> m_gc_thread w' = None)) w.
Proof.
  revert w. induction n as [|n IH]; intros w Hg; cbn [join_gc]; apply wp_bind, (wp_yield pend pend_gc [] [] []); try done;
    intros w1 Hg1 Hr1; apply wp_bind, wp_gets; destruct (match m_gc_thread w1 with Some th => th_running th | None => false end); cbn [negb].
  2,4: apply wp_bind, wp_modify, wp_ret; split_and!; [|by exists w1|done];
    split; [apply winv_gc_thread; [apply Hg1|done]|by apply (pend_gc w1), Hg1].
  - apply wp_ret. split_and!; [done|by exists w1|done].
  - eapply wp_mono; [by apply IH|]. intros b w2 (?&?&?). split_and!; [done|by eapply waited_rely|done].
Qed.

Lemma on_master_end_ok w :
  ok w -> wp no_exn on_master_end (fun b w' => ok w' /\ waited w w' /\ (b = true -> m_gc_thread w' = None)) w.
Proof.
  intros Hg. unfold on_master_end. apply wp_bind, wp_gets. case_bool_decide as E.
  - apply wp_ret. split_and!; [done|exists w; split; [apply rely_refl|done]|done].
  - apply wp_bind, wp_gets. by apply join_gc_ok.
Qed.

(** What a stop leaves. *)
Definition stopped (b : bool) (w : world) : Prop :=
  all_invalid w /\ (b = true -> (forall t, t ∈ w_workers w -> t = idle) /\ m_gc_thread w = None).

Lemma all_invalid_waited w w' : waited w w' -> all_invalid w -> all_invalid w'.
Proof.
  intros (w1&Hr&Hh&_) Ha r x Hx. rewrite Hh in Hx. by eapply (all_invalid_rely w w1).
Qed.

Lemma idle_waited w w' i : ok w' -> waited w w' -> w_workers w !! i = Some idle -> w_workers w' !! i = Some idle.
Proof.
  intros Hg (w1&Hr&_&Hw) Hi. destruct (lookup_lt_is_Some_2 (w_workers w') i) as [t Ht].
  { rewrite Hw, (re_len _ _ Hr). by eapply lookup_lt_Some. }
  assert (get_thread (inl i) w1 = Some t) as Ht1 by (cbn; by rewrite <- Hw).
  destruct (re_thread _ _ Hr (inl i) t Ht1) as (t0&Ht0&Hrun&_). cbn in Ht0. rewrite Hi in Ht0. injection Ht0 as <-.
  rewrite (to_idle _ _ _ _ (wi_thread _ _ _ _ (proj1 Hg) (inl i) t Ht)) in Ht; [done|]. destruct (th_running t); [|done].
  by specialize (Hrun eq_refl).
Qed.

Lemma stop_ok w : ok w -> wp no_exn stop stopped w.
Proof.
  intros Hg. unfold stop. apply wp_bind. eapply wp_mono; [by apply invalidate_all_ok|]. intros [] w1 (Hg1&Hr1&Ha1).
  apply wp_bind, wp_gets, wp_bind. eapply wp_mono; [apply stop_workers_ok; [done|]|].
  { intros i Hi. apply elem_of_seq in Hi. lia. }
  intros b w2 (Hg2&Hr2&Hidle). pose proof (all_invalid_rely _ _ Hr2 Ha1) as Ha2. destruct b; [|by apply wp_ret].
  eapply wp_mono; [by apply on_master_end_ok|]. intros b w3 (Hg3&Hw3&Hgc). split; [by eapply all_invalid_waited|].
  intros Hb. split; [|by apply Hgc]. intros t Ht. apply list_elem_of_lookup in Ht as [i Ht].
  assert (w_workers w3 !! i = Some idle) as Hi; [|congruence]. apply (idle_waited w2); [done|done|]. apply Hidle; [done|].
  apply elem_of_seq. split; [lia|]. apply lookup_lt_Some in Ht. destruct Hw3 as (w4&Hr4&_&Ew). rewrite Ew, (re_len _ _ Hr4), (re_len _ _ Hr2) in Ht.
  lia.
Qed.

(** C26: Shutting down is safe.  However the master ran and whatever its workers and its
    collection thread are doing when it stops (in any interleaving with the stop):
    invalidating every socket and joining the threads uses no socket after its destructor
    and no descriptor after it was closed; afterwards every socket is invalid, so that no
    thread begins to use one; and when the joins have returned no worker and no collection
    is running. *)
Theorem shutdown_safe cfg workers l sched inputs its :
  (workers <= MAX_WORKERS)%nat -> NoDup l.*1 ->
  exists b w, run_and_stop cfg its (master_start workers l sched inputs) = (inr b, w) /\
    (forall r x, w_heap w !! r = Some x -> r_valid x = false) /\
    (b = true -> (forall t, t ∈ w_workers w -> t = idle) /\ m_gc_thread w = None).
Proof.
  intros Hw Hl. apply wp_run. apply wp_bind.
  eapply wp_mono; [apply run_ok, master_start_ok; done|]. intros [] w1 Hg1.
  eapply wp_mono; [by apply stop_ok|]. intros b w2 [Ha Hj]. split; [exact Ha|done].
Qed.

(** The master stops while a worker receives: the worker sees its socket invalid, and
    ends. *)
Lemma shutdown_safe_witness :
  let sched := replicate 8 [] ++ [(inl 0%nat,.) <$> [ALock 2]] ++ replicate 3 [] ++
    [(inl 0%nat,.) <$> [ACheck; AUnbusy; AFinish]] in
  let s := master_start 2 [(3%nat, false); (4%nat, true)] sched [accepts [5%nat]; accepts [6%nat]] in
  (exists b w, run_and_stop demo_conf demo_begin s = (inr b, w) /\
    (forall r x, w_heap w !! r = Some x -> r_valid x = false) /\
    (b = true -> (forall t, t ∈ w_workers w -> t = idle) /\ m_gc_thread w = None)) /\
  (th_recv <$> w_workers (snd (run demo_conf demo_begin s)) !! 0%nat) = Some (Some 2%nat) /\
  fst (run_and_stop demo_conf demo_begin s) = inr true.
Proof.
  intros sched s. split; [|split; by vm_compute].
  apply shutdown_safe; [unfold MAX_WORKERS; lia|by apply (bool_decide_unpack _)].
Defined.
