(* ===== verification/ReactorCounter.v ===== *)
(** * Sockets of the counter protocol on the reactor (src/counter/sockets.cpp)

    The event handlers of [counter_socket] give their jobs to the same workers as those of
    the memcache sockets, without a list of slaves.  Here they run over the state of
    Reactor.v, in any order with the iterations of the master.  Theorem: such runs are as safe. *)

From stdpp Require Import gmap.
From S2P Require Import Prelude Reactor ReactorInv ReactorSafe ReactorRun.

(** [counter_socket::on_readable]. *)
Definition counter_on_readable (r fd : nat) : M world bool :=
  yield ;;!
  let! x := deref_res r in
  if r_busy x then add_readable fd ;;! ret true else
  let! w := finder in
  match w with
  | None => add_readable fd ;;! ret true
  | Some i =>
      modify (upd r (with_busy true)) ;;!
      post_job i [r] (Some r) ;;!
      ret true
  end.

(** [counter_socket::on_writable]; with no idle worker [tcp_socket::on_writable]. *)
Definition counter_on_writable (r : nat) : M world bool :=
  let! w := finder in
  match w with
  | None => let! i := next_input in if i_fail i then invalidate r else ret true
  | Some i => post_job i [r] None ;;! ret true
  end.

(** An event of a registered counter socket, as [poll] handles it. *)
Definition counter_event (readable : bool) (fd : nat) : M world unit :=
  let! m := gets m_resources in
  match m !! fd with
  | None => ret tt
  | Some r =>
      let! b := (if readable then counter_on_readable r fd else counter_on_writable r) in
      unless_ok fd b (ret tt)
  end.

(** A master with both protocols: iterations, and events of counter sockets. *)
Inductive work := Iteration (it : list event * option tick) | CounterEvent (readable : bool) (fd : nat).
Definition do_work (cfg : conf) (x : work) : M world unit :=
  match x with Iteration it => iteration cfg it | CounterEvent b fd => counter_event b fd end.
Definition run_both (cfg : conf) (l : list work) : M world unit := iterM (do_work cfg) l.

Notation ok todo := (good pend [] todo []).

(** A job that reaches only its own socket. *)
Lemma own_job_ok todo fd r i recv w :
  ok todo w -> m_resources w !! fd = Some r -> w_workers w !! i = Some idle ->
  (recv = Some r -> (exists x, w_heap w !! r = Some x /\ r_busy x = true) /\
    forall who t, get_thread who w = Some t -> th_recv t <> Some r) ->
  recv = None \/ recv = Some r ->
  wp no_exn (post_job i [r] recv ;;! ret true) (handled todo fd r) w.
Proof.
  intros Hg Hr Hw Hrecv Hor. apply wp_bind. eapply wp_mono; [apply (post_job_ok pend pend_gc [] todo []); [done|done|]|].
  - split.
    + intros r' ->%list_elem_of_singleton. split; [by eapply registered_alloc; [apply Hg|]|]. split; [apply not_elem_of_nil|].
      by eapply registered_not_garbage; [apply Hg|].
    + intros r' E. destruct Hor as [-> | ->]; [done|]. injection E as <-. destruct Hrecv as [Hx Hno]; [done|].
      split; [by left|]. by split.
  - intros [] w' [Hg' Er']. apply wp_ret. split; [done|]. split; [by rewrite Er'|done].
Qed.

Lemma counter_on_readable_ok todo fd r w :
  ok todo w -> m_resources w !! fd = Some r -> wp no_exn (counter_on_readable r fd) (handled todo fd r) w.
Proof.
  intros Hg Hr. unfold counter_on_readable. apply wp_bind, (wp_yield pend pend_gc [] todo []); [done|].
  intros w1 Hg1 Hr1. assert (m_resources w1 !! fd = Some r) as Hreg1 by (by rewrite (rely_regs w)).
  destruct (registered_alloc [] todo [] w1 fd r (proj1 Hg1) Hreg1) as [x Hx]. apply wp_bind. eapply wp_deref; [done|].
  destruct (r_busy x) eqn:Hb; [by apply add_readable_ok|].
  pose proof (no_recv _ _ _ _ _ _ (proj1 Hg1) Hx Hb) as Hno.
  apply wp_bind. eapply wp_mono; [by apply (finder_ok pend pend_gc [] todo [])|]. intros o w2 (Hg2&Hr2&Hidle).
  assert (m_resources w2 !! fd = Some r) as Hreg2 by (by rewrite (rely_regs w1)).
  destruct o as [i|]; [|by apply add_readable_ok]. apply wp_bind, wp_modify.
  assert (forall who t, get_thread who w2 = Some t -> th_recv t <> Some r) as Hno2.
  { intros who t Ht Hrt. destruct (re_thread _ _ Hr2 who t Ht) as (t0&Ht0&_&_&Hrt0). apply (Hno who t0 Ht0). auto. }
  destruct Hg2 as [Hi2 Hp2]. destruct (registered_alloc [] todo [] w2 fd r Hi2 Hreg2) as [x2 Hx2].
  apply own_job_ok; [|done|by apply Hidle| |by right].
  - split; [apply winv_upd; [done|apply mild_busy|done]|by apply (pend_gc w2)].
  - intros _. split; [|done]. eexists. split; [by apply upd_some|]. by rewrite decide_True.
Qed.

Lemma counter_on_writable_ok todo fd r w :
  ok todo w -> m_resources w !! fd = Some r -> wp no_exn (counter_on_writable r) (handled todo fd r) w.
Proof.
  intros Hg Hr. apply wp_bind. eapply wp_mono; [by apply (finder_ok pend pend_gc [] todo [])|]. intros o w1 (Hg1&Hr1&Hidle).
  assert (m_resources w1 !! fd = Some r) as Hreg1 by (by rewrite (rely_regs w)). destruct o as [i|].
  - apply own_job_ok; try done; [by apply Hidle|by left].
  - apply wp_bind. eapply wp_next_input; [done|done|]. intros i w2 Hg2 _ Hr2.
    destruct (i_fail i); [by apply wp_invalidate|by apply wp_ret].
Qed.

Lemma counter_event_ok b fd w : ok [] w -> wp no_exn (counter_event b fd) (fun _ w' => ok [] w') w.
Proof.
  intros Hg. unfold counter_event. apply wp_bind, wp_gets. destruct (m_resources w !! fd) as [r|] eqn:Hr; [|by apply wp_ret].
  assert (ok [fd] w) as Hg1.
  { destruct Hg as [Hi Hp]. split; [|done]. eapply winv_todo; [|exact Hi]. intros fd' ->%list_elem_of_singleton. by exists r. }
  apply wp_bind. apply (wp_mono _ _ (handled [fd] fd r)).
  { destruct b; [by apply counter_on_readable_ok|by apply counter_on_writable_ok]. }
  intros b' w1 Hh. apply (unless_ok_ok [] fd r); [done|apply not_elem_of_nil|]. intros _. apply wp_ret. by eapply ok_tail, Hh.
Qed.

Lemma master_iteration_ok cfg it w : ok [] w -> wp no_exn (iteration cfg it) (fun _ w' => ok [] w') w.
Proof.
  intros Hg. pose proof (run_ok cfg [it] w Hg) as H. unfold run, wp in *. cbn [iterM] in H. unfold bind at 1 in H.
  by destruct (iteration cfg it w) as [[x|[]] w'].
Qed.

Lemma run_both_ok cfg l w : ok [] w -> wp no_exn (run_both cfg l) (fun _ w' => ok [] w') w.
Proof.
  revert w. induction l as [|x l IH]; intros w Hg; [by apply wp_ret|]. apply wp_bind.
  apply (wp_mono _ _ (fun _ w' => ok [] w')).
  - destruct x; [by apply master_iteration_ok|by apply counter_event_ok].
  - intros [] w' Hg'. by apply IH.
Qed.

(** A master that also serves the counter protocol never touches a dead socket, and a counter
    socket has at most one receiving job. *)
Theorem counter_sockets_safe cfg workers l sched inputs works :
  (workers <= MAX_WORKERS)%nat -> NoDup l.*1 ->
  exists w, run_both cfg works (master_start workers l sched inputs) = (inr tt, w) /\
    forall i j t1 t2 r, w_workers w !! i = Some t1 -> w_workers w !! j = Some t2 ->
      th_recv t1 = Some r -> th_recv t2 = Some r -> i = j.
Proof.
  intros Hw Hl. destruct (wp_run _ _ _ (run_both_ok cfg works _ (master_start_ok workers l sched inputs Hw Hl))) as ([]&w&E&[Hi _]).
  exists w. split; [done|]. intros i j t1 t2 r H1 H2 R1 R2.
  by injection (wi_recv_one _ _ _ _ Hi (inl i) (inl j) t1 t2 r H1 H2 R1 R2).
Qed.
