(* ===== verification/ReactorSync.v ===== *)
(** * New slaves miss no change (src/memcache/handler.cpp, src/sync.hpp, sockets.cpp)

    A slave that joins gets all objects from the next collection thread, and every later
    change from the worker that makes it.  A receiving job works with a copy of the list
    of slaves made when the job was posted, so the initial replication has to wait until no job
    with an older copy is left: this is what the synchronization request of a new slave
    is for.  Exceptions are excluded by the theorems of [ReactorRun]; here they end a
    computation. *)

From stdpp Require Import gmap.
From S2P Require Import Prelude.
From S2P Require Import Reactor.
From S2P Require Import ReactorInv.
From S2P Require Import ReactorSafe.
From S2P Require Import ReactorRun.

(** The receiving job of worker [i], if any, replicates to [r]. *)
Definition knows (w : world) (r i : nat) : Prop :=
  forall t c, w_workers w !! i = Some t -> th_recv t = Some c -> r ∈ th_refs t.
(** A socket that is not valid any more, or was destructed. *)
Definition dead (w : world) (r : nat) : Prop :=
  (r < w_next w)%nat /\ forall x, w_heap w !! r = Some x -> r_valid x = false.

(** A worker that is not running has no receiving job. *)
Definition rested (w : world) : Prop :=
  forall i t, w_workers w !! i = Some t -> th_running t = false -> th_recv t = None.

(** Allocated sockets are below the next one. *)
Definition bounded (w : world) : Prop := forall r, is_Some (w_heap w !! r) -> (r < w_next w)%nat.

(** ** Evolution between two steps of the reactor on slaves and requests *)

Record evolves (w w' : world) : Prop := {
  ev_dead : forall r, dead w r -> dead w' r;
  ev_knows : forall r i, knows w r i -> knows w' r i;
  ev_rested : rested w -> rested w';
  ev_bounded : bounded w -> bounded w';
  ev_len : length (w_workers w') = length (w_workers w);
  ev_next : (w_next w <= w_next w')%nat;
  ev_slaves : m_slaves w' = m_slaves w;
  ev_requests : m_requests w' = m_requests w;
  ev_new : m_new_slaves w' = m_new_slaves w
}.
#[export] Instance evolves_preorder : PreOrder evolves.
Proof.
  split; [by split|]. intros w1 w2 w3 [] []. split; auto; try congruence; try lia.
Qed.

(** Updates that change no part of it. *)
Definition part (w : world) := (w_heap w, w_next w, w_workers w, m_slaves w, m_requests w, m_new_slaves w).
Lemma evolves_part w w' : part w' = part w -> evolves w w'.
Proof. unfold part. intros [= E1 E2 E3 E4 E5 E6]. split; unfold dead, knows, rested, bounded; rewrite ?E1, ?E2, ?E3, ?E4, ?E5, ?E6; auto. Qed.

Lemma evolves_upd r f w : (forall x, r_valid x = false -> r_valid (f x) = false) -> evolves w (upd r f w).
Proof.
  intros Hf. split; try done.
  - intros r' [Hn Hd]. split; [done|]. cbn. intros x Hx. destruct (decide (r' = r)) as [-> |Hne].
    + rewrite lookup_alter_eq in Hx. apply fmap_Some in Hx as (y&Hy&->). auto.
    + rewrite lookup_alter_ne in Hx by done. auto.
  - intros Hb r'. cbn. rewrite lookup_alter_is_Some. apply Hb.
Qed.

Lemma evolves_thread i t t' w :
  w_workers w !! i = Some t -> (th_recv t' = None \/ (th_recv t' = th_recv t /\ th_refs t' = th_refs t /\ th_running t' = th_running t)) ->
  evolves w (set_workers (<[i := t']> (w_workers w)) w).
Proof.
  intros Ht Ht'. split; try done; cbn; [| |by rewrite length_insert].
  - intros r j Hk u c Hu Hc. cbn in Hu. apply list_lookup_insert_Some in Hu as [(E1&E2&_)|[Hne Hu]]; [subst|by eapply Hk].
    destruct Ht' as [Ht'|(Ht1&Ht2&_)]; [congruence|]. rewrite Ht2. apply (Hk t c); [done|congruence].
  - intros Hr j u Hu Hrun. cbn in Hu. apply list_lookup_insert_Some in Hu as [(E1&E2&_)|[Hne Hu]]; [subst|by eapply Hr].
    destruct Ht' as [?|(Ht1&_&Ht3)]; [done|]. rewrite Ht1. apply (Hr j t); [done|congruence].
Qed.

Lemma evolves_set_thread who t t' w :
  get_thread who w = Some t -> (th_recv t' = None \/ (th_recv t' = th_recv t /\ th_refs t' = th_refs t /\ th_running t' = th_running t)) ->
  evolves w (set_thread who t' w).
Proof. destruct who as [i|[]]; cbn; intros Ht Ht'; [by eapply evolves_thread|by apply evolves_part]. Qed.

Lemma evolves_thread_upd who t t' r f w :
  get_thread who w = Some t -> (th_recv t' = None \/ (th_recv t' = th_recv t /\ th_refs t' = th_refs t /\ th_running t' = th_running t)) ->
  (forall x, r_valid x = false -> r_valid (f x) = false) -> evolves w (set_thread who t' (upd r f w)).
Proof. intros Ht Ht' Hf. etransitivity; [by apply evolves_upd|]. eapply evolves_set_thread; [|done]. by destruct who as [i|[]]. Qed.

Lemma evolves_act who a w w' : thread_act who a w = inr w' -> evolves w w'.
Proof.
  unfold thread_act. destruct (get_thread who w) as [t|] eqn:Ht; [|by intros [= <-]]. destruct (negb (th_running t)); [by intros [= <-]|].
  intros H. repeat (case_match; try discriminate H; try (injection H as <-; reflexivity)); injection H as <-;
    try (eapply evolves_set_thread; [done|by (left + right)]);
    try (eapply evolves_thread_upd; [done|by (left + right)|done]).
  etransitivity; [by apply (evolves_part w (set_drop_req (m_drop_req w ++ [r_fd r]) w))|].
  eapply evolves_set_thread; [by destruct who as [i|[]]|by right].
Qed.

Lemma evolves_acts l w w' : thread_acts l w = inr w' -> evolves w w'.
Proof.
  revert w. induction l as [|[who a] l IH]; intros w; cbn; [by intros [= <-]|].
  destruct (thread_act who a w) as [x|w1] eqn:E; [done|]. intros H. etransitivity; [by eapply evolves_act|by apply IH].
Qed.

(** ** Operations that only evolve *)

Notation wpt := (wp (fun _ => True)).
Definition evo {A} (m : M world A) : Prop := forall w, wpt m (fun _ w' => evolves w w') w.

Lemma evo_ret {A} (a : A) : evo (ret a).
Proof. intros w. by apply wp_ret. Qed.
Lemma evo_gets {A} (f : world -> A) : evo (gets f).
Proof. intros w. by apply wp_gets. Qed.
Lemma evo_throw {A} x : evo (throw (A := A) x).
Proof. intros w. done. Qed.
Lemma evo_modify f : (forall w, part (f w) = part w) -> evo (modify f).
Proof. intros Hf w. apply wp_modify, evolves_part, Hf. Qed.
Lemma evo_upd r f : (forall x, r_valid x = false -> r_valid (f x) = false) -> evo (modify (upd r f)).
Proof. intros Hf w. apply wp_modify. by apply evolves_upd. Qed.
Lemma evo_bind {A B} (m : M world A) (k : A -> M world B) : evo m -> (forall a, evo (k a)) -> evo (bind m k).
Proof.
  intros Hm Hk w. apply wp_bind. eapply wp_mono; [apply Hm|]. intros a w1 H1. eapply wp_mono; [apply Hk|].
  intros b w2 H2. exact (transitivity H1 H2).
Qed.
Lemma evo_iterM {A} (f : A -> M world unit) l : (forall a, evo (f a)) -> evo (iterM f l).
Proof. intros Hf. induction l as [|a l IH]; [apply evo_ret|]. by apply evo_bind. Qed.
Lemma evo_yield : evo yield.
Proof.
  intros w. unfold wp, yield. destruct (w_sched w) as [|l rest]; [reflexivity|]. destruct (thread_acts l _) as [x|w'] eqn:E; [done|].
  etransitivity; [|by eapply evolves_acts]. by apply evolves_part.
Qed.
Lemma evo_next_input : evo next_input.
Proof. intros w. unfold wp, next_input. destruct (w_inputs w); [reflexivity|]. by apply evolves_part. Qed.
Lemma evo_alloc x : evo (alloc x).
Proof.
  intros w. unfold alloc. apply wp_bind, wp_gets, wp_bind, wp_modify, wp_ret. split; try done; cbn; [| |lia].
  - intros r [Hn Hd]. split; cbn; [lia|]. intros y Hy. rewrite lookup_insert_ne in Hy by lia. auto.
  - intros Hb r. cbn. destruct (decide (r = w_next w)) as [-> |Hne]; [lia|]. rewrite lookup_insert_ne by done. intros H%Hb. lia.
Qed.
Lemma evo_destruct r : evo (modify (fun w => set_heap (delete r (w_heap w)) w)).
Proof.
  intros w. apply wp_modify. split; try done.
  - intros r' [Hn Hd]. split; [done|]. cbn. intros x Hx. apply lookup_delete_Some in Hx as [_ Hx]. auto.
  - intros Hb r' [x Hx]. cbn in Hx. apply lookup_delete_Some in Hx as [_ Hx]. cbn. apply Hb. eauto.
Qed.

Create HintDb evo.
#[export] Hint Resolve evo_ret evo_gets evo_throw evo_yield evo_next_input evo_alloc evo_destruct : evo.

(** Splits a program into its steps. *)
Ltac evo :=
  repeat first [ solve [eauto with evo] | apply evo_modify; intros ?; reflexivity | apply evo_upd; intros ?; done
               | apply evo_bind; [|intros ?] | apply evo_iterM; intros ? | progress unfold when, checked, unless_ok | case_match ].

Lemma evo_deref r : evo (deref_res r).
Proof. unfold deref_res. evo. Qed.
#[export] Hint Resolve evo_deref : evo.
Lemma evo_valid r : evo (valid r).
Proof. unfold valid. evo. Qed.
Lemma evo_invalidate r : evo (invalidate r).
Proof. unfold invalidate. evo. Qed.
Lemma evo_try_close r : evo (try_close r).
Proof. unfold try_close. evo. Qed.
#[export] Hint Resolve evo_valid evo_invalidate evo_try_close : evo.
Lemma evo_remove_resource fd : evo (remove_resource fd).
Proof. unfold remove_resource. evo. Qed.
Lemma evo_add_resource r : evo (add_resource r).
Proof. unfold add_resource. evo. Qed.
Lemma evo_add_readable fd : evo (add_readable fd).
Proof. unfold add_readable. evo. Qed.
Lemma evo_fix_garbage : evo fix_garbage.
Proof. unfold fix_garbage. evo. Qed.
Lemma evo_gc : evo gc.
Proof. unfold gc, destruct_resource. evo. Qed.
Lemma evo_is_running i : evo (is_running i).
Proof. unfold is_running. evo. Qed.
#[export] Hint Resolve evo_remove_resource evo_add_resource evo_add_readable evo_fix_garbage evo_gc evo_is_running : evo.
Lemma evo_finder : evo finder.
Proof. unfold finder. apply evo_bind; [evo|]. intros ws. induction (length ws) as [|k IH]; cbn [finder_loop]; evo. Qed.
#[export] Hint Resolve evo_finder : evo.
Lemma evo_make_memcache_socket full fd : evo (make_memcache_socket full fd).
Proof. unfold make_memcache_socket. evo. Qed.
Lemma evo_gc_ready cfg t : evo (gc_ready cfg t).
Proof. unfold gc_ready. evo. Qed.
#[export] Hint Resolve evo_make_memcache_socket evo_gc_ready : evo.

(** ** Invariant *)

(** Every slave is known to all receiving jobs, or waits for the jobs not yet seen idle;
    [late] are slaves whose request is being made. *)
Record joined (late : list nat) (w : world) : Prop := {
  jo_rested : rested w;
  jo_bounded : bounded w;
  jo_len : (length (w_workers w) <= MAX_WORKERS)%nat;
  jo_slaves : forall r, r ∈ m_slaves w -> r ∉ late ->
    dead w r \/ (forall i, knows w r i) \/ exists q, q ∈ m_requests w /\ rq_callback q = AddSlave r;
  jo_requests : forall q r, q ∈ m_requests w -> rq_callback q = AddSlave r ->
    dead w r \/ (r ∈ m_slaves w /\ forall i, i ∈ rq_flags q -> knows w r i);
  jo_new : forall r, r ∈ m_new_slaves w -> dead w r \/ (r ∈ m_slaves w /\ forall i, knows w r i)
}.

Lemma joined_evolves late w w' : evolves w w' -> joined late w -> joined late w'.
Proof.
  intros [E1 E2 E3 Eb E4 E5 E6 E7 E8] [J1 Jb J2 J3 J4 J5]. split; rewrite ?E4, ?E6, ?E7, ?E8; auto.
  - intros r Hr Hl. destruct (J3 r Hr Hl) as [?|[?|?]]; auto.
  - intros q r Hq Hc. destruct (J4 q r Hq Hc) as [?|[? ?]]; auto.
  - intros r Hr. destruct (J5 r Hr) as [?|[? ?]]; auto.
Qed.

Definition keeps_joined {A} (m : M world A) : Prop := forall late w, joined late w -> wpt m (fun _ w' => joined late w') w.

Lemma kj_evo {A} (m : M world A) : evo m -> keeps_joined m.
Proof. intros Hm late w Hj. eapply wp_mono; [apply Hm|]. intros a w' He. exact (joined_evolves _ _ _ He Hj). Qed.
Lemma kj_bind {A B} (m : M world A) (k : A -> M world B) : keeps_joined m -> (forall a, keeps_joined (k a)) -> keeps_joined (bind m k).
Proof. intros Hm Hk late w Hj. apply wp_bind. eapply wp_mono; [by apply Hm|]. intros a w' Hj'. by apply Hk. Qed.
Lemma kj_iterM {A} (f : A -> M world unit) l : (forall a, keeps_joined (f a)) -> keeps_joined (iterM f l).
Proof. intros Hf. induction l as [|a l IH]; [apply kj_evo; evo|]. by apply kj_bind. Qed.

Ltac kj :=
  repeat first [ solve [eauto with evo] | apply kj_evo; solve [evo] | apply kj_bind; [|intros ?] | apply kj_iterM; intros ?
               | progress unfold when, unless_ok | case_match ].

(** A job posted with the current list of slaves, or one that receives nothing. *)
Lemma post_joined late i refs recv w :
  joined late w -> (recv = None \/ m_slaves w ⊆ refs) -> wpt (post_job i refs recv) (fun _ w' => joined late w') w.
Proof.
  intros Hj Hrefs. unfold post_job. apply wp_bind. eapply wp_mono; [apply evo_yield|]. intros [] w1 He. apply wp_modify.
  pose proof (joined_evolves late w w1 He Hj) as [J1 Jb J2 J3 J4 J5]. rewrite <- (ev_slaves _ _ He) in Hrefs. clear Hj He.
  set (w2 := set_workers _ w1).
  assert (forall r j, r ∈ m_slaves w1 -> knows w1 r j -> knows w2 r j) as Hk.
  { intros r j Hr Hk t c Ht Hc. cbn in Ht. apply list_lookup_insert_Some in Ht as [(<-&<-&_)|[_ Ht]]; [|by eapply Hk].
    cbn in Hc. destruct Hrefs as [->|Hs]; [done|]. cbn. by apply Hs. }
  split; cbn.
  - intros j t Ht. cbn in Ht. apply list_lookup_insert_Some in Ht as [(<-&<-&_)|[_ Ht]]; [done|by eapply J1].
  - exact Jb.
  - by rewrite length_insert.
  - intros r Hr Hl. destruct (J3 r Hr Hl) as [?|[?|?]]; auto.
  - intros q r Hq Hc. destruct (J4 q r Hq Hc) as [?|[? ?]]; auto.
  - intros r Hr. destruct (J5 r Hr) as [?|[? ?]]; auto.
Qed.

Lemma kj_client_on_readable r fd : keeps_joined (client_on_readable r fd).
Proof.
  unfold client_on_readable. apply kj_bind; [kj|intros []]. apply kj_bind; [kj|intros x]. case_match; [kj|].
  apply kj_bind; [kj|intros [i|]]; [|kj]. intros late w Hj. apply wp_bind, wp_gets. set (slaves := m_slaves w).
  apply wp_bind. eapply wp_mono; [by apply evo_upd|]. intros [] w1 H1. apply wp_bind. eapply wp_mono; [by apply evo_upd|]. intros [] w2 H2.
  assert (evolves w w2) as He by exact (transitivity H1 H2). apply wp_bind. eapply wp_mono; [apply (post_joined late)|].
  - exact (joined_evolves _ _ _ He Hj).
  - right. rewrite (ev_slaves _ _ He). unfold slaves. set_solver.
  - intros [] w3 H3. by apply wp_ret.
Qed.

Lemma kj_on_writable r : keeps_joined (on_writable r).
Proof.
  unfold on_writable. apply kj_bind; [kj|intros x]. destruct (r_kind x); [kj|..];
    (apply kj_bind; [kj|intros [i|]]; [|kj]; apply kj_bind; [|intros ?; kj]; intros late w Hj; apply post_joined; auto).
Qed.

(** *** Requests *)

Definition seen_ok (w : world) (q : sync_request) : Prop :=
  forall r, rq_callback q = AddSlave r -> forall i, i ∈ rq_flags q -> knows w r i.

Lemma idle_knows w i t r : rested w -> w_workers w !! i = Some t -> th_running t = false -> knows w r i.
Proof. intros Hr Ht Hrun u c Hu Hc. rewrite Ht in Hu. injection Hu as <-. by rewrite (Hr i t Ht Hrun) in Hc. Qed.

(** A worker that is not running holds no older copy of the list. *)
Lemma is_running_knows i w :
  rested w -> wpt (is_running i) (fun b w' => evolves w w' /\ (b = false -> forall r, knows w' r i)) w.
Proof.
  intros Hr. unfold is_running. apply wp_bind. eapply wp_mono; [apply evo_yield|]. intros [] w1 He.
  apply wp_bind, wp_gets, wp_bind. unfold checked. destruct (w_workers w1 !! i) as [t|] eqn:Ht; [|done]. apply wp_ret, wp_ret.
  split; [done|]. intros Hrun r. eapply idle_knows; [by apply (ev_rested _ _ He)|done..].
Qed.

Lemma seen_evolves w w' q : evolves w w' -> seen_ok w q -> seen_ok w' q.
Proof. intros He Hs r Hc i Hi. by apply (ev_knows _ _ He), Hs. Qed.

Lemma seen_set w q i : seen_ok w q -> (forall r, knows w r i) -> seen_ok w (rq_set i q).
Proof. intros Hs Hk r Hc j Hj. cbn in Hj. apply elem_of_cons in Hj as [-> |Hj]; [apply Hk|by apply Hs]. Qed.

Lemma set_idle_seen l q w :
  rested w -> seen_ok w q ->
  wpt (set_idle l q) (fun q' w' => evolves w w' /\ seen_ok w' q' /\ rq_callback q' = rq_callback q) w.
Proof.
  revert q w. induction l as [|i l IH]; intros q w Hr Hs; cbn [set_idle]; [by apply wp_ret|].
  apply wp_bind. eapply wp_mono; [by apply is_running_knows|]. intros b w1 [He Hb].
  pose proof (seen_evolves _ _ _ He Hs) as Hs1. eapply wp_mono; [apply (IH (if b then q else rq_set i q))|].
  - by apply (ev_rested _ _ He).
  - destruct b; [done|]. apply seen_set; auto.
  - intros q' w2 (He2&Hs2&Hc). split; [exact (transitivity He He2)|]. split; [done|]. rewrite Hc. by destruct b.
Qed.

Lemma all_know late w q r :
  joined late w -> (forall i, i ∈ rq_flags q -> knows w r i) -> rq_all q = true -> forall i, knows w r i.
Proof.
  intros Hj Hs Hall i. destruct (decide (i < MAX_WORKERS)%nat) as [Hi|Hi].
  - apply Hs. unfold rq_all in Hall. rewrite forallb_forall in Hall. eapply bool_decide_eq_true, Hall. apply in_seq. lia.
  - intros t c Ht. apply lookup_lt_Some in Ht. pose proof (jo_len _ _ Hj). lia.
Qed.

(** The end of a request: its slave is in the list for the initial replication. *)
Lemma rq_check_joined late q w :
  joined late w ->
  (forall r, rq_callback q = AddSlave r -> dead w r \/ (r ∈ m_slaves w /\ forall i, i ∈ rq_flags q -> knows w r i)) ->
  wpt (rq_check q) (fun b w' => joined late w' /\ evolves w (set_new_slaves (m_new_slaves w) w') /\
    (b = true -> forall r, rq_callback q = AddSlave r -> dead w' r \/ forall i, knows w' r i)) w.
Proof.
  intros Hj Hc. unfold rq_check. destruct (rq_all q) eqn:Hall; [|apply wp_ret; split_and!; [done|by apply evolves_part|done]].
  apply wp_bind. destruct (rq_callback q) as [r|] eqn:Hq; cbn [run_callback].
  - apply wp_modify, wp_ret. assert (dead w r \/ (r ∈ m_slaves w /\ forall i, knows w r i)) as Hr.
    { destruct (Hc r eq_refl) as [?|[? ?]]; [by left|right]. split; [done|by eapply all_know]. }
    split_and!; [|by apply evolves_part|].
    + destruct Hj as [J1 Jb J2 J3 J4 J5]. split; try done. cbn. intros r' [Hr'|Hr'%list_elem_of_singleton]%elem_of_app; [by apply J5|by subst r'].
    + intros _ r' [= ->]. destruct Hr as [?|[_ ?]]; auto.
  - eapply wp_mono; [apply evo_gc|]. intros [] w1 He. apply wp_ret. split_and!; [exact (joined_evolves _ _ _ He Hj)| |done].
    etransitivity; [exact He|]. apply evolves_part. unfold part. cbn. by rewrite (ev_new _ _ He).
Qed.

Lemma seen_high l q w :
  (forall i, i ∈ l -> (length (w_workers w) <= i)%nat) -> seen_ok w q ->
  seen_ok w (fold_right rq_set q l) /\ rq_callback (fold_right rq_set q l) = rq_callback q.
Proof.
  induction l as [|i l IH]; intros Hl Hs; [done|]. destruct IH as [IH1 IH2]; [intros; apply Hl; by right|done|]. split; [|done].
  apply seen_set; [done|]. intros r t c Ht. apply lookup_lt_Some in Ht. specialize (Hl i ltac:(left)). lia.
Qed.

(** The slaves whose request is being made by [add_request c]. *)
Definition late_of (c : callback) : list nat := match c with AddSlave r => [r] | ReactorGC => [] end.

Lemma elem_of_late c r : r ∈ late_of c <-> c = AddSlave r.
Proof. destruct c; cbn; [rewrite list_elem_of_singleton|rewrite elem_of_nil]; naive_solver. Qed.

Lemma joined_added late c w q :
  joined (late_of c ++ late) w -> seen_ok w q -> rq_callback q = c -> (forall r, c = AddSlave r -> r ∈ m_slaves w) ->
  joined late (set_requests (m_requests w ++ [q]) w).
Proof.
  intros [J1 Jb J2 J3 J4 J5] Hs Hq Hc. split; try done; cbn.
  - intros r Hr Hl. destruct (decide (r ∈ late_of c)) as [Ec|Ec].
    + apply elem_of_late in Ec. right. right. exists q. split; [set_solver|congruence].
    + destruct (J3 r Hr) as [?|[?|(q'&?&?)]]; auto; [set_solver|right; right; exists q'; set_solver].
  - intros q' r [Hin|Hin%list_elem_of_singleton]%elem_of_app Hr; [by apply J4|subst q'].
    right. split; [apply Hc; congruence|by apply Hs].
Qed.

Lemma add_request_joined late c w :
  joined (late_of c ++ late) w -> (forall r, c = AddSlave r -> r ∈ m_slaves w) -> wpt (add_request c) (fun _ w' => joined late w') w.
Proof.
  intros Hj Hc. unfold add_request. apply wp_bind, wp_gets, wp_bind.
  eapply wp_mono; [apply set_idle_seen; [apply Hj|intros r _ i Hi; by apply not_elem_of_nil in Hi]|].
  intros q w1 (He&Hs&Eq). cbn in Eq. set (q1 := fold_right _ _ _). pose proof (joined_evolves _ _ _ He Hj) as Hj1.
  assert (forall r, c = AddSlave r -> r ∈ m_slaves w1) as Hc1 by (intros; rewrite (ev_slaves _ _ He); auto).
  destruct (seen_high (seq (length (w_workers w)) (MAX_WORKERS - length (w_workers w))) q w1) as [Hs1 Eq1]; [|done|].
  { intros i Hi%elem_of_seq. rewrite (ev_len _ _ He). lia. }
  fold q1 in Hs1, Eq1. rewrite Eq in Eq1. apply wp_bind.
  eapply wp_mono; [apply (rq_check_joined _ q1 w1 Hj1); intros r Hr; right; split; [apply Hc1; congruence|by apply Hs1]|].
  intros b w2 (Hj2&He2&Ht). destruct b.
  - apply wp_ret. destruct Hj2 as [J1 Jb J2 J3 J4 J5]. split; try done. intros r Hr Hl.
    destruct (decide (r ∈ late_of c)) as [Ec|Ec]; [apply elem_of_late in Ec|apply J3; set_solver].
    destruct (Ht eq_refl r) as [?|?]; [congruence|auto|auto].
  - apply wp_modify. apply (joined_added late c); try done.
    + exact (seen_evolves _ _ q1 He2 Hs1).
    + intros r Hr. pose proof (ev_slaves _ _ He2) as E. cbn in E. rewrite E. auto.
Qed.

Lemma check_idle_joined late l w :
  joined late w -> wpt (check_idle l) (fun _ w' => joined late w') w.
Proof.
  revert w. induction l as [|i l IH]; intros w Hj; cbn [check_idle]; [by apply wp_ret|].
  apply wp_bind. eapply wp_mono; [apply is_running_knows, Hj|]. intros b w1 [He Hb]. pose proof (joined_evolves _ _ _ He Hj) as Hj1.
  apply wp_bind. destruct b; cbn [negb when]; [by apply wp_ret, IH|]. apply wp_modify, IH. specialize (Hb eq_refl).
  destruct Hj1 as [J1 Jb J2 J3 J4 J5]. split; try done; cbn.
  - intros r Hr Hl. destruct (J3 r Hr Hl) as [?|[?|(q&Hq&Hc)]]; auto. right. right. exists (rq_set i q). split; [|done].
    apply list_elem_of_fmap. eauto.
  - intros q r (q0&->&Hq0)%list_elem_of_fmap Hc. destruct (J4 q0 r Hq0 Hc) as [?|[? Hk]]; [by left|right]. split; [done|].
    intros j [-> |Hin]%elem_of_cons; [apply Hb|by apply Hk].
Qed.

(** Taking a completed request out of the queue. *)
Lemma joined_done late pre q qs w :
  joined late w -> m_requests w = pre ++ q :: qs ->
  (forall r, rq_callback q = AddSlave r -> dead w r \/ forall i, knows w r i) -> joined late (set_requests (pre ++ qs) w).
Proof.
  intros [J1 Jb J2 J3 J4 J5] Hrq Hq. split; try done; cbn.
  - intros r Hr Hl. destruct (J3 r Hr Hl) as [?|[?|(q'&Hq'&Hc)]]; auto. rewrite Hrq in Hq'.
    apply elem_of_app in Hq' as [Hq'|[-> |Hq']%elem_of_cons]; [right; right; exists q'; set_solver| |right; right; exists q'; set_solver].
    destruct (Hq r Hc); auto.
  - intros q' r Hq'. apply J4. rewrite Hrq. set_solver.
Qed.

Lemma check_requests_joined late pre qs w :
  joined late w -> m_requests w = pre ++ qs -> wpt (check_requests pre qs) (fun _ w' => joined late w') w.
Proof.
  revert pre w. induction qs as [|q qs IH]; intros pre w Hj Hrq; cbn [check_requests]; [by apply wp_ret|]. apply wp_bind.
  eapply wp_mono; [apply (rq_check_joined late q w Hj)|].
  { intros r Hc. apply (jo_requests _ _ Hj); [rewrite Hrq; set_solver|done]. }
  intros b w1 (Hj1&He&Ht). pose proof (ev_requests _ _ He) as E. cbn in E. rewrite Hrq in E. destruct b.
  - apply wp_bind, wp_modify, IH; [|done]. apply (joined_done late pre q qs); auto.
  - apply IH; [done|]. by rewrite <- app_assoc.
Qed.

Lemma kj_syncer_check : keeps_joined syncer_check.
Proof.
  intros late w Hj. unfold syncer_check. apply wp_bind, wp_gets, wp_bind. eapply wp_mono; [by apply check_idle_joined|].
  intros [] w1 Hj1. apply wp_bind, wp_gets. by apply check_requests_joined.
Qed.

(** *** Slaves that join and leave *)

Lemma kj_make_repl_socket fd : keeps_joined (make_repl_socket fd).
Proof.
  intros late w Hj. unfold make_repl_socket. apply wp_bind, wp_gets. case_match; [by apply wp_ret|].
  apply wp_bind, wp_gets, wp_bind. eapply wp_mono; [apply evo_alloc|]. intros r w1 He. pose proof (joined_evolves _ _ _ He Hj) as Hj1.
  apply wp_bind, wp_modify, wp_bind. eapply wp_mono; [apply (add_request_joined late)|].
  - destruct Hj1 as [J1 Jb J2 J3 J4 J5]. split; try done; cbn.
    + intros r' [Hr|Hr]%elem_of_app Hl; [apply J3; set_solver|set_solver].
    + intros q r' Hq Hc. destruct (J4 q r' Hq Hc) as [?|[? ?]]; [by left|right]. split; [set_solver|done].
    + intros r' Hr. destruct (J5 r' Hr) as [?|[? ?]]; [by left|right]. split; [set_solver|done].
  - intros r' [= <-]. cbn. set_solver.
  - intros [] w2 Hj2. by apply wp_ret.
Qed.

(** Taking a dead slave out of the list. *)
Lemma joined_leave late pre r l w :
  joined late w -> m_slaves w = pre ++ r :: l -> dead w r -> joined late (set_slaves (pre ++ l) w).
Proof.
  intros [J1 Jb J2 J3 J4 J5] Hm Hd. split; try done; cbn.
  - intros r' Hr. apply J3. rewrite Hm. set_solver.
  - intros q r' Hq Hc. destruct (decide (r' = r)) as [-> |Hne]; [by left|]. destruct (J4 q r' Hq Hc) as [?|[Hr ?]]; [by left|right].
    split; [|done]. rewrite Hm in Hr. set_solver.
  - intros r' Hr. destruct (decide (r' = r)) as [-> |Hne]; [by left|]. destruct (J5 r' Hr) as [?|[Hr' ?]]; [by left|right].
    split; [|done]. rewrite Hm in Hr'. set_solver.
Qed.

Lemma valid_dead r w :
  bounded w -> wpt (valid r) (fun b w' => evolves w w' /\ (b = false -> dead w' r)) w.
Proof.
  intros Hb. unfold valid. apply wp_bind. eapply wp_mono; [apply evo_yield|]. intros [] w1 He. apply wp_bind. unfold deref_res.
  apply wp_bind, wp_gets. unfold checked. destruct (w_heap w1 !! r) as [x|] eqn:Hx; [|done]. apply wp_ret, wp_ret. split; [done|].
  intros Hv. split; [apply (ev_bounded _ _ He Hb); eauto|]. intros y Hy. congruence.
Qed.

Lemma invalidate_dead r w : bounded w -> wpt (invalidate r) (fun _ w' => evolves w w' /\ dead w' r) w.
Proof.
  intros Hb. unfold invalidate. apply wp_bind. eapply wp_mono; [apply evo_yield|]. intros [] w1 He. apply wp_bind. unfold deref_res.
  apply wp_bind, wp_gets. unfold checked. destruct (w_heap w1 !! r) as [x|] eqn:Hx; [|done]. apply wp_ret.
  assert (r < w_next w1)%nat as Hlt by (apply (ev_bounded _ _ He Hb); eauto). destruct (r_valid x) eqn:Hv.
  - apply wp_bind, wp_modify, wp_ret. split; [etransitivity; [exact He|by apply evolves_upd]|]. split; [done|]. cbn.
    rewrite lookup_alter_eq, Hx. by intros y [= <-].
  - apply wp_ret. split; [done|]. split; [done|]. intros y Hy. congruence.
Qed.

Lemma slaves_loop_joined cfg late pre l w :
  joined late w -> m_slaves w = pre ++ l -> wpt (slaves_loop cfg pre l) (fun _ w' => joined late w') w.
Proof.
  revert pre w. induction l as [|r l IH]; intros pre w Hj Hm; cbn [slaves_loop]; [by apply wp_ret|].
  apply wp_bind. eapply wp_mono; [apply valid_dead, Hj|]. intros v w1 [He Hv]. pose proof (joined_evolves _ _ _ He Hj) as Hj1.
  rewrite <- (ev_slaves _ _ He) in Hm. destruct v; cbn [negb].
  2: { apply wp_bind, wp_modify, IH; [|done]. eapply joined_leave; eauto. }
  apply wp_bind. eapply wp_mono; [apply evo_deref|]. intros x w2 He2. pose proof (joined_evolves _ _ _ He2 Hj1) as Hj2.
  rewrite <- (ev_slaves _ _ He2) in Hm. apply wp_bind, wp_gets. case_match.
  - apply wp_bind. eapply wp_mono; [apply invalidate_dead, Hj2|]. intros b w3 [He3 Hd]. apply wp_bind.
    eapply (wp_mono _ _ (fun _ w4 => evolves w3 w4)); [destruct b; evo|]. intros [] w4 He4.
    assert (evolves w2 w4) as He24 by exact (transitivity He3 He4). apply wp_bind, wp_modify, IH; [|done].
    apply (joined_leave late pre r l); [exact (joined_evolves _ _ _ He24 Hj2)|by rewrite (ev_slaves _ _ He24)|by apply (ev_dead _ _ He4)].
  - apply IH; [done|]. by rewrite <- app_assoc.
Qed.

(** ** The loop of the master *)

Lemma kj_accept_one repl full fd : keeps_joined (accept_one repl full fd).
Proof. unfold accept_one. apply kj_bind; [kj|intros used]. destruct used; [kj|]. apply kj_bind; [destruct repl; [apply kj_make_repl_socket|kj]|intros o; kj]. Qed.

Lemma kj_on_readable r fd : keeps_joined (on_readable r fd).
Proof.
  unfold on_readable. apply kj_bind; [kj|intros x]. destruct (r_kind x); [|apply kj_client_on_readable|kj].
  apply kj_bind; [kj|intros i]. apply kj_bind; [apply kj_iterM; intros ?; apply kj_accept_one|intros []; kj].
Qed.

#[local] Hint Resolve kj_on_readable kj_on_writable kj_syncer_check : evo.

Lemma kj_poll evs : keeps_joined (poll evs).
Proof. unfold poll, process_readable, process_event, lookup_fd. kj. Qed.

Lemma kj_on_master_interval cfg t : keeps_joined (on_master_interval cfg t).
Proof.
  intros late w Hj. unfold on_master_interval. apply wp_bind, wp_gets, wp_bind. eapply wp_mono; [by apply slaves_loop_joined|].
  intros [] w1 Hj1. apply wp_bind. eapply wp_mono; [apply evo_gc_ready|]. intros b w2 He. pose proof (joined_evolves _ _ _ He Hj1) as Hj2.
  destruct b; [|by apply wp_ret]. apply wp_bind, wp_gets, wp_bind, wp_gets, wp_bind, wp_modify, wp_modify.
  destruct Hj2 as [J1 Jb J2 J3 J4 J5]. split; try done. by intros r ?%not_elem_of_nil.
Qed.

Lemma kj_master_callback cfg t : keeps_joined (master_callback cfg t).
Proof.
  unfold master_callback. apply kj_bind; [kj|intros []]. apply kj_bind; [kj|intros qs]. apply kj_bind; [kj|intros []].
  apply kj_bind; [apply kj_on_master_interval|intros []]. apply kj_bind; [kj|intros ready]. destruct ready; [|kj].
  apply kj_bind; [kj|intros ?]. intros late w Hj. by apply add_request_joined.
Qed.

Lemma kj_run cfg its : keeps_joined (run cfg its).
Proof.
  apply kj_iterM. intros [evs o]. unfold iteration. apply kj_bind; [apply kj_poll|intros []]. cbn [snd].
  destruct o; [apply kj_master_callback|kj].
Qed.

Lemma start_joined workers l sched inputs : (workers <= MAX_WORKERS)%nat -> joined [] (master_start workers l sched inputs).
Proof.
  intros Hw. split; cbn; try (by intros ? ?%not_elem_of_nil).
  - intros i t Ht _. cbn in Ht. by apply lookup_replicate in Ht as [-> _].
  - intros r [x Hx]. cbn in *. apply listening_lookup in Hx as (fr&Hr&_). by eapply lookup_lt_Some.
  - by rewrite length_replicate.
  - by intros q r ?%not_elem_of_nil.
Qed.

Lemma reaches_joined w : master_reaches w -> joined [] w.
Proof.
  intros (cfg&n&l&sched&inputs&its&Hn&Hl&Hrun). pose proof (kj_run cfg its [] _ (start_joined n l sched inputs Hn)) as H.
  unfold wp in H. by rewrite Hrun in H.
Qed.

(** ** Claims *)

(** C19: A slave misses no change.  In every state of the master: a valid slave that waits
    for its initial replication, or that is in the list of slaves and has no pending
    synchronization request, is in the copy of the list that every receiving job in progress
    works with.  So the objects that the collection thread sends to it are changed from then
    on only by jobs that also replicate to it; and only a slave that is not valid any more
    leaves the list before its replication begins. *)
Theorem slave_misses_nothing w r x :
  master_reaches w -> w_heap w !! r = Some x -> r_valid x = true ->
  (r ∈ m_new_slaves w \/ (r ∈ m_slaves w /\ forall q, q ∈ m_requests w -> rq_callback q <> AddSlave r)) ->
  r ∈ m_slaves w /\ forall i t c, w_workers w !! i = Some t -> th_recv t = Some c -> r ∈ th_refs t.
Proof.
  intros Hw%reaches_joined Hx Hv Hr. assert (~ dead w r) as Hd by (intros [_ Hd]; specialize (Hd x Hx); congruence).
  destruct Hr as [Hr|[Hr Hq]].
  - destruct (jo_new _ _ Hw r Hr) as [?|[? Hk]]; [done|]. split; [done|]. intros i t c. apply Hk.
  - destruct (jo_slaves _ _ Hw r Hr) as [?|[Hk|(q&H1&H2)]]; [apply not_elem_of_nil|done| |by destruct (Hq q H1)].
    split; [done|]. intros i t c. apply Hk.
Qed.

(** A slave that joined while no job was running, and a client whose request came
    later: the job replicates to the slave, which still waits for the collection. *)
Definition demo_join : list (list event * option tick) := [([ev_in_at 4], None); ([ev_in_at 3], None); ([ev_in_at 6], None)].
Definition joined_state : world :=
  snd (run demo_conf demo_join (master_start 2 [(3%nat, false); (4%nat, true)] [] [accepts [5%nat]; accepts [6%nat]])).

Lemma slave_misses_nothing_witness :
  m_new_slaves joined_state = [2%nat] /\ th_recv <$> (w_workers joined_state !! 0%nat) = Some (Some 3%nat) /\
  forall i t c, w_workers joined_state !! i = Some t -> th_recv t = Some c -> 2%nat ∈ th_refs t.
Proof.
  split; [by vm_compute|]. split; [by vm_compute|].
  refine (proj2 (slave_misses_nothing joined_state 2 (new_resource 5 KSlave 0) _ _ _ _)).
  - apply run_reaches; [unfold MAX_WORKERS; lia|by apply (bool_decide_unpack _)].
  - by vm_compute.
  - done.
  - left. vm_compute. left.
Defined.
