(* ===== verification/SlaveLoop.v ===== *)
(** * A server in slave mode (src/server.cpp, src/memcache/handler.cpp, src/memcache/sockets)

    A slave has no workers and no collection thread: the reactor thread alone serves the
    signal descriptor, the listening sockets (whose connections it closes at once) and
    the connection to the master, and pings the master at each interval.  The heap of
    sockets and the operations of the reactor are those of [Reactor].  What [on_readable]
    does with the data of the master is in [SlaveRecv]; here it matters only whether the
    connection was found closed. *)

From stdpp Require Import gmap.
From S2P Require Import Prelude.
From S2P Require Import Reactor.
From S2P Require Import ReactorInv.
From S2P Require Import ReactorSafe.
From S2P Require Import ReactorRun.

(** What a system call of the slave meets: the master closed or reset the connection, more
    data than one [on_readable] takes or no descriptor for a connection to accept, a
    write that failed, a signal that ends the server. *)
Record slave_input := { n_closed : bool; n_more : bool; n_fail : bool; n_term : bool }.
Definition quiet : slave_input := {| n_closed := false; n_more := false; n_fail := false; n_term := false |}.

Record slave := {
  s_world : world;
  s_running : bool;                       (** [reactor::m_running] *)
  s_signaled : bool;                      (** [server::m_signaled] *)
  m_repl_client_socket : option nat;
  s_inputs : list slave_input
}.
Definition with_world (w : world) (s : slave) : slave :=
  {| s_world := w; s_running := s_running s; s_signaled := s_signaled s;
     m_repl_client_socket := m_repl_client_socket s; s_inputs := s_inputs s |}.
Definition with_running (b : bool) (s : slave) : slave :=
  {| s_world := s_world s; s_running := b; s_signaled := s_signaled s;
     m_repl_client_socket := m_repl_client_socket s; s_inputs := s_inputs s |}.
Definition with_signaled (s : slave) : slave :=
  {| s_world := s_world s; s_running := s_running s; s_signaled := true;
     m_repl_client_socket := m_repl_client_socket s; s_inputs := s_inputs s |}.
Definition with_socket (r : nat) (s : slave) : slave :=
  {| s_world := s_world s; s_running := s_running s; s_signaled := s_signaled s;
     m_repl_client_socket := Some r; s_inputs := s_inputs s |}.
Definition with_inputs (l : list slave_input) (s : slave) : slave :=
  {| s_world := s_world s; s_running := s_running s; s_signaled := s_signaled s;
     m_repl_client_socket := m_repl_client_socket s; s_inputs := l |}.

Definition lift {A} (m : M world A) : M slave A := fun s =>
  let '(a, w) := m (s_world s) in (a, with_world w s).
Definition next : M slave slave_input := fun s =>
  match s_inputs s with [] => (inr quiet, s) | i :: l => (inr i, with_inputs l s) end.

(** [reactor::quit]. *)
Definition quit : M slave unit := modify (with_running false).

(** The signal descriptor is the first resource of a server; the connection to the master
    is the one that the handler points to; the others are listening sockets. *)
Definition signal_reader : nat := 0.
Definition is_client (r : nat) (s : slave) : bool := bool_decide (m_repl_client_socket s = Some r).

(** [repl_client_socket::on_readable]; the handler of signals in [server::serve];
    [tcp_server_socket::on_readable], for which [make_memcache_socket] refuses all
    connections. *)
Definition client_readable (r fd : nat) : M slave bool :=
  let! i := next in
  if n_closed i then quit ;;! lift (invalidate r) else
  when (n_more i) (lift (add_readable fd)) ;;!
  ret true.
Definition signal_readable : M slave bool :=
  let! i := next in
  when (n_term i) (modify with_signaled ;;! quit) ;;!
  ret true.
Definition listener_readable (fd : nat) : M slave bool :=
  let! i := next in
  when (n_more i) (lift (add_readable fd)) ;;!
  ret true.
Definition slave_on_readable (r fd : nat) : M slave bool :=
  let! _ := lift (deref_res r) in
  let! c := gets (is_client r) in
  if (c : bool) then client_readable r fd else
  if (r =? signal_reader)%nat then signal_readable else listener_readable fd.

(** [tcp_socket::on_writable]. *)
Definition slave_on_writable (r : nat) : M slave bool :=
  let! _ := lift (deref_res r) in
  let! c := gets (is_client r) in
  if (c : bool) then
    let! i := next in
    if n_fail i then lift (invalidate r) else ret true
  else ret true.

(** [repl_client_socket::on_hangup] and [on_error]; those of [resource]. *)
Definition slave_on_error (r : nat) : M slave bool :=
  let! c := gets (is_client r) in
  when c quit ;;!
  lift (invalidate r).

(** [reactor::poll]. *)
Definition slave_unless_ok (fd : nat) (b : bool) (k : M slave unit) : M slave unit :=
  if b then k else lift (remove_resource fd).
Definition slave_event (e : event) : M slave unit :=
  let fd := ev_fd e in
  let! r := lift (lookup_fd fd) in
  if ev_err e then let! b := slave_on_error r in slave_unless_ok fd b (ret tt) else
  let! b := (if ev_hup e then slave_on_error r else ret true) in
  slave_unless_ok fd b (
    let! b := (if ev_in e then slave_on_readable r fd else ret true) in
    slave_unless_ok fd b (
      let! b := (if ev_out e then slave_on_writable r else ret true) in
      slave_unless_ok fd b (ret tt))).
Definition slave_readable (fd : nat) : M slave unit :=
  let! r := lift (lookup_fd fd) in
  let! b := slave_on_readable r fd in
  slave_unless_ok fd b (ret tt).
Definition slave_poll (evs : list event) : M slave unit :=
  let! readables := gets (fun s => m_readables (s_world s)) in
  lift (modify (set_readables [])) ;;!
  iterM slave_readable (sort_unique readables) ;;!
  let! drop := gets (fun s => m_drop_req (s_world s)) in
  lift (modify (set_drop_req [])) ;;!
  iterM (fun fd => lift (remove_resource fd)) drop ;;!
  let! m := gets (fun s => m_resources (s_world s)) in
  iterM slave_event (epoll_wait evs [] m).

(** [tcp_socket::send] on this thread: [with_fd], with [invalidate_and_close_] when the
    write fails. *)
Definition slave_send (r : nat) : M slave bool :=
  let! v := lift (valid r) in
  if negb v then ret false else
  let! i := next in
  if n_fail i then
    let! x := lift (deref_res r) in
    lift (modify (upd r (with_valid false))) ;;!
    lift (modify (fun w => set_drop_req (m_drop_req w ++ [r_fd x]) w)) ;;!
    ret false
  else ret true.

(** [handler::on_slave_interval], [handler::on_slave_end]. *)
Definition client_socket : M slave nat :=
  let! o := gets m_repl_client_socket in checked o.
Definition on_slave_interval : M slave unit :=
  let! r := client_socket in
  let! _ := slave_send r in
  ret tt.
Definition on_slave_end : M slave unit :=
  let! r := client_socket in
  let! v := lift (valid r) in
  if (v : bool) then let! x := lift (deref_res r) in lift (remove_resource (r_fd x)) else ret tt.

(** [handler::on_slave_start], for a connection the kernel has given the descriptor [fd];
    without one, [run_once]. *)
Definition on_slave_start (connect : option nat) (evs : list event) : M slave bool :=
  match connect with
  | Some fd =>
      let! r := lift (alloc (new_resource fd KClient 0)) in
      modify (with_socket r) ;;!
      lift (add_resource r) ;;!
      ret true
  | None => slave_poll evs ;;! ret false
  end.

(** The callback of [server::serve_slave]; [eligible] is the answer of [is_master]. *)
Definition slave_callback (eligible : bool) : M slave unit :=
  if eligible then quit else
  on_slave_interval ;;!
  let! _ := lift fix_garbage in
  lift gc.

(** [reactor::run]: an iteration polls and, when its interval has passed, calls back. *)
Record slave_iter := { si_events : list event; si_inputs : list slave_input; si_callback : option bool }.
Definition slave_iteration (it : slave_iter) : M slave unit :=
  modify (with_inputs (si_inputs it)) ;;!
  slave_poll (si_events it) ;;!
  match si_callback it with None => ret tt | Some b => slave_callback b end.
Fixpoint slave_loop (its : list slave_iter) : M slave unit :=
  match its with
  | [] => ret tt
  | it :: its =>
      let! b := gets s_running in
      if (b : bool) then slave_iteration it ;;! slave_loop its else ret tt
  end.

(** [server::serve_slave]; the loop of [server::serve] around it.  A connection gets a
    descriptor that is not in use.  When its iterations run out a session ends, as it does
    when the node becomes eligible to be the master. *)
Record attempt := {
  at_connect : option nat;
  at_events : list event; at_inputs : list slave_input;    (** of [run_once] *)
  at_iters : list slave_iter;
  at_promote : bool
}.
Definition connected (a : attempt) (s : slave) : option nat :=
  match at_connect a with
  | Some fd => if fd_open fd (s_world s) then None else Some fd
  | None => None
  end.
Definition serve_slave (a : attempt) : M slave unit :=
  modify (with_inputs (at_inputs a)) ;;!
  let! fd := gets (connected a) in
  let! b := on_slave_start fd (at_events a) in
  if negb b then ret tt else
  modify (with_running true) ;;!
  slave_loop (at_iters a) ;;!
  on_slave_end.
Fixpoint serve (l : list attempt) : M slave bool :=
  match l with
  | [] => ret false
  | a :: l =>
      serve_slave a ;;!
      let! sig := gets s_signaled in
      if (sig : bool) then ret false else
      if at_promote a then ret true else serve l
  end.

(** A server that starts, with its signal descriptor and its listening sockets. *)
Definition slave_start (sigfd : nat) (listen : list nat) : slave :=
  {| s_world := master_start 0 ((fun fd => (fd, false)) <$> sigfd :: listen) [] []; s_running := true; s_signaled := false;
     m_repl_client_socket := None; s_inputs := [] |}.

(** ** The reactor of a slave *)

(** No other thread; what is registered is valid and open; what was removed is in the
    garbage. *)
Record sinv (w : world) : Prop := {
  si_sched : w_sched w = [];
  si_workers : w_workers w = [];
  si_gc : m_gc_thread w = None;
  si_drop : m_drop_req w = [];
  si_copy : m_garbage_copy w = [];
  si_next : forall r, is_Some (w_heap w !! r) -> (r < w_next w)%nat;
  si_reg : forall fd r, m_resources w !! fd = Some r ->
    r ∉ m_garbage w /\ exists x, w_heap w !! r = Some x /\ r_fd x = fd /\ r_valid x = true /\ r_closed x = false;
  si_read : forall fd, fd ∈ m_readables w -> is_Some (m_resources w !! fd);
  si_nodup : NoDup (m_garbage w);
  si_garbage : forall r, r ∈ m_garbage w -> is_Some (w_heap w !! r)
}.

Lemma yield_none w : w_sched w = [] -> yield w = (inr tt, w).
Proof. unfold yield. by intros ->. Qed.

Lemma held_none r w : sinv w -> held r w = false.
Proof. intros H. unfold held. by rewrite (si_workers _ H), (si_gc _ H). Qed.

(** The world after a socket was removed. *)
Definition removed (fd r : nat) (w : world) : world :=
  upd r with_closed
    (set_readables (filter (fun fd' => fd' <> fd) (m_readables w))
      (set_resources (delete fd (m_resources w)) (set_garbage (m_garbage w ++ [r]) w))).
Definition dropped (v : bool) (fd r : nat) (w : world) : world := removed fd r (upd r (with_valid v) w).

Lemma invalidate_eq r x w :
  w_sched w = [] -> w_heap w !! r = Some x -> r_valid x = true ->
  invalidate r w = (inr false, upd r (with_valid false) w).
Proof. intros Hs Hx Hv. unfold invalidate, bind. rewrite (yield_none w Hs). unfold deref_res, bind, gets, checked. rewrite Hx. cbn. by rewrite Hv. Qed.

Lemma remove_eq v fd r w :
  sinv w -> m_resources w !! fd = Some r ->
  remove_resource fd (upd r (with_valid v) w) = (inr tt, dropped v fd r w).
Proof.
  intros Hi Hr. destruct (si_reg _ Hi fd r Hr) as (_&x&Hx&_). unfold remove_resource, bind, gets, modify, ret. cbn. rewrite Hr.
  unfold try_close, bind. rewrite yield_none by apply (si_sched _ Hi). unfold deref_res, bind, gets, checked. cbn.
  rewrite lookup_alter_eq, Hx. cbn. unfold held. cbn. by rewrite (si_workers _ Hi), (si_gc _ Hi).
Qed.

Lemma sinv_dropped v fd r w : sinv w -> m_resources w !! fd = Some r -> sinv (dropped v fd r w).
Proof.
  intros Hi Hr. destruct (si_reg _ Hi fd r Hr) as (Hg&x&Hx&Hfd&Hv&Hc). split; cbn; try apply Hi.
  - intros r'. rewrite !lookup_alter_is_Some. apply Hi.
  - intros fd' r' Hr'. destruct (decide (fd' = fd)) as [-> |Hne]; [by rewrite lookup_delete_eq in Hr'|].
    rewrite lookup_delete_ne in Hr' by done. destruct (si_reg _ Hi fd' r' Hr') as (Hg'&x'&Hx'&Hfd'&?&?).
    assert (r' <> r) as Hrr by (intros ->; congruence). split; [set_solver|]. exists x'.
    by rewrite !lookup_alter_ne.
  - intros fd' [Hne Hin]%list_elem_of_filter. rewrite lookup_delete_ne by done. by apply Hi.
  - apply NoDup_app. split_and!; [apply Hi|set_solver|apply NoDup_singleton].
  - intros r' Hin. rewrite !lookup_alter_is_Some. apply elem_of_app in Hin as [Hin|Hin%list_elem_of_singleton]; [by apply Hi|subst; eauto].
Qed.

Lemma sinv_readable fd w : sinv w -> is_Some (m_resources w !! fd) -> sinv (set_readables (m_readables w ++ [fd]) w).
Proof. intros Hi Hfd. split; cbn; try apply Hi. intros fd' [Hin|Hin%list_elem_of_singleton]%elem_of_app; [by apply Hi|by subst]. Qed.

(** ** The connection to the master *)

Definition live (r : nat) (w : world) : Prop := exists fd, m_resources w !! fd = Some r.
Definition lost (r : nat) (s : slave) : Prop :=
  s_running s = false /\ r ∈ m_garbage (s_world s) /\ exists x, w_heap (s_world s) !! r = Some x /\ r_valid x = false.

(** The connection is open; where the callback does not run, it may have been found closed
    since, and then the loop is about to end.  Between two sessions it is not registered. *)
Definition conn (due between : bool) (s : slave) : Prop :=
  forall r, m_repl_client_socket s = Some r ->
    if between then ~ live r (s_world s) else live r (s_world s) \/ (due = false /\ lost r s).

Definition calm_input (due : bool) (i : slave_input) : bool := negb (n_fail i) && negb (due && n_closed i).

Record pinv (due between : bool) (s : slave) : Prop := {
  pi_sinv : sinv (s_world s);
  pi_conn : conn due between s;
  pi_inputs : Forall (fun i => calm_input due i = true) (s_inputs s)
}.

Section handlers.
Context (due between : bool).
Notation pinv := (pinv due between).

(** What a handler of the socket registered at [fd] leaves. *)
Definition handled (fd : nat) (s0 : slave) (b : bool) (s : slave) : Prop :=
  if b then pinv s /\ m_resources (s_world s) = m_resources (s_world s0)
  else wp no_exn (lift (remove_resource fd))
         (fun _ s' => pinv s' /\ m_resources (s_world s') = delete fd (m_resources (s_world s0))) s.

Lemma wp_lift {A} (m : M world A) (Q : A -> slave -> Prop) s :
  wp no_exn m (fun a w => Q a (with_world w s)) (s_world s) -> wp no_exn (lift m) Q s.
Proof. unfold wp, lift. by destruct (m (s_world s)) as [[x|a] w]. Qed.

Lemma wp_next (Q : slave_input -> slave -> Prop) s :
  pinv s -> (forall i l, calm_input due i = true -> pinv (with_inputs l s) -> Q i (with_inputs l s)) -> wp no_exn next Q s.
Proof.
  intros [Hi Hc Hs] HQ. unfold wp, next. destruct (s_inputs s) as [|i l] eqn:E.
  - replace s with (with_inputs [] s) by (destruct s; cbn in *; by subst). apply HQ; [by destruct due|]. by split.
  - apply Forall_cons in Hs as [??]. apply HQ; [done|by split].
Qed.

(** Invalidating the socket of [fd], after [quit] when it is the connection. *)
Lemma drop_handled fd r s s0 :
  pinv s0 -> m_resources (s_world s0) !! fd = Some r ->
  s_world s = s_world s0 -> m_repl_client_socket s = m_repl_client_socket s0 -> s_inputs s = s_inputs s0 ->
  (s_running s0 = false -> s_running s = false) ->
  (m_repl_client_socket s = Some r -> due = false /\ s_running s = false) ->
  wp no_exn (lift (invalidate r)) (handled fd s0) s.
Proof.
  intros [Hi Hc Hin] Hr Ew Es Ei Hrun Hcl. destruct (si_reg _ Hi fd r Hr) as (Hg&x&Hx&Hfd&Hv&Hcc).
  apply wp_lift. unfold wp. rewrite Ew, (invalidate_eq r x _ (si_sched _ Hi) Hx Hv). unfold handled.
  apply wp_lift. unfold wp. cbn [s_world with_world]. rewrite (remove_eq false fd r (s_world s0) Hi Hr). split; [|done].
  split; cbn; [by apply sinv_dropped| |by rewrite Ei]. intros q Hq. specialize (Hc q). cbn in Hq. rewrite <- Es in Hc. specialize (Hc Hq).
  assert (forall q', live q' (dropped false fd r (s_world s0)) -> live q' (s_world s0)) as Hlive.
  { intros q' [fd' Hf]. exists fd'. cbn in Hf. by apply lookup_delete_Some in Hf as [_ ?]. }
  destruct between; [by intros H%Hlive|]. destruct (decide (q = r)) as [-> |Hne].
  - right. destruct (Hcl Hq) as [-> Hrun']. split; [done|]. split; cbn; [done|]. split; [set_solver|].
    exists (with_closed (with_valid false x)). by rewrite !lookup_alter_eq, Hx.
  - destruct Hc as [[fd' Hf]|(->&H1&H2&y&H3&H4)].
    + left. exists fd'. cbn. rewrite lookup_delete_ne; [done|]. intros <-. congruence.
    + right. split; [done|]. split; cbn; [auto|]. split; [set_solver|]. exists y. by rewrite !lookup_alter_ne.
Qed.

Lemma is_client_conn fd r s : pinv s -> m_resources (s_world s) !! fd = Some r -> is_client r s = true -> between = false.
Proof.
  intros [_ Hc _] Hr Hs%bool_decide_eq_true. specialize (Hc r Hs). destruct between; [|done]. destruct Hc. by exists fd.
Qed.

Lemma wp_deref_reg {A} fd r (k : resource -> M slave A) Q s :
  pinv s -> m_resources (s_world s) !! fd = Some r -> (forall x, r_fd x = fd -> wp no_exn (k x) Q s) ->
  wp no_exn (bind (lift (deref_res r)) k) Q s.
Proof.
  intros Hp Hr HQ. destruct (si_reg _ (pi_sinv _ _ _ Hp) fd r Hr) as (_&x&Hx&Hfd&_). apply wp_bind, wp_lift.
  eapply (wp_deref r x); [done|]. replace (with_world (s_world s) s) with s by by destruct s. auto.
Qed.

Lemma pinv_readable fd s :
  pinv s -> is_Some (m_resources (s_world s) !! fd) ->
  pinv (with_world (set_readables (m_readables (s_world s) ++ [fd]) (s_world s)) s).
Proof. intros [Hi Hc Hin] Hr. split; [by apply sinv_readable|exact Hc|done]. Qed.

Lemma pinv_quit s s' :
  pinv s -> s_world s' = s_world s -> m_repl_client_socket s' = m_repl_client_socket s -> s_inputs s' = s_inputs s ->
  (s_running s = false -> s_running s' = false) -> pinv s'.
Proof.
  intros [Hi Hc Hin] Ew Es Ei Hr. split; rewrite ?Ew, ?Ei; try done. intros r Hs. rewrite Es in Hs. specialize (Hc r Hs).
  rewrite Ew. destruct between; [done|]. destruct Hc as [?|(?&?&?)]; [by left|right]. split; [done|]. split; [auto|by rewrite Ew].
Qed.

Lemma readable_handled fd r s :
  pinv s -> m_resources (s_world s) !! fd = Some r -> wp no_exn (slave_on_readable r fd) (handled fd s) s.
Proof.
  intros Hp Hr. unfold slave_on_readable. eapply wp_deref_reg; [done..|]. intros x Hfd. apply wp_bind, wp_gets.
  destruct (is_client r s) eqn:Hcl.
  - unfold client_readable. apply wp_bind, wp_next; [done|]. intros i l Hi Hp1. destruct (n_closed i) eqn:Hn.
    + apply wp_bind, wp_modify. apply (drop_handled fd r _ (with_inputs l s)); try done. intros _.
      unfold calm_input in Hi. rewrite Hn in Hi. by destruct (n_fail i), due.
    + apply wp_bind. destruct (n_more i); cbn [when]; [apply wp_lift, wp_modify|apply wp_ret]; apply wp_ret.
      * split; [|done]. apply (pinv_readable fd (with_inputs l s)); eauto.
      * by split.
  - destruct (r =? signal_reader)%nat; [unfold signal_readable|unfold listener_readable];
      apply wp_bind, wp_next; try done; intros i l Hi Hp1; apply wp_bind.
    2: { destruct (n_more i); cbn [when]; [apply wp_lift, wp_modify|apply wp_ret]; apply wp_ret; split; try done.
         apply (pinv_readable fd (with_inputs l s)); eauto. }
    destruct (n_term i); cbn [when]; [apply wp_bind, wp_modify, wp_modify|apply wp_ret]; apply wp_ret; split; try done.
    by apply (pinv_quit (with_inputs l s)).
Qed.

Lemma writable_handled fd r s :
  pinv s -> m_resources (s_world s) !! fd = Some r -> wp no_exn (slave_on_writable r) (handled fd s) s.
Proof.
  intros Hp Hr. unfold slave_on_writable. eapply wp_deref_reg; [done..|]. intros x Hfd. apply wp_bind, wp_gets.
  destruct (is_client r s); [|by apply wp_ret]. apply wp_bind, wp_next; [done|]. intros i l Hi Hp1.
  destruct (n_fail i) eqn:Hn; [by unfold calm_input in Hi; rewrite Hn in Hi|by apply wp_ret].
Qed.

Lemma error_handled fd r s :
  pinv s -> m_resources (s_world s) !! fd = Some r -> due = false -> wp no_exn (slave_on_error r) (handled fd s) s.
Proof.
  intros Hp Hr Hd. unfold slave_on_error. apply wp_bind, wp_gets, wp_bind. destruct (is_client r s) eqn:Hcl; cbn [when].
  - apply wp_modify. by apply (drop_handled fd r _ s).
  - apply wp_ret. apply (drop_handled fd r _ s); try done. intros Hs. apply bool_decide_eq_false in Hcl. done.
Qed.

(** Handling one descriptor keeps the others registered. *)
Definition step_ok (fd : nat) (s0 s : slave) : Prop :=
  pinv s /\ forall fd', fd' <> fd -> m_resources (s_world s) !! fd' = m_resources (s_world s0) !! fd'.

Lemma unless_ok_step fd b k s0 s :
  handled fd s0 b s ->
  (pinv s -> m_resources (s_world s) = m_resources (s_world s0) -> wp no_exn k (fun _ => step_ok fd s0) s) ->
  wp no_exn (slave_unless_ok fd b k) (fun _ => step_ok fd s0) s.
Proof.
  unfold handled, slave_unless_ok. destruct b; [intros [? ?]; auto|]. intros H _. eapply wp_mono; [exact H|].
  intros [] s' [? E]. split; [done|]. intros fd' Hne. rewrite E. by apply lookup_delete_ne.
Qed.

Lemma wp_slave_lookup {A} fd r (k : nat -> M slave A) Q s :
  m_resources (s_world s) !! fd = Some r -> wp no_exn (k r) Q s -> wp no_exn (bind (lift (lookup_fd fd)) k) Q s.
Proof.
  intros Hr HQ. apply wp_bind, wp_lift. unfold lookup_fd. apply wp_bind, wp_gets. rewrite Hr. apply wp_ret. by destruct s.
Qed.

Lemma done_step fd s0 s : pinv s -> m_resources (s_world s) = m_resources (s_world s0) -> wp no_exn (ret tt) (fun _ => step_ok fd s0) s.
Proof. intros Hp E. apply wp_ret. split; [done|]. intros. by rewrite E. Qed.

Lemma slave_readable_ok fd s :
  pinv s -> is_Some (m_resources (s_world s) !! fd) -> wp no_exn (slave_readable fd) (fun _ => step_ok fd s) s.
Proof.
  intros Hp [r Hr]. eapply wp_slave_lookup; [done|]. apply wp_bind. eapply wp_mono; [by apply readable_handled|].
  intros b s' Hh. eapply unless_ok_step; [done|]. apply done_step.
Qed.

Definition calm_event (e : event) : bool := negb (due && (ev_err e || ev_hup e)).

Lemma slave_event_ok e s :
  pinv s -> calm_event e = true -> is_Some (m_resources (s_world s) !! ev_fd e) ->
  wp no_exn (slave_event e) (fun _ => step_ok (ev_fd e) s) s.
Proof.
  intros Hp Hcalm [r Hr]. eapply wp_slave_lookup; [done|]. set (fd := ev_fd e) in *.
  assert (forall (b : bool) h, (b = true -> wp no_exn h (handled fd s) s) -> wp no_exn (if b then h else ret true) (handled fd s) s) as Hskip.
  { intros [] h Hh; [by apply Hh|by apply wp_ret]. }
  unfold calm_event in Hcalm. destruct (ev_err e).
  { apply wp_bind. eapply wp_mono; [apply error_handled; [done..|by destruct due]|]. intros b s1 H1.
    eapply unless_ok_step; [done|]. apply done_step. }
  apply wp_bind. eapply wp_mono; [apply Hskip; intros Hh; apply error_handled; [done..|rewrite Hh in Hcalm; by destruct due]|].
  intros b s1 H1. eapply unless_ok_step; [done|]. intros Hp1 E1.
  apply wp_bind. eapply (wp_mono _ _ (handled fd s)).
  { destruct (ev_in e); [|by apply wp_ret]. pose proof (readable_handled fd r s1 Hp1) as H. unfold handled in H |- *. rewrite E1 in H. auto. }
  intros b2 s2 H2. eapply unless_ok_step; [done|]. intros Hp2 E2.
  apply wp_bind. eapply (wp_mono _ _ (handled fd s)).
  { destruct (ev_out e); [|by apply wp_ret]. pose proof (writable_handled fd r s2 Hp2) as H. unfold handled in H |- *. rewrite E2 in H. auto. }
  intros b3 s3 H3. eapply unless_ok_step; [done|]. apply done_step.
Qed.

Lemma iter_steps {A} (key : A -> nat) (f : A -> M slave unit) (P : A -> Prop) l s :
  (forall a s, P a -> pinv s -> is_Some (m_resources (s_world s) !! key a) -> wp no_exn (f a) (fun _ => step_ok (key a) s) s) ->
  Forall P l -> NoDup (key <$> l) -> pinv s -> (forall fd, fd ∈ key <$> l -> is_Some (m_resources (s_world s) !! fd)) ->
  wp no_exn (iterM f l) (fun _ s' => pinv s') s.
Proof.
  intros Hf. revert s. induction l as [|a l IH]; intros s HP Hnd Hp Hreg; cbn [iterM]; [by apply wp_ret|].
  apply Forall_cons in HP as [Ha Hl]. cbn in Hnd, Hreg. apply NoDup_cons in Hnd as [Hnin Hnd].
  apply wp_bind. eapply wp_mono; [apply Hf; [done|done|apply Hreg; left]|]. intros [] s' [Hp' Hs']. apply IH; try done.
  intros fd Hin. rewrite Hs' by (intros ->; done). apply Hreg. by right.
Qed.

Lemma slave_poll_ok evs s : pinv s -> Forall (fun e => calm_event e = true) evs -> wp no_exn (slave_poll evs) (fun _ s' => pinv s') s.
Proof.
  intros Hp Hev. unfold slave_poll. apply wp_bind, wp_gets, wp_bind, wp_lift, wp_modify.
  set (s0 := with_world _ s). assert (pinv s0) as Hp0.
  { destruct Hp as [Hi Hc Hin]. split; [|exact Hc|done]. split; cbn; try apply Hi. by intros fd ?%not_elem_of_nil. }
  destruct (sort_unique_spec (m_readables (s_world s))) as [Hnd Hin].
  apply wp_bind. eapply wp_mono; [apply (iter_steps id slave_readable (fun _ => True))|].
  - intros fd s1 _ H1 H2. by apply slave_readable_ok.
  - by apply Forall_true.
  - by rewrite list_fmap_id.
  - done.
  - intros fd Hfd. rewrite list_fmap_id in Hfd. apply Hin in Hfd. apply (si_read _ (pi_sinv _ _ _ Hp)), Hfd.
  - intros [] s1 Hp1. apply wp_bind, wp_gets. rewrite (si_drop _ (pi_sinv _ _ _ Hp1)).
    apply wp_bind, wp_lift, wp_modify. set (s2 := with_world _ s1). assert (pinv s2) as Hp2.
    { destruct Hp1 as [Hi Hc ?]. split; [|exact Hc|done]. split; cbn; try apply Hi. done. }
    apply wp_bind, wp_ret, wp_bind, wp_gets. destruct (epoll_wait_spec evs [] (m_resources (s_world s2))) as [Hnd2 Hin2].
    apply (iter_steps ev_fd slave_event (fun e => calm_event e = true)); try done.
    + intros e s3 ? ? ?. by apply slave_event_ok.
    + clear -Hev. generalize (@nil nat). induction Hev as [|e evs He Hev IH]; intros seen; cbn; [constructor|].
      case_match; [constructor|]; auto.
    + intros fd Hfd. by apply Hin2.
Qed.
End handlers.

(** ** Collecting in a slave *)

Lemma close_all g w :
  w_sched w = [] -> w_workers w = [] -> m_gc_thread w = None -> (forall r, r ∈ g -> is_Some (w_heap w !! r)) ->
  exists h, iterM (fun r => let! _ := try_close r in ret tt) g w = (inr tt, set_heap h w) /\
    (forall r, r ∉ g -> h !! r = w_heap w !! r) /\ forall r, is_Some (h !! r) <-> is_Some (w_heap w !! r).
Proof.
  intros Hs Hw Hgc. revert w Hs Hw Hgc. induction g as [|r g IH]; intros w Hs Hw Hgc Hall.
  { exists (w_heap w). split; [by destruct w|]. done. }
  destruct (Hall r ltac:(left)) as [x Hx]. destruct (IH (upd r with_closed w) Hs Hw Hgc) as (h&Hrun&Hout&Hin).
  { intros r' Hr'. cbn. rewrite lookup_alter_is_Some. apply Hall. by right. }
  exists h. split; [|split].
  - cbn [iterM]. unfold bind at 1 2, try_close, bind. rewrite yield_none by done. unfold deref_res, bind, gets, checked.
    rewrite Hx. unfold held. cbn. rewrite Hw, Hgc. exact Hrun.
  - intros r' Hr'. apply not_elem_of_cons in Hr' as [Hne Hr']. rewrite Hout by done. cbn. by rewrite lookup_alter_ne.
  - intros r'. rewrite Hin. cbn. by rewrite lookup_alter_is_Some.
Qed.

Lemma slave_gc_ok w :
  sinv w -> wp no_exn (let! _ := fix_garbage in gc) (fun _ w' => sinv w' /\ m_resources w' = m_resources w) w.
Proof.
  intros Hi. unfold fix_garbage. apply wp_bind, wp_bind, wp_gets. rewrite (si_copy _ Hi). cbn [negb bool_decide decide_rel].
  rewrite bool_decide_eq_true_2 by done. cbn [negb]. apply wp_bind, wp_gets. case_bool_decide as Hg.
  - apply wp_ret. unfold gc. apply wp_bind, wp_gets. rewrite (si_copy _ Hi). apply wp_bind, wp_ret, wp_modify.
    split; [|done]. split; try apply Hi. done.
  - apply wp_bind, wp_modify, wp_bind.
    destruct (close_all (m_garbage w) (set_garbage [] (set_garbage_copy (m_garbage w) w))) as (h&Hrun&Hout&Hin); try apply Hi.
    unfold wp at 1. rewrite Hrun. apply wp_ret. unfold gc. apply wp_bind, wp_gets. apply wp_bind. cbn [m_garbage_copy set_heap set_garbage set_garbage_copy].
    destruct (destruct_all (m_garbage w) (set_heap h (set_garbage [] (set_garbage_copy (m_garbage w) w)))) as (h2&Hrun2&Hh2).
    { apply Hi. } { intros r Hr. cbn. apply Hin. cbn. by apply Hi. }
    unfold wp at 1. rewrite Hrun2. apply wp_modify. split; [|done]. cbn in Hh2, Hout, Hin. split; cbn; try apply Hi; try done.
    + intros r. rewrite Hh2. case_decide; [by intros []|]. rewrite Hin. apply Hi.
    + intros fd r Hr. destruct (si_reg _ Hi fd r Hr) as (Hng&x&Hx&?). split; [apply not_elem_of_nil|]. exists x.
      rewrite Hh2, decide_False, Hout by done. done.
    + apply NoDup_nil_2.
    + by intros r ?%not_elem_of_nil.
Qed.

(** ** Sessions *)

Definition due_of (it : slave_iter) : bool := match si_callback it with Some false => true | _ => false end.
(** No write fails, and the connection is not found closed in an iteration whose callback
    pings the master. *)
Definition calm_iter (it : slave_iter) : bool :=
  forallb (calm_input (due_of it)) (si_inputs it) && forallb (calm_event (due_of it)) (si_events it).
Definition calm_attempt (a : attempt) : bool := forallb (calm_input false) (at_inputs a) && forallb calm_iter (at_iters a).

Definition in_session (s : slave) : Prop :=
  exists r, m_repl_client_socket s = Some r /\ sinv (s_world s) /\ (live r (s_world s) \/ lost r s).

Lemma callback_ok s :
  pinv true false s -> is_Some (m_repl_client_socket s) -> wp no_exn (slave_callback false) (fun _ => in_session) s.
Proof.
  intros Hp [r Hr]. destruct (pi_conn _ _ _ Hp r Hr) as [[fd Hl]|[? _]]; [|done]. pose proof (pi_sinv _ _ _ Hp) as Hi.
  destruct (si_reg _ Hi fd r Hl) as (Hg&x&Hx&Hfd&Hv&_). unfold slave_callback, on_slave_interval, client_socket.
  apply wp_bind, wp_bind, wp_bind, wp_gets. rewrite Hr. apply wp_ret. apply wp_bind. unfold slave_send.
  apply wp_bind, wp_lift. unfold valid. apply wp_bind. unfold wp at 1. rewrite yield_none by apply Hi.
  apply wp_bind. eapply (wp_deref r x); [done|]. apply wp_ret. rewrite Hv. cbn [negb].
  replace (with_world (s_world s) s) with s by by destruct s. apply wp_bind, (wp_next true false); [done|].
  intros i l Hcalm Hp1. unfold calm_input in Hcalm. destruct (n_fail i); [done|]. apply wp_ret, wp_ret.
  pose proof (slave_gc_ok (s_world s) Hi) as H. apply wp_bind, wp_lift.
  unfold wp in H at 1. unfold bind in H. unfold wp at 1. cbn [s_world with_inputs]. destruct (fix_garbage (s_world s)) as [[e|b] w1]; [done|].
  apply wp_lift. eapply (wp_mono _ _ (fun _ w' => sinv w' /\ m_resources w' = m_resources (s_world s))); [exact H|].
  intros [] w2 [Hi2 E2]. exists r. split; [done|]. split; [done|]. left. exists fd. cbn. by rewrite E2.
Qed.

Lemma forallb_true {A} (f : A -> bool) l : forallb f l = true -> Forall (fun a => f a = true) l.
Proof. rewrite forallb_forall, Forall_forall. intros H a Ha. by apply H, list_elem_of_In. Qed.

(** Only [on_slave_start] sets the pointer to the connection. *)
Definition stays {A} (m : M slave A) : Prop := forall s, m_repl_client_socket (snd (m s)) = m_repl_client_socket s.

Lemma stays_bind {A B} (m : M slave A) (k : A -> M slave B) : stays m -> (forall a, stays (k a)) -> stays (bind m k).
Proof. intros Hm Hk s. unfold bind. specialize (Hm s). destruct (m s) as [[x|a] s1]; [done|]. cbn in Hm. by rewrite Hk. Qed.
Lemma stays_lift {A} (m : M world A) : stays (lift m).
Proof. intros s. unfold lift. by destruct (m (s_world s)). Qed.
Lemma stays_next : stays next.
Proof. intros s. unfold next. by destruct (s_inputs s). Qed.
Lemma stays_iterM {A} (f : A -> M slave unit) l : (forall a, stays (f a)) -> stays (iterM f l).
Proof. intros Hf. induction l as [|a l IH]; [done|]. by apply stays_bind. Qed.

Ltac solve_stays :=
  repeat first [ done | apply stays_bind; [|intros ?] | apply stays_lift | apply stays_next | apply stays_iterM; intros ?
               | progress unfold when, quit | case_match ].

Lemma stays_poll evs : stays (slave_poll evs).
Proof.
  unfold slave_poll, slave_readable, slave_event, slave_unless_ok, slave_on_readable, slave_on_writable, slave_on_error,
    client_readable, signal_readable, listener_readable. solve_stays.
Qed.

Lemma wp_stays {A} (m : M slave A) (Q : A -> slave -> Prop) s :
  stays m -> wp no_exn m Q s -> wp no_exn m (fun a s' => Q a s' /\ m_repl_client_socket s' = m_repl_client_socket s) s.
Proof. intros Hm HQ. specialize (Hm s). unfold wp in *. by destruct (m s) as [[x|a] s']. Qed.

(** A calm iteration of a session. *)
Lemma iteration_ok it s : calm_iter it = true -> s_running s = true -> in_session s -> wp no_exn (slave_iteration it) (fun _ => in_session) s.
Proof.
  intros [Hin Hev]%andb_true_iff Hrun (r&Hr&Hi&Hl). unfold slave_iteration. apply wp_bind, wp_modify, wp_bind.
  eapply wp_mono; [apply wp_stays; [apply stays_poll|apply (slave_poll_ok (due_of it) false); [|by apply forallb_true]]|].
  - split; [done| |by apply forallb_true]. intros q Hq. cbn in Hq. simplify_eq. destruct Hl as [?|[Hl _]]; [by left|congruence].
  - intros [] s1 [Hp1 Hs1]. cbn in Hs1. unfold due_of in Hp1. destruct (si_callback it) as [[]|].
    + apply wp_modify. exists r. split; [cbn; congruence|]. split; [apply Hp1|]. destruct (pi_conn _ _ _ Hp1 r) as [?|(_&?&?&?)]; [congruence|by left|by right].
    + apply callback_ok; [done|]. rewrite Hs1. eauto.
    + apply wp_ret. exists r. split; [congruence|]. split; [apply Hp1|]. destruct (pi_conn _ _ _ Hp1 r) as [?|(_&?)]; [congruence|by left|by right].
Qed.

Lemma slave_loop_ok its s : forallb calm_iter its = true -> in_session s -> wp no_exn (slave_loop its) (fun _ => in_session) s.
Proof.
  revert s. induction its as [|it its IH]; intros s Hc Hs; cbn [slave_loop]; [by apply wp_ret|].
  apply andb_true_iff in Hc as [Hit Hc]. apply wp_bind, wp_gets. destruct (s_running s) eqn:Hr; [|by apply wp_ret].
  apply wp_bind. eapply wp_mono; [by apply iteration_ok|]. intros [] s1 Hs1. by apply IH.
Qed.

(** Between two sessions. *)
Definition at_rest (s : slave) : Prop := sinv (s_world s) /\ conn false true s.

Lemma slave_end_ok s : in_session s -> wp no_exn on_slave_end (fun _ => at_rest) s.
Proof.
  intros (r&Hr&Hi&Hl). unfold on_slave_end, client_socket. apply wp_bind, wp_bind, wp_gets. rewrite Hr. apply wp_ret.
  apply wp_bind, wp_lift. unfold valid. apply wp_bind. unfold wp at 1. rewrite yield_none by apply Hi. apply wp_bind.
  destruct Hl as [[fd Hl]|(_&Hg&x&Hx&Hv)].
  - destruct (si_reg _ Hi fd r Hl) as (Hg&x&Hx&Hfd&Hv&_). eapply (wp_deref r x); [done|]. apply wp_ret. rewrite Hv.
    apply wp_bind, wp_lift. eapply (wp_deref r x); [done|]. apply wp_lift. cbn [s_world with_world]. rewrite Hfd.
    assert (s_world s = upd r (with_valid true) (s_world s)) as E.
    { unfold upd. rewrite alter_id; [by destruct (s_world s)|]. intros y Hy. simplify_eq. destruct x. cbn in *. by subst. }
    rewrite E. unfold wp. rewrite (remove_eq true) by done. split; [by apply sinv_dropped|]. intros q Hq [fd' Hf].
    cbn in Hq, Hf. assert (q = r) as -> by congruence. apply lookup_delete_Some in Hf as [Hne Hf].
    destruct (si_reg _ Hi fd' r Hf) as (_&y&Hy&<-&_). congruence.
  - eapply (wp_deref r x); [done|]. apply wp_ret. rewrite Hv. apply wp_ret. split; [done|]. intros q Hq [fd Hf]. cbn in Hq, Hf.
    assert (q = r) as -> by congruence. by destruct (si_reg _ Hi fd r Hf) as [? _].
Qed.

(** A new connection. *)
Lemma slave_start_ok fd evs s :
  at_rest s -> fd_open fd (s_world s) = false ->
  wp no_exn (on_slave_start (Some fd) evs) (fun b s' => b = true /\ exists r, m_repl_client_socket s' = Some r /\
    sinv (s_world s') /\ live r (s_world s')) s.
Proof.
  intros [Hi Hc] Hfree%bool_decide_eq_false. cbn [on_slave_start]. set (r := w_next (s_world s)).
  assert (w_heap (s_world s) !! r = None) as Hr.
  { destruct (w_heap (s_world s) !! r) eqn:E; [|done]. assert (r < r)%nat; [|lia]. apply (si_next _ Hi). eauto. }
  assert (m_resources (s_world s) !! fd = None) as Hfd.
  { destruct (m_resources (s_world s) !! fd) as [r'|] eqn:E; [|done]. destruct Hfree.
    destruct (si_reg _ Hi fd r' E) as (_&x&Hx&?&?&?). exists r', x. done. }
  apply wp_bind, wp_lift. unfold alloc. apply wp_bind, wp_gets, wp_bind, wp_modify, wp_ret. apply wp_bind, wp_modify.
  apply wp_bind, wp_lift. unfold add_resource. apply wp_bind. cbn [s_world with_world with_socket].
  eapply (wp_deref r); [cbn; apply lookup_insert_eq|]. apply wp_modify, wp_ret. split; [done|]. exists r. split; [done|]. cbn [r_fd new_resource].
  split; [|exists fd; cbn; apply lookup_insert_eq]. split; cbn; try apply Hi.
  - intros r'. destruct (decide (r' = r)) as [-> |Hne]; [lia|]. rewrite lookup_insert_ne by done. intros H%(si_next _ Hi). unfold r. lia.
  - intros fd' r'. destruct (decide (fd' = fd)) as [-> |Hne].
    + rewrite lookup_insert_eq. intros [= <-]. split; [intros H%(si_garbage _ Hi); fold r in H; destruct H; congruence|].
      eexists. by rewrite lookup_insert_eq.
    + rewrite lookup_insert_ne by done. intros H. destruct (si_reg _ Hi fd' r' H) as (?&x&Hx&?). split; [done|]. exists x.
      rewrite lookup_insert_ne; [done|]. intros E. rewrite <- E in Hx. fold r in Hx. congruence.
  - intros fd' H%(si_read _ Hi). destruct (decide (fd' = fd)) as [-> |Hne]; [rewrite lookup_insert_eq; eauto|by rewrite lookup_insert_ne].
  - intros r' H%(si_garbage _ Hi). destruct (decide (r' = r)) as [-> |Hne]; [rewrite lookup_insert_eq; eauto|by rewrite lookup_insert_ne].
Qed.

Lemma serve_slave_ok a s : calm_attempt a = true -> at_rest s -> wp no_exn (serve_slave a) (fun _ => at_rest) s.
Proof.
  intros [Hin Hits]%andb_true_iff Hs. unfold serve_slave. apply wp_bind, wp_modify, wp_bind, wp_gets, wp_bind.
  set (s0 := with_inputs (at_inputs a) s). assert (at_rest s0) as Hs0 by exact Hs.
  destruct (connected a s0) as [fd|] eqn:Hfd.
  - eapply wp_mono; [apply slave_start_ok; [done|]|].
    + unfold connected in Hfd. destruct (at_connect a); [|done]. by destruct (fd_open n _) eqn:E; simplify_eq.
    + intros b s1 (->&r&Hr&Hi&Hl). apply wp_bind, wp_modify, wp_bind. eapply wp_mono; [apply slave_loop_ok; [done|]|].
      * exists r. split_and!; [done..|by left].
      * intros [] s2. apply slave_end_ok.
  - cbn [on_slave_start]. destruct Hs0 as [Hi0 Hc0]. apply wp_bind. eapply wp_mono; [apply (slave_poll_ok false true)|].
    + split; [done|done|by apply forallb_true].
    + apply Forall_true. by intros [].
    + intros [] s1 [Hi Hc _]. by apply wp_ret, wp_ret.
Qed.

Lemma serve_ok l s : forallb calm_attempt l = true -> at_rest s -> wp no_exn (serve l) (fun _ => at_rest) s.
Proof.
  revert s. induction l as [|a l IH]; intros s Hl Hs; cbn [serve]; [by apply wp_ret|]. apply andb_true_iff in Hl as [Ha Hl].
  apply wp_bind. eapply wp_mono; [by apply serve_slave_ok|]. intros [] s1 Hs1. apply wp_bind, wp_gets.
  destruct (s_signaled s1); [by apply wp_ret|]. destruct (at_promote a); [by apply wp_ret|by apply IH].
Qed.

Lemma sinv_start l : sinv (master_start 0 l [] []).
Proof.
  split; cbn; try done; try (by intros ? ?%not_elem_of_nil); try apply NoDup_nil_2.
  - intros r [x Hx]. apply listening_lookup in Hx as (fr&Hr&_). by eapply lookup_lt_Some.
  - intros fd r Hr. split; [apply not_elem_of_nil|]. apply listening_regs in Hr as [b Hb]. eexists. split; [by apply listening_heap|]. done.
Qed.

(** ** Claims *)

(** C25: A slave never touches a dead socket, through any number of connections to masters
    that come and go, failed attempts to connect, signals, and any events, as long as no
    write to the master fails and the loss of the connection is not found in the very
    iteration of the reactor in which the interval of one second has passed. *)
Theorem slave_session_safe sigfd listen l :
  forallb calm_attempt l = true -> exists b s, serve l (slave_start sigfd listen) = (inr b, s).
Proof.
  intros Hl. assert (wp no_exn (serve l) (fun _ => at_rest) (slave_start sigfd listen)) as H.
  { apply serve_ok; [done|]. split; [apply sinv_start|done]. }
  unfold wp in H. destruct (serve l _) as [[x|b] s]; [done|eauto].
Qed.

Definition closed_input : slave_input := {| n_closed := true; n_more := false; n_fail := false; n_term := false |}.
Definition failed_write : slave_input := {| n_closed := false; n_more := false; n_fail := true; n_term := false |}.
Definition iter_of (evs : list event) (ins : list slave_input) (cb : option bool) : slave_iter :=
  {| si_events := evs; si_inputs := ins; si_callback := cb |}.
Definition attempt_of (fd : nat) (its : list slave_iter) (p : bool) : attempt :=
  {| at_connect := Some fd; at_events := []; at_inputs := []; at_iters := its; at_promote := p |}.

(** Two sessions, each ended by its master; then the slave is promoted. *)
Lemma slave_session_safe_witness :
  exists b s, serve [attempt_of 5 [iter_of [ev_in_at 5] [] (Some false); iter_of [ev_in_at 5] [closed_input] None] false;
                     attempt_of 6 [iter_of [] [quiet] (Some false); iter_of [] [] (Some true)] true] (slave_start 3 [4%nat]) = (inr b, s).
Proof. apply slave_session_safe. by vm_compute. Defined.

(** A use of the destructed connection.  First: the master closes it, and the callback of
    the same iteration collects the garbage; [on_slave_end] then asks the destructed
    socket whether it is valid.  Second: the ping fails, which removes the socket but does not end
    the loop; the next callback collects it and the one after pings through it. *)
Theorem slave_use_after_free :
  fst (serve [attempt_of 5 [iter_of [ev_in_at 5] [closed_input] (Some false)] true] (slave_start 3 [4%nat])) = inl bad_read /\
  fst (serve [attempt_of 5 [iter_of [] [failed_write] (Some false); iter_of [] [] (Some false); iter_of [] [] (Some false)] true]
    (slave_start 3 [4%nat])) = inl bad_read.
Proof. by vm_compute. Qed.
