(* ===== verification/Worker.v ===== *)
(** * A worker thread (cybozu/worker.hpp)

    The reactor thread gives jobs to a worker through three members: the job, the running
    flag and an event descriptor.  Each rule of [step] is one access of one of the two threads to
    them, so that the rules interleave as the threads do.  [w_posted] and [w_log] are the
    jobs whose [post_job] returned and the jobs that ran. *)

From stdpp Require Import list.
From S2P Require Import Prelude.

(** Where the worker thread is in [run]. *)
Inductive wpc :=
| WStore              (** [m_running.store(false)] *)
| WRead               (** [read(m_event)] *)
| WSpin               (** [while( ! m_running.load() )] *)
| WTest               (** [if( m_exit ) return] *)
| WRun                (** [m_job(m_buffer)] *)
| WDone.              (** returned *)

(** Where the reactor thread is in [post_job] or [stop]. *)
Inductive rpc :=
| RIdle
| RJob (j : nat)      (** [m_job = job_] *)
| RStore (j : nat)    (** [m_running.store(true)] *)
| RNotify (j : nat)   (** [notify()] *)
| SExit               (** [stop]: [m_exit = true] *)
| SStore
| SNotify
| SJoin               (** [m_thread.join()] *)
| SJoined.

Record wstate := {
  m_running : bool;
  m_exit : bool;
  m_event : nat;                (** the counter of the event descriptor *)
  m_job : option nat;
  w_pc : wpc;
  r_pc : rpc;
  w_log : list nat;
  w_posted : list nat
}.

Definition mk (run ex : bool) (ev : nat) (job : option nat) (p : wpc) (r : rpc) (l po : list nat) : wstate :=
  {| m_running := run; m_exit := ex; m_event := ev; m_job := job; w_pc := p; r_pc := r; w_log := l; w_posted := po |}.

(** The accesses of the worker thread; [read] blocks while the counter is 0 and resets
    it, [m_buffer.reset()] concerns the worker alone. *)
Inductive worker_step : wstate -> wstate -> Prop :=
| step_store run ex ev job r l po :
    worker_step (mk run ex ev job WStore r l po) (mk false ex ev job WRead r l po)
| step_read run ex ev job r l po :
    worker_step (mk run ex (S ev) job WRead r l po) (mk run ex 0 job WSpin r l po)
| step_spin ex ev job r l po :
    worker_step (mk true ex ev job WSpin r l po) (mk true ex ev job WTest r l po)
| step_exit run ev job r l po :
    worker_step (mk run true ev job WTest r l po) (mk run true ev job WDone r l po)
| step_test run ev job r l po :
    worker_step (mk run false ev job WTest r l po) (mk run false ev job WRun r l po)
| step_run run ex ev j r l po :
    worker_step (mk run ex ev (Some j) WRun r l po) (mk run ex ev (Some j) WStore r (l ++ [j]) po).

(** Those of the reactor thread: a job is posted to a worker that is not running (the
    finder), and the worker is stopped once. *)
Inductive reactor_step : wstate -> wstate -> Prop :=
| step_finder ex ev job p j l po :
    reactor_step (mk false ex ev job p RIdle l po) (mk false ex ev job p (RJob j) l po)
| step_job run ex ev job p j l po :
    reactor_step (mk run ex ev job p (RJob j) l po) (mk run ex ev (Some j) p (RStore j) l po)
| step_running run ex ev job p j l po :
    reactor_step (mk run ex ev job p (RStore j) l po) (mk true ex ev job p (RNotify j) l po)
| step_notify run ex ev job p j l po :
    reactor_step (mk run ex ev job p (RNotify j) l po) (mk run ex (S ev) job p RIdle l (po ++ [j]))
| step_stop run ex ev job p l po :
    reactor_step (mk run ex ev job p RIdle l po) (mk run ex ev job p SExit l po)
| step_set_exit run ex ev job p l po :
    reactor_step (mk run ex ev job p SExit l po) (mk run true ev job p SStore l po)
| step_stop_running run ex ev job p l po :
    reactor_step (mk run ex ev job p SStore l po) (mk true ex ev job p SNotify l po)
| step_stop_notify run ex ev job p l po :
    reactor_step (mk run ex ev job p SNotify l po) (mk run ex (S ev) job p SJoin l po)
| step_join run ex ev job l po :
    reactor_step (mk run ex ev job WDone SJoin l po) (mk run ex ev job WDone SJoined l po).

Definition step (s s' : wstate) : Prop := worker_step s s' \/ reactor_step s s'.

(** The constructor leaves the flag false and the counter 0; the thread is about to begin
    [run], or has begun to wait. *)
Definition created : wstate := mk false false 0 None WStore RIdle [] [].
Definition waiting : wstate := mk false false 0 None WRead RIdle [] [].

Definition reaches (s : wstate) : Prop := rtc step waiting s.

(** ** Invariant *)

(** Before a stop: what the worker does for each state of the reactor thread. *)
Definition serving (s : wstate) : Prop :=
  m_exit s = false /\
  match r_pc s with
  | RIdle =>
      match w_pc s with
      | WStore => m_running s = true /\ m_event s = 0%nat /\ w_posted s = w_log s
      | WRead => (m_running s = false /\ m_event s = 0%nat /\ w_posted s = w_log s) \/
                 (m_running s = true /\ m_event s = 1%nat /\ exists j, m_job s = Some j /\ w_posted s = w_log s ++ [j])
      | WSpin | WTest | WRun => m_running s = true /\ m_event s = 0%nat /\ exists j, m_job s = Some j /\ w_posted s = w_log s ++ [j]
      | WDone => False
      end
  | RJob _ => w_pc s = WRead /\ m_running s = false /\ m_event s = 0%nat /\ w_posted s = w_log s
  | RStore j => w_pc s = WRead /\ m_running s = false /\ m_event s = 0%nat /\ m_job s = Some j /\ w_posted s = w_log s
  | RNotify j => w_pc s = WRead /\ m_running s = true /\ m_event s = 0%nat /\ m_job s = Some j /\ w_posted s = w_log s
  | _ => False
  end.

(** From a stop on: the worker may see the exit flag before it runs the last job. *)
Definition stopping (s : wstate) : Prop :=
  match r_pc s with
  | SExit => serving (mk (m_running s) (m_exit s) (m_event s) (m_job s) (w_pc s) RIdle (w_log s) (w_posted s))
  | SStore | SNotify | SJoin | SJoined =>
      m_exit s = true /\ (w_pc s = WRun -> exists j, m_job s = Some j /\ w_posted s = w_log s ++ [j]) /\
      (w_posted s = w_log s \/ exists j, w_posted s = w_log s ++ [j])
  | _ => False
  end.

Lemma serving_worker s s' : serving s -> worker_step s s' -> serving s'.
Proof.
  intros [Hx Hs] H. destruct H; cbn in *; (split; [done|]);
    repeat match goal with
           | H : _ /\ _ |- _ => destruct H
           | H : exists _, _ |- _ => destruct H
           | H : _ \/ _ |- _ => destruct H
           | _ => progress simplify_eq/=
           end; cbn; eauto 10; destruct r; cbn in *; naive_solver.
Qed.

Lemma serving_reactor s s' : serving s -> reactor_step s s' -> serving s' \/ stopping s'.
Proof.
  intros [Hx Hs] H. destruct H; cbn in *; try done; try (left; split; [done|]; cbn; naive_solver).
  - left. split; [done|]. cbn. destruct p; naive_solver.
  - right. by split.
Qed.

Lemma stopping_worker s s' : stopping s -> worker_step s s' -> stopping s'.
Proof.
  intros Hs H. destruct (r_pc s) eqn:Hr; unfold stopping in Hs; rewrite Hr in Hs; try done.
  - assert (r_pc s' = SExit) as Hr' by (destruct H; done). unfold stopping. rewrite Hr'.
    eapply serving_worker; [exact Hs|]. destruct H; constructor.
  - destruct H; cbn in *; subst r; cbn; naive_solver.
  - destruct H; cbn in *; subst r; cbn; naive_solver.
  - destruct H; cbn in *; subst r; cbn; naive_solver.
  - destruct H; cbn in *; subst r; cbn; naive_solver.
Qed.

Lemma stopping_reactor s s' : stopping s -> reactor_step s s' -> stopping s'.
Proof.
  intros Hs H. destruct H; cbn in *; try done.
  destruct Hs as [_ Hs]. cbn in Hs. split; [done|]. destruct p; naive_solver.
Qed.

Lemma worker_reaches_inv s : reaches s -> serving s \/ stopping s.
Proof.
  revert s. apply (rtc_ind_r (fun s => serving s \/ stopping s)); [left; by repeat split; left|].
  intros s1 s2 _ [Hw|Hr] [Hi|Hi]; eauto using serving_worker, serving_reactor, stopping_worker, stopping_reactor.
Qed.

(** The worker alone runs the job that waits. *)
Lemma run_pending p ev j l :
  (p, ev) ∈ [(WRun, 0%nat); (WTest, 0%nat); (WSpin, 0%nat); (WRead, 1%nat)] ->
  rtc worker_step (mk true false ev (Some j) p RIdle l (l ++ [j])) (mk false false 0 (Some j) WRead RIdle (l ++ [j]) (l ++ [j])).
Proof.
  assert (rtc worker_step (mk true false 0 (Some j) WRun RIdle l (l ++ [j])) (mk false false 0 (Some j) WRead RIdle (l ++ [j]) (l ++ [j]))) as H1
    by (eapply rtc_l; [apply step_run|apply rtc_once, step_store]).
  assert (forall q, worker_step q (mk true false 0 (Some j) WRun RIdle l (l ++ [j])) ->
    rtc worker_step q (mk false false 0 (Some j) WRead RIdle (l ++ [j]) (l ++ [j]))) as H2 by (intros; by eapply rtc_l).
  intros H. repeat (apply elem_of_cons in H as [[= -> ->]|H]); [done|apply H2, step_test| | |by apply not_elem_of_nil in H].
  - eapply rtc_l; [apply step_spin|apply H2, step_test].
  - eapply rtc_l; [apply step_read|]. eapply rtc_l; [apply step_spin|apply H2, step_test].
Qed.

(** ** Claims *)

(** C24: Every job runs once, in the order in which the jobs were posted.  In every
    interleaving of a worker that waits and a reactor thread that posts jobs to it when it
    is not running and may stop it: the jobs that ran are the posted ones, except for the last
    one while it waits for its turn; and the job is written only while the worker waits
    for its event, so that the two threads never access it at the same time. *)
Theorem worker_runs_jobs s :
  reaches s ->
  (w_posted s = w_log s \/ (exists j, w_posted s = w_log s ++ [j])) /\
  (forall j, r_pc s = RJob j -> w_pc s = WRead /\ m_event s = 0%nat /\ w_posted s = w_log s) /\
  (w_pc s = WRun -> exists j, m_job s = Some j /\ w_posted s = w_log s ++ [j]).
Proof.
  intros H%worker_reaches_inv. split_and!; destruct H as [[Hx H]|H]; unfold stopping, serving in H; destruct (r_pc s); try done;
    destruct (w_pc s); naive_solver.
Qed.

(** A posted job is run.  In every reachable state in which [post_job] has returned
    and the worker was not stopped, the steps of the worker alone lead to a state in which
    all the jobs posted have run, the worker is not running and waits for the next one. *)
Theorem worker_progress s :
  reaches s -> r_pc s = RIdle ->
  exists s', rtc worker_step s s' /\ w_log s' = w_posted s /\ m_running s' = false /\ w_pc s' = WRead.
Proof.
  intros H%worker_reaches_inv Hr. destruct H as [[Hx H]|H]; [|by unfold stopping in H; rewrite Hr in H].
  destruct s as [run ex ev job p r l po]. cbn in *. subst r ex.
  assert ((exists j, run = true /\ job = Some j /\ po = l ++ [j] /\ (p, ev) ∈ [(WRun, 0%nat); (WTest, 0%nat); (WSpin, 0%nat); (WRead, 1%nat)]) \/
    (po = l /\ ev = 0%nat /\ (p = WStore \/ (p = WRead /\ run = false)))) as [(j&->&->&->&Hin)|(->&->&[-> |[-> ->]])].
  { destruct p; try done; naive_solver set_solver. }
  - eexists. split; [by apply run_pending|done].
  - eexists. split; [apply rtc_once, step_store|done].
  - eexists. split; [apply rtc_refl|done].
Qed.

(** [stop] returns when the worker has nothing to do.  From every reachable state in
    which the reactor thread calls [stop] and the worker has finished all its jobs and waits, the
    steps of the two threads lead to the end of [join]. *)
Theorem worker_stop_idle s :
  reaches s -> r_pc s = SExit -> m_running s = false -> exists s', rtc step s s' /\ r_pc s' = SJoined /\ w_log s' = w_posted s.
Proof.
  intros H%worker_reaches_inv Hr Hrun. destruct H as [[_ H]|H]; [by rewrite Hr in H|]. unfold stopping in H. rewrite Hr in H. destruct H as [Hx H].
  destruct s as [run ex ev job p r l po]. cbn in *. subst r ex run.
  assert (p = WRead /\ ev = 0%nat /\ po = l) as (->&->&->) by (destruct p; naive_solver).
  exists (mk true true 0 job WDone SJoined l l). split; [|done].
  eapply rtc_l; [right; apply step_set_exit|]. eapply rtc_l; [right; apply step_stop_running|].
  eapply rtc_l; [right; apply step_stop_notify|]. eapply rtc_l; [left; apply step_read|].
  eapply rtc_l; [left; apply step_spin|]. eapply rtc_l; [left; apply step_exit|].
  apply rtc_once. right. apply step_join.
Qed.

(** ** Two jobs, and what goes wrong at the start and at the end *)

(** One job posted and not yet seen by the worker. *)
Definition one_posted : wstate := mk true false 1 (Some 7%nat) WRead RIdle [] [7%nat].

Lemma one_posted_reached : reaches one_posted.
Proof.
  eapply rtc_l; [right; apply (step_finder _ _ _ _ 7)|]. eapply rtc_l; [right; apply step_job|].
  eapply rtc_l; [right; apply step_running|]. apply rtc_once. right. apply step_notify.
Qed.

Lemma worker_runs_jobs_witness : w_posted one_posted = w_log one_posted \/ exists j, w_posted one_posted = w_log one_posted ++ [j].
Proof. apply (worker_runs_jobs one_posted), one_posted_reached. Defined.

Lemma worker_progress_witness :
  exists s', rtc worker_step one_posted s' /\ w_log s' = [7%nat] /\ m_running s' = false /\ w_pc s' = WRead.
Proof. apply (worker_progress one_posted); [apply one_posted_reached|done]. Defined.

Lemma worker_stop_idle_witness :
  let s := mk false false 0 None WRead SExit [] [] in exists s', rtc step s s' /\ r_pc s' = SJoined /\ w_log s' = [].
Proof. apply (worker_stop_idle (mk false false 0 None WRead SExit [] [])); [|done..]. apply rtc_once. right. apply step_stop. Defined.

(** No thread can take a step. *)
Definition stuck (s : wstate) : Prop := forall s', ~ step s s'.

Lemma spin_stuck ex ev job r l po : r = SJoin \/ r = SJoined -> stuck (mk false ex ev job WSpin r l po).
Proof. intros Hr s' [H|H]; inversion H; naive_solver. Qed.

(** [stop] does not return when it is called while the worker runs a job: the worker's
    next [m_running.store(false)] undoes the store of [stop], and the worker spins for
    ever without looking at the exit flag. *)
Theorem worker_stop_hangs : exists s, reaches s /\ r_pc s = SJoin /\ stuck s.
Proof.
  exists (mk false true 0 (Some 7%nat) WSpin SJoin [7%nat] [7%nat]). split; [|split; [done|apply spin_stuck; by left]].
  unfold reaches. etransitivity; [apply one_posted_reached|].
  eapply rtc_l; [left; apply step_read|]. eapply rtc_l; [left; apply step_spin|]. eapply rtc_l; [left; apply step_test|].
  eapply rtc_l; [right; apply step_stop|]. eapply rtc_l; [right; apply step_set_exit|].
  eapply rtc_l; [right; apply step_stop_running|]. eapply rtc_l; [right; apply step_stop_notify|].
  eapply rtc_l; [left; apply step_run|]. eapply rtc_l; [left; apply step_store|]. apply rtc_once. left. apply step_read.
Qed.

(** A job posted before the thread has begun [run] is lost: its first
    [m_running.store(false)] undoes the store of [post_job], and the worker spins until another job
    takes the place of the first. *)
Theorem worker_first_job_lost :
  exists s, rtc step created s /\ r_pc s = RIdle /\ w_posted s = [7%nat] /\ w_log s = [] /\ m_running s = false /\
    forall s', ~ worker_step s s'.
Proof.
  exists (mk false false 0 (Some 7%nat) WSpin RIdle [] [7%nat]). split_and!; try done; [|intros s' H; inversion H].
  eapply rtc_l; [right; apply (step_finder _ _ _ _ 7)|]. eapply rtc_l; [right; apply step_job|].
  eapply rtc_l; [right; apply step_running|]. eapply rtc_l; [right; apply step_notify|].
  eapply rtc_l; [left; apply step_store|]. apply rtc_once. left. apply step_read.
Qed.
