(* ===== verification/Spinlock.v ===== *)
(** * The spinlock and the removal requests it guards (cybozu/spinlock.hpp,
    cybozu/reactor.hpp, cybozu/reactor.cpp)

    Worker threads report sockets that they have invalidated by [request_removal]; the
    reactor thread takes the requests in [poll].  The vector of requests is guarded by a
    spinlock.  Here the calls are split into their accesses: the test-and-set of the flag,
    the read of the vector, its update, the release; Reactor.v takes each call as one step.
    Theorems: the lock excludes, no request is lost or taken twice, and no thread waits for
    ever. *)

From stdpp Require Import list.
From S2P Require Import Prelude.

(** ** The threads *)

(** Where a worker is in [request_removal(fd)]. *)
Inductive wpc :=
| WIdle
| WSpin (fd : nat)                    (** [while( m_flag.test_and_set() ) pause()] *)
| WPush (fd : nat)                    (** [m_drop_req.push_back]: before it reads the vector *)
| WStore (fd : nat) (seen : list nat) (** it has read the vector *)
| WUnlock (fd : nat).                 (** [m_flag.clear()] *)

(** Where the reactor thread is in [poll]. *)
Inductive rpc :=
| RIdle
| RSpin
| RSwap                               (** [m_drop_req_copy.swap(m_drop_req)] *)
| RStore (seen : list nat)
| RUnlock
| RRemove.                            (** the loop over [m_drop_req_copy] *)

Record shared := {
  m_flag : bool;
  m_drop_req : list nat;
  m_drop_req_copy : list nat;
  asked : list nat;        (** the requests that were made *)
  removed : list nat       (** the calls of [remove_resource] *)
}.
Definition with_flag (b : bool) (s : shared) : shared :=
  {| m_flag := b; m_drop_req := m_drop_req s; m_drop_req_copy := m_drop_req_copy s; asked := asked s; removed := removed s |}.
Definition push (l : list nat) (fd : nat) (s : shared) : shared :=
  {| m_flag := m_flag s; m_drop_req := l ++ [fd]; m_drop_req_copy := m_drop_req_copy s; asked := asked s ++ [fd];
     removed := removed s |}.
Definition swap (l : list nat) (s : shared) : shared :=
  {| m_flag := m_flag s; m_drop_req := m_drop_req_copy s; m_drop_req_copy := l; asked := asked s; removed := removed s |}.
Definition remove (fd : nat) (l : list nat) (s : shared) : shared :=
  {| m_flag := m_flag s; m_drop_req := m_drop_req s; m_drop_req_copy := l; asked := asked s; removed := removed s ++ [fd] |}.

(** [spinlock::lock] when the flag is clear, and one more round when it is set. *)
Inductive worker_step : shared -> wpc -> shared -> wpc -> Prop :=
| w_call s fd : worker_step s WIdle s (WSpin fd)
| w_spin s fd : m_flag s = true -> worker_step s (WSpin fd) s (WSpin fd)
| w_lock s fd : m_flag s = false -> worker_step s (WSpin fd) (with_flag true s) (WPush fd)
| w_read s fd : worker_step s (WPush fd) s (WStore fd (m_drop_req s))
| w_write s fd l : worker_step s (WStore fd l) (push l fd s) (WUnlock fd)
| w_unlock s fd : worker_step s (WUnlock fd) (with_flag false s) WIdle.

Inductive reactor_step : shared -> rpc -> shared -> rpc -> Prop :=
| r_call s : reactor_step s RIdle s RSpin
| r_spin s : m_flag s = true -> reactor_step s RSpin s RSpin
| r_lock s : m_flag s = false -> reactor_step s RSpin (with_flag true s) RSwap
| r_read s : reactor_step s RSwap s (RStore (m_drop_req s))
| r_write s l : reactor_step s (RStore l) (swap l s) RUnlock
| r_unlock s : reactor_step s RUnlock (with_flag false s) RRemove
| r_remove s fd l : m_drop_req_copy s = fd :: l -> reactor_step s RRemove (remove fd l s) RRemove
| r_end s : m_drop_req_copy s = [] -> reactor_step s RRemove s RIdle.

Record state := { sh : shared; workers : list wpc; the_reactor : rpc }.

Inductive step : state -> state -> Prop :=
| step_worker l1 p l2 r s s' p' :
    worker_step s p s' p' ->
    step {| sh := s; workers := l1 ++ p :: l2; the_reactor := r |} {| sh := s'; workers := l1 ++ p' :: l2; the_reactor := r |}
| step_reactor l r s s' r' :
    reactor_step s r s' r' ->
    step {| sh := s; workers := l; the_reactor := r |} {| sh := s'; workers := l; the_reactor := r' |}.

Definition start (n : nat) : state :=
  {| sh := {| m_flag := false; m_drop_req := []; m_drop_req_copy := []; asked := []; removed := [] |};
     workers := replicate n WIdle; the_reactor := RIdle |}.
Definition reaches (n : nat) (s : state) : Prop := rtc step (start n) s.

(** ** The invariant *)

(** Inside the critical section. *)
Definition w_in (p : wpc) : nat := match p with WPush _ | WStore _ _ | WUnlock _ => 1 | _ => 0 end.
Definition r_in (r : rpc) : nat := match r with RSwap | RStore _ | RUnlock => 1 | _ => 0 end.
Definition inside (s : state) : nat := r_in (the_reactor s) + sum_list_with w_in (workers s).

(** What a thread has read is still there. *)
Definition w_seen (s : shared) (p : wpc) : Prop := match p with WStore _ l => l = m_drop_req s | _ => True end.
Definition r_seen (s : shared) (r : rpc) : Prop :=
  match r with
  | RStore l => l = m_drop_req s /\ m_drop_req_copy s = []
  | RUnlock | RRemove => True
  | _ => m_drop_req_copy s = []
  end.

Record inv (s : state) : Prop := {
  in_lock : inside s = if m_flag (sh s) then 1%nat else 0%nat;
  in_workers : Forall (w_seen (sh s)) (workers s);
  in_reactor : r_seen (sh s) (the_reactor s);
  in_requests : asked (sh s) = removed (sh s) ++ m_drop_req_copy (sh s) ++ m_drop_req (sh s)
}.

Lemma sum_middle l1 p l2 :
  sum_list_with w_in (l1 ++ p :: l2) = (sum_list_with w_in (l1 ++ l2) + w_in p)%nat.
Proof. rewrite !sum_list_with_app. cbn. lia. Qed.

(** When nobody else is inside, nobody else has read anything. *)
Lemma seen_outside s l : sum_list_with w_in l = 0%nat -> Forall (w_seen s) l.
Proof.
  induction l as [|p l IH]; [done|]. cbn. intros H. constructor; [|apply IH; lia]. destruct p; cbn in *; done || lia.
Qed.

Lemma start_inv n : inv (start n).
Proof.
  assert (sum_list_with w_in (replicate n WIdle) = 0%nat) as H0 by (induction n; [done|by cbn]).
  split; [by unfold inside; cbn; rewrite H0|by apply seen_outside|done|done].
Qed.

Lemma worker_inv s p s' p' l1 l2 r :
  worker_step s p s' p' ->
  inv {| sh := s; workers := l1 ++ p :: l2; the_reactor := r |} ->
  inv {| sh := s'; workers := l1 ++ p' :: l2; the_reactor := r |}.
Proof.
  intros Hst [H1 H2 H3 H4]. unfold inside in H1. cbn [sh workers the_reactor] in *. rewrite sum_middle in H1.
  apply Forall_app in H2 as [Ha Hb]. apply Forall_cons in Hb as [Hp Hb].
  destruct Hst as [s fd|s fd Hf|s fd Hf|s fd|s fd l|s fd]; cbn in H1, Hp;
    (split; [unfold inside; cbn [sh workers the_reactor]; rewrite sum_middle; cbn|cbn [sh workers]|cbn [sh the_reactor]|cbn [sh]]);
    try done; try (apply Forall_app; split; [done|constructor; done]).
  - rewrite Hf in H1. lia.
  - destruct (m_flag s); [|lia].
    pose proof (seen_outside (push l fd s) (l1 ++ l2) ltac:(lia)) as Hs. apply Forall_app in Hs as [? ?].
    apply Forall_app. split; [done|]. by constructor.
  - destruct (m_flag s); [|lia]. destruct r; cbn in *; try done; lia.
  - cbn. rewrite H4, Hp. by rewrite <- !app_assoc.
  - destruct (m_flag s); lia.
Qed.

Lemma reactor_inv s r s' r' l :
  reactor_step s r s' r' ->
  inv {| sh := s; workers := l; the_reactor := r |} -> inv {| sh := s'; workers := l; the_reactor := r' |}.
Proof.
  intros Hst [H1 H2 H3 H4]. unfold inside in H1. cbn [sh workers the_reactor] in *.
  destruct Hst as [s|s Hf|s Hf|s|s m|s|s fd m Hm|s Hm]; cbn in H1, H3;
    (split; [unfold inside; cbn|cbn [sh workers]|cbn [sh the_reactor]|cbn [sh]]); try done.
  - rewrite Hf in H1. lia.
  - destruct (m_flag s); [|lia]. apply seen_outside. lia.
  - cbn. destruct H3 as [-> Hc]. by rewrite H4, Hc, app_nil_r.
  - destruct (m_flag s); lia.
  - cbn. rewrite H4, Hm. by rewrite <- !app_assoc.
Qed.

Lemma reaches_inv n s : reaches n s -> inv s.
Proof.
  unfold reaches. intros H. pose proof (start_inv n) as Hi. revert Hi. induction H as [|x y z Hst _ IH]; [done|].
  intros Hi. apply IH. destruct Hst; [by eapply worker_inv|by eapply reactor_inv].
Qed.

(** Somebody inside the critical section can leave it. *)
Lemma w_inside l : (0 < sum_list_with w_in l)%nat -> exists l1 p l2, l = l1 ++ p :: l2 /\ w_in p = 1%nat.
Proof.
  induction l as [|p l IH]; cbn; [lia|]. intros H. destruct (w_in p) as [|k] eqn:Ep.
  - destruct IH as (l1&q&l2&->&Hq); [lia|]. by exists (p :: l1), q, l2.
  - exists [], p, l. split; [done|]. by destruct p.
Qed.

Lemma worker_moves l1 p l2 r s :
  p <> WIdle -> (w_in p = 0%nat -> m_flag s = false) ->
  exists s', step {| sh := s; workers := l1 ++ p :: l2; the_reactor := r |} s' /\
    s' <> {| sh := s; workers := l1 ++ p :: l2; the_reactor := r |}.
Proof.
  intros Hp Hf.
  assert (exists s' p', worker_step s p s' p' /\ p' <> p) as (s'&p'&Hst&Hne).
  { destruct p as [|fd|fd|fd l|fd]; [done|..].
    - eexists _, _. split; [apply w_lock, Hf; done|done].
    - eexists _, _. split; [apply w_read|done].
    - eexists _, _. split; [apply w_write|done].
    - eexists _, _. split; [apply w_unlock|done]. }
  eexists. split; [by apply step_worker|]. intros [= _ E]. by apply app_inv_head in E as [= ->].
Qed.

Lemma reactor_moves l r s :
  r <> RIdle -> (r = RSpin -> m_flag s = false) ->
  exists s', step {| sh := s; workers := l; the_reactor := r |} s' /\ s' <> {| sh := s; workers := l; the_reactor := r |}.
Proof.
  intros Hr Hf.
  assert (exists s' r', reactor_step s r s' r' /\ (s' <> s \/ r' <> r)) as (s'&r'&Hst&Hne).
  { destruct r as [| | |m| |]; [done|..].
    - eexists _, _. split; [apply r_lock, Hf; done|by right].
    - eexists _, _. split; [apply r_read|by right].
    - eexists _, _. split; [apply r_write|by right].
    - eexists _, _. split; [apply r_unlock|by right].
    - destruct (m_drop_req_copy s) as [|fd m] eqn:E.
      + eexists _, _. split; [by apply r_end|by right].
      + eexists _, _. split; [by apply r_remove|left]. intros Es. apply (f_equal (fun s => length (m_drop_req_copy s))) in Es.
        cbn in Es. rewrite E in Es. cbn in Es. lia. }
  eexists. split; [by apply step_reactor|]. intros [= -> ->]. by destruct Hne.
Qed.

Lemma somebody_moves s :
  inv s -> the_reactor s <> RIdle \/ (exists p, p ∈ workers s /\ p <> WIdle) -> exists s', step s s' /\ s' <> s.
Proof.
  intros [H1 _ _ _] Hbusy. destruct s as [x l r]. unfold inside in H1. cbn in *. destruct (m_flag x) eqn:Ef.
  - destruct (Nat.eq_dec (r_in r) 0) as [Hr|Hr].
    + destruct (w_inside l) as (l1&p&l2&->&Hp); [lia|]. apply worker_moves; [by intros ->|lia].
    + apply reactor_moves; [by intros ->|by intros ->].
  - destruct Hbusy as [Hr|(p&Hp&Hne)]; [by apply reactor_moves|].
    apply list_elem_of_split in Hp as (l1&l2&->). by apply worker_moves.
Qed.

(** C27: Removal requests are neither lost nor repeated.  In any interleaving of any number
    of workers that request removals with the reactor that takes them: at most one thread is
    between [lock] and [unlock] (and one is, exactly when the flag is set); the requests
    that were made, in the order in which they were made, are those whose [remove_resource]
    was called, then those the reactor is about to process, then those in the vector; and
    some thread that is not idle can always go on, without waiting for another one. *)
Theorem removal_requests_kept n s :
  reaches n s ->
  (inside s <= 1)%nat /\ (inside s = 1%nat <-> m_flag (sh s) = true) /\
  asked (sh s) = removed (sh s) ++ m_drop_req_copy (sh s) ++ m_drop_req (sh s) /\
  ((the_reactor s <> RIdle \/ exists p, p ∈ workers s /\ p <> WIdle) -> exists s', step s s' /\ s' <> s).
Proof.
  intros H. pose proof (reaches_inv n s H) as [H1 H2 H3 H4].
  split; [rewrite H1; by destruct (m_flag (sh s)); lia|]. split; [rewrite H1; by destruct (m_flag (sh s))|]. split; [done|].
  by apply somebody_moves.
Qed.

(** Two workers and the reactor: the second worker waits for the first, and the reactor
    takes one request while the other comes. *)
Definition sample_shared (f : bool) (req copy asked removed : list nat) : shared :=
  {| m_flag := f; m_drop_req := req; m_drop_req_copy := copy; asked := asked; removed := removed |}.
Definition sample_state (s : shared) (p q : wpc) (r : rpc) : state := {| sh := s; workers := [p; q]; the_reactor := r |}.

Lemma first_step s p q r s' p' : worker_step s p s' p' -> step (sample_state s p q r) (sample_state s' p' q r).
Proof. intros H. by apply (step_worker [] p [q]). Qed.
Lemma second_step s p q r s' q' : worker_step s q s' q' -> step (sample_state s p q r) (sample_state s' p q' r).
Proof. intros H. by apply (step_worker [p] q []). Qed.
Lemma third_step s p q r s' r' : reactor_step s r s' r' -> step (sample_state s p q r) (sample_state s' p q r').
Proof. intros H. by apply step_reactor. Qed.

Definition sample_reached : state := sample_state (sample_shared true [] [5%nat] [5%nat] []) WIdle (WPush 6) RRemove.

Lemma sample_reaches : reaches 2 sample_reached.
Proof.
  unfold reaches, start. change (rtc step (sample_state (sample_shared false [] [] [] []) WIdle WIdle RIdle) sample_reached).
  eapply rtc_l; [apply first_step, (w_call _ 5)|].
  eapply rtc_l; [by apply first_step, w_lock|].
  eapply rtc_l; [apply second_step, (w_call _ 6)|].
  eapply rtc_l; [by apply second_step, w_spin|].
  eapply rtc_l; [apply first_step, w_read|].
  eapply rtc_l; [apply first_step, w_write|].
  eapply rtc_l; [apply first_step, w_unlock|].
  eapply rtc_l; [apply third_step, r_call|].
  eapply rtc_l; [by apply third_step, r_lock|].
  eapply rtc_l; [apply third_step, r_read|].
  eapply rtc_l; [apply third_step, r_write|].
  eapply rtc_l; [apply third_step, r_unlock|].
  eapply rtc_l; [by apply second_step, w_lock|]. apply rtc_refl.
Qed.

Lemma removal_requests_kept_witness :
  inside sample_reached = 1%nat /\ m_drop_req_copy (sh sample_reached) = [5%nat] /\
  (exists s', step sample_reached s' /\ s' <> sample_reached).
Proof.
  destruct (removal_requests_kept 2 sample_reached sample_reaches) as (_&_&_&Hp).
  split; [reflexivity|]. split; [reflexivity|]. apply Hp. left. done.
Defined.
